(* ===== verification/_CoqProject ===== *)
-Q . S2P
Prelude.v
Writer.v
Utf8.v
Utf7.v
Types.v
Receiver.v
ReceiverSpec.v
Sequence.v
Flags.v
Wire.v
Commands.v
Parsers.v
ParseSearch.v
ParseFetch.v
Tags.v
Store.v
UidStore.v
UidSpec.v
UidOps.v
UidProps.v
Modseq.v
Jmap.v
Synchronize.v
BTree.v
Mailboxes.v
Folders.v
SelectedMailbox.v
Responses.v
FetchWire.v
FetchRead.v
Mime.v
MimeSpec.v
Tasks.v
SearchTask.v
SearchSpec.v
ExpungeTask.v
StatusTask.v
AclTask.v
FetchTask.v
StoreTask.v
CopyTask.v
AppendTask.v
ThreadTask.v
FetchSpec.v
IdleTask.v
Settings.v
Startup.v
Listing.v
Sasl.v
Session.v
SessionSpec.v
SessionProps.v
Lifecycle.v
Server.v
Answers.v
TaskAnswers.v
Conversations.v
Snapshots.v
Reachable.v
Accounting.v
Sieve.v
SieveSession.v
SieveSpec.v
SieveHandlers.v
SieveProps.v
