(* ===== verification/Prelude.v ===== *)
(** * An IMAP-to-JMAP proxy: verification library

    The program ([src/], in Rust) accepts IMAP connections, turns each command
    into requests to a JMAP server and the answers into IMAP responses.  It
    keeps one thing of its own: a key-value store ([sled]) with the UIDs it
    gave to JMAP message ids and the numbers it gave to JMAP states.  This
    library models the program's logic in Rocq, file by file, and proves what
    makes it correct.  Paths below are relative to [src/src/].

    ** How a command travels, and where it is modelled

    Bytes from the socket go to [Receiver::parse] ([core/receiver.rs]), which
    yields requests: [Receiver.v] has the state machine (one definition per
    [State], [step] for an iteration, [parse] for the loop) and
    [ReceiverSpec.v] its invariant.  [Session::ingest] ([core/client.rs])
    collects the requests of a chunk, checks each against the state of the
    session and dispatches it to its handler ([commands/*.rs]): [Session.v],
    with [Sasl.v] for the AUTHENTICATE challenges.  A handler parses the
    tokens of the request with [parser/*.rs]: [Commands.v] (command names),
    [Sequence.v] (numbers and sequence sets), [Flags.v], [Parsers.v] (all but
    the following), [ParseSearch.v] (SEARCH, SORT, THREAD), [ParseFetch.v].
    Most handlers spawn a task that talks to the JMAP server.  Tasks on
    mailboxes: [Mailboxes.v], [Folders.v], [Listing.v], [StatusTask.v],
    [AclTask.v] ([core/mailbox.rs],
    [commands/{create,delete,rename,subscribe,list,status,acl}.rs]).  Tasks on
    messages: [Synchronize.v] has the reading of a mailbox ([core/message.rs]),
    [SelectedMailbox.v] the snapshot of the selected mailbox ([core/message.rs],
    the saved search of [commands/search.rs]), [Tasks.v] the state such a task
    works on, [SearchTask.v], [ThreadTask.v], [FetchTask.v] (with [Mime.v] for
    the parts of a message), [StoreTask.v], [CopyTask.v], [AppendTask.v],
    [ExpungeTask.v] and [IdleTask.v] the commands
    ([commands/{search,thread,fetch,store,copy_move,append,expunge,idle}.rs]);
    [SearchSpec.v], [FetchSpec.v] and [MimeSpec.v] say what they mean.  The answers are serialized by [protocol/*.rs]:
    [Wire.v] (strings, status responses, capabilities), [Responses.v],
    [FetchWire.v] (FETCH) with its reader [FetchRead.v]; the writer task of a
    connection ([core/writer.rs]) is [Writer.v].
    [Store.v] is the interface to the key-value store, [UidStore.v] the
    functions of [core/message.rs] on it, [UidSpec.v], [UidOps.v] and
    [UidProps.v] their specification; [Modseq.v] is the numbering of states of
    [core/mailbox.rs].  [Types.v] holds the enumerations of [core/mod.rs],
    [Jmap.v] the errors of the JMAP client and what IMAP clients are told of
    them, [BTree.v] the ordered maps, [Utf8.v] and [Utf7.v] the encodings
    ([core/utf7.rs]).  This file, the prelude, has bytes, strings, the result
    type [Res] (with [Panic] for a Rust panic) and shared lemmas and tactics.

    [Server.v] puts the parts together: it implements the interface [Backend]
    of the handlers with the components above, queues the tasks they spawn and
    runs them ([run_task]); its [Demo] is a JMAP server in memory, on which
    [imap_conversation] evaluates a session from LOGIN to LOGOUT.  [Tags.v],
    [Answers.v] and [TaskAnswers.v] follow the tag of a command from the
    parsers through the handlers and the tasks, [Conversations.v] through a
    chunk of input and the tasks it starts.  [Snapshots.v] and [Reachable.v]
    make the connection and its tasks a transition system, in which any waiting
    task may run next, with an invariant of the states that can be reached.
    [Accounting.v] adds to its steps what was received and what has run, and
    balances requests against answers.  [Lifecycle.v] goes from the listener
    through the greeting, the timeouts and the TLS upgrade to the end of a
    connection ([core/listener.rs], [core/connection.rs]); a connection is a
    timeline of reads, each with the seconds that pass before it.
    ManageSieve ([managesieve/]) is a second front end over the same receiver:
    [Sieve.v] (commands, responses), [SieveSession.v] (the connection and every
    handler), [SieveSpec.v] (an abstract store of scripts), [SieveHandlers.v]
    and [SieveProps.v] (handlers against it).  [Settings.v] has the settings of
    the process and the schedule of the housekeeper ([core/env_settings.rs],
    [core/housekeeper.rs]), [Startup.v] what is made of them: the database, the
    certificate and the key, the listeners ([core/config.rs], [lib.rs]).

    ** Correspondence of data

    A [u8] is a [Z] in [0..255]; [Vec<u8>], [&str] and [String] are lists of
    bytes, a [String] being one that [from_utf8] accepts.  A [u16], [u32],
    [u64] or [i32] is a [Z] with its wrap-around or truncation written where
    the code adds, shifts or casts (release profile: no overflow checks).
    Structs are Records, enums Inductives with the same constructors (suffixed
    where two enums share one).  [AHashMap] is a [gmap], [BTreeMap] a sorted
    list, a [Vec] a list.  [Result] with a possible panic is [Res]: [Ok],
    [Err], [Panic].  A serializer that appends to a buffer is the list
    of bytes it appends.  Store operations run in the monad [EM] (explicit
    state, errors kept apart from panics); handlers run in a monad over the
    session, the world and the trace of bytes written and tasks spawned.

    ** Interfaces

    What is not source of this repository is a class, with its documented
    behaviour as laws in a second class: [Sled] / [SledLaws] (the store),
    [Clock] / [ClockLaws], [EmailClient] / [EmailClientLaws] (paged
    Email/query), [MailboxClient] (Mailbox/get, /query, /changes),
    [FolderClient] (Mailbox/set), [AclClient] / [AclLaws], [StatusClient],
    [SearchClient] / [SearchClientLaws] (Email/query with filters),
    [FetchClient] (Email/get, blobs, the message parser), [StoreClient],
    [CopyClient], [AppendClient], [ThreadClient], [ExpungeClient] /
    [ExpungeLaws], [ChangesClient], [Limits] (of the session), [SieveBackend] /
    [SieveLaws] (scripts), [Sockets] / [SocketLaws], [Streams] / [StreamsLaws],
    [Process], [Platform], [LocalTime],
    [DebugFmt], [Chrono], [Charsets], [Base64], [Md5].  [Backend] /
    [BackendLaws] is the interface between the handlers of [Session.v] and the
    functions of [SessionData] that the files on tasks define.  [KV], [mem_sled],
    [stopped_clock] and the [Demo] modules are concrete instances; every
    theorem with hypotheses has a witness that applies it to one of them.

    ** What the theorems show

    - Input: a request is read back exactly as the client wrote it
      ([request_roundtrip]), whatever chunks it arrives in ([parse_app]); no
      input panics or exceeds the size budget ([parse_safe]); every request
      starts from a clean receiver ([parse_restarts]); literals are taken
      verbatim ([literal_verbatim]).  The argument parsers always return
      ([parsers_return], [search_parsers_return]) and keep the tag of the request
      ([Tags.v]), sequence sets and fetch
      items are read as written ([parse_sequence_set_text],
      [parse_fetch_verbatim], [parse_store_verbatim]), search keys follow the
      grammar ([parse_filters_grammar]) and mean what they say
      ([search_meaning]).
    - Sessions: which pipelined input is handled without a panic
      ([ingest_never_panics]), what a client without valid credentials can do
      ([rejected_client_stays_outside]; [rejected_connection] from the listener to
      the end, with the timeout), which commands have an advertised capability
      ([advertised_allowed]), AUTHENTICATE over two lines
      ([authenticate_continues]).  Every request of a chunk is answered with
      its tag once, by its handler or by the one task it is given to
      ([chunk_answered]), a task that ends has answered every command it was
      given ([tasks_answer]), and together: what the client is sent for a chunk
      and its tasks, in any order, answers every request once
      ([commands_answered]), and at every moment of a connection the answers and
      the tasks that wait are balanced by the requests that came
      ([conversation_accounted]).  The exceptions are an AUTHENTICATE that waits for
      its next line, what follows a STARTTLS, an IDLE that is not stopped and a
      THREAD that is refused.  Whatever happens, snapshots keep their shape and
      references are to what is there ([reachable_coherent]).
    - UIDs: the tables implement an abstract map ([update_uids_refines],
      [delete_ids_refines], [jmap_to_imap_spec], [update_uids_answer]), no UID is
      reused over any sequence of operations ([uid_never_reused]), reading a
      mailbox from the server implements the synchronization of that map
      ([synchronize_messages_refines]); states get consecutive numbers
      ([state_to_modseq_numbers]).
    - The selected mailbox: a client that applies the EXPUNGE responses has the
      server's list ([synchronize_uids_client]); sequence numbers and UIDs name
      the right messages ([sequence_to_jmap_spec], [expand_contains]).
    - Mailboxes: the names built from the parent links ([build_account_names]),
      look-up ([get_mailbox_by_name_spec]), reported changes
      ([account_changes_complete]), CREATE and RENAME
      ([validate_mailbox_create_spec], [created_mailbox_found],
      [rename_names_moves]), LIST ([listed_mailboxes_open],
      [matches_pattern_simple], [matches_pattern_sound]).
    - Output: responses can be read back ([list_item_reads_back],
      [search_reads_back], [serialize_sequence_parse], [utf7_roundtrip]), a
      status response is one line ([status_serialize_line]).
    - Messages: SEARCH finds the messages that the keys describe
      ([search_finds], [imap_filter_to_jmap_meaning]), THREAD groups them
      ([thread_answers]); FETCH answers every message with the items asked for
      ([fetch_messages_answers]) and marks nothing as seen unless asked to
      ([peek_marks_nothing]), body structures mirror the message
      ([body_structure_tree]), its parts are where they say
      ([body_sections_join]), and a client reads the responses back
      ([fetch_reads_back]); STORE leaves what changed alone
      ([store_leaves_changed]) and reports the truth ([store_reports]); MOVE
      and APPEND tell the client where messages are ([move_client],
      [append_uids]); EXPUNGE destroys what is flagged and named, nothing else
      ([expunge_destroys]; [expunge_command] from the request to the answer),
      its answer ([expunge_answer_client]) and the
      untagged responses of NOOP and IDLE ([write_changes_in_step]) keep the
      client in step, IDLE ends with DONE ([idle_ends]).
    - STATUS answers each item once ([status_answers]); what SETACL grants
      GETACL shows ([setacl_then_getacl], [deleteacl_then_getacl]).
    - ManageSieve: no input panics when AUTHENTICATE and UNAUTHENTICATE come
      last in their chunk ([sieve_never_panics]), who may reach the scripts ([sieve_outside]), the
      handlers implement the abstract store ([sieve_refines_store]), a script
      that was put is got back byte for byte ([scripts_read_back]).
    - The process: bytes reach the socket in order ([writer_delivers]), the
      command line comes before the file and the file before the environment
      ([settings_precedence]), a server that starts listens where they say
      and has what it needs ([start_imap_server_spec], [build_core_spec]), the
      daily schedule ([daily_schedule]).
    Where the code does not do what it means to, an [Example] shows it on a
    concrete input, next to the component's theorems.

    ** Fuel and bounds

    The receiver is structural in its input.  The argument parsers are
    structural in the tokens where they consume one per iteration, and
    otherwise carry fuel of one more than the tokens, which
    [search_parsers_return] and [parse_fetch_returns] show to be enough.
    [ingest] collects with fuel of the input length plus one (each round
    consumes a byte).  [tree_loop] runs for [tree_steps], the exact number of
    its iterations ([tree_loop_visit]); [match_loop] for the length of the
    pattern ([match_loop_fuel]), the translation of search keys for
    [filter_steps], the exact number of its iterations.  The loops over the
    pages of a query carry fuel: more than the messages that match is enough
    ([search_finds], [thread_answers]).  ManageSieve collects with fuel of the
    chunk length plus one.  The hundred pages of the query loops are the
    code's own bound.

    ** Not modelled

    - Sockets, TLS handshakes, name resolution, PEM files and the database as
      such: operations of the classes [Platform] and [Streams]. Signals and the
      subscriber of the log (the rest of [lib.rs]) are not modelled: input and
      output; [main.rs] only calls [start_imap_server].
    - The conversions [into_owned] of [protocol/fetch.rs]: copies.
    - Concurrency: an operation that holds its lock throughout is one step;
      tasks run one after the other, in any order ([Reachable.v]), and are not
      interleaved step by step. *)

From stdpp Require Export base list strings gmap option numbers.
From Stdlib Require Export ZArith Lia ZifyBool Bool.
From Stdlib Require Import Ascii.

Open Scope Z_scope.
Set Default Proof Using "Type".

(** ** Bytes

    A [u8] is a [Z] in [0 .. 255]; [&[u8]], [Vec<u8>] and (UTF-8 encoded)
    [String]/[str] values are lists of bytes. *)
Abbreviation bytes := (list Z) (only parsing).
Abbreviation str := (list Z) (only parsing).

Definition is_byte (b : Z) : Prop := 0 <= b < 256.
Abbreviation all_bytes := (Forall is_byte).

(** Byte-string literals: [b "NIL"] is the Rust literal [b"NIL"]. *)
Definition byte_of_ascii (a : ascii) : Z := Z.of_N (N_of_ascii a).
Fixpoint b (s : string) : bytes :=
  match s with
  | EmptyString => []
  | String a s' => byte_of_ascii a :: b s'
  end.

(** Frequently used single bytes. *)
Definition SP : Z := 32.
Definition DQUOTE : Z := 34.
Definition LF : Z := 10.
Definition CR : Z := 13.
Definition BACKSLASH : Z := 92.
Definition CRLF : bytes := [CR; LF].

(** ** ASCII predicates of [u8] in the Rust standard library *)
Definition is_ascii_whitespace (c : Z) : bool :=
  (c =? 32) || (c =? 9) || (c =? 10) || (c =? 12) || (c =? 13).
Definition is_ascii_digit (c : Z) : bool := (48 <=? c) && (c <=? 57).
Definition is_ascii_upper (c : Z) : bool := (65 <=? c) && (c <=? 90).
Definition is_ascii_lower (c : Z) : bool := (97 <=? c) && (c <=? 122).
Definition is_ascii_alphanumeric (c : Z) : bool :=
  is_ascii_digit c || is_ascii_upper c || is_ascii_lower c.
Definition to_ascii_uppercase (c : Z) : Z := if is_ascii_lower c then c - 32 else c.
Definition to_ascii_lowercase (c : Z) : Z := if is_ascii_upper c then c + 32 else c.

Definition bytes_eqb (x y : bytes) : bool := bool_decide (x = y).
Definition eq_ignore_ascii_case (x y : bytes) : bool :=
  bytes_eqb (map to_ascii_lowercase x) (map to_ascii_lowercase y).

Lemma bytes_eqb_eq x y : bytes_eqb x y = true <-> x = y.
Proof. unfold bytes_eqb. by rewrite bool_decide_eq_true. Qed.

Lemma eq_ignore_ascii_case_refl x : eq_ignore_ascii_case x x = true.
Proof. by apply bytes_eqb_eq. Qed.

Fixpoint starts_with (p s : bytes) : bool :=
  match p, s with
  | [], _ => true
  | x :: p', y :: s' => (x =? y) && starts_with p' s'
  | _, [] => false
  end.

Lemma starts_with_spec p s : starts_with p s = true <-> exists r, s = p ++ r.
Proof.
  revert s; induction p as [|x p IH]; intros s; simpl.
  - split; [intros _; by exists s | done].
  - destruct s as [|y s].
    + split; [done | intros [r Hr]; done].
    + rewrite andb_true_iff, Z.eqb_eq, IH. split.
      * intros [-> [r ->]]. by exists r.
      * intros [r Hr]. simplify_eq. split; [done | by exists r].
Qed.

Lemma starts_with_app p r : starts_with p (p ++ r) = true.
Proof. apply starts_with_spec. by exists r. Qed.

(** [str::strip_prefix] *)
Fixpoint strip_prefix (p s : bytes) : option bytes :=
  match p, s with
  | [], _ => Some s
  | x :: p', y :: s' => if x =? y then strip_prefix p' s' else None
  | _ :: _, [] => None
  end.

Lemma strip_prefix_app p s : strip_prefix p (p ++ s) = Some s.
Proof. induction p as [|x p IH]; [done|]. cbn. by rewrite Z.eqb_refl. Qed.

Lemma strip_prefix_spec p s r : strip_prefix p s = Some r <-> s = p ++ r.
Proof.
  split; [|intros ->; apply strip_prefix_app].
  revert s; induction p as [|x p IH]; intros [|y s]; cbn; try done; try (by intros [= <-]).
  destruct (Z.eqb_spec x y) as [->|]; [|done]. by intros ->%IH.
Qed.

(** ** Results

    [Ok]/[Err] are Rust's [Result]; [Panic] is an unwinding panic (an
    [unwrap] of [None], an index out of bounds, [unreachable!()]); [NoFuel]
    marks a loop of the model that was given too little fuel, and every
    component with fuel proves that it cannot come out. *)
Inductive Res (E A : Type) : Type :=
| Ok (a : A)
| Err (e : E)
| Panic
| NoFuel.
Arguments Ok {E A} a.
Arguments Err {E A} e.
Arguments Panic {E A}.
Arguments NoFuel {E A}.

Definition res_bind {E A B} (r : Res E A) (k : A -> Res E B) : Res E B :=
  match r with
  | Ok a => k a
  | Err e => Err e
  | Panic => Panic
  | NoFuel => NoFuel
  end.

(** [r.map_err(f)] *)
Definition map_err {E F A} (f : E -> F) (r : Res E A) : Res F A :=
  match r with
  | Ok a => Ok a
  | Err e => Err (f e)
  | Panic => Panic
  | NoFuel => NoFuel
  end.

(** [o.ok_or(e)] *)
Definition ok_or {E A} (o : option A) (e : E) : Res E A :=
  match o with Some a => Ok a | None => Err e end.

(** [o.unwrap()] *)
Definition unwrap {E A} (o : option A) : Res E A :=
  match o with Some a => Ok a | None => Panic end.

(** [r.ok()] *)
Definition ok_of {E A} (r : Res E A) : option A :=
  match r with Ok a => Some a | _ => None end.

Declare Scope imap_scope.
Delimit Scope imap_scope with imap.
Notation "'let*' x ':=' r 'in' k" :=
  (res_bind r (fun x => k))
  (at level 10, x pattern, r at level 100, k at level 200)
  : imap_scope.
Open Scope imap_scope.

(** The computation returns: it neither panics nor runs out of fuel. *)
Definition returns {E A} (r : Res E A) : Prop :=
  match r with Ok _ | Err _ => True | Panic | NoFuel => False end.

Create HintDb imap.

Lemma returns_bind {E A B} (r : Res E A) (k : A -> Res E B) :
  returns r -> (forall a, r = Ok a -> returns (k a)) -> returns (res_bind r k).
Proof. destruct r; simpl; auto. Qed.

Lemma returns_map_err {E F A} (f : E -> F) (r : Res E A) :
  returns r -> returns (map_err f r).
Proof. destruct r; auto. Qed.

Lemma returns_ok_or {E A} (o : option A) (e : E) : returns (ok_or o e).
Proof. by destruct o. Qed.

Lemma res_bind_ok {E A B} (r : Res E A) (k : A -> Res E B) v :
  res_bind r k = Ok v -> exists a, r = Ok a /\ k a = Ok v.
Proof. destruct r; simpl; intros H; try done. eauto. Qed.

#[export] Hint Resolve returns_map_err returns_ok_or : imap.

(** Case analysis that closes the goals about [returns] of straight-line code. *)
Ltac returns_tac :=
  repeat first
    [ exact I
    | solve [auto with imap]
    | apply returns_bind; [| intros ? ?]
    | apply returns_map_err
    | progress simpl
    | case_match ].

(** Decide the boolean guards of a goal by linear arithmetic. *)
Ltac if_lia :=
  repeat match goal with
  | |- context [if ?c then _ else _] =>
      lazymatch c with
      | true => fail
      | false => fail
      | _ => first [ replace c with true by lia | replace c with false by lia ]
      end
  end.

(** [lia] with division and remainder by constants. *)
Ltac divmod_lia := Z.to_euclidean_division_equations; lia.

(** ** Filters *)
Lemma forall_filter {A} (Q P : A -> Prop) `{!forall x, Decision (P x)} l :
  Forall Q l -> Forall Q (filter P l).
Proof.
  induction 1 as [|x l Hx _ IH]; [done|]. rewrite filter_cons. case_decide; by repeat constructor.
Qed.

Lemma filter_ext_in {A} (P Q : A -> Prop) `{!forall x, Decision (P x)} `{!forall x, Decision (Q x)} (l : list A) :
  (forall x, x ∈ l -> P x <-> Q x) -> filter P l = filter Q l.
Proof.
  induction l as [|x l IH]; intros HPQ; [done|]. rewrite !filter_cons.
  rewrite IH by (intros; apply HPQ; by right).
  pose proof (HPQ x (list_elem_of_here _ _)). repeat case_decide; tauto.
Qed.

Lemma filter_none {A} (P : A -> Prop) `{!forall x, Decision (P x)} (l : list A) :
  (forall x, x ∈ l -> ~ P x) -> filter P l = [].
Proof.
  induction l as [|x l IH]; intros HP; [done|]. rewrite filter_cons, decide_False; [|apply HP; by left].
  apply IH. intros y Hy. apply HP. by right.
Qed.

(** ** Decimal numbers

    [x.to_string()] of an unsigned integer, and [str::parse::<uN>()]. *)
Fixpoint dec_digits (fuel : nat) (n : Z) (acc : bytes) : bytes :=
  match fuel with
  | O => acc
  | S f => if n <? 10 then (48 + n) :: acc
           else dec_digits f (n / 10) ((48 + n mod 10) :: acc)
  end.
Definition dec (n : Z) : bytes := dec_digits (S (Z.to_nat (Z.log2 n))) n [].

Fixpoint digits_value (acc : Z) (s : bytes) : option Z :=
  match s with
  | [] => Some acc
  | c :: s' => if is_ascii_digit c then digits_value (acc * 10 + (c - 48)) s' else None
  end.

(** [str::parse] at an unsigned width: an optional ['+'], at least one digit,
    an error above the largest value of the type. *)
Definition parse_uint (width : Z) (s : bytes) : option Z :=
  let s := match s with 43 :: s' => s' | _ => s end in
  match s with
  | [] => None
  | _ => match digits_value 0 s with
         | Some v => if v <? 2 ^ width then Some v else None
         | None => None
         end
  end.

Definition is_u32 (n : Z) : Prop := 0 <= n < 2 ^ 32.
Definition is_u64 (n : Z) : Prop := 0 <= n < 2 ^ 64.
Definition u32_max : Z := 2 ^ 32 - 1.

Lemma digits_value_acc_nonneg s acc v :
  0 <= acc -> digits_value acc s = Some v -> 0 <= v.
Proof.
  revert acc; induction s as [|c s IH]; intros acc Ha; simpl.
  - intros; simplify_eq; done.
  - destruct (is_ascii_digit c) eqn:Hc; [|done].
    unfold is_ascii_digit in Hc. apply IH. lia.
Qed.

Lemma parse_uint_bound w s v : parse_uint w s = Some v -> 0 <= v < 2 ^ w.
Proof.
  unfold parse_uint. set (s0 := match s with 43 :: _ => _ | _ => _ end).
  destruct s0; [done|]. destruct (digits_value 0 _) eqn:E; [|done].
  apply digits_value_acc_nonneg in E; [|lia].
  destruct (Z.ltb_spec z0 (2 ^ w)); intros; simplify_eq; lia.
Qed.

Lemma dec_digits_value fuel n acc v0 r :
  0 <= n < 2 ^ Z.of_nat fuel -> 0 <= v0 ->
  exists k, 0 < k /\ digits_value v0 (dec_digits fuel n acc ++ r) = digits_value (v0 * k + n) (acc ++ r).
Proof.
  revert n acc v0; induction fuel as [|f IH]; intros n acc v0 Hn Hv.
  { exists 1. simpl in *. split; [lia|]. f_equal; lia. }
  simpl dec_digits. destruct (Z.ltb_spec n 10).
  - exists 10. split; [lia|]. simpl. unfold is_ascii_digit. if_lia. f_equal. lia.
  - rewrite Nat2Z.inj_succ, Z.pow_succ_r in Hn by lia.
    pose proof (Z.div_mod n 10 ltac:(lia)) as Hd.
    pose proof (Z.mod_pos_bound n 10 ltac:(lia)) as Hm.
    destruct (IH (n / 10) ((48 + n mod 10) :: acc) v0) as (k & Hk & E).
    { split; [apply Z.div_pos; lia|]. apply Z.div_lt_upper_bound; lia. }
    { done. }
    exists (k * 10). split; [lia|]. rewrite E. simpl.
    unfold is_ascii_digit. if_lia. f_equal. lia.
Qed.

Lemma dec_digits_all fuel n acc :
  0 <= n -> Forall (fun c => is_ascii_digit c = true) acc ->
  Forall (fun c => is_ascii_digit c = true) (dec_digits fuel n acc).
Proof.
  revert n acc; induction fuel as [|f IH]; intros n acc Hn Ha; simpl; [done|].
  pose proof (Z.mod_pos_bound n 10 ltac:(lia)) as Hm.
  destruct (Z.ltb_spec n 10).
  - constructor; [unfold is_ascii_digit; lia | done].
  - apply IH; [apply Z.div_pos; lia|].
    constructor; [unfold is_ascii_digit; lia | done].
Qed.

Lemma dec_all_digits n :
  0 <= n -> Forall (fun c => is_ascii_digit c = true) (dec n).
Proof. intros. apply dec_digits_all; [done | constructor]. Qed.

Lemma dec_digits_suffix fuel n acc : exists p, dec_digits fuel n acc = p ++ acc.
Proof.
  revert n acc; induction fuel as [|f IH]; intros n acc; simpl; [by exists []|].
  destruct (n <? 10); [by exists [48 + n]|].
  destruct (IH (n / 10) ((48 + n mod 10) :: acc)) as [p ->].
  exists (p ++ [48 + n mod 10]). by rewrite <- app_assoc.
Qed.

Lemma dec_cons n : exists c s, dec n = c :: s.
Proof.
  unfold dec. simpl. destruct (n <? 10); [by eexists _, _|].
  destruct (dec_digits_suffix (Z.to_nat (Z.log2 n)) (n / 10) [48 + n mod 10]) as [p ->].
  destruct p; by eexists _, _.
Qed.

Lemma digits_value_dec n : 0 <= n -> digits_value 0 (dec n) = Some n.
Proof.
  intros Hn. rewrite <- (app_nil_r (dec n)). unfold dec.
  destruct (dec_digits_value (S (Z.to_nat (Z.log2 n))) n [] 0 []) as (k & _ & ->).
  - split; [done|]. rewrite Nat2Z.inj_succ, Z2Nat.id by apply Z.log2_nonneg.
    destruct (decide (n = 0)) as [->|]; [done|]. apply Z.log2_spec; lia.
  - done.
  - done.
Qed.

Lemma dec_head_digit n c s : 0 <= n -> dec n = c :: s -> is_ascii_digit c = true.
Proof.
  intros Hn E. pose proof (dec_all_digits n Hn) as H. rewrite E in H. by inv H.
Qed.

(** Parsing the decimal rendering of a number gives the number back. *)
Lemma parse_uint_dec w n : 0 <= n < 2 ^ w -> parse_uint w (dec n) = Some n.
Proof.
  intros Hn. pose proof (digits_value_dec n ltac:(lia)) as Hv.
  destruct (dec_cons n) as (c & s & E).
  pose proof (dec_head_digit n c s ltac:(lia) E) as Hc.
  rewrite E in *. unfold parse_uint. unfold is_ascii_digit in Hc.
  assert (Hplus : match c :: s with 43 :: s' => s' | _ => c :: s end = c :: s).
  { destruct (decide (c = 43)); [lia|]. by repeat case_match. }
  rewrite Hplus, Hv. by if_lia.
Qed.

(** ** Machine integers

    [wrap32 x] is the low 32 bits of [x], the result of a [u32] shift. *)
Definition wrap32 (x : Z) : Z := Z.land x (Z.ones 32).

Lemma wrap32_mod x : wrap32 x = x mod 2 ^ 32.
Proof. unfold wrap32. by rewrite Z.land_ones. Qed.

Lemma lor_shiftl_add a n r :
  0 <= n -> 0 <= r < 2 ^ n -> Z.lor (Z.shiftl a n) r = a * 2 ^ n + r.
Proof.
  intros Hn Hr. rewrite <- Z.shiftl_mul_pow2 by done. symmetry.
  apply Z.add_nocarry_lor, Z.bits_inj'. intros i Hi.
  rewrite Z.land_spec, Z.bits_0. destruct (Z.ltb_spec i n).
  - by rewrite Z.shiftl_spec_low.
  - assert (Hb : Z.testbit r i = false); [|by rewrite Hb, andb_false_r].
    destruct (decide (r = 0)) as [->|]; [apply Z.bits_0|].
    apply Z.bits_above_log2; [lia|].
    apply Z.log2_lt_pow2; [lia|]. eapply Z.lt_le_trans; [apply Hr|].
    apply Z.pow_le_mono_r; lia.
Qed.

(** The low [k] bits of a value, followed through shifts. *)
Lemma low_append k v x s :
  0 <= k <= 26 -> 0 <= s < 64 -> v mod 2 ^ k = x ->
  wrap32 (Z.lor (Z.shiftl v 6) s) mod 2 ^ (k + 6) = x * 64 + s.
Proof.
  intros Hk Hs <-. rewrite wrap32_mod, lor_shiftl_add by lia.
  change (2 ^ 6) with 64.
  replace (2 ^ 32) with (2 ^ (26 - k) * 2 ^ (k + 6))
    by (rewrite <- Z.pow_add_r by lia; f_equal; lia).
  rewrite Z.mod_mod_divide by apply Z.divide_factor_r.
  pose proof (Z.pow_pos_nonneg 2 k ltac:(lia) ltac:(lia)) as Hp.
  pose proof (Z.mod_pos_bound v (2 ^ k) ltac:(lia)) as Hv.
  rewrite Z.pow_add_r by lia. change (2 ^ 6) with 64.
  symmetry. apply (Z.mod_unique _ _ (v / 2 ^ k)); [lia|].
  pose proof (Z.div_mod v (2 ^ k) ltac:(lia)). nia.
Qed.

Lemma low_extract k v x :
  0 <= k -> v mod 2 ^ (k + 16) = x -> Z.land (Z.shiftr v k) 65535 = x / 2 ^ k.
Proof.
  intros Hk <-. change 65535 with (Z.ones 16).
  rewrite Z.land_ones, Z.shiftr_div_pow2, Z.pow_add_r by lia.
  pose proof (Z.pow_pos_nonneg 2 k ltac:(lia) ltac:(lia)) as Hp.
  rewrite Z.rem_mul_r, (Z.mul_comm (2 ^ k)), Z.div_add by lia.
  rewrite (Z.div_small (v mod 2 ^ k)); [lia|]. apply Z.mod_pos_bound; lia.
Qed.

Lemma low_drop k m v x :
  0 <= m <= k -> v mod 2 ^ k = x -> v mod 2 ^ m = x mod 2 ^ m.
Proof.
  intros Hm <-. symmetry. apply Z.mod_mod_divide.
  exists (2 ^ (k - m)). rewrite <- Z.pow_add_r by lia. f_equal. lia.
Qed.
