(* ===== verification/Writer.v ===== *)
(** * The writer of a connection: [src/core/writer.rs]

    Every connection has a task that owns the sending half of its socket.  The
    session and the tasks it spawned send it events over a channel: bytes to
    write, a new socket, or the request to hand the socket over for STARTTLS. *)

From S2P Require Import Prelude.

Section Writer.
(** The sending halves of a TCP connection and of a TLS connection, and the
    channel on which an upgrade waits. *)
Context {Tcp Tls Channel : Type}.

Inductive Event :=
| Stream (stream : Tcp)
| StreamTls (stream : Tls)
| Bytes (x : bytes)
| Upgrade (channel : Channel).

(** [write_all] and [send]: did they succeed? *)
Class Sockets (W : Type) := {
  write_tcp : Tcp -> bytes -> W -> bool * W;
  write_tls : Tls -> bytes -> W -> bool * W;
  send_stream : Channel -> Event -> W -> bool * W
}.

Context {W : Type} `{Sockets W}.

(** The events in the order of the channel, until all senders are gone. *)
Fixpoint writer_loop (stream : Event) (events : list Event) (w : W) : Res unit unit * W :=
  match stream with
  | Stream stream_tx =>
      match events with
      | [] => (Ok tt, w)
      | Bytes bytes :: events' =>
          let '(written, w) := write_tcp stream_tx bytes w in
          if written then writer_loop stream events' w else (Ok tt, w)
      | Upgrade channel :: events' =>
          let '(sent, w) := send_stream channel (Stream stream_tx) w in
          if sent then
            match events' with
            | stream' :: events'' => writer_loop stream' events'' w
            | [] => (Ok tt, w)
            end
          else (Ok tt, w)
      | event :: events' => writer_loop event events' w
      end
  | StreamTls stream_tx =>
      match events with
      | [] => (Ok tt, w)
      | Bytes bytes :: events' =>
          let '(written, w) := write_tls stream_tx bytes w in
          if written then writer_loop stream events' w else (Ok tt, w)
      | event :: events' => writer_loop event events' w
      end
  | _ => (Panic, w)
  end.

Definition spawn_writer (events : list Event) (w : W) : Res unit unit * W :=
  match events with
  | stream :: events' => writer_loop stream events' w
  | [] => (Panic, w)
  end.

(** ** Where the bytes go *)

(** A use of the channel that the task expects: a socket first, an upgrade only
    of a TCP socket, and right after it the new one. *)
Fixpoint orderly (tcp : bool) (events : list Event) : bool :=
  match events with
  | [] => true
  | Bytes _ :: events' => orderly tcp events'
  | Stream _ :: events' => orderly true events'
  | StreamTls _ :: events' => orderly false events'
  | Upgrade _ :: events' =>
      tcp && match events' with
             | [] => true
             | Stream _ :: _ | StreamTls _ :: _ => orderly tcp events'
             | _ => false
             end
  end.

(** The sockets, and what is to be written to which. *)
Abbreviation Socket := (Tcp + Tls)%type.

Fixpoint routed (socket : Socket) (events : list Event) : list (Socket * bytes) :=
  match events with
  | [] => []
  | Bytes x :: events' => (socket, x) :: routed socket events'
  | Stream s :: events' => routed (inl s) events'
  | StreamTls s :: events' => routed (inr s) events'
  | Upgrade _ :: events' => routed socket events'
  end.

(** What the sockets promise: a write that succeeded arrived, after all that
    arrived before; one that failed, and the handing over, leave nothing else. *)
Class SocketLaws := {
  arrived : W -> list (Socket * bytes);
  write_tcp_law s x w : let '(ok, w') := write_tcp s x w in
    arrived w' = if ok : bool then arrived w ++ [(inl s, x)] else arrived w;
  write_tls_law s x w : let '(ok, w') := write_tls s x w in
    arrived w' = if ok : bool then arrived w ++ [(inr s, x)] else arrived w;
  send_stream_law c s w : arrived (send_stream c s w).2 = arrived w
}.

Context `{Laws : !SocketLaws}.

Definition event_of (socket : Socket) : Event := match socket with inl s => Stream s | inr s => StreamTls s end.
Definition is_tcp (socket : Socket) : bool := match socket with inl _ => true | inr _ => false end.

(** No write and no handing over fails. *)
Definition reliable : Prop :=
  (forall s x w, (write_tcp s x w).1 = true) /\ (forall s x w, (write_tls s x w).1 = true) /\
  (forall c s w, (send_stream c s w).1 = true).

(** What arrived is the beginning of [sent], all of it if nothing fails. *)
Definition delivers (sent : list (Socket * bytes)) (w : W) (r : Res unit unit * W) : Prop :=
  r.1 = Ok tt /\ exists n, arrived r.2 = arrived w ++ take n sent /\ (reliable -> n = length sent).

Lemma delivers_stop sent w w' : arrived w' = arrived w -> (reliable -> sent = []) -> delivers sent w (Ok tt, w').
Proof. intros Ha Hs. split; [done|]. exists O. cbn. rewrite app_nil_r. split; [done|]. intros Hr. by rewrite (Hs Hr). Qed.

Lemma delivers_write p sent w w' r : arrived w' = arrived w ++ [p] -> delivers sent w' r -> delivers (p :: sent) w r.
Proof.
  intros Ha (Hr & n & Hn & Hrel). split; [done|]. exists (S n). cbn. rewrite Hn, Ha, <- app_assoc. split; [done|].
  intros Hre. by rewrite Hrel.
Qed.

Lemma delivers_same sent w w' r : arrived w' = arrived w -> delivers sent w' r -> delivers sent w r.
Proof. intros Ha (Hr & n & Hn & Hrel). split; [done|]. exists n. by rewrite Hn, Ha. Qed.

Lemma writer_loop_delivers events socket w :
  orderly (is_tcp socket) events = true ->
  delivers (routed socket events) w (writer_loop (event_of socket) events w).
Proof.
  remember (length events) as n eqn:Hn. revert events Hn socket w.
  induction n as [n IH] using lt_wf_ind. intros events -> socket w Ho.
  destruct events as [|e events].
  { destruct socket; by apply delivers_stop. }
  assert (Hrec : forall socket' events' w', (length events' < length (e :: events))%nat ->
    orderly (is_tcp socket') events' = true -> delivers (routed socket' events') w' (writer_loop (event_of socket') events' w')).
  { intros socket' events' w' Hlt. by apply (IH (length events')). }
  clear IH. destruct e as [s|s|x|c].
  - replace (writer_loop _ _ _) with (writer_loop (event_of (inl s)) events w) by by destruct socket.
    apply (Hrec (inl s)); [cbn; lia|done].
  - replace (writer_loop _ _ _) with (writer_loop (event_of (inr s)) events w) by by destruct socket.
    apply (Hrec (inr s)); [cbn; lia|done].
  - specialize (Hrec socket events). destruct socket as [s|s]; cbn [event_of writer_loop routed].
    + pose proof (write_tcp_law s x w) as Hw. destruct (write_tcp s x w) as [ok w'] eqn:E. destruct ok.
      * eapply delivers_write; [exact Hw|]. apply Hrec; [cbn; lia|done].
      * apply delivers_stop; [done|]. intros (Hr & _). specialize (Hr s x w). by rewrite E in Hr.
    + pose proof (write_tls_law s x w) as Hw. destruct (write_tls s x w) as [ok w'] eqn:E. destruct ok.
      * eapply delivers_write; [exact Hw|]. apply Hrec; [cbn; lia|done].
      * apply delivers_stop; [done|]. intros (_ & Hr & _). specialize (Hr s x w). by rewrite E in Hr.
  - cbn [orderly] in Ho. apply andb_prop in Ho as [Ht Ho]. destruct socket as [s|s]; [|done].
    cbn [event_of writer_loop routed]. pose proof (send_stream_law c (Stream s) w) as Hw.
    destruct (send_stream c (Stream s) w) as [ok w'] eqn:E. cbn [snd] in Hw.
    destruct ok; cycle 1.
    { apply delivers_stop; [done|]. intros (_ & _ & Hr). specialize (Hr c (Stream s) w). by rewrite E in Hr. }
    destruct events as [|[t|t|x|c'] events]; try done.
    + by apply delivers_stop.
    + eapply delivers_same; [exact Hw|]. apply (Hrec (inl t)); [cbn; lia|done].
    + eapply delivers_same; [exact Hw|]. apply (Hrec (inr t)); [cbn; lia|done].
Qed.

(** C23: The writer never panics when the channel is used as it expects, and
    delivers: what arrives is, in order, the beginning of the bytes sent, each
    written to the socket that was set last, and all of them if no write fails;
    so nothing reaches a socket that was handed over for an upgrade. *)
Theorem writer_delivers socket events w :
  orderly (is_tcp socket) events = true ->
  (spawn_writer (event_of socket :: events) w).1 = Ok tt /\
  exists n, arrived (spawn_writer (event_of socket :: events) w).2 = arrived w ++ take n (routed socket events) /\
    (reliable -> n = length (routed socket events)).
Proof. apply writer_loop_delivers. Qed.
End Writer.

(** ** A connection that is upgraded *)
Module Demo.
(** The world: what arrived, and the sockets that were handed over. *)
Abbreviation World := (list ((nat + nat) * bytes) * list nat)%type.
#[export] Instance sockets : @Sockets nat nat unit World := {
  write_tcp s x w := (true, (w.1 ++ [(inl s, x)], w.2));
  write_tls s x w := (true, (w.1 ++ [(inr s, x)], w.2));
  send_stream _ s w := (true, (w.1, w.2 ++ match s with Stream n => [n] | _ => [] end))
}.
#[export] Instance laws : SocketLaws.
Proof. by refine {| arrived := fst : World -> _ |}. Defined.

Definition events : list (@Event nat nat unit) :=
  [Bytes (b "a OK Begin TLS"); Upgrade tt; StreamTls 7%nat; Bytes (b "b OK"); Bytes (b "c OK")].
End Demo.
#[local] Existing Instances Demo.sockets Demo.laws.

Lemma writer_delivers_witness :
  arrived (spawn_writer (event_of (inl 3%nat) :: Demo.events) ([], [])).2 =
    [(inl 3%nat, b "a OK Begin TLS"); (inr 7%nat, b "b OK"); (inr 7%nat, b "c OK")].
Proof.
  destruct (writer_delivers (inl 3%nat) Demo.events (([], []) : Demo.World) eq_refl) as (_ & n & Hn & Hr).
  rewrite Hn, Hr by (split_and!; reflexivity). reflexivity.
Defined.

(** Bytes of another task between the two events of an upgrade: the writer panics. *)
Example bytes_after_upgrade :
  (spawn_writer (Stream 3%nat :: [Upgrade tt; Bytes (b "x"); StreamTls 7%nat]) (([], []) : Demo.World)).1 = Panic.
Proof. reflexivity. Qed.
