(* ===== verification/Utf8.v ===== *)
(** * UTF-8, as the Rust standard library implements it for [String]

    [String::from_utf8], [str::chars], [String::push(char)] and
    [String::from_utf8_lossy], over byte lists. *)

From S2P Require Import Prelude.

(** A Rust [char]: a Unicode scalar value. *)
Definition is_scalar (c : Z) : Prop := 0 <= c < 55296 \/ 57344 <= c < 1114112.
Definition scalarb (c : Z) : bool :=
  ((0 <=? c) && (c <? 55296)) || ((57344 <=? c) && (c <? 1114112)).

(** [char::encode_utf8] *)
Definition encode_char (c : Z) : bytes :=
  if c <? 128 then [c]
  else if c <? 2048 then [192 + c / 64; 128 + c mod 64]
  else if c <? 65536 then [224 + c / 4096; 128 + c / 64 mod 64; 128 + c mod 64]
  else [240 + c / 262144; 128 + c / 4096 mod 64; 128 + c / 64 mod 64; 128 + c mod 64].

Definition encode (cs : list Z) : str := flat_map encode_char cs.

Definition is_cont (x : Z) : bool := (128 <=? x) && (x <=? 191).

(** The second byte allowed after the lead byte of a three or four byte
    sequence (no overlong forms, no surrogates, nothing above U+10FFFF). *)
Definition second3_ok (b0 b1 : Z) : bool :=
  if b0 =? 224 then (160 <=? b1) && (b1 <=? 191)
  else if b0 =? 237 then (128 <=? b1) && (b1 <=? 159)
  else is_cont b1.
Definition second4_ok (b0 b1 : Z) : bool :=
  if b0 =? 240 then (144 <=? b1) && (b1 <=? 191)
  else if b0 =? 244 then (128 <=? b1) && (b1 <=? 143)
  else is_cont b1.

(** [str::chars] of a byte string, [None] when it is not valid UTF-8. *)
Fixpoint chars (s : bytes) : option (list Z) :=
  match s with
  | [] => Some []
  | b0 :: r0 =>
    if (0 <=? b0) && (b0 <? 128) then cons b0 <$> chars r0
    else match r0 with
    | [] => None
    | b1 :: r1 =>
      if (194 <=? b0) && (b0 <=? 223) then
        if is_cont b1 then cons ((b0 - 192) * 64 + (b1 - 128)) <$> chars r1 else None
      else match r1 with
      | [] => None
      | b2 :: r2 =>
        if (224 <=? b0) && (b0 <=? 239) then
          if second3_ok b0 b1 && is_cont b2
          then cons ((b0 - 224) * 4096 + (b1 - 128) * 64 + (b2 - 128)) <$> chars r2
          else None
        else match r2 with
        | [] => None
        | b3 :: r3 =>
          if (240 <=? b0) && (b0 <=? 244) then
            if second4_ok b0 b1 && is_cont b2 && is_cont b3
            then cons ((b0 - 240) * 262144 + (b1 - 128) * 4096 + (b2 - 128) * 64 + (b3 - 128))
                   <$> chars r3
            else None
          else None
        end
      end
    end
  end.

(** [String::from_utf8(v).ok()]: a [String] is its own bytes. *)
Definition from_utf8 (s : bytes) : option str :=
  match chars s with Some _ => Some s | None => None end.

Definition valid_utf8 (s : bytes) : Prop := is_Some (chars s).

(** ** Lemmas *)

Lemma div_mod_64 c : c = 64 * (c / 64) + c mod 64 /\ 0 <= c mod 64 < 64.
Proof. split; [apply Z.div_mod; lia | apply Z.mod_pos_bound; lia]. Qed.

Lemma chars_encode_char c r :
  is_scalar c -> chars (encode_char c ++ r) = cons c <$> chars r.
Proof.
  intros Hc. unfold encode_char, is_scalar in *.
  pose proof (div_mod_64 c) as [E0 B0].
  pose proof (div_mod_64 (c / 64)) as [E1 B1].
  pose proof (div_mod_64 (c / 4096)) as [E2 B2].
  assert (D1 : c / 4096 = c / 64 / 64) by (rewrite Z.div_div; [f_equal; lia | lia..]).
  assert (D2 : c / 262144 = c / 4096 / 64) by (rewrite Z.div_div; [f_equal; lia | lia..]).
  rewrite D2, D1 in *.
  set (q := c / 64) in *. set (q2 := q / 64) in *. set (q3 := q2 / 64) in *.
  destruct (Z.ltb_spec c 128).
  { simpl. by if_lia. }
  destruct (Z.ltb_spec c 2048).
  { simpl. unfold is_cont. if_lia. do 2 f_equal. lia. }
  destruct (Z.ltb_spec c 65536).
  { simpl. if_lia.
    replace (second3_ok _ _) with true by
      (unfold second3_ok, is_cont;
       destruct (Z.eqb_spec (224 + q2) 224); [| destruct (Z.eqb_spec (224 + q2) 237)]; lia).
    unfold is_cont. if_lia; do 2 f_equal; lia. }
  simpl. if_lia.
  replace (second4_ok _ _) with true by
    (unfold second4_ok, is_cont;
       destruct (Z.eqb_spec (240 + q3) 240); [| destruct (Z.eqb_spec (240 + q3) 244)]; lia).
  unfold is_cont. if_lia; do 2 f_equal; lia.
Qed.

Lemma chars_encode_app cs r :
  Forall is_scalar cs -> chars (encode cs ++ r) = app cs <$> chars r.
Proof.
  induction 1 as [|c cs Hc _ IH]; simpl.
  - by destruct (chars r).
  - rewrite <- app_assoc, chars_encode_char, IH by done. by destruct (chars r).
Qed.

(** Decoding inverts encoding, for every sequence of scalar values. *)
Lemma chars_encode cs : Forall is_scalar cs -> chars (encode cs) = Some cs.
Proof.
  intros H. rewrite <- (app_nil_r (encode cs)), chars_encode_app by done.
  simpl. by rewrite app_nil_r.
Qed.

(** [String::from_utf8_lossy]: every maximal invalid prefix becomes U+FFFD. *)
Definition replacement : bytes := [239; 191; 189].
Fixpoint lossy (s : bytes) : str :=
  match s with
  | [] => []
  | b0 :: r0 =>
    if (0 <=? b0) && (b0 <? 128) then b0 :: lossy r0
    else if (194 <=? b0) && (b0 <=? 223) then
      match r0 with
      | b1 :: r1 => if is_cont b1 then b0 :: b1 :: lossy r1 else replacement ++ lossy r0
      | [] => replacement
      end
    else if (224 <=? b0) && (b0 <=? 239) then
      match r0 with
      | b1 :: r1 =>
        if second3_ok b0 b1 then
          match r1 with
          | b2 :: r2 => if is_cont b2 then b0 :: b1 :: b2 :: lossy r2 else replacement ++ lossy r1
          | [] => replacement
          end
        else replacement ++ lossy r0
      | [] => replacement
      end
    else if (240 <=? b0) && (b0 <=? 244) then
      match r0 with
      | b1 :: r1 =>
        if second4_ok b0 b1 then
          match r1 with
          | b2 :: r2 =>
            if is_cont b2 then
              match r2 with
              | b3 :: r3 =>
                if is_cont b3 then b0 :: b1 :: b2 :: b3 :: lossy r3 else replacement ++ lossy r2
              | [] => replacement
              end
            else replacement ++ lossy r1
          | [] => replacement
          end
        else replacement ++ lossy r0
      | [] => replacement
      end
    else replacement ++ lossy r0
  end.

Lemma from_utf8_encode cs : Forall is_scalar cs -> from_utf8 (encode cs) = Some (encode cs).
Proof. intros H. unfold from_utf8. by rewrite chars_encode. Qed.

(** ASCII bytes are their own encoding. *)
Lemma chars_ascii s : Forall (fun c => 0 <= c < 128) s -> chars s = Some s.
Proof.
  induction 1 as [|c s Hc _ IH]; [done|]. simpl. if_lia. by rewrite IH.
Qed.

Lemma from_utf8_ascii s : Forall (fun c => 0 <= c < 128) s -> from_utf8 s = Some s.
Proof. intros H. unfold from_utf8. by rewrite chars_ascii. Qed.

Lemma from_utf8_id s t : from_utf8 s = Some t -> t = s.
Proof. unfold from_utf8. destruct (chars s); congruence. Qed.
