(* ===== verification/Utf7.v ===== *)
(** * Modified UTF-7 mailbox names ([src/core/utf7.rs])

    [utf7_decode], [utf7_encode] and [utf7_maybe_decode]: the loop states, the
    32-bit accumulators and both tables are the source's.  The main results
    are that decoding inverts encoding on every name made of characters of
    the Basic Multilingual Plane, that encoded names are printable ASCII, and
    that both statements stop at U+FFFF, where [ch_ as u16] truncates. *)

From S2P Require Import Prelude Utf8.

Inductive ProtocolVersion := Rev1 | Rev2.
Definition is_rev2 (v : ProtocolVersion) : bool :=
  match v with Rev2 => true | Rev1 => false end.
Definition is_rev1 (v : ProtocolVersion) : bool :=
  match v with Rev1 => true | Rev2 => false end.

Definition UTF_7_RANK : list Z := [
  255; 255; 255; 255; 255; 255; 255; 255; 255; 255; 255; 255; 255; 255; 255; 255; 255; 255; 255;
  255; 255; 255; 255; 255; 255; 255; 255; 255; 255; 255; 255; 255; 255; 255; 255; 255; 255; 255;
  255; 255; 255; 255; 255; 62; 63; 255; 255; 255; 52; 53; 54; 55; 56; 57; 58; 59; 60; 61; 255;
  255; 255; 255; 255; 255; 255; 0; 1; 2; 3; 4; 5; 6; 7; 8; 9; 10; 11; 12; 13; 14; 15; 16; 17; 18;
  19; 20; 21; 22; 23; 24; 25; 255; 255; 255; 255; 255; 255; 26; 27; 28; 29; 30; 31; 32; 33; 34;
  35; 36; 37; 38; 39; 40; 41; 42; 43; 44; 45; 46; 47; 48; 49; 50; 51; 255; 255; 255; 255; 255].

Definition UTF_7_MAP : bytes :=
  b "ABCDEFGHIJKLMNOPQRSTUVWXYZabcdefghijklmnopqrstuvwxyz0123456789+,".

(** [UTF_7_MAP[i]], the index always being masked with [0x3f]. *)
Definition utf7_map (i : Z) : Z := default 0 (UTF_7_MAP !! Z.to_nat i).

Definition AMP : Z := 38.
Definition DASH : Z := 45.

(** ** Decoding *)

(** [String::from_utf16]: surrogate pairs are combined, a lone surrogate is
    an error. *)
Fixpoint from_utf16 (us : list Z) : option (list Z) :=
  match us with
  | [] => Some []
  | u :: us1 =>
    if (55296 <=? u) && (u <=? 56319) then
      match us1 with
      | u' :: us2 =>
        if (56320 <=? u') && (u' <=? 57343)
        then cons (65536 + (u - 55296) * 1024 + (u' - 56320)) <$> from_utf16 us2
        else None
      | [] => None
      end
    else if (56320 <=? u) && (u <=? 57343) then None
    else cons u <$> from_utf16 us1
  end.

(** The [while let Some(&ch) = text.next()] loop of [utf7_decode]; [out] is
    the vector of 16-bit units. *)
Fixpoint utf7_decode_loop (text : bytes) (out : list Z) (bits v : Z) (shifted : bool)
    : option (list Z) :=
  match text with
  | [] => Some out
  | ch :: text =>
    if shifted then
      if ch =? DASH then utf7_decode_loop text out 0 0 false
      else if 127 <? ch then None
      else match UTF_7_RANK !! Z.to_nat ch with
      | None => None
      | Some rank =>
        if rank =? 255 then None
        else
          let v := wrap32 (Z.lor (Z.shiftl v 6) rank) in
          let bits := bits + 6 in
          if 16 <=? bits then
            utf7_decode_loop text (out ++ [Z.land (Z.shiftr v (bits - 16)) 65535])
              (bits - 16) v true
          else utf7_decode_loop text out bits v true
      end
    else if ch =? AMP then
      match text with
      | ch' :: text' =>
        if ch' =? DASH then utf7_decode_loop text' (out ++ [AMP]) bits v false
        else utf7_decode_loop text out bits v true
      | [] => utf7_decode_loop text (out ++ [ch]) bits v false
      end
    else utf7_decode_loop text (out ++ [ch]) bits v false
  end.

Definition utf7_decode (text : bytes) : option str :=
  match utf7_decode_loop text [] 0 0 false with
  | Some units => encode <$> from_utf16 units
  | None => None
  end.

(** ** Encoding *)

(** [while bits >= 6 { result.push(..); bits -= 6; }]: the sextets pushed and
    the number of bits left. *)
Fixpoint utf7_sextets (fuel : nat) (u bits : Z) : bytes * Z :=
  match fuel with
  | O => ([], bits)
  | S f =>
    if 6 <=? bits then
      let '(out, rest) := utf7_sextets f u (bits - 6) in
      (utf7_map (Z.land (Z.shiftr u (bits - 6)) 63) :: out, rest)
    else ([], bits)
  end.

(** The padding sextet pushed when a shifted run ends with bits pending. *)
Definition utf7_flush (u bits : Z) : bytes :=
  if 0 <? bits then [utf7_map (Z.land (wrap32 (Z.shiftl u (6 - bits))) 63)] else [].

Fixpoint utf7_encode_loop (cs : list Z) (shifted : bool) (bits u : Z) (result : str) : str :=
  match cs with
  | [] => if shifted then result ++ utf7_flush u bits ++ [DASH] else result
  | ch_ :: cs =>
    let ch := Z.land ch_ 65535 in
    if (32 <=? ch) && (ch <? 127) then
      let '(result, bits) :=
        if shifted then (result ++ utf7_flush u bits ++ [DASH], 0) else (result, bits) in
      let result := if ch =? 38 then result ++ [AMP; DASH] else result ++ encode_char ch_ in
      utf7_encode_loop cs false bits u result
    else
      let result := if shifted then result else result ++ [AMP] in
      let u := Z.lor (wrap32 (Z.shiftl u 16)) ch in
      let bits := bits + 16 in
      let '(sextets, bits) := utf7_sextets (Z.to_nat bits) u bits in
      utf7_encode_loop cs true bits u (result ++ sextets)
  end.

(** A [&str] is valid UTF-8, so [chars] never fails on one. *)
Definition utf7_encode (text : str) : str :=
  utf7_encode_loop (default [] (chars text)) false 0 0 [].

Definition utf7_maybe_decode (text : str) (version : ProtocolVersion) : str :=
  if is_rev2 version then text else default text (utf7_decode text).

(** ** The base64 tables are inverse to each other *)

Definition table_ok (i : Z) : bool :=
  let m := utf7_map i in
  (32 <=? m) && (m <? 127) && negb (m =? DASH) && negb (m =? AMP) &&
  bool_decide (UTF_7_RANK !! Z.to_nat m = Some i).

Lemma table_ok_all : forallb (fun n => table_ok (Z.of_nat n)) (seq 0 64) = true.
Proof. vm_compute. reflexivity. Qed.

Lemma utf7_map_spec i :
  0 <= i < 64 ->
  32 <= utf7_map i < 127 /\ utf7_map i <> DASH /\ utf7_map i <> AMP /\
  UTF_7_RANK !! Z.to_nat (utf7_map i) = Some i.
Proof.
  intros Hi. pose proof table_ok_all as H. rewrite forallb_forall in H.
  specialize (H (Z.to_nat i)). rewrite Z2Nat.id in H by lia.
  assert (Hin : In (Z.to_nat i) (seq 0 64)) by (apply in_seq; lia).
  specialize (H Hin). unfold table_ok in H.
  rewrite !andb_true_iff, !negb_true_iff, bool_decide_eq_true in H.
  destruct H as [[[[? ?] ?] ?] ?]. split; [lia|]. split; [lia|]. split; [lia|done].
Qed.

(** ** One base64 digit of the decoder *)

Definition DecState (bits x v : Z) : Prop := v mod 2 ^ bits = x.

Lemma decode_digit s rest out bits v x :
  0 <= s < 64 -> 0 <= bits < 10 -> DecState bits x v ->
  exists v', DecState (bits + 6) (x * 64 + s) v' /\
    utf7_decode_loop (utf7_map s :: rest) out bits v true =
    utf7_decode_loop rest out (bits + 6) v' true.
Proof.
  intros Hs Hb Hv. destruct (utf7_map_spec s Hs) as (Hr & Hd & _ & Hm).
  exists (wrap32 (Z.lor (Z.shiftl v 6) s)). split.
  - apply low_append; [lia | done | done].
  - simpl. if_lia. rewrite Hm. by if_lia.
Qed.

Lemma decode_digit_push s rest out bits v x :
  0 <= s < 64 -> 10 <= bits < 16 -> DecState bits x v ->
  exists v', DecState (bits - 10) ((x * 64 + s) mod 2 ^ (bits - 10)) v' /\
    utf7_decode_loop (utf7_map s :: rest) out bits v true =
    utf7_decode_loop rest (out ++ [(x * 64 + s) / 2 ^ (bits - 10)]) (bits - 10) v' true.
Proof.
  intros Hs Hb Hv. destruct (utf7_map_spec s Hs) as (Hr & Hd & _ & Hm).
  assert (Hv' := low_append bits v x s ltac:(lia) Hs Hv).
  exists (wrap32 (Z.lor (Z.shiftl v 6) s)). split.
  - apply (low_drop (bits + 6)); [lia | done].
  - simpl. if_lia. rewrite Hm. if_lia.
    replace (bits + 6 - 16) with (bits - 10) by lia.
    rewrite (low_extract _ _ (x * 64 + s)); [done | lia|].
    by replace (bits - 10 + 16) with (bits + 6) by lia.
Qed.

Lemma decode_dash rest out bits v :
  utf7_decode_loop (DASH :: rest) out bits v true = utf7_decode_loop rest out 0 0 false.
Proof. done. Qed.

(** [&] followed by a base64 digit opens a shifted run. *)
Lemma decode_shift s rest out :
  0 <= s < 64 ->
  utf7_decode_loop (AMP :: utf7_map s :: rest) out 0 0 false =
  utf7_decode_loop (utf7_map s :: rest) out 0 0 true.
Proof.
  intros Hs. destruct (utf7_map_spec s Hs) as (_ & Hd & _).
  assert (E : (utf7_map s =? DASH) = false) by lia.
  cbn [utf7_decode_loop]. change (AMP =? AMP) with true. cbn match. by rewrite E.
Qed.

Lemma decode_amp rest out :
  utf7_decode_loop (AMP :: DASH :: rest) out 0 0 false =
  utf7_decode_loop rest (out ++ [AMP]) 0 0 false.
Proof. done. Qed.

Lemma decode_plain c rest out :
  c <> AMP ->
  utf7_decode_loop (c :: rest) out 0 0 false = utf7_decode_loop rest (out ++ [c]) 0 0 false.
Proof. intros Hc. simpl. by replace (c =? AMP) with false by lia. Qed.

(** ** The encoder, with its output appended to an accumulator *)

Lemma utf7_encode_loop_acc cs sh bits u r :
  utf7_encode_loop cs sh bits u r = r ++ utf7_encode_loop cs sh bits u [].
Proof.
  revert sh bits u r. induction cs as [|c cs IH]; intros sh bits u r; cbn [utf7_encode_loop].
  { destruct sh; [done | by rewrite app_nil_r]. }
  destruct (_ && _).
  - destruct sh; rewrite IH; symmetry; rewrite IH; destruct (_ =? 38);
      rewrite ?app_nil_l, <- ?app_assoc; done.
  - destruct (utf7_sextets _ _ _) as [sx bits'].
    rewrite IH. symmetry. rewrite IH. destruct sh; rewrite ?app_nil_l, <- ?app_assoc; done.
Qed.

Definition is_bmp (c : Z) : Prop := 0 <= c < 55296 \/ 57344 <= c < 65536.

Lemma land_65535 c : is_bmp c -> Z.land c 65535 = c.
Proof.
  intros Hc. change 65535 with (Z.ones 16). rewrite Z.land_ones by lia.
  apply Z.mod_small. unfold is_bmp in Hc. lia.
Qed.

(** The pending state between two characters of a shifted run: the encoder
    holds the low [p] bits of its last character [c], the decoder the other
    [16 - p] bits. *)
Inductive pending : Z -> Z -> Z -> Z -> list Z -> Prop :=
| pending0 u v : pending 0 u 0 v []
| pending2 u v c : u mod 4 = c mod 4 -> 0 <= c < 65536 -> DecState 14 (c / 4) v ->
    pending 2 u 14 v [c]
| pending4 u v c : u mod 16 = c mod 16 -> 0 <= c < 65536 -> DecState 12 (c / 16) v ->
    pending 4 u 12 v [c].

Lemma push_char u c :
  0 <= c < 65536 -> Z.lor (wrap32 (Z.shiftl u 16)) c = (u mod 65536) * 65536 + c.
Proof.
  intros Hc. rewrite wrap32_mod, Z.shiftl_mul_pow2 by lia.
  change (2 ^ 32) with (65536 * 65536). change (2 ^ 16) with 65536.
  rewrite Z.mul_mod_distr_r by lia.
  change 65536 with (2 ^ 16) at 2. rewrite <- Z.shiftl_mul_pow2 by lia.
  by rewrite lor_shiftl_add by lia.
Qed.

Lemma digit_at u j : 0 <= j -> Z.land (Z.shiftr u j) 63 = u / 2 ^ j mod 64.
Proof.
  intros Hj. change 63 with (Z.ones 6).
  by rewrite Z.land_ones, Z.shiftr_div_pow2 by lia.
Qed.

Lemma digit_bound x : 0 <= x mod 64 < 64.
Proof. apply Z.mod_pos_bound. lia. Qed.

Lemma sextets_16 u :
  utf7_sextets (Z.to_nat (0 + 16)) u (0 + 16) =
  ([utf7_map (u / 1024 mod 64); utf7_map (u / 16 mod 64)], 4).
Proof.
  change 1024 with (2 ^ 10). change (u / 16) with (u / 2 ^ 4).
  rewrite <- !digit_at by lia. reflexivity.
Qed.
Lemma sextets_18 u :
  utf7_sextets (Z.to_nat (2 + 16)) u (2 + 16) =
  ([utf7_map (u / 4096 mod 64); utf7_map (u / 64 mod 64); utf7_map (u / 1 mod 64)], 0).
Proof.
  change 4096 with (2 ^ 12). change (u / 64) with (u / 2 ^ 6). change (u / 1) with (u / 2 ^ 0).
  rewrite <- !digit_at by lia. reflexivity.
Qed.
Lemma sextets_20 u :
  utf7_sextets (Z.to_nat (4 + 16)) u (4 + 16) =
  ([utf7_map (u / 16384 mod 64); utf7_map (u / 256 mod 64); utf7_map (u / 4 mod 64)], 2).
Proof.
  change 16384 with (2 ^ 14). change (u / 256) with (u / 2 ^ 8). change (u / 4) with (u / 2 ^ 2).
  rewrite <- !digit_at by lia. reflexivity.
Qed.

(** Feed one base64 digit to the decoder in the goal. *)
Ltac feed_digit lem v' H :=
  match goal with
  | HD : DecState ?bits ?x ?v |- context [utf7_decode_loop (utf7_map ?s :: ?rest) ?out ?bits ?v true] =>
      destruct (lem s rest out bits v x) as (v' & H & ->);
      [ apply digit_bound | lia | exact HD | clear HD ]
  end.

Lemma dec_state_eq bits x y v : DecState bits x v -> x = y -> DecState bits y v.
Proof. by intros ? <-. Qed.

Definition run_char_spec (p u bits v : Z) (pend : list Z) (c : Z) (rest : bytes) (out : list Z) :=
  let u' := Z.lor (wrap32 (Z.shiftl u 16)) c in
  let '(sx, p') := utf7_sextets (Z.to_nat (p + 16)) u' (p + 16) in
  exists bits' v' out' pend', pending p' u' bits' v' pend' /\
    utf7_decode_loop (sx ++ rest) out bits v true = utf7_decode_loop rest out' bits' v' true /\
    out' ++ pend' = out ++ pend ++ [c].

Lemma run_char0 u v c rest out : is_bmp c -> run_char_spec 0 u 0 v [] c rest out.
Proof.
  intros Hc. assert (0 <= c < 65536) by (unfold is_bmp in Hc; lia).
  unfold run_char_spec. rewrite push_char by done.
  set (U := u mod 65536 * 65536 + c). rewrite sextets_16. cbn [app].
  assert (HD : DecState 0 0 v) by apply Z.mod_1_r.
  feed_digit decode_digit v1 H1. cbn [Z.add] in *.
  feed_digit decode_digit v2 H2.
  exists 12, v2, out, [c]. split; [|done]. apply pending4; [unfold U; divmod_lia | done|].
  apply (dec_state_eq _ _ _ _ H2). unfold U; divmod_lia.
Qed.

Lemma run_char4 u v c0 c rest out :
  is_bmp c -> pending 4 u 12 v [c0] -> run_char_spec 4 u 12 v [c0] c rest out.
Proof.
  intros Hc Hp. inv Hp. assert (0 <= c < 65536) by (unfold is_bmp in Hc; lia).
  unfold run_char_spec. rewrite push_char by done.
  set (U := u mod 65536 * 65536 + c). rewrite sextets_20. cbn [app].
  feed_digit decode_digit_push v1 H1'. cbn [Z.sub Z.add Z.opp Pos.add] in *.
  feed_digit decode_digit v2 H2'. feed_digit decode_digit v3 H3'.
  change (2 ^ (12 - 10)) with 4 in *.
  exists 14, v3, (out ++ [c0]), [c]. split; [|split].
  - apply pending2; [unfold U; divmod_lia | done|]. apply (dec_state_eq _ _ _ _ H3'). unfold U; divmod_lia.
  - do 3 f_equal. unfold U; divmod_lia.
  - by rewrite <- app_assoc.
Qed.

Lemma run_char2 u v c0 c rest out :
  is_bmp c -> pending 2 u 14 v [c0] -> run_char_spec 2 u 14 v [c0] c rest out.
Proof.
  intros Hc Hp. inv Hp. assert (0 <= c < 65536) by (unfold is_bmp in Hc; lia).
  unfold run_char_spec. rewrite push_char by done.
  set (U := u mod 65536 * 65536 + c). rewrite sextets_18. cbn [app].
  feed_digit decode_digit_push v1 H1'.
  feed_digit decode_digit v2 H2'. feed_digit decode_digit_push v3 H3'.
  change (2 ^ (14 - 10)) with 16 in *. change (14 - 10 + 6 - 10) with 0 in *.
  change (2 ^ 0) with 1 in *.
  exists 0, v3, ((out ++ [c0]) ++ [c]), []. split; [constructor | split].
  - do 2 f_equal; [do 2 f_equal; unfold U; divmod_lia | f_equal; unfold U; divmod_lia].
  - by rewrite app_nil_r, <- app_assoc.
Qed.

Lemma run_char p u bits v pend c rest out :
  is_bmp c -> pending p u bits v pend -> run_char_spec p u bits v pend c rest out.
Proof.
  intros Hc Hp. destruct Hp.
  - by apply run_char0.
  - apply run_char2; [done | by constructor].
  - apply run_char4; [done | by constructor].
Qed.

(** Closing a run: the padding digit completes the pending character. *)
Lemma run_flush p u bits v pend rest out :
  pending p u bits v pend ->
  utf7_decode_loop (utf7_flush u p ++ DASH :: rest) out bits v true =
  utf7_decode_loop rest (out ++ pend) 0 0 false.
Proof.
  destruct 1 as [u v | u v c Hu Hc HD | u v c Hu Hc HD]; unfold utf7_flush; cbn [Z.ltb Z.compare app].
  - by rewrite decode_dash, app_nil_r.
  - rewrite wrap32_mod. rewrite Z.shiftl_mul_pow2 by lia.
    rewrite <- (Z.shiftr_0_r (_ mod _)), digit_at by lia.
    feed_digit decode_digit_push v1 H1. rewrite decode_dash.
    do 3 f_equal. change (2 ^ (14 - 10)) with 16. change (2 ^ (6 - 2)) with 16.
    change (2 ^ 0) with 1. divmod_lia.
  - rewrite wrap32_mod. rewrite Z.shiftl_mul_pow2 by lia.
    rewrite <- (Z.shiftr_0_r (_ mod _)), digit_at by lia.
    feed_digit decode_digit_push v1 H1. rewrite decode_dash.
    do 3 f_equal. change (2 ^ (12 - 10)) with 4. change (2 ^ (6 - 4)) with 4.
    change (2 ^ 0) with 1. divmod_lia.
Qed.

Lemma printable_char c :
  is_bmp c -> (32 <=? Z.land c 65535) && (Z.land c 65535 <? 127) = true ->
  32 <= c < 127 /\ encode_char c = [c].
Proof.
  intros Hc. rewrite land_65535 by done. intros Hp. split; [lia|].
  unfold encode_char. by if_lia.
Qed.

(** What the encoder emits for one printable character outside a run. *)
Definition emit_plain (c : Z) : bytes := if c =? 38 then [AMP; DASH] else [c].

Lemma decode_emit_plain c rest out :
  utf7_decode_loop (emit_plain c ++ rest) out 0 0 false =
  utf7_decode_loop rest (out ++ [c]) 0 0 false.
Proof.
  unfold emit_plain. destruct (Z.eqb_spec c 38) as [->|Hc].
  - apply decode_amp.
  - by apply decode_plain.
Qed.

Lemma encode_loop_plain c cs sh p u :
  is_bmp c -> 32 <= c < 127 ->
  utf7_encode_loop (c :: cs) sh p u [] =
  (if sh then utf7_flush u p ++ [DASH] else []) ++ emit_plain c ++
    utf7_encode_loop cs false (if sh then 0 else p) u [].
Proof.
  intros Hb Hc. cbn [utf7_encode_loop]. rewrite land_65535 by done. if_lia.
  unfold emit_plain, encode_char. if_lia.
  destruct sh; destruct (c =? 38); rewrite utf7_encode_loop_acc, <- ?app_assoc; done.
Qed.

Lemma encode_loop_wide c cs sh p u :
  is_bmp c -> ~ (32 <= c < 127) ->
  utf7_encode_loop (c :: cs) sh p u [] =
  let u' := Z.lor (wrap32 (Z.shiftl u 16)) c in
  let '(sx, p') := utf7_sextets (Z.to_nat (p + 16)) u' (p + 16) in
  (if sh then [] else [AMP]) ++ sx ++ utf7_encode_loop cs true p' u' [].
Proof.
  intros Hb Hc. cbn [utf7_encode_loop]. rewrite land_65535 by done. if_lia. cbv zeta.
  destruct (utf7_sextets _ _ _) as [sx p'].
  destruct sh; rewrite utf7_encode_loop_acc, <- ?app_assoc; done.
Qed.

(** The two loops run against each other. *)
Lemma encode_decode_loop cs :
  Forall is_bmp cs ->
  (forall out u, utf7_decode_loop (utf7_encode_loop cs false 0 u []) out 0 0 false
                 = Some (out ++ cs)) /\
  (forall p u bits v pend out, pending p u bits v pend ->
     utf7_decode_loop (utf7_encode_loop cs true p u []) out bits v true
     = Some (out ++ pend ++ cs)).
Proof.
  induction 1 as [|c cs Hc _ [IHf IHt]].
  { split.
    - intros out u. simpl. by rewrite app_nil_r.
    - intros p u bits v pend out Hp. cbn [utf7_encode_loop].
      rewrite app_nil_l, (run_flush _ _ _ _ _ _ _ Hp). simpl. by rewrite app_nil_r. }
  destruct (decide (32 <= c < 127)) as [Hpr|Hw].
  - split.
    + intros out u. rewrite encode_loop_plain by done. rewrite app_nil_l.
      rewrite decode_emit_plain, IHf, <- app_assoc. done.
    + intros p u bits v pend out Hp. rewrite encode_loop_plain by done.
      rewrite <- ?app_assoc. cbn [app]. rewrite (run_flush _ _ _ _ _ _ _ Hp).
      rewrite decode_emit_plain, IHf, <- !app_assoc. done.
  - split.
    + intros out u. rewrite encode_loop_wide by done.
      pose proof (run_char0 u 0 c) as Hrun. unfold run_char_spec in Hrun.
      cbv zeta in *. rewrite sextets_16 in *. cbn [app].
      rewrite decode_shift by apply digit_bound.
      destruct (Hrun (utf7_encode_loop cs true 4 (Z.lor (wrap32 (u ≪ 16)) c) []) out Hc)
        as (bits' & v' & out' & pend' & Hp' & E & Eo).
      cbn [app] in E. rewrite E, (IHt _ _ _ _ _ _ Hp').
      rewrite app_assoc, Eo, <- app_assoc. done.
    + intros p u bits v pend out Hp. rewrite encode_loop_wide by done.
      pose proof (run_char p u bits v pend c) as Hrun. unfold run_char_spec in Hrun.
      cbv zeta in *. destruct (utf7_sextets _ _ _) as [sx p'].
      destruct (Hrun (utf7_encode_loop cs true p' (Z.lor (wrap32 (u ≪ 16)) c) []) out Hc Hp)
        as (bits' & v' & out' & pend' & Hp' & E & Eo).
      cbn [app]. rewrite E, (IHt _ _ _ _ _ _ Hp').
      rewrite app_assoc, Eo, <- !app_assoc. done.
Qed.

Lemma from_utf16_bmp cs : Forall is_bmp cs -> from_utf16 cs = Some cs.
Proof.
  induction 1 as [|c cs Hc _ IH]; [done|]. simpl. unfold is_bmp in Hc.
  if_lia. by rewrite IH.
Qed.

Lemma bmp_scalar cs : Forall is_bmp cs -> Forall is_scalar cs.
Proof. apply Forall_impl. unfold is_bmp, is_scalar. lia. Qed.

(** ** Printable output *)

Lemma flush_printable u p : all_bytes (utf7_flush u p) /\
  Forall (fun c => 32 <= c < 127) (utf7_flush u p).
Proof.
  unfold utf7_flush. destruct (0 <? p); [|by split].
  rewrite <- (Z.shiftr_0_r (wrap32 _)), digit_at by lia.
  destruct (utf7_map_spec (wrap32 (u ≪ (6 - p)) / 2 ^ 0 mod 64) (digit_bound _)) as [? _].
  split; repeat constructor; unfold is_byte; lia.
Qed.

Lemma sextets_printable fuel u p :
  Forall (fun c => 32 <= c < 127) (utf7_sextets fuel u p).1.
Proof.
  revert u p; induction fuel as [|f IH]; intros u p; [constructor|]. simpl.
  destruct (Z.leb_spec 6 p); [|constructor].
  specialize (IH u (p - 6)). destruct (utf7_sextets f u (p - 6)) as [sx p'].
  constructor; [|done]. rewrite digit_at by lia.
  apply (utf7_map_spec _ (digit_bound _)).
Qed.

Ltac printable_tac := repeat first [apply Forall_nil_2 | apply Forall_cons_2]; unfold AMP, DASH; lia.

Lemma encode_loop_printable cs sh p u :
  Forall is_bmp cs -> Forall (fun c => 32 <= c < 127) (utf7_encode_loop cs sh p u []).
Proof.
  intros H. revert sh p u. induction H as [|c cs Hc _ IH]; intros sh p u.
  { cbn [utf7_encode_loop app]. destruct sh; [|constructor]. apply Forall_app.
    split; [apply flush_printable | printable_tac]. }
  destruct (decide (32 <= c < 127)).
  - rewrite encode_loop_plain by done. apply Forall_app. split.
    + destruct sh; [|constructor]. apply Forall_app.
      split; [apply flush_printable | printable_tac].
    + apply Forall_app. split; [|apply IH]. unfold emit_plain.
      destruct (c =? 38); printable_tac.
  - rewrite encode_loop_wide by done. cbv zeta.
    pose proof (sextets_printable (Z.to_nat (p + 16)) (Z.lor (wrap32 (u ≪ 16)) c) (p + 16)) as Hs.
    destruct (utf7_sextets _ _ _) as [sx p']. apply Forall_app. split.
    + destruct sh; printable_tac.
    + apply Forall_app. split; [done | apply IH].
Qed.

Lemma utf7_roundtrip_text (cs : list Z) :
  Forall is_bmp cs -> utf7_decode (utf7_encode (encode cs)) = Some (encode cs).
Proof.
  intros H. unfold utf7_encode, utf7_decode.
  rewrite chars_encode by by apply bmp_scalar. change (default [] (Some cs)) with cs.
  destruct (encode_decode_loop cs H) as [Hl _].
  rewrite (Hl [] 0). simpl. by rewrite from_utf16_bmp.
Qed.

Lemma utf7_encode_ascii (cs : list Z) :
  Forall is_bmp cs -> Forall (fun c => 32 <= c < 127) (utf7_encode (encode cs)).
Proof.
  intros H. unfold utf7_encode. rewrite chars_encode by by apply bmp_scalar.
  by apply encode_loop_printable.
Qed.

(** ** Properties *)

(** C38: every mailbox name made of characters of the Basic Multilingual Plane
    survives the trip through modified UTF-7: [utf7_decode] of what
    [utf7_encode] produces is the name itself. *)
Theorem utf7_roundtrip (cs : list Z) :
  Forall is_bmp cs -> utf7_decode (utf7_encode (encode cs)) = Some (encode cs).
Proof. apply utf7_roundtrip_text. Qed.

(** The example of RFC 3501: [~peter/mail/] followed by two Chinese and three
    Japanese characters. *)
Lemma utf7_roundtrip_witness :
  let name := [126; 112; 47; 21488; 21271; 47; 26085; 26412; 35486; 38; 163; 45; 233; 127; 65] in
  Forall is_bmp name /\ utf7_decode (utf7_encode (encode name)) = Some (encode name).
Proof.
  split; [|apply utf7_roundtrip]; repeat constructor; unfold is_bmp; lia.
Defined.

(** An encoded name is printable ASCII, so it can be put in a quoted
    string of a IMAP4rev1 response. *)
Theorem utf7_encode_printable (cs : list Z) :
  Forall is_bmp cs -> Forall (fun c => 32 <= c < 127) (utf7_encode (encode cs)).
Proof. apply utf7_encode_ascii. Qed.

Lemma utf7_encode_printable_witness :
  Forall is_bmp [233; 38; 21488; 10] /\
  Forall (fun c => 32 <= c < 127) (utf7_encode (encode [233; 38; 21488; 10])).
Proof.
  split; [|apply utf7_encode_printable]; repeat constructor; unfold is_bmp; lia.
Defined.

(** Above U+FFFF the encoder loses information, because [ch_ as u16]
    keeps the low 16 bits only: U+1F600 is encoded as U+F600, and two
    different names get the same encoding. *)
Theorem utf7_encode_truncates :
  exists cs ds, Forall is_scalar cs /\ Forall is_scalar ds /\ cs <> ds /\
    utf7_encode (encode cs) = utf7_encode (encode ds) /\
    utf7_decode (utf7_encode (encode cs)) <> Some (encode cs).
Proof.
  exists [128512], [62976]. split; [|split]; [repeat constructor; unfold is_scalar; lia..|].
  split; [done|]. split; vm_compute; [done|]. intros ?; congruence.
Qed.
