(* ===== verification/Types.v ===== *)
(** * Data shared by the whole server

    [src/core/mod.rs] (commands, flags, status responses and their
    constructors) and the capability and mechanism enumerations of
    [src/protocol/capability.rs] and [src/protocol/authenticate.rs]. *)

From S2P Require Import Prelude Utf8 Utf7.

(** ** Messages

    The text of a response: literal pieces, [{}] arguments already turned into
    strings, and [{:?}] arguments kept apart, because escaping a character for
    debug output depends on the standard library's Unicode tables. *)
Inductive Piece :=
| PStr (s : str)
| PDebugStr (s : str)
| PDebugChar (c : Z).


(** The Unicode-dependent part of [{:?}]. *)
Class DebugFmt := {
  debug_str : str -> str;
  debug_char : Z -> str
}.

Definition render_piece `{DebugFmt} (p : Piece) : str :=
  match p with
  | PStr s => s
  | PDebugStr s => debug_str s
  | PDebugChar c => debug_char c
  end.
Definition render `{DebugFmt} (m : list Piece) : str := flat_map render_piece m.

Definition msg (s : string) : list Piece := [PStr (b s)].

(** ** Commands *)
Inductive Command :=
| Capability_ | Noop | Logout
| StartTls | Authenticate | Login
| Enable | Select | Examine | Create | Delete | Rename | Subscribe | Unsubscribe
| List_ | Namespace | Status_ | Append | Idle
| Close | Unselect | Expunge (uid : bool) | Search (uid : bool) | Fetch (uid : bool)
| Store (uid : bool) | Copy (uid : bool) | Move (uid : bool)
| Lsub | Check_
| Sort_ (uid : bool) | Thread (uid : bool)
| SetAcl | DeleteAcl | GetAcl | ListRights | MyRights
| Unauthenticate
| Id.

#[export] Instance Command_eq_dec : EqDecision Command.
Proof. solve_decision. Defined.

Definition is_uid (c : Command) : bool :=
  match c with
  | Fetch true | Search true | Copy true | Move true | Store true | Expunge true
  | Sort_ true | Thread true => true
  | _ => false
  end.

(** [impl Display for Command] *)
Definition command_name (c : Command) : str :=
  match c with
  | Capability_ => b "CAPABILITY"
  | Noop => b "NOOP"
  | Logout => b "LOGOUT"
  | StartTls => b "STARTTLS"
  | Authenticate => b "AUTHENTICATE"
  | Login => b "LOGIN"
  | Enable => b "ENABLE"
  | Select => b "SELECT"
  | Examine => b "EXAMINE"
  | Create => b "CREATE"
  | Delete => b "DELETE"
  | Rename => b "RENAME"
  | Subscribe => b "SUBSCRIBE"
  | Unsubscribe => b "UNSUBSCRIBE"
  | List_ => b "LIST"
  | Namespace => b "NAMESPACE"
  | Status_ => b "STATUS"
  | Append => b "APPEND"
  | Idle => b "IDLE"
  | Close => b "CLOSE"
  | Unselect => b "UNSELECT"
  | Expunge false => b "EXPUNGE"
  | Search false => b "SEARCH"
  | Fetch false => b "FETCH"
  | Store false => b "STORE"
  | Copy false => b "COPY"
  | Move false => b "MOVE"
  | Sort_ false => b "SORT"
  | Thread false => b "THREAD"
  | Expunge true => b "UID EXPUNGE"
  | Search true => b "UID SEARCH"
  | Fetch true => b "UID FETCH"
  | Store true => b "UID STORE"
  | Copy true => b "UID COPY"
  | Move true => b "UID MOVE"
  | Sort_ true => b "UID SORT"
  | Thread true => b "UID THREAD"
  | Lsub => b "LSUB"
  | Check_ => b "CHECK"
  | SetAcl => b "SETACL"
  | DeleteAcl => b "DELETEACL"
  | GetAcl => b "GETACL"
  | ListRights => b "LISTRIGHTS"
  | MyRights => b "MYRIGHTS"
  | Unauthenticate => b "UNAUTHENTICATE"
  | Id => b "ID"
  end.

(** ** Flags *)
Inductive Flag :=
| Seen | Draft | Flagged | Answered | Recent | Important | Phishing | Junk | NotJunk
| Deleted | Forwarded | MDNSent
| Keyword (s : str).

#[export] Instance Flag_eq_dec : EqDecision Flag.
Proof. solve_decision. Defined.

(** ** Capabilities and mechanisms *)
Inductive Mechanism :=
| Plain | CramMd5 | DigestMd5 | ScramSha1 | ScramSha256 | Apop | Ntlm | Gssapi
| Anonymous | External | OAuthBearer | XOauth2.

#[export] Instance Mechanism_eq_dec : EqDecision Mechanism.
Proof. solve_decision. Defined.

Inductive Capability :=
| IMAP4rev2 | IMAP4rev1 | CapStartTLS | LoginDisabled | CapIdle | CapNamespace | CapId
| Children | MultiAppend | Binary_ | CapUnselect | CapACL | UIDPlus | ESearch | SASLIR
| Within | CapEnable | SearchRes | CapSort | CapThread | ListExtended | ESort
| SortDisplay | SpecialUse | CreateSpecialUse | CapMove | CondStore | QResync
| LiteralPlus | UnAuthenticate | StatusSize | ObjectId | Preview_ | Utf8Accept
| Auth (m : Mechanism).

#[export] Instance Capability_eq_dec : EqDecision Capability.
Proof. solve_decision. Defined.

(** ** Status responses *)
Inductive ResponseCode :=
| Alert | AlreadyExists
| AppendUid (uid_validity : Z) (uids : list Z)
| AuthenticationFailed | AuthorizationFailed | BadCharset | Cannot
| CapabilityCode (capabilities : list Capability)
| ClientBug | Closed | ContactAdmin
| CopyUid (uid_validity : Z) (src_uids dest_uids : list Z)
| Corruption | Expired | ExpungeIssued | HasChildren | InUse | Limit | NonExistent | NoPerm
| OverQuota | Parse | PermanentFlags | PrivacyRequired | ReadOnly | ReadWrite | ServerBug
| TryCreate | UidNext | UidNotSticky | UidValidity | Unavailable | UnknownCte
| Modified (ids : list Z)
| HighestModseq (modseq : Z)
| MailboxIdCode (mailbox_id : str).

Inductive ResponseType := RtOk | RtNo | RtBad | RtPreAuth | RtBye.

#[export] Instance ResponseType_eq_dec : EqDecision ResponseType.
Proof. solve_decision. Defined.

Record StatusResponse := {
  tag : option str;
  code : option ResponseCode;
  message : list Piece;
  rtype : ResponseType
}.

Definition sr_bad (m : list Piece) : StatusResponse :=
  {| tag := None; code := None; message := m; rtype := RtBad |}.
Definition sr_parse_error (m : list Piece) : StatusResponse :=
  {| tag := None; code := Some Parse; message := m; rtype := RtBad |}.
Definition sr_no (m : list Piece) : StatusResponse :=
  {| tag := None; code := None; message := m; rtype := RtNo |}.
Definition sr_ok (m : list Piece) : StatusResponse :=
  {| tag := None; code := None; message := m; rtype := RtOk |}.
Definition sr_bye (m : list Piece) : StatusResponse :=
  {| tag := None; code := None; message := m; rtype := RtBye |}.
Definition with_code (r : StatusResponse) (c : ResponseCode) : StatusResponse :=
  {| tag := tag r; code := Some c; message := message r; rtype := rtype r |}.
Definition with_tag (r : StatusResponse) (t : str) : StatusResponse :=
  {| tag := Some t; code := code r; message := message r; rtype := rtype r |}.
Definition database_failure : StatusResponse :=
  with_code (sr_no (msg "Database failure.")) ContactAdmin.
Definition completed (c : Command) : StatusResponse :=
  sr_ok [PStr (command_name c); PStr (b " completed")].

(** [impl From<(String, ..)> for StatusResponse], the five of them. *)
Definition tagged_error (t : str) (m : list Piece) : StatusResponse :=
  {| tag := Some t; code := None; message := m; rtype := RtBad |}.
