(* ===== verification/Receiver.v ===== *)
(** * The request receiver ([src/core/receiver.rs])

    A byte-driven state machine that cuts the input stream into requests:
    tag, command name, then tokens (atoms, quoted strings, literals,
    punctuation).  [step] is one iteration of the [while let] loop of
    [Receiver::parse], one definition per [State]; [parse] is the loop. *)

From S2P Require Import Prelude Utf8 Utf7 Types.

Inductive Token :=
| Argument (value : bytes)
| ParenthesisOpen | ParenthesisClose | BracketOpen | BracketClose
| Lt_ | Gt_ | Dot | Nil_.

#[export] Instance Token_eq_dec : EqDecision Token.
Proof. solve_decision. Defined.

Inductive State :=
| Start
| Tag
| CommandName (is_uid : bool)
| ArgumentState (last_ch : Z)
| ArgumentQuoted (escaped : bool)
| Literal (non_sync : bool)
| LiteralSeek (size : Z) (non_sync : bool)
| LiteralData (remaining : Z).

(** [trait CommandParser]: what the receiver needs of a protocol's commands. *)
Class CommandParser (T : Type) := {
  command_parse : bytes -> bool -> option T;
  tokenize_brackets : T -> bool;
  command_default : T
}.

Record Request (T : Type) := mkRequest {
  req_tag : str;
  req_command : T;
  req_tokens : list Token
}.
Arguments mkRequest {T} _ _ _.
Arguments req_tag {T} _.
Arguments req_command {T} _.
Arguments req_tokens {T} _.

(** [receiver::Error] *)
Inductive RecvError :=
| NeedsMoreData
| NeedsLiteral (size : Z)
| ErrorResponse (response : StatusResponse).

Section Receiver.
Context {T : Type} `{CommandParser T}.

Record Receiver := mkReceiver {
  buf : bytes;
  request : Request T;
  state : State;
  max_request_size : Z;
  current_request_size : Z;
  start_state : State
}.

Definition default_request : Request T := mkRequest [] command_default [].

(** [Receiver::with_max_request_size(..).with_start_state(..)] *)
Definition new_receiver (max : Z) (start : State) : Receiver :=
  mkReceiver [] default_request start max 0 start.

Definition set_buf (r : Receiver) (x : bytes) : Receiver :=
  mkReceiver x (request r) (state r) (max_request_size r) (current_request_size r) (start_state r).
Definition set_state (r : Receiver) (s : State) : Receiver :=
  mkReceiver (buf r) (request r) s (max_request_size r) (current_request_size r) (start_state r).
Definition set_size (r : Receiver) (n : Z) : Receiver :=
  mkReceiver (buf r) (request r) (state r) (max_request_size r) n (start_state r).
Definition set_request (r : Receiver) (q : Request T) : Receiver :=
  mkReceiver (buf r) q (state r) (max_request_size r) (current_request_size r) (start_state r).
Definition push_buf (r : Receiver) (c : Z) : Receiver := set_buf r (buf r ++ [c]).
Definition buf_len (r : Receiver) : Z := Z.of_nat (length (buf r)).

Definition set_tag (r : Receiver) (t : str) : Receiver :=
  set_request r (mkRequest t (req_command (request r)) (req_tokens (request r))).
Definition set_command (r : Receiver) (c : T) : Receiver :=
  set_request r (mkRequest (req_tag (request r)) c (req_tokens (request r))).
Definition add_token (r : Receiver) (t : Token) : Receiver :=
  set_request r
    (mkRequest (req_tag (request r)) (req_command (request r)) (req_tokens (request r) ++ [t])).

(** [Error::err] *)
Definition recv_err (t : option str) (m : list Piece) : RecvError :=
  ErrorResponse {| tag := t; code := Some Parse; message := m; rtype := RtBad |}.

Definition error_reset (r : Receiver) (m : list Piece) : Receiver * RecvError :=
  let t := req_tag (request r) in
  (mkReceiver [] default_request (start_state r) (max_request_size r) 0 (start_state r),
   recv_err (if bool_decide (t = []) then None else Some t) m).

Definition size_error (r : Receiver) : Receiver * RecvError :=
  error_reset r
    [PStr (b "Request exceeds maximum limit of "); PStr (dec (max_request_size r)); PStr (b " bytes.")].

(** What one loop iteration does: go on, or [return]. *)
Inductive Flow :=
| Continue
| Return (r : Res RecvError (Request T)).

Definition fail (p : Receiver * RecvError) : Receiver * Flow := (p.1, Return (Err p.2)).

(** [self.push_argument(in_quote)?]: the continuation runs on [Ok(())]. *)
Definition push_argument (r : Receiver) (in_quote : bool) (k : Receiver -> Receiver * Flow)
    : Receiver * Flow :=
  if negb (bool_decide (buf r = [])) then
    let r := set_size r (current_request_size r + buf_len r) in
    if max_request_size r <? current_request_size r then fail (size_error r)
    else k (set_buf (add_token r (Argument (buf r))) [])
  else if in_quote then k (add_token r Nil_)
  else k r.

(** [self.push_token(token)?] *)
Definition push_token (r : Receiver) (t : Token) (k : Receiver -> Receiver * Flow)
    : Receiver * Flow :=
  let r := set_size r (current_request_size r + 1) in
  if max_request_size r <? current_request_size r then fail (size_error r)
  else k (add_token r t).

Definition continue_ (r : Receiver) : Receiver * Flow := (r, Continue).

(** [return Ok(std::mem::take(&mut self.request))] *)
Definition finish (r : Receiver) : Receiver * Flow :=
  let r := set_size (set_state r (start_state r)) 0 in
  (set_request r default_request, Return (Ok (request r))).

Definition step_start (r : Receiver) (ch : Z) : Receiver * Flow :=
  if negb (is_ascii_whitespace ch) then continue_ (set_state (push_buf r ch) Tag)
  else if ch =? LF then fail (error_reset r (msg "Expected a tag."))
  else continue_ r.

Definition step_tag (r : Receiver) (ch : Z) : Receiver * Flow :=
  if ch =? SP then
    if negb (bool_decide (buf r = [])) then
      match from_utf8 (buf r) with
      | Some t => continue_ (set_state (set_tag (set_buf r []) t) (CommandName false))
      | None => fail (error_reset (set_buf r []) (msg "Tag is not a valid UTF-8 string."))
      end
    else continue_ r
  else if negb (is_ascii_whitespace ch) then
    if buf_len r <? 128 then continue_ (push_buf r ch)
    else fail (error_reset r (msg "Tag too long."))
  else fail (error_reset r
    [PStr (b "Invalid character "); PDebugChar ch; PStr (b " in tag.")]).

Definition step_command (r : Receiver) (is_uid : bool) (ch : Z) : Receiver * Flow :=
  if is_ascii_alphanumeric ch then
    if buf_len r <? 15 then continue_ (push_buf r (to_ascii_uppercase ch))
    else fail (error_reset r (msg "Command too long"))
  else if is_ascii_whitespace ch then
    if negb (bool_decide (buf r = [])) then
      if negb (eq_ignore_ascii_case (buf r) (b "UID")) then
        match command_parse (buf r) is_uid with
        | None => fail (error_reset r
            [PStr (b "Unrecognized command '"); PStr (lossy (buf r)); PStr (b "'.")])
        | Some c =>
          let r := set_buf (set_command r c) [] in
          if negb (ch =? LF) then continue_ (set_state r (ArgumentState SP))
          else finish r
        end
      else continue_ (set_state (set_buf r []) (CommandName true))
    else continue_ r
  else fail (error_reset r
    [PStr (b "Invalid character "); PDebugChar ch; PStr (b " in command name.")]).

(** The token pushed for a punctuation byte of [State::Argument]; brackets,
    angle brackets and dots only count for commands that tokenize them. *)
Definition punctuation (c : T) (ch : Z) : option Token :=
  if ch =? 40 then Some ParenthesisOpen
  else if ch =? 41 then Some ParenthesisClose
  else if (ch =? 91) && tokenize_brackets c then Some BracketOpen
  else if (ch =? 93) && tokenize_brackets c then Some BracketClose
  else if (ch =? 60) && tokenize_brackets c then Some Lt_
  else if (ch =? 62) && tokenize_brackets c then Some Gt_
  else if (ch =? 46) && tokenize_brackets c then Some Dot
  else None.

Definition step_argument (r : Receiver) (last_ch : Z) (ch : Z) : Receiver * Flow :=
  if (ch =? DQUOTE) && is_ascii_whitespace last_ch then
    push_argument r false (fun r => continue_ (set_state r (ArgumentQuoted false)))
  else if (ch =? 123) && is_ascii_whitespace last_ch then
    push_argument r false (fun r => continue_ (set_state r (Literal false)))
  else match punctuation (req_command (request r)) ch with
  | Some t => push_argument r false (fun r => push_token r t continue_)
  | None =>
    if ch =? LF then push_argument r false finish
    else if is_ascii_whitespace ch then
      push_argument r false (fun r => continue_ (set_state r (ArgumentState ch)))
    else continue_ (set_state (push_buf r ch) (ArgumentState ch))
  end.

Definition quoted_too_long (r : Receiver) : Receiver * Flow :=
  fail (error_reset r (msg "Quoted argument too long.")).

Definition step_quoted (r : Receiver) (escaped : bool) (ch : Z) : Receiver * Flow :=
  if ch =? DQUOTE then
    if negb escaped then
      push_argument r true (fun r => continue_ (set_state r (ArgumentState SP)))
    else if buf_len r <? 1024 then
      continue_ (set_state (push_buf r ch) (ArgumentQuoted false))
    else quoted_too_long r
  else if ch =? BACKSLASH then
    let r := if escaped then push_buf r ch else r in
    continue_ (set_state r (ArgumentQuoted (negb escaped)))
  else if ch =? LF then fail (error_reset r (msg "Unterminated quoted argument."))
  else if buf_len r <? 1024 then
    let r := if escaped then push_buf r BACKSLASH else r in
    continue_ (set_state (push_buf r ch) (ArgumentQuoted false))
  else quoted_too_long r.

Definition step_literal (r : Receiver) (non_sync : bool) (ch : Z) : Receiver * Flow :=
  if ch =? 125 then
    if negb (bool_decide (buf r = [])) then
      match from_utf8 (buf r) with
      | None => (r, Return Panic)
      | Some s =>
        match parse_uint 32 s with
        | None => fail (error_reset r (msg "Literal size is not a valid number."))
        | Some size =>
          if max_request_size r <? current_request_size r + size then
            fail (error_reset r
              [PStr (b "Literal exceeds the maximum request size of ");
               PStr (dec (max_request_size r)); PStr (b " bytes.")])
          else continue_ (set_buf (set_state r (LiteralSeek size non_sync)) [])
        end
      end
    else fail (error_reset r (msg "Invalid empty literal."))
  else if ch =? 43 then
    if negb (bool_decide (buf r = [])) then continue_ (set_state r (Literal true))
    else fail (error_reset r (msg "Invalid non-sync literal."))
  else if is_ascii_digit ch then
    if negb non_sync then continue_ (push_buf r ch)
    else fail (error_reset r (msg "Invalid literal."))
  else fail (error_reset r
    [PStr (b "Invalid character "); PDebugChar ch; PStr (b " in literal.")]).

Definition step_literal_seek (r : Receiver) (size : Z) (non_sync : bool) (ch : Z)
    : Receiver * Flow :=
  if ch =? LF then
    let answer r := (r, if non_sync then Continue else Return (Err (NeedsLiteral size))) in
    if 0 <? size then answer (set_state r (LiteralData size))
    else push_token (set_state r (ArgumentState SP)) Nil_ answer
  else if negb (is_ascii_whitespace ch) then
    fail (error_reset r (msg "Expected CRLF after literal, found an invalid char."))
  else continue_ r.

Definition step_literal_data (r : Receiver) (remaining : Z) (ch : Z) : Receiver * Flow :=
  let r := push_buf r ch in
  if 1 <? remaining then continue_ (set_state r (LiteralData (remaining - 1)))
  else push_argument r false (fun r => continue_ (set_state r (ArgumentState SP))).

(** [match self.state] *)
Definition step (r : Receiver) (ch : Z) : Receiver * Flow :=
  match state r with
  | Start => step_start r ch
  | Tag => step_tag r ch
  | CommandName is_uid => step_command r is_uid ch
  | ArgumentState last_ch => step_argument r last_ch ch
  | ArgumentQuoted escaped => step_quoted r escaped ch
  | Literal non_sync => step_literal r non_sync ch
  | LiteralSeek size non_sync => step_literal_seek r size non_sync ch
  | LiteralData remaining => step_literal_data r remaining ch
  end.

(** [Receiver::parse]: the receiver afterwards, the result, and what is left
    of the byte iterator. *)
Fixpoint parse (r : Receiver) (bs : bytes) : Receiver * Res RecvError (Request T) * bytes :=
  match bs with
  | [] => (r, Err NeedsMoreData, [])
  | ch :: bs' =>
    match step r ch with
    | (r', Continue) => parse r' bs'
    | (r', Return res) => (r', res, bs')
    end
  end.

End Receiver.
Arguments Receiver T : clear implicits.
Arguments Flow T : clear implicits.

(** ** Tokens as arguments *)

(** [impl Display for Token] *)
Definition token_to_string (t : Token) : str :=
  match t with
  | Argument value => lossy value
  | ParenthesisOpen => b "("
  | ParenthesisClose => b ")"
  | BracketOpen => b "["
  | BracketClose => b "]"
  | Gt_ => b ">"
  | Lt_ => b "<"
  | Dot => b "."
  | Nil_ => []
  end.

(** [Token::unwrap_string] *)
Definition unwrap_string (t : Token) : Res (list Piece) str :=
  match t with
  | Argument value => ok_or (from_utf8 value) (msg "Invalid UTF-8 in argument.")
  | other => Ok (token_to_string other)
  end.

(** [Token::unwrap_bytes] *)
Definition unwrap_bytes (t : Token) : bytes :=
  match t with
  | Argument value => value
  | other => token_to_string other
  end.

(** [Token::eq_ignore_ascii_case] *)
Definition token_eq_ignore_ascii_case (t : Token) (x : bytes) : bool :=
  match t with
  | Argument argument => eq_ignore_ascii_case argument x
  | Nil_ => bool_decide (x = [])
  | other => bytes_eqb x (token_to_string other)
  end.

Definition is_parenthesis_open (t : Token) : bool :=
  match t with ParenthesisOpen => true | _ => false end.
Definition is_parenthesis_close (t : Token) : bool :=
  match t with ParenthesisClose => true | _ => false end.
Definition is_bracket_open (t : Token) : bool :=
  match t with BracketOpen => true | _ => false end.
Definition is_dot (t : Token) : bool := match t with Dot => true | _ => false end.
Definition is_lt (t : Token) : bool := match t with Lt_ => true | _ => false end.
Definition is_gt (t : Token) : bool := match t with Gt_ => true | _ => false end.

(** [Request::into_error] and [Request::into_parse_error] *)
Definition into_error {T} (q : Request T) (m : list Piece) : StatusResponse :=
  {| tag := Some (req_tag q); code := None; message := m; rtype := RtNo |}.
Definition into_parse_error {T} (q : Request T) (m : list Piece) : StatusResponse :=
  {| tag := Some (req_tag q); code := Some Parse; message := m; rtype := RtBad |}.
