(* ===== verification/ReceiverSpec.v ===== *)
(** * What the receiver guarantees

    Specification and theorems of [Receiver.v]: independence from the chunks
    the stream arrives in, the well-formedness invariant (no panic, the size
    budget), the reset after each request, literals. *)

From S2P Require Import Prelude Utf8 Utf7 Types Receiver.

(** ** Specification notions

    [run] is what the stream [bs] means to a receiver, whatever the chunks it
    arrives in: the results of all the [return]s on the way. *)
Section Spec.
Context {T : Type} `{CommandParser T}.
Implicit Types r : Receiver T.

Fixpoint run r (bs : bytes) : Receiver T * list (Res RecvError (Request T)) :=
  match bs with
  | [] => (r, [])
  | ch :: bs' =>
    match step r ch with
    | (r', Continue) => run r' bs'
    | (r', Return res) => ((run r' bs').1, res :: (run r' bs').2)
    end
  end.

(** Bytes a token takes out of the budget of its request. *)
Definition token_size (t : Token) : Z :=
  match t with Argument v => Z.of_nat (length v) | Nil_ => 0 | _ => 1 end.
Definition tokens_size (ts : list Token) : Z := foldr (fun t n => token_size t + n) 0 ts.

(** No empty [Argument]: an empty string is the token [Nil]. *)
Definition token_ok (t : Token) : Prop := match t with Argument v => v <> [] | _ => True end.

(** A tag fits on a response line: at most 128 bytes, no white space. *)
Definition tag_ok (t : bytes) : Prop :=
  Z.of_nat (length t) <= 128 /\ Forall (fun c => is_ascii_whitespace c = false) t.

Definition request_ok (max : Z) (q : Request T) : Prop :=
  tag_ok (req_tag q) /\ Forall token_ok (req_tokens q) /\ tokens_size (req_tokens q) <= max.

(** States in which a receiver may be started. *)
Definition start_ok (s : State) : Prop :=
  match s with Start | CommandName _ => True | _ => False end.

Definition state_ok r : Prop :=
  match state r with
  | Start => buf r = []
  | Tag => 1 <= buf_len r /\ tag_ok (buf r)
  | CommandName _ => buf_len r <= 15
  | ArgumentState _ | ArgumentQuoted _ => True
  | Literal _ => Forall (fun c => is_ascii_digit c = true) (buf r)
  | LiteralSeek size _ =>
      buf r = [] /\ 0 <= size /\ current_request_size r + size <= max_request_size r
  | LiteralData remaining =>
      1 <= remaining /\ current_request_size r + buf_len r + remaining <= max_request_size r
  end.

Definition wf_request r : Prop :=
  start_ok (start_state r) /\
  tag_ok (req_tag (request r)) /\
  Forall token_ok (req_tokens (request r)) /\
  tokens_size (req_tokens (request r)) <= current_request_size r /\
  0 <= current_request_size r <= max_request_size r.

Definition wf r : Prop := wf_request r /\ state_ok r.

(** *** Lemmas on single steps *)

Lemma tokens_size_app x y : tokens_size (x ++ y) = tokens_size x + tokens_size y.
Proof. unfold tokens_size. induction x; simpl; lia. Qed.

(** All the branches of one step. *)
Ltac unfold_step :=
  unfold step, step_start, step_tag, step_command, step_argument, step_quoted,
    step_literal, step_literal_seek, step_literal_data, quoted_too_long, push_argument,
    push_token, finish, fail, continue_, size_error, error_reset in *.

Lemma step_return_event r ch r' res :
  step r ch = (r', Return res) -> res <> Err NeedsMoreData.
Proof. unfold_step. repeat case_match; naive_solver. Qed.

Lemma error_reset_new r m r' e :
  error_reset r m = (r', e) -> r' = new_receiver (max_request_size r) (start_state r).
Proof. unfold error_reset. by intros ?; simplify_eq. Qed.

(** After a request or an error the receiver is a fresh one. *)
Lemma step_restarts r ch r' res :
  step r ch = (r', Return res) ->
  match res with
  | Err (NeedsLiteral _) | Panic => True
  | _ => r' = new_receiver (max_request_size r) (start_state r)
  end.
Proof.
  unfold_step; unfold new_receiver, default_request.
  repeat case_match; intros ?; simplify_eq; simpl; try done;
    repeat match goal with
    | H : negb (bool_decide _) = false |- _ => apply negb_false_iff, bool_decide_eq_true in H
    end; simpl in *; unfold set_request, set_size, set_state; simpl; congruence.
Qed.

(** The configuration of a receiver never changes. *)
Lemma step_config r ch r' f :
  step r ch = (r', f) ->
  max_request_size r' = max_request_size r /\ start_state r' = start_state r.
Proof. unfold_step. repeat case_match; intros ?; by simplify_eq. Qed.

Lemma parse_config r bs r' res rest :
  parse r bs = (r', res, rest) ->
  max_request_size r' = max_request_size r /\ start_state r' = start_state r.
Proof.
  revert r; induction bs as [|ch bs IH]; intros r; simpl; [by intros ?; simplify_eq|].
  destruct (step r ch) as [r1 f] eqn:E. apply step_config in E as [E1 E2].
  destruct f as [|res1]; intros Hp; [apply IH in Hp | simplify_eq]; by rewrite <- E1, <- E2.
Qed.

(** *** Well-formedness *)

Lemma tag_ok_nil : tag_ok [].
Proof. by split. Qed.

Lemma tag_ok_snoc t c :
  tag_ok t -> Z.of_nat (length t) < 128 -> is_ascii_whitespace c = false -> tag_ok (t ++ [c]).
Proof.
  intros [_ Ht] Hl Hc. split; [rewrite length_app; simpl; lia|].
  apply Forall_app; split; [done|]. by repeat constructor.
Qed.

#[local] Hint Resolve tag_ok_nil tag_ok_snoc : imap.

Lemma from_utf8_same x y : from_utf8 x = Some y -> y = x.
Proof. unfold from_utf8. case_match; naive_solver. Qed.

Lemma wf_new max start :
  start_ok start -> 0 <= max -> wf (new_receiver (T := T) max start).
Proof. destruct start; unfold wf, wf_request, state_ok, buf_len; simpl; intros; split_and!; auto with imap; try done; lia. Qed.

Definition flow_ok (p : Receiver T * Flow T) : Prop :=
  wf p.1 /\
  match p.2 with
  | Continue => True
  | Return (Ok q) => request_ok (max_request_size p.1) q
  | Return (Err _) => True
  | Return _ => False
  end.

Lemma error_reset_ok r m :
  start_ok (start_state r) -> 0 <= max_request_size r -> flow_ok (fail (error_reset r m)).
Proof. intros Hs Hc. split; [|done]. by apply (wf_new _ _ Hs). Qed.

Lemma error_reset_wf r m : wf r -> flow_ok (fail (error_reset r m)).
Proof. intros [(Hs & _ & _ & _ & Hc) _]. apply error_reset_ok; [done | lia]. Qed.

(** What every branch that pushes an argument needs: the rest of the branch is
    fine on the receiver with the argument added and the buffer emptied. *)
Lemma push_argument_wf r q k :
  wf_request r ->
  (forall ts n, Forall token_ok ts -> tokens_size ts <= n ->
     0 <= n <= max_request_size r -> (buf r = [] -> n = current_request_size r) ->
     flow_ok (k (mkReceiver [] (mkRequest (req_tag (request r)) (req_command (request r)) ts)
                  (state r) (max_request_size r) n (start_state r)))) ->
  flow_ok (push_argument r q k).
Proof.
  intros Hwf Hk. pose proof Hwf as (Hs & Htag & Hf & Ht & Hc).
  unfold push_argument. destruct r as [bf [tg cmd ts] st mx cur ss]; simpl in *.
  case_bool_decide as Hb; simpl.
  - subst bf. destruct q; simpl.
    + apply Hk; try done.
      * apply Forall_app; split; [done|]. by repeat constructor.
      * rewrite tokens_size_app. simpl. lia.
    + by apply Hk.
  - unfold set_size, buf_len; simpl. destruct (Z.ltb_spec mx (cur + Z.of_nat (length bf))).
    + apply error_reset_ok; simpl; [done | lia].
    + unfold add_token, set_request, set_buf; simpl. apply Hk.
      * apply Forall_app; split; [done|]. by repeat constructor.
      * rewrite tokens_size_app; simpl. lia.
      * lia.
      * done.
Qed.

Lemma push_token_wf r t k :
  wf_request r -> token_ok t -> token_size t <= 1 ->
  (forall n, 0 <= n <= max_request_size r ->
     tokens_size (req_tokens (request r) ++ [t]) <= n ->
     Forall token_ok (req_tokens (request r) ++ [t]) ->
     flow_ok (k (mkReceiver (buf r)
                  (mkRequest (req_tag (request r)) (req_command (request r))
                     (req_tokens (request r) ++ [t]))
                  (state r) (max_request_size r) n (start_state r)))) ->
  flow_ok (push_token r t k).
Proof.
  intros Hwf Htk Hsz Hk. pose proof Hwf as (Hs & Htag & Hf & Ht & Hc).
  unfold push_token, set_size; simpl. destruct (Z.ltb_spec (max_request_size r) (current_request_size r + 1)).
  - apply error_reset_ok; simpl; [done | lia].
  - apply Hk; simpl; [lia | rewrite tokens_size_app; simpl; lia |].
    apply Forall_app; split; [done|]. by repeat constructor.
Qed.

Lemma finish_wf r : wf_request r -> buf r = [] -> flow_ok (finish r).
Proof.
  intros (Hs & Htag & Hf & Ht & Hc) Hb. unfold flow_ok, finish; simpl.
  split; [|split_and!; [done|done|lia]]. unfold wf, wf_request, set_request, set_size, set_state; simpl.
  split_and!; try done; try lia; auto with imap.
  unfold state_ok; simpl. destruct (start_state r); try done; unfold buf_len; simpl; rewrite Hb; simpl; lia.
Qed.

(** Close the side conditions of a branch that goes on. *)
Ltac wf_continue :=
  unfold flow_ok, continue_, wf, wf_request, state_ok, set_state, push_buf, set_buf, set_tag, set_command,
    set_request, buf_len in *; simpl in *;
  repeat match goal with H : state _ = _ |- context [state _] => rewrite H end;
  repeat match goal with H : buf _ = [] |- context [buf _] => rewrite H end;
  rewrite ?length_app; simpl; split_and!; try tauto; try done; try lia; auto with imap.

Lemma step_start_wf r ch : wf r -> state r = Start -> flow_ok (step_start r ch).
Proof.
  intros Hwf Hst. unfold step_start. repeat case_match; try by apply error_reset_wf.
  - pose proof Hwf as [? Hb]. unfold state_ok in Hb. rewrite Hst in Hb.
    wf_continue. by apply (tag_ok_snoc []); [auto with imap| |apply negb_true_iff].
  - by split.
Qed.

Lemma step_tag_wf r ch : wf r -> state r = Tag -> flow_ok (step_tag r ch).
Proof.
  intros Hwf Hst. pose proof Hwf as [? Hb]. unfold state_ok in Hb. rewrite Hst in Hb.
  unfold step_tag. repeat case_match; try by apply error_reset_wf.
  - match goal with H : from_utf8 _ = _ |- _ => apply from_utf8_same in H as -> end. wf_continue.
  - apply error_reset_ok; simpl; unfold wf, wf_request in Hwf; [tauto | lia].
  - by split.
  - wf_continue. apply tag_ok_snoc; [tauto | lia | by apply negb_true_iff].
Qed.

Lemma step_command_wf r u ch : wf r -> state r = CommandName u -> flow_ok (step_command r u ch).
Proof.
  intros Hwf Hst. pose proof Hwf as [? Hb]. unfold state_ok in Hb. rewrite Hst in Hb.
  unfold step_command. repeat case_match; try by apply error_reset_wf.
  - wf_continue.
  - wf_continue.
  - apply finish_wf; [|done]. wf_continue.
  - wf_continue.
  - by split.
Qed.

(** Discharge the continuation of a [push_argument] that ends the branch. *)
Ltac push_then_continue :=
  apply push_argument_wf; [wf_continue|]; intros; wf_continue.

Lemma punctuation_ok c ch t :
  punctuation c ch = Some t -> token_ok t /\ token_size t <= 1.
Proof. unfold punctuation. repeat case_match; intros; simplify_eq; simpl; lia. Qed.

Lemma step_argument_wf r l ch :
  wf r -> state r = ArgumentState l -> flow_ok (step_argument r l ch).
Proof.
  intros Hwf Hst. unfold step_argument.
  destruct (_ && _); [push_then_continue|].
  destruct (_ && _); [push_then_continue|].
  destruct (punctuation _ _) as [t|] eqn:Hp.
  - apply punctuation_ok in Hp as [Ht1 Ht2].
    apply push_argument_wf; [wf_continue|]. intros ts n Hts Hn Hmax _.
    apply push_token_wf; try done; [wf_continue|].
    intros. wf_continue.
  - destruct (ch =? LF).
    + apply push_argument_wf; [wf_continue|]. intros ts n Hts Hn Hmax _.
      apply finish_wf; [|done]. wf_continue.
    + destruct (is_ascii_whitespace ch); [push_then_continue|]. wf_continue.
Qed.

Lemma step_quoted_wf r e ch :
  wf r -> state r = ArgumentQuoted e -> flow_ok (step_quoted r e ch).
Proof.
  intros Hwf Hst. unfold step_quoted, quoted_too_long.
  repeat case_match; try (by apply error_reset_wf); try push_then_continue; wf_continue.
Qed.

Lemma digits_utf8 x :
  Forall (fun c => is_ascii_digit c = true) x -> from_utf8 x = Some x.
Proof.
  intros Hx. apply from_utf8_ascii. eapply Forall_impl; [|exact Hx].
  unfold is_ascii_digit. simpl. lia.
Qed.

Lemma step_literal_wf r ns ch : wf r -> state r = Literal ns -> flow_ok (step_literal r ns ch).
Proof.
  intros Hwf Hst. pose proof Hwf as [? Hb]. unfold state_ok in Hb. rewrite Hst in Hb.
  unfold step_literal. rewrite (digits_utf8 _ Hb).
  repeat case_match; try by apply error_reset_wf.
  - match goal with H : parse_uint _ _ = _ |- _ => apply parse_uint_bound in H end. wf_continue.
  - wf_continue.
  - wf_continue. apply Forall_app; split; [done|]. by repeat constructor.
Qed.

Lemma step_literal_seek_wf r size ns ch :
  wf r -> state r = LiteralSeek size ns -> flow_ok (step_literal_seek r size ns ch).
Proof.
  intros Hwf Hst. pose proof Hwf as [? Hb]. unfold state_ok in Hb. rewrite Hst in Hb.
  unfold step_literal_seek. destruct (ch =? LF).
  - destruct (Z.ltb_spec 0 size).
    + destruct Hb as (Hb1 & Hb2). destruct ns; wf_continue.
    + apply push_token_wf; [wf_continue | done | simpl; lia |].
      intros. destruct ns; wf_continue.
  - case_match; [by apply error_reset_wf | by split].
Qed.

Lemma step_literal_data_wf r n ch :
  wf r -> state r = LiteralData n -> flow_ok (step_literal_data r n ch).
Proof.
  intros Hwf Hst. pose proof Hwf as [? Hb]. unfold state_ok in Hb. rewrite Hst in Hb.
  unfold step_literal_data. destruct (Z.ltb_spec 1 n).
  - wf_continue.
  - apply push_argument_wf.
    + wf_continue.
    + intros. wf_continue.
Qed.

Lemma step_wf r ch : wf r -> flow_ok (step r ch).
Proof.
  intros Hwf. unfold step. destruct (state r) eqn:E;
    eauto using step_start_wf, step_tag_wf, step_command_wf, step_argument_wf, step_quoted_wf,
      step_literal_wf, step_literal_seek_wf, step_literal_data_wf.
Qed.

Lemma run_app r x y :
  run r (x ++ y) = ((run (run r x).1 y).1, (run r x).2 ++ (run (run r x).1 y).2).
Proof.
  revert r; induction x as [|ch x IH]; intros r; simpl; [by destruct (run r y)|].
  destruct (step r ch) as [r1 [|res]]; [apply IH|]. rewrite IH. by destruct (run r1 x).
Qed.

(** [parse] delivers the first result of the stream and leaves the rest. *)
Lemma run_parse r x :
  run r x = match parse r x with
            | (r', Err NeedsMoreData, _) => (r', [])
            | (r', res, rest) => ((run r' rest).1, res :: (run r' rest).2)
            end.
Proof.
  revert r; induction x as [|ch x IH]; intros r; simpl; [done|].
  destruct (step r ch) as [r1 [|res]] eqn:E; [apply IH|].
  apply step_return_event in E. by destruct res as [q|[]| |].
Qed.

(** Only the end of the chunk makes [parse] ask for more data; any other result
    leaves strictly less input. *)
Lemma parse_rest r x r' res rest :
  parse r x = (r', res, rest) ->
  (res = Err NeedsMoreData /\ rest = []) \/
  (res <> Err NeedsMoreData /\ (length rest < length x)%nat).
Proof.
  revert r; induction x as [|ch x IH]; intros r; simpl; [intros; simplify_eq; by left|].
  destruct (step r ch) as [r1 [|res1]] eqn:E; intros Hp.
  - destruct (IH _ Hp) as [|[? ?]]; [by left | right; split; [done | lia]].
  - simplify_eq. right. split; [by eapply step_return_event | lia].
Qed.

(** A stretch of input without a result. *)
Lemma run_nil_parse r x r' : run r x = (r', []) -> parse r x = (r', Err NeedsMoreData, []).
Proof.
  revert r; induction x as [|ch x IH]; intros r; simpl; [by intros; simplify_eq|].
  destruct (step r ch) as [r1 [|res]]; [apply IH | done].
Qed.

Lemma run_cons_continue r ch r1 x :
  step r ch = (r1, Continue) -> run r (ch :: x) = run r1 x.
Proof. intros E. simpl. by rewrite E. Qed.

Lemma run_continue r x r1 y : run r x = (r1, []) -> run r (x ++ y) = run r1 y.
Proof. intros E. rewrite run_app, E. simpl. by destruct (run r1 y). Qed.

Lemma run_literal_data bf tg cmd ts mx cur ss data :
  data <> [] -> cur + Z.of_nat (length bf) + Z.of_nat (length data) <= mx ->
  run (mkReceiver bf (mkRequest tg cmd ts) (LiteralData (Z.of_nat (length data))) mx cur ss) data =
    (mkReceiver [] (mkRequest tg cmd (ts ++ [Argument (bf ++ data)])) (ArgumentState SP) mx
       (cur + Z.of_nat (length bf) + Z.of_nat (length data)) ss, []).
Proof.
  remember (Z.of_nat (length data)) as n eqn:Hn.
  revert n Hn bf; induction data as [|ch data IH]; intros n Hn bf Hne Hsz; [done|].
  cbn [run]. unfold step, step_literal_data, push_argument; simpl.
  rewrite bool_decide_eq_false_2 by (by destruct bf). simpl.
  unfold buf_len; simpl. rewrite length_app; simpl length.
  cbn [length] in Hn. destruct (decide (data = [])) as [->|Hd].
  - simpl in *. if_lia. simpl.
    unfold continue_, set_state, set_buf, add_token, set_size, push_buf, set_request; simpl.
    do 2 f_equal. lia.
  - assert (length data <> O) by (by destruct data). if_lia.
    unfold continue_, set_state, push_buf, set_buf; simpl.
    rewrite (IH (n - 1) ltac:(lia) (bf ++ [ch])) by (done || rewrite length_app; simpl; lia).
    rewrite <- app_assoc, length_app; simpl. do 2 f_equal. lia.
Qed.

(** *** What panic freedom alone needs

    Weaker than [wf], and kept when a handler replaces the request that is
    being received. *)
Definition literal_ok r : Prop :=
  start_ok (start_state r) /\
  match state r with Literal _ => Forall (fun c => is_ascii_digit c = true) (buf r) | _ => True end.

Lemma literal_ok_new max start : start_ok start -> literal_ok (new_receiver (T := T) max start).
Proof. by destruct start. Qed.

Definition flow_returns (p : Receiver T * Flow T) : Prop :=
  literal_ok p.1 /\ match p.2 with Return Panic | Return NoFuel => False | _ => True end.

Lemma returns_fail r m : start_ok (start_state r) -> flow_returns (fail (error_reset r m)).
Proof. intros Hs. split; [by apply literal_ok_new | done]. Qed.

Lemma returns_push_argument r q k :
  start_ok (start_state r) ->
  (forall r', buf r' = [] -> start_state r' = start_state r -> state r' = state r -> flow_returns (k r')) ->
  flow_returns (push_argument r q k).
Proof.
  intros Hs Hk. unfold push_argument. case_bool_decide as Hb; cbn [negb].
  - destruct q; by apply Hk.
  - case_match; [by apply returns_fail | by apply Hk].
Qed.

Lemma returns_push_token r t k :
  start_ok (start_state r) ->
  (forall r', buf r' = buf r -> start_state r' = start_state r -> state r' = state r -> flow_returns (k r')) ->
  flow_returns (push_token r t k).
Proof. intros Hs Hk. unfold push_token. case_match; [by apply returns_fail | by apply Hk]. Qed.

Lemma returns_finish r : start_ok (start_state r) -> flow_returns (finish r).
Proof. intros Hs. split; [|done]. split; [done|]. cbn. by destruct (start_state r). Qed.

(** The state after the step is not one that reads the size of a literal. *)
Lemma returns_other r s f :
  start_ok (start_state r) -> state r = s -> match s with Literal _ => False | _ => True end ->
  match f with Return Panic | Return NoFuel => False | _ => True end -> flow_returns (r, f).
Proof. intros Hs E Hn Hf. split; [|done]. split; [done|]. cbn. rewrite E. by destruct s. Qed.

Ltac flow_returns_tac :=
  repeat first
    [ apply returns_fail; cbn; congruence
    | apply returns_finish; cbn; congruence
    | apply returns_push_argument; [cbn; congruence | intros]
    | apply returns_push_token; [cbn; congruence | intros]
    | eapply returns_other; [cbn in *; congruence | cbn; eassumption || reflexivity | exact I | exact I]
    | progress unfold continue_
    | case_match ].

Lemma step_literal_ok r ch : literal_ok r -> flow_returns (step r ch).
Proof.
  intros [Hs Hl]. unfold step. destruct (state r) eqn:E.
  - unfold step_start. flow_returns_tac.
  - unfold step_tag. flow_returns_tac.
  - unfold step_command. flow_returns_tac.
  - unfold step_argument. flow_returns_tac; (split; [|done]; split; [cbn; congruence|]; cbn).
    + by match goal with H : buf _ = [] |- _ => rewrite H end.
    + by match goal with |- match state ?r' with _ => _ end => replace (state r') with (state r) by congruence; rewrite E end.
  - unfold step_quoted. unfold quoted_too_long. flow_returns_tac.
  - unfold step_literal. rewrite (digits_utf8 _ Hl). flow_returns_tac; (split; [|done]; split; [done|]; cbn; rewrite ?E; try done).
    apply Forall_app; split; [done|]. by repeat constructor.
  - unfold step_literal_seek. flow_returns_tac; (split; [|done]; split; [cbn in *; congruence|]);
      by match goal with E' : state ?r' = _ |- match state (fst (?r', _)) with _ => _ end => cbn; rewrite E' end.
  - unfold step_literal_data. flow_returns_tac.
Qed.

Lemma parse_literal_ok r x :
  literal_ok r -> literal_ok (parse r x).1.1 /\ returns (parse r x).1.2.
Proof.
  revert r; induction x as [|ch x IH]; intros r Hr; cbn [parse]; [done|].
  pose proof (step_literal_ok r ch Hr) as [H1 H2]. destruct (step r ch) as [r1 [|res]]; cbn in *; [by apply IH|].
  split; [done|]. by destruct res.
Qed.

(** C3: However the input stream is cut into chunks, the receiver yields the same
    result: what [parse] returns on [x ++ y] is what it returns on [x] if a
    request or an error completes inside [x] (with [y] still unread), and
    otherwise what resuming on [y] returns. *)
Theorem parse_app r x y :
  parse r (x ++ y) =
    match parse r x with
    | (r', Err NeedsMoreData, _) => parse r' y
    | (r', res, rest) => (r', res, rest ++ y)
    end.
Proof.
  revert r; induction x as [|ch x IH]; intros r; simpl; [done|].
  destruct (step r ch) as [r1 [|res]] eqn:E; [apply IH|].
  apply step_return_event in E. by destruct res as [q|[]| |].
Qed.

(** C2: From a well-formed receiver, [parse] on any bytes never panics (in
    particular the [unwrap] on the literal size cannot fail), leaves a well-formed
    receiver, and every request it delivers has only nonempty arguments whose
    total size is within the request limit. *)
Theorem parse_safe r x r' res rest :
  wf r -> parse r x = (r', res, rest) ->
  wf r' /\ returns res /\
  (forall q, res = Ok q -> request_ok (max_request_size r) q).
Proof.
  revert r; induction x as [|ch x IH]; intros r Hwf; simpl; [intros; by simplify_eq|].
  pose proof (step_wf r ch Hwf) as [Hwf' Hf].
  destruct (step r ch) as [r1 f] eqn:E; simpl in *. pose proof (step_config _ _ _ _ E) as [Hm _].
  destruct f as [|res1]; intros Hp.
  - rewrite <- Hm. by eapply IH.
  - simplify_eq. rewrite <- Hm. destruct res; try done; split_and!; try done; intros; by simplify_eq.
Qed.

(** C34: Nothing leaks from one request to the next: when [parse] delivers a request
    or rejects one with an error response, the receiver it leaves is a fresh
    receiver in its start state, with empty buffer, empty request and zero size. *)
Theorem parse_restarts r x r' res rest :
  parse r x = (r', res, rest) ->
  match res with
  | Ok _ | Err (ErrorResponse _) => r' = new_receiver (max_request_size r) (start_state r)
  | _ => True
  end.
Proof.
  revert r; induction x as [|ch x IH]; intros r; simpl; [intros; by simplify_eq|].
  destruct (step r ch) as [r1 f] eqn:E. pose proof (step_config _ _ _ _ E) as [Hm Hs].
  destruct f as [|res1]; intros Hp.
  - rewrite <- Hm, <- Hs. by apply IH.
  - simplify_eq. apply step_restarts in E. by destruct res as [|[]| |].
Qed.

(** The data of an announced literal is taken verbatim: from a well-formed
    receiver waiting for [length data] more bytes, any [data] (quotes, line feeds,
    parentheses included) is accepted without a result and becomes, after what was
    already buffered, one [Argument] token; the size check cannot fail any more. *)
Theorem literal_verbatim r data y :
  wf r -> state r = LiteralData (Z.of_nat (length data)) -> data <> [] ->
  parse r (data ++ y) =
    parse (mkReceiver [] (mkRequest (req_tag (request r)) (req_command (request r))
                            (req_tokens (request r) ++ [Argument (buf r ++ data)]))
             (ArgumentState SP) (max_request_size r)
             (current_request_size r + buf_len r + Z.of_nat (length data)) (start_state r)) y.
Proof.
  destruct r as [bf [tg cmd ts] st mx cur ss]; simpl. intros [_ Hst] -> Hne.
  unfold state_ok, buf_len in *; cbn in Hst |- *.
  rewrite parse_app, (run_nil_parse _ _ _ (run_literal_data bf tg cmd ts mx cur ss data Hne ltac:(lia))).
  reflexivity.
Qed.
End Spec.
