(* ===== verification/Sequence.v ===== *)
(** * Sequence sets

    [Sequence] and [serialize_sequence] of [src/protocol/mod.rs],
    [parse_number] and [parse_sequence_set] of [src/parser/mod.rs].  A
    serializer that appends to a buffer is modelled by the bytes it appends;
    [u32] additions wrap, as the release profile builds them. *)

From S2P Require Import Prelude Utf8 Utf7 Types.

#[warnings="-register-all"]
Inductive Sequence :=
| Number (value : Z)
| Range (start end_ : option Z)
| SavedSearch
| List (items : list Sequence).

(** [Sequence::contains] *)
Definition range_contains (start end_ : option Z) (value max_value : Z) : bool :=
  match start, end_ with
  | Some start, Some end_ =>
      (start <=? value) && (value <=? end_) || (end_ <=? value) && (value <=? start)
  | Some range, None | None, Some range =>
      (range <=? value) && (value <=? max_value) || (max_value <=? value) && (value <=? range)
  | None, None => value =? max_value
  end.

Fixpoint contains (s : Sequence) (value max_value : Z) : bool :=
  match s with
  | Number number => number =? value
  | Range start end_ => range_contains start end_ value max_value
  | List items => existsb (fun item => contains item value max_value) items
  | SavedSearch => false
  end.

(** [Sequence::is_saved_search] *)
Fixpoint is_saved_search (s : Sequence) : bool :=
  match s with
  | SavedSearch => true
  | List items => existsb is_saved_search items
  | _ => false
  end.

(** The inclusive range [start..=end] as a set. *)
Definition range_set (start end_ : Z) : gset Z :=
  list_to_set (seqZ start (end_ - start + 1)).

Definition expand_range (start end_ : option Z) (max_value : Z) : gset Z :=
  let start := default max_value start in
  let end_ := default max_value end_ in
  match start ?= end_ with
  | Eq => {[ start ]}
  | Lt => range_set start end_
  | Gt => range_set end_ start
  end.

(** [Sequence::expand]: lists inside lists and the saved search add nothing. *)
Definition expand_item (max_value : Z) (item : Sequence) : gset Z :=
  match item with
  | Number value => {[ value ]}
  | Range start end_ => expand_range start end_ max_value
  | _ => ∅
  end.

Definition expand (s : Sequence) (max_value : Z) : gset Z :=
  match s with
  | List items => foldr (fun item acc => expand_item max_value item ∪ acc) ∅ items
  | _ => expand_item max_value s
  end.

(** [serialize_sequence]: [serialize_run id range_id ids] is what follows the
    number [id] when the run read so far ends in [range_id]. *)
Definition range_suffix (id range_id : Z) : bytes :=
  if range_id =? id then [] else b ":" ++ dec range_id.

Fixpoint serialize_run (id range_id : Z) (ids : list Z) : bytes :=
  match ids with
  | next_id :: ids' =>
    if next_id =? wrap32 (range_id + 1) then serialize_run id (wrap32 (range_id + 1)) ids'
    else range_suffix id range_id ++ b "," ++ dec next_id ++ serialize_run next_id next_id ids'
  | [] => range_suffix id range_id
  end.

Definition serialize_sequence (ids : list Z) : bytes :=
  match ids with
  | [] => []
  | id :: ids' => dec id ++ serialize_run id id ids'
  end.

(** [parse_number], at an unsigned width *)
Definition parse_number (width : Z) (value : bytes) : Res (list Piece) Z :=
  match from_utf8 value with
  | None => Err (msg "Expected a number, found an invalid UTF-8 string.")
  | Some s =>
      ok_or (parse_uint width s)
        [PStr (b "Expected a number, found "); PDebugStr s; PStr (b ".")]
  end.

(** [value.get(from..to)] *)
Definition get_range (value : bytes) (from to : nat) : option bytes :=
  if ((from <=? to) && (to <=? length value))%nat
  then Some (take (to - from) (drop from value)) else None.

(** ** The parser's loop *)
Record SeqState := {
  sequence_set : list Sequence;
  range_start : option Z;
  token_start : option nat;
  is_wildcard : bool;
  is_range : bool;
  saved : bool
}.

Definition seq_init : SeqState :=
  {| sequence_set := []; range_start := None; token_start := None; is_wildcard := false;
     is_range := false; saved := false |}.

Definition seq_err {A} (value : bytes) (m : string) : Res (list Piece) A :=
  Err [PStr (b "Invalid sequence set "); PDebugStr (lossy value); PStr (b m)].

(** The number from [from] up to [pos]. *)
Definition seq_number (value : bytes) (from pos : nat) : Res (list Piece) Z :=
  let* v := ok_or (get_range value from pos)
              [PStr (b "Invalid sequence set "); PDebugStr (lossy value); PStr (b ", parse error.")] in
  parse_number 32 v.

Definition seq_token (value : bytes) (st : SeqState) (pos : nat) : Res (list Piece) Z :=
  let* from := ok_or (token_start st)
                 [PStr (b "Invalid sequence set "); PDebugStr (lossy value);
                  PStr (b ", expected number.")] in
  seq_number value from pos.

(** [match ch]: the new state and [add_token], or the early [return Ok]. *)
Inductive SeqFlow :=
| SeqNext (st : SeqState) (add_token : bool)
| SeqDone (s : Sequence).

Definition seq_colon (value : bytes) (st : SeqState) (pos : nat) : Res (list Piece) SeqFlow :=
  if negb (is_range st) then
    match token_start st with
    | Some from_pos =>
      let* n := seq_number value from_pos pos in
      Ok (SeqNext {| sequence_set := sequence_set st; range_start := Some n; token_start := None;
                     is_wildcard := is_wildcard st; is_range := true; saved := saved st |} false)
    | None =>
      if is_wildcard st then
        Ok (SeqNext {| sequence_set := sequence_set st; range_start := range_start st;
                       token_start := None; is_wildcard := false; is_range := true;
                       saved := saved st |} false)
      else seq_err value ", number expected before ':'."
    end
  else seq_err value ", ':' appears multiple times.".

Definition seq_star (value : bytes) (st : SeqState) : Res (list Piece) SeqFlow :=
  if negb (is_wildcard st) then
    if (length value =? 1)%nat then Ok (SeqDone (Range None None))
    else match token_start st with
    | None =>
      Ok (SeqNext {| sequence_set := sequence_set st; range_start := range_start st;
                     token_start := None; is_wildcard := true; is_range := is_range st;
                     saved := saved st |} false)
    | Some _ => seq_err value ", invalid use of '*'."
    end
  else seq_err value ", '*' appears multiple times.".

Definition seq_dollar (value : bytes) (st : SeqState) (pos : nat) : Res (list Piece) SeqFlow :=
  if match value !! S pos with Some ch => ch =? 44 | None => true end then
    Ok (SeqNext {| sequence_set := sequence_set st; range_start := range_start st;
                   token_start := token_start st; is_wildcard := is_wildcard st;
                   is_range := is_range st; saved := true |} false)
  else seq_err value ", unexpected token after '$'.".

Definition seq_digit (value : bytes) (st : SeqState) (pos : nat) : Res (list Piece) SeqFlow :=
  if is_wildcard st then seq_err value ", invalid use of '*'."
  else
    Ok (SeqNext {| sequence_set := sequence_set st; range_start := range_start st;
                   token_start := Some (default pos (token_start st));
                   is_wildcard := is_wildcard st; is_range := is_range st;
                   saved := saved st |} false).

Definition seq_char (value : bytes) (st : SeqState) (pos : nat) (ch : Z)
    : Res (list Piece) SeqFlow :=
  if ch =? 44 then Ok (SeqNext st true)
  else if ch =? 58 then seq_colon value st pos
  else if ch =? 42 then seq_star value st
  else if ch =? 36 then seq_dollar value st pos
  else if is_ascii_digit ch then seq_digit value st pos
  else Err [PStr (b "Invalid sequence set "); PDebugStr (lossy value);
            PStr (b ", found invalid character '"); PStr (dec ch);
            PStr (b "' at position "); PStr (dec (Z.of_nat pos)); PStr (b ".")].

(** The end of an item, at [','] or at the last byte. *)
Definition seq_emit (value : bytes) (st : SeqState) (pos : nat) (add_token : bool)
    : Res (list Piece) SeqState :=
  let pos := if add_token then pos else S pos in
  if is_range st then
    if negb (is_wildcard st) then
      let* n := seq_token value st pos in
      Ok {| sequence_set := sequence_set st ++ [Range (range_start st) (Some n)];
            range_start := None; token_start := None; is_wildcard := false;
            is_range := false; saved := saved st |}
    else
      Ok {| sequence_set := sequence_set st ++ [Range (range_start st) None];
            range_start := None; token_start := None; is_wildcard := false;
            is_range := false; saved := saved st |}
  else if is_wildcard st then
    Ok {| sequence_set := sequence_set st ++ [Range None None];
          range_start := range_start st; token_start := None; is_wildcard := false;
          is_range := false; saved := saved st |}
  else if saved st then
    Ok {| sequence_set := sequence_set st ++ [SavedSearch];
          range_start := range_start st; token_start := None; is_wildcard := false;
          is_range := false; saved := false |}
  else
    let* n := seq_token value st pos in
    Ok {| sequence_set := sequence_set st ++ [Number n];
          range_start := range_start st; token_start := None; is_wildcard := false;
          is_range := false; saved := false |}.

(** [match sequence_set.len()] *)
Definition seq_finish (items : list Sequence) : Res (list Piece) Sequence :=
  match items with
  | [] => Err (msg "Invalid empty sequence set.")
  | [s] => Ok s
  | _ => Ok (List items)
  end.

Fixpoint seq_loop (value : bytes) (st : SeqState) (pos : nat) (rest : bytes)
    : Res (list Piece) Sequence :=
  match rest with
  | [] => seq_finish (sequence_set st)
  | ch :: rest' =>
    let* flow := seq_char value st pos ch in
    match flow with
    | SeqDone s => Ok s
    | SeqNext st add_token =>
      if add_token || (pos =? length value - 1)%nat then
        let* st := seq_emit value st pos add_token in
        seq_loop value st (S pos) rest'
      else seq_loop value st (S pos) rest'
    end
  end.

(** [parse_sequence_set] *)
Definition parse_sequence_set (value : bytes) : Res (list Piece) Sequence :=
  seq_loop value seq_init 0 value.

(** ** Specification notions *)

(** A sequence set as a client writes it. *)
Definition bound_text (o : option Z) : bytes := match o with Some n => dec n | None => b "*" end.
Definition item_text (s : Sequence) : bytes :=
  match s with
  | Number n => dec n
  | Range start end_ => bound_text start ++ b ":" ++ bound_text end_
  | SavedSearch => b "$"
  | List _ => []
  end.
Fixpoint items_text (items : list Sequence) : bytes :=
  match items with
  | [] => []
  | [s] => item_text s
  | s :: items' => item_text s ++ b "," ++ items_text items'
  end.

Definition bound_ok (o : option Z) : Prop := match o with Some n => is_u32 n | None => True end.
Definition item_ok (s : Sequence) : Prop :=
  match s with
  | Number n => is_u32 n
  | Range start end_ => bound_ok start /\ bound_ok end_
  | SavedSearch => True
  | List _ => False
  end.

(** What the parser produces: an item or a list of at least two. *)
Definition flat (s : Sequence) : Prop :=
  match s with List items => (1 < length items)%nat /\ Forall item_ok items | _ => item_ok s end.

(** ** Lemmas *)

Lemma get_range_app pre x post n m :
  n = length pre -> m = (length pre + length x)%nat ->
  get_range (pre ++ x ++ post) n m = Some x.
Proof.
  intros -> ->. unfold get_range. rewrite !length_app.
  replace (_ && _)%nat with true by lia. f_equal.
  rewrite drop_app_length. replace (_ - _)%nat with (length x) by lia.
  apply take_app_length.
Qed.

Lemma parse_number_dec_width w n : 0 <= n < 2 ^ w -> parse_number w (dec n) = Ok n.
Proof.
  intros Hn. unfold parse_number. rewrite from_utf8_ascii.
  - by rewrite parse_uint_dec.
  - eapply Forall_impl; [|apply dec_all_digits; lia].
    unfold is_ascii_digit. simpl. lia.
Qed.

Lemma parse_number_dec n : is_u32 n -> parse_number 32 (dec n) = Ok n.
Proof. apply parse_number_dec_width. Qed.

Lemma seq_number_dec pre n post from pos :
  is_u32 n -> from = length pre -> pos = (length pre + length (dec n))%nat ->
  seq_number (pre ++ dec n ++ post) from pos = Ok n.
Proof.
  intros Hn Hf Hp. unfold seq_number. rewrite (get_range_app pre (dec n)) by done.
  by apply parse_number_dec.
Qed.

Definition with_token (st : SeqState) (from : nat) : SeqState :=
  {| sequence_set := sequence_set st; range_start := range_start st; token_start := Some from;
     is_wildcard := is_wildcard st; is_range := is_range st; saved := saved st |}.

(** The end of an item at position [pos], then the rest of the input. *)
Definition seq_item_end (value : bytes) (st : SeqState) (pos : nat) (post : bytes)
    : Res (list Piece) Sequence :=
  let* st := seq_emit value st pos true in
  match post with
  | [] => seq_finish (sequence_set st)
  | _ :: post' => seq_loop value st (S pos) post'
  end.

Lemma seq_char_digit value st pos ch :
  is_ascii_digit ch = true -> is_wildcard st = false ->
  seq_char value st pos ch = Ok (SeqNext (with_token st (default pos (token_start st))) false).
Proof.
  intros Hd Hw. unfold seq_char, seq_digit, with_token. unfold is_ascii_digit in Hd |- *.
  rewrite Hw. by if_lia.
Qed.

(** A byte that neither ends the item nor the input. *)
Lemma seq_loop_step value st st' pos ch rest :
  seq_char value st pos ch = Ok (SeqNext st' false) -> pos <> (length value - 1)%nat ->
  seq_loop value st pos (ch :: rest) = seq_loop value st' (S pos) rest.
Proof.
  intros E Hp. cbn [seq_loop]. rewrite E. simpl.
  by replace (pos =? length value - 1)%nat with false by lia.
Qed.

Lemma seq_loop_digits value st pos ds post :
  Forall (fun c => is_ascii_digit c = true) ds -> ds <> [] -> post <> [] ->
  is_wildcard st = false -> (pos + length ds < length value)%nat ->
  seq_loop value st pos (ds ++ post) =
    seq_loop value (with_token st (default pos (token_start st))) (pos + length ds) post.
Proof.
  intros Hds Hne Hpost Hw Hlen. revert st pos Hw Hne Hlen.
  induction Hds as [|d ds Hd Hds IH]; intros st pos Hw Hne Hlen; [done|].
  simpl in *. rewrite seq_char_digit by done. simpl.
  replace (pos =? length value - 1)%nat with false by lia.
  destruct (decide (ds = [])) as [->|Hds0].
  - simpl. f_equal. lia.
  - rewrite IH; [|done|done|lia]. simpl. f_equal. lia.
Qed.

Definition item_end_ok (post : bytes) : Prop := post = [] \/ exists p, post = 44 :: p.

(** A comma ends the item; so does the end of the input. *)
Lemma seq_loop_comma value st pos p :
  seq_loop value st pos (44 :: p) = seq_item_end value st pos (44 :: p).
Proof. done. Qed.

Lemma seq_loop_number_end value st pos ds post :
  Forall (fun c => is_ascii_digit c = true) ds -> ds <> [] -> item_end_ok post ->
  is_wildcard st = false -> length value = (pos + length ds + length post)%nat ->
  seq_loop value st pos (ds ++ post) =
    seq_item_end value (with_token st (default pos (token_start st))) (pos + length ds) post.
Proof.
  intros Hds Hne [->|[p ->]] Hw Hlen.
  - destruct (exists_last Hne) as (ds0 & d & ->). rewrite length_app in Hlen |- *.
    apply Forall_app in Hds as [Hds0 Hd]. inv Hd as [|? ? Hd1 _]. simpl in Hlen.
    rewrite app_nil_r. simpl length. destruct (decide (ds0 = [])) as [->|Hd0]; simpl in *.
    + rewrite seq_char_digit by done. simpl. replace (pos =? length value - 1)%nat with true by lia.
      unfold seq_item_end. by replace (pos + 1)%nat with (S pos) by lia.
    + rewrite seq_loop_digits by (done || lia). simpl.
      rewrite seq_char_digit by done. simpl.
      replace (_ =? _)%nat with true by lia.
      unfold seq_item_end. by replace (pos + (length ds0 + 1))%nat with (S (pos + length ds0)) by lia.
  - rewrite seq_loop_digits by (done || simpl in *; lia). done.
Qed.

Lemma dec_nonempty n : dec n <> [].
Proof. destruct (dec_cons n) as (c & s & ->). done. Qed.

#[local] Hint Resolve dec_all_digits dec_nonempty : imap.

Lemma seq_loop_star_end value st pos post :
  item_end_ok post -> is_wildcard st = false -> token_start st = None ->
  length value = (S pos + length post)%nat -> length value <> 1%nat ->
  seq_loop value st pos (42 :: post) =
    seq_item_end value {| sequence_set := sequence_set st; range_start := range_start st;
                     token_start := None; is_wildcard := true; is_range := is_range st;
                     saved := saved st |} (S pos) post.
Proof.
  intros Hpost Hw Ht Hlen Hl. simpl. unfold seq_char, seq_star. simpl.
  rewrite Hw, Ht. replace (length value =? 1)%nat with false by lia. simpl.
  destruct Hpost as [->|[p ->]]; simpl in *.
  - by replace (pos =? length value - 1)%nat with true by lia.
  - by replace (pos =? length value - 1)%nat with false by lia.
Qed.

(** The state between two items. *)
Definition between (items : list Sequence) : SeqState :=
  {| sequence_set := items; range_start := None; token_start := None; is_wildcard := false;
     is_range := false; saved := false |}.

Lemma seq_loop_colon_number pre n post items :
  is_u32 n -> post <> [] ->
  let value := pre ++ dec n ++ b ":" ++ post in
  seq_loop value (between items) (length pre) (dec n ++ b ":" ++ post) =
    seq_loop value {| sequence_set := items; range_start := Some n; token_start := None;
                is_wildcard := false; is_range := true; saved := false |}
      (length pre + length (dec n) + 1) post.
Proof.
  intros Hn Hpost value. assert (0 <= n) by (destruct Hn; lia).
  assert (Hlen : length value = (length pre + length (dec n) + 1 + length post)%nat)
    by (unfold value; rewrite !length_app; simpl; lia).
  assert (length post <> O) by (by destruct post).
  rewrite seq_loop_digits by (auto with imap || done || lia).
  simpl. unfold seq_char, seq_colon. simpl.
  unfold value at 1. rewrite seq_number_dec by done. simpl.
  replace (_ =? length value - 1)%nat with false by lia.
  f_equal. lia.
Qed.

Lemma seq_loop_colon_star pre post items :
  post <> [] ->
  let value := pre ++ b "*:" ++ post in
  seq_loop value (between items) (length pre) (b "*:" ++ post) =
    seq_loop value {| sequence_set := items; range_start := None; token_start := None;
                is_wildcard := false; is_range := true; saved := false |}
      (length pre + 2) post.
Proof.
  intros Hpost value.
  assert (Hlen : length value = (length pre + 2 + length post)%nat)
    by (unfold value; rewrite !length_app; simpl; lia).
  assert (length post <> O) by (by destruct post).
  change (b "*:" ++ post) with (42 :: 58 :: post).
  erewrite seq_loop_step; [|unfold seq_char, seq_star; simpl|lia].
  2: { by replace (length value =? 1)%nat with false by lia. }
  erewrite seq_loop_step; [|done|lia]. f_equal. lia.
Qed.

(** The end of a range. *)
Lemma seq_loop_range_end pre o post items start :
  bound_ok o -> item_end_ok post ->
  let value := pre ++ bound_text o ++ post in
  (1 < length value)%nat ->
  seq_loop value {| sequence_set := items; range_start := start; token_start := None;
              is_wildcard := false; is_range := true; saved := false |}
    (length pre) (bound_text o ++ post) =
  match post with
  | [] => seq_finish (items ++ [Range start o])
  | _ :: post' =>
      seq_loop value (between (items ++ [Range start o])) (length pre + length (bound_text o) + 1) post'
  end.
Proof.
  intros Ho Hpost value Hlen.
  assert (Hl : length value = (length pre + length (bound_text o) + length post)%nat)
    by (unfold value; rewrite !length_app; lia).
  destruct o as [n|]; unfold bound_text in *.
  - assert (0 <= n) by (destruct Ho; lia).
    rewrite seq_loop_number_end by (auto with imap || done).
    unfold seq_item_end, seq_emit, seq_token. simpl. unfold value at 1.
    rewrite seq_number_dec by done. simpl. destruct post; [done|]. f_equal. lia.
  - simpl app. rewrite seq_loop_star_end by (done || simpl in *; lia).
    unfold seq_item_end, seq_emit. simpl. destruct post; [done|]. f_equal. lia.
Qed.

Lemma seq_loop_item pre s post items :
  item_ok s -> item_end_ok post ->
  let value := pre ++ item_text s ++ post in
  seq_loop value (between items) (length pre) (item_text s ++ post) =
  match post with
  | [] => seq_finish (items ++ [s])
  | _ :: post' => seq_loop value (between (items ++ [s])) (length pre + length (item_text s) + 1) post'
  end.
Proof.
  intros Hs Hpost value. destruct s as [n|start end_| |]; simpl in Hs; [| | |done].
  - assert (0 <= n) by (destruct Hs; lia). unfold item_text in *.
    rewrite seq_loop_number_end; [|by auto with imap..|unfold value; rewrite !length_app; lia].
    unfold seq_item_end, seq_emit, seq_token. simpl. unfold value at 1.
    rewrite seq_number_dec by done. simpl. destruct post; [done|]. f_equal. lia.
  - destruct Hs as [Hs He].
    assert (Hne : bound_text end_ ++ post <> []).
    { destruct end_; simpl; [|done]. by destruct (dec_cons z) as (c & t & ->). }
    assert (E : seq_loop value (between items) (length pre) (item_text (Range start end_) ++ post) =
      seq_loop value {| sequence_set := items; range_start := start; token_start := None;
              is_wildcard := false; is_range := true; saved := false |}
        (length pre + length (bound_text start) + 1) (bound_text end_ ++ post)).
    { unfold value. destruct start as [n|]; simpl; rewrite <- ?app_assoc.
      - by apply seq_loop_colon_number.
      - replace (length pre + 1 + 1)%nat with (length pre + 2)%nat by lia.
        by apply (seq_loop_colon_star pre). }
    rewrite E.
    replace value with ((pre ++ bound_text start ++ b ":") ++ bound_text end_ ++ post)
      by (unfold value; simpl; by rewrite <- !app_assoc).
    replace (length pre + length (bound_text start) + 1)%nat
      with (length (pre ++ bound_text start ++ b ":")) by (rewrite !length_app; simpl; lia).
    rewrite seq_loop_range_end; [|done|done|].
    + destruct post; [done|]. f_equal. simpl. rewrite !length_app; simpl. lia.
    + rewrite !length_app; simpl. destruct start; simpl; [|lia].
      destruct (dec_cons z) as (c & t & ->). simpl. lia.
  - simpl in *. unfold seq_char, seq_dollar. simpl.
    assert (Hnext : value !! S (length pre) = head post).
    { unfold value. rewrite lookup_app_r by lia. replace (S _ - _)%nat with 1%nat by lia.
      by destruct post. }
    rewrite Hnext. destruct Hpost as [->|[p ->]]; simpl.
    + replace (length pre =? length value - 1)%nat with true; [done|].
      unfold value. rewrite length_app; simpl. lia.
    + replace (length pre =? length value - 1)%nat with false.
      2: { unfold value. rewrite length_app; simpl. lia. }
      simpl. by replace (length pre + 1 + 1)%nat with (S (S (length pre))) by lia.
Qed.

Lemma items_text_cons s items :
  items_text (s :: items) = item_text s ++ match items with [] => [] | _ => 44 :: items_text items end.
Proof. destruct items; [by rewrite app_nil_r | done]. Qed.

Lemma seq_loop_items pre items done_ :
  Forall item_ok items -> items <> [] ->
  seq_loop (pre ++ items_text items) (between done_) (length pre) (items_text items) =
    seq_finish (done_ ++ items).
Proof.
  intros Hok. revert pre done_. induction Hok as [|s items Hs Hitems IH]; intros pre done_ Hne; [done|].
  rewrite items_text_cons. rewrite seq_loop_item; [|done|].
  - destruct items as [|s2 items]; [done|]. specialize (IH (pre ++ item_text s ++ [44]) (done_ ++ [s])).
    rewrite <- !app_assoc in IH. simpl app in IH. rewrite !length_app in IH. simpl length in IH.
    replace (length pre + length (item_text s) + 1)%nat
      with (length pre + (length (item_text s) + 1))%nat by lia.
    by apply IH.
  - destruct items; [by left | right; by eexists].
Qed.

Lemma parse_items items :
  Forall item_ok items -> items <> [] ->
  parse_sequence_set (items_text items) = Ok (match items with [s] => s | _ => List items end).
Proof.
  intros Hok Hne. transitivity (seq_finish ([] ++ items)).
  - exact (seq_loop_items [] items [] Hok Hne).
  - by destruct items as [|? [|]].
Qed.

Lemma parse_number_u32 v n : parse_number 32 v = Ok n -> is_u32 n.
Proof.
  unfold parse_number, ok_or. repeat case_match; intros; simplify_eq.
  by eapply parse_uint_bound.
Qed.

Lemma seq_number_u32 v from pos n : seq_number v from pos = Ok n -> is_u32 n.
Proof. intros (x & _ & H)%res_bind_ok. by eapply parse_number_u32. Qed.

Lemma seq_token_u32 v st pos n : seq_token v st pos = Ok n -> is_u32 n.
Proof. intros (x & _ & H)%res_bind_ok. by eapply seq_number_u32. Qed.

Definition seq_state_ok (st : SeqState) : Prop :=
  Forall item_ok (sequence_set st) /\ bound_ok (range_start st).

Lemma seq_char_ok value st pos ch flow :
  seq_state_ok st -> seq_char value st pos ch = Ok flow ->
  match flow with SeqNext st' _ => seq_state_ok st' | SeqDone s => flat s end.
Proof.
  intros [Hs Hb]. unfold seq_char, seq_colon, seq_star, seq_dollar, seq_digit, seq_err.
  repeat case_match; intros Hx; simplify_eq; try done;
    apply res_bind_ok in Hx as (num & Hnum & ?); simplify_eq;
    (split; [done|]; by eapply seq_number_u32).
Qed.

Lemma seq_emit_ok value st pos add st' :
  seq_state_ok st -> seq_emit value st pos add = Ok st' -> seq_state_ok st'.
Proof.
  intros [Hs Hb]. unfold seq_emit.
  repeat case_match; intros Hx; simplify_eq;
    try (apply res_bind_ok in Hx as (num & Hnum%seq_token_u32 & ?); simplify_eq);
    (split; [|done]); (apply Forall_app; split; [done|]); apply Forall_singleton; simpl; done.
Qed.

Lemma seq_loop_flat value st pos rest s :
  seq_state_ok st -> seq_loop value st pos rest = Ok s -> flat s.
Proof.
  revert st pos; induction rest as [|ch rest IH]; intros st pos Hst; simpl.
  - destruct Hst as [Hs _]. unfold seq_finish.
    destruct (sequence_set st) as [|s1 [|s2 l]] eqn:E; intros; simplify_eq.
    + inv Hs. by destruct s.
    + split; [simpl; lia | done].
  - intros (flow & Hf & H)%res_bind_ok. pose proof (seq_char_ok _ _ _ _ _ Hst Hf) as Hok.
    destruct flow as [st' add|s']; [|by simplify_eq].
    destruct (_ || _); [|by eapply IH].
    apply res_bind_ok in H as (st2 & He & H). eapply IH; [|done]. by eapply seq_emit_ok.
Qed.

Lemma range_contains_between a c v max :
  a <= c -> range_contains (Some a) (Some c) v max = true <-> a <= v <= c.
Proof. intros. simpl. lia. Qed.

Lemma wrap32_small x : is_u32 x -> wrap32 x = x.
Proof. intros. rewrite wrap32_mod. by apply Z.mod_small. Qed.

(** The text of a run and what follows is the text of a list of items that
    contains exactly the numbers of the run and those that follow. *)
Lemma serialize_run_items ids id range_id :
  Forall (fun v => 0 <= v < u32_max) ids -> 0 <= id <= range_id -> range_id < u32_max ->
  exists items,
    dec id ++ serialize_run id range_id ids = items_text items /\
    Forall item_ok items /\ items <> [] /\
    forall v max, existsb (fun i => contains i v max) items = true <->
                  id <= v <= range_id \/ v ∈ ids.
Proof.
  unfold u32_max. revert id range_id; induction ids as [|next ids IH]; intros id range_id Hids Hid Hr; simpl.
  - unfold range_suffix. destruct (Z.eqb_spec range_id id) as [->|Hne].
    + exists [Number id]. split; [apply app_nil_r|]. split_and!; [|done|].
      * repeat constructor; unfold is_u32; lia.
      * intros v max. simpl. rewrite elem_of_nil. lia.
    + exists [Range (Some id) (Some range_id)]. split_and!; [done| |done|].
      * repeat constructor; unfold is_u32; lia.
      * intros v max. simpl. rewrite elem_of_nil. lia.
  - inv Hids as [|? ? Hn Hids']. rewrite wrap32_small by (unfold is_u32; lia).
    destruct (Z.eqb_spec next (range_id + 1)) as [->|Hne].
    + destruct (IH id (range_id + 1)) as (items & E & Hok & Hnn & Hc); [done|lia|lia|].
      exists items. split_and!; [done..|]. intros v max. rewrite Hc, elem_of_cons. intuition lia.
    + destruct (IH next next) as (items & E & Hok & Hnn & Hc); [done|lia|lia|].
      simpl in E. rewrite E.
      exists ((if decide (range_id = id) then Number id else Range (Some id) (Some range_id)) :: items).
      rewrite items_text_cons. destruct items as [|i items]; [done|]. split_and!; [| |done|].
      * unfold range_suffix. destruct (Z.eqb_spec range_id id); destruct (decide (range_id = id));
          try lia; simpl; by rewrite <- ?app_assoc.
      * constructor; [|done]. case_decide; simpl; unfold is_u32; lia.
      * intros v max. cbn [existsb]. rewrite orb_true_iff. cbn [existsb] in Hc. rewrite Hc, elem_of_cons.
        case_decide; simpl; intuition lia.
Qed.

Lemma elem_of_range_set a c v : v ∈ range_set a c <-> a <= v <= c.
Proof. unfold range_set. rewrite elem_of_list_to_set, elem_of_seqZ. lia. Qed.

Lemma elem_of_expand_item s v max :
  item_ok s -> v ∈ expand_item max s <-> contains s v max = true.
Proof.
  destruct s as [n|start end_| |]; simpl; [| | |done].
  - rewrite elem_of_singleton. lia.
  - intros _. unfold expand_range.
    destruct (Z.compare_spec (default max start) (default max end_)) as [E|E|E];
      rewrite ?elem_of_singleton, ?elem_of_range_set; destruct start, end_; simpl in *; lia.
  - intros _. rewrite elem_of_empty. done.
Qed.

(** What [serialize_sequence] writes is read back. *)
Lemma sequence_reads_back ids :
  ids <> [] -> Forall (fun v => 0 <= v < u32_max) ids ->
  exists s, parse_sequence_set (serialize_sequence ids) = Ok s /\
            forall v max, contains s v max = true <-> v ∈ ids.
Proof.
  destruct ids as [|id ids]; intros Hne Hids; [done|]. inv Hids as [|? ? Hid Hids'].
  destruct (serialize_run_items ids id id Hids') as (items & E & Hok & Hnn & Hc); [lia|lia|].
  exists (match items with [s] => s | _ => List items end). split.
  - cbn [serialize_sequence]. rewrite E. by apply parse_items.
  - intros v max. rewrite elem_of_cons.
    assert (Heq : contains (match items with [s] => s | _ => List items end) v max =
                  existsb (fun i => contains i v max) items).
    { destruct items as [|s [|]]; [done| |done]. simpl. by rewrite orb_false_r. }
    rewrite Heq, Hc. intuition lia.
Qed.

(** ** Properties *)

(** C36: Parsing is a left inverse of writing: a nonempty comma-separated list of
    numbers, ranges (with [*] for an open bound) and [$], every number within [u32],
    parses to exactly these items in order. *)
Theorem parse_sequence_set_text items :
  Forall item_ok items -> items <> [] ->
  parse_sequence_set (items_text items) =
    Ok (match items with [s] => s | _ => List items end).
Proof. apply parse_items. Qed.

Lemma parse_sequence_set_text_witness :
  parse_sequence_set (b "2,4:7,*:9,$") =
    Ok (List [Number 2; Range (Some 4) (Some 7); Range None (Some 9); SavedSearch]).
Proof.
  apply (parse_sequence_set_text [Number 2; Range (Some 4) (Some 7); Range None (Some 9); SavedSearch]).
  - repeat constructor; unfold is_u32; simpl; lia.
  - discriminate.
Defined.

(** A sequence set that the parser accepts is an item or a list of two or more
    items, never a list inside a list, and all its numbers are [u32] values. *)
Theorem parse_sequence_set_flat value s : parse_sequence_set value = Ok s -> flat s.
Proof. apply seq_loop_flat. by split; [constructor|]. Qed.

Lemma parse_sequence_set_flat_witness : flat (List [Number 1; Range (Some 3) None]).
Proof. apply (parse_sequence_set_flat (b "1,3:*")). reflexivity. Defined.

(** The UID lists the server sends ([APPENDUID], [COPYUID], [MODIFIED],
    [VANISHED], [ESEARCH]) are read back exactly: parsing what [serialize_sequence]
    writes for a nonempty list of ids gives a set that contains an id if and only if
    it is in the list, in whatever order the list is. *)
Theorem serialize_sequence_parse ids :
  ids <> [] -> Forall (fun v => 0 <= v < u32_max) ids ->
  exists s, parse_sequence_set (serialize_sequence ids) = Ok s /\
            forall v max, contains s v max = true <-> v ∈ ids.
Proof. apply sequence_reads_back. Qed.

Lemma serialize_sequence_parse_witness :
  exists s, parse_sequence_set (serialize_sequence [4; 5; 6; 2]) = Ok s /\
            forall v max, contains s v max = true <-> v ∈ [4; 5; 6; 2].
Proof.
  apply serialize_sequence_parse; [discriminate|].
  repeat constructor; vm_compute; done.
Defined.

(** The set [Sequence::expand] builds and the predicate [Sequence::contains]
    agree on every parsed sequence set, for every largest number in the mailbox. *)
Theorem expand_contains s v max :
  flat s -> v ∈ expand s max <-> contains s v max = true.
Proof.
  intros Hs. destruct s as [n|start end_| |items]; simpl; try exact (elem_of_expand_item _ v max Hs).
  destruct Hs as [_ Hs]. induction Hs as [|s items Hs Hitems IH]; simpl.
  - rewrite elem_of_empty. done.
  - by rewrite elem_of_union, elem_of_expand_item, orb_true_iff, IH.
Qed.

Lemma expand_contains_witness :
  6 ∈ expand (List [Number 2; Range None (Some 4)]) 8 <->
  contains (List [Number 2; Range None (Some 4)]) 6 8 = true.
Proof.
  apply expand_contains. split; [simpl; lia | repeat constructor; unfold is_u32; simpl; lia].
Defined.
