(* ===== verification/Flags.v ===== *)
(** * Flags, keywords and small argument parsers

    [impl Flag] of [src/parser/mod.rs] and [src/protocol/mod.rs] (the IMAP and
    JMAP spellings of a flag and their parsers), [push_unique], and the date
    arguments, whose calendar arithmetic belongs to the [chrono] crate. *)

From S2P Require Import Prelude Utf8 Utf7 Types.

(** [Flag::serialize] *)
Definition flag_serialize (f : Flag) : bytes :=
  match f with
  | Seen => b "\Seen"
  | Draft => b "\Draft"
  | Flagged => b "\Flagged"
  | Answered => b "\Answered"
  | Recent => b "\Recent"
  | Important => b "\Important"
  | Phishing => b "$Phishing"
  | Junk => b "$Junk"
  | NotJunk => b "$NotJunk"
  | Deleted => b "\Deleted"
  | Forwarded => b "$Forwarded"
  | MDNSent => b "$MDNSent"
  | Keyword keyword => keyword
  end.

(** [Flag::to_jmap] *)
Definition to_jmap (f : Flag) : str :=
  match f with
  | Seen => b "$seen"
  | Draft => b "$draft"
  | Flagged => b "$flagged"
  | Answered => b "$answered"
  | Recent => b "$recent"
  | Important => b "$important"
  | Phishing => b "$phishing"
  | Junk => b "$junk"
  | NotJunk => b "$notjunk"
  | Deleted => b "$deleted"
  | Forwarded => b "$forwarded"
  | MDNSent => b "$mdnsent"
  | Keyword keyword => keyword
  end.

(** [Flag::parse_imap] *)
Definition keyword_of (value : bytes) : Res (list Piece) Flag :=
  let* s := ok_or (from_utf8 value) (msg "Invalid UTF-8.") in Ok (Keyword s).

Definition parse_imap (value : bytes) : Res (list Piece) Flag :=
  match value with
  | [] => Err (msg "Null flags are not allowed.")
  | c :: _ =>
    if c =? BACKSLASH then
      if eq_ignore_ascii_case value (b "\Seen") then Ok Seen
      else if eq_ignore_ascii_case value (b "\Answered") then Ok Answered
      else if eq_ignore_ascii_case value (b "\Flagged") then Ok Flagged
      else if eq_ignore_ascii_case value (b "\Deleted") then Ok Deleted
      else if eq_ignore_ascii_case value (b "\Draft") then Ok Draft
      else if eq_ignore_ascii_case value (b "\Recent") then Ok Recent
      else if eq_ignore_ascii_case value (b "\Important") then Ok Important
      else keyword_of value
    else if c =? 36 then
      if eq_ignore_ascii_case value (b "$Forwarded") then Ok Forwarded
      else if eq_ignore_ascii_case value (b "$MDNSent") then Ok MDNSent
      else if eq_ignore_ascii_case value (b "$Junk") then Ok Junk
      else if eq_ignore_ascii_case value (b "$NotJunk") then Ok NotJunk
      else if eq_ignore_ascii_case value (b "$Phishing") then Ok Phishing
      else if eq_ignore_ascii_case value (b "$Important") then Ok Important
      else keyword_of value
    else keyword_of value
  end.

(** [Flag::parse_jmap]; a JMAP keyword is a [String], so its characters exist. *)
Definition sanitize_char (c : Z) : Z := if is_ascii_alphanumeric c then c else 95.

Definition parse_jmap (value : str) : Flag :=
  if starts_with (b "$") value then
    let v := map to_ascii_lowercase value in
    if bytes_eqb v (b "$seen") then Seen
    else if bytes_eqb v (b "$draft") then Draft
    else if bytes_eqb v (b "$flagged") then Flagged
    else if bytes_eqb v (b "$answered") then Answered
    else if bytes_eqb v (b "$recent") then Recent
    else if bytes_eqb v (b "$important") then Important
    else if bytes_eqb v (b "$phishing") then Phishing
    else if bytes_eqb v (b "$junk") then Junk
    else if bytes_eqb v (b "$notjunk") then NotJunk
    else if bytes_eqb v (b "$deleted") then Deleted
    else if bytes_eqb v (b "$forwarded") then Forwarded
    else if bytes_eqb v (b "$mdnsent") then MDNSent
    else Keyword value
  else Keyword (map sanitize_char (default [] (chars value))).

(** [PushUnique::push_unique] *)
Definition push_unique {A} `{EqDecision A} (l : list A) (value : A) : list A :=
  if bool_decide (value ∈ l) then l else l ++ [value].

(** ** Dates

    What the server uses of [chrono]: parsing of the two formats (to a Unix
    timestamp) and the two renderings of a timestamp. *)
Class Chrono := {
  parse_datetime_str : str -> option Z;
  parse_date_str : str -> option Z;
  format_datetime : Z -> str;
  format_rfc2822 : Z -> str
}.

(** [char::is_whitespace] *)
Definition is_whitespace (c : Z) : bool :=
  ((9 <=? c) && (c <=? 13)) || (c =? 32) || (c =? 133) || (c =? 160) || (c =? 5760)
  || ((8192 <=? c) && (c <=? 8202)) || (c =? 8232) || (c =? 8233) || (c =? 8239)
  || (c =? 8287) || (c =? 12288).

Fixpoint trim_start (cs : list Z) : list Z :=
  match cs with
  | c :: cs' => if is_whitespace c then trim_start cs' else cs
  | [] => []
  end.

(** [str::trim] *)
Definition trim (s : str) : str :=
  encode (reverse (trim_start (reverse (trim_start (default [] (chars s)))))).

(** [parse_datetime] and [parse_date] *)
Definition parse_datetime `{Chrono} (value : bytes) : Res (list Piece) Z :=
  match from_utf8 value with
  | None => Err (msg "Expected date/time, found an invalid UTF-8 string.")
  | Some s =>
    ok_or (parse_datetime_str (trim s))
      [PStr (b "Failed to parse date/time '"); PStr (trim s); PStr (b "'.")]
  end.

Definition parse_date `{Chrono} (value : bytes) : Res (list Piece) Z :=
  match from_utf8 value with
  | None => Err (msg "Expected date, found an invalid UTF-8 string.")
  | Some s =>
    ok_or (parse_date_str (trim s))
      [PStr (b "Failed to parse date '"); PStr (trim s); PStr (b "'.")]
  end.

(** ** Specification notions *)

(** The spellings that name a flag of their own. *)
Definition imap_names : list bytes :=
  [b "\Seen"; b "\Answered"; b "\Flagged"; b "\Deleted"; b "\Draft"; b "\Recent"; b "\Important";
   b "$Forwarded"; b "$MDNSent"; b "$Junk"; b "$NotJunk"; b "$Phishing"; b "$Important"].
Definition jmap_names : list bytes :=
  [b "$seen"; b "$draft"; b "$flagged"; b "$answered"; b "$recent"; b "$important"; b "$phishing";
   b "$junk"; b "$notjunk"; b "$deleted"; b "$forwarded"; b "$mdnsent"].

(** A keyword as IMAP spells it: not empty, UTF-8, not another flag's name. *)
Definition imap_canonical (f : Flag) : Prop :=
  match f with
  | Keyword k => k <> [] /\ valid_utf8 k /\ Forall (fun n => eq_ignore_ascii_case k n = false) imap_names
  | _ => True
  end.

(** A keyword that survives the JMAP side: [$]-keywords that name no flag, and
    letters, digits and underscores. *)
Definition jmap_canonical (f : Flag) : Prop :=
  match f with
  | Keyword k =>
      (starts_with (b "$") k = true /\ Forall (fun n => bytes_eqb (map to_ascii_lowercase k) n = false) jmap_names) \/
      (k <> [] /\ Forall (fun c => is_ascii_alphanumeric c = true \/ c = 95) k)
  | _ => True
  end.

(** ** Lemmas *)

Lemma keyword_of_ok value : valid_utf8 value -> keyword_of value = Ok (Keyword value).
Proof. intros [cs Hcs]. unfold keyword_of, from_utf8. by rewrite Hcs. Qed.

Lemma sanitize_fixed k :
  Forall (fun c => is_ascii_alphanumeric c = true \/ c = 95) k -> map sanitize_char k = k.
Proof.
  induction 1 as [|c k Hc _ IH]; simpl; [done|]. rewrite IH. f_equal.
  unfold sanitize_char. destruct Hc as [-> | ->]; done.
Qed.

Lemma push_unique_elem {A} `{EqDecision A} (l : list A) (v x : A) :
  x ∈ push_unique l v <-> x ∈ l \/ x = v.
Proof.
  unfold push_unique. case_bool_decide as Hv; [intuition congruence|].
  by rewrite elem_of_app, list_elem_of_singleton.
Qed.

Lemma push_unique_nodup {A} `{EqDecision A} (l : list A) (v : A) :
  NoDup l -> NoDup (push_unique l v).
Proof.
  intros Hl. unfold push_unique. case_bool_decide as Hv; [done|].
  apply list.NoDup_app. split; [done|]. split; [|apply NoDup_singleton].
  intros x Hx ->%list_elem_of_singleton. done.
Qed.

#[export] Hint Resolve returns_ok_or : imap.

Lemma parse_imap_returns value : returns (parse_imap value).
Proof. unfold parse_imap, keyword_of. repeat case_match; try done; apply returns_bind; auto with imap; done. Qed.

Lemma parse_datetime_returns `{Chrono} value : returns (parse_datetime value).
Proof. unfold parse_datetime. case_match; auto with imap; done. Qed.

Lemma parse_date_returns `{Chrono} value : returns (parse_date value).
Proof. unfold parse_date. case_match; auto with imap; done. Qed.

#[export] Hint Resolve parse_imap_returns parse_datetime_returns parse_date_returns : imap.

Lemma parse_imap_roundtrip f : imap_canonical f -> parse_imap (flag_serialize f) = Ok f.
Proof.
  destruct f as [| | | | | | | | | | | |k]; try (intros _; reflexivity).
  intros (Hne & Hv & Hn). unfold parse_imap. simpl flag_serialize.
  destruct k as [|c k]; [done|]. unfold imap_names in Hn.
  repeat match goal with H : Forall _ (_ :: _) |- _ => apply list.Forall_cons in H as [-> H] end.
  rewrite keyword_of_ok by done. by repeat case_match.
Qed.

(** ** Properties *)

(** Every flag is read back from the spelling the server gives it in FETCH and
    PERMANENTFLAGS responses. *)
Theorem parse_imap_serialize f : imap_canonical f -> parse_imap (flag_serialize f) = Ok f.
Proof. apply parse_imap_roundtrip. Qed.

Lemma parse_imap_serialize_witness :
  parse_imap (flag_serialize (Keyword (b "$MyLabel"))) = Ok (Keyword (b "$MyLabel")).
Proof.
  apply parse_imap_serialize. split; [discriminate|]. split; [by eexists|].
  repeat constructor; vm_compute; reflexivity.
Defined.

(** Every flag is read back from the JMAP keyword it is stored under: named
    flags always, other keywords when they are [$]-keywords or consist of letters,
    digits and underscores. *)
Theorem parse_jmap_to_jmap f : jmap_canonical f -> parse_jmap (to_jmap f) = f.
Proof.
  destruct f as [| | | | | | | | | | | |k]; try (intros _; reflexivity).
  intros [[Hd Hn]|[Hne Hk]]; unfold parse_jmap; simpl to_jmap.
  - rewrite Hd. unfold jmap_names in Hn.
    repeat match goal with H : Forall _ (_ :: _) |- _ => apply list.Forall_cons in H as [-> H] end.
    done.
  - destruct k as [|c k]; [done|]. pose proof Hk as Hk'. inv Hk' as [|? ? Hc _].
    replace (starts_with (b "$") (c :: k)) with false.
    2: { change (b "$") with [36]. cbn [starts_with]. unfold is_ascii_alphanumeric, is_ascii_digit, is_ascii_upper, is_ascii_lower in Hc. lia. }
    rewrite chars_ascii.
    + simpl default. by rewrite sanitize_fixed.
    + eapply Forall_impl; [|exact Hk]. intros x. simpl.
      unfold is_ascii_alphanumeric, is_ascii_digit, is_ascii_upper, is_ascii_lower. lia.
Qed.

Lemma parse_jmap_to_jmap_witness : parse_jmap (to_jmap (Keyword (b "work_2"))) = Keyword (b "work_2").
Proof.
  apply parse_jmap_to_jmap. right. split; [discriminate|].
  repeat constructor; vm_compute; tauto.
Defined.
