(* ===== verification/Wire.v ===== *)
(** * Bytes on the wire

    The string encodings, [ResponseCode], [ResponseType] and [StatusResponse]
    serializers of [src/protocol/mod.rs], with the capability and mechanism
    names of [src/protocol/capability.rs], [src/protocol/authenticate.rs] and
    [src/parser/authenticate.rs].  Each serializer is the bytes it appends. *)

From S2P Require Import Prelude Utf8 Utf7 Types Flags Sequence.

(** [quoted_string] *)
Definition quote_byte (c : Z) : bytes :=
  if (c =? BACKSLASH) || (c =? DQUOTE) then [BACKSLASH; c] else [c].
Definition quoted_string (text : str) : bytes :=
  DQUOTE :: flat_map quote_byte text ++ [DQUOTE].

Definition quoted_string_or_nil (text : option str) : bytes :=
  match text with Some text => quoted_string text | None => b "NIL" end.

(** [literal_string] *)
Definition literal_string (text : str) : bytes :=
  b "{" ++ dec (Z.of_nat (length text)) ++ b "}" ++ CRLF ++ text.

(** [quoted_timestamp], [quoted_rfc2822], [quoted_rfc2822_or_nil] *)
Section Dates.
Context `{Chrono}.

Definition quoted_timestamp (timestamp : Z) : bytes :=
  DQUOTE :: format_datetime timestamp ++ [DQUOTE].
Definition quoted_rfc2822 (timestamp : Z) : bytes :=
  DQUOTE :: format_rfc2822 timestamp ++ [DQUOTE].
Definition quoted_rfc2822_or_nil (timestamp : option Z) : bytes :=
  match timestamp with Some t => quoted_rfc2822 t | None => b "NIL" end.
End Dates.

(** [Mechanism::serialize] and [Mechanism::parse] *)
Definition mechanism_serialize (m : Mechanism) : bytes :=
  match m with
  | Plain => b "PLAIN"
  | CramMd5 => b "CRAM-MD5"
  | DigestMd5 => b "DIGEST-MD5"
  | ScramSha1 => b "SCRAM-SHA-1"
  | ScramSha256 => b "SCRAM-SHA-256"
  | Apop => b "APOP"
  | Ntlm => b "NTLM"
  | Gssapi => b "GSSAPI"
  | Anonymous => b "ANONYMOUS"
  | External => b "EXTERNAL"
  | OAuthBearer => b "OAUTHBEARER"
  | XOauth2 => b "XOAUTH2"
  end.

Definition mechanism_parse (value : bytes) : Res (list Piece) Mechanism :=
  if eq_ignore_ascii_case value (b "PLAIN") then Ok Plain
  else if eq_ignore_ascii_case value (b "CRAM-MD5") then Ok CramMd5
  else if eq_ignore_ascii_case value (b "DIGEST-MD5") then Ok DigestMd5
  else if eq_ignore_ascii_case value (b "SCRAM-SHA-1") then Ok ScramSha1
  else if eq_ignore_ascii_case value (b "SCRAM-SHA-256") then Ok ScramSha256
  else if eq_ignore_ascii_case value (b "APOP") then Ok Apop
  else if eq_ignore_ascii_case value (b "NTLM") then Ok Ntlm
  else if eq_ignore_ascii_case value (b "GSSAPI") then Ok Gssapi
  else if eq_ignore_ascii_case value (b "ANONYMOUS") then Ok Anonymous
  else if eq_ignore_ascii_case value (b "EXTERNAL") then Ok External
  else if eq_ignore_ascii_case value (b "OAUTHBEARER") then Ok OAuthBearer
  else if eq_ignore_ascii_case value (b "XOAUTH2") then Ok XOauth2
  else Err [PStr (b "Unsupported mechanism '"); PStr (lossy value); PStr (b "'.")].

(** [Capability::serialize] *)
Definition capability_serialize (c : Capability) : bytes :=
  match c with
  | Auth mechanism => b "AUTH=" ++ mechanism_serialize mechanism
  | IMAP4rev2 => b "IMAP4rev2"
  | IMAP4rev1 => b "IMAP4rev1"
  | CapStartTLS => b "STARTTLS"
  | LoginDisabled => b "LOGINDISABLED"
  | CondStore => b "CONDSTORE"
  | QResync => b "QRESYNC"
  | LiteralPlus => b "LITERAL+"
  | UnAuthenticate => b "UNAUTHENTICATE"
  | StatusSize => b "STATUS=SIZE"
  | ObjectId => b "OBJECTID"
  | Preview_ => b "PREVIEW"
  | CapIdle => b "IDLE"
  | CapNamespace => b "NAMESPACE"
  | CapId => b "ID"
  | Children => b "CHILDREN"
  | MultiAppend => b "MULTIAPPEND"
  | Binary_ => b "BINARY"
  | CapUnselect => b "UNSELECT"
  | CapACL => b "ACL"
  | UIDPlus => b "UIDPLUS"
  | ESearch => b "ESEARCH"
  | SASLIR => b "SASL-IR"
  | Within => b "WITHIN"
  | CapEnable => b "ENABLE"
  | SearchRes => b "SEARCHRES"
  | CapSort => b "SORT"
  | CapThread => b "THREAD=REFERENCES"
  | ListExtended => b "LIST-EXTENDED"
  | ESort => b "ESORT"
  | SortDisplay => b "SORT=DISPLAY"
  | SpecialUse => b "SPECIAL-USE"
  | CreateSpecialUse => b "CREATE-SPECIAL-USE"
  | CapMove => b "MOVE"
  | Utf8Accept => b "UTF8=ACCEPT"
  end.

(** [Capability::all_capabilities] *)
Definition all_capabilities (is_authenticated is_tls : bool) : list Capability :=
  [IMAP4rev2; IMAP4rev1; CapEnable; SASLIR; LiteralPlus; CapId; Utf8Accept] ++
  (if is_authenticated then
     [CapIdle; CapNamespace; Children; MultiAppend; Binary_; CapUnselect; CapACL; UIDPlus;
      ESearch; Within; SearchRes; CapSort; CapThread; ListExtended; ESort; SortDisplay;
      SpecialUse; CreateSpecialUse; CapMove; CondStore; QResync; UnAuthenticate; StatusSize;
      ObjectId; Preview_]
   else [Auth OAuthBearer; Auth Plain]) ++
  (if negb is_tls then [CapStartTLS] else []).

(** [impl ImapResponse for capability::Response] *)
Definition capability_response (capabilities : list Capability) : bytes :=
  b "* CAPABILITY" ++ flat_map (fun c => SP :: capability_serialize c) capabilities ++ CRLF.

(** [ResponseCode::serialize] *)
Definition code_serialize (c : ResponseCode) : bytes :=
  match c with
  | Alert => b "ALERT"
  | AlreadyExists => b "ALREADYEXISTS"
  | AppendUid uid_validity uids =>
      b "APPENDUID " ++ dec uid_validity ++ b " " ++ serialize_sequence uids
  | AuthenticationFailed => b "AUTHENTICATIONFAILED"
  | AuthorizationFailed => b "AUTHORIZATIONFAILED"
  | BadCharset => b "BADCHARSET"
  | Cannot => b "CANNOT"
  | CapabilityCode capabilities =>
      b "CAPABILITY" ++ flat_map (fun c => SP :: capability_serialize c) capabilities
  | ClientBug => b "CLIENTBUG"
  | Closed => b "CLOSED"
  | ContactAdmin => b "CONTACTADMIN"
  | CopyUid uid_validity src_uids dest_uids =>
      b "COPYUID " ++ dec uid_validity ++ b " " ++ serialize_sequence src_uids ++ b " " ++
      serialize_sequence dest_uids
  | Corruption => b "CORRUPTION"
  | Expired => b "EXPIRED"
  | ExpungeIssued => b "EXPUNGEISSUED"
  | HasChildren => b "HASCHILDREN"
  | InUse => b "INUSE"
  | Limit => b "LIMIT"
  | NonExistent => b "NONEXISTENT"
  | NoPerm => b "NOPERM"
  | OverQuota => b "OVERQUOTA"
  | Parse => b "PARSE"
  | PermanentFlags => b "PERMANENTFLAGS"
  | PrivacyRequired => b "PRIVACYREQUIRED"
  | ReadOnly => b "READ-ONLY"
  | ReadWrite => b "READ-WRITE"
  | ServerBug => b "SERVERBUG"
  | TryCreate => b "TRYCREATE"
  | UidNext => b "UIDNEXT"
  | UidNotSticky => b "UIDNOTSTICKY"
  | UidValidity => b "UIDVALIDITY"
  | Unavailable => b "UNAVAILABLE"
  | UnknownCte => b "UNKNOWN-CTE"
  | Modified ids => b "MODIFIED " ++ serialize_sequence ids
  | MailboxIdCode mailbox_id => b "MAILBOXID (" ++ mailbox_id ++ b ")"
  | HighestModseq modseq => b "HIGHESTMODSEQ " ++ dec modseq
  end.

(** [ResponseType::serialize] *)
Definition rtype_serialize (t : ResponseType) : bytes :=
  match t with
  | RtOk => b "OK"
  | RtNo => b "NO"
  | RtBad => b "BAD"
  | RtPreAuth => b "PREAUTH"
  | RtBye => b "BYE"
  end.

(** [StatusResponse::serialize]: what it appends to the buffer it is given. *)
Definition status_serialize `{DebugFmt} (r : StatusResponse) : bytes :=
  match tag r with Some tag => tag | None => b "*" end ++ b " " ++
  rtype_serialize (rtype r) ++ b " " ++
  match code r with Some code => b "[" ++ code_serialize code ++ b "] " | None => [] end ++
  render (message r) ++ CRLF.

(** ** Specification notions *)

(** No line break. *)
Definition line_ok (x : bytes) : Prop := Forall (fun c => c <> CR /\ c <> LF) x.

Definition code_ok (c : ResponseCode) : Prop :=
  match c with
  | AppendUid v uids => 0 <= v /\ Forall (fun u => 0 <= u) uids
  | CopyUid v s d => 0 <= v /\ Forall (fun u => 0 <= u) s /\ Forall (fun u => 0 <= u) d
  | Modified ids => Forall (fun u => 0 <= u) ids
  | HighestModseq m => 0 <= m
  | MailboxIdCode m => line_ok m
  | _ => True
  end.

(** ** Lemmas *)

Lemma line_ok_app x y : line_ok (x ++ y) <-> line_ok x /\ line_ok y.
Proof. apply Forall_app. Qed.

Definition line_okb (x : bytes) : bool := forallb (fun c => negb (c =? CR) && negb (c =? LF)) x.

Lemma line_okb_ok x : line_okb x = true -> line_ok x.
Proof.
  unfold line_okb, line_ok. rewrite forallb_forall. intros H.
  apply List.Forall_forall. intros c Hc%H. lia.
Qed.

Ltac line_ok_const := apply line_okb_ok; reflexivity.

Lemma line_ok_dec n : 0 <= n -> line_ok (dec n).
Proof.
  intros Hn. eapply Forall_impl; [|by apply dec_all_digits].
  unfold is_ascii_digit, CR, LF. simpl. lia.
Qed.

Lemma wrap32_nonneg x : 0 <= wrap32 x.
Proof. rewrite wrap32_mod. apply Z.mod_pos_bound. lia. Qed.

Lemma line_ok_run ids id r :
  Forall (fun u => 0 <= u) ids -> 0 <= r -> line_ok (serialize_run id r ids).
Proof.
  intros Hids. revert id r; induction Hids as [|n ids Hn Hids IH]; intros id r Hr; simpl.
  - unfold range_suffix. case_match; [by constructor|]. apply line_ok_app; split; [line_ok_const|by apply line_ok_dec].
  - case_match; [apply IH, wrap32_nonneg|]. apply line_ok_app; split.
    + unfold range_suffix. case_match; [by constructor|]. apply line_ok_app; split; [line_ok_const|by apply line_ok_dec].
    + constructor; [by constructor|]. apply line_ok_app; split; [by apply line_ok_dec | by apply IH].
Qed.

Lemma line_ok_sequence ids : Forall (fun u => 0 <= u) ids -> line_ok (serialize_sequence ids).
Proof.
  intros Hids. destruct Hids as [|n ids Hn Hids]; [by constructor|]. simpl.
  apply line_ok_app; split; [by apply line_ok_dec | by apply line_ok_run].
Qed.

Lemma line_ok_capability c : line_ok (capability_serialize c).
Proof. destruct c as [| | | | | | | | | | | | | | | | | | | | | | | | | | | | | | | | | |[]]; line_ok_const. Qed.

Lemma line_ok_code c : code_ok c -> line_ok (code_serialize c).
Proof.
  destruct c; simpl code_ok; try (intros _; line_ok_const); intros; cbn [code_serialize];
    rewrite ?line_ok_app; split_and?; try line_ok_const; try tauto;
    try (apply line_ok_dec; tauto); try (apply line_ok_sequence; tauto).
  apply Forall_flat_map, List.Forall_forall. intros c _. constructor; [by constructor|]. apply line_ok_capability.
Qed.

(** ** Properties *)

(** A response cannot be split: when the tag, the message text and a mailbox id
    contain no line break, the serialized response is one line, ended by the only
    CRLF in it. *)
Theorem status_serialize_line `{DebugFmt} r :
  line_ok (default [] (tag r)) -> line_ok (render (message r)) ->
  match code r with Some c => code_ok c | None => True end ->
  exists line, status_serialize r = line ++ CRLF /\ line_ok line.
Proof.
  intros Ht Hm Hc. unfold status_serialize. rewrite !app_assoc. eexists; split; [reflexivity|].
  rewrite !line_ok_app. split_and!; try done; try line_ok_const.
  - destruct (tag r); [done | line_ok_const].
  - destruct (rtype r); line_ok_const.
  - destruct (code r); [|by constructor]. rewrite ?line_ok_app.
    split_and!; try line_ok_const. by apply line_ok_code.
Qed.

#[local] Instance plain_debug : DebugFmt := {| debug_str s := s; debug_char c := [c] |}.

Lemma status_serialize_line_witness :
  exists line,
    status_serialize (with_tag (with_code (completed (Store true)) (Modified [3; 4])) (b "A1"))
      = line ++ CRLF /\ line_ok line.
Proof.
  apply status_serialize_line.
  - apply line_okb_ok. reflexivity.
  - apply line_okb_ok. reflexivity.
  - repeat constructor; lia.
Defined.

(** The client finds every mechanism the server advertises: [Mechanism::parse]
    reads, in any case of letters, what [Mechanism::serialize] writes. *)
Theorem mechanism_parse_serialize m value :
  eq_ignore_ascii_case value (mechanism_serialize m) = true -> mechanism_parse value = Ok m.
Proof.
  intros Hv. apply bytes_eqb_eq in Hv. unfold mechanism_parse, eq_ignore_ascii_case.
  rewrite Hv. by destruct m.
Qed.

Lemma mechanism_parse_serialize_witness : mechanism_parse (b "oAuthBearer") = Ok OAuthBearer.
Proof. apply mechanism_parse_serialize. reflexivity. Defined.
