(* ===== verification/Commands.v ===== *)
(** * IMAP commands on the wire

    [impl CommandParser for Command] of [src/parser/mod.rs], and the round trip
    of a whole request: what a client writes, byte for byte, is what the receiver
    of [Receiver.v] delivers. *)

From S2P Require Import Prelude Utf8 Utf7 Types Receiver ReceiverSpec Flags Sequence Wire.

Definition imap_command_parse (value : bytes) (uid : bool) : option Command :=
  if bytes_eqb value (b "CAPABILITY") then Some Capability_
  else if bytes_eqb value (b "NOOP") then Some Noop
  else if bytes_eqb value (b "LOGOUT") then Some Logout
  else if bytes_eqb value (b "STARTTLS") then Some StartTls
  else if bytes_eqb value (b "AUTHENTICATE") then Some Authenticate
  else if bytes_eqb value (b "LOGIN") then Some Login
  else if bytes_eqb value (b "ENABLE") then Some Enable
  else if bytes_eqb value (b "SELECT") then Some Select
  else if bytes_eqb value (b "EXAMINE") then Some Examine
  else if bytes_eqb value (b "CREATE") then Some Create
  else if bytes_eqb value (b "DELETE") then Some Delete
  else if bytes_eqb value (b "RENAME") then Some Rename
  else if bytes_eqb value (b "SUBSCRIBE") then Some Subscribe
  else if bytes_eqb value (b "UNSUBSCRIBE") then Some Unsubscribe
  else if bytes_eqb value (b "LIST") then Some List_
  else if bytes_eqb value (b "NAMESPACE") then Some Namespace
  else if bytes_eqb value (b "STATUS") then Some Status_
  else if bytes_eqb value (b "APPEND") then Some Append
  else if bytes_eqb value (b "IDLE") then Some Idle
  else if bytes_eqb value (b "CLOSE") then Some Close
  else if bytes_eqb value (b "UNSELECT") then Some Unselect
  else if bytes_eqb value (b "EXPUNGE") then Some (Expunge uid)
  else if bytes_eqb value (b "SEARCH") then Some (Search uid)
  else if bytes_eqb value (b "FETCH") then Some (Fetch uid)
  else if bytes_eqb value (b "STORE") then Some (Store uid)
  else if bytes_eqb value (b "COPY") then Some (Copy uid)
  else if bytes_eqb value (b "MOVE") then Some (Move uid)
  else if bytes_eqb value (b "SORT") then Some (Sort_ uid)
  else if bytes_eqb value (b "THREAD") then Some (Thread uid)
  else if bytes_eqb value (b "LSUB") then Some Lsub
  else if bytes_eqb value (b "CHECK") then Some Check_
  else if bytes_eqb value (b "SETACL") then Some SetAcl
  else if bytes_eqb value (b "DELETEACL") then Some DeleteAcl
  else if bytes_eqb value (b "GETACL") then Some GetAcl
  else if bytes_eqb value (b "LISTRIGHTS") then Some ListRights
  else if bytes_eqb value (b "MYRIGHTS") then Some MyRights
  else if bytes_eqb value (b "UNAUTHENTICATE") then Some Unauthenticate
  else if bytes_eqb value (b "ID") then Some Id
  else None.

Definition imap_tokenize_brackets (c : Command) : bool :=
  match c with Fetch _ => true | _ => false end.

#[export] Instance imap_commands : CommandParser Command := {|
  command_parse := imap_command_parse;
  tokenize_brackets := imap_tokenize_brackets;
  command_default := Noop
|}.

(** ** A client's requests *)

(** One argument as a client may write it. *)
Inductive Arg :=
| AtomArg (s : bytes)
| QuotedArg (s : bytes)
| LiteralArg (non_sync : bool) (s : bytes)
| OpenArg
| CloseArg.

Definition arg_text (a : Arg) : bytes :=
  match a with
  | AtomArg s => s
  | QuotedArg s => quoted_string s
  | LiteralArg non_sync s =>
      b "{" ++ dec (Z.of_nat (length s)) ++ (if non_sync then b "+" else []) ++ b "}" ++ CRLF ++ s
  | OpenArg => b "("
  | CloseArg => b ")"
  end.

Definition arg_token (a : Arg) : Token :=
  match a with
  | AtomArg s | QuotedArg s | LiteralArg _ s => if bool_decide (s = []) then Nil_ else Argument s
  | OpenArg => ParenthesisOpen
  | CloseArg => ParenthesisClose
  end.

(** What an argument takes of the request budget. *)
Definition arg_size (a : Arg) : Z :=
  match a with
  | AtomArg s | QuotedArg s => Z.of_nat (length s)
  | LiteralArg _ s => if bool_decide (s = []) then 1 else Z.of_nat (length s)
  | OpenArg | CloseArg => 1
  end.
Definition args_size (l : list Arg) : Z := foldr (fun a n => arg_size a + n) 0 l.

(** The byte belongs to an atom of the command's arguments. *)
Definition atom_byte (c : Command) (ch : Z) : bool :=
  negb (is_ascii_whitespace ch) && bool_decide (punctuation c ch = None).

Definition arg_ok (c : Command) (a : Arg) : Prop :=
  match a with
  | AtomArg s =>
      match s with
      | [] => False
      | ch :: _ => ch <> DQUOTE /\ ch <> 123 /\ Forall (fun x => atom_byte c x = true) s
      end
  | QuotedArg s => Forall (fun x => x <> LF) s /\ Z.of_nat (length s) <= 1024
  | LiteralArg _ s => is_u32 (Z.of_nat (length s))
  | OpenArg | CloseArg => True
  end.

Definition arg_events (a : Arg) : list (Res RecvError (Request Command)) :=
  match a with
  | LiteralArg false s => [Err (NeedsLiteral (Z.of_nat (length s)))]
  | _ => []
  end.

Definition request_text (t : bytes) (c : Command) (args : list Arg) : bytes :=
  t ++ b " " ++ command_name c ++ flat_map (fun a => SP :: arg_text a) args ++ CRLF.

(** ** Lemmas *)

Definition at_arg (mx : Z) (ss : State) (t : bytes) (c : Command) (ts : list Token) (cur : Z)
    (bf : bytes) (last : Z) : Receiver Command :=
  mkReceiver bf (mkRequest t c ts) (ArgumentState last) mx cur ss.

Section RoundTrip.
Variables (mx : Z) (ss : State) (t : bytes) (c : Command).
Abbreviation R := (at_arg mx ss t c).

Definition flush (ts : list Token) (bf : bytes) : list Token :=
  ts ++ if bool_decide (bf = []) then [] else [Argument bf].

(** Push the pending atom. *)
Lemma push_argument_flush ts cur bf last k :
  cur + Z.of_nat (length bf) <= mx ->
  push_argument (R ts cur bf last) false k = k (R (flush ts bf) (cur + Z.of_nat (length bf)) [] last).
Proof.
  intros Hs. unfold push_argument, flush, at_arg; simpl. case_bool_decide as Hb; simpl.
  - subst bf. simpl. by rewrite app_nil_r, Z.add_0_r.
  - unfold set_size, buf_len; simpl. by if_lia.
Qed.

Lemma punctuation_blank ch : ch <= 32 -> punctuation c ch = None.
Proof. intros. unfold punctuation. by if_lia. Qed.

Lemma run_blank ts cur bf last ch x :
  cur + Z.of_nat (length bf) <= mx -> ch = SP \/ ch = CR ->
  run (R ts cur bf last) (ch :: x) = run (R (flush ts bf) (cur + Z.of_nat (length bf)) [] ch) x.
Proof.
  intros Hs Hch. apply run_cons_continue.
  change (step (R ts cur bf last) ch) with (step_argument (R ts cur bf last) last ch).
  unfold step_argument. change (req_command (request (R ts cur bf last))) with c.
  rewrite punctuation_blank by (unfold SP, CR in *; lia).
  destruct Hch as [-> | ->]; cbn -[push_argument at_arg]; by rewrite push_argument_flush.
Qed.

Lemma run_line_end ts cur bf last :
  cur + Z.of_nat (length bf) <= mx ->
  run (R ts cur bf last) CRLF = (new_receiver mx ss, [Ok (mkRequest t c (flush ts bf))]).
Proof.
  intros Hs. unfold CRLF. rewrite run_blank by auto.
  cbn [run]. set (r := R _ _ _ _). change (step r LF) with (step_argument r CR LF).
  unfold step_argument. change (req_command (request r)) with c.
  rewrite punctuation_blank by (unfold LF; lia). cbn -[push_argument at_arg]. unfold r.
  rewrite push_argument_flush by (simpl; lia). unfold finish, at_arg, flush; simpl.
  by rewrite app_nil_r.
Qed.

Lemma run_quoted_bytes ts cur bf s :
  Forall (fun x => x <> LF) s -> Z.of_nat (length bf) + Z.of_nat (length s) <= 1024 ->
  run (mkReceiver bf (mkRequest t c ts) (ArgumentQuoted false) mx cur ss) (flat_map quote_byte s) =
    (mkReceiver (bf ++ s) (mkRequest t c ts) (ArgumentQuoted false) mx cur ss, []).
Proof.
  intros Hs. revert bf; induction Hs as [|x s Hx Hs IH]; intros bf Hl; simpl in *.
  { by rewrite app_nil_r. }
  unfold quote_byte at 1. destruct (_ || _) eqn:Hq; simpl app.
  - erewrite run_cons_continue.
    2: { unfold step, step_quoted; simpl. reflexivity. }
    erewrite run_cons_continue.
    2: { unfold step, step_quoted; simpl.
         destruct (Z.eqb_spec x DQUOTE); simpl; [unfold buf_len; simpl; if_lia; reflexivity|].
         replace (x =? BACKSLASH) with true by lia. reflexivity. }
    unfold set_state, push_buf, set_buf; simpl.
    rewrite IH by (rewrite length_app; simpl; lia). by rewrite <- app_assoc.
  - erewrite run_cons_continue.
    2: { unfold step, step_quoted; simpl. unfold buf_len; simpl.
         replace (x =? LF) with false by lia. if_lia. reflexivity. }
    unfold set_state, push_buf, set_buf; simpl.
    rewrite IH by (rewrite length_app; simpl; lia). by rewrite <- app_assoc.
Qed.

(** The receiver after an argument: the token is there, or its atom is pending. *)
Definition after_arg (ts : list Token) (cur : Z) (a : Arg) : Receiver Command :=
  match a with
  | AtomArg s => R ts cur s (List.last s SP)
  | _ => R (ts ++ [arg_token a]) (cur + arg_size a) [] SP
  end.

Lemma last_nonempty (x : Z) l d1 d2 : List.last (x :: l) d1 = List.last (x :: l) d2.
Proof. revert x; induction l as [|y l IH]; intros x; [done|]. apply (IH y). Qed.

Lemma step_argument_atom ts cur bf last ch :
  atom_byte c ch = true -> (ch <> DQUOTE /\ ch <> 123) \/ is_ascii_whitespace last = false ->
  step (R ts cur bf last) ch = (R ts cur (bf ++ [ch]) ch, Continue).
Proof.
  intros Ha Hq. change (step (R ts cur bf last) ch) with (step_argument (R ts cur bf last) last ch).
  unfold step_argument. change (req_command (request (R ts cur bf last))) with c.
  unfold atom_byte in Ha. apply andb_true_iff in Ha as [Hw Hp].
  apply negb_true_iff in Hw. apply bool_decide_eq_true in Hp. rewrite Hp.
  assert (Hd : ((ch =? DQUOTE) && is_ascii_whitespace last)%bool = false) by (destruct Hq as [[??]| ->]; lia).
  assert (Hb : ((ch =? 123) && is_ascii_whitespace last)%bool = false) by (destruct Hq as [[??]| ->]; lia).
  rewrite Hd, Hb, Hw. replace (ch =? LF) with false; [done|].
  unfold is_ascii_whitespace, LF in *. lia.
Qed.

Lemma atom_byte_nonblank ch : atom_byte c ch = true -> is_ascii_whitespace ch = false.
Proof. unfold atom_byte. intros [? ?]%andb_true_iff. by apply negb_true_iff. Qed.

Lemma run_atom_tail ts cur bf last s :
  is_ascii_whitespace last = false -> Forall (fun x => atom_byte c x = true) s ->
  run (R ts cur bf last) s = (R ts cur (bf ++ s) (List.last s last), []).
Proof.
  intros Hl Hs. revert bf last Hl; induction Hs as [|ch s Hc Hs IH]; intros bf last Hl.
  { simpl. by rewrite app_nil_r. }
  erewrite run_cons_continue by (apply step_argument_atom; auto).
  rewrite IH by (by apply atom_byte_nonblank). rewrite <- app_assoc. simpl app.
  destruct s as [|c2 s]; [done|]. change (List.last (ch :: c2 :: s) last) with (List.last (c2 :: s) last).
  by rewrite (last_nonempty c2 s ch last).
Qed.

Lemma run_quoted_arg ts cur s :
  arg_ok c (QuotedArg s) -> cur + Z.of_nat (length s) <= mx ->
  run (R ts cur [] SP) (quoted_string s) = (after_arg ts cur (QuotedArg s), []).
Proof.
  intros [Hs Hl] Hm. unfold quoted_string.
  erewrite run_cons_continue by reflexivity.
  unfold set_state; simpl. erewrite run_continue by (apply run_quoted_bytes; [done | simpl; lia]). simpl.
  unfold step, step_quoted, push_argument, at_arg; simpl.
  destruct s as [|x s]; simpl; [by rewrite Z.add_0_r|].
  unfold set_size, buf_len; simpl. simpl in Hm. by if_lia.
Qed.

Lemma step_digit ts cur bf d :
  is_ascii_digit d = true ->
  step (mkReceiver bf (mkRequest t c ts) (Literal false) mx cur ss) d =
    (mkReceiver (bf ++ [d]) (mkRequest t c ts) (Literal false) mx cur ss, Continue).
Proof.
  intros Hd. unfold step, step_literal; simpl. rewrite Hd. unfold is_ascii_digit in Hd. by if_lia.
Qed.

Lemma run_digits ts cur bf ds :
  Forall (fun d => is_ascii_digit d = true) ds ->
  run (mkReceiver bf (mkRequest t c ts) (Literal false) mx cur ss) ds =
    (mkReceiver (bf ++ ds) (mkRequest t c ts) (Literal false) mx cur ss, []).
Proof.
  intros Hds. revert bf; induction Hds as [|d ds Hd Hds IH]; intros bf; [by rewrite app_nil_r|].
  erewrite run_cons_continue by (by apply step_digit). by rewrite IH, <- app_assoc.
Qed.

(** [{n}] or [{n+}] and the line end. *)
Lemma run_literal_header ts cur n ns :
  is_u32 n -> cur + n <= mx ->
  run (R ts cur [] SP) (b "{" ++ dec n ++ (if ns : bool then b "+" else []) ++ b "}" ++ [CR]) =
    (mkReceiver [] (mkRequest t c ts) (LiteralSeek n ns) mx cur ss, []).
Proof.
  intros Hn Hm. assert (0 <= n) by (destruct Hn; lia).
  change (b "{" ++ ?x) with (123 :: x). erewrite run_cons_continue by reflexivity.
  unfold set_state; simpl.
  erewrite run_continue by (apply run_digits; by apply dec_all_digits). rewrite app_nil_l.
  assert (Hclose : forall r, buf r = dec n -> max_request_size r = mx -> current_request_size r = cur ->
    step_literal r ns 125 = (set_buf (set_state r (LiteralSeek n ns)) [], Continue)).
  { intros r Hb Hmx Hc. unfold step_literal. rewrite Hb, Hmx, Hc, digits_utf8 by (by apply dec_all_digits).
    rewrite parse_uint_dec by exact Hn. rewrite bool_decide_eq_false_2 by apply Sequence.dec_nonempty.
    simpl. by if_lia. }
  destruct ns; simpl app.
  - erewrite run_cons_continue.
    2: { unfold step, step_literal; simpl. rewrite bool_decide_eq_false_2 by apply Sequence.dec_nonempty. reflexivity. }
    erewrite run_cons_continue by (apply Hclose; reflexivity). reflexivity.
  - erewrite run_cons_continue by (apply Hclose; reflexivity). reflexivity.
Qed.

Lemma run_literal_arg ts cur ns s :
  arg_ok c (LiteralArg ns s) -> cur + arg_size (LiteralArg ns s) <= mx ->
  run (R ts cur [] SP) (arg_text (LiteralArg ns s)) =
    (after_arg ts cur (LiteralArg ns s), arg_events (LiteralArg ns s)).
Proof.
  intros Hs Hm. simpl in Hs, Hm.
  assert (Hm' : cur + Z.of_nat (length s) <= mx) by (case_bool_decide; subst; simpl in *; lia).
  replace (arg_text (LiteralArg ns s)) with
    ((b "{" ++ dec (Z.of_nat (length s)) ++ (if ns then b "+" else []) ++ b "}" ++ [CR]) ++ LF :: s)
    by (unfold arg_text, CRLF; rewrite <- !app_assoc; done).
  erewrite run_continue by (by apply run_literal_header).
  cbn [run]. unfold step, step_literal_seek; simpl.
  destruct (decide (s = [])) as [->|Hne]; simpl.
  - unfold push_token; simpl. unfold set_size; simpl. simpl in Hm. if_lia. by destruct ns.
  - assert (length s <> O) by (by destruct s). if_lia. unfold set_state; simpl.
    rewrite bool_decide_eq_false_2 by done.
    rewrite (run_literal_data [] t c ts mx cur ss s Hne) by (simpl; lia). simpl.
    destruct ns; simpl; unfold at_arg; by rewrite Z.add_0_r.
Qed.

Lemma run_arg ts cur a :
  arg_ok c a -> cur + arg_size a <= mx -> 0 <= cur ->
  run (R ts cur [] SP) (arg_text a) = (after_arg ts cur a, arg_events a).
Proof.
  intros Ha Hm Hc. destruct a as [s|s|ns s| |].
  - destruct s as [|ch s]; [done|]. destruct Ha as (Hq & Hb & Hs). inv Hs as [|? ? Hch Hs'].
    simpl arg_text. erewrite run_cons_continue by (apply step_argument_atom; auto).
    rewrite run_atom_tail by (done || by apply atom_byte_nonblank). simpl.
    destruct s as [|c2 s]; [done|]. by rewrite (last_nonempty c2 s ch SP).
  - by apply run_quoted_arg.
  - by apply run_literal_arg.
  - simpl in *. unfold step, step_argument, push_argument, push_token; simpl.
    unfold set_size; simpl. if_lia. done.
  - simpl in *. unfold step, step_argument, push_argument, push_token; simpl.
    unfold set_size; simpl. if_lia. done.
Qed.

(** After an argument comes a separator or the line end. *)
Lemma after_arg_flush ts cur a :
  arg_ok c a -> 0 <= cur ->
  exists ts' cur' bf last,
    after_arg ts cur a = R ts' cur' bf last /\ flush ts' bf = ts ++ [arg_token a] /\
    cur' + Z.of_nat (length bf) = cur + arg_size a /\ 0 <= cur'.
Proof.
  intros Ha Hc. destruct a as [s|s|ns s| |]; simpl.
  1: { exists ts, cur, s, (List.last s SP). by destruct s. }
  all: do 4 eexists; split_and!; [reflexivity|apply app_nil_r|simpl; lia|].
  all: try case_bool_decide; lia.
Qed.

Lemma run_args args : forall ts cur bf last,
  Forall (arg_ok c) args -> 0 <= cur ->
  cur + Z.of_nat (length bf) + args_size args <= mx ->
  Forall (fun a => 0 <= arg_size a) args ->
  run (R ts cur bf last) (flat_map (fun a => SP :: arg_text a) args ++ CRLF) =
    (new_receiver mx ss,
     flat_map arg_events args ++ [Ok (mkRequest t c (flush ts bf ++ map arg_token args))]).
Proof.
  induction args as [|a args IH]; intros ts cur bf last Hok Hcur Hm Hnn; cbn [flat_map map] in *.
  - rewrite app_nil_l, run_line_end by (simpl in Hm; lia). by rewrite app_nil_r.
  - inv Hok as [|? ? Ha Hok']. inv Hnn as [|? ? Hn Hnn'].
    assert (0 <= args_size args).
    { clear -Hnn'. induction Hnn' as [|a l]; simpl in *; lia. }
    change (args_size (a :: args)) with (arg_size a + args_size args) in Hm.
    rewrite <- app_assoc, <- app_comm_cons, run_blank by (lia || by left). rewrite run_app.
    rewrite run_arg by (done || lia). cbn [fst snd].
    destruct (after_arg_flush (flush ts bf) (cur + Z.of_nat (length bf)) a Ha ltac:(lia))
      as (ts' & cur' & bf' & last' & -> & E1 & E2 & E3).
    rewrite IH by (done || lia). rewrite E1. simpl. by rewrite <- !app_assoc.
Qed.
End RoundTrip.

Lemma arg_size_nonneg a : 0 <= arg_size a.
Proof. destruct a; simpl; try case_bool_decide; lia. Qed.

(** Reading a command name, with its [UID] prefix. *)
Lemma run_command mx ss t c ch x :
  ch = SP \/ ch = CR ->
  run (mkReceiver [] (mkRequest t Noop []) (CommandName false) mx 0 ss) (command_name c ++ ch :: x) =
    run (at_arg mx ss t c [] 0 [] SP) x.
Proof.
  intros [-> | ->]; destruct c as
    [ | | | | | | | | | | | | | | | | | | | | |[]|[]|[]|[]|[]|[]| | |[]|[]| | | | | | | ];
    reflexivity.
Qed.

Lemma run_tag_bytes mx ss q bf t :
  Forall (fun x => is_ascii_whitespace x = false) t ->
  Z.of_nat (length bf) + Z.of_nat (length t) <= 128 ->
  run (mkReceiver (T := Command) bf q Tag mx 0 ss) t = (mkReceiver (bf ++ t) q Tag mx 0 ss, []).
Proof.
  intros Ht. revert bf; induction Ht as [|x t Hx Ht IH]; intros bf Hl; [by rewrite app_nil_r|].
  simpl in Hl. erewrite run_cons_continue.
  2: { unfold step, step_tag; simpl. unfold buf_len; simpl. rewrite Hx.
       replace (x =? SP) with false by (unfold is_ascii_whitespace, SP in *; lia).
       simpl. if_lia. reflexivity. }
  unfold push_buf, set_buf; simpl. rewrite IH by (rewrite length_app; simpl; lia).
  by rewrite <- app_assoc.
Qed.

Lemma run_tag mx t x :
  t <> [] -> tag_ok t -> valid_utf8 t ->
  run (new_receiver mx Start) (t ++ SP :: x) =
    run (mkReceiver [] (mkRequest t Noop []) (CommandName false) mx 0 Start) x.
Proof.
  intros Hne [Hl Ht] Hv. destruct Ht as [|c t Hc Ht]; [done|]. simpl in Hl.
  rewrite <- app_comm_cons. erewrite run_cons_continue.
  2: { unfold step, step_start; simpl. rewrite Hc. reflexivity. }
  unfold set_state, push_buf, set_buf; simpl.
  erewrite run_continue by (apply run_tag_bytes; [done | simpl; lia]).
  apply run_cons_continue. unfold step, step_tag; simpl.
  unfold from_utf8. destruct Hv as [cs ->]. done.
Qed.

Lemma run_request mx t c args :
  t <> [] -> tag_ok t -> valid_utf8 t -> Forall (arg_ok c) args -> args_size args <= mx ->
  run (new_receiver mx Start) (request_text t c args) =
    (new_receiver mx Start, flat_map arg_events args ++ [Ok (mkRequest t c (map arg_token args))]).
Proof.
  intros Hne Ht Hv Hargs Hm. unfold request_text.
  change (b " " ++ ?y) with (SP :: y). rewrite run_tag by done.
  assert (Hnn : Forall (fun a => 0 <= arg_size a) args)
    by (apply List.Forall_forall; intros; apply arg_size_nonneg).
  assert (0 <= args_size args) by (clear -Hnn; induction Hnn; simpl; lia).
  pose proof (run_args mx Start t c args [] 0 [] SP Hargs) as H0. simpl in H0.
  destruct args as [|a args].
  - simpl. unfold CRLF. rewrite run_command by auto. reflexivity.
  - transitivity (run (at_arg mx Start t c [] 0 [] SP)
                    (flat_map (fun a => SP :: arg_text a) (a :: args) ++ CRLF)).
    + cbn [flat_map]. rewrite <- !app_assoc, <- !app_comm_cons. rewrite run_command by auto.
      rewrite (run_blank mx Start t c [] 0 [] SP SP) by (simpl; lia || by left). done.
    + apply H0; done || lia.
Qed.

(** ** Properties *)

(** C1: A request as a client writes it (a tag, a command with its UID prefix, atoms,
    quoted strings written by the server's own [quoted_string], synchronizing and
    non-synchronizing literals, parentheses) is delivered exactly: the receiver asks
    once for each synchronizing literal, in order, then yields one request with that
    tag, that command and one token per argument, and is ready for the next request. *)
Theorem request_roundtrip mx t c args rest :
  t <> [] -> tag_ok t -> valid_utf8 t -> Forall (arg_ok c) args -> args_size args <= mx ->
  run (new_receiver mx Start) (request_text t c args ++ rest) =
    ((run (new_receiver mx Start) rest).1,
     flat_map arg_events args ++ Ok (mkRequest t c (map arg_token args))
       :: (run (new_receiver mx Start) rest).2).
Proof.
  intros. rewrite run_app, run_request by done. simpl. by rewrite <- app_assoc.
Qed.

Lemma request_roundtrip_witness :
  run (new_receiver 1000 Start)
    (request_text (b "a1") (Store true)
       [AtomArg (b "7"); OpenArg; QuotedArg (b "x\y"); CloseArg; LiteralArg false (b "ab")] ++ []) =
  (new_receiver 1000 Start,
   [Err (NeedsLiteral 2);
    Ok (mkRequest (b "a1") (Store true)
          [Argument (b "7"); ParenthesisOpen; Argument (b "x\y"); ParenthesisClose;
           Argument (b "ab")])]).
Proof.
  apply (request_roundtrip 1000 (b "a1") (Store true)
    [AtomArg (b "7"); OpenArg; QuotedArg (b "x\y"); CloseArg; LiteralArg false (b "ab")] []).
  - discriminate.
  - split; [discriminate | repeat constructor].
  - by eexists.
  - repeat constructor; discriminate.
  - discriminate.
Defined.

Lemma parse_safe_witness :
  request_ok (T := Command) 100 (mkRequest (b "a") Noop []).
Proof.
  apply (parse_safe (new_receiver 100 Start) (b "a NOOP" ++ CRLF) (new_receiver 100 Start)
           (Ok (mkRequest (b "a") Noop [])) []).
  - apply wf_new; [exact I | lia].
  - vm_compute. reflexivity.
  - reflexivity.
Defined.

Lemma parse_restarts_witness :
  new_receiver (T := Command) 100 Start =
    new_receiver (max_request_size (new_receiver (T := Command) 100 Start))
                 (start_state (new_receiver (T := Command) 100 Start)).
Proof.
  apply (parse_restarts (new_receiver 100 Start) (b "a NOOP" ++ CRLF) (new_receiver 100 Start)
           (Ok (mkRequest (b "a") Noop [])) []).
  vm_compute. reflexivity.
Defined.

Lemma literal_verbatim_witness :
  parse (mkReceiver (T := Command) [] (mkRequest (b "a") Append []) (LiteralData 3) 10 0 Start)
    ([34; 10; 40] ++ []) =
  parse (mkReceiver [] (mkRequest (b "a") Append [Argument [34; 10; 40]]) (ArgumentState SP) 10 3 Start) [].
Proof.
  apply (literal_verbatim (mkReceiver [] (mkRequest (b "a") Append []) (LiteralData 3) 10 0 Start)
           [34; 10; 40] []).
  - unfold wf, wf_request, state_ok, tag_ok, buf_len; simpl.
    split_and!; try done; try lia; repeat constructor; unfold is_ascii_whitespace; reflexivity.
  - reflexivity.
  - discriminate.
Defined.
