(* ===== verification/Parsers.v ===== *)
(** * Request parsers ([src/parser/*.rs] except FETCH and the search family)

    Each [parse_<command>] turns the tokens of a request into the arguments of
    its command or into the tagged error response.  A token iterator is the list
    of the tokens still to come: [next] takes its head, [peek] looks at it. *)

From S2P Require Import Prelude Utf8 Utf7 Types Receiver ReceiverSpec Flags Sequence Wire Commands.

(** ** Arguments ([src/protocol/*.rs]) *)

(** The mailbox roles of the JMAP client library that the server names. *)
Inductive Role :=
| RoleArchive | RoleDrafts | RoleJunk | RoleSent | RoleTrash | RoleImportant | RoleInbox | RoleNone
| RoleOther (name : str).

Inductive SelectionOption := SelSubscribed | SelRemote | SelRecursiveMatch | SelSpecialUse.

Inductive Status :=
| StMessages | StUidNext | StUidValidity | StUnseen | StDeleted | StSize | StRecent
| StHighestModSeq | StMailboxId.

Inductive ReturnOption :=
| RetSubscribed | RetChildren | RetStatus (items : list Status) | RetSpecialUse.

Inductive Operation := OpSet | OpAdd | OpClear.

Inductive Rights :=
| Lookup | Read | RSeen | Write | Insert | Post | CreateMailbox | DeleteMailbox | DeleteMessages
| RExpunge | Administer.

Inductive ModRightsOp := RightsAdd | RightsRemove | RightsReplace.

#[export] Instance Role_eq_dec : EqDecision Role. Proof. solve_decision. Defined.
#[export] Instance Status_eq_dec : EqDecision Status. Proof. solve_decision. Defined.
#[export] Instance SelectionOption_eq_dec : EqDecision SelectionOption. Proof. solve_decision. Defined.
#[export] Instance ReturnOption_eq_dec : EqDecision ReturnOption. Proof. solve_decision. Defined.
#[export] Instance Operation_eq_dec : EqDecision Operation. Proof. solve_decision. Defined.
#[export] Instance Rights_eq_dec : EqDecision Rights. Proof. solve_decision. Defined.
#[export] Instance ModRightsOp_eq_dec : EqDecision ModRightsOp. Proof. solve_decision. Defined.

Record LoginArguments := { login_tag : str; username : str; password : str }.
Record MailboxArguments := { mbox_tag : str; mbox_name : str }.
Record CreateArguments := { create_tag : str; create_name : str; create_role : Role }.
Record RenameArguments := { rename_tag : str; rename_from : str; rename_to : str }.
Record EnableArguments := { enable_tag : str; enable_capabilities : list Capability }.
Record AuthenticateArguments := { auth_tag : str; auth_mechanism : Mechanism; auth_params : list str }.
Record StatusArguments := { status_tag : str; status_mailbox : str; status_items : list Status }.
Record CopyMoveArguments := { cm_tag : str; cm_sequence_set : Sequence; cm_mailbox_name : str }.

Inductive ListArguments :=
| ListBasic (tag reference_name mailbox_name : str)
| ListExtended_ (tag reference_name : str) (mailbox_name : list str)
    (selection_options : list SelectionOption) (return_options : list ReturnOption).

Record StoreArguments := {
  store_tag : str;
  store_sequence_set : Sequence;
  operation : Operation;
  is_silent : bool;
  keywords : list Flag;
  unchanged_since : option Z
}.

Record Message := { msg_bytes : bytes; msg_flags : list Flag; received_at : option Z }.
Record AppendArguments := { append_tag : str; append_mailbox : str; append_messages : list Message }.

Record ModRights := { mr_op : ModRightsOp; mr_rights : list Rights }.
Record AclArguments := {
  acl_tag : str; acl_mailbox : str; acl_identifier : option str; acl_mod_rights : option ModRights
}.

Record QResync_ := {
  qr_uid_validity : Z;
  qr_modseq : Z;
  known_uids : option Sequence;
  seq_match : option (Sequence * Sequence)
}.
Record SelectArguments := {
  select_tag : str; select_mailbox : str; condstore : bool; qresync : option QResync_
}.

(** ** Token iterators *)
Definition tagged {A} (t : str) (r : Res (list Piece) A) : Res StatusResponse A :=
  map_err (tagged_error t) r.
Definition tagged_err {A} (t : str) (m : list Piece) : Res StatusResponse A :=
  Err (tagged_error t m).

(** [tokens.next().ok_or((tag, m))?] *)
Definition next_or {E} (ts : list Token) (e : E) : Res E (Token * list Token) :=
  match ts with tok :: ts' => Ok (tok, ts') | [] => Err e end.
(** [tokens.next().unwrap()] *)
Definition next_unwrap {E} (ts : list Token) : Res E (Token * list Token) :=
  match ts with tok :: ts' => Ok (tok, ts') | [] => Panic end.
(** [tokens.next().map_or(true, |token| !p(token))], and the tokens after it *)
Definition next_is (p : Token -> bool) (ts : list Token) : bool * list Token :=
  match ts with tok :: ts' => (p tok, ts') | [] => (false, []) end.

(** [while let Some(token) = tokens.next()] over the arguments up to a closing
    parenthesis, each one parsed with [f]; any other token is the error [bad]. *)
Fixpoint paren_list {E A} (f : bytes -> Res E A) (bad : E) (ts : list Token)
    : Res E (list A * list Token) :=
  match ts with
  | [] => Ok ([], [])
  | ParenthesisClose :: ts' => Ok ([], ts')
  | Argument value :: ts' =>
      let* x := f value in
      let* (l, rest) := paren_list f bad ts' in
      Ok (x :: l, rest)
  | _ => Err bad
  end.

(** ** Parsers *)

(** [parse_login] *)
Definition parse_login (q : Request Command) : Res StatusResponse LoginArguments :=
  match req_tokens q with
  | [u; p] =>
      let* u := tagged (req_tag q) (unwrap_string u) in
      let* p := tagged (req_tag q) (unwrap_string p) in
      Ok {| login_tag := req_tag q; username := u; password := p |}
  | [] => Err (into_error q (msg "Missing arguments."))
  | _ => Err (into_error q (msg "Too many arguments."))
  end.

(** [parse_delete] and [parse_subscribe] *)
Definition parse_delete (q : Request Command) (version : ProtocolVersion)
    : Res StatusResponse MailboxArguments :=
  match req_tokens q with
  | [m] =>
      let* m := tagged (req_tag q) (unwrap_string m) in
      Ok {| mbox_tag := req_tag q; mbox_name := utf7_maybe_decode m version |}
  | [] => Err (into_error q (msg "Missing mailbox name."))
  | _ => Err (into_error q (msg "Too many arguments."))
  end.
Definition parse_subscribe (q : Request Command) (version : ProtocolVersion)
    : Res StatusResponse MailboxArguments :=
  match req_tokens q with
  | [m] =>
      let* m := tagged (req_tag q) (unwrap_string m) in
      Ok {| mbox_tag := req_tag q; mbox_name := utf7_maybe_decode m version |}
  | [] => Err (into_error q (msg "Missing mailbox name."))
  | _ => Err (into_error q (msg "Too many arguments."))
  end.

(** [parse_rename] *)
Definition parse_rename (q : Request Command) (version : ProtocolVersion)
    : Res StatusResponse RenameArguments :=
  match req_tokens q with
  | [m; n] =>
      let* m := tagged (req_tag q) (unwrap_string m) in
      let* n := tagged (req_tag q) (unwrap_string n) in
      Ok {| rename_tag := req_tag q; rename_from := utf7_maybe_decode m version;
            rename_to := utf7_maybe_decode n version |}
  | [] => Err (into_error q (msg "Missing argument."))
  | [_] => Err (into_error q (msg "Missing new mailbox name."))
  | _ => Err (into_error q (msg "Too many arguments."))
  end.

(** [parse_create] *)
Definition parse_special_use (t : str) (value : bytes) : Res StatusResponse Role :=
  if eq_ignore_ascii_case value (b "\Archive") then Ok RoleArchive
  else if eq_ignore_ascii_case value (b "\Drafts") then Ok RoleDrafts
  else if eq_ignore_ascii_case value (b "\Junk") then Ok RoleJunk
  else if eq_ignore_ascii_case value (b "\Sent") then Ok RoleSent
  else if eq_ignore_ascii_case value (b "\Trash") then Ok RoleTrash
  else if eq_ignore_ascii_case value (b "\Important") then Ok RoleImportant
  else if eq_ignore_ascii_case value (b "\All") then
    tagged_err t [PStr (b "A mailbox with the " ++ [DQUOTE] ++ b "\All" ++ [DQUOTE] ++
                        b " attribute already exists.")]
  else
    tagged_err t [PStr (b "Special use attribute "); PDebugStr (lossy value);
                  PStr (b " is not supported.")].

Definition is_use (tok : Token) : bool :=
  match tok with Argument param => eq_ignore_ascii_case param (b "USE") | _ => false end.

Definition parse_create (q : Request Command) (version : ProtocolVersion)
    : Res StatusResponse CreateArguments :=
  let t := req_tag q in
  if negb (bool_decide (req_tokens q = [])) then
    let* (m, ts) := next_unwrap (req_tokens q) in
    let* m := tagged t (unwrap_string m) in
    let m := utf7_maybe_decode m version in
    let* role :=
      (match ts with
       | ParenthesisOpen :: ts =>
         let (use, ts) := next_is is_use ts in
         if negb use then tagged_err t (msg "Failed to parse, expected 'USE'.")
         else
           let (open, ts) := next_is is_parenthesis_open ts in
           if negb open then tagged_err t (msg "Expected '(' after 'USE'.")
           else match ts with
                | Argument value :: _ => parse_special_use t value
                | _ => tagged_err t (msg "Invalid SPECIAL-USE attribute.")
                end
       | _ => Ok RoleNone
       end) in
    Ok {| create_tag := t; create_name := m; create_role := role |}
  else Err (into_error q (msg "Too many arguments.")).

(** [Capability::parse] and [parse_enable] *)
Definition capability_parse (value : bytes) : Res (list Piece) Capability :=
  if eq_ignore_ascii_case value (b "IMAP4rev2") then Ok IMAP4rev2
  else if eq_ignore_ascii_case value (b "STARTTLS") then Ok CapStartTLS
  else if eq_ignore_ascii_case value (b "LOGINDISABLED") then Ok LoginDisabled
  else if eq_ignore_ascii_case value (b "CONDSTORE") then Ok CondStore
  else if eq_ignore_ascii_case value (b "QRESYNC") then Ok QResync
  else if eq_ignore_ascii_case value (b "UTF8=ACCEPT") then Ok Utf8Accept
  else Err [PStr (b "Unsupported capability '"); PStr (lossy value); PStr (b "'.")].

Fixpoint capabilities_of (t : str) (ts : list Token) : Res StatusResponse (list Capability) :=
  match ts with
  | [] => Ok []
  | tok :: ts' =>
      let* c := tagged t (capability_parse (unwrap_bytes tok)) in
      let* cs := capabilities_of t ts' in
      Ok (c :: cs)
  end.

Definition parse_enable (q : Request Command) : Res StatusResponse EnableArguments :=
  if (0 <? length (req_tokens q))%nat then
    let* cs := capabilities_of (req_tag q) (req_tokens q) in
    Ok {| enable_tag := req_tag q; enable_capabilities := cs |}
  else Err (into_error q (msg "Missing arguments.")).

(** [parse_authenticate]: parameters that are not UTF-8 are dropped. *)
Definition params_of (ts : list Token) : list str :=
  omap (fun tok => match unwrap_string tok with Ok s => Some s | _ => None end) ts.

Definition parse_authenticate (q : Request Command) : Res StatusResponse AuthenticateArguments :=
  if negb (bool_decide (req_tokens q = [])) then
    let* (m, ts) := next_unwrap (req_tokens q) in
    let* m := tagged (req_tag q) (mechanism_parse (unwrap_bytes m)) in
    Ok {| auth_tag := req_tag q; auth_mechanism := m; auth_params := params_of ts |}
  else Err (into_error q (msg "Authentication mechanism missing.")).

(** [Status::parse] and [parse_status] *)
Definition status_parse (value : bytes) : Res (list Piece) Status :=
  if eq_ignore_ascii_case value (b "messages") then Ok StMessages
  else if eq_ignore_ascii_case value (b "uidnext") then Ok StUidNext
  else if eq_ignore_ascii_case value (b "uidvalidity") then Ok StUidValidity
  else if eq_ignore_ascii_case value (b "unseen") then Ok StUnseen
  else if eq_ignore_ascii_case value (b "deleted") then Ok StDeleted
  else if eq_ignore_ascii_case value (b "size") then Ok StSize
  else if eq_ignore_ascii_case value (b "highestmodseq") then Ok StHighestModSeq
  else if eq_ignore_ascii_case value (b "mailboxid") then Ok StMailboxId
  else if eq_ignore_ascii_case value (b "recent") then Ok StRecent
  else Err [PStr (b "Invalid status option '"); PStr (lossy value); PStr (b "'.")].

Definition parse_status (q : Request Command) (version : ProtocolVersion)
    : Res StatusResponse StatusArguments :=
  let t := req_tag q in
  if (length (req_tokens q) <=? 3)%nat then Err (into_error q (msg "Missing arguments."))
  else
    let* (m, ts) := next_unwrap (req_tokens q) in
    let* m := tagged t (unwrap_string m) in
    let (open, ts) := next_is is_parenthesis_open ts in
    if negb open then tagged_err t (msg "Expected parenthesis after mailbox name.")
    else
      let* (items, _) := paren_list (fun v => tagged t (status_parse v))
                           (tagged_error t (msg "Invalid status return option argument.")) ts in
      if negb (bool_decide (items = [])) then
        Ok {| status_tag := t; status_mailbox := utf7_maybe_decode m version; status_items := items |}
      else tagged_err t (msg "At least one status item is required.").

(** [parse_copy_move] *)
Definition parse_copy_move (q : Request Command) : Res StatusResponse CopyMoveArguments :=
  let t := req_tag q in
  if (1 <? length (req_tokens q))%nat then
    let* (s, ts) := next_or (req_tokens q) (tagged_error t (msg "Missing sequence set.")) in
    let* s := tagged t (parse_sequence_set (unwrap_bytes s)) in
    let* (m, ts) := next_or ts (tagged_error t (msg "Missing mailbox name.")) in
    let* m := tagged t (unwrap_string m) in
    Ok {| cm_tag := t; cm_sequence_set := s; cm_mailbox_name := m |}
  else Err (into_error q (msg "Missing arguments.")).

(** [parse_lsub] *)
Definition parse_lsub (q : Request Command) : Res StatusResponse ListArguments :=
  let t := req_tag q in
  if (1 <? length (req_tokens q))%nat then
    let* (r, ts) := next_or (req_tokens q) (tagged_error t (msg "Missing reference name.")) in
    let* r := tagged t (unwrap_string r) in
    let* (m, ts) := next_or ts (tagged_error t (msg "Missing mailbox name.")) in
    let* m := tagged t (unwrap_string m) in
    Ok (ListExtended_ t r [utf7_maybe_decode m Rev1] [SelSubscribed] [])
  else Err (into_error q (msg "Missing arguments.")).

(** [SelectionOption::parse], [ReturnOption::parse] *)
Definition selection_option_parse (value : bytes) : Res (list Piece) SelectionOption :=
  if eq_ignore_ascii_case value (b "subscribed") then Ok SelSubscribed
  else if eq_ignore_ascii_case value (b "remote") then Ok SelRemote
  else if eq_ignore_ascii_case value (b "recursivematch") then Ok SelRecursiveMatch
  else if eq_ignore_ascii_case value (b "special-use") then Ok SelSpecialUse
  else Err [PStr (b "Invalid selection option "); PDebugStr (lossy value); PStr (b ".")].

Definition return_option_parse (value : bytes) : Res (list Piece) ReturnOption :=
  if eq_ignore_ascii_case value (b "subscribed") then Ok RetSubscribed
  else if eq_ignore_ascii_case value (b "children") then Ok RetChildren
  else if eq_ignore_ascii_case value (b "status") then Ok (RetStatus [])
  else if eq_ignore_ascii_case value (b "special-use") then Ok RetSpecialUse
  else Err [PStr (b "Invalid return option "); PDebugStr (lossy value)].

(** [parse_list]: the parenthesized patterns, the RETURN options, the command. *)
Fixpoint list_patterns (t : str) (ts : list Token) : Res StatusResponse (list str * list Token) :=
  match ts with
  | [] => Ok ([], [])
  | ParenthesisClose :: ts' => Ok ([], ts')
  | tok :: ts' =>
      let* s := tagged t (unwrap_string tok) in
      let* (l, rest) := list_patterns t ts' in
      Ok (s :: l, rest)
  end.

Fixpoint return_options (fuel : nat) (t : str) (ts : list Token)
    : Res StatusResponse (list ReturnOption) :=
  match fuel with
  | O => NoFuel
  | S fuel' =>
    match ts with
    | [] => Ok []
    | ParenthesisClose :: _ => Ok []
    | Argument value :: ts =>
      let* o := tagged t (return_option_parse value) in
      let* (o, ts) :=
        (match o with
         | RetStatus _ =>
           let (open, ts) := next_is is_parenthesis_open ts in
           if negb open then
             tagged_err t (msg "Invalid return option, expected parenthesis after STATUS.")
           else
             let* (items, ts) := paren_list (fun v => tagged t (status_parse v))
               (tagged_error t (msg "Invalid status return option argument.")) ts in
             Ok (RetStatus items, ts)
         | _ => Ok (o, ts)
         end) in
      let* l := return_options fuel' t ts in
      Ok (o :: l)
    | _ => tagged_err t (msg "Invalid return option argument.")
    end
  end.

Definition parse_list_extended (t : str) (tokens : list Token) (version : ProtocolVersion)
    : Res StatusResponse ListArguments :=
  let* (first, ts) := next_unwrap tokens in
  let* (selection, reference, ts) :=
    (match first with
     | ParenthesisOpen =>
       let* (selection, ts) := paren_list (fun v => tagged t (selection_option_parse v))
         (tagged_error t (msg "Invalid selection option argument.")) ts in
       let* (r, ts) := next_or ts (tagged_error t (msg "Missing reference name.")) in
       let* r := tagged t (unwrap_string r) in
       Ok (selection, r, ts)
     | token => let* r := tagged t (unwrap_string token) in Ok ([], r, ts)
     end) in
  let* (m, ts) := next_or ts (tagged_error t (msg "Missing mailbox name.")) in
  let* (names, ts) :=
    (match m with
     | ParenthesisOpen => list_patterns t ts
     | token => let* s := tagged t (unwrap_string token) in Ok ([utf7_maybe_decode s version], ts)
     end) in
  let (ret, ts) := next_is (fun tok => token_eq_ignore_ascii_case tok (b "return")) ts in
  let* options :=
    (if ret then
       let (open, ts) := next_is is_parenthesis_open ts in
       if negb open then tagged_err t (msg "Invalid return option, expected parenthesis.")
       else return_options (S (length ts)) t ts
     else Ok []) in
  Ok (ListExtended_ t reference names selection options).

Definition parse_list (q : Request Command) (version : ProtocolVersion)
    : Res StatusResponse ListArguments :=
  let t := req_tag q in
  match req_tokens q with
  | [] | [_] => Err (into_error q (msg "Missing arguments."))
  | [r; m] =>
      let* r := tagged t (unwrap_string r) in
      let* m := tagged t (unwrap_string m) in
      Ok (ListBasic t r (utf7_maybe_decode m version))
  | tokens => parse_list_extended t tokens version
  end.

(** [parse_store] *)
Fixpoint store_params (t : str) (ts : list Token) (since : option Z)
    : Res StatusResponse (option Z * list Token) :=
  match ts with
  | [] => Ok (since, [])
  | tok :: ts' =>
    match tok with
    | ParenthesisClose => Ok (since, ts')
    | Argument param =>
      if eq_ignore_ascii_case param (b "UNCHANGEDSINCE") then
        match ts' with
        | [] => tagged_err t (msg "Missing UNCHANGEDSINCE parameter.")
        | v :: ts'' =>
          let* n := tagged t (parse_number 64 (unwrap_bytes v)) in
          store_params t ts'' (Some n)
        end
      else tagged_err t [PStr (b "Unsupported parameter '"); PStr (token_to_string tok); PStr (b "'.")]
    | _ => tagged_err t [PStr (b "Unsupported parameter '"); PStr (token_to_string tok); PStr (b "'.")]
    end
  end.

Definition store_operation (t : str) (op : bytes) : Res StatusResponse (bool * Operation) :=
  if eq_ignore_ascii_case op (b "FLAGS") then Ok (false, OpSet)
  else if eq_ignore_ascii_case op (b "FLAGS.SILENT") then Ok (true, OpSet)
  else if eq_ignore_ascii_case op (b "+FLAGS") then Ok (false, OpAdd)
  else if eq_ignore_ascii_case op (b "+FLAGS.SILENT") then Ok (true, OpAdd)
  else if eq_ignore_ascii_case op (b "-FLAGS") then Ok (false, OpClear)
  else if eq_ignore_ascii_case op (b "-FLAGS.SILENT") then Ok (true, OpClear)
  else tagged_err t [PStr (b "Unsupported message data item name: "); PDebugStr (lossy op)].

Definition parse_store (q : Request Command) : Res StatusResponse StoreArguments :=
  let t := req_tag q in
  let* (s, ts) := next_or (req_tokens q) (tagged_error t (msg "Missing sequence set.")) in
  let* s := tagged t (parse_sequence_set (unwrap_bytes s)) in
  let* (since, ts) :=
    (match ts with
     | ParenthesisOpen :: ts => store_params t ts None
     | _ => Ok (None, ts)
     end) in
  let* (op, ts) := next_or ts (tagged_error t (msg "Missing message data item name.")) in
  let* (silent, op) := store_operation t (unwrap_bytes op) in
  let* (first, ts) := next_or ts (tagged_error t (msg "Missing flags to set.")) in
  let* flags :=
    (match first with
     | ParenthesisOpen =>
       let* (flags, _) := paren_list (fun v => tagged t (parse_imap v))
         (tagged_error t (msg "Unsupported flag.")) ts in
       Ok flags
     | Argument flag => let* f := tagged t (parse_imap flag) in Ok [f]
     | _ => tagged_err t (msg "Invalid flags parameter.")
     end) in
  if negb (bool_decide (flags = [])) || bool_decide (op = OpSet) then
    Ok {| store_tag := t; store_sequence_set := s; operation := op; is_silent := silent;
          keywords := flags; unchanged_since := since |}
  else tagged_err t (msg "Missing flags to set.").

(** [parse_append] *)
Section Append.
Context `{Chrono}.

(** A message, or a date-time in front of it when more tokens follow. *)
Definition append_message (token : Token) (flags : list Flag) (ts : list Token)
    : Res StatusResponse (Message * list Token) :=
  let bytes := unwrap_bytes token in
  let plain := Ok ({| msg_bytes := bytes; msg_flags := flags; received_at := None |}, ts) in
  if negb (bool_decide (ts = [])) then
    if (length bytes <=? 28)%nat then
      match parse_datetime bytes with
      | Ok date_time =>
        let* (m, ts) := next_unwrap ts in
        Ok ({| msg_bytes := unwrap_bytes m; msg_flags := flags; received_at := Some date_time |}, ts)
      | _ => plain
      end
    else plain
  else plain.

Fixpoint parse_append_messages (fuel : nat) (t : str) (ts : list Token)
    : Res StatusResponse (list Message) :=
  match fuel with
  | O => NoFuel
  | S fuel' =>
    match ts with
    | [] => Ok []
    | token :: ts =>
      let* (flags, token, ts) :=
        (match token with
         | ParenthesisOpen =>
           let* (flags, ts) := paren_list (fun v => tagged t (parse_imap v))
             (tagged_error t (msg "Invalid flag.")) ts in
           let* (token, ts) := next_or ts (tagged_error t (msg "Missing paramaters after flags.")) in
           Ok (flags, token, ts)
         | token => Ok ([], token, ts)
         end) in
      let* (m, ts) := append_message token flags ts in
      let* l := parse_append_messages fuel' t ts in
      Ok (m :: l)
    end
  end.

Definition parse_append (q : Request Command) : Res StatusResponse AppendArguments :=
  let t := req_tag q in
  if (length (req_tokens q) <=? 1)%nat then Err (into_error q (msg "Missing arguments."))
  else
    let* (m, ts) := next_unwrap (req_tokens q) in
    let* m := tagged t (unwrap_string m) in
    let* messages := parse_append_messages (S (length ts)) t ts in
    Ok {| append_tag := t; append_mailbox := m; append_messages := messages |}.
End Append.

(** [ModRights::parse] and [parse_acl] *)
Definition right_of (ch : Z) : option Rights :=
  if ch =? 108 then Some Lookup
  else if ch =? 114 then Some Read
  else if ch =? 115 then Some RSeen
  else if ch =? 119 then Some Write
  else if ch =? 105 then Some Insert
  else if ch =? 112 then Some Post
  else if ch =? 107 then Some CreateMailbox
  else if ch =? 120 then Some DeleteMailbox
  else if ch =? 116 then Some DeleteMessages
  else if ch =? 101 then Some RExpunge
  else if ch =? 97 then Some Administer
  else if ch =? 100 then Some DeleteMessages
  else if ch =? 99 then Some CreateMailbox
  else None.

Fixpoint rights_loop (pos : nat) (value : bytes) (op : ModRightsOp) (rights : list Rights)
    : Res (list Piece) ModRights :=
  match value with
  | [] =>
    if negb (bool_decide (rights = [])) then Ok {| mr_op := op; mr_rights := rights |}
    else Err (msg "At least one right has to be specified.")
  | ch :: value' =>
    match right_of ch with
    | Some r => rights_loop (S pos) value' op (push_unique rights r)
    | None =>
      if (ch =? 43) && (pos =? 0)%nat then rights_loop (S pos) value' RightsAdd rights
      else if (ch =? 45) && (pos =? 0)%nat then rights_loop (S pos) value' RightsRemove rights
      else Err [PStr (b "Invalid character "); PDebugChar ch; PStr (b " in rights.")]
    end
  end.

Definition mod_rights_parse (value : bytes) : Res (list Piece) ModRights :=
  rights_loop 0 value RightsReplace [].

Definition parse_acl (q : Request Command) : Res StatusResponse AclArguments :=
  let t := req_tag q in
  let* (has_identifier, has_mod_rights) :=
    (match req_command q with
     | SetAcl => Ok (true, true)
     | DeleteAcl | ListRights => Ok (true, false)
     | GetAcl | MyRights => Ok (false, false)
     | _ => Panic
     end) in
  let* (m, ts) := next_or (req_tokens q) (tagged_error t (msg "Missing mailbox name.")) in
  let* m := tagged t (unwrap_string m) in
  let* (identifier, ts) :=
    (if has_identifier : bool then
       let* (i, ts) := next_or ts (tagged_error t (msg "Missing identifier.")) in
       let* i := tagged t (unwrap_string i) in
       Ok (Some i, ts)
     else Ok (None, ts)) in
  let* rights :=
    (if has_mod_rights : bool then
       let* (r, _) := next_or ts (tagged_error t (msg "Missing rights.")) in
       let* r := tagged t (mod_rights_parse (unwrap_bytes r)) in
       Ok (Some r)
     else Ok None) in
  Ok {| acl_tag := t; acl_mailbox := m; acl_identifier := identifier; acl_mod_rights := rights |}.

(** [parse_select]: the QRESYNC parameters, the parameter list, the command. *)
Definition known_sequences (t : str) (ts : list Token)
    : Res StatusResponse (option Sequence * bool * list Token) :=
  match ts with
  | Argument value :: ts =>
    let* s := tagged t (parse_sequence_set value) in
    match ts with
    | ParenthesisOpen :: ts => Ok (Some s, true, ts)
    | _ => Ok (Some s, false, ts)
    end
  | ParenthesisOpen :: ts => Ok (None, true, ts)
  | _ => Ok (None, false, ts)
  end.

Definition sequence_match (t : str) (ts : list Token)
    : Res StatusResponse ((Sequence * Sequence) * list Token) :=
  let* (a, ts) := next_or ts
    (tagged_error t (msg "Missing known-sequence-set parameter for QRESYNC.")) in
  let* a := tagged t (parse_sequence_set (unwrap_bytes a)) in
  let* (c, ts) := next_or ts (tagged_error t (msg "Missing known-uid-set parameter for QRESYNC.")) in
  let* c := tagged t (parse_sequence_set (unwrap_bytes c)) in
  let (close, ts) := next_is is_parenthesis_close ts in
  if negb close then tagged_err t (msg "Missing ')' for 'QRESYNC'.") else Ok ((a, c), ts).

Definition parse_qresync (t : str) (ts : list Token) : Res StatusResponse (QResync_ * list Token) :=
  let (open, ts) := next_is is_parenthesis_open ts in
  if negb open then tagged_err t (msg "Expected '(' after 'QRESYNC'.")
  else
    let* (v, ts) := next_or ts (tagged_error t (msg "Missing uidvalidity parameter for QRESYNC.")) in
    let* uid_validity := tagged t (parse_number 32 (unwrap_bytes v)) in
    let* (v, ts) := next_or ts (tagged_error t (msg "Missing modseq parameter for QRESYNC.")) in
    let* modseq := tagged t (parse_number 64 (unwrap_bytes v)) in
    let* (known, has_seq_match, ts) := known_sequences t ts in
    let* (m, ts) :=
      (if has_seq_match : bool then
         let* (m, ts) := sequence_match t ts in Ok (Some m, ts)
       else Ok (None, ts)) in
    let (close, ts) := next_is is_parenthesis_close ts in
    if negb close then tagged_err t (msg "Missing ')' for 'QRESYNC'.")
    else
      Ok ({| qr_uid_validity := uid_validity; qr_modseq := modseq; known_uids := known;
             seq_match := m |}, ts).

Definition unexpected {A} (t : str) (tok : Token) : Res StatusResponse A :=
  Err (with_tag (sr_bad [PStr (b "Unexpected value '"); PStr (token_to_string tok); PStr (b "'.")]) t).

Fixpoint select_params (fuel : nat) (t : str) (ts : list Token) (cs : bool) (qr : option QResync_)
    : Res StatusResponse (bool * option QResync_) :=
  match fuel with
  | O => NoFuel
  | S fuel' =>
    match ts with
    | [] => Ok (cs, qr)
    | tok :: ts =>
      match tok with
      | Argument param =>
        if eq_ignore_ascii_case param (b "CONDSTORE") then select_params fuel' t ts true qr
        else if eq_ignore_ascii_case param (b "QRESYNC") then
          let* (r, ts) := parse_qresync t ts in
          select_params fuel' t ts cs (Some r)
        else unexpected t tok
      | ParenthesisClose => Ok (cs, qr)
      | _ => unexpected t tok
      end
    end
  end.

Definition parse_select (q : Request Command) (version : ProtocolVersion)
    : Res StatusResponse SelectArguments :=
  let t := req_tag q in
  if negb (bool_decide (req_tokens q = [])) then
    let* (m, ts) := next_unwrap (req_tokens q) in
    let* m := tagged t (unwrap_string m) in
    let* (cs, qr) :=
      (match ts with
       | ParenthesisOpen :: ts => select_params (S (length ts)) t ts false None
       | tok :: _ => unexpected t tok
       | [] => Ok (false, None)
       end) in
    Ok {| select_tag := t; select_mailbox := utf7_maybe_decode m version; condstore := cs; qresync := qr |}
  else Err (into_error q (msg "Missing mailbox name.")).

(** ** Lemmas *)

Lemma returns_tagged {A} t (r : Res (list Piece) A) : returns r -> returns (tagged t r).
Proof. apply returns_map_err. Qed.

Lemma returns_unwrap_string tok : returns (unwrap_string tok).
Proof. destruct tok; simpl; auto with imap; done. Qed.

Lemma returns_next_or {E} ts (e : E) : returns (next_or ts e).
Proof. by destruct ts. Qed.

Lemma returns_parse_number w v : returns (parse_number w v).
Proof. unfold parse_number. case_match; auto with imap; done. Qed.

#[export] Hint Resolve returns_tagged returns_unwrap_string returns_next_or returns_parse_number : imap.

Lemma returns_parse_sequence_set v : returns (parse_sequence_set v).
Proof.
  assert (Hn : forall st p, returns (seq_token v st p)).
  { intros. unfold seq_token, seq_number. returns_tac. }
  unfold parse_sequence_set. generalize seq_init O.
  assert (Hc : forall st p ch, returns (seq_char v st p ch)).
  { intros. unfold seq_char, seq_colon, seq_star, seq_dollar, seq_digit, seq_err, seq_number.
    returns_tac. }
  assert (He : forall st p a, returns (seq_emit v st p a)).
  { intros. unfold seq_emit. returns_tac. }
  intros st p. remember v as rest eqn:E. rewrite E in Hc, He |- * at 1. clear E Hn.
  revert st p; induction rest as [|ch rest IH]; intros st p; simpl.
  - unfold seq_finish. by repeat case_match.
  - apply returns_bind; [apply Hc|]. intros [st' a|s] _; [|done].
    case_match; [|apply IH]. apply returns_bind; [apply He|]. intros; apply IH.
Qed.

Lemma paren_list_returns {E A} (f : bytes -> Res E A) bad ts :
  (forall v, returns (f v)) -> returns (paren_list f bad ts).
Proof.
  intros Hf. induction ts as [|tok ts IH]; simpl; [done|].
  destruct tok; try done. apply returns_bind; [done|]. intros. apply returns_bind; [done|].
  by intros [? ?] _.
Qed.

Lemma paren_list_shorter {E A} (f : bytes -> Res E A) bad ts l rest :
  paren_list f bad ts = Ok (l, rest) -> (length rest <= length ts)%nat.
Proof.
  revert l rest; induction ts as [|tok ts IH]; intros l rest; simpl; [intros; by simplify_eq|].
  destruct tok; try done; [|intros; simplify_eq; lia].
  intros (a & _ & (lr & Hl & ?)%res_bind_ok)%res_bind_ok. destruct lr. simplify_eq.
  apply IH in Hl. lia.
Qed.

Lemma returns_capability_parse v : returns (capability_parse v).
Proof. unfold capability_parse. by repeat case_match. Qed.
Lemma returns_mechanism_parse v : returns (mechanism_parse v).
Proof. unfold mechanism_parse. by repeat case_match. Qed.
Lemma returns_status_parse v : returns (status_parse v).
Proof. unfold status_parse. by repeat case_match. Qed.
Lemma returns_selection_option_parse v : returns (selection_option_parse v).
Proof. unfold selection_option_parse. by repeat case_match. Qed.
Lemma returns_return_option_parse v : returns (return_option_parse v).
Proof. unfold return_option_parse. by repeat case_match. Qed.
Lemma returns_parse_special_use t v : returns (parse_special_use t v).
Proof. unfold parse_special_use. by repeat case_match. Qed.
Lemma returns_store_operation t v : returns (store_operation t v).
Proof. unfold store_operation. by repeat case_match. Qed.

Lemma returns_mod_rights_parse v : returns (mod_rights_parse v).
Proof.
  unfold mod_rights_parse. generalize O RightsReplace (@nil Rights).
  induction v as [|ch v IH]; intros; simpl; repeat case_match; auto; done.
Qed.

Lemma returns_capabilities_of t ts : returns (capabilities_of t ts).
Proof.
  induction ts as [|tok ts IH]; simpl; [done|]. apply returns_bind.
  - apply returns_tagged, returns_capability_parse.
  - intros. by apply returns_bind.
Qed.

Lemma returns_list_patterns t ts : returns (list_patterns t ts).
Proof.
  induction ts as [|tok ts IH]; simpl; [done|].
  destruct tok; try done; (apply returns_bind; [auto with imap; done|]); intros; apply returns_bind;
    try done; by intros [? ?].
Qed.

Lemma returns_store_params t ts since : returns (store_params t ts since).
Proof.
  remember (length ts) as n eqn:Hn. revert ts since Hn.
  induction n as [n IH] using lt_wf_ind; intros ts since Hn.
  destruct ts as [|tok ts]; simpl; [done|]. destruct tok; try done.
  case_match; [|done]. destruct ts as [|v ts]; [done|]. apply returns_bind; [auto with imap|].
  intros. eapply IH; [|reflexivity]. simpl in Hn. lia.
Qed.

#[export] Hint Resolve returns_parse_sequence_set returns_capability_parse returns_mechanism_parse
  returns_status_parse returns_selection_option_parse returns_return_option_parse
  returns_parse_special_use returns_store_operation returns_mod_rights_parse
  returns_capabilities_of returns_list_patterns returns_store_params paren_list_returns : imap.

Lemma next_is_shorter p ts x rest : next_is p ts = (x, rest) -> (length rest <= length ts)%nat.
Proof. destruct ts; simpl; intros; simplify_eq; simpl; lia. Qed.

Lemma next_or_shorter {E} ts (e : E) tok rest :
  next_or ts e = Ok (tok, rest) -> (length rest < length ts)%nat.
Proof. destruct ts; simpl; intros; simplify_eq; simpl; lia. Qed.

Lemma returns_return_options fuel t ts :
  (length ts < fuel)%nat -> returns (return_options fuel t ts).
Proof.
  revert ts; induction fuel as [|fuel IH]; intros ts Hl; [lia|]. simpl.
  destruct ts as [|[v| | | | | | | |] ts]; try done. simpl in Hl.
  apply returns_bind; [auto with imap|]. intros o _.
  assert (Hlast : forall o (ts' : list Token), (length ts' <= length ts)%nat ->
    returns (let* l := return_options fuel t ts' in Ok (o :: l))).
  { intros. apply returns_bind; [apply IH; lia | done]. }
  destruct o; simpl; try (apply Hlast; lia).
  destruct (next_is _ ts) as [open ts1] eqn:E1. apply next_is_shorter in E1.
  destruct (negb open); [done|]. apply returns_bind.
  - apply returns_bind; [auto with imap|]. by intros [? ?].
  - intros [o ts2] (x & Hx & E2)%res_bind_ok. destruct x. simplify_eq.
    apply paren_list_shorter in Hx. apply Hlast. lia.
Qed.

Lemma append_message_shorter `{Chrono} token flags ts :
  exists m ts', append_message token flags ts = Ok (m, ts') /\ (length ts' <= length ts)%nat.
Proof.
  unfold append_message. destruct ts as [|tok ts]; simpl; [by do 2 eexists|].
  destruct (length (unwrap_bytes token) <=? 28)%nat; [|by do 2 eexists].
  destruct (parse_datetime _); (do 2 eexists; split; [reflexivity|]); simpl; lia.
Qed.

Lemma returns_append_messages `{Chrono} fuel t ts :
  (length ts < fuel)%nat -> returns (parse_append_messages fuel t ts).
Proof.
  revert ts; induction fuel as [|fuel IH]; intros ts Hl; [lia|]. simpl.
  destruct ts as [|token ts]; [done|]. simpl in Hl. apply returns_bind.
  - destruct token; try done. apply returns_bind; [auto with imap|]. intros [? ?] _.
    apply returns_bind; [auto with imap|]. by intros [? ?].
  - intros [[flags tok] ts1] Ht.
    assert (Hle : (length ts1 <= length ts)%nat).
    { destruct token; simplify_eq; try lia.
      apply res_bind_ok in Ht as ([? ?] & Hp%paren_list_shorter & Ht).
      apply res_bind_ok in Ht as ([? ?] & Hn%next_or_shorter & Ht). simplify_eq. lia. }
    destruct (append_message_shorter tok flags ts1) as (m & ts' & -> & Hle'). simpl.
    apply returns_bind; [apply IH; lia | done].
Qed.

Lemma known_sequences_shorter t ts k h rest :
  known_sequences t ts = Ok (k, h, rest) -> (length rest <= length ts)%nat.
Proof.
  unfold known_sequences. destruct ts as [|[v| | | | | | | |] ts]; intros Hk; simplify_eq; simpl; try lia.
  apply res_bind_ok in Hk as (s & _ & Hk). destruct ts as [|[| | | | | | | |] ts]; simplify_eq; simpl; lia.
Qed.

Lemma sequence_match_shorter t ts m rest :
  sequence_match t ts = Ok (m, rest) -> (length rest <= length ts)%nat.
Proof.
  unfold sequence_match. intros ([a ts1] & H1%next_or_shorter & H)%res_bind_ok.
  apply res_bind_ok in H as (? & _ & H). apply res_bind_ok in H as ([c ts2] & H2%next_or_shorter & H).
  apply res_bind_ok in H as (? & _ & H).
  destruct (next_is _ ts2) as [? ?] eqn:E; apply next_is_shorter in E. case_match; simplify_eq. lia.
Qed.

Lemma parse_qresync_shorter t ts r rest :
  parse_qresync t ts = Ok (r, rest) -> (length rest <= length ts)%nat.
Proof.
  unfold parse_qresync. destruct (next_is _ ts) as [open ts0] eqn:E0; apply next_is_shorter in E0.
  destruct (negb open); [done|]. intros ([v ts1] & H1%next_or_shorter & H)%res_bind_ok.
  apply res_bind_ok in H as (? & _ & H). apply res_bind_ok in H as ([c ts2] & H2%next_or_shorter & H).
  apply res_bind_ok in H as (? & _ & H). apply res_bind_ok in H as ([[k h] ts3] & H3%known_sequences_shorter & H).
  apply res_bind_ok in H as ([m ts4] & H4 & H).
  assert (length ts4 <= length ts3)%nat.
  { destruct h; [|by simplify_eq]. apply res_bind_ok in H4 as ([? ?] & H4%sequence_match_shorter & ?).
    by simplify_eq. }
  destruct (next_is _ ts4) as [? ?] eqn:E; apply next_is_shorter in E. case_match; simplify_eq. lia.
Qed.

Lemma returns_parse_qresync t ts : returns (parse_qresync t ts).
Proof.
  unfold parse_qresync, known_sequences, sequence_match.
  destruct (next_is _ ts) as [open ts0]. destruct (negb open); [done|]. returns_tac.
Qed.

Lemma returns_select_params fuel t ts cs qr :
  (length ts < fuel)%nat -> returns (select_params fuel t ts cs qr).
Proof.
  revert ts cs qr; induction fuel as [|fuel IH]; intros ts cs qr Hl; [lia|]. simpl.
  destruct ts as [|[v| | | | | | | |] ts]; try done. simpl in Hl.
  case_match; [apply IH; lia|]. case_match; [|done].
  apply returns_bind; [apply returns_parse_qresync|].
  intros [r ts1] Hq%parse_qresync_shorter. apply IH. lia.
Qed.

#[local] Hint Resolve returns_return_options returns_append_messages returns_select_params : imap.

Ltac parser_returns :=
  unfold tagged_err, unexpected; repeat (case_match; try done); returns_tac.

Lemma returns_parse_create q v : returns (parse_create q v).
Proof.
  unfold parse_create. case_match; [|done]. destruct (req_tokens q) as [|m ts]; [done|]. simpl.
  apply returns_bind; [auto with imap|]. intros m' _. apply returns_bind; [|done].
  destruct ts as [|[| | | | | | | |] ts]; try done.
  destruct (next_is is_use ts) as [use ts1]. case_match; [done|].
  destruct (next_is _ ts1) as [open ts2]. case_match; [done|].
  destruct ts2 as [|[| | | | | | | |] ?]; try done. auto with imap.
Qed.

Lemma returns_parse_status q v : returns (parse_status q v).
Proof.
  unfold parse_status. destruct (req_tokens q) as [|m ts]; [done|]. case_match; [done|]. simpl.
  apply returns_bind; [auto with imap|]. intros m' _.
  destruct (next_is _ ts) as [open ts1]. case_match; [done|].
  apply returns_bind; [auto with imap|]. intros [items ?] _. by case_match.
Qed.

Lemma returns_parse_list_extended t first ts v : returns (parse_list_extended t (first :: ts) v).
Proof.
  unfold parse_list_extended. simpl. apply returns_bind.
  { destruct first; try (apply returns_bind; [auto with imap|done]); try done.
    apply returns_bind; [auto with imap|]. intros [? ?] _. apply returns_bind; [auto with imap|].
    intros [? ?] _. by apply returns_bind; [auto with imap|]. }
  intros [[sel ref] ts1] _. apply returns_bind; [auto with imap|]. intros [m ts2] _.
  apply returns_bind.
  { destruct m; try done; try (apply returns_bind; [auto with imap|done]). auto with imap. }
  intros [names ts3] _. destruct (next_is _ ts3) as [ret ts4]. apply returns_bind; [|done].
  destruct ret; [|done]. destruct (next_is _ ts4) as [open ts5].
  destruct (negb open); [done|].
  exact (returns_return_options (S (length ts5)) t ts5 (Nat.lt_succ_diag_r _)).
Qed.

Lemma returns_parse_store q : returns (parse_store q).
Proof.
  unfold parse_store. apply returns_bind; [auto with imap|]. intros [s ts] _.
  apply returns_bind; [auto with imap|]. intros s' _.
  apply returns_bind; [destruct ts as [|[| | | | | | | |] ts]; try done; auto with imap|].
  intros [since ts1] _. apply returns_bind; [auto with imap|]. intros [op ts2] _.
  apply returns_bind; [auto with imap|]. intros [silent op'] _.
  apply returns_bind; [auto with imap|]. intros [first ts3] _.
  apply returns_bind; [|intros; by repeat case_match].
  destruct first; try done; (apply returns_bind; [auto with imap|]); try done. by intros [? ?].
Qed.

Lemma returns_parse_append `{Chrono} q : returns (parse_append q).
Proof.
  unfold parse_append. destruct (req_tokens q) as [|m ts]; [done|]. case_match; [done|]. simpl.
  apply returns_bind; [auto with imap|]. intros m' _.
  apply returns_bind; [|done].
  exact (returns_append_messages (S (length ts)) _ ts (Nat.lt_succ_diag_r _)).
Qed.

Lemma returns_parse_select q v : returns (parse_select q v).
Proof.
  unfold parse_select. destruct (req_tokens q) as [|m ts]; [done|]. simpl.
  apply returns_bind; [auto with imap|]. intros m' _. apply returns_bind; [|by intros [? ?]].
  destruct ts as [|[| | | | | | | |] ts]; try done.
  exact (returns_select_params (S (length ts)) _ ts _ _ (Nat.lt_succ_diag_r _)).
Qed.

Lemma returns_parse_acl q :
  match req_command q with
  | SetAcl | DeleteAcl | GetAcl | ListRights | MyRights => returns (parse_acl q)
  | _ => parse_acl q = Panic
  end.
Proof.
  unfold parse_acl. destruct (req_command q); try done; simpl;
    (apply returns_bind; [auto with imap|]); intros [m ts] _; (apply returns_bind; [auto with imap|]);
    intros m' _; simpl; try done; (apply returns_bind;
      [apply returns_bind; [auto with imap|]; intros [? ?] _; apply returns_bind; auto with imap; done|]);
    intros [? ?] _; simpl; try done.
  apply returns_bind; [|done]. apply returns_bind; [auto with imap|]. intros [? ?] _.
  apply returns_bind; [auto with imap|done].
Qed.

Lemma returns_parse_login q : returns (parse_login q).
Proof. unfold parse_login. parser_returns. Qed.
Lemma returns_parse_delete q v : returns (parse_delete q v).
Proof. unfold parse_delete. parser_returns. Qed.
Lemma returns_parse_subscribe q v : returns (parse_subscribe q v).
Proof. unfold parse_subscribe. parser_returns. Qed.
Lemma returns_parse_rename q v : returns (parse_rename q v).
Proof. unfold parse_rename. parser_returns. Qed.
Lemma returns_parse_enable q : returns (parse_enable q).
Proof. unfold parse_enable. parser_returns. Qed.
Lemma returns_parse_authenticate q : returns (parse_authenticate q).
Proof. unfold parse_authenticate. destruct (req_tokens q); simpl; [done|]. parser_returns. Qed.
Lemma returns_parse_copy_move q : returns (parse_copy_move q).
Proof. unfold parse_copy_move. parser_returns. Qed.
Lemma returns_parse_lsub q : returns (parse_lsub q).
Proof. unfold parse_lsub. parser_returns. Qed.
Lemma returns_parse_list q v : returns (parse_list q v).
Proof.
  unfold parse_list. destruct (req_tokens q) as [|? [|? [|? ?]]]; try done; [parser_returns|].
  apply returns_parse_list_extended.
Qed.

#[export] Hint Resolve returns_parse_login returns_parse_delete returns_parse_subscribe returns_parse_rename
  returns_parse_enable returns_parse_authenticate returns_parse_copy_move returns_parse_lsub returns_parse_list
  returns_parse_create returns_parse_status returns_parse_store returns_parse_append returns_parse_select : imap.

(** ** Properties *)

(** No request can bring a parser down: on every token list each parser answers
    with arguments or with an error response; the loops always end, no [unwrap]
    fails, and [unreachable!()] in [parse_acl] is reached only with a command that
    is not an ACL command. *)
Theorem parsers_return `{Chrono} q v :
  returns (parse_login q) /\ returns (parse_delete q v) /\ returns (parse_subscribe q v) /\
  returns (parse_rename q v) /\ returns (parse_create q v) /\ returns (parse_enable q) /\
  returns (parse_authenticate q) /\ returns (parse_status q v) /\ returns (parse_copy_move q) /\
  returns (parse_lsub q) /\ returns (parse_list q v) /\ returns (parse_store q) /\
  returns (parse_append q) /\ returns (parse_select q v) /\
  match req_command q with
  | SetAcl | DeleteAcl | GetAcl | ListRights | MyRights => returns (parse_acl q)
  | _ => parse_acl q = Panic
  end.
Proof.
  split_and!; auto with imap. apply returns_parse_acl.
Qed.

(** LOGIN takes the credentials verbatim: two quoted strings, or literals, of any
    UTF-8 text (also empty, also with quotes and backslashes) are the user name and the
    password of the command. *)
Theorem parse_login_verbatim t u p ns ns' :
  valid_utf8 u -> valid_utf8 p ->
  parse_login (mkRequest t Login (map arg_token [QuotedArg u; QuotedArg p])) =
    Ok {| login_tag := t; username := u; password := p |} /\
  parse_login (mkRequest t Login (map arg_token [LiteralArg ns u; LiteralArg ns' p])) =
    Ok {| login_tag := t; username := u; password := p |}.
Proof.
  intros Hu Hp.
  assert (Hs : forall s, valid_utf8 s -> unwrap_string (if bool_decide (s = []) then Nil_ else Argument s) = Ok s).
  { intros s [cs Hcs]. case_bool_decide as H; [by subst|]. simpl. unfold from_utf8. by rewrite Hcs. }
  unfold parse_login; simpl; rewrite !Hs by done; done.
Qed.

Lemma parse_login_verbatim_witness :
  parse_login (mkRequest (b "a") Login (map arg_token [QuotedArg (b "bill"); QuotedArg []])) =
    Ok {| login_tag := b "a"; username := b "bill"; password := [] |}.
Proof.
  apply (parse_login_verbatim (b "a") (b "bill") [] true true); by eexists.
Defined.

(** RENAME in a IMAP4rev1 session decodes both mailbox names from modified UTF-7:
    names the server itself would encode come back unchanged. *)
Theorem parse_rename_utf7 t m n :
  Forall is_bmp m -> Forall is_bmp n -> m <> [] -> n <> [] ->
  parse_rename (mkRequest t Rename
      (map arg_token [QuotedArg (utf7_encode (encode m)); QuotedArg (utf7_encode (encode n))])) Rev1 =
    Ok {| rename_tag := t; rename_from := encode m; rename_to := encode n |}.
Proof.
  intros Hm Hn Hm0 Hn0.
  assert (Hs : forall m, Forall is_bmp m -> m <> [] ->
    exists x, arg_token (QuotedArg (utf7_encode (encode m))) = x /\
              unwrap_string x = Ok (utf7_encode (encode m)) /\
              utf7_maybe_decode (utf7_encode (encode m)) Rev1 = encode m).
  { clear. intros m Hm Hm0. eexists; split; [reflexivity|].
    pose proof (utf7_roundtrip_text m Hm) as Hr. split.
    - simpl. case_bool_decide as He.
      + by rewrite He.
      + simpl. rewrite from_utf8_ascii; [done|].
        eapply Forall_impl; [|by apply utf7_encode_ascii]. simpl. lia.
    - unfold utf7_maybe_decode. simpl. by rewrite Hr. }
  destruct (Hs m Hm Hm0) as (x & Ex & Ux & Dx). destruct (Hs n Hn Hn0) as (y & Ey & Uy & Dy).
  cbn [map]. rewrite Ex, Ey. unfold parse_rename. cbn [req_tokens req_tag]. rewrite Ux, Uy.
  simpl tagged. cbn [res_bind]. by rewrite Dx, Dy.
Qed.

Lemma parse_rename_utf7_witness :
  parse_rename (mkRequest (b "a") Rename (map arg_token [QuotedArg (b "&AOk-t&AOk-"); QuotedArg (b "A&-B")])) Rev1 =
    Ok {| rename_tag := b "a"; rename_from := encode [233; 116; 233]; rename_to := b "A&B" |}.
Proof.
  apply (parse_rename_utf7 (b "a") [233; 116; 233] [65; 38; 66]);
    try discriminate; repeat constructor; unfold is_bmp; lia.
Defined.

(** STORE means what the client wrote: a sequence set, an optional UNCHANGEDSINCE
    modifier, an operation in any case of letters, and a parenthesized list of flags
    parse to exactly these, and an empty flag list is accepted for replacing only. *)
Theorem parse_store_verbatim t uid items since op silent name flags :
  Forall item_ok items -> items <> [] ->
  match since with Some n => is_u64 n | None => True end ->
  store_operation t name = Ok (silent, op) -> Forall imap_canonical flags ->
  parse_store (mkRequest t (Store uid)
    (Argument (items_text items)
     :: match since with
        | Some n => [ParenthesisOpen; Argument (b "UNCHANGEDSINCE"); Argument (dec n); ParenthesisClose]
        | None => []
        end
     ++ [Argument name; ParenthesisOpen] ++ map (fun f => Argument (flag_serialize f)) flags
     ++ [ParenthesisClose])) =
  if negb (bool_decide (flags = [])) || bool_decide (op = OpSet) then
    Ok {| store_tag := t;
          store_sequence_set := match items with [s] => s | _ => List items end;
          operation := op; is_silent := silent; keywords := flags; unchanged_since := since |}
  else tagged_err t (msg "Missing flags to set.").
Proof.
  intros Hi Hne Hs Hop Hf. unfold parse_store. cbn [req_tokens req_tag next_or res_bind unwrap_bytes].
  rewrite parse_items by done. simpl tagged. cbn [res_bind].
  assert (Hflags : paren_list (fun v => tagged t (parse_imap v)) (tagged_error t (msg "Unsupported flag."))
      (map (fun f => Argument (flag_serialize f)) flags ++ [ParenthesisClose]) = Ok (flags, [])).
  { clear -Hf. induction Hf as [|f flags Hf _ IH]; [done|]. simpl.
    rewrite parse_imap_roundtrip by done. simpl. by rewrite IH. }
  destruct since as [n|]; simpl app.
  - cbn [store_params]. replace (eq_ignore_ascii_case _ _) with true by reflexivity.
    unfold unwrap_bytes at 1. rewrite parse_number_dec_width by exact Hs. cbn [res_bind tagged map_err].
    cbn [next_or res_bind unwrap_bytes]. rewrite Hop. cbn [res_bind next_or]. by rewrite Hflags.
  - cbn [next_or res_bind unwrap_bytes]. rewrite Hop. cbn [res_bind next_or]. by rewrite Hflags.
Qed.

Lemma parse_store_verbatim_witness :
  parse_store (mkRequest (b "a") (Store true)
    [Argument (b "1,5:*"); ParenthesisOpen; Argument (b "UNCHANGEDSINCE"); Argument (b "12"); ParenthesisClose;
     Argument (b "+flags.silent"); ParenthesisOpen; Argument (b "\Seen"); Argument (b "$x"); ParenthesisClose]) =
  Ok {| store_tag := b "a"; store_sequence_set := List [Number 1; Range (Some 5) None];
        operation := OpAdd; is_silent := true; keywords := [Seen; Keyword (b "$x")];
        unchanged_since := Some 12 |}.
Proof.
  apply (parse_store_verbatim (b "a") true [Number 1; Range (Some 5) None] (Some 12) OpAdd true
    (b "+flags.silent") [Seen; Keyword (b "$x")]).
  - repeat constructor; unfold is_u32; lia.
  - discriminate.
  - unfold is_u64. lia.
  - reflexivity.
  - repeat constructor; [discriminate | by eexists].
Defined.
