(* ===== verification/ParseSearch.v ===== *)
(** * SEARCH, SORT and THREAD arguments

    [src/parser/search.rs], [src/parser/sort.rs], [src/parser/thread.rs] and
    the data of [src/protocol/search.rs], [src/protocol/thread.rs].  The search
    key parser keeps an explicit stack of open OR, NOT and parenthesis frames;
    the theorems relate it to the recursive grammar of RFC 3501.  The charset
    decoders ([mail_parser]) and the calendar ([chrono]) are parameters. *)

From S2P Require Import Prelude Utf8 Utf7 Types Receiver Flags Sequence Wire Commands Parsers.

(** [query::Operator] of the JMAP client library: the values the server uses. *)
Inductive Operator := And | Or | Not.

#[export] Instance Operator_eq_dec : EqDecision Operator.
Proof. solve_decision. Defined.

Inductive ModSeqEntry := MsShared (f : Flag) | MsPrivate (f : Flag) | MsAll (f : Flag) | MsNone.

#[warnings="-register-all"]
Inductive Filter :=
| FSequence (s : Sequence) (uid : bool)
| FAll | FAnswered | FBcc (s : str) | FBefore (d : Z) | FBody (s : str) | FCc (s : str)
| FDeleted | FDraft | FFlagged | FFrom (s : str) | FHeader (n v : str) | FKeyword (f : Flag)
| FLarger (n : Z) | FOn (d : Z) | FSeen | FSentBefore (d : Z) | FSentOn (d : Z)
| FSentSince (d : Z) | FSince (d : Z) | FSmaller (n : Z) | FSubject (s : str) | FText (s : str)
| FTo (s : str) | FUnanswered | FUndeleted | FUndraft | FUnflagged | FUnkeyword (f : Flag)
| FUnseen
| FOperator (op : Operator) (filters : list Filter)
| FRecent | FNew | FOld
| FOlder (n : Z) | FYounger (n : Z)
| FModSeq (n : Z) (entry : ModSeqEntry)
| FEmailId (s : str) | FThreadId (s : str).

Inductive ResultOption := RMin | RMax | RAll | RCount | RSave | RContext.

Inductive Sort :=
| SArrival | SCc | SDate | SFrom | SDisplayFrom | SSize | SSubject | STo | SDisplayTo.

#[export] Instance ResultOption_eq_dec : EqDecision ResultOption. Proof. solve_decision. Defined.
#[export] Instance Sort_eq_dec : EqDecision Sort. Proof. solve_decision. Defined.

Record Comparator := { cmp_sort : Sort; ascending : bool }.

Record SearchArguments := {
  search_tag : str;
  is_esearch : bool;
  search_sort : option (list Comparator);
  result_options : list ResultOption;
  search_filter : Filter
}.

Inductive Algorithm := OrderedSubject | References.
Record ThreadArguments := { thread_tag : str; thread_filter : Filter; thread_algorithm : Algorithm }.

(** [get_charset_decoder] of the [mail_parser] crate. *)
Class Charsets := get_charset_decoder : bytes -> option (bytes -> str).

(** [ResultOption::parse], [Sort::parse], [Algorithm::parse] *)
Definition result_option_parse (value : bytes) : Res (list Piece) ResultOption :=
  if eq_ignore_ascii_case value (b "min") then Ok RMin
  else if eq_ignore_ascii_case value (b "max") then Ok RMax
  else if eq_ignore_ascii_case value (b "all") then Ok RAll
  else if eq_ignore_ascii_case value (b "count") then Ok RCount
  else if eq_ignore_ascii_case value (b "save") then Ok RSave
  else if eq_ignore_ascii_case value (b "context") then Ok RContext
  else Err [PStr (b "Invalid result option "); PDebugStr (lossy value)].

Definition sort_parse (value : bytes) : Res (list Piece) Sort :=
  if eq_ignore_ascii_case value (b "ARRIVAL") then Ok SArrival
  else if eq_ignore_ascii_case value (b "CC") then Ok SCc
  else if eq_ignore_ascii_case value (b "DATE") then Ok SDate
  else if eq_ignore_ascii_case value (b "FROM") then Ok SFrom
  else if eq_ignore_ascii_case value (b "SIZE") then Ok SSize
  else if eq_ignore_ascii_case value (b "SUBJECT") then Ok SSubject
  else if eq_ignore_ascii_case value (b "TO") then Ok STo
  else if eq_ignore_ascii_case value (b "DISPLAYFROM") then Ok SDisplayFrom
  else if eq_ignore_ascii_case value (b "DISPLAYTO") then Ok SDisplayTo
  else Err [PStr (b "Invalid sort criteria "); PDebugStr (lossy value)].

Definition algorithm_parse (value : bytes) : Res (list Piece) Algorithm :=
  if eq_ignore_ascii_case value (b "ORDEREDSUBJECT") then Ok OrderedSubject
  else if eq_ignore_ascii_case value (b "REFERENCES") then Ok References
  else Err [PStr (b "Invalid threading algorithm "); PDebugStr (lossy value)].

(** [parse_result_options] *)
Definition parse_result_options (ts : list Token)
    : Res (list Piece) (list ResultOption * list Token) :=
  let (open, ts) := next_is is_parenthesis_open ts in
  if negb open then Err (msg "Invalid result option, expected parenthesis.")
  else paren_list result_option_parse (msg "Invalid result option argument.") ts.

(** [str::split_once('-')], the part after the separator *)
Fixpoint after_dash (s : str) : option str :=
  match s with
  | [] => None
  | c :: s' => if c =? 45 then Some s' else after_dash s'
  end.

Definition all_digits (s : bytes) : bool := forallb is_ascii_digit s.

Section Search.
Context `{Chrono} `{Charsets}.

(** [decode_argument] *)
Definition decode_argument (ts : list Token) (decoder : option (bytes -> str))
    : Res (list Piece) (str * list Token) :=
  let* (argument, ts) := next_or ts (msg "Expected string.") in
  let argument := unwrap_bytes argument in
  match decoder with
  | Some decoder => Ok (decoder argument, ts)
  | None => let* s := ok_or (from_utf8 argument) (msg "Invalid UTF-8 argument.") in Ok (s, ts)
  end.

(** A key with one argument of each kind. *)
Definition string_key (c : str -> Filter) (decoder : option (bytes -> str)) (ts : list Token)
    : Res (list Piece) (Filter * list Token) :=
  let* (s, ts) := decode_argument ts decoder in Ok (c s, ts).
Definition date_key (c : Z -> Filter) (ts : list Token) : Res (list Piece) (Filter * list Token) :=
  let* (v, ts) := next_or ts (msg "Expected date") in
  let* d := parse_date (unwrap_bytes v) in Ok (c d, ts).
Definition number_key (c : Z -> Filter) (ts : list Token) : Res (list Piece) (Filter * list Token) :=
  let* (v, ts) := next_or ts (msg "Expected integer") in
  let* n := parse_number 32 (unwrap_bytes v) in Ok (c n, ts).
Definition flag_key (c : Flag -> Filter) (ts : list Token) : Res (list Piece) (Filter * list Token) :=
  let* (v, ts) := next_or ts (msg "Expected keyword") in
  let* f := parse_imap (unwrap_bytes v) in Ok (c f, ts).

(** The arguments of MODSEQ. *)
Definition modseq_entry (f : Flag) (ts : list Token) : Res (list Piece) (ModSeqEntry * list Token) :=
  match ts with
  | [] => Err (msg "Missing MODSEQ entry-type-req parameter.")
  | tok :: ts =>
    let bad := Err [PStr (b "Unsupported MODSEQ parameter '"); PStr (token_to_string tok); PStr (b "'.")] in
    match tok with
    | Argument value =>
      if eq_ignore_ascii_case value (b "all") then Ok (MsAll f, ts)
      else if eq_ignore_ascii_case value (b "shared") then Ok (MsShared f, ts)
      else if eq_ignore_ascii_case value (b "priv") then Ok (MsPrivate f, ts)
      else bad
    | _ => bad
    end
  end.

Definition modseq_key (ts : list Token) : Res (list Piece) (Filter * list Token) :=
  let* (param, ts) := next_or ts (msg "Missing MODSEQ parameters.") in
  let param := unwrap_bytes param in
  if bool_decide (param = []) || negb (all_digits param) then
    if (length param <=? 7)%nat || negb (starts_with (b "/flags/") param) then
      Err [PStr (b "Unsupported MODSEQ parameter '"); PStr (lossy param); PStr (b "'.")]
    else
      let* f := parse_imap (drop 7 param) in
      let* (entry, ts) := modseq_entry f ts in
      let* (n, ts) := next_or ts (msg "Missing MODSEQ mod-sequence-valzer parameter.") in
      let* n := parse_number 64 (unwrap_bytes n) in
      Ok (FModSeq n entry, ts)
  else
    let* n := parse_number 64 param in
    Ok (FModSeq n MsNone, ts).

Definition id_key (c : str -> Filter) (missing malformed : string) (ts : list Token)
    : Res (list Piece) (Filter * list Token) :=
  let* (v, ts) := next_or ts (msg missing) in
  let* s := unwrap_string v in
  let* id := ok_or (after_dash s) (msg malformed) in
  Ok (c id, ts).

(** A search key other than OR, NOT and the parentheses, with its arguments. *)
Definition parse_key (value : bytes) (ts : list Token) (decoder : option (bytes -> str))
    : Res (list Piece) (Filter * list Token) :=
  if eq_ignore_ascii_case value (b "ALL") then Ok (FAll, ts)
  else if eq_ignore_ascii_case value (b "ANSWERED") then Ok (FAnswered, ts)
  else if eq_ignore_ascii_case value (b "BCC") then string_key FBcc decoder ts
  else if eq_ignore_ascii_case value (b "BEFORE") then Ok (FAll, ts)
  else if eq_ignore_ascii_case value (b "BODY") then string_key FBody decoder ts
  else if eq_ignore_ascii_case value (b "CC") then string_key FCc decoder ts
  else if eq_ignore_ascii_case value (b "DELETED") then Ok (FDeleted, ts)
  else if eq_ignore_ascii_case value (b "DRAFT") then Ok (FDraft, ts)
  else if eq_ignore_ascii_case value (b "FLAGGED") then Ok (FFlagged, ts)
  else if eq_ignore_ascii_case value (b "FROM") then string_key FFrom decoder ts
  else if eq_ignore_ascii_case value (b "HEADER") then
    let* (n, ts) := decode_argument ts decoder in
    let* (v, ts) := decode_argument ts decoder in
    Ok (FHeader n v, ts)
  else if eq_ignore_ascii_case value (b "KEYWORD") then flag_key FKeyword ts
  else if eq_ignore_ascii_case value (b "LARGER") then number_key FLarger ts
  else if eq_ignore_ascii_case value (b "ON") then date_key FOn ts
  else if eq_ignore_ascii_case value (b "SEEN") then Ok (FSeen, ts)
  else if eq_ignore_ascii_case value (b "SENTBEFORE") then date_key FSentBefore ts
  else if eq_ignore_ascii_case value (b "SENTON") then date_key FSentOn ts
  else if eq_ignore_ascii_case value (b "SENTSINCE") then date_key FSentSince ts
  else if eq_ignore_ascii_case value (b "SINCE") then date_key FSince ts
  else if eq_ignore_ascii_case value (b "SMALLER") then number_key FSmaller ts
  else if eq_ignore_ascii_case value (b "SUBJECT") then string_key FSubject decoder ts
  else if eq_ignore_ascii_case value (b "TEXT") then string_key FText decoder ts
  else if eq_ignore_ascii_case value (b "TO") then string_key FTo decoder ts
  else if eq_ignore_ascii_case value (b "UID") then
    let* (v, ts) := next_or ts (msg "Missing sequence set.") in
    let* s := parse_sequence_set (unwrap_bytes v) in
    Ok (FSequence s true, ts)
  else if eq_ignore_ascii_case value (b "UNANSWERED") then Ok (FUnanswered, ts)
  else if eq_ignore_ascii_case value (b "UNDELETED") then Ok (FUndeleted, ts)
  else if eq_ignore_ascii_case value (b "UNDRAFT") then Ok (FUndraft, ts)
  else if eq_ignore_ascii_case value (b "UNFLAGGED") then Ok (FUnflagged, ts)
  else if eq_ignore_ascii_case value (b "UNKEYWORD") then flag_key FUnkeyword ts
  else if eq_ignore_ascii_case value (b "UNSEEN") then Ok (FUnseen, ts)
  else if eq_ignore_ascii_case value (b "OLDER") then number_key FOlder ts
  else if eq_ignore_ascii_case value (b "YOUNGER") then number_key FYounger ts
  else if eq_ignore_ascii_case value (b "OLD") then Ok (FOld, ts)
  else if eq_ignore_ascii_case value (b "NEW") then Ok (FNew, ts)
  else if eq_ignore_ascii_case value (b "RECENT") then Ok (FRecent, ts)
  else if eq_ignore_ascii_case value (b "MODSEQ") then modseq_key ts
  else if eq_ignore_ascii_case value (b "EMAILID") then
    id_key FEmailId "Expected an EMAILID value." "Malformed EMAILID value." ts
  else if eq_ignore_ascii_case value (b "THREADID") then
    id_key FThreadId "Expected an THREADID value." "Malformed THREADID value." ts
  else
    let* s := parse_sequence_set value in
    Ok (FSequence s false, ts).

Definition is_or (value : bytes) : bool := eq_ignore_ascii_case value (b "OR").
Definition is_not (value : bytes) : bool := eq_ignore_ascii_case value (b "NOT").

(** ** The stack of open frames: filters read so far and their operator *)
Definition Frames := list (list Filter * Operator).

(** [while let Some((prev_filters, prev_operator)) = filters_stack.pop()] *)
Fixpoint collapse (filters : list Filter) (operator : Operator) (stack : Frames)
    : list Filter * Operator * Frames :=
  match stack with
  | [] => (filters, operator, [])
  | (prev_filters, prev_operator) :: stack' =>
    let filters' :=
      if bool_decide (operator = And) &&
         (negb (bool_decide (prev_operator = Or)) || (length filters =? 1)%nat)
      then prev_filters ++ filters
      else prev_filters ++ [FOperator operator filters] in
    if bool_decide (prev_operator = And) ||
       (bool_decide (prev_operator = Or) && (length filters' <? 2)%nat)
    then (filters', prev_operator, stack')
    else collapse filters' prev_operator stack'
  end.

(** The test after each token that completes a key. *)
Definition after_key (found_parenthesis : bool) (filters : list Filter) (operator : Operator)
    (stack : Frames) : list Filter * Operator * Frames :=
  if negb (bool_decide (stack = [])) &&
     (found_parenthesis
      || (bool_decide (operator = Or) && (length filters =? 2)%nat)
      || (bool_decide (operator = Not) && (length filters =? 1)%nat))
  then collapse filters operator stack
  else (filters, operator, stack).

(** [parse_filters] *)
Fixpoint filters_loop (fuel : nat) (decoder : option (bytes -> str)) (ts : list Token)
    (filters : list Filter) (operator : Operator) (stack : Frames) : Res (list Piece) (list Filter) :=
  match fuel with
  | O => NoFuel
  | S fuel' =>
    let push op ts :=
      if (10 <? length stack)%nat then Err (msg "Too many nested filters")
      else filters_loop fuel' decoder ts [] op ((filters, operator) :: stack) in
    match ts with
    | [] => Ok filters
    | Argument value :: ts =>
      if is_or value then push Or ts
      else if is_not value then push Not ts
      else
        let* (f, ts) := parse_key value ts decoder in
        let '(filters, operator, stack) := after_key false (filters ++ [f]) operator stack in
        filters_loop fuel' decoder ts filters operator stack
    | ParenthesisOpen :: ts => push And ts
    | ParenthesisClose :: ts =>
      if bool_decide (stack = []) then Err (msg "Unexpected parenthesis.")
      else
        let '(filters, operator, stack) := after_key true filters operator stack in
        filters_loop fuel' decoder ts filters operator stack
    | token :: _ => Err [PStr (b "Unexpected token "); PDebugStr (token_to_string token); PStr (b ".")]
    end
  end.

Definition parse_filters (ts : list Token) (decoder : option (bytes -> str))
    : Res (list Piece) (list Filter) :=
  filters_loop (S (length ts)) decoder ts [] And [].

(** [match filters.len()] of the three commands *)
Definition single_filter (t : str) (filters : list Filter) : Res StatusResponse Filter :=
  match filters with
  | [] => tagged_err t (msg "No filters found in command.")
  | [f] => Ok f
  | _ => Ok (FOperator And filters)
  end.

(** [parse_search] *)
Fixpoint search_prefix (fuel : nat) (t : str) (ts : list Token) (options : list ResultOption)
    (esearch : bool) (decoder : option (bytes -> str))
    : Res StatusResponse (list ResultOption * bool * option (bytes -> str) * list Token) :=
  match fuel with
  | O => NoFuel
  | S fuel' =>
    match ts with
    | Argument value :: ts' =>
      if eq_ignore_ascii_case value (b "return") then
        let* (options, ts) := tagged t (parse_result_options ts') in
        search_prefix fuel' t ts options true decoder
      else if eq_ignore_ascii_case value (b "charset") then
        let* (v, ts) := next_or ts' (tagged_error t (msg "Missing charset.")) in
        search_prefix fuel' t ts options esearch (get_charset_decoder (unwrap_bytes v))
      else Ok (options, esearch, decoder, ts)
    | _ => Ok (options, esearch, decoder, ts)
    end
  end.

Definition parse_search (q : Request Command) (version : ProtocolVersion)
    : Res StatusResponse SearchArguments :=
  let t := req_tag q in
  if bool_decide (req_tokens q = []) then Err (into_error q (msg "Missing search criteria."))
  else
    let ts := req_tokens q in
    let* (options, esearch, decoder, ts) :=
      search_prefix (S (length ts)) t ts [] (is_rev2 version) None in
    let* filters := tagged t (parse_filters ts decoder) in
    let* f := single_filter t filters in
    Ok {| search_tag := t; is_esearch := esearch; search_sort := None;
          result_options := options; search_filter := f |}.

(** [parse_sort] *)
Fixpoint sort_criteria (t : str) (ts : list Token) (is_ascending : bool)
    : Res StatusResponse (list Comparator * list Token) :=
  match ts with
  | [] => Ok ([], [])
  | ParenthesisClose :: ts => Ok ([], ts)
  | Argument value :: ts =>
    if eq_ignore_ascii_case value (b "REVERSE") then sort_criteria t ts false
    else
      let* s := tagged t (sort_parse value) in
      let* (l, rest) := sort_criteria t ts true in
      Ok ({| cmp_sort := s; ascending := is_ascending |} :: l, rest)
  | _ => tagged_err t (msg "Invalid result option argument.")
  end.

Definition parse_sort (q : Request Command) : Res StatusResponse SearchArguments :=
  let t := req_tag q in
  if bool_decide (req_tokens q = []) then Err (into_error q (msg "Missing sort criteria."))
  else
    let ts := req_tokens q in
    let* (options, esearch, ts) :=
      (match ts with
       | Argument value :: ts' =>
         if eq_ignore_ascii_case value (b "return") then
           let* (o, ts) := tagged t (parse_result_options ts') in Ok (o, true, ts)
         else Ok ([], false, ts)
       | _ => Ok ([], false, ts)
       end) in
    let (open, ts) := next_is is_parenthesis_open ts in
    if negb open then tagged_err t (msg "Expected sort criteria between parentheses.")
    else
      let* (criteria, ts) := sort_criteria t ts true in
      if bool_decide (length criteria = O) then tagged_err t (msg "Missing sort criteria.")
      else
        let* (v, ts) := next_or ts (tagged_error t (msg "Missing charset.")) in
        let decoder := get_charset_decoder (unwrap_bytes v) in
        let* filters := tagged t (parse_filters ts decoder) in
        let* f := single_filter t filters in
        Ok {| search_tag := t; is_esearch := esearch; search_sort := Some criteria;
              result_options := options; search_filter := f |}.

(** [parse_thread] *)
Definition parse_thread (q : Request Command) : Res StatusResponse ThreadArguments :=
  let t := req_tag q in
  if bool_decide (req_tokens q = []) then Err (into_error q (msg "Missing thread criteria."))
  else
    let* (a, ts) := next_or (req_tokens q) (tagged_error t (msg "Missing threading algorithm.")) in
    let* a := tagged t (algorithm_parse (unwrap_bytes a)) in
    let* (v, ts) := next_or ts (tagged_error t (msg "Missing charset.")) in
    let decoder := get_charset_decoder (unwrap_bytes v) in
    let* filters := tagged t (parse_filters ts decoder) in
    let* f := single_filter t filters in
    Ok {| thread_tag := t; thread_filter := f; thread_algorithm := a |}.
End Search.

(** ** Specification: the recursive grammar of search keys (RFC 3501)

    [KLeaf ts f]: a key other than OR, NOT and parentheses, its tokens and the
    filter they stand for. *)
#[warnings="-register-all"]
Inductive Key :=
| KLeaf (ts : list Token) (f : Filter)
| KNot (k : Key)
| KOr (x y : Key)
| KParen (ks : list Key).

Fixpoint Key_nested_ind (P : Key -> Prop)
    (Hleaf : forall ts f, P (KLeaf ts f)) (Hnot : forall k, P k -> P (KNot k))
    (Hor : forall x y, P x -> P y -> P (KOr x y))
    (Hparen : forall ks, Forall P ks -> P (KParen ks)) (k : Key) : P k :=
  match k with
  | KLeaf ts f => Hleaf ts f
  | KNot k => Hnot k (Key_nested_ind P Hleaf Hnot Hor Hparen k)
  | KOr x y => Hor x y (Key_nested_ind P Hleaf Hnot Hor Hparen x) (Key_nested_ind P Hleaf Hnot Hor Hparen y)
  | KParen ks => Hparen ks
      ((fix go ks : Forall P ks :=
          match ks with
          | [] => List.Forall_nil P
          | k :: ks => List.Forall_cons P k ks (Key_nested_ind P Hleaf Hnot Hor Hparen k) (go ks)
          end) ks)
  end.

Fixpoint key_tokens (k : Key) : list Token :=
  match k with
  | KLeaf ts _ => ts
  | KNot k => Argument (b "NOT") :: key_tokens k
  | KOr x y => Argument (b "OR") :: key_tokens x ++ key_tokens y
  | KParen ks => ParenthesisOpen :: flat_map key_tokens ks ++ [ParenthesisClose]
  end.

(** A group of filters as one operand of OR. *)
Definition one (fs : list Filter) : Filter :=
  match fs with [f] => f | _ => FOperator And fs end.

(** The filters a key becomes; a parenthesis is spliced into its context. *)
Fixpoint key_filters (k : Key) : list Filter :=
  match k with
  | KLeaf _ f => [f]
  | KNot k => [FOperator Not (key_filters k)]
  | KOr x y => [FOperator Or [one (key_filters x); one (key_filters y)]]
  | KParen ks => flat_map key_filters ks
  end.

Fixpoint key_depth (k : Key) : nat :=
  match k with
  | KLeaf _ _ => 0
  | KNot k => S (key_depth k)
  | KOr x y => S (Nat.max (key_depth x) (key_depth y))
  | KParen ks => S (foldr (fun k n => Nat.max (key_depth k) n) 0%nat ks)
  end.

(** What a filter means for a message on the JMAP server (RFC 8620, 5.5): NOT holds
    when none of its conditions does; [env] decides the conditions. *)
Fixpoint eval (env : Filter -> bool) (f : Filter) : bool :=
  match f with
  | FOperator And fs => forallb (eval env) fs
  | FOperator Or fs => existsb (eval env) fs
  | FOperator Not fs => negb (existsb (eval env) fs)
  | f => env f
  end.

(** What a search key means (RFC 3501, 6.4.4): a parenthesis is a conjunction. *)
Fixpoint meaning (env : Filter -> bool) (k : Key) : bool :=
  match k with
  | KLeaf _ f => eval env f
  | KNot k => negb (meaning env k)
  | KOr x y => meaning env x || meaning env y
  | KParen ks => forallb (meaning env) ks
  end.

(** Every NOT is applied to a key that stands for a single filter. *)
Fixpoint not_single (k : Key) : Prop :=
  match k with
  | KLeaf _ _ => True
  | KNot k => length (key_filters k) = 1%nat /\ not_single k
  | KOr x y => not_single x /\ not_single y
  | KParen ks => fold_right (fun k P => not_single k /\ P) True ks
  end.

Section Grammar.
Context `{Chrono} (decoder : option (bytes -> str)).

Definition leaf_ok (ts : list Token) (f : Filter) : Prop :=
  exists value args, ts = Argument value :: args /\ is_or value = false /\ is_not value = false /\
    forall rest, parse_key value (args ++ rest) decoder = Ok (f, rest).

Fixpoint key_ok (k : Key) : Prop :=
  match k with
  | KLeaf ts f => leaf_ok ts f
  | KNot k => key_ok k
  | KOr x y => key_ok x /\ key_ok y
  | KParen ks => fold_right (fun k P => key_ok k /\ P) True ks
  end.

(** ** Lemmas *)

(** A completed group joins the frame [(filters, operator)]. *)
Definition absorb (fs filters : list Filter) (operator : Operator) (stack : Frames)
    : list Filter * Operator * Frames :=
  let filters := match operator with Or => filters ++ [one fs] | _ => filters ++ fs end in
  match operator with
  | And => (filters, operator, stack)
  | Or => if (length filters <? 2)%nat then (filters, operator, stack)
          else collapse filters operator stack
  | Not => collapse filters operator stack
  end.

Definition accepts (filters : list Filter) (operator : Operator) : Prop :=
  match operator with And => True | Or => (length filters < 2)%nat | Not => filters = [] end.

Lemma collapse_absorb filters operator pf po st :
  collapse filters operator ((pf, po) :: st) =
    absorb (if bool_decide (operator = And) then filters else [FOperator operator filters]) pf po st.
Proof.
  cbn [collapse]. unfold absorb.
  destruct operator, po; simpl; try done.
  destruct filters as [|f [|g l]]; done.
Qed.

Lemma after_key_absorb f filters operator stack :
  accepts filters operator ->
  after_key false (filters ++ [f]) operator stack = absorb [f] filters operator stack.
Proof.
  unfold after_key, absorb, accepts. destruct operator; intros Ha; simpl.
  - by rewrite andb_false_r.
  - rewrite length_app in *; simpl. rewrite orb_false_r.
    destruct filters as [|x [|y l]]; simpl in *; [by rewrite andb_false_r| |lia].
    rewrite andb_true_r. by destruct stack as [|[pf po] st].
  - subst filters. simpl. rewrite andb_true_r. by destruct stack as [|[pf po] st].
Qed.

Lemma loop_push fuel ts tok op filters operator stack :
  (tok = Argument (b "OR") /\ op = Or \/ tok = Argument (b "NOT") /\ op = Not \/
   tok = ParenthesisOpen /\ op = And) -> (length stack <= 10)%nat ->
  filters_loop (S fuel) decoder (tok :: ts) filters operator stack =
    filters_loop fuel decoder ts [] op ((filters, operator) :: stack).
Proof.
  intros Ht Hl. cbn [filters_loop]. replace (10 <? length stack)%nat with false by lia.
  by destruct Ht as [[-> ->]|[[-> ->]|[-> ->]]].
Qed.

(** Reading a key takes it off the input and adds its filters to the frame. *)
Definition reads (k : Key) : Prop :=
  forall fuel rest filters operator stack,
    (length stack + key_depth k <= 11)%nat -> accepts filters operator ->
    (length (key_tokens k ++ rest) < fuel)%nat ->
    exists fuel', (length rest < fuel')%nat /\
      filters_loop fuel decoder (key_tokens k ++ rest) filters operator stack =
        let '(fs, op, st) := absorb (key_filters k) filters operator stack in
        filters_loop fuel' decoder rest fs op st.

Lemma reads_seq ks : Forall reads ks -> forall fuel rest filters stack,
  (length stack + foldr (fun k n => Nat.max (key_depth k) n) 0 ks <= 11)%nat ->
  (length (flat_map key_tokens ks ++ rest) < fuel)%nat ->
  exists fuel', (length rest < fuel')%nat /\
    filters_loop fuel decoder (flat_map key_tokens ks ++ rest) filters And stack =
      filters_loop fuel' decoder rest (filters ++ flat_map key_filters ks) And stack.
Proof.
  induction 1 as [|k ks Hk Hks IH]; intros fuel rest filters stack Hd Hf; simpl in *.
  - exists fuel. rewrite app_nil_r. done.
  - rewrite <- app_assoc in Hf |- *.
    destruct (Hk fuel (flat_map key_tokens ks ++ rest) filters And stack) as (f1 & Hf1 & ->); [lia|done..|].
    cbn [absorb]. destruct (IH f1 rest (filters ++ key_filters k) stack) as (f2 & Hf2 & ->); [lia|done|].
    exists f2. by rewrite <- app_assoc.
Qed.

Lemma key_reads k : key_ok k -> reads k.
Proof.
  induction k as [ts f|k IH|x y IHx IHy|ks IH] using Key_nested_ind; intros Hok;
    intros fuel rest filters operator stack Hd Ha Hf; simpl in *.
  - destruct Hok as (value & args & -> & Ho & Hn & Hp). destruct fuel as [|fuel]; [lia|].
    rewrite <- app_comm_cons in *. cbn [filters_loop]. rewrite Ho, Hn, Hp. cbn [res_bind].
    rewrite after_key_absorb by done. exists fuel. split; [|done].
    simpl in Hf. rewrite length_app in Hf. lia.
  - destruct fuel as [|fuel]; [lia|]. rewrite (loop_push _ _ _ Not) by (tauto || lia).
    destruct (IH Hok fuel rest [] Not ((filters, operator) :: stack)) as (f1 & Hf1 & ->);
      [simpl; lia|done|lia|].
    exists f1. split; [done|]. cbn [absorb app]. by rewrite collapse_absorb.
  - destruct fuel as [|fuel]; [lia|]. rewrite (loop_push _ _ _ Or) by (tauto || lia).
    rewrite <- app_assoc in Hf |- *. destruct Hok as [Hx Hy].
    destruct (IHx Hx fuel (key_tokens y ++ rest) [] Or ((filters, operator) :: stack)) as (f1 & Hf1 & ->);
      [simpl; lia|simpl; lia|lia|].
    cbn [absorb app length Nat.ltb Nat.leb].
    destruct (IHy Hy f1 rest [one (key_filters x)] Or ((filters, operator) :: stack)) as (f2 & Hf2 & ->);
      [simpl; lia|simpl; lia|done|].
    exists f2. split; [done|]. cbn [absorb app length Nat.ltb Nat.leb]. by rewrite collapse_absorb.
  - destruct fuel as [|fuel]; [lia|]. rewrite (loop_push _ _ _ And) by (tauto || lia).
    rewrite <- app_assoc in Hf |- *.
    assert (Hks : Forall reads ks).
    { clear -IH Hok. induction IH as [|k ks Hk Hks IH]; [constructor|]. destruct Hok. constructor; auto. }
    destruct (reads_seq ks Hks fuel ([ParenthesisClose] ++ rest) [] ((filters, operator) :: stack))
      as (f1 & Hf1 & ->); [simpl; lia|lia|].
    destruct f1 as [|f1]; [lia|]. simpl in Hf1. exists f1. split; [lia|].
    cbn [app filters_loop]. unfold after_key. cbn [orb]. simpl bool_decide.
    by rewrite (collapse_absorb _ And).
Qed.

Lemma parse_filters_keys ks :
  fold_right (fun k P => key_ok k /\ P) True ks ->
  (foldr (fun k n => Nat.max (key_depth k) n) 0 ks <= 11)%nat ->
  parse_filters (flat_map key_tokens ks) decoder = Ok (flat_map key_filters ks).
Proof.
  intros Hok Hd. unfold parse_filters.
  assert (Hks : Forall reads ks).
  { clear Hd. induction ks as [|k ks IH]; [constructor|]. destruct Hok. constructor; auto using key_reads. }
  destruct (reads_seq ks Hks (S (length (flat_map key_tokens ks))) [] [] []) as (f & Hf & E);
    [simpl; lia|rewrite app_nil_r; lia|].
  rewrite app_nil_r in E. rewrite E. destruct f; [simpl in Hf; lia|]. done.
Qed.
End Grammar.

(** *** The parsers always return *)
Section Returns.
Context `{Chrono} `{Charsets}.

Definition shorter {A} (r : Res (list Piece) (A * list Token)) (ts : list Token) : Prop :=
  returns r /\ forall x rest, r = Ok (x, rest) -> (length rest <= length ts)%nat.

Lemma shorter_ok {A} (x : A) ts : shorter (Ok (x, ts)) ts.
Proof. split; [done|]. intros; by simplify_eq. Qed.

Lemma shorter_err {A} e ts : shorter (A := A) (Err e) ts.
Proof. by split. Qed.

Lemma shorter_bind {A B} (r : Res (list Piece) (A * list Token)) k ts :
  shorter r ts -> (forall x rest, (length rest <= length ts)%nat -> shorter (A := B) (k (x, rest)) rest) ->
  shorter (res_bind r k) ts.
Proof.
  intros [Hr Hl] Hk. split.
  - apply returns_bind; [done|]. intros [x rest] E. by apply (Hk x rest), (Hl x rest).
  - intros y rest ([x mid] & E & E2)%res_bind_ok. specialize (Hl _ _ E).
    destruct (Hk x mid Hl) as [_ Hk']. specialize (Hk' _ _ E2). lia.
Qed.

Lemma shorter_pure {A B} (r : Res (list Piece) A) k ts :
  returns r -> (forall x, shorter (A := B) (k x) ts) -> shorter (res_bind r k) ts.
Proof.
  intros Hr Hk. split.
  - apply returns_bind; [done|]. intros; apply Hk.
  - intros y rest (x & _ & E)%res_bind_ok. by apply (proj2 (Hk x)) in E.
Qed.

Lemma shorter_next ts m : shorter (next_or ts m) ts.
Proof. destruct ts; [apply shorter_err|]. split; [done|]. simpl. intros; simplify_eq. lia. Qed.

Lemma returns_result_option_parse v : returns (result_option_parse v).
Proof. unfold result_option_parse. by repeat case_match. Qed.
Lemma returns_sort_parse v : returns (sort_parse v).
Proof. unfold sort_parse. by repeat case_match. Qed.
Lemma returns_algorithm_parse v : returns (algorithm_parse v).
Proof. unfold algorithm_parse. by repeat case_match. Qed.

Ltac shorter_tac :=
  repeat first
    [ apply shorter_ok | apply shorter_err | apply shorter_next
    | apply shorter_bind; [|intros ? ? ?]
    | apply shorter_pure; [solve [auto with imap]|intros ?]
    | progress cbn [tagged] | case_match ].

Lemma shorter_decode ts decoder : shorter (decode_argument ts decoder) ts.
Proof. unfold decode_argument. shorter_tac. Qed.

Lemma shorter_modseq_entry f ts : shorter (modseq_entry f ts) ts.
Proof.
  split.
  - unfold modseq_entry. by repeat case_match.
  - unfold modseq_entry. intros x rest. destruct ts; [done|]. simpl.
    repeat case_match; intros; simplify_eq; lia.
Qed.

Lemma shorter_key value ts decoder : shorter (parse_key value ts decoder) ts.
Proof.
  unfold parse_key, string_key, date_key, number_key, flag_key, id_key, modseq_key.
  repeat first
    [ apply shorter_ok | apply shorter_err | apply shorter_next | apply shorter_decode
    | apply shorter_modseq_entry
    | apply shorter_bind; [|intros ? ? ?]
    | apply shorter_pure; [solve [auto with imap]|intros ?]
    | match goal with |- shorter (if ?c then _ else _) _ => destruct c end ].
Qed.

Lemma returns_filters_loop fuel decoder ts filters operator stack :
  (length ts < fuel)%nat -> returns (filters_loop fuel decoder ts filters operator stack).
Proof.
  revert ts filters operator stack; induction fuel as [|fuel IH];
    intros ts filters operator stack Hl; [lia|]. cbn [filters_loop].
  destruct ts as [|tok ts]; [done|]. simpl in Hl. destruct tok; try done.
  - destruct (is_or value); [case_match; [done|apply IH; lia]|].
    destruct (is_not value); [case_match; [done|apply IH; lia]|].
    destruct (shorter_key value ts decoder) as [Hr Hs]. apply returns_bind; [done|].
    intros [f rest] E%Hs. destruct (after_key _ _ _ _) as [[fs op] st]. apply IH. lia.
  - case_match; [done|]. apply IH; lia.
  - case_match; [done|]. destruct (after_key _ _ _ _) as [[fs op] st]. apply IH. lia.
Qed.

Lemma returns_parse_filters ts decoder : returns (parse_filters ts decoder).
Proof. exact (returns_filters_loop _ decoder ts [] And [] (Nat.lt_succ_diag_r _)). Qed.

Lemma returns_single_filter t fs : returns (single_filter t fs).
Proof. by destruct fs as [|? []]. Qed.

Lemma parse_result_options_shorter ts l rest :
  parse_result_options ts = Ok (l, rest) -> (length rest <= length ts)%nat.
Proof.
  unfold parse_result_options. destruct (next_is _ ts) as [open ts1] eqn:E.
  apply next_is_shorter in E. case_match; [done|]. intros Hp%paren_list_shorter. lia.
Qed.

Lemma returns_parse_result_options ts : returns (parse_result_options ts).
Proof.
  unfold parse_result_options. destruct (next_is _ ts). case_match; [done|].
  apply paren_list_returns, returns_result_option_parse.
Qed.

Lemma returns_search_prefix fuel t ts o e d :
  (length ts < fuel)%nat -> returns (search_prefix fuel t ts o e d).
Proof.
  revert ts o e d; induction fuel as [|fuel IH]; intros ts o e d Hl; [lia|]. cbn [search_prefix].
  destruct ts as [|[v| | | | | | | |] ts]; try done. simpl in Hl.
  destruct (eq_ignore_ascii_case v (b "return")).
  - apply returns_bind; [apply returns_tagged, returns_parse_result_options|].
    intros [o' ts'] Ho. apply IH.
    unfold tagged, map_err in Ho. destruct (parse_result_options ts) as [[? ?]| | |] eqn:E; simplify_eq.
    apply parse_result_options_shorter in E. lia.
  - destruct (eq_ignore_ascii_case v (b "charset")); [|done].
    apply returns_bind; [auto with imap|]. intros [v' ts'] Hn%next_or_shorter. apply IH. lia.
Qed.

Lemma returns_sort_criteria t ts asc : returns (sort_criteria t ts asc).
Proof.
  revert asc; induction ts as [|[v| | | | | | | |] ts IH]; intros asc; try done. cbn [sort_criteria].
  case_match; [apply IH|]. apply returns_bind; [apply returns_tagged, returns_sort_parse|].
  intros. apply returns_bind; [apply IH|]. by intros [? ?].
Qed.
End Returns.

(** ** Properties *)

(** The stack-based parser implements the recursive grammar: for every list of
    search keys nested at most eleven deep, parsing its tokens yields the filters of
    the keys in order, each OR with its two operands, each NOT with its one, and each
    parenthesis as the group it encloses. *)
Theorem parse_filters_grammar `{Chrono} decoder ks :
  fold_right (fun k P => key_ok decoder k /\ P) True ks ->
  (foldr (fun k n => Nat.max (key_depth k) n) 0 ks <= 11)%nat ->
  parse_filters (flat_map key_tokens ks) decoder = Ok (flat_map key_filters ks).
Proof. apply parse_filters_keys. Qed.

#[local] Instance no_dates : Chrono := {|
  parse_datetime_str _ := None; parse_date_str _ := None;
  format_datetime _ := []; format_rfc2822 _ := []
|}.

Lemma leaf_seen : leaf_ok None [Argument (b "SEEN")] FSeen.
Proof. by exists (b "SEEN"), []. Qed.

Lemma leaf_subject : leaf_ok None [Argument (b "subject"); Argument (b "x")] (FSubject (b "x")).
Proof. by exists (b "subject"), [Argument (b "x")]. Qed.

Lemma parse_filters_grammar_witness :
  parse_filters
    [Argument (b "OR"); Argument (b "SEEN"); ParenthesisOpen; Argument (b "NOT"); Argument (b "SEEN");
     Argument (b "subject"); Argument (b "x"); ParenthesisClose; Argument (b "SEEN")] None =
  Ok [FOperator Or [FSeen; FOperator And [FOperator Not [FSeen]; FSubject (b "x")]]; FSeen].
Proof.
  apply (parse_filters_grammar None
    [KOr (KLeaf [Argument (b "SEEN")] FSeen)
         (KParen [KNot (KLeaf [Argument (b "SEEN")] FSeen);
                  KLeaf [Argument (b "subject"); Argument (b "x")] (FSubject (b "x"))]);
     KLeaf [Argument (b "SEEN")] FSeen]).
  - repeat (split || exact leaf_seen || exact leaf_subject).
  - simpl. lia.
Defined.



(** A NOT in front of a parenthesized list of several keys does not mean what it
    says: [NOT (SEEN DRAFT)] is sent to the server as a NOT of two conditions, which a
    message that is seen but no draft fails although the key holds for it. *)
Theorem not_parenthesis_differs `{Chrono} :
  exists key filters env,
    key_ok None key /\ parse_filters (key_tokens key) None = Ok filters /\
    meaning env key = true /\ forallb (eval env) filters = false.
Proof.
  exists (KNot (KParen [KLeaf [Argument (b "SEEN")] FSeen; KLeaf [Argument (b "DRAFT")] FDraft])).
  exists [FOperator Not [FSeen; FDraft]].
  exists (fun f => match f with FSeen => true | _ => false end).
  split; [|done]. split; [|split]; [| |done].
  - by exists (b "SEEN"), [].
  - by exists (b "DRAFT"), [].
Qed.

(** The date of a BEFORE key is never read as a date: the key becomes ALL and its
    argument is taken for the next search key, so that a well-formed BEFORE makes the
    whole SEARCH an error. *)
Theorem before_ignores_date `{Chrono} decoder :
  parse_key (b "BEFORE") [Argument (b "1-Feb-1994")] decoder = Ok (FAll, [Argument (b "1-Feb-1994")]) /\
  exists m, parse_filters [Argument (b "BEFORE"); Argument (b "1-Feb-1994")] decoder = Err m.
Proof. split; [done|]. by eexists. Qed.

Lemma returns_parse_search `{Chrono} `{Charsets} q v : returns (parse_search q v).
Proof.
  unfold parse_search. case_match; [done|]. apply returns_bind.
  + exact (returns_search_prefix _ _ _ _ _ _ (Nat.lt_succ_diag_r _)).
  + intros [[[o e] d] ts] _. apply returns_bind; [apply returns_tagged, returns_parse_filters|].
    intros. apply returns_bind; [apply returns_single_filter|done].
Qed.

Lemma returns_parse_sort `{Chrono} `{Charsets} q : returns (parse_sort q).
Proof.
  unfold parse_sort. case_match; [done|]. apply returns_bind.
  + destruct (req_tokens q) as [|[w| | | | | | | |] ts]; try done. case_match; [|done].
    apply returns_bind; [apply returns_tagged, returns_parse_result_options|]. by intros [? ?].
  + intros [[o e] ts] _. destruct (next_is _ ts) as [open ts1]. case_match; [done|].
    apply returns_bind; [apply returns_sort_criteria|]. intros [c ts2] _. case_match; [done|].
    apply returns_bind; [auto with imap|]. intros [w ts3] _.
    apply returns_bind; [apply returns_tagged, returns_parse_filters|].
    intros. apply returns_bind; [apply returns_single_filter|done].
Qed.

Lemma returns_parse_thread `{Chrono} `{Charsets} q : returns (parse_thread q).
Proof.
  unfold parse_thread. case_match; [done|]. apply returns_bind; [auto with imap|]. intros [a ts] _.
  apply returns_bind; [apply returns_tagged, returns_algorithm_parse|]. intros.
  apply returns_bind; [auto with imap|]. intros [w ts3] _.
  apply returns_bind; [apply returns_tagged, returns_parse_filters|].
  intros. apply returns_bind; [apply returns_single_filter|done].
Qed.

#[export] Hint Resolve returns_parse_search returns_parse_sort returns_parse_thread : imap.

(** SEARCH, SORT and THREAD requests are always answered with arguments or an
    error: whatever the tokens, the nesting limit and the fuel never interfere. *)
Theorem search_parsers_return `{Chrono} `{Charsets} q v :
  returns (parse_search q v) /\ returns (parse_sort q) /\ returns (parse_thread q).
Proof. split_and!; auto with imap. Qed.
