(* ===== verification/ParseFetch.v ===== *)
(** * FETCH arguments ([src/parser/fetch.rs])

    The data items of a FETCH request, the section and partial specifiers of
    BODY and BINARY, and the CHANGEDSINCE / VANISHED modifiers. *)

From S2P Require Import Prelude Utf8 Utf7 Types Receiver Flags Sequence Commands Parsers.

(** [Section] and [Attribute] of [src/protocol/fetch.rs] *)
Inductive FetchSection :=
| SecPart (num : Z)
| SecHeader
| SecHeaderFields (not : bool) (fields : list str)
| SecText
| SecMime.

#[export] Instance FetchSection_eq_dec : EqDecision FetchSection.
Proof. solve_decision. Defined.

Inductive Attribute :=
| AEnvelope | AFlags | AInternalDate | ARfc822 | ARfc822Size | ARfc822Header | ARfc822Text
| ABody | ABodyStructure
| ABodySection (peek : bool) (sections : list FetchSection) (partial : option (Z * Z))
| AUid
| ABinary (peek : bool) (sections : list Z) (partial : option (Z * Z))
| ABinarySize (sections : list Z)
| APreview (lazy_ : bool)
| AModSeq | AEmailId | AThreadId.

#[export] Instance Attribute_eq_dec : EqDecision Attribute.
Proof. solve_decision. Defined.

Record FetchArguments := {
  fetch_tag : str;
  fetch_sequence_set : Sequence;
  attributes : list Attribute;
  changed_since : option Z;
  include_vanished : bool
}.

Definition is_bracket_close (t : Token) : bool := match t with BracketClose => true | _ => false end.

(** [#[derive(Debug)]] of a token without data *)
Definition token_debug (t : Token) : str :=
  match t with
  | ParenthesisOpen => b "ParenthesisOpen" | ParenthesisClose => b "ParenthesisClose"
  | BracketOpen => b "BracketOpen" | BracketClose => b "BracketClose"
  | Lt_ => b "Lt" | Gt_ => b "Gt" | Dot => b "Dot" | Nil_ => b "Nil"
  | Argument v => v
  end.

(** [parse_partial] *)
Definition parse_partial (ts : list Token) : Res (list Piece) (option (Z * Z) * list Token) :=
  match ts with
  | Lt_ :: ts =>
    let* (s, ts) := next_or ts (msg "Missing partial start.") in
    let* start := parse_number 32 (unwrap_bytes s) in
    let (dot, ts) := next_is is_dot ts in
    if negb dot then Err (msg "Expected '.' after partial start.")
    else
      let* (e, ts) := next_or ts (msg "Missing partial end.") in
      let* end_ := parse_number 32 (unwrap_bytes e) in
      if end_ =? 0 then Err (msg "Invalid partial range.")
      else
        let (gt, ts) := next_is is_gt ts in
        if negb gt then Err (msg "Expected '>' after range.") else Ok (Some (start, end_), ts)
  | _ => Ok (None, ts)
  end.

(** [HEADER], [HEADER.FIELDS (..)], [HEADER.FIELDS.NOT (..)] after the word HEADER *)
Definition eq_token (x : string) (t : Token) : bool := token_eq_ignore_ascii_case t (b x).

Definition header_field (t : str) (value : bytes) : Res StatusResponse str :=
  ok_or (from_utf8 value) (tagged_error t (msg "Invalid UTF-8 in header field name.")).

Definition header_fields (t : str) (not : bool) (ts : list Token)
    : Res StatusResponse (FetchSection * list Token) :=
  let (open, ts) := next_is is_parenthesis_open ts in
  if negb open then tagged_err t (msg "Expected '(' after 'HEADER.FIELDS'.")
  else
    let* (fields, ts) := paren_list (header_field t) (tagged_error t (msg "Expected field name.")) ts in
    Ok (SecHeaderFields not fields, ts).

Definition parse_header (t : str) (ts : list Token) : Res StatusResponse (FetchSection * list Token) :=
  match ts with
  | Dot :: ts =>
    let (fields, ts) := next_is (eq_token "FIELDS") ts in
    if negb fields then tagged_err t (msg "Expected 'FIELDS' after 'HEADER.'.")
    else match ts with
    | Dot :: ts =>
      let (not, ts) := next_is (eq_token "NOT") ts in
      if negb not then tagged_err t (msg "Expected 'NOT' after 'HEADER.FIELDS.'.")
      else header_fields t true ts
    | _ => header_fields t false ts
    end
  | _ => Ok (SecHeader, ts)
  end.

(** One argument of a section specifier. *)
Definition parse_section (t : str) (value : bytes) (ts : list Token)
    : Res StatusResponse (FetchSection * list Token) :=
  if eq_ignore_ascii_case value (b "HEADER") then parse_header t ts
  else if eq_ignore_ascii_case value (b "TEXT") then Ok (SecText, ts)
  else if eq_ignore_ascii_case value (b "MIME") then Ok (SecMime, ts)
  else let* n := tagged t (parse_number 32 value) in Ok (SecPart n, ts).

Fixpoint body_sections (fuel : nat) (t : str) (ts : list Token)
    : Res StatusResponse (list FetchSection * list Token) :=
  match fuel with
  | O => NoFuel
  | S fuel' =>
    match ts with
    | [] => Ok ([], [])
    | BracketClose :: ts => Ok ([], ts)
    | Argument value :: ts =>
      let* (section, ts) := parse_section t value ts in
      let* (l, rest) := body_sections fuel' t ts in
      Ok (section :: l, rest)
    | Dot :: ts => body_sections fuel' t ts
    | token :: _ =>
      tagged_err t [PStr (b "Invalid token "); PStr (token_debug token); PStr (b " found in section-spect.")]
    end
  end.

Fixpoint binary_sections (t : str) (ts : list Token) : Res StatusResponse (list Z * list Token) :=
  match ts with
  | [] => Ok ([], [])
  | Argument value :: ts =>
    let* n := tagged t (parse_number 32 value) in
    let* (l, rest) := binary_sections t ts in
    Ok (n :: l, rest)
  | Dot :: ts => binary_sections t ts
  | BracketClose :: ts => Ok ([], ts)
  | token :: _ =>
    tagged_err t [PStr (b "Expected part section integer, got "); PDebugStr (token_to_string token); PStr (b ".")]
  end.

(** [BODY], [BODY[..]<..>], [BODY.PEEK[..]<..>] *)
Definition body_section (t : str) (peek : bool) (ts : list Token)
    : Res StatusResponse (Attribute * list Token) :=
  let* (sections, ts) := body_sections (S (length ts)) t ts in
  let* (partial, ts) := tagged t (parse_partial ts) in
  Ok (ABodySection peek sections partial, ts).

Definition parse_body (t : str) (ts : list Token) : Res StatusResponse (Attribute * list Token) :=
  match ts with
  | BracketOpen :: ts => body_section t false ts
  | Dot :: ts =>
    let (peek, ts) := next_is (eq_token "PEEK") ts in
    if negb peek then tagged_err t (msg "Expected 'PEEK' after '.'.")
    else
      let (open, ts) := next_is is_bracket_open ts in
      if negb open then tagged_err t (msg "Expected '[' after 'BODY.PEEK'")
      else body_section t true ts
  | _ => Ok (ABody, ts)
  end.

(** [BINARY[..]<..>], [BINARY.PEEK[..]<..>], [BINARY.SIZE[..]] *)
Definition parse_binary (t : str) (ts : list Token) : Res StatusResponse (Attribute * list Token) :=
  let* (peek, size, ts) :=
    (match ts with
     | Dot :: ts =>
       let* (p, ts) := next_or ts (tagged_error t (msg "Missing parameter after 'BINARY.'.")) in
       let param := unwrap_bytes p in
       if eq_ignore_ascii_case param (b "PEEK") then Ok (true, false, ts)
       else if eq_ignore_ascii_case param (b "SIZE") then Ok (false, true, ts)
       else tagged_err t (msg "Expected 'PEEK' or 'SIZE' after 'BINARY.'.")
     | _ => Ok (false, false, ts)
     end) in
  let (open, ts) := next_is is_bracket_open ts in
  if negb open then tagged_err t (msg "Expected '[' after 'BINARY'.")
  else
    let* (sections, ts) := binary_sections t ts in
    if negb size then
      let* (partial, ts) := tagged t (parse_partial ts) in
      Ok (ABinary peek sections partial, ts)
    else Ok (ABinarySize sections, ts).

Definition parse_rfc822 (t : str) (ts : list Token) : Res StatusResponse (Attribute * list Token) :=
  match ts with
  | Dot :: ts =>
    let* (p, ts) := next_or ts (tagged_error t (msg "Missing RFC822 parameter.")) in
    let rfc822 := unwrap_bytes p in
    if eq_ignore_ascii_case rfc822 (b "HEADER") then Ok (ARfc822Header, ts)
    else if eq_ignore_ascii_case rfc822 (b "SIZE") then Ok (ARfc822Size, ts)
    else if eq_ignore_ascii_case rfc822 (b "TEXT") then Ok (ARfc822Text, ts)
    else tagged_err t [PStr (b "Invalid RFC822 parameter "); PDebugStr (lossy rfc822); PStr (b ".")]
  | _ => Ok (ARfc822, ts)
  end.

Fixpoint preview_loop (ts : list Token) (is_lazy : bool) : bool * list Token :=
  match ts with
  | [] => (is_lazy, [])
  | ParenthesisClose :: ts => (is_lazy, ts)
  | Argument value :: ts => preview_loop ts (is_lazy || eq_ignore_ascii_case value (b "LAZY"))
  | _ :: ts => preview_loop ts is_lazy
  end.

Definition parse_preview (ts : list Token) : Attribute * list Token :=
  match ts with
  | ParenthesisOpen :: ts => let (l, ts) := preview_loop ts false in (APreview l, ts)
  | _ => (APreview false, ts)
  end.

(** A data item other than the macros. *)
Definition parse_attribute (t : str) (value : bytes) (ts : list Token)
    : Res StatusResponse (Attribute * list Token) :=
  if eq_ignore_ascii_case value (b "ENVELOPE") then Ok (AEnvelope, ts)
  else if eq_ignore_ascii_case value (b "FLAGS") then Ok (AFlags, ts)
  else if eq_ignore_ascii_case value (b "INTERNALDATE") then Ok (AInternalDate, ts)
  else if eq_ignore_ascii_case value (b "BODYSTRUCTURE") then Ok (ABodyStructure, ts)
  else if eq_ignore_ascii_case value (b "UID") then Ok (AUid, ts)
  else if eq_ignore_ascii_case value (b "RFC822") then parse_rfc822 t ts
  else if eq_ignore_ascii_case value (b "BODY") then parse_body t ts
  else if eq_ignore_ascii_case value (b "BINARY") then parse_binary t ts
  else if eq_ignore_ascii_case value (b "PREVIEW") then Ok (parse_preview ts)
  else if eq_ignore_ascii_case value (b "MODSEQ") then Ok (AModSeq, ts)
  else if eq_ignore_ascii_case value (b "EMAILID") then Ok (AEmailId, ts)
  else if eq_ignore_ascii_case value (b "THREADID") then Ok (AThreadId, ts)
  else tagged_err t [PStr (b "Invalid attribute "); PDebugStr (lossy value)].

(** The macros replace what was read and end the list. *)
Definition macro (value : bytes) : option (list Attribute) :=
  if eq_ignore_ascii_case value (b "ALL") then Some [AFlags; AInternalDate; ARfc822Size; AEnvelope]
  else if eq_ignore_ascii_case value (b "FULL") then
    Some [AFlags; AInternalDate; ARfc822Size; AEnvelope; ABody]
  else if eq_ignore_ascii_case value (b "FAST") then Some [AFlags; AInternalDate; ARfc822Size]
  else None.

Fixpoint fetch_loop (fuel : nat) (t : str) (ts : list Token) (attrs : list Attribute)
    (in_parentheses : bool) : Res StatusResponse (list Attribute * list Token) :=
  match fuel with
  | O => NoFuel
  | S fuel' =>
    match ts with
    | [] => Ok (attrs, [])
    | Argument value :: ts =>
      match macro value with
      | Some attrs => Ok (attrs, ts)
      | None =>
        let* (a, ts) := parse_attribute t value ts in
        fetch_loop fuel' t ts (push_unique attrs a) in_parentheses
      end
    | ParenthesisOpen :: ts =>
      if negb in_parentheses then fetch_loop fuel' t ts attrs true
      else tagged_err t (msg "Unexpected parenthesis open.")
    | ParenthesisClose :: ts =>
      if in_parentheses then Ok (attrs, ts)
      else tagged_err t (msg "Unexpected parenthesis close.")
    | token :: _ =>
      tagged_err t [PStr (b "Invalid fetch argument "); PDebugStr (token_to_string token); PStr (b ".")]
    end
  end.

(** The parameters after the data items. *)
Fixpoint fetch_params (t : str) (ts : list Token) (since : option Z) (vanished : bool)
    : Res StatusResponse (option Z * bool) :=
  let unsupported tok :=
    tagged_err t [PStr (b "Unsupported parameter '"); PStr (token_to_string tok); PStr (b "'.")] in
  match ts with
  | [] => Ok (since, vanished)
  | tok :: ts' =>
    match tok with
    | Argument param =>
      if eq_ignore_ascii_case param (b "CHANGEDSINCE") then
        match ts' with
        | [] => tagged_err t (msg "Missing CHANGEDSINCE parameter.")
        | v :: ts'' =>
          let* n := tagged t (parse_number 64 (unwrap_bytes v)) in
          fetch_params t ts'' (Some n) vanished
        end
      else if eq_ignore_ascii_case param (b "VANISHED") then fetch_params t ts' since true
      else unsupported tok
    | ParenthesisClose => Ok (since, vanished)
    | _ => unsupported tok
    end
  end.

(** [parse_fetch] *)
Definition parse_fetch (q : Request Command) : Res StatusResponse FetchArguments :=
  let t := req_tag q in
  if (length (req_tokens q) <? 2)%nat then Err (into_error q (msg "Missing parameters."))
  else
    let* (s, ts) := next_or (req_tokens q) (tagged_error t (msg "Missing sequence set.")) in
    let* s := tagged t (parse_sequence_set (unwrap_bytes s)) in
    let* (attrs, ts) := fetch_loop (S (length ts)) t ts [] false in
    let* (since, vanished) :=
      (match ts with
       | ParenthesisOpen :: ts => fetch_params t ts None false
       | _ => Ok (None, false)
       end) in
    if negb (bool_decide (attrs = [])) then
      Ok {| fetch_tag := t; fetch_sequence_set := s; attributes := attrs;
            changed_since := since; include_vanished := vanished |}
    else tagged_err t (msg "No data items to fetch specified.").

(** ** Specification: the tokens a client sends for a data item *)
Definition section_tokens (s : FetchSection) : list Token :=
  match s with
  | SecPart n => [Argument (dec n)]
  | SecHeader => [Argument (b "HEADER")]
  | SecHeaderFields not fields =>
      [Argument (b "HEADER"); Dot; Argument (b "FIELDS")] ++
      (if not then [Dot; Argument (b "NOT")] else []) ++
      ParenthesisOpen :: map Argument fields ++ [ParenthesisClose]
  | SecText => [Argument (b "TEXT")]
  | SecMime => [Argument (b "MIME")]
  end.

Fixpoint sections_tokens (l : list FetchSection) : list Token :=
  match l with
  | [] => []
  | [s] => section_tokens s
  | s :: l => section_tokens s ++ Dot :: sections_tokens l
  end.

Fixpoint numbers_tokens (l : list Z) : list Token :=
  match l with
  | [] => []
  | [n] => [Argument (dec n)]
  | n :: l => Argument (dec n) :: Dot :: numbers_tokens l
  end.

Definition partial_tokens (p : option (Z * Z)) : list Token :=
  match p with
  | Some (s, e) => [Lt_; Argument (dec s); Dot; Argument (dec e); Gt_]
  | None => []
  end.

Definition attribute_tokens (a : Attribute) : list Token :=
  match a with
  | AEnvelope => [Argument (b "ENVELOPE")]
  | AFlags => [Argument (b "FLAGS")]
  | AInternalDate => [Argument (b "INTERNALDATE")]
  | ARfc822 => [Argument (b "RFC822")]
  | ARfc822Size => [Argument (b "RFC822"); Dot; Argument (b "SIZE")]
  | ARfc822Header => [Argument (b "RFC822"); Dot; Argument (b "HEADER")]
  | ARfc822Text => [Argument (b "RFC822"); Dot; Argument (b "TEXT")]
  | ABody => [Argument (b "BODY")]
  | ABodyStructure => [Argument (b "BODYSTRUCTURE")]
  | ABodySection peek sections partial =>
      Argument (b "BODY") :: (if peek then [Dot; Argument (b "PEEK")] else []) ++
      BracketOpen :: sections_tokens sections ++ BracketClose :: partial_tokens partial
  | AUid => [Argument (b "UID")]
  | ABinary peek sections partial =>
      Argument (b "BINARY") :: (if peek then [Dot; Argument (b "PEEK")] else []) ++
      BracketOpen :: numbers_tokens sections ++ BracketClose :: partial_tokens partial
  | ABinarySize sections =>
      [Argument (b "BINARY"); Dot; Argument (b "SIZE"); BracketOpen] ++ numbers_tokens sections ++
      [BracketClose]
  | APreview lazy_ =>
      Argument (b "PREVIEW") ::
      (if lazy_ then [ParenthesisOpen; Argument (b "LAZY"); ParenthesisClose] else [])
  | AModSeq => [Argument (b "MODSEQ")]
  | AEmailId => [Argument (b "EMAILID")]
  | AThreadId => [Argument (b "THREADID")]
  end.

Definition section_ok (s : FetchSection) : Prop :=
  match s with
  | SecPart n => is_u32 n
  | SecHeaderFields _ fields => Forall valid_utf8 fields
  | _ => True
  end.
(** HEADER is not followed by another part. *)
Fixpoint sections_ok (l : list FetchSection) : Prop :=
  match l with
  | [] => True
  | [s] => section_ok s
  | s :: l => section_ok s /\ s <> SecHeader /\ sections_ok l
  end.
Definition partial_ok (p : option (Z * Z)) : Prop :=
  match p with Some (s, e) => is_u32 s /\ is_u32 e /\ 0 < e | None => True end.
Definition attribute_ok (a : Attribute) : Prop :=
  match a with
  | ABodySection _ sections partial => sections_ok sections /\ partial_ok partial
  | ABinary _ sections partial => Forall is_u32 sections /\ partial_ok partial
  | ABinarySize sections => Forall is_u32 sections
  | _ => True
  end.

Definition modifier_tokens (since : option Z) (vanished : bool) : list Token :=
  match since, vanished with
  | None, false => []
  | _, _ =>
      ParenthesisOpen ::
      match since with Some n => [Argument (b "CHANGEDSINCE"); Argument (dec n)] | None => [] end ++
      (if vanished then [Argument (b "VANISHED")] else []) ++ [ParenthesisClose]
  end.

(** What may follow a data item inside the parentheses. *)
Definition rest_ok (ts : list Token) : Prop :=
  match ts with Argument _ :: _ | ParenthesisClose :: _ => True | _ => False end.

(** ** Lemmas *)

Lemma dec_not_word n w : 0 <= n -> is_ascii_digit (List.hd 0 w) = false -> w <> [] ->
  eq_ignore_ascii_case (dec n) w = false.
Proof.
  intros Hn Hw Hne. destruct (dec_cons n) as (c & s & E). rewrite E.
  pose proof (dec_head_digit n c s Hn E) as Hc. destruct w as [|x w]; [done|]. simpl in Hw.
  unfold eq_ignore_ascii_case, bytes_eqb. apply bool_decide_eq_false. cbn [map]. intros [=Hx _].
  unfold is_ascii_digit, to_ascii_lowercase, is_ascii_upper in *.
  destruct ((65 <=? c) && (c <=? 90)) eqn:E1; destruct ((65 <=? x) && (x <=? 90)) eqn:E2; lia.
Qed.

Lemma parse_section_part t n ts : is_u32 n -> parse_section t (dec n) ts = Ok (SecPart n, ts).
Proof.
  intros Hn. assert (0 <= n) by (destruct Hn; lia). unfold parse_section.
  rewrite (dec_not_word n (b "HEADER")), (dec_not_word n (b "TEXT")), (dec_not_word n (b "MIME")) by done.
  by rewrite parse_number_dec_width.
Qed.

Lemma parse_header_fields t not fields rest :
  Forall valid_utf8 fields ->
  header_fields t not (ParenthesisOpen :: map Argument fields ++ ParenthesisClose :: rest) =
    Ok (SecHeaderFields not fields, rest).
Proof.
  intros Hf. unfold header_fields. cbn [next_is is_parenthesis_open negb].
  assert (E : forall bad, paren_list (header_field t) bad
      (map Argument fields ++ ParenthesisClose :: rest) = Ok (fields, rest)).
  { intros bad. induction Hf as [|f fields [cs Hcs] _ IH]; [done|]. simpl.
    replace (header_field t f) with (Ok (E := StatusResponse) f)
      by (unfold header_field, from_utf8; by rewrite Hcs).
    simpl. by rewrite IH. }
  by rewrite E.
Qed.

Lemma parse_section_tokens t s rest :
  section_ok s -> (s = SecHeader -> match rest with Dot :: _ => False | _ => True end) ->
  exists value args, section_tokens s = Argument value :: args /\
    parse_section t value (args ++ rest) = Ok (s, rest).
Proof.
  intros Hs Hd. destruct s as [n| |not fields| |]; simpl section_tokens.
  - do 2 eexists; split; [done|]. by apply parse_section_part.
  - do 2 eexists; split; [done|]. unfold parse_section. simpl. specialize (Hd eq_refl).
    by destruct rest as [|[] ?].
  - do 2 eexists; split; [reflexivity|]. unfold parse_section.
    destruct not; simpl; rewrite <- ?app_assoc; by apply parse_header_fields.
  - by do 2 eexists; split.
  - by do 2 eexists; split.
Qed.

Lemma body_sections_tokens t l rest : sections_ok l -> forall fuel,
  (length (sections_tokens l ++ BracketClose :: rest) < fuel)%nat ->
  body_sections fuel t (sections_tokens l ++ BracketClose :: rest) = Ok (l, rest).
Proof.
  induction l as [|s l IH]; intros Hok fuel Hf; [by destruct fuel; [simpl in Hf; lia|]|].
  destruct l as [|s2 l].
  - simpl in *. destruct (parse_section_tokens t s (BracketClose :: rest)) as (v & args & E & Hp); [done..|].
    rewrite E in *. destruct fuel as [|[|fuel]]; [simpl in Hf; lia..|]. rewrite <- app_comm_cons.
    cbn [body_sections]. rewrite Hp. done.
  - destruct Hok as (Hs & Hh & Hok). set (tl := sections_tokens (s2 :: l)) in *.
    change (sections_tokens (s :: s2 :: l)) with (section_tokens s ++ Dot :: tl) in *.
    rewrite <- app_assoc in *. cbn [app] in *.
    destruct (parse_section_tokens t s (Dot :: tl ++ BracketClose :: rest)) as (v & args & E & Hp); [done..|].
    rewrite E in *. destruct fuel as [|[|fuel]]; [simpl in Hf; lia..|]. rewrite <- app_comm_cons.
    cbn [body_sections]. rewrite Hp. cbn [res_bind].
    rewrite IH; [done|done|]. simpl in Hf. rewrite length_app in Hf. simpl in Hf. lia.
Qed.

Lemma binary_sections_tokens t l rest :
  Forall is_u32 l -> binary_sections t (numbers_tokens l ++ BracketClose :: rest) = Ok (l, rest).
Proof.
  induction 1 as [|n l Hn Hl IH]; [done|].
  destruct l as [|m l]; simpl; rewrite parse_number_dec_width by done; simpl; [done|].
  simpl in IH. by rewrite IH.
Qed.

Lemma parse_partial_tokens p rest :
  partial_ok p -> rest_ok rest -> parse_partial (partial_tokens p ++ rest) = Ok (p, rest).
Proof.
  destruct p as [[s e]|].
  - intros (Hs & He & Hp) _. unfold parse_partial.
    cbn [partial_tokens app next_or res_bind unwrap_bytes]. rewrite parse_number_dec_width by done.
    cbn [next_is is_dot negb next_or res_bind unwrap_bytes]. rewrite parse_number_dec_width by done.
    cbn [next_is is_gt negb res_bind]. by replace (e =? 0) with false by lia.
  - intros _ Hr. by destruct rest as [|[] ?].
Qed.

Lemma body_section_tokens t peek sections partial rest :
  sections_ok sections -> partial_ok partial -> rest_ok rest ->
  body_section t peek (sections_tokens sections ++ BracketClose :: partial_tokens partial ++ rest) =
    Ok (ABodySection peek sections partial, rest).
Proof.
  intros Hs Hp Hr. unfold body_section. rewrite body_sections_tokens by (done || lia).
  cbn [res_bind]. by rewrite parse_partial_tokens.
Qed.

Lemma parse_attribute_tokens t a rest :
  attribute_ok a -> rest_ok rest ->
  exists value args, attribute_tokens a = Argument value :: args /\ macro value = None /\
    parse_attribute t value (args ++ rest) = Ok (a, rest).
Proof.
  intros Ha Hr.
  destruct a as [ | | | | | | | | |peek secs partial| |peek secs partial|secs|lz| | | ];
    simpl attribute_tokens; do 2 eexists; (split; [reflexivity|]); (split; [reflexivity|]);
    try reflexivity; unfold parse_attribute; simpl.
  - by destruct rest as [|[] ?].
  - by destruct rest as [|[] ?].
  - destruct Ha as [Hs Hp]. rewrite <- app_assoc. simpl. rewrite <- app_assoc.
    destruct peek; simpl; by apply body_section_tokens.
  - destruct Ha as [Hs Hp]. rewrite <- app_assoc. simpl. rewrite <- app_assoc.
    destruct peek; unfold parse_binary; simpl; rewrite binary_sections_tokens by done; simpl;
      by rewrite parse_partial_tokens.
  - rewrite <- app_assoc. unfold parse_binary; simpl. by rewrite binary_sections_tokens.
  - destruct lz; [done|]. simpl. by destruct rest as [|[] ?].
Qed.

Lemma fetch_loop_attributes t attrs : forall acc rest fuel,
  Forall attribute_ok attrs ->
  (length (flat_map attribute_tokens attrs ++ ParenthesisClose :: rest) < fuel)%nat ->
  fetch_loop fuel t (flat_map attribute_tokens attrs ++ ParenthesisClose :: rest) acc true =
    Ok (foldl push_unique acc attrs, rest).
Proof.
  induction attrs as [|a attrs IH]; intros acc rest fuel Ha Hf; simpl in *.
  { destruct fuel; [lia|done]. }
  inv Ha as [|? ? Ha1 Ha2]. rewrite <- app_assoc in *.
  set (tl := flat_map attribute_tokens attrs ++ ParenthesisClose :: rest) in *.
  assert (Hr : rest_ok tl).
  { unfold tl. destruct attrs as [|a2 attrs]; [done|]. inv Ha2 as [|? ? Ha3 _].
    destruct (parse_attribute_tokens t a2 [ParenthesisClose] Ha3 I) as (v & args & E & _). simpl.
    by rewrite E. }
  destruct (parse_attribute_tokens t a tl Ha1 Hr) as (v & args & E & Em & Hp). rewrite E in *.
  destruct fuel as [|fuel]; [lia|]. rewrite <- app_comm_cons. cbn [fetch_loop].
  rewrite Em, Hp. cbn [res_bind]. apply IH; [done|]. simpl in Hf. rewrite length_app in Hf.
  fold tl. lia.
Qed.

Lemma push_unique_all {A} `{EqDecision A} (l acc : list A) :
  NoDup (acc ++ l) -> foldl push_unique acc l = acc ++ l.
Proof.
  revert acc; induction l as [|x l IH]; intros acc Hn; simpl; [by rewrite app_nil_r|].
  rewrite (cons_middle x acc l) in Hn. unfold push_unique at 2.
  rewrite bool_decide_eq_false_2.
  - rewrite IH; rewrite <- app_assoc; done.
  - apply list.NoDup_app in Hn as (_ & Hd & _). intros Hx. by apply (Hd x Hx), list_elem_of_here.
Qed.

Lemma fetch_params_tokens t since vanished :
  match since with Some n => is_u64 n | None => True end ->
  match modifier_tokens since vanished with
  | ParenthesisOpen :: ts => fetch_params t ts None false
  | _ => Ok (None, false)
  end = Ok (since, vanished).
Proof.
  intros Hs. destruct since as [n|], vanished; simpl; try done;
    by rewrite parse_number_dec_width.
Qed.

(** *** The parser always returns *)

Lemma next_is_length p ts x rest : next_is p ts = (x, rest) -> (length rest <= length ts)%nat.
Proof. apply next_is_shorter. Qed.

Definition smaller {A} (r : Res StatusResponse (A * list Token)) (ts : list Token) : Prop :=
  returns r /\ forall x rest, r = Ok (x, rest) -> (length rest <= length ts)%nat.

Lemma smaller_ok {A} (x : A) ts ts' : (length ts <= length ts')%nat -> smaller (Ok (x, ts)) ts'.
Proof. split; [done|]. intros; by simplify_eq. Qed.

Lemma smaller_err {A} e ts : smaller (A := A) (Err e) ts.
Proof. by split. Qed.

Lemma smaller_bind {A B} (r : Res StatusResponse (A * list Token)) k ts ts' :
  smaller r ts' -> (length ts' <= length ts)%nat ->
  (forall x rest, (length rest <= length ts')%nat -> smaller (A := B) (k (x, rest)) ts) ->
  smaller (res_bind r k) ts.
Proof.
  intros [Hr Hl] Hle Hk. split.
  - apply returns_bind; [done|]. intros [x rest] E. by apply (Hk x rest), (Hl x rest).
  - intros y rest ([x mid] & E & E2)%res_bind_ok. specialize (Hl _ _ E).
    destruct (Hk x mid Hl) as [_ Hk']. by apply Hk' in E2.
Qed.

Lemma smaller_pure {A B} (r : Res StatusResponse A) k ts :
  returns r -> (forall x, smaller (A := B) (k x) ts) -> smaller (res_bind r k) ts.
Proof.
  intros Hr Hk. split.
  - apply returns_bind; [done|]. intros; apply Hk.
  - intros y rest (x & _ & E)%res_bind_ok. by apply (proj2 (Hk x)) in E.
Qed.

Lemma smaller_next ts e : smaller (next_or ts e) ts.
Proof. destruct ts; [apply smaller_err|]. apply smaller_ok. simpl. lia. Qed.

Lemma smaller_paren_list {A} (f : bytes -> Res StatusResponse A) bad ts :
  (forall v, returns (f v)) -> smaller (paren_list f bad ts) ts.
Proof. split; [by apply paren_list_returns|]. intros. by eapply paren_list_shorter. Qed.

(** One step of the case analysis of a parser that eats tokens. *)
Ltac smaller_tac :=
  repeat first
    [ apply smaller_err
    | apply smaller_ok; simpl in *; lia
    | match goal with
      | |- context [next_is ?p ?ts] =>
          let E := fresh "E" in
          destruct (next_is p ts) eqn:E; apply next_is_length in E; simpl in E
      | |- smaller (if ?c then _ else _) _ => destruct c
      end
    | eapply smaller_bind; [apply smaller_next|simpl in *; lia|intros ? ? ?]
    | eapply smaller_bind;
        [solve [apply smaller_paren_list; auto with imap]|simpl in *; lia|intros ? ? ?]
    | apply smaller_pure; [solve [auto with imap]|intros ?] ].

Lemma returns_header_field t v : returns (header_field t v).
Proof. apply returns_ok_or. Qed.

#[local] Hint Resolve returns_header_field : imap.

Lemma smaller_header_fields t n ts : smaller (header_fields t n ts) ts.
Proof.
  unfold header_fields, tagged_err. smaller_tac.
Qed.

Lemma smaller_weaken {A} (r : Res StatusResponse (A * list Token)) ts ts' :
  smaller r ts -> (length ts <= length ts')%nat -> smaller r ts'.
Proof. intros [Hr Hl] Hle. split; [done|]. intros x rest E. apply Hl in E. lia. Qed.

Lemma smaller_parse_section t v ts : smaller (parse_section t v ts) ts.
Proof.
  unfold parse_section, parse_header, tagged_err.
  destruct (eq_ignore_ascii_case v (b "HEADER")).
  - destruct ts as [|[| | | | | | | |] ts]; try (apply smaller_ok; simpl; lia). smaller_tac.
    destruct l as [|[| | | | | | | |] ts1]; smaller_tac;
      (eapply smaller_weaken; [apply smaller_header_fields | simpl in *; lia]).
  - smaller_tac.
Qed.

Lemma smaller_body_sections t fuel : forall ts,
  (length ts < fuel)%nat -> smaller (body_sections fuel t ts) ts.
Proof.
  induction fuel as [|fuel IH]; intros ts Hl; [lia|]. cbn [body_sections].
  destruct ts as [|[v| | | | | | | |] ts]; unfold tagged_err; smaller_tac; simpl in Hl.
  - eapply smaller_bind; [apply smaller_parse_section|simpl; lia|intros s rest Hrest].
    eapply smaller_bind; [apply IH; lia|simpl; lia|intros ? ? ?]. smaller_tac.
  - eapply smaller_weaken; [apply IH; lia | simpl; lia].
Qed.

Lemma smaller_binary_sections t ts : smaller (binary_sections t ts) ts.
Proof.
  induction ts as [|tok ts IH]; cbn [binary_sections]; [smaller_tac|].
  destruct tok; unfold tagged_err; smaller_tac.
  - eapply smaller_bind; [apply IH|simpl; lia|intros ? ? ?]. smaller_tac.
  - eapply smaller_weaken; [apply IH | simpl; lia].
Qed.

Lemma smaller_parse_partial t ts : smaller (tagged t (parse_partial ts)) ts.
Proof.
  assert (H : returns (parse_partial ts) /\
              forall x rest, parse_partial ts = Ok (x, rest) -> (length rest <= length ts)%nat).
  { unfold parse_partial. destruct ts as [|[| | | | | | | |] ts];
      try (split; [done|]; intros; by simplify_eq). split.
    - apply returns_bind; [auto with imap|]. intros [s ts1] _.
      apply returns_bind; [auto with imap|]. intros n _. destruct (next_is _ ts1). case_match; [done|].
      apply returns_bind; [auto with imap|]. intros [e ts2] _.
      apply returns_bind; [auto with imap|]. intros m _. case_match; [done|].
      destruct (next_is _ ts2). by case_match.
    - intros x rest ([s ts1] & H1%next_or_shorter & H)%res_bind_ok.
      apply res_bind_ok in H as (n & _ & H). destruct (next_is _ ts1) as [d ts2] eqn:E1.
      apply next_is_shorter in E1. destruct (negb d); [done|].
      apply res_bind_ok in H as ([e ts3] & H3%next_or_shorter & H).
      apply res_bind_ok in H as (m & _ & H). destruct (m =? 0); [done|].
      destruct (next_is _ ts3) as [g ts4] eqn:E2. apply next_is_shorter in E2.
      destruct (negb g); simplify_eq. simpl. lia. }
  destruct H as [Hr Hl]. split; [by apply returns_tagged|].
  intros x rest E. unfold tagged, map_err in E. destruct (parse_partial ts) as [[? ?]| | |]; simplify_eq.
  by apply (Hl x rest).
Qed.

Lemma smaller_body_section t p ts : smaller (body_section t p ts) ts.
Proof.
  unfold body_section.
  eapply smaller_bind; [apply smaller_body_sections, Nat.lt_succ_diag_r|lia|intros s rest Hrest].
  eapply smaller_bind; [apply smaller_parse_partial|lia|intros ? ? ?]. smaller_tac.
Qed.

Lemma smaller_parse_body t ts : smaller (parse_body t ts) ts.
Proof.
  unfold parse_body, tagged_err. destruct ts as [|[| | | | | | | |] ts]; smaller_tac;
    (eapply smaller_weaken; [apply smaller_body_section | simpl in *; lia]).
Qed.

Lemma smaller_parse_binary t ts : smaller (parse_binary t ts) ts.
Proof.
  unfold parse_binary, tagged_err.
  eapply (smaller_bind _ _ _ ts); [|lia|intros [p s] rest Hrest].
  - destruct ts as [|[| | | | | | | |] ts]; smaller_tac.
  - smaller_tac. eapply smaller_bind; [apply smaller_binary_sections|simpl in *; lia|intros ? ? ?].
    destruct (negb s); [|smaller_tac].
    eapply smaller_bind; [apply smaller_parse_partial|simpl in *; lia|intros ? ? ?]. smaller_tac.
Qed.

Lemma preview_loop_shorter ts l : (length (preview_loop ts l).2 <= length ts)%nat.
Proof.
  revert l; induction ts as [|tok ts IH]; intros l; [done|]. destruct tok; simpl; try lia;
    (etrans; [apply IH | lia]).
Qed.

Lemma smaller_parse_attribute t v ts : smaller (parse_attribute t v ts) ts.
Proof.
  unfold parse_attribute, parse_rfc822, tagged_err.
  repeat match goal with |- smaller (if ?c then _ else _) _ => destruct c end;
    try apply smaller_parse_body; try apply smaller_parse_binary; smaller_tac.
  - destruct ts as [|[| | | | | | | |] ts]; smaller_tac.
  - unfold parse_preview. destruct ts as [|[| | | | | | | |] ts]; smaller_tac.
    pose proof (preview_loop_shorter ts false) as Hp. destruct (preview_loop ts false). smaller_tac.
Qed.

Lemma returns_fetch_loop t fuel : forall ts attrs p,
  (length ts < fuel)%nat -> returns (fetch_loop fuel t ts attrs p).
Proof.
  induction fuel as [|fuel IH]; intros ts attrs p Hl; [lia|]. cbn [fetch_loop].
  destruct ts as [|[v| | | | | | | |] ts]; try done; simpl in Hl.
  - destruct (macro v); [done|]. destruct (smaller_parse_attribute t v ts) as [Hr Hs].
    apply returns_bind; [done|]. intros [a rest] E%Hs. apply IH. lia.
  - destruct (negb p); [apply IH; lia | done].
  - by destruct p.
Qed.

Lemma returns_fetch_params t ts since v : returns (fetch_params t ts since v).
Proof.
  remember (length ts) as n eqn:Hn. revert ts since v Hn.
  induction n as [n IH] using lt_wf_ind; intros ts since v Hn.
  destruct ts as [|tok ts]; [done|]. destruct tok as [p| | | | | | | |]; try done. cbn [fetch_params].
  destruct (eq_ignore_ascii_case p (b "CHANGEDSINCE")).
  - destruct ts as [|w ts]; [done|]. apply returns_bind; [auto with imap|].
    intros. eapply IH; [|reflexivity]. simpl in Hn. lia.
  - destruct (eq_ignore_ascii_case p (b "VANISHED")); [|done].
    eapply IH; [|reflexivity]. simpl in Hn. lia.
Qed.

(** ** Properties *)

(** FETCH means what the client wrote: a sequence set, a parenthesized list of
    distinct data items (with sections, header field lists and partial ranges) and the
    CHANGEDSINCE / VANISHED modifiers parse to exactly these. *)
Theorem parse_fetch_verbatim t uid items attrs since vanished :
  Forall item_ok items -> items <> [] ->
  Forall attribute_ok attrs -> NoDup attrs -> attrs <> [] ->
  match since with Some n => is_u64 n | None => True end ->
  parse_fetch (mkRequest t (Fetch uid)
    (Argument (items_text items) :: ParenthesisOpen :: flat_map attribute_tokens attrs ++
     ParenthesisClose :: modifier_tokens since vanished)) =
  Ok {| fetch_tag := t;
        fetch_sequence_set := match items with [s] => s | _ => List items end;
        attributes := attrs; changed_since := since; include_vanished := vanished |}.
Proof.
  intros Hi Hine Ha Hnd Hane Hs. unfold parse_fetch. cbn [req_tokens req_tag].
  replace (_ <? 2)%nat with false by (symmetry; apply Nat.ltb_ge; simpl; lia).
  cbn [next_or res_bind unwrap_bytes]. rewrite parse_items by done.
  unfold tagged at 1. cbn [map_err res_bind].
  set (tl := flat_map attribute_tokens attrs ++ ParenthesisClose :: modifier_tokens since vanished).
  replace (fetch_loop (S (length (ParenthesisOpen :: tl))) t (ParenthesisOpen :: tl) [] false)
    with (fetch_loop (length (ParenthesisOpen :: tl)) t tl [] true) by done.
  unfold tl at 2. rewrite fetch_loop_attributes; [|done|unfold tl; simpl; lia].
  cbn [res_bind]. rewrite push_unique_all by done. rewrite app_nil_l.
  rewrite fetch_params_tokens by done. cbn [res_bind].
  by rewrite bool_decide_eq_false_2.
Qed.

Lemma parse_fetch_verbatim_witness :
  parse_fetch (mkRequest (b "a") (Fetch false)
    [Argument (b "1:3"); ParenthesisOpen; Argument (b "FLAGS");
     Argument (b "BODY"); Dot; Argument (b "PEEK"); BracketOpen; Argument (b "2"); Dot;
     Argument (b "HEADER"); Dot; Argument (b "FIELDS"); ParenthesisOpen; Argument (b "To");
     ParenthesisClose; BracketClose; Lt_; Argument (b "0"); Dot; Argument (b "64"); Gt_;
     ParenthesisClose; ParenthesisOpen; Argument (b "CHANGEDSINCE"); Argument (b "9"); ParenthesisClose]) =
  Ok {| fetch_tag := b "a"; fetch_sequence_set := Range (Some 1) (Some 3);
        attributes := [AFlags; ABodySection true [SecPart 2; SecHeaderFields false [b "To"]] (Some (0, 64))];
        changed_since := Some 9; include_vanished := false |}.
Proof.
  apply (parse_fetch_verbatim (b "a") false [Range (Some 1) (Some 3)]
    [AFlags; ABodySection true [SecPart 2; SecHeaderFields false [b "To"]] (Some (0, 64))] (Some 9) false).
  - repeat constructor; unfold is_u32; simpl; lia.
  - discriminate.
  - repeat constructor; try discriminate; unfold is_u32; simpl; try lia; repeat constructor; by eexists.
  - by apply (bool_decide_unpack _); vm_compute.
  - discriminate.
  - unfold is_u64. lia.
Defined.

Lemma returns_parse_fetch q : returns (parse_fetch q).
Proof.
  unfold parse_fetch. case_match; [done|]. apply returns_bind; [auto with imap|]. intros [s ts] _.
  apply returns_bind; [auto with imap|]. intros s' _. apply returns_bind.
  - exact (returns_fetch_loop _ _ ts [] false (Nat.lt_succ_diag_r _)).
  - intros [attrs ts1] _. apply returns_bind.
    + destruct ts1 as [|[| | | | | | | |] ts1]; try done. apply returns_fetch_params.
    + intros [since v] _. by case_match.
Qed.
#[export] Hint Resolve returns_parse_fetch : imap.

(** FETCH requests are always answered with arguments or an error: section
    specifiers, partial ranges and field lists that break off early, or contain
    anything unexpected, never make the parser panic or loop. *)
Theorem parse_fetch_returns q : returns (parse_fetch q).
Proof. auto with imap. Qed.
