(* ===== verification/Tags.v ===== *)
(** * Whom an answer is for

    A client tells the answers to its commands apart by their tags.  Every
    parser of [parser/*.rs] keeps the tag of the request: in the arguments that
    it returns, and in the response that it refuses the request with. *)

From S2P Require Import Prelude Utf8 Utf7 Types Receiver Sequence Flags Wire Commands Parsers ParseSearch ParseFetch.

(** What a computation for the request with the tag [t] returns: a result with
    [P], or an error response with this tag. *)
Definition for_tag {A} (t : str) (P : A -> Prop) (r : Res StatusResponse A) : Prop :=
  match r with Ok a => P a | Err e => tag e = Some t | Panic | NoFuel => True end.

Abbreviation tags t := (for_tag t (fun _ => True)).

Lemma for_tag_bind {A B} t P (r : Res StatusResponse A) (k : A -> Res StatusResponse B) :
  tags t r -> (forall a, for_tag t P (k a)) -> for_tag t P (res_bind r k).
Proof. destruct r; cbn; auto. Qed.

Lemma tags_tagged {A} t (r : Res (list Piece) A) : tags t (tagged t r).
Proof. by destruct r. Qed.
Lemma tags_next_or t ts m : tags t (next_or ts (tagged_error t m)).
Proof. by destruct ts. Qed.
Lemma tags_next_unwrap t ts : tags t (next_unwrap ts).
Proof. by destruct ts. Qed.

Create HintDb tags.
#[export] Hint Resolve tags_tagged tags_next_or tags_next_unwrap : tags.

(** Straight-line code whose errors carry the tag. *)
Ltac tags_tac :=
  repeat first
    [ exact I
    | lazymatch goal with |- _ = _ => reflexivity end
    | solve [auto with tags]
    | apply for_tag_bind; [| intros ?]
    | case_match
    | progress cbn ].

Lemma tags_paren_list {A} t (f : bytes -> Res StatusResponse A) m ts :
  (forall v, tags t (f v)) -> tags t (paren_list f (tagged_error t m) ts).
Proof. intros Hf. induction ts as [|tok ts IH]; [done|]. destruct tok; tags_tac. Qed.
#[export] Hint Extern 1 (for_tag _ _ (paren_list _ _ _)) => apply tags_paren_list; auto with tags : tags.

(** ** Loops *)
Lemma tags_capabilities t ts : tags t (capabilities_of t ts).
Proof. induction ts; tags_tac. Qed.

Lemma tags_list_patterns t ts : tags t (list_patterns t ts).
Proof. induction ts as [|tok ts IH]; [done|]. cbn [list_patterns]. destruct tok; tags_tac. Qed.

Lemma tags_return_options fuel t ts : tags t (return_options fuel t ts).
Proof. revert ts; induction fuel as [|fuel IH]; intros ts; [done|]. cbn [return_options]. tags_tac. Qed.

(** Induction for loops that take more than one token at a time. *)
Lemma length_ind {A} (P : list A -> Prop) :
  (forall l, (forall l', (length l' < length l)%nat -> P l') -> P l) -> forall l, P l.
Proof. apply (induction_ltof1 _ (@length A)). Qed.

Lemma tags_store_params t ts since : tags t (store_params t ts since).
Proof.
  revert since; induction ts as [ts IH] using length_ind; intros since.
  destruct ts as [|[p| | | | | | | |] ts]; try done. cbn [store_params]. case_match; [|done].
  destruct ts as [|v ts]; tags_tac. apply IH. cbn. lia.
Qed.

Lemma tags_select_params fuel t ts cs qr : tags t (select_params fuel t ts cs qr).
Proof.
  assert (Hq : forall ts, tags t (parse_qresync t ts)).
  { intros l. unfold parse_qresync, known_sequences, sequence_match. tags_tac. }
  revert ts cs qr; induction fuel as [|fuel IH]; intros ts cs qr; [done|]. cbn [select_params]. tags_tac.
Qed.

Lemma tags_append_messages `{Chrono} fuel t ts : tags t (parse_append_messages fuel t ts).
Proof.
  revert ts; induction fuel as [|fuel IH]; intros ts; [done|]. cbn [parse_append_messages]. unfold append_message. tags_tac.
Qed.

Lemma tags_search_prefix `{Charsets} fuel t ts options esearch decoder :
  tags t (search_prefix fuel t ts options esearch decoder).
Proof.
  revert ts options esearch decoder; induction fuel as [|fuel IH]; intros; [done|]. cbn [search_prefix]. tags_tac.
Qed.

Lemma tags_sort_criteria t ts is_ascending : tags t (sort_criteria t ts is_ascending).
Proof.
  revert is_ascending; induction ts as [|tok ts IH]; intros; [done|]. cbn [sort_criteria]. tags_tac.
Qed.

#[export] Hint Resolve tags_capabilities tags_list_patterns tags_return_options tags_store_params tags_select_params
  tags_append_messages tags_search_prefix tags_sort_criteria : tags.

(** *** FETCH *)
Lemma tags_header_field t value : tags t (header_field t value).
Proof. unfold header_field. by destruct (from_utf8 _). Qed.
#[export] Hint Resolve tags_header_field : tags.

Lemma tags_parse_section t value ts : tags t (parse_section t value ts).
Proof. unfold parse_section, parse_header, header_fields. tags_tac. Qed.
#[export] Hint Resolve tags_parse_section : tags.

Lemma tags_body_sections fuel t ts : tags t (body_sections fuel t ts).
Proof.
  revert ts; induction fuel as [|fuel IH]; intros ts; [done|]. cbn [body_sections]. tags_tac.
Qed.
Lemma tags_binary_sections t ts : tags t (binary_sections t ts).
Proof. induction ts as [|tok ts IH]; [done|]. cbn [binary_sections]. tags_tac. Qed.
#[export] Hint Resolve tags_body_sections tags_binary_sections : tags.

Lemma tags_parse_attribute t value ts : tags t (parse_attribute t value ts).
Proof.
  assert (Hb : forall peek l, tags t (body_section t peek l)) by (intros; unfold body_section; tags_tac).
  unfold parse_attribute, parse_rfc822, parse_body, parse_binary. tags_tac.
Qed.
#[export] Hint Resolve tags_parse_attribute : tags.

Lemma tags_fetch_loop fuel t ts attrs p : tags t (fetch_loop fuel t ts attrs p).
Proof.
  revert ts attrs p; induction fuel as [|fuel IH]; intros ts attrs p; [done|]. cbn [fetch_loop]. tags_tac.
Qed.

Lemma tags_fetch_params t ts since vanished : tags t (fetch_params t ts since vanished).
Proof.
  revert since vanished; induction ts as [ts IH] using length_ind; intros since vanished.
  destruct ts as [|[p| | | | | | | |] ts]; try done. cbn [fetch_params]. case_match; [destruct ts as [|v ts]|]; tags_tac.
  all: apply IH; cbn; lia.
Qed.
#[export] Hint Resolve tags_fetch_loop tags_fetch_params : tags.

(** ** The parsers *)
Section Parsers.
Context `{Chrono} `{Charsets} (q : Request Command) (v : ProtocolVersion).

Lemma parse_login_tag : for_tag (req_tag q) (fun a => login_tag a = req_tag q) (parse_login q).
Proof. unfold parse_login. tags_tac. Qed.
Lemma parse_delete_tag : for_tag (req_tag q) (fun a => mbox_tag a = req_tag q) (parse_delete q v).
Proof. unfold parse_delete. tags_tac. Qed.
Lemma parse_subscribe_tag : for_tag (req_tag q) (fun a => mbox_tag a = req_tag q) (parse_subscribe q v).
Proof. unfold parse_subscribe. tags_tac. Qed.
Lemma parse_rename_tag : for_tag (req_tag q) (fun a => rename_tag a = req_tag q) (parse_rename q v).
Proof. unfold parse_rename. tags_tac. Qed.
Lemma parse_create_tag : for_tag (req_tag q) (fun a => create_tag a = req_tag q) (parse_create q v).
Proof. unfold parse_create, parse_special_use. tags_tac. Qed.
Lemma parse_enable_tag : for_tag (req_tag q) (fun a => enable_tag a = req_tag q) (parse_enable q).
Proof. unfold parse_enable. tags_tac. Qed.
Lemma parse_authenticate_tag : for_tag (req_tag q) (fun a => auth_tag a = req_tag q) (parse_authenticate q).
Proof. unfold parse_authenticate. tags_tac. Qed.
Lemma parse_status_tag : for_tag (req_tag q) (fun a => status_tag a = req_tag q) (parse_status q v).
Proof. unfold parse_status. tags_tac. Qed.
Lemma parse_copy_move_tag : for_tag (req_tag q) (fun a => cm_tag a = req_tag q) (parse_copy_move q).
Proof. unfold parse_copy_move. tags_tac. Qed.
Lemma parse_acl_tag : for_tag (req_tag q) (fun a => acl_tag a = req_tag q) (parse_acl q).
Proof. unfold parse_acl. tags_tac. Qed.
Lemma parse_select_tag : for_tag (req_tag q) (fun a => select_tag a = req_tag q) (parse_select q v).
Proof. unfold parse_select. tags_tac. Qed.
Lemma parse_append_tag : for_tag (req_tag q) (fun a => append_tag a = req_tag q) (parse_append q).
Proof. unfold parse_append. tags_tac. Qed.
Lemma parse_store_tag : for_tag (req_tag q) (fun a => store_tag a = req_tag q) (parse_store q).
Proof. unfold parse_store, store_operation. tags_tac. Qed.
Lemma parse_fetch_tag : for_tag (req_tag q) (fun a => fetch_tag a = req_tag q) (parse_fetch q).
Proof. unfold parse_fetch. tags_tac. Qed.

Lemma tags_single_filter t filters : tags t (single_filter t filters).
Proof. unfold single_filter. tags_tac. Qed.
#[local] Hint Resolve tags_single_filter : tags.

Lemma parse_search_tag : for_tag (req_tag q) (fun a => search_tag a = req_tag q) (parse_search q v).
Proof. unfold parse_search. tags_tac. Qed.
Lemma parse_sort_tag : for_tag (req_tag q) (fun a => search_tag a = req_tag q) (parse_sort q).
Proof. unfold parse_sort. tags_tac. Qed.
Lemma parse_thread_tag : for_tag (req_tag q) (fun a => thread_tag a = req_tag q) (parse_thread q).
Proof. unfold parse_thread. tags_tac. Qed.

(** [Arguments::unwrap_tag] of LIST *)
Definition list_tag (a : ListArguments) : str := match a with ListBasic t _ _ => t | ListExtended_ t _ _ _ _ => t end.

Lemma parse_list_tag : for_tag (req_tag q) (fun a => list_tag a = req_tag q) (parse_list q v).
Proof. unfold parse_list, parse_list_extended. tags_tac. Qed.
Lemma parse_lsub_tag : for_tag (req_tag q) (fun a => list_tag a = req_tag q) (parse_lsub q).
Proof. unfold parse_lsub. tags_tac. Qed.
End Parsers.
