(* ===== verification/Store.v ===== *)
(** * The embedded key-value store

    The server keeps its UID and modification-sequence tables in [sled], a
    library: its operations are the class [Sled], what the server relies on are
    the [SledLaws] (each call succeeds with its documented effect on the
    [contents], or fails, if [sled_fails], and leaves them alone), and [KV] is a
    concrete store that satisfies them, for the witnesses.  The functions of
    [src/core/message.rs] and [src/core/mailbox.rs] that run on the store are
    computations in the state and error monad [M]. *)

From Stdlib Require Import Sorted.
From S2P Require Import Prelude.

(** ** Big-endian integers: [to_be_bytes], [from_be_bytes] *)
Definition be32 (n : Z) : bytes :=
  [n / 16777216 mod 256; n / 65536 mod 256; n / 256 mod 256; n mod 256].
Definition from_be32 (x : bytes) : option Z :=
  match x with
  | [a; c; d; e] => Some (a * 16777216 + c * 65536 + d * 256 + e)
  | _ => None
  end.
Definition be64 (n : Z) : bytes := be32 (n / 2 ^ 32) ++ be32 n.
Definition from_be64 (x : bytes) : option Z :=
  match x with
  | [a; c; d; e; a'; c'; d'; e'] =>
      Some ((a * 16777216 + c * 65536 + d * 256 + e) * 2 ^ 32 +
            (a' * 16777216 + c' * 65536 + d' * 256 + e'))
  | _ => None
  end.

(** The order of keys: lexicographic on bytes. *)
Fixpoint lex_lt (x y : bytes) : Prop :=
  match x, y with
  | _, [] => False
  | [], _ :: _ => True
  | a :: x', c :: y' => a < c \/ (a = c /\ lex_lt x' y')
  end.

(** ** The state and error monad *)
Definition EM (DB E A : Type) : Type := DB -> Res E A * DB.
(** Most of the computations only tell that they failed. *)
Abbreviation M DB := (EM DB unit).

Definition ret {DB E A} (a : A) : EM DB E A := fun db => (Ok a, db).
Definition lift {DB E A} (r : Res E A) : EM DB E A := fun db => (r, db).
Definition bindM {DB E A B} (m : EM DB E A) (k : A -> EM DB E B) : EM DB E B := fun db =>
  match m db with
  | (Ok a, db') => k a db'
  | (Err e, db') => (Err e, db')
  | (Panic, db') => (Panic, db')
  | (NoFuel, db') => (NoFuel, db')
  end.
Notation "'do*' x ':=' m 'in' k" :=
  (bindM m (fun x => k))
  (at level 10, x pattern, m at level 100, k at level 200) : imap_scope.

(** [m] as a value: its error is not propagated. *)
Definition attempt {DB E F A} (m : EM DB E A) : EM DB F (Res E A) := fun db =>
  match m db with
  | (Panic, db') => (Panic, db')
  | (NoFuel, db') => (NoFuel, db')
  | (r, db') => (Ok r, db')
  end.

(** [m.await.map_err(f)] *)
Definition map_errM {DB E F A} (f : E -> F) (m : EM DB E A) : EM DB F A := fun db =>
  let '(r, db') := m db in (map_err f r, db').

(** ** The store *)

(** Keys and values are byte strings. *)
Abbreviation KV := (@gmap (list Z) _ list_countable (list Z)).

Inductive BatchOp := BatchInsert (k v : bytes) | BatchRemove (k : bytes).

Class Sled (DB : Type) := {
  contents : DB -> KV;
  sled_fails : Prop;   (* can a call fail? *)
  sled_get : bytes -> M DB (option bytes);
  sled_insert : bytes -> bytes -> M DB unit;
  sled_apply_batch : list BatchOp -> M DB unit;
  sled_scan_prefix : bytes -> M DB (list (bytes * bytes));
  sled_update_and_fetch : bytes -> (option bytes -> option bytes) -> M DB (option bytes)
}.

Definition apply_op (m : KV) (op : BatchOp) : KV :=
  match op with BatchInsert k v => <[k := v]> m | BatchRemove k => delete k m end.

(** The entries under a prefix, in key order. *)
Definition is_scan (m : KV) (prefix : bytes) (l : list (bytes * bytes)) : Prop :=
  (forall k v, (k, v) ∈ l <-> m !! k = Some v /\ starts_with prefix k = true) /\
  StronglySorted (fun x y => lex_lt x.1 y.1) l.

Class SledLaws (DB : Type) `{Sled DB} := {
  get_law : forall k db r db', sled_get k db = (r, db') ->
    contents db' = contents db /\ (r = Ok (contents db !! k) \/ (r = Err tt /\ sled_fails));
  insert_law : forall k v db r db', sled_insert k v db = (r, db') ->
    (r = Ok tt /\ contents db' = <[k := v]> (contents db)) \/ (r = Err tt /\ contents db' = contents db /\ sled_fails);
  apply_batch_law : forall ops db r db', sled_apply_batch ops db = (r, db') ->
    (r = Ok tt /\ contents db' = foldl apply_op (contents db) ops) \/
    (r = Err tt /\ contents db' = contents db /\ sled_fails);
  scan_prefix_law : forall p db r db', sled_scan_prefix p db = (r, db') ->
    contents db' = contents db /\ ((exists l, r = Ok l /\ is_scan (contents db) p l) \/ (r = Err tt /\ sled_fails));
  update_and_fetch_law : forall k f db r db', sled_update_and_fetch k f db = (r, db') ->
    (r = Ok (f (contents db !! k)) /\
     contents db' = partial_alter (fun _ => f (contents db !! k)) k (contents db)) \/
    (r = Err tt /\ contents db' = contents db /\ sled_fails)
}.

(** The system clock: seconds since 1970, [SystemTime::now()]. *)
Class Clock (DB : Type) := unix_now : M DB Z.
Class ClockLaws (DB : Type) `{Sled DB} `{Clock DB} :=
  unix_now_law : forall db r db', unix_now db = (r, db') ->
    contents db' = contents db /\ exists t, r = Ok t /\ is_u64 t.

(** ** A concrete store *)
Fixpoint lex_leb (x y : bytes) : bool :=
  match x, y with
  | [], _ => true
  | _ :: _, [] => false
  | a :: x', c :: y' => (a <? c) || ((a =? c) && lex_leb x' y')
  end.

Fixpoint insert_entry (e : bytes * bytes) (l : list (bytes * bytes)) : list (bytes * bytes) :=
  match l with
  | [] => [e]
  | x :: l' => if lex_leb e.1 x.1 then e :: l else x :: insert_entry e l'
  end.

Definition mem_scan (p : bytes) (m : KV) : list (bytes * bytes) :=
  foldr insert_entry [] (filter (fun e => starts_with p e.1 = true) (map_to_list m)).

#[export] Instance mem_sled : Sled KV := {
  contents m := m;
  sled_fails := False;
  sled_get k m := (Ok (m !! k), m);
  sled_insert k v m := (Ok tt, <[k := v]> m);
  sled_apply_batch ops m := (Ok tt, foldl apply_op m ops);
  sled_scan_prefix p m := (Ok (mem_scan p m), m);
  sled_update_and_fetch k f m := (Ok (f (m !! k)), partial_alter (fun _ => f (m !! k)) k m)
}.

(** ** Lemmas *)

Lemma lex_lt_irrefl x : ~ lex_lt x x.
Proof. induction x; simpl; [tauto|]. intros [?|[_ ?]]; [lia | done]. Qed.

Lemma lex_lt_trans x y z : lex_lt x y -> lex_lt y z -> lex_lt x z.
Proof.
  revert y z; induction x as [|a x IH]; intros [|c y] [|d z]; simpl; try done.
  intros [?|[-> ?]] [?|[-> ?]]; [left; lia | left; lia | by left | right; split; [done|]].
  by eapply IH.
Qed.

Lemma lex_leb_spec x y : lex_leb x y = true <-> x = y \/ lex_lt x y.
Proof.
  revert y; induction x as [|a x IH]; intros [|c y]; simpl; [by intuition|by intuition| |].
  - split; [done | by intros [?|?]].
  - rewrite orb_true_iff, andb_true_iff, IH, Z.ltb_lt, Z.eqb_eq. split.
    + intros [?|[-> [->|?]]]; auto.
    + intros [?|[?|[? ?]]]; simplify_eq; auto.
Qed.

Lemma lex_leb_total x y : lex_leb x y = false -> lex_lt y x.
Proof.
  revert y; induction x as [|a x IH]; intros [|c y]; simpl; try done.
  rewrite orb_false_iff, andb_false_iff, Z.ltb_ge, Z.eqb_neq.
  intros [? [?|?%IH]]; [left; lia|]. destruct (decide (c = a)); [by right | left; lia].
Qed.

Lemma lex_lt_app p x y : lex_lt (p ++ x) (p ++ y) <-> lex_lt x y.
Proof. induction p as [|a p IH]; simpl; [done|]. rewrite IH. intuition lia. Qed.

Lemma be32_length n : length (be32 n) = 4%nat.
Proof. done. Qed.

Lemma from_be32_be32 n : 0 <= n < 2 ^ 32 -> from_be32 (be32 n) = Some n.
Proof. intros Hn. unfold from_be32, be32. f_equal. divmod_lia. Qed.

Lemma be32_inj n m : 0 <= n < 2 ^ 32 -> 0 <= m < 2 ^ 32 -> be32 n = be32 m -> n = m.
Proof.
  intros Hn Hm E. pose proof (from_be32_be32 n Hn) as H1. rewrite E, from_be32_be32 in H1 by done.
  by simplify_eq.
Qed.

Lemma from_be64_be64 n : 0 <= n < 2 ^ 64 -> from_be64 (be64 n) = Some n.
Proof. intros Hn. unfold from_be64, be64, be32. cbn [app]. f_equal. divmod_lia. Qed.

(** Byte order of keys is numeric order of big-endian numbers. *)
Lemma be32_lt n m : 0 <= n < 2 ^ 32 -> 0 <= m < 2 ^ 32 -> lex_lt (be32 n) (be32 m) <-> n < m.
Proof.
  intros Hn Hm. unfold be32. cbn [lex_lt].
  rewrite !(Z.mod_small (_ / 16777216)) by (split; [apply Z.div_pos; lia | apply Z.div_lt_upper_bound; lia]).
  divmod_lia.
Qed.

Lemma insert_entry_elem e l x : x ∈ insert_entry e l <-> x = e \/ x ∈ l.
Proof.
  induction l as [|y l IH]; simpl; [by rewrite list_elem_of_singleton, elem_of_nil; intuition|].
  case_match; rewrite !elem_of_cons, ?IH; intuition.
Qed.

Lemma insert_entry_sorted e l :
  StronglySorted (fun x y => lex_lt x.1 y.1) l -> Forall (fun x => e.1 <> x.1) l ->
  StronglySorted (fun x y => lex_lt x.1 y.1) (insert_entry e l).
Proof.
  induction 1 as [|x l Hl IH Hx]; intros Hne; simpl; [by repeat constructor|].
  inv Hne as [|? ? Hne1 Hne2]. case_match eqn:E.
  - apply lex_leb_spec in E as [?|E]; [done|]. constructor; [by constructor|].
    constructor; [done|]. eapply Forall_impl; [|exact Hx]. intros y. by apply lex_lt_trans.
  - apply lex_leb_total in E. constructor; [by apply IH|].
    apply List.Forall_forall. intros y Hy. apply list_elem_of_In, insert_entry_elem in Hy as [->|Hy]; [done|].
    by apply (proj1 (list.Forall_forall _ _) Hx).
Qed.

Lemma mem_scan_spec p (m : KV) : is_scan m p (mem_scan p m).
Proof.
  unfold mem_scan.
  assert (Hm : forall k v, (k, v) ∈ filter (fun e => starts_with p e.1 = true) (map_to_list m) <->
                           m !! k = Some v /\ starts_with p k = true).
  { intros k v. rewrite list_elem_of_filter, elem_of_map_to_list. simpl. tauto. }
  assert (Hn : NoDup (filter (fun e => starts_with p e.1 = true) (map_to_list m)).*1).
  { eapply sublist_NoDup; [|apply fmap_sublist, sublist_filter]. apply NoDup_fst_map_to_list. }
  split.
  - intros k v. rewrite <- Hm. clear Hm Hn. induction (filter _ _) as [|e l IH]; simpl; [done|].
    by rewrite insert_entry_elem, elem_of_cons, IH.
  - clear Hm. induction (filter _ _) as [|e l IH]; simpl; [constructor|].
    cbn in Hn. apply list.NoDup_cons in Hn as [He Hn]. apply insert_entry_sorted; [by apply IH|].
    apply list.Forall_forall. intros x Hx Heq. apply He. rewrite Heq.
    assert (Hx' : x ∈ l).
    { clear -Hx. induction l as [|y l IH]; [done|]. simpl in Hx.
      apply insert_entry_elem in Hx as [->|Hx]; [by left | right; auto]. }
    by apply (list_elem_of_fmap_2 fst).
Qed.

#[export] Instance mem_sled_laws : SledLaws KV.
Proof.
  split; simpl; intros; simplify_eq; auto.
  split; [done|]. left. eexists; split; [done|]. apply mem_scan_spec.
Qed.

(** A clock that stands still. *)
Definition stopped_clock (t : Z) : Clock KV := fun m => (Ok t, m).
Lemma stopped_clock_laws t : is_u64 t -> @ClockLaws KV mem_sled (stopped_clock t).
Proof. intros Ht m r m' E. unfold unix_now, stopped_clock in E. simplify_eq. eauto. Qed.

(** *** Reasoning about the monad *)
Lemma bindM_ok {DB A B} (m : M DB A) (k : A -> M DB B) db v db' :
  bindM m k db = (Ok v, db') -> exists a db1, m db = (Ok a, db1) /\ k a db1 = (Ok v, db').
Proof. unfold bindM. destruct (m db) as [[a|e| |] db1]; try done. eauto. Qed.

Lemma bindM_ext {DB A B} (m : M DB A) (k k' : A -> M DB B) db :
  (forall a db', k a db' = k' a db') -> bindM m k db = bindM m k' db.
Proof. intros E. unfold bindM. by destruct (m db) as [[a|e| |] db']. Qed.

Lemma filter_sorted {A} (R : A -> A -> Prop) (P : A -> Prop) `{!forall x, Decision (P x)} l :
  StronglySorted R l -> StronglySorted R (filter P l).
Proof.
  induction 1 as [|x l Hs IH Hx]; [constructor|]. rewrite filter_cons. case_decide; [|done].
  constructor; [done|]. by apply forall_filter.
Qed.

Lemma sorted_app {A} (R : A -> A -> Prop) l1 l2 :
  StronglySorted R l1 -> StronglySorted R l2 -> (forall x y, x ∈ l1 -> y ∈ l2 -> R x y) ->
  StronglySorted R (l1 ++ l2).
Proof.
  induction 1 as [|x l Hs IH Hx]; intros H2 HR; [done|]. cbn [app].
  constructor; [apply IH; [done|]; intros; apply HR; [by right | done]|].
  apply Forall_app; split; [done|]. apply List.Forall_forall. intros y Hy%list_elem_of_In.
  apply HR; [by left | done].
Qed.

(** A sorted list without duplicates is determined by its elements. *)
Lemma sorted_unique {A} (R : A -> A -> Prop) (l1 l2 : list A) :
  (forall x, ~ R x x) -> (forall x y z, R x y -> R y z -> R x z) ->
  StronglySorted R l1 -> StronglySorted R l2 -> (forall x, x ∈ l1 <-> x ∈ l2) -> l1 = l2.
Proof.
  intros Hirr Htr H1. revert l2; induction H1 as [|x l1 Hs IH Hx]; intros l2 H2 He.
  - destruct l2 as [|y l2]; [done|]. pose proof (proj2 (He y) (list_elem_of_here _ _)) as Hn. inv Hn.
  - destruct H2 as [|y l2 Hs2 Hy]; [pose proof (proj1 (He x) (list_elem_of_here _ _)) as Hn; inv Hn|].
    assert (x = y) as ->.
    { destruct (proj1 (elem_of_cons l2 x y) (proj1 (He x) (list_elem_of_here _ _))) as [|Hin]; [done|].
      destruct (proj1 (elem_of_cons l1 y x) (proj2 (He y) (list_elem_of_here _ _))) as [|Hin2]; [done|].
      destruct (Hirr x). eapply Htr;
        [apply (proj1 (list.Forall_forall _ _) Hx _ Hin2) | apply (proj1 (list.Forall_forall _ _) Hy _ Hin)]. }
    f_equal. apply IH; [done|]. intros z. specialize (He z). rewrite !elem_of_cons in He.
    split; intros Hz.
    + destruct (proj1 He (or_intror Hz)) as [->|]; [|done].
      destruct (Hirr y). by apply (proj1 (list.Forall_forall _ _) Hx).
    + destruct (proj2 He (or_intror Hz)) as [->|]; [|done].
      destruct (Hirr y). by apply (proj1 (list.Forall_forall _ _) Hy).
Qed.

(** ** Weakest preconditions

    [wp m Q c]: from a store with contents [c], [m] returns a value and contents
    that satisfy [Q], or an error when the store can fail; it never panics and
    never runs out of fuel. *)
Section Wp.
Context {DB : Type} `{SledLaws DB} `{!Clock DB} `{!ClockLaws DB}.

Definition wp {A} (m : M DB A) (Q : A -> KV -> Prop) (c : KV) : Prop :=
  forall db, contents db = c ->
    match m db with
    | (Ok a, db') => Q a (contents db')
    | (Err _, _) => sled_fails
    | (Panic, _) | (NoFuel, _) => False
    end.

Lemma wp_ret {A} (a : A) (Q : A -> KV -> Prop) c : Q a c -> wp (ret a) Q c.
Proof. by intros HQ db <-. Qed.

Lemma wp_lift_ok {A} (a : A) (Q : A -> KV -> Prop) c : Q a c -> wp (lift (Ok a)) Q c.
Proof. by intros HQ db <-. Qed.

Lemma wp_lift_err {A} (Q : A -> KV -> Prop) c : sled_fails -> wp (lift (Err tt)) Q c.
Proof. by intros Hf db <-. Qed.

Lemma wp_bind {A B} (m : M DB A) (k : A -> M DB B) (Q : B -> KV -> Prop) c :
  wp m (fun a => wp (k a) Q) c -> wp (bindM m k) Q c.
Proof.
  intros Hm db Hc. specialize (Hm db Hc). unfold bindM.
  destruct (m db) as [[a|e| |] db']; try done. by apply Hm.
Qed.

Lemma wp_ext {A} (m m' : M DB A) (Q : A -> KV -> Prop) c :
  (forall db, m db = m' db) -> wp m Q c -> wp m' Q c.
Proof. intros E Hm db Hc. rewrite <- E. by apply Hm. Qed.

Lemma wp_mono {A} (m : M DB A) (Q Q' : A -> KV -> Prop) c :
  wp m Q c -> (forall a c', Q a c' -> Q' a c') -> wp m Q' c.
Proof.
  intros Hm HQ db Hc. specialize (Hm db Hc).
  destruct (m db) as [[a|e| |] db']; try done. by apply HQ.
Qed.

Lemma wp_get k (Q : option bytes -> KV -> Prop) c : Q (c !! k) c -> wp (sled_get k) Q c.
Proof.
  intros HQ db <-. destruct (sled_get k db) as [r db'] eqn:E.
  destruct (get_law _ _ _ _ E) as [Hc [-> | [-> ?]]]; [by rewrite Hc | done].
Qed.

Lemma wp_insert k v (Q : unit -> KV -> Prop) c :
  Q tt (<[k := v]> c) -> wp (sled_insert k v) Q c.
Proof.
  intros HQ db <-. destruct (sled_insert k v db) as [r db'] eqn:E.
  destruct (insert_law _ _ _ _ _ E) as [[-> Hc] | (-> & Hc & ?)]; [by rewrite Hc | done].
Qed.

Lemma wp_attempt_insert k v (Q : Res unit unit -> KV -> Prop) c :
  Q (Ok tt) (<[k := v]> c) -> (sled_fails -> Q (Err tt) c) -> wp (attempt (sled_insert k v)) Q c.
Proof.
  intros H1 H2 db <-. unfold attempt. destruct (sled_insert k v db) as [r db'] eqn:E.
  destruct (insert_law _ _ _ _ _ E) as [[-> Hc] | (-> & Hc & ?)]; rewrite Hc; auto.
Qed.

Lemma wp_batch ops (Q : unit -> KV -> Prop) c :
  Q tt (foldl apply_op c ops) -> wp (sled_apply_batch ops) Q c.
Proof.
  intros HQ db <-. destruct (sled_apply_batch ops db) as [r db'] eqn:E.
  destruct (apply_batch_law _ _ _ _ E) as [[-> Hc] | (-> & Hc & ?)]; [by rewrite Hc | done].
Qed.

Lemma wp_scan p (Q : list (bytes * bytes) -> KV -> Prop) c :
  (forall l, is_scan c p l -> Q l c) -> wp (sled_scan_prefix p) Q c.
Proof.
  intros HQ db <-. destruct (sled_scan_prefix p db) as [r db'] eqn:E.
  destruct (scan_prefix_law _ _ _ _ E) as [Hc [(l & -> & Hl) | [-> ?]]]; [|done].
  rewrite Hc. auto.
Qed.

Lemma wp_update_and_fetch k f (Q : option bytes -> KV -> Prop) c :
  Q (f (c !! k)) (partial_alter (fun _ => f (c !! k)) k c) ->
  wp (sled_update_and_fetch k f) Q c.
Proof.
  intros HQ db <-. destruct (sled_update_and_fetch k f db) as [r db'] eqn:E.
  destruct (update_and_fetch_law _ _ _ _ _ E) as [[-> Hc] | (-> & Hc & ?)]; [by rewrite Hc | done].
Qed.

Lemma wp_now (Q : Z -> KV -> Prop) c : (forall t, is_u64 t -> Q t c) -> wp unix_now Q c.
Proof.
  intros HQ db <-. destruct (unix_now db) as [r db'] eqn:E.
  destruct (unix_now_law _ _ _ E) as [Hc (t & -> & Ht)]. rewrite Hc. auto.
Qed.

Lemma wp_if {A} (t : bool) (m1 m2 : M DB A) (Q : A -> KV -> Prop) c :
  (t = true -> wp m1 Q c) -> (t = false -> wp m2 Q c) -> wp (if t then m1 else m2) Q c.
Proof. destruct t; auto. Qed.
End Wp.

#[export] Hint Resolve wp_ret : imap.

(** One step of a computation on the store. *)
Ltac wp_step :=
  lazymatch goal with
  | |- wp (bindM _ _) _ _ => apply wp_bind
  | |- wp (ret _) _ _ => apply wp_ret
  | |- wp (sled_get _) _ _ => apply wp_get
  | |- wp (sled_insert _ _) _ _ => apply wp_insert
  | |- wp (attempt (sled_insert _ _)) _ _ => apply wp_attempt_insert; [|intros ?]
  | |- wp (sled_apply_batch _) _ _ => apply wp_batch
  | |- wp (sled_scan_prefix _) _ _ => apply wp_scan; intros ? ?
  | |- wp (sled_update_and_fetch _ _) _ _ => apply wp_update_and_fetch
  | |- wp unix_now _ _ => apply wp_now; intros ? ?
  | |- wp (lift (Ok _)) _ _ => apply wp_lift_ok
  | |- wp (lift (ok_or (Some _) _)) _ _ => apply wp_lift_ok
  | |- wp (lift (Err _)) _ _ => apply wp_lift_err; assumption
  end.
Ltac wp_steps := repeat wp_step.
