(* ===== verification/UidStore.v ===== *)
(** * UIDs and the messages of a mailbox: [src/core/message.rs]

    JMAP identifies a message by an opaque string, IMAP by a 32-bit UID.  The
    server keeps the correspondence in the key-value store, one family of keys
    per mailbox ([JMAP_TO_UID], [UID_TO_JMAP], [UID_NEXT], [UID_VALIDITY],
    [JMAP_DELETED_IDS]).  Each function below is the closure that the source
    hands to [spawn_worker], as a computation on the store. *)

From S2P Require Import Prelude Utf8 Store.

Record MailboxId := mkMailboxId { account_id : str; mailbox_id : option str }.

#[export] Instance MailboxId_eq_dec : EqDecision MailboxId.
Proof. solve_decision. Defined.

Record MailboxData := mkMailboxData {
  md_uid_next : Z;
  md_uid_validity : Z;
  md_jmap_ids : list str;
  md_imap_uids : list Z;
  md_total_messages : nat;
  md_last_state : str
}.

Inductive MappingOptions := MapNone | AddIfMissing | IncludeDeleted | OnlyIncludeDeleted.

#[export] Instance MappingOptions_eq_dec : EqDecision MappingOptions.
Proof. solve_decision. Defined.

Definition JMAP_TO_UID : Z := 0.
Definition UID_TO_JMAP : Z := 1.
Definition UID_NEXT : Z := 2.
Definition UID_VALIDITY : Z := 3.
Definition MODSEQ_TO_STATE : Z := 4.
Definition STATE_TO_MODSEQ : Z := 5.
Definition HIGHEST_MODSEQ : Z := 6.
Definition JMAP_DELETED_IDS : Z := 7.

(** ** Keys *)
Definition serialize_key (mailbox : MailboxId) (separator : Z) (value : bytes) : bytes :=
  account_id mailbox ++ [0] ++ default [] (mailbox_id mailbox) ++ [separator] ++ value.

Definition serialize_key_prefix (mailbox : MailboxId) (separator : Z) : bytes :=
  account_id mailbox ++ [0] ++ default [] (mailbox_id mailbox) ++ [separator].

Definition serialize_key_account_prefix (account_id : str) : bytes := account_id ++ [0].

Definition serialize_uid_next_key (mailbox : MailboxId) : bytes :=
  account_id mailbox ++ [0] ++ default [] (mailbox_id mailbox) ++ [UID_NEXT].

Definition serialize_uid_validity_key (mailbox : MailboxId) : bytes :=
  account_id mailbox ++ [0] ++ default [] (mailbox_id mailbox) ++ [UID_VALIDITY].

Definition serialize_modseq (account_id value : bytes) (separator : Z) : bytes :=
  account_id ++ [0] ++ value ++ [separator].

Definition serialize_highestmodseq (account_id : bytes) : bytes :=
  account_id ++ [0] ++ [HIGHEST_MODSEQ].

(** The UID counter: one more than the stored 32-bit number, which wraps. *)
Definition increment_uid (old : option bytes) : option bytes :=
  match old with
  | Some x => match from_be32 x with
              | Some n => Some (be32 (wrap32 (n + 1)))
              | None => None
              end
  | None => Some (be32 1)
  end.

(** [Vec::push] that grows in place and [found_ids[pos] = 1] *)
Definition mark (found : list bool) (pos : nat) : list bool := <[pos := true]> found.

Section Operations.
Context {DB : Type} `{Sled DB} `{Clock DB}.

(** [u32::from_be_bytes(x.try_into().map_err(..)?)] *)
Definition read_u32 (x : bytes) : M DB Z := lift (ok_or (from_be32 x) tt).
(** [String::from_utf8(x).map_err(..)?] *)
Definition read_string (x : bytes) : M DB str := lift (ok_or (from_utf8 x) tt).

(** ** [trait ImapUtils] *)
Definition insert_jmap_id (mailbox : MailboxId) (jmap_id uid_next_key : bytes) : M DB bytes :=
  do* uid := sled_update_and_fetch uid_next_key increment_uid in
  do* uid := lift (ok_or uid tt) in
  do* r1 := attempt (sled_insert (serialize_key mailbox JMAP_TO_UID jmap_id) uid) in
  do* r2 := attempt (sled_insert (serialize_key mailbox UID_TO_JMAP uid) jmap_id) in
  do* _ := lift r1 in
  do* _ := lift r2 in
  ret uid.

Definition uid_next (mailbox : MailboxId) : M DB Z :=
  do* uid_bytes := sled_get (serialize_uid_next_key mailbox) in
  match uid_bytes with
  | Some uid_bytes => do* n := read_u32 uid_bytes in ret (wrap32 (n + 1))
  | None => ret 1
  end.

Definition uid_validity (mailbox : MailboxId) : M DB Z :=
  let uid_validity_key := serialize_uid_validity_key mailbox in
  do* uid_bytes := sled_get uid_validity_key in
  match uid_bytes with
  | Some uid_bytes => read_u32 uid_bytes
  | None =>
      do* now := unix_now in
      let uid_validity := wrap32 (Z.max 0 (now - 946684800) / 3600) in
      do* _ := sled_insert uid_validity_key (be32 uid_validity) in
      ret uid_validity
  end.

(** ** [Core::update_uids] *)

(** The positions of the new ids; a repeated id keeps its last position. *)
Definition positions (ids : list str) : gmap (list Z) nat :=
  foldl (fun m p => <[p.2 := p.1]> m) ∅ (imap (fun i x => (i, x)) ids).

(** The state of the scan. *)
Record Scan := mkScan {
  jmap_ids_map : gmap (list Z) nat;
  sc_imap_uids : list Z;
  sc_jmap_ids : list str;
  found_ids : list bool;
  sc_batch : list BatchOp;
  has_deletions : bool
}.

Fixpoint scan_loop (mailbox : MailboxId) (prefix : bytes) (kvs : list (bytes * bytes)) (s : Scan)
  : M DB Scan :=
  match kvs with
  | [] => ret s
  | (key, value) :: kvs' =>
      if (length prefix <? length key)%nat then
        let imap_uid := drop (length prefix) key in
        match jmap_ids_map s !! value with
        | Some pos =>
            do* uid := read_u32 imap_uid in
            do* jmap_id := read_string value in
            scan_loop mailbox prefix kvs'
              (mkScan (delete value (jmap_ids_map s)) (sc_imap_uids s ++ [uid])
                 (sc_jmap_ids s ++ [jmap_id]) (mark (found_ids s) pos) (sc_batch s)
                 (has_deletions s))
        | None =>
            do* now := unix_now in
            scan_loop mailbox prefix kvs'
              (mkScan (jmap_ids_map s) (sc_imap_uids s) (sc_jmap_ids s) (found_ids s)
                 (sc_batch s ++
                  [BatchInsert (serialize_key mailbox JMAP_DELETED_IDS value) (imap_uid ++ be64 now);
                   BatchRemove key; BatchRemove (serialize_key mailbox JMAP_TO_UID value)])
                 true)
        end
      else scan_loop mailbox prefix kvs' s
  end.

(** Ids without a UID get one. *)
Fixpoint insert_loop (mailbox : MailboxId) (uid_next_key : bytes) (todo : list (bool * str))
    (jmap_ids : list str) (imap_uids : list Z) : M DB (list str * list Z) :=
  match todo with
  | [] => ret (jmap_ids, imap_uids)
  | (true, _) :: todo' => insert_loop mailbox uid_next_key todo' jmap_ids imap_uids
  | (false, jmap_id) :: todo' =>
      do* imap_uid := insert_jmap_id mailbox jmap_id uid_next_key in
      do* uid := read_u32 imap_uid in
      insert_loop mailbox uid_next_key todo' (jmap_ids ++ [jmap_id]) (imap_uids ++ [uid])
  end.

Definition update_uids (mailbox : MailboxId) (update_jmap_ids : list str) : M DB MailboxData :=
  do* uid_validity := uid_validity mailbox in
  let prefix := serialize_key_prefix mailbox UID_TO_JMAP in
  do* kvs := sled_scan_prefix prefix in
  do* s := scan_loop mailbox prefix kvs
             (mkScan (positions update_jmap_ids) [] []
                (replicate (length update_jmap_ids) false) [] false) in
  do* _ := (if has_deletions s then sled_apply_batch (sc_batch s) else ret tt) in
  do* ids := (if decide (jmap_ids_map s = ∅) then ret (sc_jmap_ids s, sc_imap_uids s)
              else insert_loop mailbox (serialize_uid_next_key mailbox)
                     (zip (found_ids s) update_jmap_ids) (sc_jmap_ids s) (sc_imap_uids s)) in
  do* uid_next := uid_next mailbox in
  ret (mkMailboxData uid_next uid_validity ids.1 ids.2 (length ids.2) []).

(** ** [Core::jmap_to_imap], [Core::imap_to_jmap] *)
Definition push_uid {A} (jmap_ids : list str) (imap_uids : list Z) (jmap_id : option str) (uid : bytes)
    (k : list str -> list Z -> M DB A) : M DB A :=
  do* uid := read_u32 uid in
  k (jmap_ids ++ option_list jmap_id) (imap_uids ++ [uid]).

Fixpoint jmap_to_imap_loop (mailbox : MailboxId) (options : MappingOptions) (todo : list str)
    (jmap_ids : list str) (imap_uids : list Z) : M DB (list str * list Z) :=
  match todo with
  | [] => ret (jmap_ids, imap_uids)
  | jmap_id :: todo' =>
      let continue := jmap_to_imap_loop mailbox options todo' in
      let deleted :=
        do* uid := sled_get (serialize_key mailbox JMAP_DELETED_IDS jmap_id) in
        match uid with
        | Some uid =>
            do* uid := lift (if (length uid <? 4)%nat then Panic else Ok (take 4 uid)) in
            push_uid jmap_ids imap_uids None uid continue
        | None => continue jmap_ids imap_uids
        end in
      if negb (bool_decide (options = OnlyIncludeDeleted)) then
        do* uid := sled_get (serialize_key mailbox JMAP_TO_UID jmap_id) in
        match uid with
        | Some uid => push_uid jmap_ids imap_uids (Some jmap_id) uid continue
        | None =>
            if bool_decide (options = AddIfMissing) then
              do* uid := insert_jmap_id mailbox jmap_id (serialize_uid_next_key mailbox) in
              push_uid jmap_ids imap_uids (Some jmap_id) uid continue
            else if negb (bool_decide (options = IncludeDeleted)) then continue jmap_ids imap_uids
            else deleted
        end
      else deleted
  end.

Definition jmap_to_imap (mailbox : MailboxId) (update_jmap_ids : list str) (options : MappingOptions)
  : M DB (list str * list Z) :=
  jmap_to_imap_loop mailbox options update_jmap_ids [] [].

Fixpoint imap_to_jmap_loop (mailbox : MailboxId) (imap_ids : list Z) (jmap_ids : list str)
    (imap_uids : list Z) : M DB (list str * list Z) :=
  match imap_ids with
  | [] => ret (jmap_ids, imap_uids)
  | uid :: imap_ids' =>
      do* jmap_id := sled_get (serialize_key mailbox UID_TO_JMAP (be32 uid)) in
      match jmap_id with
      | Some jmap_id =>
          do* jmap_id := read_string jmap_id in
          imap_to_jmap_loop mailbox imap_ids' (jmap_ids ++ [jmap_id]) (imap_uids ++ [uid])
      | None => imap_to_jmap_loop mailbox imap_ids' jmap_ids imap_uids
      end
  end.

Definition imap_to_jmap (mailbox : MailboxId) (imap_ids : list Z) : M DB (list str * list Z) :=
  imap_to_jmap_loop mailbox imap_ids [] [].

(** ** Deletions *)
Fixpoint delete_ids_loop (mailbox : MailboxId) (jmap_ids : list str) (batch : list BatchOp)
    (has_deletions : bool) : M DB (list BatchOp * bool) :=
  match jmap_ids with
  | [] => ret (batch, has_deletions)
  | jmap_id :: jmap_ids' =>
      let key := serialize_key mailbox JMAP_TO_UID jmap_id in
      do* imap_uid := sled_get key in
      match imap_uid with
      | Some imap_uid =>
          do* now := unix_now in
          delete_ids_loop mailbox jmap_ids'
            (batch ++
             [BatchInsert (serialize_key mailbox JMAP_DELETED_IDS jmap_id) (imap_uid ++ be64 now);
              BatchRemove key; BatchRemove (serialize_key mailbox UID_TO_JMAP imap_uid)])
            true
      | None => delete_ids_loop mailbox jmap_ids' batch has_deletions
      end
  end.

Definition delete_ids (mailbox : MailboxId) (jmap_ids : list str) : M DB unit :=
  do* r := delete_ids_loop mailbox jmap_ids [] false in
  if r.2 then sled_apply_batch r.1 else ret tt.

Definition delete_account (account_id : str) : M DB unit :=
  do* kvs := sled_scan_prefix (serialize_key_account_prefix account_id) in
  sled_apply_batch (map (fun kv => BatchRemove kv.1) kvs).

(** [key.len() > prefix.len() && key[prefix.len()] <= UID_VALIDITY] *)
Definition uid_key (prefix : bytes) (kv : bytes * bytes) : bool :=
  match drop (length prefix) kv.1 with
  | c :: _ => c <=? UID_VALIDITY
  | [] => false
  end.

Definition delete_mailbox (account_id mailbox_id : str) : M DB unit :=
  let prefix := serialize_key_account_prefix account_id ++ mailbox_id in
  do* kvs := sled_scan_prefix prefix in
  sled_apply_batch
    (map (fun kv => BatchRemove kv.1)
       (filter (fun kv => uid_key prefix kv = true) kvs)).

Definition uids (mailbox : MailboxId) : M DB (Z * Z) :=
  do* uid_validity := uid_validity mailbox in
  do* uid_next := uid_next mailbox in
  ret (uid_validity, uid_next).

(** [iter().position(|&ch| ch <= UID_VALIDITY)] *)
Fixpoint separator_position (x : bytes) : option nat :=
  match x with
  | [] => None
  | c :: x' => if c <=? UID_VALIDITY then Some O else S <$> separator_position x'
  end.

Definition purged (account_prefix : bytes) (mailbox_keys : list str) (kv : bytes * bytes) : bool :=
  let key_part := drop (length account_prefix) kv.1 in
  match separator_position key_part with
  | Some pos => (0 <? pos)%nat && negb (bool_decide (take pos key_part ∈ mailbox_keys))
  | None => false
  end.

(** [mailbox_keys]: the keys of [account.mailbox_data] *)
Definition purge_deleted_mailboxes (account_id : str) (mailbox_keys : list str) : M DB unit :=
  if decide (mailbox_keys = []) then ret tt
  else
    let account_prefix := serialize_key_account_prefix account_id in
    do* kvs := sled_scan_prefix account_prefix in
    let dead := filter (fun kv => purged account_prefix mailbox_keys kv = true) kvs in
    if decide (dead = []) then ret tt
    else sled_apply_batch (map (fun kv => BatchRemove kv.1) dead).

Definition expired (now ttl : Z) (kv : bytes * bytes) : bool :=
  (length kv.2 =? 12)%nat &&
  match from_be64 (drop 4 kv.2) with
  | Some insert_time => (insert_time <? now) && (ttl <=? now - insert_time)
  | None => false
  end.

Definition purge_deleted_ids (ttl : Z) : M DB Z :=
  do* now := unix_now in
  do* kvs := sled_scan_prefix [] in
  let dead := filter (fun kv => expired now ttl kv = true) kvs in
  do* _ := (if decide (dead = []) then ret tt
            else sled_apply_batch (map (fun kv => BatchRemove kv.1) dead)) in
  ret (Z.of_nat (length dead)).
End Operations.
