(* ===== verification/UidSpec.v ===== *)
(** * UIDs: what the mailbox tables represent

    The abstract state of a mailbox is a [UidMap]: its messages with their
    UIDs in ascending order, the last UID given out, its UIDVALIDITY and the
    UIDs of its deleted messages.  [represents] relates the contents of the
    store to it, and each operation of [UidStore] is proved to implement the
    corresponding operation on [UidMap]s. *)

From Stdlib Require Import Sorted.
From S2P Require Import Prelude Utf8 Store UidStore.

Record UidMap := mkUidMap {
  um_entries : list (Z * str);
  um_last : Z;
  um_validity : option Z;
  um_deleted : gmap (list Z) Z
}.

Definition uids_of (es : list (Z * str)) : list Z := map fst es.
Definition ids_of (es : list (Z * str)) : list str := map snd es.

Record um_wf (um : UidMap) : Prop := {
  wf_sorted : StronglySorted Z.lt (uids_of (um_entries um));
  wf_bounds : Forall (fun e => 1 <= e.1 <= um_last um) (um_entries um);
  wf_nodup : NoDup (ids_of (um_entries um));
  wf_utf8 : Forall (fun e => from_utf8 e.2 = Some e.2) (um_entries um);
  wf_last : is_u32 (um_last um);
  wf_validity : forall v, um_validity um = Some v -> is_u32 v
}.

Record represents (c : KV) (mb : MailboxId) (um : UidMap) : Prop := {
  r_wf : um_wf um;
  r_uid : forall x v, x <> [] ->
    c !! serialize_key mb UID_TO_JMAP x = Some v <-> exists uid, x = be32 uid /\ (uid, v) ∈ um_entries um;
  r_id : forall id v,
    c !! serialize_key mb JMAP_TO_UID id = Some v <-> exists uid, v = be32 uid /\ (uid, id) ∈ um_entries um;
  r_deleted : forall id,
    match c !! serialize_key mb JMAP_DELETED_IDS id with
    | Some v => exists uid t, v = be32 uid ++ be64 t /\ is_u32 uid /\ is_u64 t /\
                              um_deleted um !! id = Some uid
    | None => um_deleted um !! id = None
    end;
  r_last : c !! serialize_uid_next_key mb =
           if um_last um =? 0 then None else Some (be32 (um_last um));
  r_validity : c !! serialize_uid_validity_key mb = be32 <$> um_validity um
}.

(** ** Operations on the abstract state *)

(** A message arrives: it gets the next UID. *)
Definition um_add (um : UidMap) (id : str) : UidMap :=
  mkUidMap (um_entries um ++ [(um_last um + 1, id)]) (um_last um + 1) (um_validity um) (um_deleted um).

(** A message leaves. *)
Definition um_remove (um : UidMap) (uid : Z) (id : str) : UidMap :=
  mkUidMap (filter (fun e => e.2 <> id) (um_entries um)) (um_last um) (um_validity um)
    (<[id := uid]> (um_deleted um)).

Definition um_set_validity (um : UidMap) (v : Z) : UidMap :=
  mkUidMap (um_entries um) (um_last um) (Some v) (um_deleted um).

Definition um_empty : UidMap := mkUidMap [] 0 None ∅.

(** The mailbox holds exactly [ids]: the other messages leave, those without a
    UID get one, in the order of [ids]. *)
Definition um_dead (um : UidMap) (ids : list str) : list (Z * str) :=
  filter (fun e => e.2 ∉ ids) (um_entries um).
Definition um_new (um : UidMap) (ids : list str) : list str :=
  filter (fun id => id ∉ ids_of (um_entries um)) ids.
Definition um_sync (um : UidMap) (ids : list str) : UidMap :=
  foldl um_add (foldl (fun um e => um_remove um e.1 e.2) um (um_dead um ids)) (um_new um ids).

(** ** Keys *)
Lemma serialize_key_eq mb s v s' v' :
  serialize_key mb s v = serialize_key mb s' v' <-> s = s' /\ v = v'.
Proof.
  unfold serialize_key. split; [|by intros [-> ->]].
  rewrite !app_inv_head_iff. cbn [app]. intros; by simplify_eq.
Qed.

Lemma prefix_key mb s x : serialize_key_prefix mb s ++ x = serialize_key mb s x.
Proof. unfold serialize_key_prefix, serialize_key. by rewrite <- !app_assoc. Qed.

Lemma next_key mb : serialize_uid_next_key mb = serialize_key mb UID_NEXT [].
Proof. done. Qed.
Lemma validity_key mb : serialize_uid_validity_key mb = serialize_key mb UID_VALIDITY [].
Proof. done. Qed.

Lemma lookup_key_insert mb s v x s' v' (c : KV) :
  <[serialize_key mb s v := x]> c !! serialize_key mb s' v' =
  if decide (s = s' /\ v = v') then Some x else c !! serialize_key mb s' v'.
Proof.
  case_decide as Hd; [destruct Hd as [-> ->]; apply lookup_insert_eq|].
  apply lookup_insert_ne. by rewrite serialize_key_eq.
Qed.

Lemma lookup_key_delete mb s v s' v' (c : KV) :
  delete (serialize_key mb s v) c !! serialize_key mb s' v' =
  if decide (s = s' /\ v = v') then None else c !! serialize_key mb s' v'.
Proof.
  case_decide as Hd; [destruct Hd as [-> ->]; apply lookup_delete_eq|].
  apply lookup_delete_ne. by rewrite serialize_key_eq.
Qed.

(** Look a key of a mailbox up through the updates of the same mailbox. *)
Ltac key_simpl :=
  rewrite ?next_key, ?validity_key in *;
  repeat (rewrite ?lookup_key_insert, ?lookup_key_delete;
          repeat (rewrite decide_False by (intros [? ?]; discriminate))).

(** ** Well-formedness of the abstract operations *)
Lemma uids_of_app l1 l2 : uids_of (l1 ++ l2) = uids_of l1 ++ uids_of l2.
Proof. apply map_app. Qed.
Lemma ids_of_app l1 l2 : ids_of (l1 ++ l2) = ids_of l1 ++ ids_of l2.
Proof. apply map_app. Qed.

Lemma elem_ids_of es id : id ∈ ids_of es <-> exists uid, (uid, id) ∈ es.
Proof.
  unfold ids_of. rewrite list_elem_of_In, in_map_iff. split.
  - intros ([u i] & <- & H). exists u. by apply list_elem_of_In.
  - intros [u H]. exists (u, id). by rewrite <- list_elem_of_In.
Qed.

Lemma sorted_snoc l x : StronglySorted Z.lt l -> Forall (fun y => y < x) l -> StronglySorted Z.lt (l ++ [x]).
Proof.
  induction 1 as [|y l Hs IH Hy]; intros Hf; simpl; [by repeat constructor|].
  inv Hf. constructor; [by apply IH|]. apply Forall_app; split; [done|]. by repeat constructor.
Qed.

Lemma sorted_filter (P : Z * str -> Prop) `{!forall x, Decision (P x)} es :
  StronglySorted Z.lt (uids_of es) -> StronglySorted Z.lt (uids_of (filter P es)).
Proof.
  induction es as [|e es IH]; [done|]. simpl uids_of. intros Hs. inv Hs as [|? ? Hs' Hf].
  rewrite filter_cons. case_decide; [|auto]. simpl. constructor; [auto|].
  unfold uids_of in *. apply List.Forall_forall. intros x Hx.
  apply in_map_iff in Hx as ([u i] & <- & Hx). apply list_elem_of_In, list_elem_of_filter in Hx as [_ Hx].
  apply (proj1 (List.Forall_forall _ _) Hf). apply (in_map fst es (u, i)). by apply list_elem_of_In.
Qed.

Lemma nodup_filter_ids (P : Z * str -> Prop) `{!forall x, Decision (P x)} es :
  NoDup (ids_of es) -> NoDup (ids_of (filter P es)).
Proof.
  induction es as [|e es IH]; [done|]. simpl ids_of. rewrite list.NoDup_cons. intros [Hn Hd].
  rewrite filter_cons. case_decide; [|auto]. simpl. apply list.NoDup_cons. split; [|auto].
  destruct e as [u i]. simpl in *. rewrite elem_ids_of in *. intros [u' Hu'].
  apply list_elem_of_filter in Hu' as [_ Hu']. eauto.
Qed.

Lemma um_add_wf um id :
  um_wf um -> id ∉ ids_of (um_entries um) -> from_utf8 id = Some id -> um_last um + 1 < 2 ^ 32 ->
  um_wf (um_add um id).
Proof.
  intros [Hs Hb Hn Hu Hl Hv] Hid Hutf Hlt. split; cbn.
  - rewrite uids_of_app. apply sorted_snoc; [done|]. unfold uids_of. apply Forall_map.
    eapply Forall_impl; [|exact Hb]. simpl; lia.
  - apply Forall_app; split; [|constructor; [unfold is_u32 in *; simpl; lia | constructor]].
    eapply Forall_impl; [|exact Hb]. simpl; lia.
  - rewrite ids_of_app. apply list.NoDup_app. split; [done|]. split; [|apply list.NoDup_singleton].
    intros x Hx Hx'. apply list_elem_of_singleton in Hx'. by subst.
  - apply Forall_app; split; [done|]. by repeat constructor.
  - unfold is_u32 in *. lia.
  - done.
Qed.

Lemma um_remove_wf um uid id : um_wf um -> um_wf (um_remove um uid id).
Proof.
  intros [Hs Hb Hn Hu Hl Hv]. split; cbn; auto using sorted_filter, nodup_filter_ids.
  - by apply forall_filter.
  - by apply forall_filter.
Qed.

(** An entry is determined by its id and, in a sorted table, by its UID. *)
Lemma sorted_uid_inj es uid i j :
  StronglySorted Z.lt (uids_of es) -> (uid, i) ∈ es -> (uid, j) ∈ es -> i = j.
Proof.
  induction es as [|e es IH]; [by intros _ ?%elem_of_nil|]. simpl uids_of. intros Hs. inv Hs as [|? ? Hs' Hf].
  assert (Hlt : forall k, (uid, k) ∈ es -> e.1 < uid).
  { intros k Hk. apply (proj1 (List.Forall_forall _ _) Hf). apply (in_map fst es (uid, k)).
    by apply list_elem_of_In. }
  rewrite !elem_of_cons. intros [<-|Hi] [Hj|Hj]; try by simplify_eq.
  - apply Hlt in Hj. simpl in Hj. lia.
  - subst. apply Hlt in Hi. simpl in Hi. lia.
  - by apply IH.
Qed.

Lemma nodup_id_inj es uid uid' i :
  NoDup (ids_of es) -> (uid, i) ∈ es -> (uid', i) ∈ es -> uid = uid'.
Proof.
  induction es as [|[u k] es IH]; [by intros _ ?%elem_of_nil|]. simpl ids_of.
  rewrite list.NoDup_cons, elem_ids_of, !elem_of_cons. intros [Hn Hd] [?|Hi] [?|Hj]; simplify_eq; auto.
  - destruct Hn; eauto.
  - destruct Hn; eauto.
Qed.

Lemma entry_u32 um uid id : um_wf um -> (uid, id) ∈ um_entries um -> 1 <= uid < 2 ^ 32.
Proof.
  intros [_ Hb _ _ Hl _] Hin. unfold is_u32 in Hl.
  pose proof (proj1 (list.Forall_forall _ _) Hb _ Hin). simpl in *. lia.
Qed.

(** ** The store operations on what they represent *)

Lemma represents_empty mb (c : KV) : (forall s v, c !! serialize_key mb s v = None) -> represents c mb um_empty.
Proof.
  intros Hc. split; cbn; rewrite ?next_key, ?validity_key; auto.
  - split; cbn; try solve [repeat constructor]; [unfold is_u32; lia | done].
  - intros x v Hx. rewrite Hc. split; [done|]. by intros (? & ? & ?%elem_of_nil).
  - intros id v. rewrite Hc. split; [done|]. by intros (? & ? & ?%elem_of_nil).
  - intros id. by rewrite Hc.
Qed.

Lemma be32_nonnil n : be32 n <> [].
Proof. done. Qed.

(** The three writes of [insert_jmap_id]. *)
Definition write_id (mb : MailboxId) (uid : Z) (id : str) (c : KV) : KV :=
  <[serialize_key mb UID_TO_JMAP (be32 uid) := id]>
    (<[serialize_key mb JMAP_TO_UID id := be32 uid]>
       (<[serialize_uid_next_key mb := be32 uid]> c)).

Lemma represents_add c mb um id :
  represents c mb um -> id ∉ ids_of (um_entries um) -> from_utf8 id = Some id -> um_last um + 1 < 2 ^ 32 ->
  represents (write_id mb (um_last um + 1) id c) mb (um_add um id).
Proof.
  intros [Hwf Hu Hi Hd Hl Hv] Hid Hutf Hlt. pose proof (wf_last _ Hwf) as Hl32.
  split; [by apply um_add_wf| | | | |]; unfold write_id; cbn [um_add um_entries um_last um_validity um_deleted].
  - intros x v Hx. key_simpl. case_decide as E.
    + destruct E as [_ <-]. split.
      * intros; simplify_eq. eexists; split; [done|]. apply elem_of_app; right. by left.
      * intros (uid & E & Hin%elem_of_app). destruct Hin as [Hin|Hin%list_elem_of_singleton]; [|by simplify_eq].
        pose proof (entry_u32 _ _ _ Hwf Hin).
        pose proof (proj1 (list.Forall_forall _ _) (wf_bounds _ Hwf) _ Hin). simpl in *.
        apply be32_inj in E; unfold is_u32 in *; lia.
    + key_simpl. rewrite Hu by done. split.
      * intros (uid & -> & Hin). eexists; split; [done|]. apply elem_of_app; by left.
      * intros (uid & -> & [Hin|Hin%list_elem_of_singleton]%elem_of_app); [eauto|]. simplify_eq. by destruct E.
  - intros i v. key_simpl. case_decide as E.
    + destruct E as [_ <-]. split.
      * intros; simplify_eq. eexists; split; [done|]. apply elem_of_app; right. by left.
      * intros (uid & -> & Hin%elem_of_app). destruct Hin as [Hin|Hin%list_elem_of_singleton]; [|by simplify_eq].
        destruct Hid. apply elem_ids_of; eauto.
    + key_simpl. rewrite Hi by done. split.
      * intros (uid & -> & Hin). eexists; split; [done|]. apply elem_of_app; by left.
      * intros (uid & -> & [Hin|Hin%list_elem_of_singleton]%elem_of_app); [eauto|]. simplify_eq. by destruct E.
  - intros i. key_simpl. apply Hd.
  - key_simpl. rewrite decide_True by done. unfold is_u32 in *. by if_lia.
  - key_simpl. done.
Qed.

(** The three entries of a deletion, from [update_uids] and [delete_ids]. *)
Definition delete_ops (mb : MailboxId) (uid : Z) (id : str) (t : Z) : list BatchOp :=
  [BatchInsert (serialize_key mb JMAP_DELETED_IDS id) (be32 uid ++ be64 t);
   BatchRemove (serialize_key mb UID_TO_JMAP (be32 uid));
   BatchRemove (serialize_key mb JMAP_TO_UID id)].

Lemma represents_remove c mb um uid id t :
  represents c mb um -> is_u32 uid -> is_u64 t ->
  (forall id', (uid, id') ∈ um_entries um -> id' = id) ->
  (forall uid', (uid', id) ∈ um_entries um -> uid' = uid) ->
  represents (foldl apply_op c (delete_ops mb uid id t)) mb (um_remove um uid id).
Proof.
  intros [Hwf Hu Hi Hd Hl Hv] Huid Ht Hc1 Hc2.
  split; [by apply um_remove_wf| | | | |]; cbn [delete_ops foldl apply_op um_remove um_entries um_last um_validity um_deleted].
  - intros x v Hx. key_simpl. case_decide as E.
    + destruct E as [_ <-]. split; [done|]. intros (uid' & E & [Hne Hin]%list_elem_of_filter).
      simpl in Hne. apply be32_inj in E; [|done|].
      * subst. apply Hc1 in Hin. by subst.
      * pose proof (entry_u32 _ _ _ Hwf Hin). lia.
    + key_simpl. rewrite Hu by done. split.
      * intros (uid' & -> & Hin). eexists; split; [done|]. apply list_elem_of_filter; split; [|done].
        simpl. intros ->. apply Hc2 in Hin. subst. by destruct E.
      * intros (uid' & -> & [_ Hin]%list_elem_of_filter). eauto.
  - intros i v. key_simpl. case_decide as E.
    + destruct E as [_ <-]. split; [done|]. by intros (uid' & _ & [Hne _]%list_elem_of_filter).
    + key_simpl. rewrite Hi by done. split.
      * intros (uid' & -> & Hin). eexists; split; [done|]. apply list_elem_of_filter; split; [|done].
        simpl. intros ->. by destruct E.
      * intros (uid' & -> & [_ Hin]%list_elem_of_filter). eauto.
  - intros i. key_simpl. case_decide as E.
    + destruct E as [_ <-]. exists uid, t. by rewrite lookup_insert_eq.
    + key_simpl. rewrite lookup_insert_ne by (intros ->; by destruct E). apply Hd.
  - key_simpl. done.
  - key_simpl. done.
Qed.

Lemma represents_validity c mb um v :
  represents c mb um -> is_u32 v ->
  represents (<[serialize_uid_validity_key mb := be32 v]> c) mb (um_set_validity um v).
Proof.
  intros [Hwf Hu Hi Hd Hl Hv] H32. split; cbn [um_set_validity um_entries um_last um_validity um_deleted].
  - destruct Hwf. split; try done. cbn. intros; by simplify_eq.
  - intros x y Hx. key_simpl. auto.
  - intros x y. key_simpl. auto.
  - intros x. key_simpl. apply Hd.
  - key_simpl. done.
  - key_simpl. by rewrite decide_True.
Qed.

(** ** The helpers of [sled::Db] *)
Section Helpers.
Context {DB : Type} `{SledLaws DB} `{!Clock DB} `{!ClockLaws DB}.

Lemma wp_insert_jmap_id c mb um id (Q : bytes -> KV -> Prop) :
  represents c mb um -> um_last um + 1 < 2 ^ 32 ->
  Q (be32 (um_last um + 1)) (write_id mb (um_last um + 1) id c) ->
  wp (insert_jmap_id mb id (serialize_uid_next_key mb)) Q c.
Proof.
  intros Hr Hlt HQ. pose proof (wf_last _ (r_wf _ _ _ Hr)) as Hl. unfold is_u32 in Hl.
  assert (Hn : increment_uid (c !! serialize_uid_next_key mb) = Some (be32 (um_last um + 1))).
  { rewrite (r_last _ _ _ Hr). unfold increment_uid. destruct (Z.eqb_spec (um_last um) 0) as [->|]; [done|].
    rewrite from_be32_be32 by lia. rewrite wrap32_mod, Z.mod_small by lia. done. }
  unfold insert_jmap_id. do 2 wp_step. rewrite Hn. wp_steps. exact HQ.
Qed.

Lemma wp_uid_next c mb um (Q : Z -> KV -> Prop) :
  represents c mb um -> Q (wrap32 (um_last um + 1)) c -> wp (uid_next mb) Q c.
Proof.
  intros Hr HQ. pose proof (wf_last _ (r_wf _ _ _ Hr)) as Hl. unfold uid_next. do 2 wp_step.
  rewrite (r_last _ _ _ Hr). destruct (Z.eqb_spec (um_last um) 0) as [E|].
  - wp_step. by rewrite E in HQ.
  - unfold read_u32. rewrite from_be32_be32 by done. do 3 wp_step. done.
Qed.

Lemma wp_uid_validity c mb um (Q : Z -> KV -> Prop) :
  represents c mb um ->
  (forall v c', is_u32 v -> (um_validity um = None \/ um_validity um = Some v) ->
     represents c' mb (um_set_validity um v) -> Q v c') ->
  wp (uid_validity mb) Q c.
Proof.
  intros Hr HQ. unfold uid_validity. do 2 wp_step. rewrite (r_validity _ _ _ Hr).
  destruct (um_validity um) as [v|] eqn:Ev; simpl fmap.
  - pose proof (wf_validity _ (r_wf _ _ _ Hr) _ Ev) as Hv.
    unfold read_u32. rewrite from_be32_be32 by done. wp_step. apply HQ; [done | by right |].
    destruct um. unfold um_set_validity. cbn in *. by rewrite <- Ev.
  - cbv beta iota. do 2 wp_step. cbv zeta. set (v := wrap32 _).
    assert (Hv : is_u32 v) by (unfold v; rewrite wrap32_mod; apply Z.mod_pos_bound; lia).
    wp_steps. apply HQ; [done | by left |]. by apply represents_validity.
Qed.
End Helpers.

(** ** The scan of the known UIDs *)
Definition entry_kv (mb : MailboxId) (e : Z * str) : bytes * bytes :=
  (serialize_key mb UID_TO_JMAP (be32 e.1), e.2).
Definition long_key (prefix : bytes) (kv : bytes * bytes) : bool :=
  (length prefix <? length kv.1)%nat.

Lemma entries_sorted mb es :
  StronglySorted Z.lt (uids_of es) -> Forall (fun e => is_u32 e.1) es ->
  StronglySorted (fun x y => lex_lt x.1 y.1) (map (entry_kv mb) es).
Proof.
  induction es as [|e es IH]; [constructor|]. simpl. intros Hs Hu. inv Hs as [|? ? Hs' Hf]. inv Hu.
  constructor; [by apply IH|]. apply List.Forall_forall. intros kv (e' & <- & Hin)%in_map_iff.
  unfold entry_kv, serialize_key. cbn [fst].
  rewrite !lex_lt_app, be32_lt; [|done|].
  - apply (proj1 (List.Forall_forall _ _) Hf). by apply in_map.
  - by apply (proj1 (List.Forall_forall _ _) H2).
Qed.

(** A scan of the prefix [UID_TO_JMAP] finds the entries in UID order. *)
Lemma scan_entries c mb um kvs :
  represents c mb um -> is_scan c (serialize_key_prefix mb UID_TO_JMAP) kvs ->
  filter (fun kv => long_key (serialize_key_prefix mb UID_TO_JMAP) kv = true) kvs =
  map (entry_kv mb) (um_entries um).
Proof.
  intros Hr [Hel Hs]. pose proof (r_wf _ _ _ Hr) as Hwf.
  apply (sorted_unique (fun x y : bytes * bytes => lex_lt x.1 y.1)).
  - intros x. apply lex_lt_irrefl.
  - intros x y z. apply lex_lt_trans.
  - by apply filter_sorted.
  - apply entries_sorted; [apply Hwf|]. apply List.Forall_forall. intros [u i] Hin.
    apply list_elem_of_In in Hin. pose proof (entry_u32 _ _ _ Hwf Hin). unfold is_u32. simpl. lia.
  - intros [k v]. rewrite list_elem_of_filter, Hel, starts_with_spec. unfold long_key. split.
    + intros [Hlen [Hk [x ->]]]. rewrite prefix_key in Hk. simpl in Hlen. rewrite length_app in Hlen.
      apply (r_uid _ _ _ Hr) in Hk as (uid & -> & Hin); [|destruct x; simpl in *; [lia | done]].
      apply list_elem_of_In, in_map_iff. exists (uid, v). split; [|by apply list_elem_of_In].
      unfold entry_kv. by rewrite prefix_key.
    + intros Hin. apply list_elem_of_In, in_map_iff in Hin as ([u i] & [= <- <-] & Hin).
      rewrite <- list_elem_of_In in Hin. split; [|split].
      * rewrite <- prefix_key. simpl. rewrite length_app, be32_length. lia.
      * apply (r_uid _ _ _ Hr); [done|]. eauto.
      * exists (be32 u). by rewrite prefix_key.
Qed.

Lemma scan_loop_long {DB} `{Sled DB} `{Clock DB} mb prefix kvs (s : Scan) (db : DB) :
  scan_loop mb prefix kvs s db =
  scan_loop mb prefix (filter (fun kv => long_key prefix kv = true) kvs) s db.
Proof.
  revert s db; induction kvs as [|[k v] kvs IH]; intros s db; [done|].
  rewrite filter_cons. case_decide as E; cbn [scan_loop]; unfold long_key in E; cbn [fst] in E.
  - rewrite E. case_match.
    + apply bindM_ext; intros uid db1. apply bindM_ext; intros id db2. apply IH.
    + apply bindM_ext; intros t db1. apply IH.
  - apply not_true_is_false in E. rewrite E. apply IH.
Qed.

Lemma positions_lookup ids id i :
  NoDup ids -> positions ids !! id = Some i <-> ids !! i = Some id.
Proof.
  unfold positions. induction ids as [|x ids IH] using rev_ind.
  { intros _. cbn [imap foldl]. by rewrite lookup_empty. }
  rewrite imap_app, foldl_app. cbn [imap foldl fst snd]. rewrite Nat.add_0_r.
  intros (Hd & Hx & _)%list.NoDup_app.
  assert (Hxn : x ∉ ids) by (intros Hin; apply (Hx x Hin); by left).
  destruct (decide (x = id)) as [->|Hne].
  - rewrite lookup_insert_eq. split.
    + intros; simplify_eq. apply list_lookup_middle. done.
    + intros [Hi|[Hlen Hi]]%lookup_app_Some.
      * destruct Hxn. by eapply list_elem_of_lookup_2.
      * apply list_lookup_singleton_Some in Hi as [Hi _]. f_equal. lia.
  - rewrite lookup_insert_ne, IH by done. split.
    + intros Hi. by apply lookup_app_l_Some.
    + intros [Hi|[_ Hi]]%lookup_app_Some; [done|].
      by apply list_lookup_singleton_Some in Hi as [_ ?].
Qed.

(** [ops] records the deletion of [dead], at some times. *)
Fixpoint deletes (mb : MailboxId) (dead : list (Z * str)) (ops : list BatchOp) : Prop :=
  match dead with
  | [] => ops = []
  | e :: dead' => exists t ops', is_u64 t /\ ops = delete_ops mb e.1 e.2 t ++ ops' /\ deletes mb dead' ops'
  end.

Lemma deletes_snoc mb dead ops e t :
  deletes mb dead ops -> is_u64 t -> deletes mb (dead ++ [e]) (ops ++ delete_ops mb e.1 e.2 t).
Proof.
  revert ops; induction dead as [|d dead IH]; intros ops Hd Ht; cbn [deletes app] in *.
  - subst. exists t, []. by rewrite app_nil_r.
  - destruct Hd as (t' & ops' & Ht' & -> & Hd). exists t', (ops' ++ delete_ops mb e.1 e.2 t).
    rewrite app_assoc. auto.
Qed.

(** The state of the scan when [es] has been visited. *)
Record scanned (mb : MailboxId) (ids : list str) (es : list (Z * str)) (s : Scan) : Prop := {
  s_map : forall id, jmap_ids_map s !! id = if decide (id ∈ ids_of es) then None else positions ids !! id;
  s_uids : sc_imap_uids s = uids_of (filter (fun e => e.2 ∈ ids) es);
  s_ids : sc_jmap_ids s = ids_of (filter (fun e => e.2 ∈ ids) es);
  s_found : found_ids s = map (fun id => bool_decide (id ∈ ids_of es)) ids;
  s_batch : deletes mb (filter (fun e => e.2 ∉ ids) es) (sc_batch s);
  s_has : has_deletions s = bool_decide (filter (fun e => e.2 ∉ ids) es <> [])
}.

Lemma scanned_nil mb ids :
  scanned mb ids [] (mkScan (positions ids) [] [] (replicate (length ids) false) [] false).
Proof.
  split; cbn [jmap_ids_map sc_imap_uids sc_jmap_ids found_ids sc_batch has_deletions]; try done.
  induction ids as [|x ids IH]; [done|]. cbn [length replicate map]. by f_equal.
Qed.

Lemma elem_ids_snoc es e id : id ∈ ids_of (es ++ [e]) <-> id ∈ ids_of es \/ id = e.2.
Proof. rewrite ids_of_app, elem_of_app. cbn [ids_of map]. by rewrite list_elem_of_singleton. Qed.

Lemma positions_None ids id : NoDup ids -> positions ids !! id = None <-> id ∉ ids.
Proof.
  intros Hd. rewrite eq_None_not_Some. unfold is_Some. setoid_rewrite positions_lookup; [|done].
  by rewrite list_elem_of_lookup.
Qed.

Lemma scanned_live mb ids es s e pos :
  NoDup ids -> e.2 ∉ ids_of es -> scanned mb ids es s -> jmap_ids_map s !! e.2 = Some pos ->
  scanned mb ids (es ++ [e])
    (mkScan (delete e.2 (jmap_ids_map s)) (sc_imap_uids s ++ [e.1]) (sc_jmap_ids s ++ [e.2])
       (mark (found_ids s) pos) (sc_batch s) (has_deletions s)).
Proof.
  intros Hd He [Hm Hu Hi Hf Hb Hh] Hpos. rewrite Hm, decide_False in Hpos by done.
  assert (Hin : e.2 ∈ ids).
  { apply positions_lookup in Hpos; [|done]. by eapply list_elem_of_lookup_2. }
  split; cbn [jmap_ids_map sc_imap_uids sc_jmap_ids found_ids sc_batch has_deletions];
    rewrite ?list.filter_app, ?filter_cons, ?list.filter_nil, ?decide_True by done.
  - intros id. destruct (decide (id = e.2)) as [->|Hne].
    + rewrite lookup_delete_eq, decide_True; [done|]. apply elem_ids_snoc; auto.
    + rewrite lookup_delete_ne, Hm by done. rewrite ids_of_app. cbn [ids_of map].
      repeat case_decide; try done; rewrite elem_of_app, list_elem_of_singleton in *; tauto.
  - by rewrite uids_of_app, Hu.
  - by rewrite ids_of_app, Hi.
  - rewrite Hf. unfold mark. apply list_eq. intros i.
    apply positions_lookup in Hpos; [|done].
    destruct (decide (i = pos)) as [->|Hne].
    + rewrite list_lookup_insert_eq.
      * change (map ?f ids) with (f <$> ids). rewrite list_lookup_fmap, Hpos. simpl. f_equal. symmetry.
        apply bool_decide_eq_true, elem_ids_snoc; auto.
      * rewrite length_map. by eapply lookup_lt_Some.
    + rewrite list_lookup_insert_ne by done.
      change (map ?f ids) with (f <$> ids). rewrite !list_lookup_fmap.
      destruct (ids !! i) as [x|] eqn:Ex; [|done]. simpl. f_equal. apply bool_decide_ext.
      rewrite elem_ids_snoc. split; [auto|]. intros [?| ->]; [done|].
      destruct Hne. by eapply list.NoDup_lookup.
  - rewrite decide_False by auto. by rewrite app_nil_r.
  - rewrite decide_False by auto. by rewrite app_nil_r.
Qed.

Lemma scanned_dead mb ids es s e t :
  NoDup ids -> e.2 ∉ ids_of es -> is_u64 t -> scanned mb ids es s -> jmap_ids_map s !! e.2 = None ->
  scanned mb ids (es ++ [e])
    (mkScan (jmap_ids_map s) (sc_imap_uids s) (sc_jmap_ids s) (found_ids s)
       (sc_batch s ++ delete_ops mb e.1 e.2 t) true).
Proof.
  intros Hd He Ht [Hm Hu Hi Hf Hb Hh] Hpos. rewrite Hm, decide_False, positions_None in Hpos by done.
  split; cbn [jmap_ids_map sc_imap_uids sc_jmap_ids found_ids sc_batch has_deletions];
    rewrite ?list.filter_app, ?filter_cons, ?list.filter_nil, ?(decide_False (P := e.2 ∈ ids)), ?app_nil_r by done.
  - intros id. rewrite Hm. rewrite ids_of_app. cbn [ids_of map].
    repeat case_decide; try done; rewrite elem_of_app, list_elem_of_singleton in *; [tauto|].
    destruct H0 as [?| ->]; [done|]. by apply positions_None.
  - done.
  - done.
  - rewrite Hf. apply map_ext_in. intros id Hid%list_elem_of_In. apply bool_decide_ext.
    rewrite elem_ids_snoc. split; [auto|]. intros [?| ->]; done.
  - rewrite decide_True by done. by apply deletes_snoc.
  - rewrite decide_True by done. symmetry. apply bool_decide_eq_true. by intros [_ ?]%app_eq_nil.
Qed.

Lemma nodup_ids_mid es1 e es2 : NoDup (ids_of (es1 ++ e :: es2)) -> e.2 ∉ ids_of es1.
Proof.
  rewrite ids_of_app. intros (_ & Hx & _)%list.NoDup_app Hin. apply (Hx _ Hin). cbn [ids_of map]. by left.
Qed.

(** ** Deletions and additions, in sequence *)
Lemma represents_deletes c mb um um0 dead ops :
  um_wf um -> represents c mb um0 -> (forall e, e ∈ um_entries um0 -> e ∈ um_entries um) ->
  (forall e, e ∈ dead -> e ∈ um_entries um) -> deletes mb dead ops ->
  represents (foldl apply_op c ops) mb (foldl (fun um e => um_remove um e.1 e.2) um0 dead).
Proof.
  intros Hwf. revert c um0 ops. induction dead as [|[u i] dead IH]; intros c um0 ops Hr0 H0 Hsub Hd;
    cbn [deletes foldl] in *; [by subst|].
  destruct Hd as (t & ops' & Ht & -> & Hd). rewrite foldl_app.
  assert (Hin : (u, i) ∈ um_entries um) by (apply Hsub; by left).
  assert (Hstep : represents (foldl apply_op c (delete_ops mb u i t)) mb (um_remove um0 u i)).
  { apply represents_remove; [done| |done| |].
    - pose proof (entry_u32 _ _ _ Hwf Hin). unfold is_u32; lia.
    - intros i' Hi'. eapply sorted_uid_inj; [apply Hwf| |]; eauto.
    - intros u' Hu'. eapply nodup_id_inj; [apply Hwf| |]; eauto. }
  eapply IH; [exact Hstep| | |done].
  - intros e He. apply H0. by apply list_elem_of_filter in He as [_ He].
  - intros e He. apply Hsub. by right.
Qed.

Section Sync.
Context {DB : Type} `{SledLaws DB} `{!Clock DB} `{!ClockLaws DB}.

Lemma wp_scan_loop c mb ids es1 es2 s (Q : Scan -> KV -> Prop) :
  NoDup ids -> NoDup (ids_of (es1 ++ es2)) ->
  Forall (fun e => is_u32 e.1 /\ from_utf8 e.2 = Some e.2) es2 -> scanned mb ids es1 s ->
  (forall s', scanned mb ids (es1 ++ es2) s' -> Q s' c) ->
  wp (scan_loop mb (serialize_key_prefix mb UID_TO_JMAP) (map (entry_kv mb) es2) s) Q c.
Proof.
  intros Hids. revert es1 s; induction es2 as [|e es2 IH]; intros es1 s Hn Hf Hs HQ.
  { cbn [map scan_loop]. wp_step. apply HQ. by rewrite app_nil_r. }
  inv Hf as [|? ? [Hu32 Hutf] Hf']. pose proof (nodup_ids_mid _ _ _ Hn) as He.
  cbn [map scan_loop]. unfold entry_kv at 1. rewrite <- (prefix_key mb UID_TO_JMAP) at 1.
  rewrite length_app, be32_length.
  replace (_ <? _)%nat with true by lia. rewrite <- prefix_key, drop_app_length.
  assert (Hn' : NoDup (ids_of ((es1 ++ [e]) ++ es2))) by by rewrite <- app_assoc.
  case_match eqn:Epos.
  - unfold read_u32, read_string. rewrite from_be32_be32 by done. rewrite Hutf. wp_steps.
    apply (IH (es1 ++ [e])); [done|done|by apply scanned_live|]. by rewrite <- app_assoc.
  - wp_steps. rewrite prefix_key. apply (IH (es1 ++ [e])); [done|done| |by rewrite <- app_assoc].
    by apply (scanned_dead mb ids es1 s e).
Qed.

Fixpoint missing (todo : list (bool * str)) : list str :=
  match todo with
  | [] => []
  | (true, _) :: todo' => missing todo'
  | (false, id) :: todo' => id :: missing todo'
  end.

Lemma wp_insert_loop c mb um todo jmap_ids imap_uids (Q : list str * list Z -> KV -> Prop) :
  represents c mb um -> NoDup (missing todo) ->
  Forall (fun id => (id ∉ ids_of (um_entries um)) /\ from_utf8 id = Some id) (missing todo) ->
  um_last um + Z.of_nat (length (missing todo)) < 2 ^ 32 ->
  (forall c', represents c' mb (foldl um_add um (missing todo)) ->
     Q (jmap_ids ++ missing todo, imap_uids ++ seqZ (um_last um + 1) (Z.of_nat (length (missing todo)))) c') ->
  wp (insert_loop mb (serialize_uid_next_key mb) todo jmap_ids imap_uids) Q c.
Proof.
  revert c um jmap_ids imap_uids; induction todo as [|[[] id] todo IH]; intros c um ids us Hr Hn Hf Hl HQ;
    cbn [missing insert_loop foldl length] in *.
  - wp_step. rewrite !app_nil_r in HQ. by apply HQ.
  - by eapply IH.
  - apply list.NoDup_cons in Hn as [Hid Hn]. inv Hf as [|? ? [Hni Hutf] Hf'].
    pose proof (wf_last _ (r_wf _ _ _ Hr)) as Hl32. unfold is_u32 in Hl32.
    apply wp_bind. eapply wp_insert_jmap_id; [exact Hr|lia|].
    unfold read_u32. rewrite from_be32_be32 by lia. wp_steps.
    eapply (IH _ (um_add um id)); [apply represents_add; auto; lia | done | | cbn; lia |].
    + apply List.Forall_forall. intros x Hx. pose proof (proj1 (List.Forall_forall _ _) Hf' _ Hx) as [Hx1 Hx2].
      split; [|done]. cbn [um_add um_entries]. rewrite elem_ids_snoc. cbn. intros [?| ->]; [done|].
      by apply Hid, list_elem_of_In.
    + intros c' Hc'. rewrite <- !app_assoc. cbn [app um_add um_last]. specialize (HQ c' Hc').
      rewrite Nat2Z.inj_succ, (seqZ_cons (um_last um + 1)) in HQ by lia.
      replace (Z.succ (um_last um + 1)) with (um_last um + 1 + 1) in HQ by lia.
      by replace (Z.pred (Z.succ (Z.of_nat (length (missing todo))))) with (Z.of_nat (length (missing todo))) in HQ by lia.
Qed.
End Sync.

(** ** The synchronized table *)
Lemma remove_fold um dead :
  let um' := foldl (fun um e => um_remove um e.1 e.2) um dead in
  um_entries um' = filter (fun e => e.2 ∉ ids_of dead) (um_entries um) /\
  um_last um' = um_last um /\ um_validity um' = um_validity um.
Proof.
  revert um; induction dead as [|d dead IH]; intros um; cbn [foldl].
  - split; [|done]. symmetry. induction (um_entries um) as [|e es IHes]; [done|].
    rewrite filter_cons, decide_True by apply not_elem_of_nil. by f_equal.
  - destruct (IH (um_remove um d.1 d.2)) as (E & El & Ev). rewrite E, El, Ev. cbn [um_remove um_entries um_last um_validity].
    split; [|done]. rewrite list_filter_filter. apply list_filter_iff. intros e.
    cbn [ids_of map]. rewrite not_elem_of_cons. fold (ids_of dead). tauto.
Qed.

Lemma add_fold um new :
  let um' := foldl um_add um new in
  um_entries um' = um_entries um ++ zip (seqZ (um_last um + 1) (Z.of_nat (length new))) new /\
  um_last um' = um_last um + Z.of_nat (length new) /\
  um_validity um' = um_validity um /\ um_deleted um' = um_deleted um.
Proof.
  revert um; induction new as [|id new IH]; intros um; cbn [foldl length].
  - cbn. rewrite app_nil_r. repeat split; lia.
  - destruct (IH (um_add um id)) as (E & El & Ev & Ed). rewrite E, El, Ev, Ed.
    cbn [um_add um_entries um_last um_validity um_deleted]. rewrite <- app_assoc.
    split; [|repeat split; lia]. f_equal. rewrite Nat2Z.inj_succ, (seqZ_cons (um_last um + 1)) by lia.
    cbn [zip_with app]. do 3 f_equal; f_equal; lia.
Qed.

Lemma ids_dead um ids e : e ∈ um_entries um -> NoDup (ids_of (um_entries um)) ->
  e.2 ∉ ids_of (um_dead um ids) <-> e.2 ∈ ids.
Proof.
  intros Hin Hn. unfold um_dead. destruct e as [u i]. cbn. rewrite elem_ids_of. split.
  - intros Hx. destruct (decide (i ∈ ids)) as [|Hni]; [done|]. destruct Hx. exists u.
    by apply list_elem_of_filter.
  - intros Hi [u' [Hni _]%list_elem_of_filter]. done.
Qed.

(** The entries and the counter of a synchronized mailbox. *)
Lemma um_sync_entries um ids :
  um_wf um ->
  um_entries (um_sync um ids) =
    filter (fun e => e.2 ∈ ids) (um_entries um) ++
    zip (seqZ (um_last um + 1) (Z.of_nat (length (um_new um ids)))) (um_new um ids) /\
  um_last (um_sync um ids) = um_last um + Z.of_nat (length (um_new um ids)) /\
  um_validity (um_sync um ids) = um_validity um.
Proof.
  intros Hwf. unfold um_sync.
  destruct (add_fold (foldl (fun um e => um_remove um e.1 e.2) um (um_dead um ids)) (um_new um ids)) as (E & El & Ev & _).
  destruct (remove_fold um (um_dead um ids)) as (E' & El' & Ev').
  rewrite E, El, Ev, E', El', Ev'. split; [|done]. f_equal.
  apply filter_ext_in. intros e He. apply ids_dead; [done | apply Hwf].
Qed.

Lemma missing_new es ids :
  missing (zip (map (fun id => bool_decide (id ∈ ids_of es)) ids) ids) = filter (fun id => id ∉ ids_of es) ids.
Proof.
  induction ids as [|id ids IH]; [done|]. cbn [map zip_with]. rewrite filter_cons.
  case_bool_decide as Hd; cbn [missing]; case_decide; try done; [by rewrite IH].
Qed.

Lemma uids_zip l ids : length l = length ids -> uids_of (zip l ids) = l /\ ids_of (zip l ids) = ids.
Proof.
  revert ids; induction l as [|x l IH]; intros [|i ids]; try done. intros [= E].
  destruct (IH _ E) as [E1 E2]. cbn [zip_with uids_of ids_of map fst snd] in *. unfold uids_of, ids_of in *.
  by rewrite E1, E2.
Qed.

(** What [update_uids] answers for a table. *)
Definition um_data (um : UidMap) (v : Z) : MailboxData :=
  mkMailboxData (wrap32 (um_last um + 1)) v (ids_of (um_entries um)) (uids_of (um_entries um))
    (length (um_entries um)) [].

Section Update.
Context {DB : Type} `{SledLaws DB} `{!Clock DB} `{!ClockLaws DB}.

Lemma wp_add_missing c mb um ids s :
  um_wf um -> NoDup ids -> Forall (fun id => from_utf8 id = Some id) ids ->
  um_last um + Z.of_nat (length ids) < 2 ^ 32 -> scanned mb ids (um_entries um) s ->
  represents c mb (foldl (fun um e => um_remove um e.1 e.2) um (um_dead um ids)) ->
  wp (if decide (jmap_ids_map s = ∅) then ret (sc_jmap_ids s, sc_imap_uids s)
      else insert_loop mb (serialize_uid_next_key mb) (zip (found_ids s) ids) (sc_jmap_ids s) (sc_imap_uids s))
    (fun r c' => represents c' mb (um_sync um ids) /\
       r = (ids_of (um_entries (um_sync um ids)), uids_of (um_entries (um_sync um ids)))) c.
Proof.
  intros Hwf Hn Hutf Hlast [Hm Hu Hi Hf _ _] Hr.
  destruct (um_sync_entries um ids Hwf) as (Es & _ & _).
  destruct (remove_fold um (um_dead um ids)) as (Ee & El & _).
  pose proof (missing_new (um_entries um) ids) as Hmiss. rewrite <- Hf in Hmiss.
  fold (um_new um ids) in Hmiss.
  destruct (uids_zip (seqZ (um_last um + 1) (Z.of_nat (length (um_new um ids)))) (um_new um ids)) as [Ez1 Ez2];
    [rewrite length_seqZ; lia|].
  rewrite Es, uids_of_app, ids_of_app, Ez1, Ez2, Hi, Hu.
  destruct (decide (jmap_ids_map s = ∅)) as [E|_].
  - assert (Hnil : um_new um ids = []).
    { apply filter_none. intros id Hid Hni. specialize (Hm id).
      rewrite E, lookup_empty, decide_False in Hm by done. symmetry in Hm.
      by apply positions_None in Hm. }
    wp_step. unfold um_sync. rewrite Hnil. cbn. by rewrite !app_nil_r.
  - eapply wp_insert_loop; [exact Hr| | | |]; rewrite Hmiss.
    + by apply list.NoDup_filter.
    + apply List.Forall_forall. intros id Hid%list_elem_of_In. apply list_elem_of_filter in Hid as [Hni Hid].
      split; [|by apply (proj1 (list.Forall_forall _ _) Hutf)].
      rewrite Ee, elem_ids_of. intros [u [_ Hu']%list_elem_of_filter]. apply Hni, elem_ids_of. eauto.
    + rewrite El. pose proof (length_filter (fun id => id ∉ ids_of (um_entries um)) ids). unfold um_new. lia.
    + intros c' Hc'. split; [done|]. by rewrite El.
Qed.

Lemma wp_update_uids c mb um ids :
  represents c mb um -> NoDup ids -> Forall (fun id => from_utf8 id = Some id) ids ->
  um_last um + Z.of_nat (length ids) < 2 ^ 32 ->
  wp (update_uids mb ids)
    (fun d c' => exists v, is_u32 v /\ (um_validity um = None \/ um_validity um = Some v) /\
       represents c' mb (um_sync (um_set_validity um v) ids) /\
       d = um_data (um_sync (um_set_validity um v) ids) v) c.
Proof.
  intros Hr Hn Hutf Hlast. unfold update_uids. wp_step. eapply wp_uid_validity; [done|].
  intros v c' Hv Hval Hr'. clear Hr c. set (um' := um_set_validity um v) in *.
  pose proof (r_wf _ _ _ Hr') as Hwf. cbv zeta. do 3 wp_step.
  eapply wp_ext; [intros db; symmetry; apply scan_loop_long|]. rewrite (scan_entries _ _ um') by done.
  apply (wp_scan_loop _ _ ids []); [done|apply Hwf| |apply scanned_nil|].
  { apply List.Forall_forall. intros [u i] Hin%list_elem_of_In. split.
    - pose proof (entry_u32 _ _ _ Hwf Hin). unfold is_u32; cbn; lia.
    - apply (proj1 (list.Forall_forall _ _) (wf_utf8 _ Hwf) _ Hin). }
  cbn [app]. intros s Hs. wp_step.
  set (um1 := foldl (fun um e => um_remove um e.1 e.2) um' (um_dead um' ids)).
  destruct (remove_fold um' (um_dead um' ids)) as (Ee & El & _). fold um1 in Ee, El.
  assert (Hdel : wp (if has_deletions s then sled_apply_batch (sc_batch s) else ret tt)
                    (fun _ c1 => represents c1 mb um1) c').
  { pose proof (represents_deletes _ _ _ _ _ _ Hwf Hr' (fun e H => H)
                  (fun e He => proj2 (proj1 (list_elem_of_filter _ _ _) He)) (s_batch _ _ _ _ Hs)) as Hd.
    rewrite (s_has _ _ _ _ Hs). case_bool_decide as E; wp_step; [done|].
    unfold um1, um_dead. by rewrite E. }
  eapply wp_mono; [exact Hdel|]. intros [] c1 Hr1. wp_step.
  eapply wp_mono; [by apply wp_add_missing|]. intros r c2 [Hr2 ->]. wp_step. eapply wp_uid_next; [done|]. wp_step.
  exists v. split_and!; try done. unfold um_data, uids_of. cbn [fst snd]. by rewrite length_map.
Qed.
End Update.
