(* ===== verification/UidOps.v ===== *)
(** * UIDs: the operations on messages, and mailboxes over time

    The remaining operations of [UidStore] against [UidMap]s, what each
    operation leaves alone, and the properties of UIDs that hold over any
    sequence of operations. *)

From Stdlib Require Import Sorted.
From S2P Require Import Prelude Utf8 Store UidStore UidSpec.

(** ** Lookups in a table *)
Definition um_uid (um : UidMap) (id : str) : option Z :=
  fst <$> head (filter (fun e => e.2 = id) (um_entries um)).

Lemma um_uid_Some um id uid : um_wf um -> um_uid um id = Some uid <-> (uid, id) ∈ um_entries um.
Proof.
  intros Hwf. unfold um_uid. split.
  - destruct (filter _ _) as [|[u i] l] eqn:E; [done|]. cbn. intros [= <-].
    assert (Hin : (u, i) ∈ filter (fun e => e.2 = id) (um_entries um)) by (rewrite E; by left).
    apply list_elem_of_filter in Hin as [<- Hin]. done.
  - intros Hin. destruct (filter _ _) as [|[u i] l] eqn:E.
    + assert (Hx : (uid, id) ∈ filter (fun e => e.2 = id) (um_entries um)) by by apply list_elem_of_filter.
      rewrite E in Hx. by apply elem_of_nil in Hx.
    + assert (Hx : (u, i) ∈ filter (fun e => e.2 = id) (um_entries um)) by (rewrite E; by left).
      apply list_elem_of_filter in Hx as [Hi Hx]. cbn in *. subst. f_equal.
      eapply nodup_id_inj; [apply Hwf| |]; done.
Qed.

Lemma um_uid_None um id : um_wf um -> um_uid um id = None <-> id ∉ ids_of (um_entries um).
Proof.
  intros Hwf. rewrite eq_None_not_Some, elem_ids_of. unfold is_Some. by setoid_rewrite um_uid_Some.
Qed.

Lemma lookup_uid c mb um id :
  represents c mb um -> c !! serialize_key mb JMAP_TO_UID id = be32 <$> um_uid um id.
Proof.
  intros Hr. pose proof (r_wf _ _ _ Hr) as Hwf. destruct (um_uid um id) as [uid|] eqn:E; cbn.
  - apply (r_id _ _ _ Hr). apply um_uid_Some in E; eauto.
  - apply eq_None_not_Some. intros [v (uid & -> & Hin)%(r_id _ _ _ Hr)].
    apply um_uid_Some in Hin; [|done]. congruence.
Qed.

(** The id that has a UID. *)
Definition um_id (um : UidMap) (uid : Z) : option str :=
  snd <$> head (filter (fun e => e.1 = uid) (um_entries um)).

Lemma um_id_Some um id uid : um_wf um -> um_id um uid = Some id <-> (uid, id) ∈ um_entries um.
Proof.
  intros Hwf. unfold um_id. split.
  - destruct (filter _ _) as [|[u i] l] eqn:E; [done|]. cbn. intros [= <-].
    assert (Hin : (u, i) ∈ filter (fun e => e.1 = uid) (um_entries um)) by (rewrite E; by left).
    apply list_elem_of_filter in Hin as [<- Hin]. done.
  - intros Hin. destruct (filter _ _) as [|[u i] l] eqn:E.
    + assert (Hx : (uid, id) ∈ filter (fun e => e.1 = uid) (um_entries um)) by by apply list_elem_of_filter.
      rewrite E in Hx. by apply elem_of_nil in Hx.
    + assert (Hx : (u, i) ∈ filter (fun e => e.1 = uid) (um_entries um)) by (rewrite E; by left).
      apply list_elem_of_filter in Hx as [Hi Hx]. cbn in *. subst. f_equal.
      eapply sorted_uid_inj; [apply Hwf| |]; done.
Qed.

Lemma lookup_id c mb um uid :
  represents c mb um -> is_u32 uid -> c !! serialize_key mb UID_TO_JMAP (be32 uid) = um_id um uid.
Proof.
  intros Hr Hu. pose proof (r_wf _ _ _ Hr) as Hwf. apply option_eq. intros id.
  rewrite (r_uid _ _ _ Hr), um_id_Some by done. split; [|eauto].
  intros (uid' & E & Hin). pose proof (entry_u32 _ _ _ Hwf Hin).
  apply be32_inj in E; [by subst|done|lia].
Qed.

(** ** The operations on a table *)
Definition um_add_missing (um : UidMap) (id : str) : UidMap :=
  match um_uid um id with Some _ => um | None => um_add um id end.

Definition um_delete (um : UidMap) (ids : list str) : UidMap :=
  foldl (fun um e => um_remove um e.1 e.2) um
    (omap (fun id => (fun uid => (uid, id)) <$> um_uid um id) ids).

(** The pairs that [jmap_to_imap] finds for [ids]. *)
Definition um_found (um : UidMap) (ids : list str) : list (Z * str) :=
  omap (fun id => (fun uid => (uid, id)) <$> um_uid um id) ids.

(** What [jmap_to_imap] finds for one id: a live message with its UID, or the
    UID of a deleted one. *)
Definition um_lookup (um : UidMap) (o : MappingOptions) (id : str) : option (option str * Z) :=
  let live := (fun uid => (Some id, uid)) <$> um_uid um id in
  let deleted := (fun uid => (None, uid)) <$> um_deleted um !! id in
  match o with
  | MapNone | AddIfMissing => live
  | IncludeDeleted => match live with Some r => Some r | None => deleted end
  | OnlyIncludeDeleted => deleted
  end.

Definition delete_ops' (mb : MailboxId) (uid : Z) (id : str) (t : Z) : list BatchOp :=
  [BatchInsert (serialize_key mb JMAP_DELETED_IDS id) (be32 uid ++ be64 t);
   BatchRemove (serialize_key mb JMAP_TO_UID id);
   BatchRemove (serialize_key mb UID_TO_JMAP (be32 uid))].

Lemma delete_ops_comm mb uid id t c :
  foldl apply_op c (delete_ops' mb uid id t) = foldl apply_op c (delete_ops mb uid id t).
Proof. cbn. apply delete_delete. Qed.

Lemma um_add_missing_uid um id i uid :
  um_uid um i = Some uid -> um_uid (um_add_missing um id) i = Some uid.
Proof.
  intros E. unfold um_add_missing. destruct (um_uid um id); [done|].
  unfold um_uid, um_add in *. cbn [um_entries]. rewrite list.filter_app.
  by destruct (filter _ (um_entries um)).
Qed.

Lemma add_missing_stable um ids i uid :
  um_uid um i = Some uid -> um_uid (foldl um_add_missing um ids) i = Some uid.
Proof.
  revert um; induction ids as [|id ids IH]; intros um E; [done|]. cbn [foldl].
  by apply IH, um_add_missing_uid.
Qed.

Lemma found_cons um id ids uid :
  um_uid um id = Some uid -> um_found um (id :: ids) = (uid, id) :: um_found um ids.
Proof. intros E. unfold um_found. cbn [omap list_omap]. by rewrite E. Qed.

Section Ops.
Context {DB : Type} `{SledLaws DB} `{!Clock DB} `{!ClockLaws DB}.

(** Looking messages up changes nothing. *)
Lemma wp_jmap_to_imap_read c mb um o ids jmap_ids imap_uids :
  represents c mb um -> o <> AddIfMissing ->
  wp (jmap_to_imap_loop mb o ids jmap_ids imap_uids)
    (fun r c' => c' = c /\
       r = (jmap_ids ++ omap fst (omap (um_lookup um o) ids),
            imap_uids ++ map snd (omap (um_lookup um o) ids))) c.
Proof.
  intros Hr Ho. pose proof (r_wf _ _ _ Hr) as Hwf. revert jmap_ids imap_uids.
  induction ids as [|id ids IH]; intros jmap_ids imap_uids.
  { cbn. wp_step. by rewrite !app_nil_r. }
  set (l := omap (um_lookup um o) ids) in *.
  set (P := fun x r c' => c' = c /\
    r = (jmap_ids ++ omap fst (option_list x ++ l), imap_uids ++ map snd (option_list x ++ l))).
  assert (El : omap (um_lookup um o) (id :: ids) = option_list (um_lookup um o id) ++ l).
  { unfold l. cbn. by destruct (um_lookup um o id). }
  rewrite El. clear El. change (wp (jmap_to_imap_loop mb o (id :: ids) jmap_ids imap_uids) (P (um_lookup um o id)) c).
  assert (Hcont : wp (jmap_to_imap_loop mb o ids jmap_ids imap_uids) (P None) c) by apply IH.
  assert (Hpush : forall i uid, is_u32 uid ->
    wp (push_uid jmap_ids imap_uids i (be32 uid) (jmap_to_imap_loop mb o ids)) (P (Some (i, uid))) c).
  { intros i uid H32. unfold push_uid, read_u32. rewrite from_be32_be32 by done. wp_steps.
    eapply wp_mono; [apply IH|]. intros r c' [-> ->]. split; [done|].
    destruct i; cbn; rewrite <- ?app_assoc, ?app_nil_r; done. }
  assert (Hdel : wp (do* uid := sled_get (serialize_key mb JMAP_DELETED_IDS id) in
        match uid with
        | Some uid =>
            do* uid := lift (if (length uid <? 4)%nat then Panic else Ok (take 4 uid)) in
            push_uid jmap_ids imap_uids None uid (jmap_to_imap_loop mb o ids)
        | None => jmap_to_imap_loop mb o ids jmap_ids imap_uids
        end) (P ((fun uid => (None, uid)) <$> um_deleted um !! id)) c).
  { do 2 wp_step. pose proof (r_deleted _ _ _ Hr id) as Hd. case_match eqn:Ed.
    - destruct Hd as (uid & t & -> & H32 & _ & ->). cbn [length be32 be64 app Nat.ltb Nat.leb]. do 2 wp_step.
      exact (Hpush None uid H32).
    - by rewrite Hd. }
  cbn [jmap_to_imap_loop]. unfold um_lookup. destruct o; try done;
    rewrite ?bool_decide_true, ?bool_decide_false by done; cbn [negb]; try exact Hdel.
  - do 2 wp_step. rewrite (lookup_uid _ _ um) by done.
    destruct (um_uid um id) as [uid|] eqn:E; [|exact Hcont]. cbn.
    apply Hpush. apply um_uid_Some in E; [|done]. pose proof (entry_u32 _ _ _ Hwf E). unfold is_u32; lia.
  - do 2 wp_step. rewrite (lookup_uid _ _ um) by done.
    destruct (um_uid um id) as [uid|] eqn:E; [|exact Hdel]. cbn.
    apply Hpush. apply um_uid_Some in E; [|done]. pose proof (entry_u32 _ _ _ Hwf E). unfold is_u32; lia.
Qed.

Lemma wp_jmap_to_imap_add c mb um ids jmap_ids imap_uids :
  represents c mb um -> Forall (fun id => from_utf8 id = Some id) ids ->
  um_last um + Z.of_nat (length ids) < 2 ^ 32 ->
  wp (jmap_to_imap_loop mb AddIfMissing ids jmap_ids imap_uids)
    (fun r c' => let um' := foldl um_add_missing um ids in
       represents c' mb um' /\
       r = (jmap_ids ++ ids_of (um_found um' ids), imap_uids ++ uids_of (um_found um' ids))) c.
Proof.
  revert c um jmap_ids imap_uids.
  induction ids as [|id ids IH]; intros c um jmap_ids imap_uids Hr Hu Hl; cbn [jmap_to_imap_loop].
  { wp_step. cbn. by rewrite !app_nil_r. }
  pose proof (r_wf _ _ _ Hr) as Hwf. inv Hu as [|? ? Hutf Hu']. cbn [length] in Hl.
  rewrite bool_decide_false by done. cbn [negb]. do 2 wp_step. rewrite (lookup_uid _ _ um) by done.
  assert (Hstep : forall uid c1, represents c1 mb (um_add_missing um id) ->
            um_uid (um_add_missing um id) id = Some uid ->
            um_last (um_add_missing um id) <= um_last um + 1 -> is_u32 uid ->
    wp (push_uid jmap_ids imap_uids (Some id) (be32 uid) (jmap_to_imap_loop mb AddIfMissing ids))
    (fun r c' => let um' := foldl um_add_missing um (id :: ids) in
       represents c' mb um' /\
       r = (jmap_ids ++ ids_of (um_found um' (id :: ids)), imap_uids ++ uids_of (um_found um' (id :: ids)))) c1).
  { intros uid c1 Hr1 Huid Hlast H32. unfold push_uid, read_u32. rewrite from_be32_be32 by done. wp_steps.
    eapply wp_mono; [apply (IH _ _ _ _ Hr1 Hu'); lia|]. cbn zeta. intros r c' [Hr' ->]. cbn [foldl].
    split; [done|]. rewrite (found_cons _ _ _ uid) by (by apply add_missing_stable). by rewrite <- !app_assoc. }
  destruct (um_uid um id) as [uid|] eqn:E; cbn [fmap option_fmap option_map].
  - assert (Hsame : um_add_missing um id = um) by (unfold um_add_missing; by rewrite E).
    apply Hstep; rewrite ?Hsame; [done|done|lia|].
    apply um_uid_Some in E; [|done]. pose proof (entry_u32 _ _ _ Hwf E). unfold is_u32; lia.
  - rewrite bool_decide_true by done. wp_step.
    pose proof (wf_last _ Hwf) as Hl32. unfold is_u32 in Hl32.
    assert (Hni : id ∉ ids_of (um_entries um)) by by apply um_uid_None.
    assert (Hadd : um_add_missing um id = um_add um id) by (unfold um_add_missing; by rewrite E).
    eapply wp_insert_jmap_id; [exact Hr|lia|].
    assert (Hr1 : represents (write_id mb (um_last um + 1) id c) mb (um_add um id)).
    { apply represents_add; auto. lia. }
    apply Hstep; rewrite ?Hadd; [done| |cbn; lia|unfold is_u32; lia].
    apply um_uid_Some; [apply Hr1|]. cbn. apply elem_of_app; right. by left.
Qed.

Lemma wp_delete_ids_loop c mb um ids batch has ops dead (Q : list BatchOp * bool -> KV -> Prop) :
  represents c mb um -> deletes mb dead ops ->
  (forall c, foldl apply_op c batch = foldl apply_op c ops) -> has = bool_decide (dead <> []) ->
  (forall batch' ops', deletes mb (dead ++ um_found um ids) ops' ->
     (forall c, foldl apply_op c batch' = foldl apply_op c ops') ->
     Q (batch', bool_decide (dead ++ um_found um ids <> [])) c) ->
  wp (delete_ids_loop mb ids batch has) Q c.
Proof.
  intros Hr. pose proof (r_wf _ _ _ Hr) as Hwf. revert batch has ops dead.
  induction ids as [|id ids IH]; intros batch has ops dead Hd Hb -> HQ;
    cbn [delete_ids_loop um_found omap list_omap] in *.
  - wp_step. rewrite app_nil_r in HQ. eauto.
  - do 2 wp_step. rewrite (lookup_uid _ _ um) by done.
    unfold um_found in HQ. cbn [omap list_omap] in HQ. fold (um_found um ids) in HQ.
    destruct (um_uid um id) as [uid|] eqn:E; cbn [fmap option_fmap option_map] in *.
    + apply um_uid_Some in E; [|done]. pose proof (entry_u32 _ _ _ Hwf E).
      wp_step. apply wp_now. intros t Ht. eapply (IH _ _ (ops ++ delete_ops mb uid id t) (dead ++ [(uid, id)])).
      * by apply (deletes_snoc _ _ _ (uid, id)).
      * intros c0. rewrite !foldl_app, Hb. apply delete_ops_comm.
      * symmetry. apply bool_decide_eq_true. by intros [_ ?]%app_eq_nil.
      * intros batch' ops'. rewrite <- app_assoc. apply HQ.
    + eapply IH; [exact Hd| exact Hb| done| exact HQ].
Qed.

Lemma wp_delete_ids c mb um ids :
  represents c mb um -> wp (delete_ids mb ids) (fun _ c' => represents c' mb (um_delete um ids)) c.
Proof.
  intros Hr. pose proof (r_wf _ _ _ Hr) as Hwf. unfold delete_ids. wp_step.
  eapply (wp_delete_ids_loop _ _ um _ _ _ [] []); [done|done|done|done|]. cbn [app].
  intros batch' ops' Hd Hb.
  assert (Hsub : forall e, e ∈ um_found um ids -> e ∈ um_entries um).
  { intros [u i] (id & Hid & E)%list_elem_of_omap. destruct (um_uid um id) as [u'|] eqn:Eu; [|done].
    simplify_eq/=. by apply um_uid_Some. }
  pose proof (represents_deletes _ _ _ _ _ _ Hwf Hr (fun e H => H) Hsub Hd) as Hr'.
  cbn [fst snd]. case_bool_decide as E; wp_step.
  - rewrite Hb. exact Hr'.
  - unfold um_delete. fold (um_found um ids). by rewrite E.
Qed.
End Ops.

(** ** What an operation leaves alone *)

(** JMAP ids are printable; an account id has no NUL. *)
Definition mb_ok (mb : MailboxId) : Prop :=
  Forall (fun c => c <> 0) (account_id mb) /\
  match mailbox_id mb with Some m => m <> [] /\ Forall (fun c => 32 <= c) m | None => True end.

Definition is_separator (s : Z) : Prop := 0 <= s <= 7.

Lemma split_first (P : Z -> Prop) a a' x x' r r' :
  Forall (fun c => ~ P c) a -> Forall (fun c => ~ P c) a' -> P x -> P x' ->
  a ++ x :: r = a' ++ x' :: r' -> a = a' /\ x = x' /\ r = r'.
Proof.
  intros Ha. revert a'; induction Ha as [|c a Hc _ IH]; intros [|c' a'] Ha' Hx Hx' E; simpl in E.
  - by simplify_eq.
  - inv Ha'. by simplify_eq.
  - by simplify_eq.
  - inv Ha'. simplify_eq. destruct (IH a') as (-> & -> & ->); auto.
Qed.

(** A key belongs to one mailbox, one family and one value. *)
Lemma serialize_key_inj mb mb' s s' v v' :
  mb_ok mb -> mb_ok mb' -> is_separator s -> is_separator s' ->
  serialize_key mb s v = serialize_key mb' s' v' -> mb = mb' /\ s = s' /\ v = v'.
Proof.
  destruct mb as [a m], mb' as [a' m']. unfold mb_ok, is_separator, serialize_key.
  cbn [account_id mailbox_id]. intros [Ha Hm] [Ha' Hm'] Hs Hs' E.
  apply (split_first (fun c => c = 0)) in E as (-> & _ & E); try done.
  apply (split_first (fun c => c < 32)) in E as (Em & -> & ->); try lia.
  - split; [|done]. f_equal.
    destruct m as [m|], m' as [m'|]; cbn in *; subst; [done|by destruct Hm|by destruct Hm'|done].
  - destruct m as [m|]; [|constructor]. eapply Forall_impl; [|apply Hm]. cbn; lia.
  - destruct m' as [m'|]; [|constructor]. eapply Forall_impl; [|apply Hm']. cbn; lia.
Qed.

(** [c'] differs from [c] at most in the tables of [mb]. *)
Definition same_outside (mb : MailboxId) (c c' : KV) : Prop :=
  forall k, (forall s v, is_separator s -> k <> serialize_key mb s v) -> c' !! k = c !! k.

Lemma same_outside_refl mb c : same_outside mb c c.
Proof. done. Qed.
Lemma same_outside_trans mb c1 c2 c3 :
  same_outside mb c1 c2 -> same_outside mb c2 c3 -> same_outside mb c1 c3.
Proof. intros H1 H2 k Hk. by rewrite H2, H1. Qed.
Lemma same_outside_insert mb s v x (c : KV) :
  is_separator s -> same_outside mb c (<[serialize_key mb s v := x]> c).
Proof. intros Hs k Hk. apply lookup_insert_ne. intros E. by eapply Hk. Qed.
Lemma same_outside_delete mb s v (c : KV) :
  is_separator s -> same_outside mb c (delete (serialize_key mb s v) c).
Proof. intros Hs k Hk. apply lookup_delete_ne. intros E. by eapply Hk. Qed.

Lemma represents_outside mb mb' c c' um :
  mb_ok mb -> mb_ok mb' -> mb <> mb' -> same_outside mb' c c' ->
  represents c mb um -> represents c' mb um.
Proof.
  intros Hmb Hmb' Hne Hsame Hr.
  assert (Hk : forall s v, is_separator s -> c' !! serialize_key mb s v = c !! serialize_key mb s v).
  { intros s v Hs. apply Hsame. intros s' v' Hs' E.
    by apply serialize_key_inj in E as (? & _). }
  destruct Hr as [Hwf Hu Hi Hd Hl Hv].
  split; [done|..]; rewrite ?next_key, ?validity_key in *; intros;
    rewrite ?Hk by (unfold is_separator, JMAP_TO_UID, UID_TO_JMAP, UID_NEXT, UID_VALIDITY, JMAP_DELETED_IDS; lia); auto.
  - apply Hd.
Qed.

(** Whatever its result, [m] changes the tables of [mb] only; a value it
    returns satisfies [Q]. *)
Definition touches {DB} `{Sled DB} {A} (mb : MailboxId) (m : M DB A) (Q : A -> Prop) : Prop :=
  forall db, same_outside mb (contents db) (contents (m db).2) /\
             match (m db).1 with Ok a => Q a | _ => True end.

Definition op_of (mb : MailboxId) (op : BatchOp) : Prop :=
  match op with
  | BatchInsert k _ | BatchRemove k => exists s v, is_separator s /\ k = serialize_key mb s v
  end.

Abbreviation trivial := (fun _ => True).

Section Touches.
Context {DB : Type} `{SledLaws DB} `{!Clock DB} `{!ClockLaws DB}.

Lemma touches_lift {A} mb (r : Res unit A) : touches (DB := DB) mb (lift r) trivial.
Proof. intros db. split; [done|]. by destruct r. Qed.
Lemma touches_ret {A} mb (a : A) (Q : A -> Prop) : Q a -> touches (DB := DB) mb (ret a) Q.
Proof. intros HQ db. by split. Qed.

Lemma touches_bind {A B} mb (m : M DB A) (k : A -> M DB B) Q Q' :
  touches mb m Q -> (forall a, Q a -> touches mb (k a) Q') -> touches mb (bindM m k) Q'.
Proof.
  intros Hm Hk db. unfold bindM. specialize (Hm db) as [Hm HQ].
  destruct (m db) as [[a|e| |] db']; try done.
  destruct (Hk a HQ db') as [Hs HQ']. split; [|done]. by eapply same_outside_trans.
Qed.

Lemma touches_attempt {A} mb (m : M DB A) Q : touches mb m Q -> touches mb (attempt m) trivial.
Proof.
  intros Hm db. unfold attempt. specialize (Hm db) as [Hm _]. by destruct (m db) as [[a|e| |] db'].
Qed.

Lemma touches_get mb k : touches (DB := DB) mb (sled_get k) trivial.
Proof.
  intros db. destruct (sled_get k db) as [r db'] eqn:E. cbn.
  destruct (get_law _ _ _ _ E) as [-> [-> | [-> _]]]; done.
Qed.

Lemma touches_insert mb s v x : is_separator s ->
  touches (DB := DB) mb (sled_insert (serialize_key mb s v) x) trivial.
Proof.
  intros Hs db. destruct (sled_insert _ _ db) as [r db'] eqn:E. cbn.
  destruct (insert_law _ _ _ _ _ E) as [[-> ->] | (-> & -> & _)]; [|done].
  split; [by apply same_outside_insert | done].
Qed.

Lemma touches_update mb s v f : is_separator s ->
  touches (DB := DB) mb (sled_update_and_fetch (serialize_key mb s v) f) trivial.
Proof.
  intros Hs db. destruct (sled_update_and_fetch _ _ db) as [r db'] eqn:E. cbn.
  destruct (update_and_fetch_law _ _ _ _ _ E) as [[-> ->] | (-> & -> & _)]; [|done].
  split; [|done]. intros k Hk. apply lookup_partial_alter_ne. intros E'. by eapply Hk.
Qed.

Lemma touches_scan mb p :
  touches (DB := DB) mb (sled_scan_prefix p) (Forall (fun kv => starts_with p kv.1 = true)).
Proof.
  intros db. destruct (sled_scan_prefix p db) as [r db'] eqn:E. cbn.
  destruct (scan_prefix_law _ _ _ _ E) as [-> [(l & -> & Hl) | [-> _]]]; [|done].
  split; [done|]. apply List.Forall_forall. intros [k v] Hin%list_elem_of_In. by apply Hl in Hin as [_ ?].
Qed.

Lemma touches_now mb : touches (DB := DB) mb unix_now trivial.
Proof.
  intros db. destruct (unix_now db) as [r db'] eqn:E. cbn.
  by destruct (unix_now_law _ _ _ E) as [-> (t & -> & _)].
Qed.

Lemma touches_batch mb ops : Forall (op_of mb) ops -> touches (DB := DB) mb (sled_apply_batch ops) trivial.
Proof.
  intros Hops db. destruct (sled_apply_batch ops db) as [r db'] eqn:E. cbn.
  destruct (apply_batch_law _ _ _ _ E) as [[-> ->] | (-> & -> & _)]; [|done]. split; [|done].
  generalize (contents db). clear E. induction Hops as [|op ops Hop _ IH]; intros c; [done|]. cbn [foldl].
  eapply same_outside_trans; [|apply IH].
  destruct op as [k v|k]; destruct Hop as (s & v' & Hs & ->); [by apply same_outside_insert | by apply same_outside_delete].
Qed.

Lemma op_of_insert mb s v x : is_separator s -> op_of mb (BatchInsert (serialize_key mb s v) x).
Proof. intros Hs. by exists s, v. Qed.
Lemma op_of_remove mb s v : is_separator s -> op_of mb (BatchRemove (serialize_key mb s v)).
Proof. intros Hs. by exists s, v. Qed.
Lemma op_of_scanned mb s k : is_separator s -> starts_with (serialize_key_prefix mb s) k = true ->
  op_of mb (BatchRemove k).
Proof. intros Hs [x ->]%starts_with_spec. rewrite prefix_key. by apply op_of_remove. Qed.
End Touches.

Create HintDb touches.
#[export] Hint Resolve touches_lift touches_ret touches_get touches_insert touches_update touches_scan
  touches_now touches_batch I op_of_insert op_of_remove : touches.
#[export] Hint Extern 1 (is_separator _) => (split; done) : touches.

(** Follow a computation to the calls of the store. *)
Ltac touches_tac :=
  repeat first
    [ solve [eauto with touches]
    | eapply touches_bind; [|intros ? ?; cbn beta in *]
    | eapply touches_attempt
    | progress (cbn [fst snd])
    | case_match ].

Section Frames.
Context {DB : Type} `{SledLaws DB} `{!Clock DB} `{!ClockLaws DB}.

Lemma touches_insert_jmap_id mb id :
  touches (DB := DB) mb (insert_jmap_id mb id (serialize_uid_next_key mb)) trivial.
Proof. unfold insert_jmap_id. rewrite next_key. touches_tac. Qed.

Lemma touches_uid_next mb : touches (DB := DB) mb (uid_next mb) trivial.
Proof. unfold uid_next, read_u32. touches_tac. Qed.

Lemma touches_uid_validity mb : touches (DB := DB) mb (uid_validity mb) trivial.
Proof. unfold uid_validity, read_u32. rewrite validity_key. touches_tac. Qed.

#[local] Hint Resolve touches_insert_jmap_id touches_uid_next touches_uid_validity : touches.

Lemma touches_scan_loop mb kvs s :
  Forall (fun kv => starts_with (serialize_key_prefix mb UID_TO_JMAP) kv.1 = true) kvs ->
  Forall (op_of mb) (sc_batch s) ->
  touches (DB := DB) mb (scan_loop mb (serialize_key_prefix mb UID_TO_JMAP) kvs s)
    (fun s' => Forall (op_of mb) (sc_batch s')).
Proof.
  intros Hk. revert s; induction Hk as [|[k v] kvs Hkv _ IH]; intros s Hs; cbn [scan_loop].
  - by apply touches_ret.
  - case_match; [|by apply IH]. unfold read_u32, read_string. case_match.
    + eapply touches_bind; [apply touches_lift|intros uid _].
      eapply touches_bind; [apply touches_lift|intros id _]. by apply IH.
    + eapply touches_bind; [apply touches_now|intros t _]. apply IH. cbn [sc_batch].
      apply Forall_app; split; [done|]. constructor; [|constructor; [|constructor; [|done]]].
      * apply op_of_insert. by split.
      * apply (op_of_scanned _ UID_TO_JMAP); [by split | exact Hkv].
      * apply op_of_remove. by split.
Qed.

Lemma touches_insert_loop mb todo ids us :
  touches (DB := DB) mb (insert_loop mb (serialize_uid_next_key mb) todo ids us) trivial.
Proof.
  revert ids us; induction todo as [|[[] id] todo IH]; intros ids us; cbn [insert_loop]; unfold read_u32; touches_tac.
Qed.

#[local] Hint Resolve touches_insert_loop : touches.

Lemma touches_update_uids mb ids : touches (DB := DB) mb (update_uids mb ids) trivial.
Proof.
  unfold update_uids. eapply touches_bind; [apply touches_uid_validity|intros v _].
  eapply touches_bind; [apply touches_scan|intros kvs Hkvs].
  eapply touches_bind; [apply touches_scan_loop; [exact Hkvs|constructor]|intros s Hs].
  touches_tac.
Qed.

Lemma touches_jmap_to_imap mb ids o : touches (DB := DB) mb (jmap_to_imap mb ids o) trivial.
Proof.
  unfold jmap_to_imap. generalize (@nil (list Z)) (@nil Z).
  induction ids as [|id ids IH]; intros l us; cbn [jmap_to_imap_loop]; unfold push_uid, read_u32; touches_tac.
Qed.

Lemma touches_delete_ids mb ids : touches (DB := DB) mb (delete_ids mb ids) trivial.
Proof.
  unfold delete_ids.
  assert (Hloop : forall batch has, Forall (op_of mb) batch ->
    touches (DB := DB) mb (delete_ids_loop mb ids batch has) (fun r => Forall (op_of mb) r.1)).
  { induction ids as [|id ids IH]; intros batch has Hb; cbn [delete_ids_loop]; [by apply touches_ret|].
    eapply touches_bind; [apply touches_get|intros v _]. case_match; [|by apply IH].
    eapply touches_bind; [apply touches_now|intros t _]. apply IH.
    apply Forall_app; split; [done|]. constructor; [|constructor; [|constructor; [|done]]];
      [apply op_of_insert|apply op_of_remove|apply op_of_remove]; by split. }
  eapply touches_bind; [apply Hloop; constructor|intros r Hr]. touches_tac.
Qed.

Lemma touches_uids mb : touches (DB := DB) mb (uids mb) trivial.
Proof. unfold uids. touches_tac. Qed.
End Frames.

(** ** Sequences of operations *)
Inductive uid_call :=
| CallUpdate (ids : list str)
| CallMap (ids : list str) (options : MappingOptions)
| CallDelete (ids : list str)
| CallUids.

Definition call_ids (call : uid_call) : list str :=
  match call with CallUpdate ids | CallMap ids _ | CallDelete ids => ids | CallUids => [] end.

(** What JMAP promises about the ids it returns: no id twice in one answer. *)
Definition call_ok (call : uid_call) : Prop :=
  Forall (fun id => from_utf8 id = Some id) (call_ids call) /\
  match call with CallUpdate ids => NoDup ids | _ => True end.

(** UIDs that a call may use up. *)
Definition call_cost (call : uid_call) : Z :=
  match call with
  | CallUpdate ids | CallMap ids AddIfMissing => Z.of_nat (length ids)
  | _ => 0
  end.

Definition run_call {DB} `{Sled DB} `{Clock DB} (mb : MailboxId) (call : uid_call) : M DB unit :=
  match call with
  | CallUpdate ids => do* _ := update_uids mb ids in ret tt
  | CallMap ids options => do* _ := jmap_to_imap mb ids options in ret tt
  | CallDelete ids => delete_ids mb ids
  | CallUids => do* _ := uids mb in ret tt
  end.

Fixpoint run_calls {DB} `{Sled DB} `{Clock DB} (calls : list (MailboxId * uid_call)) : M DB unit :=
  match calls with
  | [] => ret tt
  | (mb, call) :: calls' => do* _ := run_call mb call in run_calls calls'
  end.

Fixpoint total_cost (mb : MailboxId) (calls : list (MailboxId * uid_call)) : Z :=
  match calls with
  | [] => 0
  | (mb', call) :: calls' => (if decide (mb' = mb) then call_cost call else 0) + total_cost mb calls'
  end.

(** [um'] may lack messages of [um]; those it has in addition got new UIDs. *)
Definition um_later (um um' : UidMap) : Prop :=
  um_last um <= um_last um' /\
  forall uid id, (uid, id) ∈ um_entries um' -> (uid, id) ∈ um_entries um \/ um_last um < uid.

Lemma um_later_refl um : um_later um um.
Proof. split; [lia | auto]. Qed.

Lemma um_later_trans um1 um2 um3 : um_later um1 um2 -> um_later um2 um3 -> um_later um1 um3.
Proof.
  intros [H1 H1'] [H2 H2']. split; [lia|]. intros uid id Hin.
  destruct (H2' _ _ Hin) as [?|?]; [by apply H1' | right; lia].
Qed.

Lemma um_sync_later um ids : um_wf um -> um_later um (um_sync um ids) /\
  um_last (um_sync um ids) <= um_last um + Z.of_nat (length ids).
Proof.
  intros Hwf. destruct (um_sync_entries um ids Hwf) as (Ee & El & _).
  pose proof (length_filter (fun id => id ∉ ids_of (um_entries um)) ids) as Hlen. fold (um_new um ids) in Hlen.
  split; [|lia]. split; [lia|]. intros uid id. rewrite Ee, elem_of_app.
  intros [[_ Hin]%list_elem_of_filter|Hin]; [by left|right].
  apply list_elem_of_In, in_combine_l, list_elem_of_In, elem_of_seqZ in Hin. lia.
Qed.

Lemma um_add_missing_later um ids : um_later um (foldl um_add_missing um ids) /\
  um_last (foldl um_add_missing um ids) <= um_last um + Z.of_nat (length ids).
Proof.
  revert um; induction ids as [|id ids IH]; intros um; cbn [foldl length].
  - split; [apply um_later_refl | lia].
  - destruct (IH (um_add_missing um id)) as [Hl Hlast].
    assert (Hstep : um_later um (um_add_missing um id) /\ um_last (um_add_missing um id) <= um_last um + 1).
    { unfold um_add_missing. case_match; [split; [apply um_later_refl | lia]|]. cbn. split; [|lia].
      split; cbn; [lia|]. intros uid i [?|Hin%list_elem_of_singleton]%elem_of_app; [by left|].
      simplify_eq. right; lia. }
    destruct Hstep. split; [by eapply um_later_trans | lia].
Qed.

Lemma um_delete_later um ids : um_later um (um_delete um ids) /\ um_last (um_delete um ids) = um_last um.
Proof.
  unfold um_delete. set (dead := omap _ ids). destruct (remove_fold um dead) as (Ee & El & _).
  split; [|done]. split; [lia|]. intros uid id. rewrite Ee. intros [_ ?]%list_elem_of_filter. by left.
Qed.

Section Calls.
Context {DB : Type} `{SledLaws DB} `{!Clock DB} `{!ClockLaws DB}.

Lemma wp_run_call c mb um call :
  represents c mb um -> call_ok call -> um_last um + call_cost call < 2 ^ 32 ->
  wp (run_call mb call)
    (fun _ c' => exists um', represents c' mb um' /\ um_later um um' /\
                             um_last um' <= um_last um + call_cost call) c.
Proof.
  intros Hr [Hutf Hn] Hcost. destruct call as [ids|ids o|ids|]; cbn [run_call call_cost call_ids] in *.
  - wp_step. eapply wp_mono; [by apply wp_update_uids|]. intros d c' (v & Hv & _ & Hr' & _).
    wp_step. eexists; split; [exact Hr'|].
    destruct (um_sync_later (um_set_validity um v) ids) as [Hl Hlast]; [|by split].
    destruct (r_wf _ _ _ Hr). split; try done. cbn. intros; by simplify_eq.
  - wp_step. destruct (decide (o = AddIfMissing)) as [->|Ho].
    + eapply wp_mono; [by apply wp_jmap_to_imap_add|]. cbn zeta. intros r c' [Hr' _]. wp_step.
      eexists; split; [exact Hr'|]. apply um_add_missing_later.
    + eapply wp_mono; [by apply wp_jmap_to_imap_read|]. intros r c' [-> _]. wp_step.
      exists um. split; [done|]. split; [apply um_later_refl | destruct o; lia || done].
  - eapply wp_mono; [by apply wp_delete_ids|]. intros [] c' Hr'. eexists; split; [exact Hr'|].
    destruct (um_delete_later um ids) as [Hl ->]. split; [done|lia].
  - wp_step. unfold uids. wp_step. eapply wp_uid_validity; [done|]. intros v c' Hv _ Hr'.
    wp_step. eapply wp_uid_next; [done|]. wp_steps. eexists; split; [exact Hr'|].
    split; [split; cbn; [lia | auto] | cbn; lia].
Qed.

Lemma touches_run_call mb call : touches (DB := DB) mb (run_call mb call) trivial.
Proof.
  destruct call; cbn [run_call].
  - eapply touches_bind; [apply touches_update_uids|]. intros; by apply touches_ret.
  - eapply touches_bind; [apply touches_jmap_to_imap|]. intros; by apply touches_ret.
  - apply touches_delete_ids.
  - eapply touches_bind; [apply touches_uids|]. intros; by apply touches_ret.
Qed.

(** Another mailbox's operations do not change what [mb] represents. *)
Lemma other_call mb mb' um call (db : DB) :
  mb_ok mb -> mb_ok mb' -> mb <> mb' -> represents (contents db) mb um ->
  represents (contents (run_call mb' call db).2) mb um.
Proof.
  intros H1 H2 Hne Hr. eapply represents_outside; [exact H1| exact H2| exact Hne| |exact Hr].
  apply touches_run_call.
Qed.

Lemma wp_run_calls mb calls um db :
  Forall (fun c => mb_ok c.1 /\ call_ok c.2) calls -> mb_ok mb ->
  represents (contents db) mb um -> um_last um + total_cost mb calls < 2 ^ 32 ->
  (run_calls calls db).1 = Ok tt ->
  exists um', represents (contents (run_calls calls db).2) mb um' /\ um_later um um'.
Proof.
  intros Hok Hmb. revert um db; induction Hok as [|[mb' call] calls [Hmb' Hcall] _ IH]; intros um db Hr Hc;
    cbn [run_calls total_cost fst snd] in *.
  { intros _. exists um. split; [done | apply um_later_refl]. }
  assert (Hpos : 0 <= total_cost mb calls /\ 0 <= call_cost call).
  { split; [|destruct call as [|? []| |]; cbn; lia]. clear. induction calls as [|[m c] calls IH]; cbn; [done|].
    assert (0 <= call_cost c) by (destruct c as [|? []| |]; cbn; lia). case_decide; lia. }
  unfold bindM. case_decide as Hd.
  - subst mb'. pose proof (wp_run_call _ _ _ _ Hr Hcall ltac:(lia) db eq_refl) as Hwp.
    destruct (run_call mb call db) as [[[]|e| |] db'] eqn:E; try done.
    destruct Hwp as (um1 & Hr1 & Hl1 & Hlast). intros Hrun.
    destruct (IH um1 db' Hr1 ltac:(lia) Hrun) as (um' & Hr' & Hl'). exists um'. split; [done|].
    by eapply um_later_trans.
  - pose proof (other_call mb mb' um call db Hmb Hmb' (not_eq_sym Hd) Hr) as Hr1.
    destruct (run_call mb' call db) as [[[]|e| |] db'] eqn:E; try done.
    intros Hrun. apply IH; [done | lia | done].
Qed.
End Calls.

(** ** Consequences for the tables *)
Lemma zip_entries (es : list (Z * str)) : zip (map fst es) (map snd es) = es.
Proof. induction es as [|[u i] es IH]; [done|]. cbn. by rewrite IH. Qed.

Lemma elem_zip_r (us : list Z) (ids : list str) id :
  length us = length ids -> id ∈ ids -> exists uid, (uid, id) ∈ zip us ids.
Proof.
  intros Hlen Hin. destruct (uids_zip us ids Hlen) as [_ E].
  apply elem_ids_of. by rewrite E.
Qed.

Lemma sync_entry um ids uid id : um_wf um -> (uid, id) ∈ um_entries (um_sync um ids) ->
  (uid, id) ∈ um_entries um \/ ((id ∉ ids_of (um_entries um)) /\ um_last um < uid).
Proof.
  intros Hwf. destruct (um_sync_entries um ids Hwf) as (Ee & _ & _). rewrite Ee, elem_of_app.
  intros [[_ Hin]%list_elem_of_filter|Hin]; [by left|right].
  apply list_elem_of_In in Hin. split.
  - by apply in_combine_r, list_elem_of_In, list_elem_of_filter in Hin as [? _].
  - apply in_combine_l, list_elem_of_In, elem_of_seqZ in Hin. lia.
Qed.

Lemma sync_ids um ids id : um_wf um ->
  (exists uid, (uid, id) ∈ um_entries (um_sync um ids)) <-> id ∈ ids.
Proof.
  intros Hwf. destruct (um_sync_entries um ids Hwf) as (Ee & _ & _). rewrite Ee. setoid_rewrite elem_of_app. split.
  - intros [uid [[Hid _]%list_elem_of_filter|Hin]]; [done|].
    by apply list_elem_of_In, in_combine_r, list_elem_of_In, list_elem_of_filter in Hin as [_ ?].
  - intros Hid. destruct (decide (id ∈ ids_of (um_entries um))) as [[uid Hin]%elem_ids_of|Hni].
    + exists uid. left. by apply list_elem_of_filter.
    + destruct (elem_zip_r (seqZ (um_last um + 1) (Z.of_nat (length (um_new um ids)))) (um_new um ids) id) as [uid Hin].
      * rewrite length_seqZ. lia.
      * by apply list_elem_of_filter.
      * exists uid. by right.
Qed.

Lemma found_lookup_ids um ids :
  omap fst (omap (um_lookup um AddIfMissing) ids) = ids_of (um_found um ids).
Proof.
  induction ids as [|id ids IH]; [done|]. unfold um_found in *. cbn [omap list_omap um_lookup].
  destruct (um_uid um id); cbn; [|done]. by f_equal.
Qed.
Lemma found_lookup_uids um ids :
  map snd (omap (um_lookup um AddIfMissing) ids) = uids_of (um_found um ids).
Proof.
  induction ids as [|id ids IH]; [done|]. unfold um_found in *. cbn [omap list_omap um_lookup].
  destruct (um_uid um id); cbn; [|done]. by f_equal.
Qed.

Lemma elem_um_found um ids uid id : um_wf um ->
  (uid, id) ∈ um_found um ids <-> id ∈ ids /\ (uid, id) ∈ um_entries um.
Proof.
  intros Hwf. unfold um_found. rewrite list_elem_of_omap. split.
  - intros (i & Hi & E). destruct (um_uid um i) as [u|] eqn:Eu; [|done]. simplify_eq/=.
    split; [done|]. by apply um_uid_Some.
  - intros [Hi Hin]. exists id. split; [done|]. apply um_uid_Some in Hin; [|done]. by rewrite Hin.
Qed.

Lemma um_delete_wf um ids : um_wf um -> um_wf (um_delete um ids).
Proof.
  unfold um_delete. generalize (omap (fun id => (fun uid => (uid, id)) <$> um_uid um id) ids). intros l.
  revert um; induction l as [|e l IH]; intros um Hwf; [done|]. cbn [foldl]. by apply IH, um_remove_wf.
Qed.

Lemma um_delete_uid um ids id : um_wf um ->
  um_uid (um_delete um ids) id = if decide (id ∈ ids) then None else um_uid um id.
Proof.
  intros Hwf. destruct (remove_fold um (um_found um ids)) as (Ee & _ & _).
  fold (um_delete um ids) in Ee. pose proof (um_delete_wf um ids Hwf) as Hwf'.
  assert (Hin : forall uid, (uid, id) ∈ um_entries (um_delete um ids) <-> ((id ∉ ids) /\ (uid, id) ∈ um_entries um)).
  { intros uid. unfold um_delete at 1. fold (um_found um ids). rewrite Ee, list_elem_of_filter. cbn.
    rewrite elem_ids_of. setoid_rewrite elem_um_found; [|done]. split.
    - intros [Hn Hi]. split; [|done]. intros Hid. by apply Hn; exists uid.
    - intros [Hn Hi]. split; [|done]. by intros (? & ? & _). }
  case_decide as Hd.
  - apply um_uid_None; [done|]. rewrite elem_ids_of. intros [uid Hu]. by apply Hin in Hu as [? _].
  - apply option_eq. intros uid. rewrite !um_uid_Some, Hin by done. tauto.
Qed.

Lemma remove_fold_deleted um dead id uid :
  (forall e, e ∈ dead -> e.2 = id -> e.1 = uid) ->
  (exists e, e ∈ dead /\ e.2 = id) \/ um_deleted um !! id = Some uid ->
  um_deleted (foldl (fun um e => um_remove um e.1 e.2) um dead) !! id = Some uid.
Proof.
  revert um; induction dead as [|d dead IH]; intros um Hall Hex; cbn [foldl].
  - destruct Hex as [(e & He & _)|?]; [by apply elem_of_nil in He | done].
  - apply IH; [intros e He; apply Hall; by right|]. cbn [um_remove um_deleted].
    destruct (decide (d.2 = id)) as [E|Hne].
    + right. rewrite E, lookup_insert_eq. f_equal. apply Hall; [by left | done].
    + rewrite lookup_insert_ne by done. destruct Hex as [(e & He & Ei)|?]; [|by right].
      apply elem_of_cons in He as [->|He]; [done|]. left. by exists e.
Qed.

Lemma um_delete_deleted um ids id uid : um_wf um -> id ∈ ids -> um_uid um id = Some uid ->
  um_deleted (um_delete um ids) !! id = Some uid.
Proof.
  intros Hwf Hid Huid. unfold um_delete. fold (um_found um ids). apply um_uid_Some in Huid; [|done].
  apply remove_fold_deleted.
  - intros [u i] [_ Hin]%elem_um_found <-; [|done]. cbn. eapply nodup_id_inj; [apply Hwf| |]; done.
  - left. exists (uid, id). split; [|done]. by apply elem_um_found.
Qed.
