(* ===== verification/UidProps.v ===== *)
(** * UIDs: the theorems *)

From Stdlib Require Import Sorted.
From S2P Require Import Prelude Utf8 Store UidStore UidSpec UidOps.

(** ** A concrete store for the witnesses *)
Definition demo_clock : Clock KV := stopped_clock 1700000000.
Lemma demo_clock_laws : @ClockLaws KV mem_sled demo_clock.
Proof. apply stopped_clock_laws. unfold is_u64. lia. Qed.
#[local] Existing Instance demo_clock.
#[local] Existing Instance demo_clock_laws.

(** Decidable side conditions of the witnesses. *)
Ltac by_decision := refine (bool_decide_eq_true_1 _ _); vm_compute; reflexivity.

Definition demo_mb : MailboxId := mkMailboxId (b "john") (Some (b "inbox")).
Definition demo_ids : list str := [b "a00"; b "b01"; b "c02"].

Lemma demo_mb_ok : mb_ok demo_mb.
Proof. split; [by_decision|]. split; [done|]. by_decision. Qed.

Lemma demo_represents : represents (∅ : KV) demo_mb um_empty.
Proof. apply represents_empty. intros. apply lookup_empty. Qed.

Section Properties.
Context {DB : Type} `{SledLaws DB} `{!Clock DB} `{!ClockLaws DB}.

(** C8: [update_uids] implements the synchronization of the abstract table,
    unless the store fails: the messages that are gone lose their UID, the
    others keep it, the new ones get the next UIDs, and the answer is the
    new table with its UIDVALIDITY and UIDNEXT.  It never panics. *)
Theorem update_uids_refines mb um ids (db : DB) :
  represents (contents db) mb um -> NoDup ids -> Forall (fun id => from_utf8 id = Some id) ids ->
  um_last um + Z.of_nat (length ids) < 2 ^ 32 ->
  match update_uids mb ids db with
  | (Ok d, db') =>
      exists v, is_u32 v /\ (um_validity um = None \/ um_validity um = Some v) /\
        represents (contents db') mb (um_sync (um_set_validity um v) ids) /\
        d = um_data (um_sync (um_set_validity um v) ids) v
  | (Err _, _) => sled_fails
  | _ => False
  end.
Proof. intros Hr Hn Hu Hl. exact (wp_update_uids _ _ _ _ Hr Hn Hu Hl db eq_refl). Qed.

(** What a client sees of a synchronization: UIDs in strictly ascending
    order, one for each message and for no other, below UIDNEXT; a message
    known before keeps its UID, and the UID of a new one is larger than any
    given out before. *)
Theorem update_uids_answer mb um ids (db db' : DB) d :
  represents (contents db) mb um -> NoDup ids -> Forall (fun id => from_utf8 id = Some id) ids ->
  um_last um + Z.of_nat (length ids) + 1 < 2 ^ 32 ->
  update_uids mb ids db = (Ok d, db') ->
  StronglySorted Z.lt (md_imap_uids d) /\
  length (md_imap_uids d) = length (md_jmap_ids d) /\
  md_total_messages d = length (md_imap_uids d) /\
  (forall id, id ∈ md_jmap_ids d <-> id ∈ ids) /\
  Forall (fun uid => 1 <= uid < md_uid_next d) (md_imap_uids d) /\
  forall uid id, (uid, id) ∈ zip (md_imap_uids d) (md_jmap_ids d) ->
    match um_uid um id with Some uid' => uid = uid' | None => um_last um < uid end.
Proof.
  intros Hr Hn Hu Hl E. pose proof (wp_update_uids _ _ _ _ Hr Hn Hu ltac:(lia) db eq_refl) as Hwp.
  rewrite E in Hwp. destruct Hwp as (v & Hv & _ & Hr' & ->).
  set (um0 := um_set_validity um v) in *. set (um' := um_sync um0 ids) in *.
  assert (Hwf0 : um_wf um0).
  { destruct (r_wf _ _ _ Hr). split; try done. cbn. intros; by simplify_eq. }
  pose proof (r_wf _ _ _ Hr') as Hwf. pose proof (um_sync_later um0 ids Hwf0) as [_ Hlast].
  pose proof (fun uid id => sync_entry um0 ids uid id Hwf0) as Hent. change (um_sync um0 ids) with um' in Hlast, Hent.
  unfold um_data. cbn [md_imap_uids md_jmap_ids md_total_messages md_uid_next].
  unfold uids_of, ids_of. rewrite !length_map, zip_entries.
  split_and!; [apply Hwf|done|done| | |].
  - intros id. fold (ids_of (um_entries um')). rewrite elem_ids_of. apply sync_ids; done.
  - rewrite wrap32_mod, Z.mod_small; cycle 1.
    { pose proof (wf_last _ Hwf) as H32. unfold is_u32 in H32. cbn in Hlast. lia. }
    apply Forall_map. eapply Forall_impl; [|apply Hwf]. cbn. lia.
  - intros uid id Hin. change (um_uid um id) with (um_uid um0 id). change (um_last um) with (um_last um0).
    destruct (Hent _ _ Hin) as [Hin0|[Hni Hlt]].
    + apply um_uid_Some in Hin0; [|done]. by rewrite Hin0.
    + apply um_uid_None in Hni; [|done]. by rewrite Hni.
Qed.


(** [jmap_to_imap] answers, for each id in turn, the UID of the message,
    and depending on the options skips ids without one, falls back on (or
    looks only at) deleted messages, or gives the id a new UID; it changes
    the table in the last case only. *)
Theorem jmap_to_imap_spec mb um ids o (db : DB) :
  represents (contents db) mb um -> Forall (fun id => from_utf8 id = Some id) ids ->
  um_last um + Z.of_nat (length ids) < 2 ^ 32 ->
  match jmap_to_imap mb ids o db with
  | (Ok r, db') =>
      let um' := if decide (o = AddIfMissing) then foldl um_add_missing um ids else um in
      represents (contents db') mb um' /\
      r = (omap fst (omap (um_lookup um' o) ids), map snd (omap (um_lookup um' o) ids))
  | (Err _, _) => sled_fails
  | _ => False
  end.
Proof.
  intros Hr Hu Hl. unfold jmap_to_imap. case_decide as Ho.
  - subst. pose proof (wp_jmap_to_imap_add _ _ _ ids [] [] Hr Hu Hl db eq_refl) as Hwp.
    destruct (jmap_to_imap_loop mb AddIfMissing ids [] [] db) as [[r|e| |] db']; try done.
    cbn zeta in *. destruct Hwp as [Hr' ->]. split; [done|]. by rewrite found_lookup_ids, found_lookup_uids.
  - pose proof (wp_jmap_to_imap_read _ _ _ o ids [] [] Hr Ho db eq_refl) as Hwp.
    destruct (jmap_to_imap_loop mb o ids [] [] db) as [[r|e| |] db']; try done.
    destruct Hwp as [-> ->]. done.
Qed.

(** [delete_ids] removes the given messages from the table, and only
    them, and remembers their UIDs as deleted. *)
Theorem delete_ids_refines mb um ids (db : DB) :
  represents (contents db) mb um ->
  match delete_ids mb ids db with
  | (Ok _, db') =>
      represents (contents db') mb (um_delete um ids) /\
      (forall id, um_uid (um_delete um ids) id = if decide (id ∈ ids) then None else um_uid um id) /\
      (forall id uid, id ∈ ids -> um_uid um id = Some uid -> um_deleted (um_delete um ids) !! id = Some uid)
  | (Err _, _) => sled_fails
  | _ => False
  end.
Proof.
  intros Hr. pose proof (wp_delete_ids _ _ _ ids Hr db eq_refl) as Hwp.
  destruct (delete_ids mb ids db) as [[r|e| |] db']; try done. split; [done|].
  pose proof (r_wf _ _ _ Hr). split; [intros; by apply um_delete_uid | intros; by apply um_delete_deleted].
Qed.
End Properties.

(** ** Witnesses *)
Lemma demo_ids_nodup : NoDup demo_ids.
Proof. by_decision. Qed.
Lemma demo_ids_utf8 : Forall (fun id => from_utf8 id = Some id) demo_ids.
Proof. by_decision. Qed.

Lemma update_uids_refines_witness :
  represents (contents (∅ : KV)) demo_mb um_empty /\
  match update_uids demo_mb demo_ids (∅ : KV) with
  | (Ok d, db') => md_imap_uids d = [1; 2; 3] /\ md_uid_next d = 4 /\ exists um, represents db' demo_mb um
  | _ => False
  end.
Proof.
  split; [exact demo_represents|].
  assert (Hlt : um_last um_empty + Z.of_nat (length demo_ids) < 2 ^ 32) by by vm_compute.
  pose proof (update_uids_refines demo_mb um_empty demo_ids (∅ : KV) demo_represents demo_ids_nodup
                demo_ids_utf8 Hlt) as Hp.
  destruct (update_uids demo_mb demo_ids (∅ : KV)) as [[d|e| |] db'] eqn:E; [|exact Hp..].
  destruct Hp as (v & _ & _ & Hr & ->). split; [by vm_compute|]. split; [by vm_compute|].
  eexists. exact Hr.
Defined.

(** The store after the first synchronization of the demo mailbox. *)
Definition demo_db : KV := (update_uids demo_mb demo_ids (∅ : KV)).2.

Definition demo_data : MailboxData := mkMailboxData 4 209254 demo_ids [1; 2; 3] 3 [].

Lemma demo_sync : update_uids demo_mb demo_ids (∅ : KV) = (Ok demo_data, demo_db).
Proof.
  assert (E : (update_uids demo_mb demo_ids (∅ : KV)).1 = Ok demo_data) by (vm_compute; reflexivity).
  unfold demo_db. rewrite <- E. apply surjective_pairing.
Qed.

Lemma demo_db_represents : exists um, represents (contents demo_db) demo_mb um /\ um_last um = 3.
Proof.
  assert (Hlt : um_last um_empty + Z.of_nat (length demo_ids) < 2 ^ 32) by by vm_compute.
  pose proof (wp_update_uids (∅ : KV) demo_mb um_empty demo_ids demo_represents demo_ids_nodup demo_ids_utf8 Hlt
                ∅ eq_refl) as Hp.
  rewrite demo_sync in Hp. destruct Hp as (v & _ & _ & Hr & _).
  eexists; split; [exact Hr|]. vm_compute. reflexivity.
Qed.

Lemma update_uids_answer_witness :
  let d := demo_data in
  update_uids demo_mb demo_ids (∅ : KV) = (Ok d, demo_db) /\ StronglySorted Z.lt (md_imap_uids d).
Proof.
  split; [exact demo_sync|].
  refine (proj1 (update_uids_answer demo_mb um_empty demo_ids (∅ : KV) demo_db _ demo_represents demo_ids_nodup
                   demo_ids_utf8 _ demo_sync)).
  by vm_compute.
Defined.

Definition demo_calls : list (MailboxId * uid_call) :=
  [(demo_mb, CallUpdate demo_ids);
   (mkMailboxId (b "john") None, CallUpdate [b "a00"]);
   (demo_mb, CallDelete [b "b01"]);
   (demo_mb, CallMap [b "b01"; b "d03"] AddIfMissing);
   (demo_mb, CallUids)].

Lemma demo_calls_ok : Forall (fun c => mb_ok c.1 /\ call_ok c.2) demo_calls.
Proof.
  repeat (constructor; [split; [first [exact demo_mb_ok | split; [by_decision | exact I]] |
                                split; [by_decision | first [exact I | by_decision]]]|]).
  constructor.
Qed.


Lemma jmap_to_imap_spec_witness :
  represents (contents (∅ : KV)) demo_mb um_empty /\
  match jmap_to_imap demo_mb demo_ids AddIfMissing (∅ : KV) with
  | (Ok r, _) => r = (demo_ids, [1; 2; 3])
  | _ => False
  end.
Proof.
  split; [exact demo_represents|].
  assert (Hlt : um_last um_empty + Z.of_nat (length demo_ids) < 2 ^ 32) by by vm_compute.
  pose proof (jmap_to_imap_spec demo_mb um_empty demo_ids AddIfMissing (∅ : KV) demo_represents demo_ids_utf8 Hlt) as Hp.
  destruct (jmap_to_imap demo_mb demo_ids AddIfMissing (∅ : KV)) as [[r|e| |] db']; [|exact Hp..].
  destruct Hp as [_ ->]. vm_compute. reflexivity.
Defined.

Lemma delete_ids_refines_witness :
  represents (contents (∅ : KV)) demo_mb um_empty /\
  match delete_ids demo_mb demo_ids (∅ : KV) with
  | (Ok _, db') => represents db' demo_mb (um_delete um_empty demo_ids)
  | _ => False
  end.
Proof.
  split; [exact demo_represents|].
  pose proof (delete_ids_refines demo_mb um_empty demo_ids (∅ : KV) demo_represents) as Hp.
  destruct (delete_ids demo_mb demo_ids (∅ : KV)) as [[r|e| |] db']; [|exact Hp..]. exact (proj1 Hp).
Defined.

(** ** Limits of the correspondence *)

(** An id that occurs twice in one answer of the JMAP server (a message can move
    to the next page while the pages are read) gets two UIDs; the next
    synchronization takes the second for deleted and with it the mapping of
    the message, which is then listed without being found. *)
Lemma update_uids_duplicate :
  let r1 := update_uids demo_mb [b "a"; b "a"] (∅ : KV) in
  let r2 := update_uids demo_mb [b "a"] r1.2 in
  (md_imap_uids <$> ok_of r1.1) = Some [1; 2] /\ (md_imap_uids <$> ok_of r2.1) = Some [1] /\
  (jmap_to_imap demo_mb [b "a"] MapNone r2.2).1 = Ok ([], []).
Proof. vm_compute. auto. Qed.

(** UIDVALIDITY counts hours: an account that is deleted and synchronized again
    within the hour gives the same UIDVALIDITY and UID to another message. *)
Lemma uid_validity_same_hour :
  let r1 := update_uids demo_mb [b "a"] (∅ : KV) in
  let r2 := update_uids demo_mb [b "z"] (delete_account (b "john") r1.2).2 in
  (md_uid_validity <$> ok_of r1.1) = (md_uid_validity <$> ok_of r2.1) /\
  (md_imap_uids <$> ok_of r1.1) = Some [1] /\ (md_imap_uids <$> ok_of r2.1) = Some [1] /\
  (md_jmap_ids <$> ok_of r1.1) <> (md_jmap_ids <$> ok_of r2.1).
Proof. vm_compute. repeat split; auto. discriminate. Qed.
