(* ===== verification/Modseq.v ===== *)
(** * Modification sequences: [src/core/mailbox.rs], [state_to_modseq]

    IMAP wants a 32-bit modification sequence where JMAP has an opaque state
    string; the server numbers the states of an account in the order it sees
    them.  The store holds the numbering in both directions; here it is shown
    to be one list of states, each number its position. *)

From S2P Require Import Prelude Utf8 Store UidStore.

Section Operations.
Context {DB : Type} `{Sled DB}.

Definition state_to_modseq (account_id state : str) : M DB Z :=
  let highestmodseq_key := serialize_highestmodseq account_id in
  let modseq_key := serialize_modseq account_id state STATE_TO_MODSEQ in
  do* known := sled_get modseq_key in
  do* modseq :=
    (match known with
     | Some modseq => ret modseq
     | None =>
         do* highestmodseq := sled_update_and_fetch highestmodseq_key increment_uid in
         do* highestmodseq := lift (ok_or highestmodseq tt) in
         do* _ := sled_insert modseq_key highestmodseq in
         do* _ := sled_insert
                    (serialize_modseq (take (length highestmodseq_key - 2) highestmodseq_key)
                       highestmodseq MODSEQ_TO_STATE) state in
         ret highestmodseq
     end) in
  read_u32 modseq.

Definition modseq_to_state (account_id : str) (modseq : Z) : M DB (option str) :=
  let modseq_key := serialize_modseq account_id (be32 modseq) MODSEQ_TO_STATE in
  do* state := sled_get modseq_key in
  match state with
  | Some state => do* s := read_string state in ret (Some s)
  | None => ret None
  end.
End Operations.

(** ** The numbering

    [states] lists the states of the account in the order of their first
    sight; the [i]th has modification sequence [i + 1]. *)
Record numbered (c : KV) (account : str) (states : list str) : Prop := {
  n_room : Z.of_nat (length states) < 2 ^ 32;
  n_nodup : NoDup states;
  n_utf8 : Forall (fun s => from_utf8 s = Some s) states;
  n_highest : c !! serialize_highestmodseq account =
              match states with [] => None | _ => Some (be32 (Z.of_nat (length states))) end;
  n_modseq : forall s v, c !! serialize_modseq account s STATE_TO_MODSEQ = Some v <->
             exists i, states !! i = Some s /\ v = be32 (Z.of_nat i + 1);
  n_state : forall n s, is_u32 n -> c !! serialize_modseq account (be32 n) MODSEQ_TO_STATE = Some s <->
             exists i, states !! i = Some s /\ n = Z.of_nat i + 1
}.

(** The state gets a number unless it has one. *)
Definition see (states : list str) (state : str) : list str :=
  if decide (state ∈ states) then states else states ++ [state].

Lemma modseq_key_eq a v s v' s' :
  serialize_modseq a v s = serialize_modseq a v' s' <-> v = v' /\ s = s'.
Proof.
  unfold serialize_modseq. split; [|by intros [-> ->]].
  rewrite !app_inv_head_iff. cbn [app]. intros [= E]. by apply app_inj_tail in E.
Qed.

Lemma highest_key_ne a v s : s <> HIGHEST_MODSEQ ->
  serialize_modseq a v s <> serialize_highestmodseq a.
Proof.
  unfold serialize_modseq, serialize_highestmodseq. intros Hs. rewrite app_inv_head_iff.
  cbn [app]. intros [= E]. apply (app_inj_tail v [] s HIGHEST_MODSEQ) in E as [_ ?]. done.
Qed.

Lemma highest_key_account a :
  take (length (serialize_highestmodseq a) - 2) (serialize_highestmodseq a) = a.
Proof.
  unfold serialize_highestmodseq. rewrite length_app. cbn [length app].
  replace (length a + 2 - 2)%nat with (length a) by lia. by rewrite take_app_length.
Qed.

(** The three writes for a new state. *)
Definition write_state (a : str) (n : Z) (s : str) (c : KV) : KV :=
  <[serialize_modseq a (be32 n) MODSEQ_TO_STATE := s]>
    (<[serialize_modseq a s STATE_TO_MODSEQ := be32 n]> (<[serialize_highestmodseq a := be32 n]> c)).

Lemma numbered_write c a states s :
  numbered c a states -> s ∉ states -> from_utf8 s = Some s -> Z.of_nat (length states) + 1 < 2 ^ 32 ->
  numbered (write_state a (Z.of_nat (length states) + 1) s c) a (states ++ [s]).
Proof.
  intros [Hroom Hn Hu Hh Hm Hs] Hni Hutf Hlt. set (n := Z.of_nat (length states) + 1).
  assert (Hsnoc : forall i x, (states ++ [s]) !! i = Some x <->
                              states !! i = Some x \/ (i = length states /\ x = s)).
  { intros i x. rewrite lookup_app_Some, list_lookup_singleton_Some. split.
    - intros [?|[? [? ?]]]; [by left | right; split; [lia | done]].
    - intros [?|[-> ->]]; [by left | right]. split; [lia | split; [lia | done]]. }
  assert (Hlt_of : forall i x, states !! i = Some x -> Z.of_nat i + 1 < n).
  { intros i x Hi%lookup_lt_Some. lia. }
  split; unfold write_state.
  - rewrite length_app. cbn. lia.
  - apply list.NoDup_app. split; [done|]. split; [|apply list.NoDup_singleton].
    by intros x Hx ->%list_elem_of_singleton.
  - apply Forall_app. auto.
  - rewrite !lookup_insert_ne by (by apply highest_key_ne). rewrite lookup_insert_eq.
    rewrite length_app. cbn. destruct (states ++ [s]) eqn:E; [by apply app_eq_nil in E as [_ ?]|].
    do 2 f_equal. lia.
  - intros x v. rewrite lookup_insert_ne by (rewrite modseq_key_eq; intros [_ ?]; done).
    destruct (decide (x = s)) as [->|Hne].
    + rewrite lookup_insert_eq. split.
      * intros [= <-]. exists (length states). rewrite Hsnoc. auto.
      * intros (i & [Hi|[-> _]]%Hsnoc & ->); [|done]. destruct Hni. by eapply list_elem_of_lookup_2.
    + rewrite !lookup_insert_ne; [|apply not_eq_sym, highest_key_ne; done|rewrite modseq_key_eq; by intros [? _]].
      rewrite Hm. setoid_rewrite Hsnoc. split; [intros (i & ? & ?); eauto|].
      intros (i & [?|[_ ?]] & ?); [eauto | done].
  - intros m x Hm32. destruct (decide (m = n)) as [->|Hne].
    + rewrite lookup_insert_eq. split.
      * intros [= <-]. exists (length states). rewrite Hsnoc. auto.
      * intros (i & [Hi|[-> ->]]%Hsnoc & E); [|done]. apply Hlt_of in Hi. lia.
    + rewrite lookup_insert_ne by (rewrite modseq_key_eq; intros [E%be32_inj _]; unfold is_u32 in *; subst; lia || done).
      rewrite !lookup_insert_ne; [|apply not_eq_sym, highest_key_ne; done|rewrite modseq_key_eq; by intros [_ ?]].
      rewrite Hs by done. setoid_rewrite Hsnoc. split; [intros (i & ? & ?); eauto|].
      intros (i & [?|[-> _]] & ?); [eauto | done].
Qed.

Lemma numbered_empty a : numbered (∅ : KV) a [].
Proof.
  split; try done; try by constructor.
  - intros s v. rewrite lookup_empty. split; [done|]. by intros (i & ? & _).
  - intros n s _. rewrite lookup_empty. split; [done|]. by intros (i & ? & _).
Qed.

Section Properties.
Context {DB : Type} `{SledLaws DB}.

Lemma wp_state_to_modseq c account states state :
  numbered c account states -> from_utf8 state = Some state ->
  Z.of_nat (length states) + 1 < 2 ^ 32 ->
  wp (state_to_modseq account state)
    (fun n c' => numbered c' account (see states state) /\
                 exists i, see states state !! i = Some state /\ n = Z.of_nat i + 1) c.
Proof.
  intros Hnum Hu Hl. unfold state_to_modseq, see. do 2 wp_step.
  destruct (decide (state ∈ states)) as [Hin|Hni].
  - apply list_elem_of_lookup in Hin as [i Hi].
    assert (E : c !! serialize_modseq account state STATE_TO_MODSEQ = Some (be32 (Z.of_nat i + 1))).
    { apply (n_modseq _ _ _ Hnum). eauto. }
    rewrite E. pose proof (lookup_lt_Some _ _ _ Hi). unfold read_u32. wp_steps.
    rewrite from_be32_be32 by lia. wp_step. eauto.
  - assert (E : c !! serialize_modseq account state STATE_TO_MODSEQ = None).
    { apply eq_None_not_Some. intros [v (i & Hi & _)%(n_modseq _ _ _ Hnum)].
      by apply list_elem_of_lookup_2 in Hi. }
    assert (Hinc : increment_uid (c !! serialize_highestmodseq account) = Some (be32 (Z.of_nat (length states) + 1))).
    { rewrite (n_highest _ _ _ Hnum). destruct states as [|s0 states]; [done|]. unfold increment_uid.
      rewrite from_be32_be32 by lia. rewrite wrap32_mod, Z.mod_small by lia. done. }
    rewrite E. unfold read_u32. do 3 wp_step. rewrite Hinc. wp_steps. rewrite from_be32_be32 by lia. wp_step.
    rewrite highest_key_account. split; [by apply numbered_write|].
    exists (length states). split; [|done]. apply list_lookup_middle. done.
Qed.

Lemma wp_modseq_to_state c account states i state :
  numbered c account states -> states !! i = Some state ->
  wp (modseq_to_state account (Z.of_nat i + 1)) (fun s _ => s = Some state) c.
Proof.
  intros Hnum Hi. pose proof (n_room _ _ _ Hnum). pose proof (lookup_lt_Some _ _ _ Hi).
  unfold modseq_to_state. do 2 wp_step.
  rewrite (proj2 (n_state _ _ _ Hnum (Z.of_nat i + 1) state ltac:(unfold is_u32; lia))) by eauto.
  pose proof (proj1 (list.Forall_forall _ _) (n_utf8 _ _ _ Hnum) state ltac:(by eapply list_elem_of_lookup_2)) as Hu.
  cbn beta in Hu. unfold read_string. rewrite Hu. by wp_steps.
Qed.

(** [state_to_modseq] numbers the states of an account: a state seen
    before keeps its number, a new one gets the next, so that numbers grow
    and determine the state: [modseq_to_state] finds it. *)
Theorem state_to_modseq_numbers account states state (db : DB) :
  numbered (contents db) account states -> from_utf8 state = Some state ->
  Z.of_nat (length states) + 1 < 2 ^ 32 ->
  match state_to_modseq account state db with
  | (Ok n, db') =>
      numbered (contents db') account (see states state) /\
      (exists i, see states state !! i = Some state /\ n = Z.of_nat i + 1) /\
      (state ∉ states -> n = Z.of_nat (length states) + 1) /\
      match modseq_to_state account n db' with
      | (Ok s, _) => s = Some state
      | (Err _, _) => sled_fails
      | _ => False
      end
  | (Err _, _) => sled_fails
  | _ => False
  end.
Proof.
  intros Hnum Hu Hl. pose proof (wp_state_to_modseq _ account states state Hnum Hu Hl db eq_refl) as Hwp.
  destruct (state_to_modseq account state db) as [[n|e| |] db']; try done.
  destruct Hwp as (Hnum' & i & Hi & ->). split; [done|]. split; [eauto|]. split.
  - intros Hs. unfold see in Hi. rewrite decide_False in Hi by done.
    apply lookup_app_Some in Hi as [Hi|[Hle Hi]]; [by apply list_elem_of_lookup_2 in Hi|].
    apply list_lookup_singleton_Some in Hi as [? _]. do 2 f_equal. lia.
  - pose proof (wp_modseq_to_state _ account _ _ _ Hnum' Hi db' eq_refl) as Hwp.
    destruct (modseq_to_state account (Z.of_nat i + 1) db') as [[s|e| |] db'']; done.
Qed.
End Properties.

Lemma state_to_modseq_numbers_witness :
  numbered (contents (∅ : KV)) (b "john") [] /\
  match state_to_modseq (b "john") (b "s1") (∅ : KV) with
  | (Ok n, db') => numbered db' (b "john") [b "s1"]
  | _ => False
  end.
Proof.
  split; [apply numbered_empty|].
  pose proof (state_to_modseq_numbers (b "john") [] (b "s1") (∅ : KV) (numbered_empty _) eq_refl eq_refl) as Hp.
  destruct (state_to_modseq (b "john") (b "s1") (∅ : KV)) as [[n|e| |] db']; [|exact Hp..].
  exact (proj1 Hp).
Defined.
