(* ===== verification/Jmap.v ===== *)
(** * The JMAP server as the proxy sees it

    The errors of the [jmap_client] library, as far as [src/core/mod.rs] tells
    them apart, and the IMAP response for each of them
    ([IntoStatusResponse::into_status_response]). *)

From S2P Require Import Prelude Utf8 Utf7 Types.

Inductive JMAPError := UnknownCapability | NotJSON | NotRequest | JMAPLimit.

Inductive ProblemType := ProblemJMAP (e : JMAPError) | ProblemOther.

Record ProblemDetails := {
  problem_error : ProblemType;
  problem_limit : option str;
  problem_status : option Z;
  problem_detail : option str
}.

Inductive MethodErrorType :=
| ServerUnavailable | ServerFail | ServerPartialFail | UnknownMethod | InvalidArguments | InvalidResultReference
| MForbidden | AccountNotFound | AccountNotSupportedByMethod | AccountReadOnly | RequestTooLarge
| CannotCalculateChanges | StateMismatch | MAlreadyExists | FromAccountNotFound | FromAccountNotSupportedByMethod
| AnchorNotFound | UnsupportedSort | UnsupportedFilter | TooManyChanges.

Inductive SetErrorType :=
| SForbidden | SOverQuota | TooLarge | RateLimit | NotFound | InvalidPatch | WillDestroy | InvalidProperties
| Singleton | MailboxHasChild | MailboxHasEmail | BlobNotFound | TooManyKeywords | TooManyMailboxes | ForbiddenFrom
| InvalidEmail | TooManyRecipients | NoRecipients | InvalidRecipients | ForbiddenMailFrom | ForbiddenToSend
| CannotUnsend | SAlreadyExists | InvalidScript | ScriptIsActive.

(** [Server] carries the text of its [Display], [SetError] the description. *)
Inductive JmapError :=
| Transport | ParseError | Internal (text : str)
| Problem (details : ProblemDetails)
| Server (text : str)
| Method (e : MethodErrorType)
| SetError (e : SetErrorType) (description : option str)
| WebSocket.

Definition limit_message (limit : str) : list Piece :=
  if bytes_eqb limit (b "maxSizeRequest") then msg "Request size exceeds maximum allowed."
  else if bytes_eqb limit (b "maxCallsInRequest") then msg "Too many method calls in the same request."
  else if bytes_eqb limit (b "maxConcurrentRequests") then msg "Too many concurrent requests."
  else msg "Server limit exceeded.".

Definition problem_status_message (err : ProblemDetails) : ResponseCode * list Piece :=
  match problem_error err with
  | ProblemJMAP UnknownCapability => (ContactAdmin, msg "JMAP capability unknown.")
  | ProblemJMAP NotJSON => (ContactAdmin, msg "JMAP server failed to parse JSON request.")
  | ProblemJMAP NotRequest => (ContactAdmin, msg "JMAP server could not process the request.")
  | ProblemJMAP JMAPLimit => (Limit, limit_message (default (b "other") (problem_limit err)))
  | ProblemOther =>
      let status := default 0 (problem_status err) in
      if status =? 403 then (NoPerm, msg "You do not have enough permissions to perform this action.")
      else if status =? 429 then (Limit, msg "Too many requests, please try again later.")
      else (ContactAdmin, [PStr (b "Server error, "); PStr (default (b "unknown.") (problem_detail err))])
  end.

Definition method_error_message (e : MethodErrorType) : ResponseCode * list Piece :=
  match e with
  | ServerUnavailable => (ContactAdmin, msg "Server unavailable.")
  | ServerFail => (ContactAdmin, msg "Server failed.")
  | ServerPartialFail => (ContactAdmin, msg "Partial server failure.")
  | UnknownMethod => (ContactAdmin, msg "Unknown JMAP Method.")
  | InvalidArguments => (ContactAdmin, msg "Invalid arguments.")
  | InvalidResultReference => (ContactAdmin, msg "Invalid result reference.")
  | MForbidden => (NoPerm, msg "Access forbidden.")
  | AccountNotFound => (NonExistent, msg "Account not found.")
  | AccountNotSupportedByMethod => (NoPerm, msg "Action not supported on this account.")
  | AccountReadOnly => (NoPerm, msg "Account is read only.")
  | RequestTooLarge => (Limit, msg "Request is too large.")
  | CannotCalculateChanges => (Cannot, msg "Cannot calculate changes.")
  | StateMismatch => (ClientBug, msg "State mismatch.")
  | MAlreadyExists => (AlreadyExists, msg ".")
  | FromAccountNotFound => (NonExistent, msg "Source account not found.")
  | FromAccountNotSupportedByMethod => (Cannot, msg "Action not supported on source account.")
  | AnchorNotFound => (ContactAdmin, msg "Anchor not found.")
  | UnsupportedSort => (Cannot, msg "Sort criteria not supported by the server.")
  | UnsupportedFilter => (Cannot, msg "Filter not supported by the server.")
  | TooManyChanges => (Limit, msg "Too many changes.")
  end.

Definition set_error_message (e : SetErrorType) : ResponseCode * list Piece :=
  match e with
  | SForbidden => (NoPerm, msg "You don't have enough permissions.")
  | SOverQuota => (OverQuota, msg "You have exceeded your quota.")
  | TooLarge => (Limit, msg "Request is too large.")
  | RateLimit => (Limit, msg "Too many requests, please try again later.")
  | NotFound => (NonExistent, msg "Not found.")
  | InvalidPatch => (Cannot, msg "Operation not supported by the server.")
  | WillDestroy => (Cannot, msg "Item will be destroyed.")
  | InvalidProperties => (Cannot, msg "Invalid properties.")
  | Singleton => (Cannot, msg "Failed operation on singleton.")
  | MailboxHasChild => (Cannot, msg "Mailbox has children and cannot be deleted.")
  | MailboxHasEmail => (Cannot, msg "Mailbox has messages and cannot be deleted.")
  | BlobNotFound => (NonExistent, msg "One or more message parts are not available for retrieval.")
  | TooManyKeywords => (Limit, msg "Too many keywords.")
  | TooManyMailboxes => (Limit, msg "Too many mailboxes.")
  | ForbiddenFrom => (Cannot, msg "From address is not allowed.")
  | InvalidEmail => (Cannot, msg "Invalid e-mail address.")
  | TooManyRecipients => (Limit, msg "Too many recipients.")
  | NoRecipients => (Cannot, msg "No recipients speficied.")
  | InvalidRecipients => (Cannot, msg "One or more recipients are invalid.")
  | ForbiddenMailFrom => (Cannot, msg "Mail from is forbidden.")
  | ForbiddenToSend => (NoPerm, msg "Sending is not allowed.")
  | CannotUnsend => (Cannot, msg "Cannot unsend.")
  | SAlreadyExists | InvalidScript | ScriptIsActive => (Cannot, msg "Sieve script error.")
  end.

Definition into_status_response (e : JmapError) : StatusResponse :=
  let '(code, message) :=
    match e with
    | Transport => (ContactAdmin, msg "Could not connect to JMAP server.")
    | ParseError => (ContactAdmin, msg "Failed to parse JMAP server response.")
    | Internal _ => (ContactAdmin, msg "Internal Error.")
    | Problem err => problem_status_message err
    | Server err => (ContactAdmin, [PStr (b "Server error, "); PStr err])
    | Method err => method_error_message err
    | SetError err _ => set_error_message err
    | WebSocket => (ContactAdmin, msg "WebSockets protocol error.")
    end in
  with_code (sr_no message) code.

(** An answer of the server never carries the code of a success. *)
Lemma into_status_response_no e :
  rtype (into_status_response e) = RtNo /\ tag (into_status_response e) = None /\
  code (into_status_response e) <> None.
Proof.
  unfold into_status_response. by destruct (match e with Transport => _ | _ => _ end).
Qed.
