(* ===== verification/Synchronize.v ===== *)
(** * The messages of a mailbox, read from the JMAP server

    [impl SessionData] of [src/core/message.rs]: the ids of a mailbox, page by
    page, and the UIDs they get in the store. *)

From Stdlib Require Import Sorted.
From S2P Require Import Prelude Utf8 Utf7 Types Jmap Store UidStore UidSpec UidOps Modseq.

(** The answer to [Email/query]: [total] and the ids of the page. *)
Record QueryPage := mkQueryPage { page_total : option Z; page_ids : list str }.

(** The requests of the JMAP client used here: [Email/query] of an account,
    with a mailbox as filter if any, from a position on; and the state of the
    account's messages. *)
Class EmailClient (DB : Type) := {
  send_query_email : str -> option str -> Z -> EM DB JmapError QueryPage;
  send_get_email_state : str -> EM DB JmapError str
}.

(** [position += len as i32] *)
Definition add_i32 (position len : Z) : Z := (position + len + 2 ^ 31) mod 2 ^ 32 - 2 ^ 31.

Lemma add_i32_small a c : 0 <= a -> 0 <= c -> a + c < 2 ^ 31 -> add_i32 a c = a + c.
Proof. intros. unfold add_i32. rewrite Z.mod_small; lia. Qed.

Section Synchronize.
Context {DB : Type} `{Sled DB} `{Clock DB} `{EmailClient DB}.

(** [for _ in 0..pages] *)
Fixpoint fetch_ids (pages : nat) (mailbox : MailboxId) (position : Z) (valid_ids : list str)
  : EM DB StatusResponse (list str) :=
  match pages with
  | O => ret valid_ids
  | S pages' =>
      do* response :=
        map_errM into_status_response (send_query_email (account_id mailbox) (mailbox_id mailbox) position) in
      let total_messages := default 0 (page_total response) in
      let emails := page_ids response in
      if (0 <? length emails)%nat then
        let valid_ids := valid_ids ++ emails in
        if Z.of_nat (length valid_ids) <? total_messages then
          fetch_ids pages' mailbox (add_i32 position (Z.of_nat (length emails))) valid_ids
        else ret valid_ids
      else ret valid_ids
  end.

Definition synchronize_messages (mailbox : MailboxId) : EM DB StatusResponse MailboxData :=
  do* valid_ids := fetch_ids 100 mailbox 0 [] in
  map_errM (fun _ => database_failure) (update_uids mailbox valid_ids).

Definition get_jmap_state (account_id : str) : EM DB StatusResponse str :=
  map_errM into_status_response (send_get_email_state account_id).

Definition synchronize_state (account_id : str) : EM DB StatusResponse Z :=
  do* state := get_jmap_state account_id in
  map_errM (fun _ => database_failure) (state_to_modseq account_id state).
End Synchronize.

(** ** A server whose mailbox does not change while it is read

    [Email/query] (RFC 8620, 5.5) returns the ids from a position on, all or
    the first so many of them, and how many there are. *)
Class EmailClientLaws (DB : Type) `{Sled DB} `{EmailClient DB} (mailbox : MailboxId) (ids : list str) (page : nat) := {
  query_law db position r db' :
    send_query_email (account_id mailbox) (mailbox_id mailbox) position db = (r, db') ->
    0 <= position <= Z.of_nat (length ids) ->
    contents db' = contents db /\
    ((exists e, r = Err e) \/
     exists n, (page <= n)%nat /\ r = Ok (mkQueryPage (Some (Z.of_nat (length ids))) (take n (drop (Z.to_nat position) ids))))
}.

Section Spec.
Context {DB : Type} `{SledLaws DB} `{!Clock DB} `{!ClockLaws DB} `{!EmailClient DB}.
Context (mailbox : MailboxId) (ids : list str) (page : nat) `{!EmailClientLaws DB mailbox ids page}.
Hypothesis Hpage : (1 <= page)%nat.
Hypothesis Hlen : Z.of_nat (length ids) < 2 ^ 31.

(** The loop reads on until everything is there, unless it runs out of pages. *)
Lemma fetch_ids_all pages pos db :
  (pos <= length ids)%nat -> (length ids <= pos + pages * page)%nat ->
  match fetch_ids pages mailbox (Z.of_nat pos) (take pos ids) db with
  | (Ok l, db') => l = ids /\ contents db' = contents db
  | (Err _, db') => contents db' = contents db
  | _ => False
  end.
Proof using All.
  revert pos db; induction pages as [|pages IH]; intros pos db Hp Hlast; cbn [fetch_ids].
  - split; [|done]. apply take_ge. lia.
  - unfold bindM at 1, map_errM. destruct (send_query_email _ _ _ db) as [r db1] eqn:Eq.
    assert (Hb : 0 <= Z.of_nat pos <= Z.of_nat (length ids)) by lia.
    destruct (query_law db (Z.of_nat pos) r db1 Eq Hb) as [Hc [[e ->]|(n & Hn & ->)]]; cbn [map_err]; [done|].
    cbn [page_total page_ids default]. unfold id, ret. rewrite Nat2Z.id.
    destruct (Nat.ltb_spec 0 (length (take n (drop pos ids)))) as [Hne|He].
    + rewrite take_take_drop. pose proof (length_take ids (pos + n)) as Hl.
      destruct (Z.ltb_spec (Z.of_nat (length (take (pos + n) ids))) (Z.of_nat (length ids))); [|split; [|done]; apply take_ge; lia].
      assert (Hpos : length (take n (drop pos ids)) = n) by (rewrite length_take, length_drop; lia).
      assert (pos + n <= length ids)%nat by lia.
      rewrite Hpos, add_i32_small, <- Nat2Z.inj_add by lia.
      specialize (IH (pos + n)%nat db1 ltac:(lia) ltac:(nia)).
      destruct (fetch_ids _ _ _ _ _) as [[l|e| |] db2]; try done; [destruct IH as [-> ?]; split; congruence | congruence].
    + split; [|done]. rewrite length_take, length_drop in He. apply take_ge. lia.
Qed.

(** C10: [synchronize_messages] brings the UID table of the mailbox to the
    messages the JMAP server has, whatever the size of its pages, as long as a
    hundred of them hold the mailbox: the messages that are gone lose their
    UID, the others keep it, new ones get the next UIDs.  When the JMAP server
    fails, the table is as before; a panic is impossible. *)
Theorem synchronize_messages_refines um db :
  (length ids <= 100 * page)%nat ->
  represents (contents db) mailbox um -> NoDup ids -> Forall (fun id => from_utf8 id = Some id) ids ->
  um_last um + Z.of_nat (length ids) < 2 ^ 32 ->
  match synchronize_messages mailbox db with
  | (Ok d, db') =>
      exists v, is_u32 v /\ (um_validity um = None \/ um_validity um = Some v) /\
        represents (contents db') mailbox (um_sync (um_set_validity um v) ids) /\
        d = um_data (um_sync (um_set_validity um v) ids) v
  | (Err _, db') => contents db' = contents db \/ sled_fails
  | _ => False
  end.
Proof using All.
  intros Hp Hr Hn Hu Hl. unfold synchronize_messages, bindM at 1.
  pose proof (fetch_ids_all 100 0 db ltac:(lia) ltac:(lia)) as Hf. rewrite take_0 in Hf. change (Z.of_nat 0) with 0 in Hf.
  destruct (fetch_ids 100 mailbox 0 [] db) as [[l|e| |] db1]; try done. 2: by left. destruct Hf as [-> Hc].
  rewrite <- Hc in Hr. pose proof (wp_update_uids _ _ _ _ Hr Hn Hu Hl db1 eq_refl) as Hwp. unfold map_errM.
  destruct (update_uids mailbox ids db1) as [[d|e| |] db2]; try done. by right.
Qed.
End Spec.

(** ** A server with pages of a fixed size *)
Module Demo.
Definition client (ids : list str) (page : nat) : EmailClient KV := {|
  send_query_email _ _ position db :=
    (Ok (mkQueryPage (Some (Z.of_nat (length ids))) (take page (drop (Z.to_nat position) ids))), db);
  send_get_email_state _ db := (Ok (b "s1"), db)
|}.

Lemma client_laws mailbox ids page : @EmailClientLaws KV mem_sled (client ids page) mailbox ids page.
Proof. split. intros db position r db' [= <- <-] _. split; [done|]. right. by exists page. Qed.

Definition clock : Clock KV := stopped_clock 1700000000.
Lemma clock_laws : @ClockLaws KV mem_sled clock.
Proof. apply stopped_clock_laws. unfold is_u64. lia. Qed.
#[export] Existing Instance clock.
#[export] Existing Instance clock_laws.

Definition inbox : MailboxId := mkMailboxId (b "john") (Some (b "inbox")).

(** The result of a synchronization with an empty store. *)
Definition synchronized (ids : list str) (page : nat) : option (list str * list Z) :=
  match @synchronize_messages KV mem_sled clock (client ids page) inbox ∅ with
  | (Ok d, _) => Some (md_jmap_ids d, md_imap_uids d)
  | _ => None
  end.

Example two_pages :
  synchronized [b "a"; b "b"; b "c"] 2 = Some ([b "a"; b "b"; b "c"], [1; 2; 3]).
Proof. vm_compute. reflexivity. Qed.

(** A mailbox of more than a hundred pages is cut off: its other messages get
    no UID, and lose the one they have. *)
Definition many : list str := map (fun n => dec (Z.of_nat n)) (seq 1000 101).
Example hundred_pages_only :
  option_map (fun r => length r.1) (synchronized many 1) = Some 100%nat /\
  option_map (fun r => length r.1) (synchronized many 2) = Some 101%nat.
Proof. vm_compute. split; reflexivity. Qed.
End Demo.

Lemma synchronize_messages_refines_witness :
  match @synchronize_messages KV mem_sled Demo.clock (Demo.client [b "a"; b "b"; b "c"] 2) Demo.inbox ∅ with
  | (Ok d, db') => exists v, represents db' Demo.inbox (um_sync (um_set_validity um_empty v) [b "a"; b "b"; b "c"])
  | _ => False
  end.
Proof.
  assert (Hr : represents (∅ : KV) Demo.inbox um_empty) by (apply represents_empty; intros; apply lookup_empty).
  assert (Hn : NoDup [b "a"; b "b"; b "c"]) by (refine (bool_decide_eq_true_1 _ _); vm_compute; reflexivity).
  assert (Hu : Forall (fun id => from_utf8 id = Some id) [b "a"; b "b"; b "c"])
    by (refine (bool_decide_eq_true_1 _ _); vm_compute; reflexivity).
  pose proof (@synchronize_messages_refines KV mem_sled mem_sled_laws Demo.clock Demo.clock_laws
    (Demo.client [b "a"; b "b"; b "c"] 2) Demo.inbox [b "a"; b "b"; b "c"] 2 (Demo.client_laws _ _ _)
    ltac:(lia) ltac:(vm_compute; reflexivity) um_empty ∅ ltac:(cbn; lia) Hr Hn Hu ltac:(vm_compute; reflexivity)) as H.
  destruct (synchronize_messages Demo.inbox ∅) as [[d|e| |] db'] eqn:E;
    [|apply (f_equal fst) in E; vm_compute in E; discriminate..].
  destruct H as (v & _ & _ & H & _). by exists v.
Defined.
