(* ===== verification/BTree.v ===== *)
(** * Ordered maps from strings to strings

    [std::collections::BTreeMap<String, String>] as a list of entries: looked
    up from the front, iterated in the order of the keys (bytewise, the order
    of [str]). *)

From Stdlib Require Import Sorted.
From S2P Require Import Prelude Store.

Abbreviation btree := (list (list Z * list Z)) (only parsing).

Fixpoint btree_get (k : str) (m : btree) : option str :=
  match m with
  | [] => None
  | (k', v) :: m' => if bytes_eqb k k' then Some v else btree_get k m'
  end.

Fixpoint btree_insert (k v : str) (m : btree) : btree :=
  match m with
  | [] => [(k, v)]
  | (k', v') :: m' =>
      if bytes_eqb k k' then (k, v) :: m'
      else if lex_leb k k' then (k, v) :: m
      else (k', v') :: btree_insert k v m'
  end.

Definition btree_remove (k : str) (m : btree) : btree := List.filter (fun e => negb (bytes_eqb k e.1)) m.

Definition btree_sorted (m : btree) : Prop := StronglySorted (fun x y => lex_lt x.1 y.1) m.

Lemma bytes_eqb_false x y : bytes_eqb x y = false <-> x <> y.
Proof. rewrite <- bytes_eqb_eq. by destruct (bytes_eqb x y). Qed.

Lemma bytes_eqb_refl x : bytes_eqb x x = true.
Proof. by apply bytes_eqb_eq. Qed.

Lemma btree_get_insert k v m : btree_get k (btree_insert k v m) = Some v.
Proof.
  induction m as [|[k' v'] m IH]; cbn [btree_insert]; [by cbn; rewrite bytes_eqb_refl|].
  destruct (bytes_eqb k k') eqn:E; cbn; [by rewrite bytes_eqb_refl|].
  destruct (lex_leb k k'); cbn; rewrite ?bytes_eqb_refl, ?E; done.
Qed.

Lemma btree_get_insert_ne k k' v m : k <> k' -> btree_get k (btree_insert k' v m) = btree_get k m.
Proof.
  intros Hk%bytes_eqb_false. induction m as [|[k1 v1] m IH]; cbn [btree_insert]; [by cbn; rewrite Hk|].
  destruct (bytes_eqb k' k1) eqn:E.
  - apply bytes_eqb_eq in E as <-. cbn. by rewrite Hk.
  - destruct (lex_leb k' k1); cbn; [by rewrite Hk | by rewrite IH].
Qed.

Lemma elem_btree_insert x k v m : x ∈ btree_insert k v m -> x = (k, v) \/ x ∈ m.
Proof.
  induction m as [|[k1 v1] m IH]; cbn [btree_insert]; [rewrite !elem_of_cons; tauto|].
  destruct (bytes_eqb k k1), (lex_leb k k1); rewrite !elem_of_cons; tauto.
Qed.

Lemma btree_insert_sorted k v m : btree_sorted m -> btree_sorted (btree_insert k v m).
Proof.
  induction 1 as [|[k1 v1] m Hs IH Hk]; cbn [btree_insert]; [by repeat constructor|].
  destruct (bytes_eqb k k1) eqn:E.
  - apply bytes_eqb_eq in E as ->. by constructor.
  - destruct (lex_leb k k1) eqn:El.
    + apply lex_leb_spec in El as [->|El]; [by rewrite bytes_eqb_refl in E|].
      constructor; [by constructor|]. constructor; [done|].
      eapply Forall_impl; [|exact Hk]. intros y. by apply lex_lt_trans.
    + apply lex_leb_total in El. constructor; [done|]. apply list.Forall_forall. intros x Hx.
      apply elem_btree_insert in Hx as [->|Hx]; [done|]. by apply (proj1 (list.Forall_forall _ _) Hk).
Qed.

(** With sorted keys every entry is found. *)
Lemma btree_get_elem k v m : btree_sorted m -> btree_get k m = Some v <-> (k, v) ∈ m.
Proof.
  induction 1 as [|[k1 v1] m Hs IH Hk]; cbn [btree_get]; [split; [done|intros H; inv H]|].
  rewrite elem_of_cons. destruct (bytes_eqb k k1) eqn:E.
  - apply bytes_eqb_eq in E as ->. split; [intros [= ->]; by left|]. intros [[= ->]|Hin]; [done|].
    apply (proj1 (list.Forall_forall _ _) Hk) in Hin. by apply lex_lt_irrefl in Hin.
  - rewrite IH. split; [by right|]. intros [[= -> ->]|?]; [|done]. by rewrite bytes_eqb_refl in E.
Qed.

Lemma btree_get_remove k k' m : btree_get k (btree_remove k' m) = if decide (k = k') then None else btree_get k m.
Proof.
  induction m as [|[k1 v1] m IH]; cbn [btree_remove List.filter btree_get fst]; [by case_decide|].
  destruct (bytes_eqb k' k1) eqn:E; cbn [negb].
  - apply bytes_eqb_eq in E as <-. fold (btree_remove k' m). rewrite IH. case_decide as Hk; [done|].
    apply bytes_eqb_false in Hk. by rewrite Hk.
  - cbn [btree_get]. fold (btree_remove k' m). rewrite IH. case_decide as Hk; [subst; by rewrite E|done].
Qed.

Lemma btree_remove_sorted k m : btree_sorted m -> btree_sorted (btree_remove k m).
Proof.
  induction 1 as [|[k1 v1] m Hs IH Hk]; cbn; [constructor|]. destruct (bytes_eqb k k1); cbn; [done|].
  constructor; [done|]. apply List.Forall_forall. intros x [Hx _]%List.filter_In.
  by apply (proj1 (List.Forall_forall _ _) Hk).
Qed.

(** A sorted map begins with what is least. *)
Lemma sorted_before m1 e1 m2 e2 : btree_sorted (m1 ++ e1 :: m2) -> e2 ∈ m1 ++ e1 :: m2 -> lex_lt e2.1 e1.1 -> e2 ∈ m1.
Proof.
  induction m1 as [|x m1 IH]; cbn; intros Hs Hin Hlt.
  - inv Hs. apply elem_of_cons in Hin as [->|Hin]; [by apply lex_lt_irrefl in Hlt|].
    apply (proj1 (list.Forall_forall _ _) H2) in Hin. by pose proof (lex_lt_irrefl _ (lex_lt_trans _ _ _ Hin Hlt)).
  - inv Hs. apply elem_of_cons in Hin as [->|Hin]; [by left|]. right. by apply IH.
Qed.
