(* ===== verification/Mailboxes.v ===== *)
(** * Mailbox names: [src/core/mailbox.rs]

    The server keeps, for each account of the user, the mailboxes under their
    IMAP names (the path of the JMAP names, shared accounts under a prefix) and
    what it knows of each.  Here are the reading of the mailboxes from the JMAP
    server, page by page, the loop that turns their parent links into paths,
    the synchronization with the server's changes and the look-up of a name.
    The JMAP client library is the class [MailboxClient]. *)

From S2P Require Import Prelude Utf8 Utf7 Types Parsers Jmap Store BTree UidStore Synchronize.

(** [AHashMap<String, A>] *)
Abbreviation hash_map := (@gmap (list Z) _ list_countable).

Record Mailbox := mkMailbox {
  has_children : bool;
  is_subscribed : bool;
  role : Role;
  total_messages : option Z;
  total_unseen : option Z;
  total_deleted : option Z;
  mb_uid_validity : option Z;
  mb_uid_next : option Z;
  size : option Z
}.

Record Account := mkAccount {
  acc_account_id : str;
  prefix : option str;
  mailbox_state : str;
  mailbox_names : list (str * str);   (* a [BTreeMap] *)
  mailbox_data : hash_map Mailbox;
  modseq : option Z
}.

Record MailboxSync := mkMailboxSync { added : list str; changed : list str; deleted : list str }.

(** What the code reads of a mailbox of the JMAP server. *)
Record JmapMailbox := mkJmapMailbox {
  jm_id : option str;
  jm_name : option str;
  jm_parent_id : option str;
  jm_role : Role;
  jm_is_subscribed : bool;
  jm_total_emails : Z;
  jm_unread_emails : Z
}.

Class MailboxClient (W : Type) := {
  MethodResponse : Type;
  ChangesResponse : Type;
  (* the session object of the account *)
  default_account_id : W -> str;
  session_accounts : W -> list (str * str);   (* ids and names *)
  max_objects_in_get : W -> option Z;
  is_session_updated : W -> bool;
  refresh_session : EM W JmapError unit;
  (* [Mailbox/query] from a position on, and [Mailbox/get] of its result *)
  send_mailbox_page : str -> Z -> Z -> EM W JmapError (list MethodResponse);
  unwrap_get_mailbox : MethodResponse -> Res JmapError (str * list JmapMailbox);
  unwrap_query_mailbox : MethodResponse -> Res JmapError (option Z);
  (* [Mailbox/changes] of several accounts *)
  send_changes_mailbox : list (str * str) -> EM W JmapError (list MethodResponse);
  unwrap_changes_mailbox : MethodResponse -> Res JmapError ChangesResponse;
  take_account_id : ChangesResponse -> str * ChangesResponse;
  ch_account_id : ChangesResponse -> str;
  ch_new_state : ChangesResponse -> str;
  ch_total_changes : ChangesResponse -> Z;
  ch_created : ChangesResponse -> list str;
  ch_updated : ChangesResponse -> list str;
  ch_destroyed : ChangesResponse -> list str;
  ch_updated_is_count : ChangesResponse -> option (list bool)
}.

(** [[&str]::join("/")] *)
Definition SLASH : Z := 47.
Fixpoint join_path (path : list str) : str :=
  match path with
  | [] => []
  | [x] => x
  | x :: path' => x ++ SLASH :: join_path path'
  end.

(** ** The tree of the mailboxes of an account *)

(** The variables of the loop: [iter], [parent_id] and [path]. *)
Record Frame := mkFrame { fr_iter : list JmapMailbox; fr_parent : option str; fr_path : list str }.

Definition mailbox_title (account : Account) (m : JmapMailbox) : str :=
  if negb (bool_decide (jm_role m = RoleInbox)) || bool_decide (is_Some (prefix account))
  then default [] (jm_name m) else b "INBOX".

Definition any_children (result : list JmapMailbox) (m : JmapMailbox) : bool :=
  existsb (fun child => bool_decide (jm_parent_id child = jm_id m)) result.

(** The entries of one mailbox. *)
Definition add_mailbox (result : list JmapMailbox) (m : JmapMailbox) (mailbox_id : str) (mailbox_path : list str)
    (account : Account) : Account :=
  mkAccount (acc_account_id account) (prefix account) (mailbox_state account)
    (btree_insert (join_path mailbox_path) mailbox_id (mailbox_names account))
    (<[mailbox_id := mkMailbox (any_children result m) (jm_is_subscribed m) (jm_role m) (Some (jm_total_emails m))
                       (Some (jm_unread_emails m)) None None None None]> (mailbox_data account))
    (modseq account).

Definition null_id : JmapError := Internal (b "Got null mailboxId while fetching mailboxes").

(** The two nested loops; the stack holds the interrupted iterations. *)
Fixpoint tree_loop (fuel : nat) (result : list JmapMailbox) (f : Frame) (iter_stack : list Frame) (account : Account)
  : Res JmapError Account :=
  match fuel with
  | O => NoFuel
  | S fuel' =>
      match fr_iter f with
      | mailbox :: iter =>
          let f' := mkFrame iter (fr_parent f) (fr_path f) in
          if bool_decide (jm_parent_id mailbox = fr_parent f) then
            let mailbox_path := fr_path f ++ [mailbox_title account mailbox] in
            match jm_id mailbox with
            | None => Err null_id
            | Some mailbox_id =>
                let account := add_mailbox result mailbox mailbox_id mailbox_path account in
                if any_children result mailbox && (length iter_stack <? 100)%nat then
                  tree_loop fuel' result (mkFrame result (jm_id mailbox) mailbox_path) (f' :: iter_stack) account
                else tree_loop fuel' result f' iter_stack account
            end
          else tree_loop fuel' result f' iter_stack account
      | [] =>
          match iter_stack with
          | f' :: iter_stack' => tree_loop fuel' result f' iter_stack' account
          | [] => Ok account
          end
      end
  end.

(** The number of steps of the loop: those of a traversal to depth [d]. *)
Fixpoint list_steps (sub : option str -> nat) (result : list JmapMailbox) (todo : list JmapMailbox) (parent : option str)
  : nat :=
  match todo with
  | [] => 1
  | m :: todo' =>
      S ((if bool_decide (jm_parent_id m = parent) && any_children result m then sub (jm_id m) else O) +
         list_steps sub result todo' parent)
  end.
Fixpoint tree_steps (d : nat) (result : list JmapMailbox) (parent : option str) : nat :=
  match d with
  | O => O
  | S d' => list_steps (tree_steps d' result) result result parent
  end.

Definition empty_account (account_id : str) (mailbox_prefix : option str) (mailbox_state : str) : Account :=
  mkAccount account_id mailbox_prefix mailbox_state [] ∅ None.

Definition build_account (account_id : str) (mailbox_prefix : option str) (mailbox_state : str)
    (result : list JmapMailbox) : Res JmapError Account :=
  tree_loop (tree_steps 101 result None) result (mkFrame result None (option_list mailbox_prefix)) []
    (empty_account account_id mailbox_prefix mailbox_state).

(** ** The tree, recursively

    The loop is the traversal of the tree of parent links from the mailboxes
    without a parent on, to depth 101. *)
Section Tree.
Context (result : list JmapMailbox).

Fixpoint visit (sub : option str -> list str -> Account -> Res JmapError Account) (todo : list JmapMailbox)
    (parent : option str) (path : list str) (account : Account) : Res JmapError Account :=
  match todo with
  | [] => Ok account
  | m :: todo' =>
      if bool_decide (jm_parent_id m = parent) then
        match jm_id m with
        | None => Err null_id
        | Some id =>
            let path' := path ++ [mailbox_title account m] in
            let account := add_mailbox result m id path' account in
            let* account := (if any_children result m then sub (jm_id m) path' account else Ok account) in
            visit sub todo' parent path account
        end
      else visit sub todo' parent path account
  end.

Fixpoint walk (d : nat) (parent : option str) (path : list str) (account : Account) : Res JmapError Account :=
  match d with
  | O => Ok account
  | S d' => visit (walk d') result parent path account
  end.

Lemma tree_loop_visit d todo parent path stack account extra :
  (length stack + d = 100)%nat ->
  tree_loop (list_steps (tree_steps d result) result todo parent + extra) result (mkFrame todo parent path) stack account =
  match visit (walk d) todo parent path account with
  | Ok a => match stack with f :: stack' => tree_loop extra result f stack' a | [] => Ok a end
  | r => r
  end.
Proof.
  revert todo parent path stack account extra. induction d as [|d IHd].
  - induction todo as [|m todo IH]; intros parent path stack account extra Hs; [done|].
    cbn [list_steps tree_loop fr_iter fr_parent fr_path visit Nat.add tree_steps].
    case_bool_decide as Hp; cbn [andb]; [|by apply IH]. destruct (jm_id m) as [id|]; [|done].
    replace (length stack <? 100)%nat with false by lia. rewrite andb_false_r.
    destruct (any_children result m); cbn [walk res_bind Nat.add]; by apply IH.
  - induction todo as [|m todo IH]; intros parent path stack account extra Hs; [done|].
    cbn [list_steps tree_loop fr_iter fr_parent fr_path visit Nat.add].
    case_bool_decide as Hp; cbn [andb]; [|by apply IH]. destruct (jm_id m) as [id|] eqn:Ei; [|done].
    replace (length stack <? 100)%nat with true by lia. rewrite andb_true_r.
    destruct (any_children result m); cbn [res_bind Nat.add]; [|by apply IH].
    cbn [tree_steps]. rewrite <- Nat.add_assoc, IHd by (cbn; lia). cbn [walk].
    destruct (visit (walk d) result (Some id) _ _) as [a|e| |]; cbn [res_bind]; try done. by apply IH.
Qed.

(** [m] has the path [p]: its ancestors up to the mailbox without a parent. *)
Context (pfx : option str).

Definition title (m : JmapMailbox) : str :=
  if negb (bool_decide (jm_role m = RoleInbox)) || bool_decide (is_Some pfx) then default [] (jm_name m) else b "INBOX".

Inductive under : nat -> option str -> list str -> JmapMailbox -> list str -> Prop :=
| under_here d parent path m :
    m ∈ result -> jm_parent_id m = parent -> under (S d) parent path m (path ++ [title m])
| under_deep d parent path c m p :
    c ∈ result -> jm_parent_id c = parent -> under d (jm_id c) (path ++ [title c]) m p -> under (S d) parent path m p.

Definition entry_of (m : JmapMailbox) : Mailbox :=
  mkMailbox (any_children result m) (jm_is_subscribed m) (jm_role m) (Some (jm_total_emails m)) (Some (jm_unread_emails m))
    None None None None.

(** From [acc] to [a] the mailboxes of [U] were added, each under its path. *)
Record walked (U : JmapMailbox -> list str -> Prop) (acc a : Account) : Prop := {
  wk_prefix : prefix a = prefix acc;
  wk_sorted : btree_sorted (mailbox_names acc) -> btree_sorted (mailbox_names a);
  wk_names : forall name id, btree_get name (mailbox_names a) = Some id ->
    btree_get name (mailbox_names acc) = Some id \/ exists m p, U m p /\ name = join_path p /\ jm_id m = Some id;
  wk_data : forall id e, mailbox_data a !! id = Some e ->
    mailbox_data acc !! id = Some e \/ exists m p, U m p /\ jm_id m = Some id /\ e = entry_of m;
  wk_more : forall name, is_Some (btree_get name (mailbox_names acc)) -> is_Some (btree_get name (mailbox_names a));
  wk_more_data : forall id, is_Some (mailbox_data acc !! id) -> is_Some (mailbox_data a !! id);
  wk_all : forall m p, U m p ->
    is_Some (btree_get (join_path p) (mailbox_names a)) /\ exists id, jm_id m = Some id /\ is_Some (mailbox_data a !! id)
}.

Lemma walked_refl acc : walked (fun _ _ => False) acc acc.
Proof. split; naive_solver. Qed.

Lemma walked_trans U V acc b a : walked U acc b -> walked V b a -> walked (fun m p => U m p \/ V m p) acc a.
Proof.
  intros HU HV. split.
  - by rewrite (wk_prefix _ _ _ HV), (wk_prefix _ _ _ HU).
  - intros Hs. by apply (wk_sorted _ _ _ HV), (wk_sorted _ _ _ HU).
  - intros name id [Hb|(m & p & ? & ? & ?)]%(wk_names _ _ _ HV); [|right; exists m, p; naive_solver].
    apply (wk_names _ _ _ HU) in Hb as [?|(m & p & ? & ? & ?)]; [by left|right; exists m, p; naive_solver].
  - intros id e [Hb|(m & p & ? & ? & ?)]%(wk_data _ _ _ HV); [|right; exists m, p; naive_solver].
    apply (wk_data _ _ _ HU) in Hb as [?|(m & p & ? & ? & ?)]; [by left|right; exists m, p; naive_solver].
  - intros name Hn. by apply (wk_more _ _ _ HV), (wk_more _ _ _ HU).
  - intros id Hn. by apply (wk_more_data _ _ _ HV), (wk_more_data _ _ _ HU).
  - intros m p [Hm|Hm]; [|by apply (wk_all _ _ _ HV)]. destruct (wk_all _ _ _ HU _ _ Hm) as [Hn (id & Hi & Hd)].
    split; [by apply (wk_more _ _ _ HV)|]. exists id. split; [done|]. by apply (wk_more_data _ _ _ HV).
Qed.

Lemma walked_iff U V acc a : (forall m p, U m p <-> V m p) -> walked U acc a -> walked V acc a.
Proof.
  intros HUV H. split; try apply H.
  - intros name id [?|(m & p & Hm & ? & ?)]%(wk_names _ _ _ H); [by left|right]. apply HUV in Hm. eauto.
  - intros id e [?|(m & p & Hm & ? & ?)]%(wk_data _ _ _ H); [by left|right]. apply HUV in Hm. eauto.
  - intros m p Hm%HUV. by apply H.
Qed.

Lemma walked_add m id path acc :
  jm_id m = Some id -> walked (fun m' p => m' = m /\ p = path) acc (add_mailbox result m id path acc).
Proof.
  intros Hi. split; cbn [add_mailbox prefix mailbox_names mailbox_data].
  - done.
  - apply btree_insert_sorted.
  - intros name id'. destruct (decide (name = join_path path)) as [->|Hn].
    + rewrite btree_get_insert. intros [= <-]. right. by exists m, path.
    + rewrite btree_get_insert_ne by done. by left.
  - intros id' e. destruct (decide (id' = id)) as [->|Hn].
    + rewrite lookup_insert_eq. intros [= <-]. right. by exists m, path.
    + rewrite lookup_insert_ne by done. by left.
  - intros name Hn. destruct (decide (name = join_path path)) as [->|?]; [by rewrite btree_get_insert|].
    by rewrite btree_get_insert_ne.
  - intros id' Hn. destruct (decide (id' = id)) as [->|?]; [by rewrite lookup_insert_eq|]. by rewrite lookup_insert_ne.
  - intros m' p [-> ->]. rewrite btree_get_insert. split; [done|]. exists id. by rewrite lookup_insert_eq.
Qed.

(** What a frame adds: the mailboxes of its list and what is under them. *)
Definition visited (d : nat) (todo : list JmapMailbox) (parent : option str) (path : list str) (m : JmapMailbox)
    (p : list str) : Prop :=
  exists c, c ∈ todo /\ jm_parent_id c = parent /\
    ((m = c /\ p = path ++ [title c]) \/ under d (jm_id c) (path ++ [title c]) m p).

Lemma under_visited d parent path m p : under (S d) parent path m p <-> visited d result parent path m p.
Proof.
  split.
  - intros H. inv H; eexists; split_and!; try done; auto.
  - intros (c & Hc & Hp & [[-> ->]|Hu]); [by apply under_here | by eapply under_deep].
Qed.

Lemma no_children d m path m' p : any_children result m = false -> ~ under d (jm_id m) path m' p.
Proof.
  intros Hno Hu. assert (exists c, c ∈ result /\ jm_parent_id c = jm_id m) as (c & Hc & Hp) by (inv Hu; eauto).
  apply not_true_iff_false in Hno. apply Hno. apply existsb_exists. exists c.
  split; [by apply list_elem_of_In|]. by case_bool_decide.
Qed.

Lemma visit_walked d todo parent path acc a :
  (forall parent path acc a, prefix acc = pfx -> walk d parent path acc = Ok a -> walked (under d parent path) acc a) ->
  prefix acc = pfx -> visit (walk d) todo parent path acc = Ok a -> walked (visited d todo parent path) acc a.
Proof.
  intros IHd. revert acc; induction todo as [|m todo IH]; intros acc Hp Hv; cbn [visit] in Hv.
  - simplify_eq. eapply walked_iff; [|apply walked_refl]. intros m p. split; [done|]. intros (c & Hc & _). inv Hc.
  - assert (Hskip : forall U acc', walked U acc acc' ->
      (forall m' p, visited d (m :: todo) parent path m' p <-> U m' p \/ visited d todo parent path m' p) ->
      visit (walk d) todo parent path acc' = Ok a -> walked (visited d (m :: todo) parent path) acc a).
    { intros U acc' HU HE Hv'. eapply walked_iff; [intros; symmetry; apply HE|].
      eapply walked_trans; [exact HU|]. apply IH; [|done]. by rewrite (wk_prefix _ _ _ HU). }
    case_bool_decide as Hpar.
    + destruct (jm_id m) as [id|] eqn:Ei; [|done].
      assert (Ht : mailbox_title acc m = title m) by by (unfold mailbox_title, title; rewrite Hp).
      rewrite Ht in Hv. set (path' := path ++ [title m]) in *. set (acc1 := add_mailbox result m id path' acc) in *.
      pose proof (walked_add m id path' acc Ei) as Hadd. fold acc1 in Hadd.
      apply res_bind_ok in Hv as (acc2 & Hsub & Hv).
      assert (Hw : walked (under d (jm_id m) path') acc1 acc2).
      { destruct (any_children result m) eqn:Ea.
        - apply IHd; [by rewrite (wk_prefix _ _ _ Hadd)|by rewrite Ei].
        - simplify_eq. eapply walked_iff; [|apply walked_refl]. intros. split; [done|]. by apply no_children. }
      eapply Hskip; [eapply walked_trans; [exact Hadd|exact Hw]| |exact Hv].
      intros m' p. unfold visited. setoid_rewrite elem_of_cons. split.
      * intros (c & [->|Hc] & Hc2 & Hc3); [left; tauto | right; eauto].
      * intros [Hm|(c & Hc & ?)]; [exists m; tauto | exists c; tauto].
    + eapply Hskip; [apply walked_refl| |exact Hv]. intros m' p. unfold visited. setoid_rewrite elem_of_cons. split.
      * intros (c & [->|Hc] & Hc2 & Hc3); [done | right; eauto].
      * intros [[]|(c & Hc & ?)]. exists c; tauto.
Qed.

Lemma walk_walked d parent path acc a :
  prefix acc = pfx -> walk d parent path acc = Ok a -> walked (under d parent path) acc a.
Proof.
  revert parent path acc a; induction d as [|d IH]; intros parent path acc a Hp Hw; cbn [walk] in Hw.
  - simplify_eq. eapply walked_iff; [|apply walked_refl]. intros m p. split; [done|]. intros H; inv H.
  - eapply walked_iff; [intros; symmetry; apply under_visited|]. by apply visit_walked.
Qed.

(** Only a mailbox without an id is an error. *)
Lemma visit_error d todo parent path acc r :
  (forall parent path acc, match walk d parent path acc with Ok _ => True | Err e => e = null_id /\ Exists (fun m => jm_id m = None) result | _ => False end) ->
  (forall m, m ∈ todo -> m ∈ result) ->
  visit (walk d) todo parent path acc = r ->
  match r with Ok _ => True | Err e => e = null_id /\ Exists (fun m => jm_id m = None) result | _ => False end.
Proof.
  intros IHd Hsub <-. revert acc; induction todo as [|m todo IH]; intros acc; cbn [visit]; [done|].
  assert (Hsub' : forall x, x ∈ todo -> x ∈ result) by (intros; apply Hsub; by right).
  case_bool_decide; [|by apply IH]. destruct (jm_id m) as [id|] eqn:Ei.
  - destruct (any_children result m); cbn [res_bind]; [|by apply IH].
    specialize (IHd (Some id) (path ++ [mailbox_title acc m]) (add_mailbox result m id (path ++ [mailbox_title acc m]) acc)).
    destruct (walk d _ _ _); try done. cbn [res_bind]. by apply IH.
  - split; [done|]. apply list.Exists_exists. exists m. split; [|done]. apply Hsub. by left.
Qed.

Lemma walk_error d parent path acc :
  match walk d parent path acc with
  | Ok _ => True
  | Err e => e = null_id /\ Exists (fun m => jm_id m = None) result
  | _ => False
  end.
Proof.
  revert parent path acc; induction d as [|d IH]; intros parent path acc; cbn [walk]; [done|].
  by eapply visit_error.
Qed.
End Tree.

(** ** Properties of the tree *)
Section TreeProps.
Context (account_id : str) (pfx : option str) (st : str) (result : list JmapMailbox).

(** A mailbox with its path from a root, at most 101 mailboxes long. *)
Definition placed (m : JmapMailbox) (p : list str) : Prop := under result pfx 101 None (option_list pfx) m p.

Lemma build_account_walk :
  build_account account_id pfx st result = walk result 101 None (option_list pfx) (empty_account account_id pfx st).
Proof.
  unfold build_account. change (tree_steps 101 result None) with (list_steps (tree_steps 100 result) result result None).
  pose proof (tree_loop_visit result 100 result None (option_list pfx) [] (empty_account account_id pfx st) 0 eq_refl) as H.
  rewrite Nat.add_0_r in H. rewrite H. change (walk result 101) with (visit result (walk result 100) result).
  by destruct (visit _ _ _ _ _ _).
Qed.

(** C29: The loop over the mailboxes of an account ends, and finds exactly the
    mailboxes that a chain of parent links connects to the top (101 at most):
    each is filed under the path of its names, every name leads to a mailbox
    with that path, and what is noted of a mailbox is what the server said. *)
Theorem build_account_names :
  Forall (fun m => jm_id m <> None) result ->
  exists a, build_account account_id pfx st result = Ok a /\ btree_sorted (mailbox_names a) /\
    (forall m p, placed m p ->
       is_Some (btree_get (join_path p) (mailbox_names a)) /\
       exists id, jm_id m = Some id /\ is_Some (mailbox_data a !! id)) /\
    (forall name id, btree_get name (mailbox_names a) = Some id ->
       exists m p, placed m p /\ name = join_path p /\ jm_id m = Some id) /\
    (forall id e, mailbox_data a !! id = Some e -> exists m p, placed m p /\ jm_id m = Some id /\ e = entry_of result m).
Proof.
  intros Hids. rewrite build_account_walk.
  pose proof (walk_error result 101 None (option_list pfx) (empty_account account_id pfx st)) as Herr.
  pose proof (walk_walked result pfx 101 None (option_list pfx) (empty_account account_id pfx st)) as Hw.
  destruct (walk result 101 None (option_list pfx) _) as [a|e| |] eqn:E; try done; cycle 1.
  { destruct Herr as [_ Hex]. apply list.Exists_exists in Hex as (m & Hm & Hn).
    by destruct (proj1 (list.Forall_forall _ _) Hids _ Hm). }
  specialize (Hw a eq_refl eq_refl). exists a. split_and!; [done|apply Hw; constructor| | |].
  - intros m p Hm. by apply (wk_all _ _ _ _ Hw).
  - intros name id [Hn|?]%(wk_names _ _ _ _ Hw); done.
  - intros id e [Hn|?]%(wk_data _ _ _ _ Hw); [|done]. cbn in Hn. by rewrite lookup_empty in Hn.
Qed.
End TreeProps.

(** ** The JMAP requests *)

(** [SessionData]'s shared list of accounts and everything else. *)
Record Data (W : Type) := mkData { mailboxes : list Account; outer : W }.
Arguments mkData {W} _ _.
Arguments mailboxes {W} _.
Arguments outer {W} _.

Section Client.
Context {W : Type} `{MailboxClient W}.
(** [self.core.folder_shared], [self.core.folder_all] *)
Context (folder_shared folder_all : str).

Abbreviation J := (EM W JmapError).
Abbreviation D := (EM (Data W) JmapError).

Definition ask {A} (f : W -> A) : J A := fun w => (Ok (f w), w).
Definition liftR {A} (r : Res JmapError A) : J A := lift r.

Definition on_jmap {A} (m : J A) : D A := fun d => let '(r, w) := m (outer d) in (r, mkData (mailboxes d) w).
Definition lock : D (list Account) := fun d => (Ok (mailboxes d), d).
Definition store_mailboxes (l : list Account) : D unit := fun d => (Ok tt, mkData l (outer d)).

(** [for _ in 0..pages]: the state and the mailboxes of the account. *)
Fixpoint fetch_pages (pages : nat) (account_id : str) (position : Z) (mailbox_state : str) (result : list JmapMailbox)
  : J (str * list JmapMailbox) :=
  match pages with
  | O => ret (mailbox_state, result)
  | S pages' =>
      do* limit := ask max_objects_in_get in
      do* response := send_mailbox_page account_id position (default 500 limit) in
      match response with
      | [query; get] =>
          do* (mailbox_state, mailboxes_part) := liftR (unwrap_get_mailbox get) in
          do* total := liftR (unwrap_query_mailbox query) in
          let total_mailboxes := default 0 total in
          if (0 <? length mailboxes_part)%nat then
            let result := result ++ mailboxes_part in
            if Z.of_nat (length result) <? total_mailboxes then
              fetch_pages pages' account_id (add_i32 position (Z.of_nat (length mailboxes_part))) mailbox_state result
            else ret (mailbox_state, result)
          else ret (mailbox_state, result)
      | _ => lift (Err (Internal (b "Invalid response while fetching mailboxes")))
      end
  end.

Definition fetch_account_mailboxes (account_id : str) (mailbox_prefix : option str) : J Account :=
  do* (mailbox_state, result) := fetch_pages 100 account_id 0 [] [] in
  liftR (build_account account_id mailbox_prefix mailbox_state result).

(** [format!("{}/{}", self.core.folder_shared, name)] *)
Definition shared_prefix (name : str) : str := folder_shared ++ SLASH :: name.

(** Accounts that cannot be read are left out. *)
Fixpoint fetch_accounts (todo : list (str * option str)) : J (list Account) :=
  match todo with
  | [] => ret []
  | (account_id, mailbox_prefix) :: todo' =>
      do* account := attempt (fetch_account_mailboxes account_id mailbox_prefix) in
      do* rest := fetch_accounts todo' in
      ret (option_list (ok_of account) ++ rest)
  end.

(** The shared accounts of the session, with their prefixes. *)
Definition shared_accounts (default_id : str) (accounts : list (str * str)) : list (str * option str) :=
  map (fun a => (a.1, Some (shared_prefix a.2))) (filter (fun a => a.1 <> default_id) accounts).

Definition fetch_mailboxes : J (option (list Account)) :=
  do* default_id := ask default_account_id in
  do* first := attempt (fetch_account_mailboxes default_id None) in
  match first with
  | Ok first =>
      do* accounts := ask session_accounts in
      do* rest := fetch_accounts (shared_accounts default_id accounts) in
      ret (Some (first :: rest))
  | _ => ret None
  end.

(** ** Synchronization *)

(** The accounts that are still shared, and the names of the others. *)
Definition retain_accounts (accounts : list (str * str)) (l : list Account) (changes : option MailboxSync)
  : list Account * option MailboxSync :=
  match l with
  | [] => ([], changes)
  | first :: rest =>
      let linked a := bool_decide (acc_account_id a ∈ map fst accounts) in
      (first :: List.filter linked rest,
       (fun c => mkMailboxSync (added c) (changed c)
                   (deleted c ++ flat_map (fun a => map fst (mailbox_names a)) (List.filter (fun a => negb (linked a)) rest)))
         <$> changes)
  end.

Definition new_shared (default_id : str) (accounts : list (str * str)) (l : list Account) : list (str * option str) :=
  List.filter (fun a => negb (bool_decide (a.1 ∈ map acc_account_id (drop 1 l)))) (shared_accounts default_id accounts).

(** What is forgotten when only the counters of an account changed. *)
Definition forget_stats (a : Account) : Account :=
  mkAccount (acc_account_id a) (prefix a) (mailbox_state a) (mailbox_names a)
    ((fun v => mkMailbox (has_children v) (is_subscribed v) (role v) None None None (mb_uid_validity v) None None)
       <$> mailbox_data a)
    (if bool_decide (mailbox_data a = ∅) then modseq a else None).

Definition set_mailbox_state (st : str) (a : Account) : Account :=
  mkAccount (acc_account_id a) (prefix a) st (mailbox_names a) (mailbox_data a) (modseq a).

(** [for account in iter_mut() { if account.account_id == id { ..; break; } }] *)
Fixpoint update_account (id : str) (f : Account -> Account) (l : list Account) : list Account :=
  match l with
  | [] => []
  | a :: l' => if bool_decide (acc_account_id a = id) then f a :: l' else a :: update_account id f l'
  end.

(** Do the changes reach beyond the counters of known mailboxes? *)
Definition must_refetch (response : ChangesResponse) (return_changes : bool) : bool :=
  negb (bool_decide (ch_created response = [])) || negb (bool_decide (ch_destroyed response = [])) ||
  (negb (bool_decide (ch_updated response = [])) &&
   match ch_updated_is_count response with
   | None => true
   | Some p => bool_decide (p = []) || existsb negb p
   end) ||
  return_changes.

Fixpoint changes_loop (responses : list MethodResponse) (return_changes : bool) (changed_account_ids : list str)
    (l : list Account) : Res JmapError (list str * list Account) :=
  match responses with
  | [] => Ok (changed_account_ids, l)
  | response :: responses' =>
      match unwrap_changes_mailbox response with
      | Ok response =>
          if 0 <? ch_total_changes response then
            let '(changed_account_ids, response, reset_stats) :=
              if must_refetch response return_changes then
                let '(id, response) := take_account_id response in (changed_account_ids ++ [id], response, false)
              else (changed_account_ids, response, true) in
            changes_loop responses' return_changes changed_account_ids
              (update_account (ch_account_id response)
                 (fun a => let a := set_mailbox_state (ch_new_state response) a in if reset_stats then forget_stats a else a) l)
          else changes_loop responses' return_changes changed_account_ids l
      | Err _ => changes_loop responses' return_changes changed_account_ids l
      | Panic => Panic
      | NoFuel => NoFuel
      end
  end.

(** What a client is told when the mailboxes of an account were read again. *)
Definition counters_differ (m old : Mailbox) : bool :=
  negb (default 0 (total_messages m) =? default 0 (total_messages old)) ||
  negb (default 0 (total_unseen m) =? default 0 (total_unseen old)).

Definition account_changes (old_account new_account : Account) (changes : MailboxSync) : MailboxSync :=
  let is_changed (e : str * str) :=
    match mailbox_data old_account !! e.2, mailbox_data new_account !! e.2 with
    | Some old, Some m => counters_differ m old
    | _, _ => false
    end in
  let is_new (e : str * str) := negb (bool_decide (is_Some (mailbox_data old_account !! e.2))) in
  let is_gone (e : str * str) := negb (bool_decide (is_Some (mailbox_data new_account !! e.2))) in
  mkMailboxSync (added changes ++ map fst (List.filter is_new (mailbox_names new_account)))
    (changed changes ++ map fst (List.filter is_changed (mailbox_names new_account)))
    (deleted changes ++ map fst (List.filter is_gone (mailbox_names old_account))).

Definition add_names (a : Account) (changes : MailboxSync) : MailboxSync :=
  mkMailboxSync (added changes ++ map fst (mailbox_names a)) (changed changes) (deleted changes).

(** One account that was read again: it replaces the old one. *)
Fixpoint replace_account (a : Account) (l : list Account) (changes : option MailboxSync)
  : list Account * option MailboxSync :=
  match l with
  | [] => ([a], add_names a <$> changes)
  | old :: l' =>
      if bool_decide (acc_account_id old = acc_account_id a) then (a :: l', account_changes old a <$> changes)
      else let '(l', changes) := replace_account a l' changes in (old :: l', changes)
  end.

Definition update_mailboxes (changed_accounts added_accounts l : list Account) (changes : option MailboxSync)
  : list Account * option MailboxSync :=
  let '(l, changes) :=
    foldl (fun '(l, changes) a => replace_account a l changes) (l, changes) changed_accounts in
  (l ++ added_accounts, foldl (fun changes a => add_names a <$> changes) changes added_accounts).

Definition refetch_prefix (default_id : str) (accounts : list (str * str)) (id : str) : str * option str :=
  (id, if bool_decide (id = default_id) then None
       else Some (shared_prefix (default [] (btree_get id accounts)))).

Definition synchronize_mailboxes (return_changes force_session_refresh : bool) : D (option MailboxSync) :=
  let changes := if return_changes then Some (mkMailboxSync [] [] []) else None in
  do* default_id := on_jmap (ask default_account_id) in
  do* updated := on_jmap (ask is_session_updated) in
  do* (added_accounts, changes) :=
    (if force_session_refresh || negb updated then
       do* _ := on_jmap refresh_session in
       do* accounts := on_jmap (ask session_accounts) in
       do* l := lock in
       let '(new_accounts, changes) := retain_accounts accounts l changes in
       do* _ := store_mailboxes new_accounts in
       do* added_accounts := on_jmap (fetch_accounts (new_shared default_id accounts new_accounts)) in
       ret (added_accounts, changes)
     else ret ([], changes)) in
  do* l := lock in
  do* responses := on_jmap (send_changes_mailbox (map (fun a => (acc_account_id a, mailbox_state a)) l)) in
  do* (changed_account_ids, l) := lift (changes_loop responses return_changes [] l) in
  do* _ := store_mailboxes l in
  do* accounts := on_jmap (ask session_accounts) in
  do* changed_accounts := on_jmap (fetch_accounts (map (refetch_prefix default_id accounts) changed_account_ids)) in
  do* l := lock in
  let '(l, changes) := update_mailboxes changed_accounts added_accounts l changes in
  do* _ := store_mailboxes l in
  ret changes.

(** ** Looking up a name *)
Definition is_all_mailbox (mailbox_name : str) : bool := bytes_eqb folder_all mailbox_name.

(** Is the name under the prefix of the account? *)
Definition under_prefix (account : Account) (mailbox_name : str) : bool :=
  match prefix account with Some p => starts_with p mailbox_name | None => true end.

Fixpoint find_mailbox (l : list Account) (mailbox_name : str) : option MailboxId :=
  match l with
  | [] => None
  | account :: l' =>
      match (if under_prefix account mailbox_name then btree_get mailbox_name (mailbox_names account) else None) with
      | Some mailbox_id => Some (mkMailboxId (acc_account_id account) (Some mailbox_id))
      | None => find_mailbox l' mailbox_name
      end
  end.

Definition get_mailbox_by_name (default_id : str) (l : list Account) (mailbox_name : str) : option MailboxId :=
  if negb (is_all_mailbox mailbox_name) then find_mailbox l mailbox_name
  else Some (mkMailboxId default_id None).
End Client.

(** ** Properties of names and changes *)
Lemma under_extends result pfx d parent path m p :
  under result pfx d parent path m p -> exists q, q <> [] /\ p = path ++ q.
Proof.
  induction 1 as [d parent path m Hm Hp | d parent path c m p Hc Hp Hu (q & Hq & ->)].
  - by exists [title pfx m].
  - exists (title pfx c :: q). by rewrite <- app_assoc.
Qed.

Lemma join_path_cons x q : q <> [] -> join_path (x :: q) = x ++ SLASH :: join_path q.
Proof. by destruct q. Qed.

(** The names of a shared account are under its prefix. *)
Lemma placed_under_prefix result pfx m p x : pfx = Some x -> placed pfx result m p -> starts_with x (join_path p) = true.
Proof.
  intros -> Hp. destruct (under_extends _ _ _ _ _ _ _ Hp) as (q & Hq & ->).
  change (option_list (Some x) ++ q) with (x :: q). rewrite join_path_cons by done. apply starts_with_app.
Qed.

Definition well_named (a : Account) : Prop :=
  forall name id, btree_get name (mailbox_names a) = Some id -> under_prefix a name = true.

Lemma build_account_well_named account_id pfx st result a :
  build_account account_id pfx st result = Ok a -> well_named a /\ acc_account_id a = account_id.
Proof.
  rewrite build_account_walk. intros Hw.
  assert (Hid : forall d parent path acc a, walk result d parent path acc = Ok a -> acc_account_id a = acc_account_id acc).
  { clear. induction d as [|d IHd]; intros parent path acc a Hw; cbn [walk] in Hw; [by simplify_eq|].
    revert acc Hw. generalize result at 3 as todo. induction todo as [|m todo IH]; intros acc Hv; cbn [visit] in Hv; [by simplify_eq|].
    case_bool_decide; [|by apply IH]. destruct (jm_id m); [|done]. apply res_bind_ok in Hv as (b & Hb & Hv).
    apply IH in Hv as ->. destruct (any_children result m); [by apply IHd in Hb|by simplify_eq]. }
  split; [|by apply Hid in Hw]. apply (walk_walked _ pfx) in Hw; [|done]. intros name id Hn. unfold under_prefix.
  rewrite (wk_prefix _ _ _ _ Hw). cbn [prefix empty_account]. destruct pfx as [x|]; [|done].
  apply (wk_names _ _ _ _ Hw) in Hn as [Hn|(m & p & Hm & -> & _)]; [done|]. by eapply placed_under_prefix.
Qed.

Section Lookup.
Context (folder_all default_id : str).

(** The first account that has the name. *)
Lemma find_mailbox_spec l name :
  Forall well_named l ->
  match find_mailbox l name with
  | Some id =>
      exists l1 a l2 m, l = l1 ++ a :: l2 /\ btree_get name (mailbox_names a) = Some m /\
        id = mkMailboxId (acc_account_id a) (Some m) /\ Forall (fun a => btree_get name (mailbox_names a) = None) l1
  | None => Forall (fun a => btree_get name (mailbox_names a) = None) l
  end.
Proof.
  intros Hl. induction Hl as [|a l Ha Hl IH]; cbn [find_mailbox]; [constructor|].
  assert (E : (if under_prefix a name then btree_get name (mailbox_names a) else None) = btree_get name (mailbox_names a)).
  { destruct (under_prefix a name) eqn:Eu; [done|]. destruct (btree_get name (mailbox_names a)) as [m|] eqn:Eg; [|done].
    apply Ha in Eg. congruence. }
  rewrite E. destruct (btree_get name (mailbox_names a)) as [m|] eqn:Em; [by exists [], a, l, m|].
  destruct (find_mailbox l name) as [id|]; [|by constructor].
  destruct IH as (l1 & a' & l2 & m & -> & Hm & -> & Hl1). exists (a :: l1), a', l2, m. split_and!; try done. by constructor.
Qed.

(** Every mailbox of an account is found by its name: in the first
    account that has a mailbox of this name, under the id it has there; names
    of no account are not found. *)
Theorem get_mailbox_by_name_spec l name :
  Forall well_named l -> is_all_mailbox folder_all name = false ->
  match get_mailbox_by_name folder_all default_id l name with
  | Some id =>
      exists l1 a l2 m, l = l1 ++ a :: l2 /\ btree_get name (mailbox_names a) = Some m /\
        id = mkMailboxId (acc_account_id a) (Some m) /\ Forall (fun a => btree_get name (mailbox_names a) = None) l1
  | None => Forall (fun a => btree_get name (mailbox_names a) = None) l
  end.
Proof. intros Hl Hall. unfold get_mailbox_by_name. rewrite Hall. by apply find_mailbox_spec. Qed.
End Lookup.

(** The ids of an account's names are those of its data. *)
Definition consistent (a : Account) : Prop :=
  forall id, is_Some (mailbox_data a !! id) <-> exists name, (name, id) ∈ mailbox_names a.

Lemma elem_names_filter f (m : list (str * str)) name :
  name ∈ map fst (List.filter f m) <-> exists id, (name, id) ∈ m /\ f (name, id) = true.
Proof.
  rewrite list_elem_of_In, in_map_iff. setoid_rewrite List.filter_In. setoid_rewrite <- list_elem_of_In. split.
  - intros ([n id] & <- & ? & ?). by exists id.
  - intros (id & ? & ?). by exists (name, id).
Qed.

Lemma elem_names (m : list (str * str)) name : name ∈ map fst m <-> exists id, (name, id) ∈ m.
Proof.
  rewrite list_elem_of_In, in_map_iff. setoid_rewrite <- list_elem_of_In. split.
  - intros ([n id] & <- & ?). by exists id.
  - intros (id & ?). by exists (name, id).
Qed.

(** What a client is told of an account that was read again is enough to
    keep a list of its mailboxes up to date, unless one was renamed: the old
    names without those reported as deleted, together with those reported as
    added, are the new names. *)
Theorem account_changes_complete old new name :
  consistent old -> consistent new -> btree_sorted (mailbox_names old) ->
  (forall id n1 n2, (n1, id) ∈ mailbox_names old -> (n2, id) ∈ mailbox_names new -> n1 = n2) ->
  let c := account_changes old new (mkMailboxSync [] [] []) in
  name ∈ map fst (mailbox_names new) <->
  (name ∈ map fst (mailbox_names old) /\ name ∉ deleted c) \/ name ∈ added c.
Proof.
  intros Ho Hn Hs Hsame c. unfold c, account_changes. cbv zeta. cbn [added deleted app].
  rewrite !elem_names_filter, !elem_names. cbn [snd]. split.
  - intros (id & Hid). destruct (decide (is_Some (mailbox_data old !! id))) as [Hk|Hk]; cycle 1.
    { right. exists id. split; [done|]. by case_bool_decide. }
    left. apply Ho in Hk as (n1 & H1). assert (n1 = name) as -> by eauto. split; [by exists id|].
    intros (id' & H2 & Hgone). rewrite negb_true_iff in Hgone. apply bool_decide_eq_false in Hgone. apply Hgone.
    apply btree_get_elem in H1, H2; [|done..]. rewrite H1 in H2. injection H2 as <-. apply Hn. by exists name.
  - intros [[(id & Hid) Hdel]|(id & Hid & _)]; [|by exists id].
    destruct (decide (is_Some (mailbox_data new !! id))) as [Hk|Hk].
    + apply Hn in Hk as (n2 & H2). assert (n2 = name) as -> by (symmetry; eauto). by exists id.
    + destruct Hdel. exists id. split; [done|]. by case_bool_decide.
Qed.

(** ** Concrete accounts *)
Definition demo_mailboxes : list JmapMailbox := [
  mkJmapMailbox (Some (b "i")) (Some (b "Inbox")) None RoleInbox true 3 1;
  mkJmapMailbox (Some (b "w2")) (Some (b "2023")) (Some (b "w")) RoleNone false 5 0;
  mkJmapMailbox (Some (b "w")) (Some (b "Work")) None RoleNone true 2 2].

Definition demo_account : Account :=
  default (empty_account [] None []) (ok_of (build_account (b "john") None (b "s0") demo_mailboxes)).
Definition demo_shared : Account :=
  default (empty_account [] None [])
    (ok_of (build_account (b "jane") (Some (b "Shared Folders/jane")) (b "s1") demo_mailboxes)).

Example demo_names :
  map fst (mailbox_names demo_account) = [b "INBOX"; b "Work"; b "Work/2023"] /\
  map fst (mailbox_names demo_shared) =
    [b "Shared Folders/jane/Inbox"; b "Shared Folders/jane/Work"; b "Shared Folders/jane/Work/2023"].
Proof. vm_compute. split; reflexivity. Qed.

Lemma build_account_names_witness :
  exists a, build_account (b "john") None (b "s0") demo_mailboxes = Ok a /\ btree_sorted (mailbox_names a).
Proof.
  destruct (build_account_names (b "john") None (b "s0") demo_mailboxes) as (a & Ha & Hs & _).
  - repeat constructor; discriminate.
  - by exists a.
Defined.

Lemma get_mailbox_by_name_spec_witness :
  exists l1 a l2 m, [demo_account; demo_shared] = l1 ++ a :: l2 /\
    btree_get (b "Shared Folders/jane/Work") (mailbox_names a) = Some m.
Proof.
  assert (Hw : Forall well_named [demo_account; demo_shared]).
  { assert (Hb : forall x y z, well_named (default (empty_account [] None []) (ok_of (build_account x y z demo_mailboxes)))).
    { intros x y z. destruct (build_account x y z demo_mailboxes) as [a|e| |] eqn:E; cbn; [|by intros name id..].
      by apply build_account_well_named in E as [E _]. }
    apply List.Forall_cons; [apply Hb|]. apply List.Forall_cons; [apply Hb|constructor]. }
  pose proof (get_mailbox_by_name_spec (b "All Mail") (b "john") [demo_account; demo_shared] (b "Shared Folders/jane/Work") Hw
    eq_refl) as H.
  destruct (get_mailbox_by_name _ _ _ _) as [id|] eqn:E; [|vm_compute in E; discriminate].
  destruct H as (l1 & a & l2 & m & El & Em & _). by exists l1, a, l2, m.
Defined.

Definition account_of (l : list (str * str)) : Account :=
  mkAccount (b "john") None [] l (list_to_map (map (fun e => (e.2, mkMailbox false false RoleNone None None None None None None)) l)) None.

Lemma account_of_consistent l : consistent (account_of l).
Proof.
  intros id. unfold account_of. cbn [mailbox_data mailbox_names].
  rewrite <- not_eq_None_Some, <- not_elem_of_list_to_map.
  assert (E : id ∈ (map (fun e => (e.2, mkMailbox false false RoleNone None None None None None None)) l).*1 <->
              exists name, (name, id) ∈ l).
  { rewrite list_elem_of_fmap. setoid_rewrite list_elem_of_fmap. split.
    - intros ([? m] & -> & [n i] & [= -> ->] & Hin). by exists n.
    - intros (n & Hin). eexists (id, _). split; [done|]. by exists (n, id). }
  rewrite <- E. split; [intros Hs; by apply dec_stable | intros Hs Hn; by destruct Hn].
Qed.

Definition old_names : list (str * str) := [(b "A", b "1"); (b "C", b "3")].
Definition new_names : list (str * str) := [(b "A", b "1"); (b "B", b "2")].

Lemma account_changes_complete_witness :
  b "B" ∈ map fst new_names <->
  (b "B" ∈ map fst old_names /\
   b "B" ∉ deleted (account_changes (account_of old_names) (account_of new_names) (mkMailboxSync [] [] []))) \/
  b "B" ∈ added (account_changes (account_of old_names) (account_of new_names) (mkMailboxSync [] [] [])).
Proof.
  apply (account_changes_complete (account_of old_names) (account_of new_names)).
  - apply account_of_consistent.
  - apply account_of_consistent.
  - repeat constructor; cbn; lia.
  - intros id n1 n2 Ho%list_elem_of_In Hn%list_elem_of_In. cbn in Ho, Hn.
    repeat match goal with H : _ \/ _ |- _ => destruct H | H : False |- _ => destruct H end; by simplify_eq.
Defined.

(** A mailbox renamed by another client is neither added nor deleted. *)
Example rename_not_reported :
  let c := account_changes (account_of [(b "A", b "1")]) (account_of [(b "B", b "1")]) (mkMailboxSync [] [] []) in
  added c = [] /\ deleted c = [] /\ changed c = [].
Proof. vm_compute. done. Qed.
