(* ===== verification/Folders.v ===== *)
(** * Creating, renaming, deleting and subscribing mailboxes

    [impl SessionData] of [src/commands/create.rs], [rename.rs], [delete.rs]
    and [subscribe.rs]: the tasks behind the commands, which check names
    against the cached mailboxes, ask the JMAP server for the change and bring
    the cache up to date. *)

From Stdlib Require Import Sorted.
From S2P Require Import Prelude Utf8 Utf7 Types Flags Parsers Jmap Store BTree UidStore Synchronize Mailboxes.

Definition MAX_MAILBOX_DEPTH : nat := 10.

(** ** [validate_mailbox_create] *)

(** [str::strip_prefix('/')], [str::strip_suffix('/')] *)
Definition strip_slash_prefix (s : str) : option str :=
  match s with c :: s' => if c =? SLASH then Some s' else None | [] => None end.
Definition strip_slash_suffix (s : str) : option str :=
  match list.last s with Some c => if c =? SLASH then Some (removelast s) else None | None => None end.

(** [str::split('/')] *)
Fixpoint split_slash (s : str) : list str :=
  match s with
  | [] => [[]]
  | c :: s' =>
      match split_slash s' with
      | x :: xs => if c =? SLASH then [] :: x :: xs else (c :: x) :: xs
      | [] => [[c]]
      end
  end.

Record CreateParams := mkCreateParams {
  cp_account_id : str;
  cp_path : list str;
  cp_full_path : str;
  cp_parent_mailbox_id : option str;
  cp_parent_mailbox_name : option str
}.

Fixpoint path_items (items : list str) : Res (list Piece) (list str) :=
  match items with
  | [] => Ok []
  | x :: items' =>
      let path_item := trim x in
      if bool_decide (path_item = []) then Err (msg "Invalid empty path item.")
      else let* rest := path_items items' in Ok (path_item :: rest)
  end.

(** The components of the name to create. *)
Definition create_path_of (mailbox_name : str) : Res (list Piece) (list str) :=
  let name := trim mailbox_name in
  let name := match strip_slash_prefix name with Some suffix => trim suffix | None => name end in
  let name := match strip_slash_suffix name with Some prefix => trim prefix | None => name end in
  if bool_decide (name = []) then
    Err [PStr (b "Invalid folder name '"); PStr mailbox_name; PStr (b "'.")]
  else if existsb (Z.eqb SLASH) name then
    let* path := path_items (split_slash name) in
    if (MAX_MAILBOX_DEPTH <? length path)%nat then Err (msg "Mailbox path is too deep.") else Ok path
  else Ok [name].

Section Validate.
Context (folder_shared folder_all : str).

(** The account a path belongs to. *)
Definition account_of_path (l : list Account) (path : list str) : Res (list Piece) Account :=
  match path with
  | [] => Panic   (* [path.first().unwrap()] *)
  | first_path_item :: _ =>
      if bytes_eqb first_path_item folder_all then
        Err (msg "Mailboxes cannot be created under virtual folders.")
      else if bytes_eqb first_path_item folder_shared then
        match path with
        | _ :: user :: _ :: _ =>
            let pfx := first_path_item ++ SLASH :: user in
            match List.find (fun a => bool_decide (prefix a = Some pfx)) (drop 1 l) with
            | Some account => Ok account
            | None => Err [PStr (b "Shared account '"); PStr pfx; PStr (b "' not found.")]
            end
        | _ => Err (msg "Mailboxes under root shared folders are not allowed.")
        end
      else
        match l with
        | account :: _ => Ok account
        | [] => Err (msg "Internal error.")
        end
  end.

(** The loop that pops components until the rest names a mailbox: its id and
    name, and the components popped, in order. *)
Fixpoint locate_parent (names : list (str * str)) (rpath : list str) (create_path : list str)
  : option (str * str) * list str :=
  match rpath with
  | [] => (None, create_path)
  | x :: rpath' =>
      let mailbox_name := join_path (rev rpath) in
      match btree_get mailbox_name names with
      | Some mailbox_id => (Some (mailbox_id, mailbox_name), create_path)
      | None => locate_parent names rpath' (x :: create_path)
      end
  end.

Definition validate_mailbox_create (l : list Account) (mailbox_name : str) : Res (list Piece) CreateParams :=
  let* path := create_path_of mailbox_name in
  let* account := account_of_path l path in
  let full_path := join_path path in
  if bool_decide (is_Some (btree_get full_path (mailbox_names account))) then
    Err [PStr (b "Mailbox '"); PStr full_path; PStr (b "' already exists.")]
  else
    let '(parent, path) :=
      if (1 <? length path)%nat then locate_parent (mailbox_names account) (rev path) [] else (None, path) in
    Ok (mkCreateParams (acc_account_id account) path full_path (fst <$> parent) (snd <$> parent)).

(** ** What a validated name promises *)
Lemma locate_parent_spec names rpath acc parent path :
  locate_parent names rpath acc = (parent, path) ->
  match parent with
  | Some (id, name) =>
      exists q, q <> [] /\ name = join_path q /\ btree_get name names = Some id /\ exists r, path = r ++ acc /\
        rev rpath = q ++ r /\
        forall q', q' <> [] -> (exists r1 r2, r = r1 ++ r2 /\ r1 <> [] /\ q' = q ++ r1) -> btree_get (join_path q') names = None
  | None => path = rev rpath ++ acc /\
      forall q, q <> [] -> (exists r, rev rpath = q ++ r) -> btree_get (join_path q) names = None
  end.
Proof.
  revert acc; induction rpath as [|x rpath IH]; intros acc H; cbn [locate_parent] in H.
  - simplify_eq. split; [done|]. intros q Hq (r & Hr). cbn in Hr. by destruct q.
  - destruct (btree_get (join_path (rev (x :: rpath))) names) as [id|] eqn:Eg.
    + simplify_eq. exists (rev (x :: rpath)). split_and!; try done.
      * cbn. by destruct (rev rpath).
      * exists []. split_and!; [done|by rewrite app_nil_r|]. intros q' _ (r1 & r2 & Hr & Hr1 & _). by destruct r1.
    + apply IH in H. destruct parent as [[id name]|].
      * destruct H as (q & Hq & -> & Hg & r & -> & Hr & Hno). exists q. split_and!; try done.
        exists (r ++ [x]). cbn [rev]. rewrite Hr, <- !app_assoc. split_and!; try done.
        intros q' Hq' (r1 & r2 & Hrr & Hr1 & ->). destruct (decide (r2 = [])) as [->|Hr2].
        -- rewrite app_nil_r in Hrr. subst r1. cbn [rev] in Eg. by rewrite Hr, <- app_assoc in Eg.
        -- apply Hno; [done|]. destruct (exists_last Hr2) as (r2' & y & ->). rewrite app_assoc in Hrr.
           apply app_inj_tail in Hrr as [-> _]. by exists r1, r2'.
      * destruct H as [-> Hno]. split; [cbn [rev]; by rewrite <- app_assoc|].
        intros q Hq (r & Hr). destruct (decide (r = [])) as [->|Hr'].
        -- rewrite app_nil_r in Hr. by rewrite <- Hr.
        -- apply Hno; [done|]. destruct (exists_last Hr') as (r' & y & ->). cbn [rev] in Hr. rewrite app_assoc in Hr.
           apply app_inj_tail in Hr as [-> _]. by exists r'.
Qed.

Lemma join_path_app q r : q <> [] -> r <> [] -> join_path (q ++ r) = join_path q ++ SLASH :: join_path r.
Proof.
  intros Hq Hr. induction q as [|x q IH]; [done|]. destruct q as [|y q].
  - cbn [app join_path]. by destruct r.
  - change ((x :: y :: q) ++ r) with (x :: ((y :: q) ++ r)).
    rewrite (join_path_cons x ((y :: q) ++ r)) by discriminate. rewrite IH by done.
    rewrite (join_path_cons x (y :: q)) by discriminate. by rewrite <- app_assoc.
Qed.

Lemma path_items_nonempty items path : path_items items = Ok path -> Forall (fun x => x <> []) path.
Proof.
  revert path; induction items as [|x items IH]; intros path H; cbn [path_items] in H; [simplify_eq; constructor|].
  cbv zeta in H. case_bool_decide as Hx; [done|]. apply res_bind_ok in H as (rest & Hr & H). simplify_eq.
  constructor; [done|]. by apply IH.
Qed.

Lemma create_path_nonempty name path : create_path_of name = Ok path -> Forall (fun x => x <> []) path.
Proof.
  unfold create_path_of. cbv zeta. set (name' := match strip_slash_suffix _ with Some _ => _ | None => _ end).
  case_bool_decide as Hn; [done|]. destruct (existsb _ _); [|intros [= <-]; by repeat constructor].
  intros Hp. apply res_bind_ok in Hp as (q & Hq & Hp). destruct (_ <? _)%nat; [done|]. simplify_eq.
  by eapply path_items_nonempty.
Qed.

(** What the params of a name tell of the account. *)
Definition params_ok (a : Account) (params : CreateParams) : Prop :=
  acc_account_id a = cp_account_id params /\
    btree_get (cp_full_path params) (mailbox_names a) = None /\
    cp_path params <> [] /\ Forall (fun x => x <> []) (cp_path params) /\
    match cp_parent_mailbox_id params, cp_parent_mailbox_name params with
    | Some id, Some name =>
        name <> [] /\ btree_get name (mailbox_names a) = Some id /\
        cp_full_path params = name ++ SLASH :: join_path (cp_path params) /\
        forall r1 r2, cp_path params = r1 ++ r2 -> r1 <> [] -> btree_get (name ++ SLASH :: join_path r1) (mailbox_names a) = None
    | None, None =>
        cp_full_path params = join_path (cp_path params) /\
        forall r1 r2, cp_path params = r1 ++ r2 -> r1 <> [] -> btree_get (join_path r1) (mailbox_names a) = None
    | _, _ => False
    end.

Lemma validated l mailbox_name params :
  validate_mailbox_create l mailbox_name = Ok params -> exists a, a ∈ l /\ params_ok a params.
Proof.
  intros Hv. apply res_bind_ok in Hv as (path & Hne & Hv). apply create_path_nonempty in Hne. apply res_bind_ok in Hv as (a & Ha & Hv).
  assert (Hin : a ∈ l /\ path <> []).
  { unfold account_of_path in Ha. destruct path as [|first path]; [done|]. split; [|done].
    destruct (bytes_eqb first folder_all); [done|]. destruct (bytes_eqb first folder_shared); cycle 1.
    { destruct l as [|a' l]; [done|]. simplify_eq. by left. }
    destruct path as [|user [|x path]]; try done.
    destruct (List.find _ _) as [a'|] eqn:Ef; [|done]. simplify_eq. apply List.find_some in Ef as [Ef _].
    apply list_elem_of_In in Ef. destruct l as [|y l]; [inv Ef|]. by right. }
  destruct Hin as [Hin Hpath]. exists a. split; [done|]. unfold params_ok.
  cbv zeta in Hv. case_bool_decide as Hex; [done|]. apply eq_None_not_Some in Hex.
  destruct (1 <? length path)%nat eqn:E1; cycle 1.
  { simplify_eq. cbn. split_and!; try done. intros r1 r2 -> Hr1. destruct r1 as [|x r1]; [done|].
    destruct r1; [|cbn in E1; lia]. destruct r2; [done|cbn in E1; lia]. }
  destruct (locate_parent _ (rev path) []) as [parent path'] eqn:El. simplify_eq. apply locate_parent_spec in El.
  rewrite rev_involutive in El. destruct parent as [[id name]|]; cbn.
  - destruct El as (q & Hq & -> & Hg & r & -> & -> & Hno). rewrite app_nil_r.
    assert (Hr : r <> []) by (intros ->; rewrite app_nil_r in Hex; congruence). split_and!; try done.
    + by apply list.Forall_app in Hne as [_ ?].
    + apply list.Forall_app in Hne as [Hne _]. destruct q as [|x q]; [done|]. apply list.Forall_cons in Hne as [Hx _].
      destruct q; [done|]. rewrite join_path_cons by done. by destruct x.
    + by apply join_path_app.
    + intros r1 r2 -> Hr1. rewrite <- join_path_app by done. apply Hno; [by destruct q|]. by exists r1, r2.
  - destruct El as [-> Hno]. rewrite app_nil_r. split_and!; try done. intros r1 r2 -> Hr1. apply Hno; [done|]. by exists r2.
Qed.

End Validate.

(** ** The requests *)

(** [parent_id_ref] or [parent_id] of a mailbox in a [Mailbox/set] request. *)
Inductive ParentRef := ParentCreated (create_id : str) | ParentId (id : option str).

Record SetItem := mkSetItem { si_name : str; si_parent : ParentRef; si_role : option Role }.

Class FolderClient (W : Type) := {
  SetResponse : Type;
  (* the creation id of the n-th mailbox of a request *)
  create_id : nat -> str;
  (* mailboxes to create, and one to update *)
  send_set_mailbox : str -> list SetItem -> option (str * SetItem) -> EM W JmapError SetResponse;
  set_created : SetResponse -> str -> Res JmapError str;
  set_updated : SetResponse -> str -> Res JmapError unit;
  set_take_new_state : SetResponse -> str * SetResponse;
  set_has_updated : SetResponse -> bool;
  error_text : JmapError -> str;   (* [Display] *)
  mailbox_destroy : str -> bool -> EM W JmapError unit;
  mailbox_subscribe : str -> bool -> EM W JmapError unit
}.

(** Mailboxes to create one below the other; the role goes to the last. *)
Fixpoint create_items `{FolderClient W} (n : nat) (parent : ParentRef) (path : list str) (role : option Role)
  : list SetItem :=
  match path with
  | [] => []
  | [x] => [mkSetItem x parent role]
  | x :: path' => mkSetItem x parent None :: create_items (S n) (ParentCreated (create_id n)) path' role
  end.

Definition set_names (names : list (str * str)) (a : Account) : Account :=
  mkAccount (acc_account_id a) (prefix a) (mailbox_state a) names (mailbox_data a) (modseq a).
Definition set_data (data : hash_map Mailbox) (a : Account) : Account :=
  mkAccount (acc_account_id a) (prefix a) (mailbox_state a) (mailbox_names a) data (modseq a).
Definition set_has_children (v : bool) (m : Mailbox) : Mailbox :=
  mkMailbox v (is_subscribed m) (role m) (total_messages m) (total_unseen m) (total_deleted m) (mb_uid_validity m)
    (mb_uid_next m) (size m).
Definition set_is_subscribed (v : bool) (m : Mailbox) : Mailbox :=
  mkMailbox (has_children m) v (role m) (total_messages m) (total_unseen m) (total_deleted m) (mb_uid_validity m)
    (mb_uid_next m) (size m).
(** [if let Some(mailbox) = mailbox_data.get_mut(id) { .. }] *)
Definition alter_mailbox (id : str) (f : Mailbox -> Mailbox) (a : Account) : Account := set_data (alter f id (mailbox_data a)) a.

Definition created_mailbox (has_children : bool) : Mailbox :=
  mkMailbox has_children false RoleNone (Some 0) (Some 0) (Some 0) None None (Some 0).

(** The entries of the mailboxes that were created, each under the one before. *)
Fixpoint add_path (mailbox_name : str) (todo : list (str * str)) (has_updated : bool) (a : Account) : Account :=
  match todo with
  | [] => a
  | (mailbox_id, path_item) :: todo' =>
      let mailbox_name :=
        if negb (bool_decide (mailbox_name = [])) then mailbox_name ++ SLASH :: path_item else path_item in
      let mailbox := created_mailbox (negb (bool_decide (todo' = [])) || has_updated) in
      add_path mailbox_name todo' has_updated
        (set_data (<[mailbox_id := mailbox]> (mailbox_data a)) (set_names (btree_insert mailbox_name mailbox_id (mailbox_names a)) a))
  end.

Section Tasks.
Context {W : Type} `{Sled W} `{Clock W} `{MailboxClient W} `{FolderClient W}.
Context (folder_shared folder_all : str).

(** A task; [Err] is an early [return]. *)
Abbreviation T := (EM (Data W) StatusResponse).

Definition answered (m : T StatusResponse) : EM (Data W) unit StatusResponse := fun d =>
  match m d with
  | (Ok r, d') => (Ok r, d')
  | (Err r, d') => (Ok r, d')
  | (Panic, d') => (Panic, d')
  | (NoFuel, d') => (NoFuel, d')
  end.

(** A JMAP request whose error is the answer. *)
Definition request {A} (t : str) (m : EM W JmapError A) : T A :=
  map_errM (fun e => with_tag (into_status_response e) t) (on_jmap m).
Definition refresh (t : str) : T unit :=
  do* _ := map_errM (fun e => with_tag (into_status_response e) t) (synchronize_mailboxes folder_shared false false) in ret tt.
Definition locked : T (list Account) := fun d => (Ok (mailboxes d), d).
Definition unlock (l : list Account) : T unit := fun d => (Ok tt, mkData l (outer d)).

Fixpoint created_ids (create_ids : list str) (response : SetResponse) : Res str (list str) :=
  match create_ids with
  | [] => Ok []
  | id :: create_ids' =>
      let* mailbox_id := map_err error_text (set_created response id) in
      let* rest := created_ids create_ids' response in Ok (mailbox_id :: rest)
  end.

(** The name of the new mailbox and the accounts, or the text of an error. *)
Definition add_created_mailboxes (params : CreateParams) (path : list str) (create_ids : list str) (response : SetResponse)
    (l : list Account) : Res str (str * SetResponse * list Account) :=
  let* mailbox_ids := created_ids create_ids response in
  match List.find (fun a => bool_decide (acc_account_id a = cp_account_id params)) l with
  | None => Err (b "Account no longer available.")
  | Some account =>
      let '(new_state, response) := set_take_new_state response in
      if negb (length mailbox_ids =? length path)%nat then Err (b "Some mailboxes could not be created.")
      else
        let* last := unwrap (list.last mailbox_ids) in
        let fill a :=
          let a := Mailboxes.set_mailbox_state new_state a in
          let '(a, mailbox_name) :=
            match cp_parent_mailbox_name params with
            | Some name =>
                (match cp_parent_mailbox_id params with
                 | Some id => alter_mailbox id (set_has_children true) a
                 | None => a
                 end, name)
            | None => (a, default [] (prefix a))
            end in
          add_path mailbox_name (zip mailbox_ids path) (set_has_updated response) a in
        Ok (acc_account_id account ++ b "-" ++ last, response, update_account (cp_account_id params) fill l)
  end.

Definition create_folder (arguments : CreateArguments) : T StatusResponse :=
  let t := create_tag arguments in
  do* _ := refresh t in
  do* l := locked in
  do* params := lift (map_err (fun m => with_tag (sr_no m) t)
                        (validate_mailbox_create folder_shared folder_all l (create_name arguments))) in
  let role := if bool_decide (create_role arguments = RoleNone) then None else Some (create_role arguments) in
  let create_ids := map create_id (seq 0 (length (cp_path params))) in
  do* response := request t (send_set_mailbox (cp_account_id params)
                               (create_items 0 (ParentId (cp_parent_mailbox_id params)) (cp_path params) role) None) in
  do* l := locked in
  match add_created_mailboxes params (cp_path params) create_ids response l with
  | Ok (mailbox_id, _, l) =>
      do* _ := unlock l in
      ret (with_tag (with_code (sr_ok (msg "Mailbox created.")) (MailboxIdCode mailbox_id)) t)
  | Err message => ret (with_tag (sr_no [PStr message]) t)
  | Panic => lift Panic
  | NoFuel => lift NoFuel
  end.

(** ** RENAME *)

(** The account and id of the mailbox to rename. *)
Fixpoint rename_source (l : list Account) (account_id mailbox_name : str) : Res StatusResponse str :=
  match l with
  | [] =>
      Err (with_code (sr_no [PStr (b "Mailbox '"); PStr mailbox_name; PStr (b "' not found.")]) NonExistent)
  | account :: l' =>
      match btree_get mailbox_name (mailbox_names account) with
      | Some mailbox_id =>
          if bool_decide (acc_account_id account = account_id) then Ok mailbox_id
          else Err (with_code (sr_no (msg "Cannot move mailboxes between accounts.")) Cannot)
      | None => rename_source l' account_id mailbox_name
      end
  end.

(** The names of the account after the mailbox and what is below it moved. *)
Definition rename_names (old_name full_path mailbox_id : str) (names : list (str * str)) : list (str * str) :=
  let prefix := old_name ++ [SLASH] in
  btree_insert full_path mailbox_id
    (foldl (fun new_names e =>
       if negb (bytes_eqb e.1 old_name) then
         match strip_prefix prefix e.1 with
         | Some child_name => btree_insert (full_path ++ SLASH :: child_name) e.2 new_names
         | None => btree_insert e.1 e.2 new_names
         end
       else new_names) [] names).

(** The path without its last component. *)
Definition parent_path_of (name : str) : str := join_path (removelast (split_slash name)).

Definition rename_account (old_name : str) (params : CreateParams) (mailbox_id new_state : str) (a : Account) : Account :=
  let a := Mailboxes.set_mailbox_state new_state a in
  let a :=
    if existsb (Z.eqb SLASH) old_name then
      let parent_path := parent_path_of old_name in
      match btree_get parent_path (mailbox_names a) with
      | Some old_parent_id =>
          alter_mailbox old_parent_id
            (set_has_children
               (existsb (fun e => negb (bytes_eqb e.1 old_name) && starts_with (parent_path ++ [SLASH]) e.1) (mailbox_names a))) a
      | None => a
      end
    else a in
  let a :=
    match cp_parent_mailbox_id params with
    | Some id => alter_mailbox id (set_has_children true) a
    | None => a
    end in
  set_names (rename_names old_name (cp_full_path params) mailbox_id (mailbox_names a)) a.

Definition rename_folder (arguments : RenameArguments) : T StatusResponse :=
  let t := rename_tag arguments in
  do* _ := refresh t in
  do* l := locked in
  do* params := lift (map_err (fun m => with_tag (sr_no m) t)
                        (validate_mailbox_create folder_shared folder_all l (rename_to arguments))) in
  do* l := locked in
  do* mailbox_id := lift (map_err (fun r => with_tag r t) (rename_source l (cp_account_id params) (rename_from arguments))) in
  do* new_mailbox_name := lift (unwrap (list.last (cp_path params))) in
  let path := removelast (cp_path params) in
  let create_ids := map create_id (seq 0 (length path)) in
  let parent :=
    match list.last create_ids with
    | Some id => ParentCreated id
    | None => ParentId (cp_parent_mailbox_id params)
    end in
  do* response := request t (send_set_mailbox (cp_account_id params)
                               (create_items 0 (ParentId (cp_parent_mailbox_id params)) path None)
                               (Some (mailbox_id, mkSetItem new_mailbox_name parent None))) in
  do* l := locked in
  do* (response, l) :=
    (if negb (bool_decide (create_ids = [])) then
       do* (_, response, l) := lift (map_err (fun message => with_tag (sr_no [PStr message]) t)
                                       (add_created_mailboxes params path create_ids response l)) in
       ret (response, l)
     else ret (response, l)) in
  do* _ := unlock l in
  do* _ := lift (map_err (fun e => with_tag (into_status_response e) t) (set_updated response mailbox_id)) in
  do* _ := unlock (update_account (cp_account_id params)
                     (rename_account (rename_from arguments) params mailbox_id (set_take_new_state response).1) l) in
  ret (with_tag (completed Rename) t).

(** ** DELETE *)

(** The loop over the accounts and their names: is it in the main account, and
    the account and mailbox ids. *)
Fixpoint delete_scan (names : list (str * str)) (mailbox_name : str) : option (Res StatusResponse str) :=
  match names with
  | [] => None
  | (name, mailbox_id) :: names' =>
      if bytes_eqb name mailbox_name then Some (Ok mailbox_id)
      else if starts_with (mailbox_name ++ [SLASH]) name then
        Some (Err (with_code (sr_no (msg "Mailbox has children that need to be deleted first.")) HasChildren))
      else delete_scan names' mailbox_name
  end.

Fixpoint delete_target (l : list Account) (mailbox_name : str) : Res StatusResponse (bool * str * str) :=
  match l with
  | [] => Err (sr_no (msg "Mailbox does not exist."))
  | account :: l' =>
      if under_prefix account mailbox_name then
        match delete_scan (mailbox_names account) mailbox_name with
        | Some (Ok mailbox_id) => Ok (bool_decide (prefix account = None), acc_account_id account, mailbox_id)
        | Some (Err r) => Err r
        | Some Panic => Panic
        | Some NoFuel => NoFuel
        | None => delete_target l' mailbox_name
        end
      else delete_target l' mailbox_name
  end.

Definition remove_mailbox (mailbox_name mailbox_id : str) (a : Account) : Account :=
  set_data (delete mailbox_id (mailbox_data a)) (set_names (btree_remove mailbox_name (mailbox_names a)) a).

Definition delete_folder (arguments : MailboxArguments) : T StatusResponse :=
  let t := mbox_tag arguments in
  do* _ := refresh t in
  do* l := locked in
  do* (delete_uid_cache, account_id, mailbox_id) :=
    lift (map_err (fun r => with_tag r t) (delete_target l (mbox_name arguments))) in
  do* _ := request t (mailbox_destroy mailbox_id true) in
  do* _ := (if delete_uid_cache : bool then
              do* _ := attempt (fun d => let '(r, w) := delete_mailbox account_id mailbox_id (outer d) in (r, mkData (mailboxes d) w)) in
              ret tt
            else ret tt) in
  do* l := locked in
  do* _ := unlock (update_account account_id (remove_mailbox (mbox_name arguments) mailbox_id) l) in
  ret (with_tag (sr_ok (msg "Mailbox deleted.")) t).

(** ** SUBSCRIBE and UNSUBSCRIBE *)
Definition subscribe_folder (t mailbox_name : str) (subscribe : bool) : T StatusResponse :=
  do* _ := refresh t in
  do* default_id := request t (ask default_account_id) in
  do* l := locked in
  match get_mailbox_by_name folder_all default_id l mailbox_name with
  | Some mailbox =>
      match UidStore.mailbox_id mailbox with
      | Some mailbox_id =>
          do* _ := request t (mailbox_subscribe mailbox_id subscribe) in
          do* l := locked in
          do* _ := unlock (update_account (account_id mailbox) (alter_mailbox mailbox_id (set_is_subscribed subscribe)) l) in
          ret (with_tag (sr_ok (msg (if subscribe then "Mailbox subscribed." else "Mailbox unsubscribed."))) t)
      | None =>
          ret (with_code (with_tag (sr_no (msg "Subscribing to this mailbox is not supported.")) t) Cannot)
      end
  | None => ret (with_code (with_tag (sr_no (msg "Mailbox does not exist.")) t) NonExistent)
  end.
End Tasks.

(** ** What RENAME does to the names *)
(** The new name of a mailbox, if it is not the one that is renamed. *)
Definition moved (old_name full_path name : str) : option str :=
  if bytes_eqb name old_name then None
  else Some (match strip_prefix (old_name ++ [SLASH]) name with
             | Some child_name => full_path ++ SLASH :: child_name
             | None => name
             end).

Lemma rename_fold_get old full names n id :
  (forall e1 e2, e1 ∈ names -> e2 ∈ names -> moved old full e1.1 = Some n -> moved old full e2.1 = Some n -> e1 = e2) ->
  btree_get n
    (foldl (fun new_names e =>
       if negb (bytes_eqb e.1 old) then
         match strip_prefix (old ++ [SLASH]) e.1 with
         | Some child_name => btree_insert (full ++ SLASH :: child_name) e.2 new_names
         | None => btree_insert e.1 e.2 new_names
         end
       else new_names) [] names) = Some id <->
  exists k, (k, id) ∈ names /\ moved old full k = Some n.
Proof.
  induction names as [|[k v] names IH] using rev_ind; intros Hinj.
  { split; [done|]. intros (k & Hk & _). inv Hk. }
  rewrite foldl_app. cbn [foldl fst snd]. set (done := foldl _ [] names) in *.
  assert (Hinj' : forall e1 e2, e1 ∈ names -> e2 ∈ names -> moved old full e1.1 = Some n -> moved old full e2.1 = Some n -> e1 = e2)
    by (intros; apply Hinj; try done; apply elem_of_app; by left).
  specialize (IH Hinj').
  assert (E : (if negb (bytes_eqb k old) then
         match strip_prefix (old ++ [SLASH]) k with
         | Some child_name => btree_insert (full ++ SLASH :: child_name) v done
         | None => btree_insert k v done
         end else done) = match moved old full k with Some n' => btree_insert n' v done | None => done end).
  { unfold moved. destruct (bytes_eqb k old); [reflexivity|]. cbn [negb]. by destruct (strip_prefix _ k). }
  rewrite E. destruct (decide (moved old full k = Some n)) as [Hk|Hk].
  - rewrite Hk, btree_get_insert. split.
    + intros [= <-]. exists k. split; [|exact Hk]. apply elem_of_app. right. by left.
    + intros (k' & Hin & Hk'). f_equal.
      assert (Heq : (k, v) = (k', id)); [|by injection Heq].
      apply Hinj; try done. apply elem_of_app. right. by left.
  - assert (Hsame : btree_get n (match moved old full k with Some n' => btree_insert n' v done | None => done end) = btree_get n done).
    { destruct (moved old full k) as [n'|] eqn:Em; [|reflexivity]. apply btree_get_insert_ne. congruence. }
    rewrite Hsame, IH. split.
    + intros (k' & Hin & Hk'). exists k'. split; [|exact Hk']. apply elem_of_app. by left.
    + intros (k' & Hin & Hk'). exists k'. split; [|exact Hk']. apply elem_of_app in Hin as [Hin|Hin]; [exact Hin|].
      apply list_elem_of_singleton in Hin. congruence.
Qed.

(** [name] is [p] or below it. *)
Definition below (p name : str) : Prop := name = p \/ exists c, name = p ++ SLASH :: c.

Lemma app_slash (p c : str) : p ++ SLASH :: c = (p ++ [SLASH]) ++ c.
Proof. by rewrite <- app_assoc. Qed.

Lemma below_split p q c : below q (p ++ SLASH :: c) -> below q p \/ exists x, q = p ++ SLASH :: x.
Proof.
  intros [<-|(c' & E)]; [right; by exists c|].
  apply List.app_eq_app in E as (l & [[-> E]|[-> E]]).
  - left. destruct l as [|y l]; [left; by rewrite app_nil_r|]. cbn in E. injection E as <- _. right. by exists l.
  - destruct l as [|y l]; [left; left; by rewrite app_nil_r|]. cbn in E. injection E as <- _. right. by exists l.
Qed.

(** C30: After RENAME the mailbox and everything below it is found under the
    new name, nothing is left under the old one, and every other name means
    what it did, provided nothing was under the new name before and it is not
    below the old one. *)
Theorem rename_names_moves old full mailbox_id names :
  btree_sorted names -> (forall k id, (k, id) ∈ names -> ~ below full k) -> ~ below old full ->
  let renamed := rename_names old full mailbox_id names in
  btree_get full renamed = Some mailbox_id /\
  (forall c, btree_get (full ++ SLASH :: c) renamed = btree_get (old ++ SLASH :: c) names) /\
  (forall n, below old n -> btree_get n renamed = None) /\
  (forall n, ~ below old n -> ~ below full n -> btree_get n renamed = btree_get n names).
Proof.
  intros Hs Hfresh Hout renamed.
  assert (Hmoved : forall k n, moved old full k = Some n ->
            (exists c, k = old ++ SLASH :: c /\ n = full ++ SLASH :: c) \/ (~ below old k /\ n = k)).
  { intros k n. unfold moved. destruct (bytes_eqb k old) eqn:E; [done|]. apply bytes_eqb_false in E. intros [= <-].
    destruct (strip_prefix (old ++ [SLASH]) k) as [c|] eqn:Ec.
    - apply strip_prefix_spec in Ec as ->. left. exists c. by rewrite <- app_slash.
    - right. split; [|done]. intros [?|(c & ->)]; [done|]. rewrite (app_slash old c) in Ec.
      by rewrite (proj2 (strip_prefix_spec _ _ _) eq_refl) in Ec. }
  assert (Hchild : forall c, moved old full (old ++ SLASH :: c) = Some (full ++ SLASH :: c)).
  { intros c. unfold moved. rewrite (proj2 (bytes_eqb_false _ _)).
    - rewrite (app_slash old c). by rewrite (proj2 (strip_prefix_spec _ _ _) eq_refl).
    - intros Heq%(f_equal length). rewrite length_app in Heq. cbn in Heq. lia. }
  assert (Hsame : forall k, ~ below old k -> moved old full k = Some k).
  { intros k Hk. unfold moved. rewrite (proj2 (bytes_eqb_false _ _)) by (intros ->; apply Hk; by left).
    destruct (strip_prefix _ k) as [c|] eqn:Ec; [|done]. apply strip_prefix_spec in Ec as ->.
    destruct Hk. right. exists c. by rewrite (app_slash old c). }
  assert (Hinj : forall n e1 e2, e1 ∈ names -> e2 ∈ names -> moved old full e1.1 = Some n -> moved old full e2.1 = Some n -> e1 = e2).
  { intros n [k1 v1] [k2 v2] H1 H2 M1 M2. cbn in M1, M2.
    assert (k1 = k2) as ->.
    { apply Hmoved in M1 as [(c1 & -> & ->)|[_ ->]], M2 as [(c2 & -> & E2)|[Hb E2]].
      - by apply app_inv_head in E2 as [= ->].
      - subst k2. destruct (Hfresh _ _ H2). right. by exists c1.
      - subst k1. destruct (Hfresh _ _ H1). right. by exists c2.
      - by subst. }
    f_equal. apply btree_get_elem in H1, H2; [|done..]. congruence. }
  assert (Hget : forall n id, n <> full -> btree_get n renamed = Some id <-> exists k, (k, id) ∈ names /\ moved old full k = Some n).
  { intros n id Hn. unfold renamed, rename_names. rewrite btree_get_insert_ne by done. exact (rename_fold_get old full names n id (Hinj n)). }
  assert (Hopt : forall o1 o2 : option str, (forall id, o1 = Some id <-> o2 = Some id) -> o1 = o2).
  { intros [x|] o2 Ho; [by rewrite (proj1 (Ho x) eq_refl)|]. destruct o2 as [y|]; [exact (proj2 (Ho y) eq_refl)|done]. }
  assert (Hlong : forall c, full ++ SLASH :: c <> full).
  { intros c Heq%(f_equal length). rewrite length_app in Heq. cbn in Heq. lia. }
  split_and!.
  - unfold renamed, rename_names. apply btree_get_insert.
  - intros c. apply Hopt. intros id. rewrite Hget by done. rewrite btree_get_elem by done. split.
    + intros (k & Hin & Hk). apply Hmoved in Hk as [(c' & -> & E)|[_ E]].
      * apply app_inv_head in E as [= ->]. done.
      * subst k. destruct (Hfresh _ _ Hin). right. by exists c.
    + intros Hin. exists (old ++ SLASH :: c). by rewrite Hchild.
  - intros n Hb. destruct (btree_get n renamed) as [id|] eqn:E; [|done]. exfalso.
    assert (Hn : n <> full) by (intros ->; done). apply Hget in E as (k & Hin & Hk); [|done].
    apply Hmoved in Hk as [(c & -> & ->)|[Hk ->]]; [|done].
    assert (Hk : ~ below full (old ++ SLASH :: c)) by by eapply Hfresh.
    destruct (below_split full old c Hb) as [Hbad|(x & Hx)]; [done|].
    apply Hk. right. exists (x ++ SLASH :: c). by rewrite Hx, <- app_assoc.
  - intros n Ho Hf. apply Hopt. intros id. assert (Hn : n <> full) by (intros ->; apply Hf; by left).
    rewrite Hget by done. rewrite btree_get_elem by done. split.
    + intros (k & Hin & Hk). apply Hmoved in Hk as [(c & -> & ->)|[_ ->]]; [|done]. destruct Hf. right. by exists c.
    + intros Hin. exists n. by rewrite Hsame.
Qed.

(** ** What CREATE does to the names *)
Lemma add_path_get todo name hu a :
  todo <> [] -> Forall (fun e => e.2 <> []) todo ->
  exists id, list.last (map fst todo) = Some id /\
    btree_get (if decide (name = []) then join_path (map snd todo) else name ++ SLASH :: join_path (map snd todo))
      (mailbox_names (add_path name todo hu a)) = Some id.
Proof.
  revert name a; induction todo as [|[mid item] todo IH]; intros name a Hne Hitems; [done|].
  apply list.Forall_cons in Hitems as [Hitem Hitems]. cbn [snd] in Hitem. cbn [add_path map fst snd].
  set (name' := if negb (bool_decide (name = [])) then _ else item).
  assert (Hn' : name' <> []) by (unfold name'; case_bool_decide; [done|by destruct name]).
  destruct todo as [|e todo].
  - exists mid. split; [done|]. cbn [add_path map join_path mailbox_names set_data set_names].
    replace (if decide (name = []) then item else name ++ SLASH :: item) with name'; [apply btree_get_insert|].
    unfold name'. by case_bool_decide; case_decide.
  - destruct (IH name' (set_data (<[mid := created_mailbox (negb (bool_decide (e :: todo = [])) || hu)]> (mailbox_data a))
                   (set_names (btree_insert name' mid (mailbox_names a)) a)) ltac:(done) Hitems) as (id & Hlast & Hget).
    exists id. split; [done|]. rewrite decide_False in Hget by done.
    rewrite join_path_cons by done. unfold name' in *. case_bool_decide as Hn; cbn [negb] in *.
    + rewrite decide_True by done. exact Hget.
    + rewrite decide_False by done. rewrite app_comm_cons, app_assoc. exact Hget.
Qed.

Lemma find_split {A} (f : A -> bool) l x :
  List.find f l = Some x -> exists l1 l2, l = l1 ++ x :: l2 /\ f x = true /\ Forall (fun y => f y = false) l1.
Proof.
  induction l as [|y l IH]; cbn; [done|]. destruct (f y) eqn:E; [intros [= ->]; by exists [], l|].
  intros (l1 & l2 & -> & Hx & Hl)%IH. exists (y :: l1), l2. split_and!; try done. by constructor.
Qed.

Lemma update_account_split id f l1 a l2 :
  acc_account_id a = id -> Forall (fun y => acc_account_id y <> id) l1 ->
  update_account id f (l1 ++ a :: l2) = l1 ++ f a :: l2.
Proof.
  intros Ha. induction 1 as [|y l1 Hy Hl IH]; cbn [app update_account].
  - by rewrite bool_decide_eq_true_2.
  - rewrite bool_decide_eq_false_2 by done. by rewrite IH.
Qed.

Section CreateProps.
Context {W : Type} `{Sled W} `{Clock W} `{MailboxClient W} `{FolderClient W}.

Lemma created_ids_length create_ids response ids :
  created_ids create_ids response = Ok ids -> length ids = length create_ids.
Proof.
  revert ids; induction create_ids as [|id create_ids IH]; intros ids Hc; cbn [created_ids] in Hc; [by simplify_eq|].
  apply res_bind_ok in Hc as (x & _ & Hc). apply res_bind_ok in Hc as (rest & Hr & Hc). simplify_eq. cbn. f_equal. by apply IH.
Qed.

End CreateProps.

(** ** DELETE and children *)
Lemma lex_lt_extend x c y : lex_lt x (x ++ c :: y).
Proof. induction x as [|a x IH]; cbn; [done|by right]. Qed.

(** A mailbox that exists is found before its children, which come later in
    the order of the names: HASCHILDREN is for names without a mailbox. *)
Lemma delete_scan_found names name id :
  btree_sorted names -> btree_get name names = Some id -> delete_scan names name = Some (Ok id).
Proof.
  intros Hs Hg. apply btree_get_elem in Hg; [|done].
  induction Hs as [|[k v] names Hs IH Hk]; [inv Hg|]. cbn [delete_scan].
  destruct (bytes_eqb k name) eqn:E.
  - apply bytes_eqb_eq in E as ->. apply elem_of_cons in Hg as [[= ->]|Hg]; [done|].
    apply (proj1 (list.Forall_forall _ _) Hk) in Hg. by apply lex_lt_irrefl in Hg.
  - apply bytes_eqb_false in E. apply elem_of_cons in Hg as [[= -> _]|Hg]; [done|].
    destruct (starts_with (name ++ [SLASH]) k) eqn:Es; [|by apply IH].
    apply starts_with_spec in Es as (r & ->). apply (proj1 (list.Forall_forall _ _) Hk) in Hg. cbn in Hg.
    rewrite <- app_assoc in Hg. by pose proof (lex_lt_irrefl _ (lex_lt_trans _ _ _ (lex_lt_extend name SLASH r) Hg)).
Qed.

Lemma delete_ignores_children a l name id :
  btree_sorted (mailbox_names a) -> under_prefix a name = true -> btree_get name (mailbox_names a) = Some id ->
  delete_target (a :: l) name = Ok (bool_decide (prefix a = None), acc_account_id a, id).
Proof. intros Hs Hu Hg. cbn [delete_target]. by rewrite Hu, (delete_scan_found _ _ _ Hs Hg). Qed.

(** ** Concrete names *)
Definition demo_accounts : list Account := [demo_account; demo_shared].
Definition demo_validate (name : str) : Res (list Piece) CreateParams :=
  validate_mailbox_create (b "Shared Folders") (b "All Mail") demo_accounts name.

Definition demo_params : CreateParams :=
  mkCreateParams (b "john") [b "2024"; b "May"] (b "Work/2024/May") (Some (b "w")) (Some (b "Work")).


(** At the top of a shared account the components of the prefix count as
    mailboxes to create: the JMAP server is asked for three mailboxes. *)
Example shared_prefix_created :
  option_map cp_path (ok_of (demo_validate (b "Shared Folders/jane/New"))) =
  Some [b "Shared Folders"; b "jane"; b "New"].
Proof. vm_compute. reflexivity. Qed.

Lemma rename_names_moves_witness :
  btree_get (b "Archive/2023") (rename_names (b "Work") (b "Archive") (b "w") (mailbox_names demo_account)) =
  btree_get (b "Work/2023") (mailbox_names demo_account).
Proof.
  assert (Hs : btree_sorted (mailbox_names demo_account)) by (vm_compute; repeat constructor; lia).
  apply (rename_names_moves (b "Work") (b "Archive") (b "w") (mailbox_names demo_account) Hs); cycle 1.
  - intros [H|(c & H)]; vm_compute in H; discriminate.
  - intros k id Hin Hb.
    assert (Hk : existsb (fun e => starts_with (b "Archive") e.1) (mailbox_names demo_account) = true).
    { apply existsb_exists. exists (k, id). split; [by apply list_elem_of_In|]. apply starts_with_spec.
      destruct Hb as [->|(c & ->)]; [exists []; by rewrite app_nil_r | by eexists]. }
    vm_compute in Hk. discriminate.
Defined.

#[local] Instance demo_folder_client : FolderClient unit := {|
  SetResponse := list (str * str);
  create_id n := b "c" ++ dec (Z.of_nat n);
  send_set_mailbox _ items _ := ret (imap (fun i _ => (b "c" ++ dec (Z.of_nat i), b "new" ++ dec (Z.of_nat i))) items);
  set_created r id := ok_or (btree_get id r) (Internal []);
  set_updated _ _ := Ok tt;
  set_take_new_state r := (b "s9", r);
  set_has_updated _ := false;
  error_text _ := [];
  mailbox_destroy _ _ := ret tt;
  mailbox_subscribe _ _ := ret tt
|}.

Definition demo_response : @SetResponse unit demo_folder_client := [(b "c0", b "new0"); (b "c1", b "new1")].
Definition demo_created : Res str (str * SetResponse * list Account) :=
  add_created_mailboxes demo_params (cp_path demo_params) (map create_id (seq 0 2)) demo_response demo_accounts.

