(* ===== verification/SelectedMailbox.v ===== *)
(** * The selected mailbox: [impl SelectedMailbox] of [src/core/message.rs]

    A session that selected a mailbox keeps a snapshot of it: the JMAP ids and
    the UIDs of its messages, position by position; the sequence number of a
    message is its position plus one.  Here are the translations between the
    three identifiers, the resynchronization of the snapshot, the saved search
    of [src/commands/search.rs] and the EXPUNGE responses of
    [src/protocol/expunge.rs] that tell the client about it. *)

From Stdlib Require Import Sorted.
From S2P Require Import Prelude Utf8 Utf7 Types Sequence Wire Store UidStore.

Record ImapId := mkImapId { id_uid : Z; id_seqnum : Z }.

#[export] Instance ImapId_eq_dec : EqDecision ImapId.
Proof. solve_decision. Defined.

(** An [InFlight] search holds what its channel will deliver: the results, or
    the initial empty list when the search is dropped. *)
Inductive SavedSearch :=
| InFlight (delivered : list ImapId)
| Results (items : list ImapId)
| SavedNone.

Definition get_saved_search (saved_search : SavedSearch) : option (list ImapId) :=
  match saved_search with
  | InFlight delivered => Some delivered
  | Results items => Some items
  | SavedNone => None
  end.

(** [l[i]] *)
Definition index {E A} (l : list A) (i : nat) : Res E A := unwrap (l !! i).

(** [iter().position(|x| x == y)] *)
Fixpoint position {A} `{EqDecision A} (y : A) (l : list A) : option nat :=
  match l with
  | [] => None
  | x :: l' => if decide (x = y) then Some O else S <$> position y l'
  end.

(** ** Sequence sets to JMAP ids *)
Fixpoint match_loop (sequence : Sequence) (is_uid : bool) (max_uid max_seqnum : Z) (jmap_ids : list str)
    (pos : nat) (imap_uids : list Z) (ids : gmap (list Z) ImapId) : Res StatusResponse (gmap (list Z) ImapId) :=
  match imap_uids with
  | [] => Ok ids
  | uid :: imap_uids' =>
      let seqnum := wrap32 (Z.of_nat pos + 1) in
      let matched := if is_uid then contains sequence uid max_uid else contains sequence seqnum max_seqnum in
      if negb (uid =? 0) && matched then
        let* id := index jmap_ids pos in
        match_loop sequence is_uid max_uid max_seqnum jmap_ids (S pos) imap_uids' (<[id := mkImapId uid seqnum]> ids)
      else match_loop sequence is_uid max_uid max_seqnum jmap_ids (S pos) imap_uids' ids
  end.

Fixpoint saved_loop (state : MailboxData) (saved_ids : list ImapId) (ids : gmap (list Z) ImapId)
  : Res StatusResponse (gmap (list Z) ImapId) :=
  match saved_ids with
  | [] => Ok ids
  | imap_id :: saved_ids' =>
      if bool_decide (id_uid imap_id ∈ md_imap_uids state) then
        let* id := index (md_jmap_ids state) (Z.to_nat (Z.max 0 (id_seqnum imap_id - 1))) in
        saved_loop state saved_ids' (<[id := imap_id]> ids)
      else saved_loop state saved_ids' ids
  end.

Definition sequence_to_jmap (state : MailboxData) (saved_search : SavedSearch) (sequence : Sequence)
    (is_uid : bool) : Res StatusResponse (gmap (list Z) ImapId) :=
  if negb (is_saved_search sequence) then
    match list.last (md_imap_uids state) with
    | None => Ok ∅
    | Some max_uid =>
        match_loop sequence is_uid max_uid (wrap32 (Z.of_nat (length (md_imap_uids state))))
          (md_jmap_ids state) 0 (md_imap_uids state) ∅
    end
  else
    let* saved_ids := ok_or (get_saved_search saved_search) (sr_no (msg "No saved search found.")) in
    saved_loop state saved_ids ∅.

(** ** Between JMAP ids and positions *)
Module Selected.

Fixpoint jmap_to_imap {E} (state : MailboxData) (jmap_ids : list str) : Res E (list ImapId) :=
  match jmap_ids with
  | [] => Ok []
  | jmap_id :: jmap_ids' =>
      match position jmap_id (md_jmap_ids state) with
      | Some seqnum =>
          let* uid := index (md_imap_uids state) seqnum in
          let* rest := jmap_to_imap state jmap_ids' in
          Ok (mkImapId uid (wrap32 (Z.of_nat seqnum + 1)) :: rest)
      | None => jmap_to_imap state jmap_ids'
      end
  end.

Fixpoint imap_to_jmap {E} (state : MailboxData) (imap_ids : list ImapId) : Res E (list str) :=
  match imap_ids with
  | [] => Ok []
  | imap_id :: imap_ids' =>
      match position (id_uid imap_id) (md_imap_uids state) with
      | Some pos =>
          let* id := index (md_jmap_ids state) pos in
          let* rest := imap_to_jmap state imap_ids' in
          Ok (id :: rest)
      | None => imap_to_jmap state imap_ids'
      end
  end.

End Selected.

Definition is_in_sync (state : MailboxData) (jmap_ids : list str) : bool :=
  forallb (fun id => bool_decide (id ∈ md_jmap_ids state)) jmap_ids.

(** ** Resynchronization *)
Fixpoint removal_loop (imap_uids : list Z) (pos : nat) (old : list (str * Z))
    (new_jmap_ids : list str) (new_imap_uids : list Z) (deletions : list ImapId)
  : list str * list Z * list ImapId :=
  match old with
  | [] => (new_jmap_ids, new_imap_uids, deletions)
  | (jmap_id, imap_uid) :: old' =>
      if bool_decide (imap_uid ∈ imap_uids) then
        removal_loop imap_uids (S pos) old' (new_jmap_ids ++ [jmap_id]) (new_imap_uids ++ [imap_uid]) deletions
      else
        removal_loop imap_uids (S pos) old' new_jmap_ids new_imap_uids
          (deletions ++ [mkImapId imap_uid (wrap32 (Z.of_nat pos + 1))])
  end.

Fixpoint insertion_loop {E} (imap_uids : list Z) (pos : nat) (jmap_ids : list str) (state : MailboxData)
    (has_inserts : bool) : Res E (MailboxData * bool) :=
  match jmap_ids with
  | [] => Ok (state, has_inserts)
  | jmap_id :: jmap_ids' =>
      let* uid := index imap_uids pos in
      if bool_decide (uid ∈ md_imap_uids state) then insertion_loop imap_uids (S pos) jmap_ids' state has_inserts
      else
        insertion_loop imap_uids (S pos) jmap_ids'
          (mkMailboxData (md_uid_next state) (md_uid_validity state) (md_jmap_ids state ++ [jmap_id])
             (md_imap_uids state ++ [uid]) (S (md_total_messages state)) (md_last_state state)) true
  end.

(** The new state, the new number of messages and the deleted messages. *)
Definition synchronize_uids {E} (state : MailboxData) (jmap_ids : list str) (imap_uids : list Z) (remove_missing : bool)
  : Res E (MailboxData * option nat * option (list ImapId)) :=
  let '(state, deletions) :=
    if remove_missing then
      let '(new_jmap_ids, new_imap_uids, deletions) :=
        removal_loop imap_uids 0 (zip (md_jmap_ids state) (md_imap_uids state)) [] [] [] in
      (mkMailboxData (md_uid_next state) (md_uid_validity state) new_jmap_ids new_imap_uids
         (md_total_messages state - length deletions) (md_last_state state),
       if decide (deletions = []) then None else Some deletions)
    else (state, None) in
  let* r := insertion_loop imap_uids 0 jmap_ids state false in
  Ok (r.1,
      if r.2 || bool_decide (is_Some deletions) then Some (md_total_messages r.1) else None,
      deletions).

(** ** EXPUNGE and VANISHED *)
Fixpoint expunge_numbers (num_deletions : Z) (ids : list Z) : list Z :=
  match ids with
  | [] => []
  | id :: ids' => Z.max 0 (id - wrap32 num_deletions) :: expunge_numbers (num_deletions + 1) ids'
  end.

Definition vanished_serialize (earlier : bool) (ids : list Z) : bytes :=
  (if earlier then b "* VANISHED (EARLIER) " else b "* VANISHED ") ++ serialize_sequence ids ++ CRLF.

Definition expunge_serialize (is_qresync : bool) (ids : list Z) : bytes :=
  if negb is_qresync then
    flat_map (fun n => b "* " ++ dec n ++ b " EXPUNGE" ++ CRLF) (expunge_numbers 0 ids)
  else vanished_serialize false ids.

(** ** Snapshots that make sense *)

(** As many ids as UIDs, none twice, few enough for 32-bit numbers. *)
Record aligned (state : MailboxData) : Prop := {
  al_length : length (md_jmap_ids state) = length (md_imap_uids state);
  al_ids : NoDup (md_jmap_ids state);
  al_uids : NoDup (md_imap_uids state);
  al_small : Z.of_nat (length (md_imap_uids state)) < 2 ^ 32
}.

(** What a client knows: the UID behind each sequence number.  An EXPUNGE
    removes one entry, the entries after it move up. *)
Definition client_expunge (view : list Z) (n : Z) : list Z :=
  if 1 <=? n then take (Z.to_nat n - 1) view ++ drop (Z.to_nat n) view else view.
Definition client_expunges (view : list Z) (ns : list Z) : list Z := foldl client_expunge view ns.

(** ** Lemmas *)
Lemma position_Some {A} `{EqDecision A} (y : A) l i :
  NoDup l -> position y l = Some i <-> l !! i = Some y.
Proof.
  revert i; induction l as [|x l IH]; intros i Hn; cbn [position]; [done|].
  apply list.NoDup_cons in Hn as [Hx Hn]. case_decide as Hd.
  - subst. split; [intros [= <-]; done|]. destruct i as [|i]; [done|]. cbn. intros Hi.
    destruct Hx. by eapply list_elem_of_lookup_2.
  - destruct i as [|i]; cbn.
    + split; [by destruct (position y l) | intros [= ?]; done].
    + rewrite <- (IH i Hn). destruct (position y l); cbn; split; intros; simplify_eq; done.
Qed.

Lemma position_None {A} `{EqDecision A} (y : A) l : position y l = None <-> y ∉ l.
Proof.
  induction l as [|x l IH]; cbn [position].
  { split; [by intros _ ?%elem_of_nil | done]. }
  rewrite elem_of_cons. case_decide as Hd.
  { subst. split; [done|]. intros Hn. destruct Hn. by left. }
  destruct (position y l) as [i|]; cbn.
  - split; [done|]. intros Hn. assert (Hs : Some i = None); [|done]. apply IH. tauto.
  - split; [|done]. intros _ [?|Hin]; [done|]. by apply IH in Hin.
Qed.

Lemma index_ok {E A} (l : list A) i x : l !! i = Some x -> index (E := E) l i = Ok x.
Proof. intros Hl. unfold index. by rewrite Hl. Qed.

Lemma wrap32_id n : 0 <= n < 2 ^ 32 -> wrap32 n = n.
Proof. intros. by rewrite wrap32_mod, Z.mod_small. Qed.

(** The messages of a snapshot that a sequence set names. *)
Definition selects (state : MailboxData) (sequence : Sequence) (is_uid : bool) (pos : nat) (uid : Z) : bool :=
  negb (uid =? 0) &&
  (if is_uid then contains sequence uid (default 0 (list.last (md_imap_uids state)))
   else contains sequence (Z.of_nat pos + 1) (Z.of_nat (length (md_imap_uids state)))).

Lemma match_loop_spec state sequence is_uid pos uids ids :
  aligned state -> drop pos (md_imap_uids state) = uids ->
  (forall id r, ids !! id = Some r -> exists p, (p < pos)%nat /\ md_jmap_ids state !! p = Some id) ->
  exists m,
    match_loop sequence is_uid (default 0 (list.last (md_imap_uids state)))
      (wrap32 (Z.of_nat (length (md_imap_uids state)))) (md_jmap_ids state) pos uids ids = Ok m /\
    forall id r, m !! id = Some r <->
      ids !! id = Some r \/
      exists p, (pos <= p)%nat /\ md_jmap_ids state !! p = Some id /\
                md_imap_uids state !! p = Some (id_uid r) /\ id_seqnum r = Z.of_nat p + 1 /\
                selects state sequence is_uid p (id_uid r) = true.
Proof.
  intros [Hlen Hni Hnu Hsm]. revert pos ids; induction uids as [|uid uids IH]; intros pos ids Hd Hids;
    cbn [match_loop].
  { exists ids. split; [done|]. intros id r. split; [by left|]. intros [?|(p & Hp & _ & Hu & _)]; [done|].
    apply lookup_lt_Some in Hu. assert (length (drop pos (md_imap_uids state)) = O) as Hz by by rewrite Hd.
    rewrite length_drop in Hz. lia. }
  assert (Hpos : md_imap_uids state !! pos = Some uid).
  { rewrite <- (Nat.add_0_r pos), <- lookup_drop, Hd. done. }
  assert (Hd' : drop (S pos) (md_imap_uids state) = uids).
  { replace (S pos) with (pos + 1)%nat by lia. rewrite <- drop_drop, Hd. done. }
  pose proof (lookup_lt_Some _ _ _ Hpos) as Hlt.
  destruct (lookup_lt_is_Some_2 (md_jmap_ids state) pos) as [i Hi]; [lia|].
  rewrite !wrap32_id by lia.
  change (negb (uid =? 0) && _) with (selects state sequence is_uid pos uid).
  rewrite <- (wrap32_id (Z.of_nat (length (md_imap_uids state)))) by lia.
  destruct (selects state sequence is_uid pos uid) eqn:Es.
  - rewrite (index_ok _ _ i) by done. cbn [res_bind].
    destruct (IH (S pos) (<[i := mkImapId uid (Z.of_nat pos + 1)]> ids) Hd') as (m & Em & Hm).
    { intros id r. destruct (decide (id = i)) as [->|Hne]; [|rewrite lookup_insert_ne by done].
      - intros _. exists pos. split; [lia | done].
      - intros (p & Hp & Hid)%Hids. exists p. split; [lia | done]. }
    exists m. split; [done|]. intros id r. rewrite Hm. destruct (decide (id = i)) as [->|Hne].
    + rewrite lookup_insert_eq. split.
      * intros [[= <-]|(p & Hp & Hid & _)].
        -- right. exists pos. cbn. split_and!; try done.
        -- pose proof (list.NoDup_lookup _ _ _ _ Hni Hi Hid). lia.
      * intros [(p & Hp & Hid)%Hids|(p & Hp & Hid & Hu & Hs & _)].
        -- pose proof (list.NoDup_lookup _ _ _ _ Hni Hi Hid). lia.
        -- pose proof (list.NoDup_lookup _ _ _ _ Hni Hi Hid) as <-. left. f_equal.
           destruct r as [ru rs]. cbn in *. by simplify_eq.
    + rewrite lookup_insert_ne by done. split; (intros [?|(p & Hp & Hid & Hrest)]; [by left|right]).
      * exists p. split; [lia | done].
      * exists p. split; [|done]. destruct (decide (p = pos)) as [->|]; [by simplify_eq | lia].
  - destruct (IH (S pos) ids Hd') as (m & Em & Hm).
    { intros id r (p & Hp & Hid)%Hids. exists p. split; [lia | done]. }
    exists m. split; [done|]. intros id r. rewrite Hm.
    split; (intros [?|(p & Hp & Hid & Hu & Hs & Hsel)]; [by left|right]).
    + exists p. split; [lia | done].
    + exists p. split; [|done]. destruct (decide (p = pos)) as [->|]; [|lia].
      rewrite Hpos in Hu. simplify_eq. congruence.
Qed.

(** *** Removals *)
Fixpoint gone (imap_uids : list Z) (pos : nat) (old : list Z) : list ImapId :=
  match old with
  | [] => []
  | uid :: old' =>
      if bool_decide (uid ∈ imap_uids) then gone imap_uids (S pos) old'
      else mkImapId uid (wrap32 (Z.of_nat pos + 1)) :: gone imap_uids (S pos) old'
  end.

Lemma removal_loop_spec uids pos old nj nu dels :
  removal_loop uids pos old nj nu dels =
  (nj ++ map fst (filter (fun p => p.2 ∈ uids) old), nu ++ map snd (filter (fun p => p.2 ∈ uids) old),
   dels ++ gone uids pos (map snd old)).
Proof.
  revert pos nj nu dels; induction old as [|[j u] old IH]; intros pos nj nu dels; cbn [removal_loop gone map snd].
  - by rewrite !app_nil_r.
  - rewrite filter_cons. cbn [snd]. case_bool_decide as Hd; rewrite IH.
    + rewrite decide_True by done. cbn [map fst snd]. by rewrite <- !app_assoc.
    + rewrite decide_False by done. by rewrite <- !app_assoc.
Qed.

(** The EXPUNGE responses bring the client's view to the remaining messages. *)
Lemma client_expunges_gone uids rest kept pos d :
  Z.of_nat (pos + length rest) < 2 ^ 32 -> 0 <= d -> Z.of_nat pos = Z.of_nat (length kept) + d ->
  client_expunges (kept ++ rest) (expunge_numbers d (map id_seqnum (gone uids pos rest))) =
  kept ++ filter (fun u => u ∈ uids) rest.
Proof.
  revert kept pos d; induction rest as [|u rest IH]; intros kept pos d Hsm Hd Hpos; cbn [gone]; [done|].
  cbn [length] in Hsm. rewrite filter_cons. case_bool_decide as Hu.
  - rewrite decide_True by done. specialize (IH (kept ++ [u]) (S pos) d).
    rewrite <- !app_assoc in IH. apply IH; [lia|done|]. rewrite length_app. cbn. lia.
  - rewrite decide_False by done. cbn [map expunge_numbers id_seqnum client_expunges foldl].
    rewrite !wrap32_id by lia.
    replace (Z.max 0 (Z.of_nat pos + 1 - d)) with (Z.of_nat (length kept) + 1) by lia.
    unfold client_expunge at 2. replace (1 <=? Z.of_nat (length kept) + 1) with true by lia.
    replace (Z.to_nat (Z.of_nat (length kept) + 1) - 1)%nat with (length kept) by lia.
    replace (Z.to_nat (Z.of_nat (length kept) + 1)) with (length kept + 1)%nat by lia.
    rewrite take_app_length, <- drop_drop, drop_app_length. cbn [drop]. apply (IH kept (S pos) (d + 1)); lia.
Qed.

(** *** Insertions *)
Lemma insertion_loop_spec {E} uids jids pos state b :
  length (drop pos uids) = length jids -> NoDup (drop pos uids) ->
  exists state' b',
    insertion_loop (E := E) uids pos jids state b = Ok (state', b') /\
    let new := filter (fun p => p.2 ∉ md_imap_uids state) (zip jids (drop pos uids)) in
    md_jmap_ids state' = md_jmap_ids state ++ map fst new /\
    md_imap_uids state' = md_imap_uids state ++ map snd new /\
    md_total_messages state' = (md_total_messages state + length new)%nat /\
    b' = b || bool_decide (new <> []).
Proof.
  revert pos state b; induction jids as [|j jids IH]; intros pos state b Hlen Hn; cbn [insertion_loop zip_with].
  { exists state, b. cbn. rewrite !app_nil_r, Nat.add_0_r, orb_false_r. done. }
  destruct (drop pos uids) as [|u us] eqn:Ed; [done|]. cbn [length] in Hlen. apply list.NoDup_cons in Hn as [Hu Hn].
  assert (Hpos : uids !! pos = Some u).
  { rewrite <- (Nat.add_0_r pos), <- lookup_drop, Ed. done. }
  assert (Ed' : drop (S pos) uids = us).
  { replace (S pos) with (pos + 1)%nat by lia. rewrite <- drop_drop, Ed. done. }
  rewrite (index_ok _ _ u) by done. cbn [res_bind zip_with]. rewrite filter_cons. cbn [snd].
  case_bool_decide as Hd.
  - rewrite decide_False by auto. destruct (IH (S pos) state b) as (s' & b' & Er & Hs); rewrite ?Ed'; [lia|done|].
    rewrite Ed' in Hs. eauto.
  - rewrite decide_True by done.
    set (st1 := mkMailboxData _ _ (md_jmap_ids state ++ [j]) (md_imap_uids state ++ [u]) _ _).
    destruct (IH (S pos) st1 true) as (s' & b' & Er & Hs); rewrite ?Ed'; [lia|done|].
    exists s', b'. split; [done|]. rewrite Ed' in Hs. cbn zeta in *.
    assert (Ef : filter (fun p : str * Z => p.2 ∉ md_imap_uids st1) (zip jids us) =
                 filter (fun p : str * Z => p.2 ∉ md_imap_uids state) (zip jids us)).
    { apply filter_ext_in. intros [j' u'] Hin. cbn. rewrite not_elem_of_app, list_elem_of_singleton.
      apply list_elem_of_In, in_combine_r, list_elem_of_In in Hin. split; [tauto|]. intros ?. split; [done|].
      by intros ->. }
    rewrite Ef in Hs. destruct Hs as (-> & -> & -> & ->). cbn [map fst snd length st1 md_jmap_ids md_imap_uids md_total_messages].
    rewrite <- !app_assoc. split_and!; [done|done|lia|]. rewrite orb_true_l. symmetry. apply orb_true_iff. right. by apply bool_decide_eq_true.
Qed.

Definition pairs (state : MailboxData) : list (str * Z) := zip (md_jmap_ids state) (md_imap_uids state).

Lemma zip_snd {A B} (l : list A) (k : list B) : length l = length k -> map snd (zip l k) = k.
Proof. revert k; induction l as [|x l IH]; intros [|y k] E; try done. cbn. f_equal. apply IH. by injection E. Qed.
Lemma zip_fst {A B} (l : list A) (k : list B) : length l = length k -> map fst (zip l k) = l.
Proof. revert k; induction l as [|x l IH]; intros [|y k] E; try done. cbn. f_equal. apply IH. by injection E. Qed.
Lemma zip_maps {A B} (l : list (A * B)) : zip (map fst l) (map snd l) = l.
Proof. induction l as [|[x y] l IH]; [done|]. cbn. by rewrite IH. Qed.
Lemma filter_map_snd {A B} (P : B -> Prop) `{!forall x, Decision (P x)} `{!forall p : A * B, Decision (P p.2)}
    (l : list (A * B)) :
  map snd (filter (fun p => P p.2) l) = filter P (map snd l).
Proof.
  induction l as [|[x y] l IH]; [done|]. cbn [map snd]. rewrite !filter_cons. cbn [snd].
  repeat case_decide; cbn [map snd] in *; try done; by f_equal.
Qed.

Lemma gone_nil uids pos old : gone uids pos old = [] <-> filter (fun u => u ∉ uids) old = [].
Proof.
  revert pos; induction old as [|u old IH]; intros pos; cbn [gone]; [done|].
  rewrite filter_cons. case_bool_decide; [rewrite decide_False by tauto; apply IH|].
  rewrite decide_True by done. done.
Qed.

Lemma filter_all {A} (P : A -> Prop) `{!forall x, Decision (P x)} (l : list A) :
  filter (fun x => ~ P x) l = [] -> filter P l = l.
Proof.
  induction l as [|x l IH]; [done|]. rewrite !filter_cons. repeat case_decide; try done; try tauto.
  intros E. by rewrite IH.
Qed.

Lemma length_gone uids pos old :
  (length (gone uids pos old) + length (filter (fun u => u ∈ uids) old))%nat = length old.
Proof.
  revert pos; induction old as [|u old IH]; intros pos; cbn [gone]; [done|]. rewrite filter_cons.
  case_bool_decide; [rewrite decide_True by done | rewrite decide_False by done]; cbn [length]; specialize (IH (S pos)); lia.
Qed.

(** ** Theorems *)

Lemma sequence_to_jmap_ids state saved sequence is_uid :
  aligned state -> is_saved_search sequence = false ->
  exists m, sequence_to_jmap state saved sequence is_uid = Ok m /\
    forall id r, m !! id = Some r <->
      exists pos, md_jmap_ids state !! pos = Some id /\ md_imap_uids state !! pos = Some (id_uid r) /\
                  id_seqnum r = Z.of_nat pos + 1 /\ selects state sequence is_uid pos (id_uid r) = true.
Proof.
  intros Hal Hss. unfold sequence_to_jmap. rewrite Hss. cbn [negb].
  destruct (list.last (md_imap_uids state)) as [mx|] eqn:El.
  - destruct (match_loop_spec state sequence is_uid 0 (md_imap_uids state) ∅ Hal) as (m & Em & Hm);
      [done | by intros ? ? ?%lookup_empty_Some |].
    rewrite El in Em. exists m. split; [exact Em|]. intros id r. rewrite Hm, lookup_empty. split.
    + intros [?|(p & _ & Hp)]; [done | eauto].
    + intros (p & Hp). right. exists p. split; [lia | done].
  - exists ∅. split; [done|]. intros id r. rewrite lookup_empty. split; [done|].
    intros (p & _ & Hp & _). apply last_None in El. by rewrite El in Hp.
Qed.

(** A sequence set names exactly the messages whose sequence number (or
    UID) it contains, the largest number of the mailbox standing for ["*"];
    each comes with its UID and its sequence number, and no lookup of the
    snapshot is out of bounds. *)
Theorem sequence_to_jmap_spec state saved sequence is_uid :
  aligned state -> is_saved_search sequence = false ->
  exists m, sequence_to_jmap state saved sequence is_uid = Ok m /\
    forall id r, m !! id = Some r <->
      exists pos, md_jmap_ids state !! pos = Some id /\ md_imap_uids state !! pos = Some (id_uid r) /\
                  id_seqnum r = Z.of_nat pos + 1 /\ selects state sequence is_uid pos (id_uid r) = true.
Proof. apply sequence_to_jmap_ids. Qed.

(** The snapshot, its size and the deletions after a resynchronization. *)
Lemma synchronize_uids_result {E} state jmap_ids imap_uids :
  aligned state -> md_total_messages state = length (md_imap_uids state) ->
  length jmap_ids = length imap_uids -> NoDup imap_uids ->
  let keep := filter (fun p => p.2 ∈ imap_uids) (pairs state) in
  let new := filter (fun p => p.2 ∉ md_imap_uids state) (zip jmap_ids imap_uids) in
  let dels := gone imap_uids 0 (md_imap_uids state) in
  exists state',
    synchronize_uids (E := E) state jmap_ids imap_uids true =
      Ok (state', if bool_decide (new <> []) || bool_decide (dels <> []) then Some (md_total_messages state') else None,
          if decide (dels = []) then None else Some dels) /\
    md_jmap_ids state' = map fst (keep ++ new) /\ md_imap_uids state' = map snd (keep ++ new) /\
    md_total_messages state' = length (keep ++ new).
Proof.
  intros Hal Htot Hlen Hn keep new dels. pose proof (al_length _ Hal) as Hl.
  unfold synchronize_uids. rewrite removal_loop_spec. cbn [app]. rewrite zip_snd by done.
  fold (pairs state). fold keep. fold dels.
  set (st0 := mkMailboxData _ _ (map fst keep) (map snd keep) _ _).
  destruct (insertion_loop_spec (E := E) imap_uids jmap_ids 0 st0 false) as (st' & b' & Er & Hs); [done|done|].
  rewrite Er. cbn [res_bind fst snd]. cbn zeta in Hs. change (drop 0 imap_uids) with imap_uids in Hs.
  assert (Hkeep : map snd keep = filter (fun u => u ∈ imap_uids) (md_imap_uids state)).
  { unfold keep. etransitivity; [apply (filter_map_snd (fun u => u ∈ imap_uids))|].
    unfold pairs. by rewrite zip_snd. }
  rewrite (filter_ext_in (fun p => p.2 ∉ md_imap_uids st0) (fun p => p.2 ∉ md_imap_uids state)) in Hs.
  2: { intros [j u] Hin%list_elem_of_In%in_combine_r%list_elem_of_In. cbn. rewrite Hkeep, list_elem_of_filter. tauto. }
  fold new in Hs. destruct Hs as (Hj & Hu & Ht & ->). exists st'. rewrite !map_app. split_and!; [|done|done|].
  - rewrite orb_false_l. destruct (decide (dels = [])) as [Ed|Ed].
    + rewrite (bool_decide_false (is_Some (@None (list ImapId)))) by (by intros [? ?]).
      rewrite (bool_decide_false (dels <> [])); [done | by intros Hd].
    + rewrite (bool_decide_true (is_Some (Some dels))) by done.
      by rewrite (bool_decide_true (dels <> [])).
  - rewrite Ht, length_app. cbn [st0 md_total_messages]. rewrite Htot.
    pose proof (length_gone imap_uids 0 (md_imap_uids state)) as Hg. fold dels in Hg.
    rewrite <- Hkeep, length_map in Hg. lia.
Qed.

(** Resynchronizing keeps the client in step: the removal numbers of the
    EXPUNGE responses, applied in order to what the client knew, leave exactly
    the messages that remain; the new ones follow at the end, and their number
    is announced whenever anything changed.  When the new UIDs are ascending
    and larger than the known ones, the snapshot becomes the given list. *)
Theorem synchronize_uids_client {E} state jmap_ids imap_uids :
  aligned state -> md_total_messages state = length (md_imap_uids state) ->
  length jmap_ids = length imap_uids -> NoDup imap_uids ->
  exists state' total deletions,
    synchronize_uids (E := E) state jmap_ids imap_uids true = Ok (state', total, deletions) /\
    let view := client_expunges (md_imap_uids state)
                  (expunge_numbers 0 (map id_seqnum (default [] deletions))) in
    let added := filter (fun u => u ∉ md_imap_uids state) imap_uids in
    view = filter (fun u => u ∈ imap_uids) (md_imap_uids state) /\
    md_imap_uids state' = view ++ added /\
    pairs state' = filter (fun p => p.2 ∈ imap_uids) (pairs state) ++
                   filter (fun p => p.2 ∉ md_imap_uids state) (zip jmap_ids imap_uids) /\
    match total with
    | Some n => n = length (md_imap_uids state')
    | None => md_imap_uids state' = md_imap_uids state
    end /\
    (StronglySorted Z.lt (md_imap_uids state) -> StronglySorted Z.lt imap_uids ->
     (forall u o, u ∈ added -> o ∈ md_imap_uids state -> o < u) -> md_imap_uids state' = imap_uids).
Proof.
  intros Hal Htot Hlen Hn.
  destruct (synchronize_uids_result (E := E) state jmap_ids imap_uids Hal Htot Hlen Hn) as (st' & Er & Hj & Hu & Ht).
  pose proof (al_length _ Hal) as Hl. pose proof (al_small _ Hal) as Hsm.
  set (keep := filter (fun p => p.2 ∈ imap_uids) (pairs state)) in *.
  set (new := filter (fun p => p.2 ∉ md_imap_uids state) (zip jmap_ids imap_uids)) in *.
  set (dels := gone imap_uids 0 (md_imap_uids state)) in *.
  assert (Hkeep : map snd keep = filter (fun u => u ∈ imap_uids) (md_imap_uids state)).
  { unfold keep. etransitivity; [apply (filter_map_snd (fun u => u ∈ imap_uids))|]. unfold pairs. by rewrite zip_snd. }
  assert (Hnew : map snd new = filter (fun u => u ∉ md_imap_uids state) imap_uids).
  { unfold new. etransitivity; [apply (filter_map_snd (fun u => u ∉ md_imap_uids state))|]. by rewrite zip_snd. }
  assert (Hview : client_expunges (md_imap_uids state) (expunge_numbers 0 (map id_seqnum dels)) = map snd keep).
  { rewrite Hkeep. apply (client_expunges_gone imap_uids (md_imap_uids state) [] 0 0); [cbn; lia | done | done]. }
  eexists st', _, _. split; [exact Er|]. cbn zeta.
  replace (default [] (if decide (dels = []) then None else Some dels)) with dels by by case_decide.
  rewrite Hview, <- Hnew. split; [done|]. split; [by rewrite Hu, map_app|]. split; [|split].
  - unfold pairs at 1. rewrite Hj, Hu. apply zip_maps.
  - case_match eqn:Ec; [by rewrite Ht, Hu, length_map|]. apply orb_false_iff in Ec as [En Ed].
    apply bool_decide_eq_false, dec_stable in En, Ed. rewrite Hu, En, app_nil_r, Hkeep.
    apply filter_all. by apply (gone_nil imap_uids 0).
  - intros Hso Hsn Hgt. rewrite Hu, map_app, Hkeep, Hnew. apply (sorted_unique Z.lt); [lia|lia| |done|].
    + apply sorted_app; [by apply filter_sorted | by apply filter_sorted |].
      intros x y [_ Hx]%list_elem_of_filter Hy. apply (Hgt y x); [by rewrite Hnew | done].
    + intros u. rewrite elem_of_app, !list_elem_of_filter. destruct (decide (u ∈ md_imap_uids state)); tauto.
Qed.

(** ** Witnesses *)
Definition demo_state : MailboxData := mkMailboxData 6 1 [b "a"; b "c"; b "e"] [1; 3; 5] 3 [].

Lemma demo_state_aligned : aligned demo_state.
Proof. split; [done|..]; refine (bool_decide_eq_true_1 _ _); vm_compute; reflexivity. Qed.

Lemma sequence_to_jmap_spec_witness :
  is_saved_search (Range (Some 2) None) = false /\
  exists m, sequence_to_jmap demo_state SavedNone (Range (Some 2) None) false = Ok m /\
            m !! b "e" = Some (mkImapId 5 3).
Proof.
  split; [reflexivity|].
  destruct (sequence_to_jmap_spec demo_state SavedNone (Range (Some 2) None) false demo_state_aligned eq_refl)
    as (m & E & Hm).
  exists m. split; [exact E|]. apply Hm. exists 2%nat. vm_compute. repeat split; reflexivity.
Defined.

Lemma synchronize_uids_client_witness :
  exists state' total deletions,
    synchronize_uids (E := unit) demo_state [b "a"; b "e"; b "g"] [1; 5; 7] true = Ok (state', total, deletions) /\
    client_expunges [1; 3; 5] (expunge_numbers 0 (map id_seqnum (default [] deletions))) = [1; 5] /\
    md_imap_uids state' = [1; 5; 7].
Proof.
  destruct (synchronize_uids_client (E := unit) demo_state [b "a"; b "e"; b "g"] [1; 5; 7] demo_state_aligned eq_refl eq_refl)
    as (st & n & ds & E & Hv & Hu & _).
  - refine (bool_decide_eq_true_1 _ _). vm_compute. reflexivity.
  - exists st, n, ds. split; [exact E|]. split; [exact Hv|]. rewrite Hu. cbn [md_imap_uids demo_state] in Hv |- *.
    rewrite Hv. vm_compute. reflexivity.
Defined.

(** A saved search keeps sequence numbers.  After another client removed a
    message, they are stale: the lookup returns another message, or is out of
    bounds. *)
Lemma saved_search_stale :
  let before := mkMailboxData 4 1 [b "a"; b "b"; b "c"] [1; 2; 3] 3 [] in
  let after := mkMailboxData 4 1 [b "b"; b "c"] [2; 3] 2 [] in
  (match sequence_to_jmap before (Results [mkImapId 2 2]) Sequence.SavedSearch false with
   | Ok m => m !! b "b" = Some (mkImapId 2 2) | _ => False end) /\
  (match sequence_to_jmap after (Results [mkImapId 2 2]) Sequence.SavedSearch false with
   | Ok m => m !! b "c" = Some (mkImapId 2 2) /\ m !! b "b" = None | _ => False end) /\
  sequence_to_jmap after (Results [mkImapId 3 3]) Sequence.SavedSearch false = Panic.
Proof. vm_compute. repeat split. Qed.
