(* ===== verification/Responses.v ===== *)
(** * Untagged responses

    The serializers of [src/protocol/list.rs], [status.rs], [select.rs],
    [search.rs], [thread.rs], [namespace.rs] and [acl.rs], with the access
    rights of [acl.rs] and the loop of [src/commands/acl.rs] that collects
    them.  The specifications are readers: what a client does to get the data
    back from the bytes. *)

From S2P Require Import Prelude Utf8 Utf7 Types Sequence Flags Wire Commands Parsers.

(** [if pos > 0 { buf.push(b' ') }] in a loop *)
Fixpoint separated (xs : list bytes) : bytes :=
  match xs with
  | [] => []
  | [x] => x
  | x :: xs' => x ++ SP :: separated xs'
  end.

(** ** LIST and LSUB *)
Inductive Attribute :=
| NoInferiors | NoSelect | Marked | Unmarked | AttrNonExistent | AttrHasChildren | HasNoChildren
| Subscribed | Remote | AttrAll | Archive | Drafts | AttrFlagged | AttrJunk | Sent | Trash
| AttrImportant.

#[export] Instance Attribute_eq_dec : EqDecision Attribute.
Proof. solve_decision. Defined.

Inductive ChildInfo := ChildSubscribed.

Inductive Tag :=
| TagChildInfo (infos : list ChildInfo)
| OldName (old_name : str).

Record ListItem := mkListItem { li_mailbox_name : str; li_attributes : list Attribute; li_tags : list Tag }.

Definition is_separator_query (a : ListArguments) : bool :=
  match a with
  | ListBasic _ reference_name mailbox_name =>
      bool_decide (mailbox_name = []) && bool_decide (reference_name = [])
  | ListExtended_ _ reference_name mailbox_name _ _ =>
      bool_decide (mailbox_name = []) && bool_decide (reference_name = [])
  end.

Definition attribute_is_rev1 (a : Attribute) : bool :=
  match a with NoInferiors | NoSelect | Marked | Unmarked => true | _ => false end.

Definition attribute_serialize (a : Attribute) : bytes :=
  match a with
  | NoInferiors => b "\NoInferiors"
  | NoSelect => b "\NoSelect"
  | Marked => b "\Marked"
  | Unmarked => b "\Unmarked"
  | AttrNonExistent => b "\NonExistent"
  | AttrHasChildren => b "\HasChildren"
  | HasNoChildren => b "\HasNoChildren"
  | Subscribed => b "\Subscribed"
  | Remote => b "\Remote"
  | AttrAll => b "\All"
  | Archive => b "\Archive"
  | Drafts => b "\Drafts"
  | AttrFlagged => b "\Flagged"
  | AttrJunk => b "\Junk"
  | Sent => b "\Sent"
  | Trash => b "\Trash"
  | AttrImportant => b "\Important"
  end.

Definition child_info_serialize (c : ChildInfo) : bytes :=
  DQUOTE :: match c with ChildSubscribed => b "SUBSCRIBED" end ++ [DQUOTE].

Definition tag_serialize (t : Tag) : bytes :=
  match t with
  | TagChildInfo infos =>
      DQUOTE :: b "CHILDINFO" ++ DQUOTE :: b " (" ++ separated (map child_info_serialize infos) ++ b ")"
  | OldName old_name =>
      DQUOTE :: b "OLDNAME" ++ DQUOTE :: b " (" ++ quoted_string old_name ++ b ")"
  end.

Definition list_item_serialize (item : ListItem) (is_rev2 is_lsub : bool) : bytes :=
  let normalized_mailbox_name := utf7_encode (li_mailbox_name item) in
  let differs := negb (bytes_eqb normalized_mailbox_name (li_mailbox_name item)) in
  let extra_tags := if differs && is_rev2 then [OldName normalized_mailbox_name] else [] in
  (if negb is_lsub then b "* LIST (" else b "* LSUB (") ++
  separated (map attribute_serialize (li_attributes item)) ++
  b ") " ++ [DQUOTE] ++ b "/" ++ [DQUOTE] ++ b " " ++
  (if differs then
     if is_rev2 then quoted_string (li_mailbox_name item) else quoted_string normalized_mailbox_name
   else quoted_string (li_mailbox_name item)) ++
  (if negb (bool_decide (extra_tags = [])) || negb (bool_decide (li_tags item = [])) then
     b " (" ++ separated (map tag_serialize (extra_tags ++ li_tags item)) ++ b ")" ++ CRLF
   else CRLF).

(** ** STATUS *)
Inductive StatusItemType := StatusNumber (n : Z) | StatusString (s : str).
Record StatusItem := mkStatusItem { si_mailbox_name : str; si_items : list (Status * StatusItemType) }.

Definition status_name (s : Status) : bytes :=
  match s with
  | StMessages => b "MESSAGES "
  | StUidNext => b "UIDNEXT "
  | StUidValidity => b "UIDVALIDITY "
  | StUnseen => b "UNSEEN "
  | StDeleted => b "DELETED "
  | StSize => b "SIZE "
  | StHighestModSeq => b "HIGHESTMODSEQ "
  | StMailboxId => b "MAILBOXID "
  | StRecent => b "RECENT "
  end.

Definition status_value_serialize (v : StatusItemType) : bytes :=
  match v with StatusNumber num => dec num | StatusString s => b "(" ++ s ++ b ")" end.

Definition status_item_serialize (item : StatusItem) (is_rev2 : bool) : bytes :=
  b "* STATUS " ++
  (if is_rev2 then quoted_string (si_mailbox_name item) else quoted_string (utf7_encode (si_mailbox_name item))) ++
  b " (" ++ separated (map (fun '(s, v) => status_name s ++ status_value_serialize v) (si_items item)) ++
  b ")" ++ CRLF.

Record ListResponse := mkListResponse {
  lr_is_rev2 : bool; lr_is_lsub : bool; lr_list_items : list ListItem; lr_status_items : list StatusItem }.

Definition list_response_serialize (r : ListResponse) : bytes :=
  flat_map (fun i => list_item_serialize i (lr_is_rev2 r) (lr_is_lsub r)) (lr_list_items r) ++
  flat_map (fun i => status_item_serialize i (lr_is_rev2 r)) (lr_status_items r).

(** ** SELECT *)
Record SelectResponse := mkSelectResponse {
  sel_mailbox : ListItem; sel_total_messages : Z; sel_recent_messages : Z; sel_unseen_seq : Z;
  sel_uid_validity : Z; sel_uid_next : Z; sel_is_rev2 : bool; sel_closed_previous : bool;
  sel_highest_modseq : option Z; sel_mailbox_id : str }.

Definition exists_serialize (total_messages : Z) : bytes :=
  b "* " ++ dec total_messages ++ b " EXISTS" ++ CRLF.

Definition select_response_serialize `{DebugFmt} (r : SelectResponse) : bytes :=
  (if sel_closed_previous r then
     status_serialize (with_code (sr_ok (msg "Closed previous mailbox")) Closed) else []) ++
  b "* " ++ dec (sel_total_messages r) ++
  b " EXISTS" ++ CRLF ++ b "* FLAGS (\Answered \Flagged \Deleted \Seen \Draft)" ++ CRLF ++
  (if sel_is_rev2 r then list_item_serialize (sel_mailbox r) (sel_is_rev2 r) false
   else b "* " ++ dec (sel_recent_messages r) ++ b " RECENT" ++ CRLF ++
        (if 0 <? sel_unseen_seq r then
           b "* OK [UNSEEN " ++ dec (sel_unseen_seq r) ++ b "] Unseen messages" ++ CRLF else [])) ++
  b "* OK [PERMANENTFLAGS (\Deleted \Seen \Answered \Flagged \Draft \*)] All allowed" ++ CRLF ++
  b "* OK [UIDVALIDITY " ++ dec (sel_uid_validity r) ++
  b "] UIDs valid" ++ CRLF ++ b "* OK [UIDNEXT " ++ dec (sel_uid_next r) ++ b "] Next predicted UID" ++ CRLF ++
  (match sel_highest_modseq r with
   | Some highest_modseq => b "* OK [HIGHESTMODSEQ " ++ dec highest_modseq ++ b "] Highest Modseq" ++ CRLF
   | None => []
   end) ++
  b "* OK [MAILBOXID (" ++ sel_mailbox_id r ++ b ")] Unique Mailbox ID" ++ CRLF.

(** ** SEARCH, SORT, ESEARCH and THREAD *)
Record SearchResponse := mkSearchResponse {
  sr_is_uid : bool; sr_is_esearch : bool; sr_is_sort : bool; sr_ids : list Z;
  sr_min : option Z; sr_max : option Z; sr_count : option Z; sr_highest_modseq : option Z }.

Definition search_item (name : bytes) (value : option Z) : bytes :=
  match value with Some n => b " " ++ name ++ b " " ++ dec n | None => [] end.

Definition search_serialize (r : SearchResponse) (tag : str) : bytes :=
  (if sr_is_esearch r then
     b "* ESEARCH (TAG " ++ quoted_string tag ++ b ")" ++
     (if sr_is_uid r then b " UID" else []) ++
     search_item (b "COUNT") (sr_count r) ++
     search_item (b "MIN") (sr_min r) ++
     search_item (b "MAX") (sr_max r) ++
     (if negb (bool_decide (sr_ids r = [])) then b " ALL " ++ serialize_sequence (sr_ids r) else []) ++
     search_item (b "MODSEQ") (sr_highest_modseq r)
   else
     (if negb (sr_is_sort r) then b "* SEARCH" else b "* SORT") ++
     flat_map (fun id => b " " ++ dec id) (sr_ids r) ++
     (match sr_highest_modseq r with Some m => b " (MODSEQ " ++ dec m ++ b ")" | None => [] end)) ++
  CRLF.

Definition thread_serialize (threads : list (list Z)) : bytes :=
  b "* THREAD " ++ flat_map (fun thread => b "(" ++ separated (map dec thread) ++ b ")") threads ++ CRLF.

(** ** NAMESPACE *)
Definition namespace_serialize (shared_prefix : option str) : bytes :=
  let Q := [DQUOTE] in
  match shared_prefix with
  | Some shared_prefix =>
      b "* NAMESPACE ((" ++ Q ++ Q ++ b " " ++ Q ++ b "/" ++ Q ++ b ")) ((" ++ quoted_string shared_prefix ++
      b " " ++ Q ++ b "/" ++ Q ++ b ")) NIL" ++ CRLF
  | None => b "* NAMESPACE ((" ++ Q ++ Q ++ b " " ++ Q ++ b "/" ++ Q ++ b ")) NIL NIL" ++ CRLF
  end.

(** ** Access rights *)

(** The access rights of the JMAP client library. *)
Inductive ACL :=
| AclRead | AclModify | AclDelete | AclReadItems | AclAddItems | AclModifyItems | AclRemoveItems
| AclCreateChild | AclAdminister | AclSubmit.

Definition from_acl (value : ACL) : Rights * option Rights :=
  match value with
  | AclRead => (Lookup, None)
  | AclModify => (CreateMailbox, None)
  | AclDelete => (DeleteMailbox, None)
  | AclReadItems => (Read, None)
  | AclAddItems => (Insert, None)
  | AclModifyItems => (Write, Some RSeen)
  | AclRemoveItems => (DeleteMessages, Some RExpunge)
  | AclCreateChild => (CreateMailbox, None)
  | AclAdminister => (Administer, None)
  | AclSubmit => (Post, None)
  end.

Definition into_acl (r : Rights) : ACL :=
  match r with
  | Lookup => AclRead
  | Read => AclReadItems
  | RSeen => AclModifyItems
  | Write => AclModifyItems
  | Insert => AclAddItems
  | Post => AclSubmit
  | CreateMailbox => AclCreateChild
  | DeleteMailbox => AclDelete
  | DeleteMessages => AclRemoveItems
  | RExpunge => AclRemoveItems
  | Administer => AclAdminister
  end.

Definition to_char (r : Rights) : Z :=
  match r with
  | Lookup => 108 | Read => 114 | RSeen => 115 | Write => 119 | Insert => 105 | Post => 112
  | CreateMailbox => 107 | DeleteMailbox => 120 | DeleteMessages => 116 | RExpunge => 101 | Administer => 97
  end.

(** The rights of one identifier in [handle_get_acl]. *)
Fixpoint acl_rights (acls : list ACL) (rights : list Rights) : list Rights :=
  match acls with
  | [] => rights
  | acl :: acls' =>
      let '(right_, other_right) := from_acl acl in
      let rights := push_unique rights right_ in
      acl_rights acls' (match other_right with Some other_right => push_unique rights other_right | None => rights end)
  end.

(** What the JMAP server says the user may do. *)
Record MailboxRights := mkMailboxRights {
  may_read_items : bool; may_add_items : bool; may_remove_items : bool; may_set_seen : bool;
  may_set_keywords : bool; may_create_child : bool; may_rename : bool; may_delete : bool; may_submit : bool }.

Definition as_imap_rights (m : MailboxRights) : list Rights :=
  (if may_read_items m then [Read; Lookup] else []) ++
  (if may_add_items m then [Insert] else []) ++
  (if may_remove_items m then [DeleteMessages; RExpunge] else []) ++
  (if may_set_seen m then [RSeen] else []) ++
  (if may_set_keywords m then [Write] else []) ++
  (if may_create_child m then [CreateMailbox] else []) ++
  (if may_rename m then [DeleteMailbox] else []) ++
  (if may_delete m then [DeleteMailbox] else []) ++
  (if may_submit m then [Post] else []).

Definition acl_name (is_rev2 : bool) (mailbox_name : str) : bytes :=
  if is_rev2 then quoted_string mailbox_name else quoted_string (utf7_encode mailbox_name).

Definition get_acl_serialize (mailbox_name : str) (permissions : list (str * list Rights)) (is_rev2 : bool) : bytes :=
  b "* ACL " ++ acl_name is_rev2 mailbox_name ++
  flat_map (fun '(identifier, rights) => b " " ++ quoted_string identifier ++ b " " ++ map to_char rights) permissions ++
  CRLF.

Definition list_rights_serialize (mailbox_name identifier : str) (permissions : list (list Rights)) (is_rev2 : bool)
  : bytes :=
  b "* LISTRIGHTS " ++ acl_name is_rev2 mailbox_name ++ b " " ++ quoted_string identifier ++
  flat_map (fun rights => b " " ++ map to_char rights) permissions ++ CRLF.

Definition my_rights_serialize (mailbox_name : str) (rights : list Rights) (is_rev2 : bool) : bytes :=
  b "* MYRIGHTS " ++ acl_name is_rev2 mailbox_name ++ b " " ++ map to_char rights ++ CRLF.

(** ** Readers *)

(** A quoted string and what follows it. *)
Fixpoint unquote_body (s : bytes) : option (bytes * bytes) :=
  match s with
  | [] => None
  | c :: s' =>
      if c =? DQUOTE then Some ([], s')
      else if c =? BACKSLASH then
        match s' with
        | [] => None
        | d :: s'' => '(t, r) ← unquote_body s''; Some (d :: t, r)
        end
      else '(t, r) ← unquote_body s'; Some (c :: t, r)
  end.
Definition unquote (s : bytes) : option (bytes * bytes) :=
  match s with c :: s' => if c =? DQUOTE then unquote_body s' else None | [] => None end.

(** The text up to [stop], cut at the spaces, and what follows [stop]. *)
Fixpoint read_words (stop : Z) (cur : bytes) (s : bytes) : option (list bytes * bytes) :=
  match s with
  | [] => None
  | c :: s' =>
      if c =? stop then Some ([cur], s')
      else if c =? SP then '(ws, r) ← read_words stop [] s'; Some (cur :: ws, r)
      else read_words stop (cur ++ [c]) s'
  end.

Definition all_attributes : list Attribute :=
  [NoInferiors; NoSelect; Marked; Unmarked; AttrNonExistent; AttrHasChildren; HasNoChildren; Subscribed; Remote;
   AttrAll; Archive; Drafts; AttrFlagged; AttrJunk; Sent; Trash; AttrImportant].
Definition attribute_read (x : bytes) : option Attribute :=
  List.find (fun a => bytes_eqb (attribute_serialize a) x) all_attributes.

(** A LIST or LSUB line: its kind, attributes, name on the wire and extended data. *)
Definition list_read (s : bytes) : option (bool * list Attribute * str * bytes) :=
  '(is_lsub, s) ← match strip_prefix (b "* LIST (") s with
                  | Some r => Some (false, r)
                  | None => r ← strip_prefix (b "* LSUB (") s; Some (true, r)
                  end;
  '(ws, s) ← read_words 41 [] s;
  attributes ← mapM attribute_read (List.filter (fun w => negb (bytes_eqb w [])) ws);
  s ← strip_prefix (b " " ++ [DQUOTE] ++ b "/" ++ [DQUOTE] ++ b " ") s;
  '(name, s) ← unquote s;
  Some (is_lsub, attributes, name, s).

(** The OLDNAME of RFC 9051, when the extended data starts with one. *)
Definition old_name_read (s : bytes) : option str :=
  s ← strip_prefix (b " (" ++ [DQUOTE] ++ b "OLDNAME" ++ [DQUOTE] ++ b " (") s; '(name, _) ← unquote s; Some name.

(** A SEARCH, SORT or ESEARCH line. *)
Inductive SearchLine :=
| LineNumbers (is_sort : bool) (ids : list Z) (modseq : option Z)
| LineExtended (tag : str) (is_uid : bool) (count min max : option Z) (all : option Sequence) (modseq : option Z).

Fixpoint numbers_read (ws : list bytes) : option (list Z * option Z) :=
  match ws with
  | [] => Some ([], None)
  | w :: ws' =>
      if bytes_eqb w (b "(MODSEQ") then
        match ws' with
        | [v] => n ← parse_uint 32 (removelast v); Some ([], Some n)
        | _ => None
        end
      else n ← parse_uint 32 w; '(ns, m) ← numbers_read ws'; Some (n :: ns, m)
  end.

Definition item_read (name : bytes) (ws : list bytes) : option Z * list bytes :=
  match ws with
  | w :: v :: ws' => if bytes_eqb w name then (parse_uint 32 v, ws') else (None, ws)
  | _ => (None, ws)
  end.

Definition extended_read (tag : str) (ws : list bytes) : option SearchLine :=
  let '(is_uid, ws) := match ws with
                       | w :: ws' => if bytes_eqb w (b "UID") then (true, ws') else (false, ws)
                       | [] => (false, ws)
                       end in
  let '(count, ws) := item_read (b "COUNT") ws in
  let '(min, ws) := item_read (b "MIN") ws in
  let '(max, ws) := item_read (b "MAX") ws in
  let '(all, ws) := match ws with
                    | w :: v :: ws' => if bytes_eqb w (b "ALL") then (ok_of (parse_sequence_set v), ws') else (None, ws)
                    | _ => (None, ws)
                    end in
  let '(modseq, ws) := item_read (b "MODSEQ") ws in
  if bool_decide (ws = []) then Some (LineExtended tag is_uid count min max all modseq) else None.

Definition search_read (s : bytes) : option SearchLine :=
  match strip_prefix (b "* ESEARCH (TAG ") s with
  | Some s =>
      '(tag, s) ← unquote s;
      s ← strip_prefix (b ")") s;
      '(ws, _) ← read_words CR [] s;
      extended_read tag (tail ws)
  | None =>
      '(is_sort, s) ← match strip_prefix (b "* SEARCH") s with
                      | Some s => Some (false, s)
                      | None => s ← strip_prefix (b "* SORT") s; Some (true, s)
                      end;
      '(ws, _) ← read_words CR [] s;
      '(ids, modseq) ← numbers_read (tail ws);
      Some (LineNumbers is_sort ids modseq)
  end.

(** ** Lemmas *)
Lemma unquote_body_quoted t r : unquote_body (flat_map quote_byte t ++ DQUOTE :: r) = Some (t, r).
Proof.
  induction t as [|c t IH]; cbn [flat_map app]; [done|]. unfold quote_byte at 1.
  destruct (Z.eqb_spec c BACKSLASH) as [->|Hb]; [cbn -[Z.eqb]; cbn; by rewrite IH|].
  destruct (Z.eqb_spec c DQUOTE) as [->|Hq]; [cbn; by rewrite IH|].
  cbn [orb app unquote_body]. rewrite (proj2 (Z.eqb_neq c DQUOTE)), (proj2 (Z.eqb_neq c BACKSLASH)) by done.
  by rewrite IH.
Qed.

Lemma unquote_quoted t r : unquote (quoted_string t ++ r) = Some (t, r).
Proof. unfold quoted_string, unquote. cbn [app]. rewrite Z.eqb_refl, <- app_assoc. apply unquote_body_quoted. Qed.

(** Words do not contain the separators. *)
Definition word (stop : Z) (w : bytes) : Prop := Forall (fun c => c <> SP /\ c <> stop) w.

Lemma read_word stop cur w s : word stop w -> read_words stop cur (w ++ s) = read_words stop (cur ++ w) s.
Proof.
  intros Hw. revert cur; induction Hw as [|c w [Hs Hc] Hw IH]; intros cur; cbn [app]; [by rewrite app_nil_r|].
  cbn [read_words]. rewrite (proj2 (Z.eqb_neq c stop)), (proj2 (Z.eqb_neq c SP)) by done.
  by rewrite IH, <- app_assoc.
Qed.

Lemma read_words_flat stop cur ws s :
  stop <> SP -> Forall (word stop) ws ->
  read_words stop cur (flat_map (cons SP) ws ++ stop :: s) = Some (cur :: ws, s).
Proof.
  intros Hs Hws. revert cur; induction Hws as [|w ws Hw _ IH]; intros cur; cbn [flat_map app].
  - cbn. by rewrite Z.eqb_refl.
  - rewrite <- app_assoc. cbn [app read_words].
    rewrite (proj2 (Z.eqb_neq SP stop)), Z.eqb_refl by done. rewrite read_word by done. by rewrite IH.
Qed.

Lemma separated_cons x xs : separated (x :: xs) = x ++ flat_map (cons SP) xs.
Proof.
  revert x; induction xs as [|y xs IH]; intros x; [by rewrite app_nil_r|].
  change (separated (x :: y :: xs)) with (x ++ SP :: separated (y :: xs)). by rewrite IH.
Qed.

Lemma read_separated stop xs s :
  stop <> SP -> Forall (fun w => w <> [] /\ word stop w) xs ->
  exists ws, read_words stop [] (separated xs ++ stop :: s) = Some (ws, s) /\
             List.filter (fun w => negb (bytes_eqb w [])) ws = xs.
Proof.
  intros Hs Hxs.
  assert (Hf : forall l, Forall (fun w => w <> [] /\ word stop w) l -> List.filter (fun w => negb (bytes_eqb w [])) l = l).
  { induction 1 as [|w l [Hw _] _ IH]; [done|]. cbn [List.filter]. destruct w; [done|]. cbn. by rewrite IH. }
  destruct Hxs as [|x xs [Hx Hwx] Hxs].
  - exists [[]]. cbn. by rewrite Z.eqb_refl.
  - exists (x :: xs). rewrite separated_cons, <- app_assoc, read_word by done. cbn [app].
    rewrite read_words_flat; [|done|]. 2: { eapply Forall_impl; [|exact Hxs]. by intros w [_ ?]. }
    split; [done|]. apply Hf. by constructor.
Qed.

Definition wordb (stop : Z) (w : bytes) : bool := forallb (fun c => negb (c =? SP) && negb (c =? stop)) w.
Lemma wordb_word stop w : wordb stop w = true -> word stop w.
Proof.
  unfold wordb, word. rewrite forallb_forall. intros H. apply List.Forall_forall. intros c Hc%H. lia.
Qed.

Lemma attribute_word a : attribute_serialize a <> [] /\ word 41 (attribute_serialize a).
Proof. split; [by destruct a | apply wordb_word; by destruct a]. Qed.

Lemma attributes_read attrs : mapM attribute_read (map attribute_serialize attrs) = Some attrs.
Proof.
  apply mapM_Some. induction attrs as [|a attrs IH]; constructor; [by destruct a | done].
Qed.

Lemma word_dec stop n : 0 <= n -> (stop < 48 \/ 57 < stop) -> word stop (dec n).
Proof.
  intros Hn Hs. eapply Forall_impl; [|by apply dec_all_digits]. unfold is_ascii_digit, SP. cbn. lia.
Qed.

Lemma word_run ids id r :
  Forall (fun u => 0 <= u) ids -> 0 <= r -> word CR (serialize_run id r ids).
Proof.
  assert (Hsuf : forall i r, 0 <= r -> word CR (range_suffix i r)).
  { intros i r' Hr. unfold range_suffix. case_match; [by constructor|].
    apply Forall_app. split; [by apply wordb_word | apply word_dec; unfold CR; lia]. }
  intros Hids. revert id r; induction Hids as [|n ids Hn Hids IH]; intros id r Hr; cbn [serialize_run]; [by apply Hsuf|].
  case_match; [apply IH, wrap32_nonneg|]. repeat (apply Forall_app; split).
  - by apply Hsuf.
  - by apply wordb_word.
  - apply word_dec; unfold CR; lia.
  - by apply IH.
Qed.

Lemma word_sequence ids : Forall (fun u => 0 <= u) ids -> word CR (serialize_sequence ids).
Proof.
  intros Hids. destruct Hids as [|n ids Hn Hids]; [by constructor|]. cbn [serialize_sequence].
  apply Forall_app. split; [apply word_dec; unfold CR; lia | by apply word_run].
Qed.

Lemma dec_not_modseq n : 0 <= n -> bytes_eqb (dec n) (b "(MODSEQ") = false.
Proof.
  intros Hn. destruct (dec_cons n) as (c & s & E). pose proof (dec_head_digit n c s Hn E) as Hc.
  rewrite E. destruct (bytes_eqb _ _) eqn:Eb; [|done]. apply bytes_eqb_eq in Eb. by injection Eb as -> _.
Qed.

Lemma numbers_read_dec ids modseq :
  Forall is_u32 ids -> (match modseq with Some m => is_u32 m | None => True end) ->
  numbers_read (map dec ids ++ match modseq with Some m => [b "(MODSEQ"; dec m ++ b ")"] | None => [] end) =
  Some (ids, modseq).
Proof.
  intros Hids Hm. induction Hids as [|n ids Hn Hids IH]; cbn [map app].
  - destruct modseq as [m|]; [|done]. cbn -[dec removelast]. rewrite removelast_last.
    rewrite parse_uint_dec by done. done.
  - cbn [numbers_read]. rewrite dec_not_modseq by apply Hn. rewrite parse_uint_dec by done. cbn.
    cbn in IH. by rewrite IH.
Qed.

Lemma flat_map_dec ids : flat_map (fun id => b " " ++ dec id) ids = flat_map (cons SP) (map dec ids).
Proof. induction ids as [|n ids IH]; [done|]. cbn [map flat_map]. by rewrite IH. Qed.

Definition opt_u32 (o : option Z) : Prop := match o with Some n => is_u32 n | None => True end.

Lemma words_u32 ids : Forall is_u32 ids -> Forall (word CR) (map dec ids).
Proof. induction 1 as [|n l Hn _ IH]; constructor; [apply word_dec; [apply Hn | unfold CR; lia] | done]. Qed.

Lemma numbers_line ids modseq s :
  Forall is_u32 ids -> opt_u32 modseq ->
  read_words CR [] (flat_map (fun id => b " " ++ dec id) ids ++
    (match modseq with Some m => b " (MODSEQ " ++ dec m ++ b ")" | None => [] end) ++ CR :: s) =
  Some ([] :: map dec ids ++ match modseq with Some m => [b "(MODSEQ"; dec m ++ b ")"] | None => [] end, s).
Proof.
  intros Hids Hm. rewrite flat_map_dec, app_assoc.
  rewrite <- (read_words_flat CR [] _ s); [| done |].
  2: { apply Forall_app. split; [by apply words_u32|]. destruct modseq as [m|]; [|constructor].
       constructor; [by apply wordb_word|]. constructor; [|constructor]. apply Forall_app. split; [|by apply wordb_word].
       apply word_dec; [apply Hm | unfold CR; lia]. }
  rewrite flat_map_app. f_equal. f_equal. f_equal. destruct modseq; [|done]. cbn. by rewrite app_nil_r.
Qed.

(** The words of an ESEARCH line. *)
Definition item_words (name : bytes) (value : option Z) : list bytes :=
  match value with Some n => [name; dec n] | None => [] end.

Definition extended_words (r : SearchResponse) : list bytes :=
  (if sr_is_uid r then [b "UID"] else []) ++
  item_words (b "COUNT") (sr_count r) ++ item_words (b "MIN") (sr_min r) ++ item_words (b "MAX") (sr_max r) ++
  (if bool_decide (sr_ids r = []) then [] else [b "ALL"; serialize_sequence (sr_ids r)]) ++
  item_words (b "MODSEQ") (sr_highest_modseq r).

Lemma search_item_words name value : search_item name value = flat_map (cons SP) (item_words name value).
Proof. destruct value as [n|]; [|done]. cbn. by rewrite app_nil_r. Qed.

Lemma item_read_words name value ws :
  opt_u32 value -> (forall w ws', ws = w :: ws' -> bytes_eqb w name = false) ->
  item_read name (item_words name value ++ ws) = (value, ws).
Proof.
  intros Hv Hws. destruct value as [n|]; cbn [item_words app item_read].
  - rewrite (proj2 (bytes_eqb_eq name name)) by done. by rewrite parse_uint_dec.
  - destruct ws as [|w [|v ws]]; [done|done|]. cbn. by rewrite (Hws w (v :: ws)).
Qed.

Record search_ok (r : SearchResponse) : Prop := {
  so_ids : Forall (fun u => 0 <= u < u32_max) (sr_ids r);
  so_min : opt_u32 (sr_min r);
  so_max : opt_u32 (sr_max r);
  so_count : opt_u32 (sr_count r);
  so_modseq : opt_u32 (sr_highest_modseq r)
}.

Lemma ids_u32 r : search_ok r -> Forall is_u32 (sr_ids r).
Proof. intros [H _ _ _ _]. eapply Forall_impl; [|exact H]. unfold u32_max, is_u32. cbn. lia. Qed.

Lemma item_words_word name value : word CR name -> opt_u32 value -> Forall (word CR) (item_words name value).
Proof.
  intros Hn Hv. destruct value as [n|]; [|constructor]. constructor; [done|]. constructor; [|constructor].
  apply word_dec; [apply Hv | unfold CR; lia].
Qed.

Lemma extended_words_word r : search_ok r -> Forall (word CR) (extended_words r).
Proof.
  intros Hr. destruct Hr as [Hi Hmin Hmax Hc Hm]. unfold extended_words. repeat (apply Forall_app; split);
    try (apply item_words_word; [by apply wordb_word | done]).
  - case_match; [|constructor]. constructor; [by apply wordb_word | constructor].
  - case_match; [constructor|]. constructor; [by apply wordb_word|]. constructor; [|constructor]. apply word_sequence.
    eapply Forall_impl; [|exact Hi]. cbn. lia.
Qed.

Ltac next_word_differs :=
  let w := fresh "w" in let ws' := fresh "ws'" in let E := fresh "E" in
  intros w ws' E; cbn in E; repeat case_match; cbn in E; try discriminate E; injection E as <- _; done.

Lemma extended_read_words tag r :
  search_ok r ->
  exists all, extended_read tag (extended_words r) =
    Some (LineExtended tag (sr_is_uid r) (sr_count r) (sr_min r) (sr_max r) all (sr_highest_modseq r)) /\
    match all with
    | Some s => forall v mx, contains s v mx = true <-> v ∈ sr_ids r
    | None => sr_ids r = []
    end.
Proof.
  destruct r as [uid es so ids mn mx ct ms]. intros [Hi Hmin Hmax Hc Hm]. cbn in Hi, Hmin, Hmax, Hc, Hm.
  unfold extended_words, extended_read.
  cbn [sr_is_uid sr_ids sr_min sr_max sr_count sr_highest_modseq].
  set (W := item_words (b "COUNT") ct ++ _).
  replace (match (if uid then [b "UID"] else []) ++ W with
           | w :: ws' => if bytes_eqb w (b "UID") then (true, ws') else (false, (if uid then [b "UID"] else []) ++ W)
           | [] => (false, (if uid then [b "UID"] else []) ++ W) end) with (uid, W).
  2: { destruct uid; [done|]. cbn [app]. unfold W. destruct ct, mn, mx; try done. case_bool_decide; [|done]. by destruct ms. }
  unfold W. rewrite item_read_words; [|done|destruct mn, mx; case_bool_decide; destruct ms; next_word_differs].
  rewrite item_read_words; [|done|destruct mx; case_bool_decide; destruct ms; next_word_differs].
  rewrite item_read_words; [|done|case_bool_decide; destruct ms; next_word_differs].
  case_bool_decide as Hn.
  - exists None. split; [|done]. subst ids. cbn [app].
    replace (match item_words (b "MODSEQ") ms with
             | w :: v :: ws' => if bytes_eqb w (b "ALL") then (ok_of (parse_sequence_set v), ws') else (None, item_words (b "MODSEQ") ms)
             | _ => (None, item_words (b "MODSEQ") ms) end) with (@None Sequence, item_words (b "MODSEQ") ms)
      by by destruct ms.
    rewrite <- (app_nil_r (item_words _ ms)), item_read_words by done. done.
  - destruct (sequence_reads_back ids Hn Hi) as (s & E & Hs). exists (Some s). split; [|done].
    cbn [app]. change (bytes_eqb (b "ALL") (b "ALL")) with true. rewrite E. cbn [ok_of].
    rewrite <- (app_nil_r (item_words _ ms)), item_read_words by done. done.
Qed.

(** Rights *)
Lemma right_of_char r : right_of (to_char r) = Some r.
Proof. by destruct r. Qed.

Lemma rights_loop_chars pos rs op acc :
  NoDup (acc ++ rs) -> acc ++ rs <> [] ->
  rights_loop pos (map to_char rs) op acc = Ok {| mr_op := op; mr_rights := acc ++ rs |}.
Proof.
  revert pos acc; induction rs as [|r rs IH]; intros pos acc Hn Hne; cbn [map rights_loop].
  - rewrite app_nil_r in *. by rewrite bool_decide_false.
  - rewrite right_of_char. unfold push_unique.
    rewrite bool_decide_false.
    + rewrite IH; rewrite <- app_assoc; done.
    + intros Hin. apply list.NoDup_app in Hn as (_ & Hd & _). apply (Hd r Hin). by left.
Qed.

Lemma acl_rights_elem acls acc r :
  r ∈ acl_rights acls acc <-> r ∈ acc \/ exists a, a ∈ acls /\ ((from_acl a).1 = r \/ (from_acl a).2 = Some r).
Proof.
  revert acc; induction acls as [|a acls IH]; intros acc; cbn [acl_rights].
  - split; [by left|]. intros [?|(a & Ha%elem_of_nil & _)]; done.
  - destruct (from_acl a) as [r1 o] eqn:E. rewrite IH.
    assert (Hhead : r ∈ (match o with Some o' => push_unique (push_unique acc r1) o' | None => push_unique acc r1 end)
                    <-> r ∈ acc \/ ((from_acl a).1 = r \/ (from_acl a).2 = Some r)).
    { rewrite E. cbn. destruct o; rewrite ?push_unique_elem; intuition congruence. }
    rewrite Hhead. clear IH Hhead. split.
    + intros [[?|Ha]|(x & Hx & Hr)]; [by left | right; exists a | right; exists x]; (split; [|done]); [by left | by right].
    + intros [?|(x & [->|Hx]%elem_of_cons & Hr)]; [by left; left | by left; right | right; by exists x].
Qed.

Definition is_child_info (t : Tag) : Prop := match t with TagChildInfo _ => True | OldName _ => False end.

(** The name a LIST line carries and what follows it. *)
Definition raw_name (name : str) (is_rev2 : bool) : str := if is_rev2 then name else utf7_encode name.

Definition extended_data (name : str) (tags : list Tag) (is_rev2 : bool) : bytes :=
  let extra := if negb (bytes_eqb (utf7_encode name) name) && is_rev2 then [OldName (utf7_encode name)] else [] in
  if negb (bool_decide (extra = [])) || negb (bool_decide (tags = [])) then
    b " (" ++ separated (map tag_serialize (extra ++ tags)) ++ b ")" ++ CRLF
  else CRLF.

Definition after_attributes (name : str) (tags : list Tag) (is_rev2 : bool) : bytes :=
  b " " ++ [DQUOTE] ++ b "/" ++ [DQUOTE] ++ b " " ++ quoted_string (raw_name name is_rev2) ++
  extended_data name tags is_rev2.

Lemma list_item_text name attrs tags is_rev2 is_lsub :
  list_item_serialize (mkListItem name attrs tags) is_rev2 is_lsub =
  (if is_lsub then b "* LSUB (" else b "* LIST (") ++ separated (map attribute_serialize attrs) ++
  41 :: after_attributes name tags is_rev2.
Proof.
  unfold list_item_serialize, after_attributes. cbn [li_mailbox_name li_attributes li_tags].
  fold (extended_data name tags is_rev2).
  replace (if negb (bytes_eqb (utf7_encode name) name)
           then if is_rev2 then quoted_string name else quoted_string (utf7_encode name)
           else quoted_string name) with (quoted_string (raw_name name is_rev2)); [by destruct is_lsub|].
  unfold raw_name. destruct is_rev2; destruct (bytes_eqb _ name) eqn:Eb; try done.
  apply bytes_eqb_eq in Eb. by rewrite Eb.
Qed.

Lemma list_read_text name attrs tags is_rev2 is_lsub :
  list_read (list_item_serialize (mkListItem name attrs tags) is_rev2 is_lsub) =
  Some (is_lsub, attrs, raw_name name is_rev2, extended_data name tags is_rev2).
Proof.
  rewrite list_item_text.
  destruct (read_separated 41 (map attribute_serialize attrs) (after_attributes name tags is_rev2))
    as (ws & Ews & Ef); [done | |].
  { apply List.Forall_map, List.Forall_forall. intros a _. apply attribute_word. }
  set (text := separated _ ++ _) in *. unfold list_read.
  replace (match strip_prefix (b "* LIST (") ((if is_lsub then _ else _) ++ text) with Some r => Some (false, r) | None => _ end)
    with (Some (is_lsub, text)).
  2: { destruct is_lsub; [|by rewrite strip_prefix_app]. cbn [strip_prefix]. by rewrite strip_prefix_app. }
  cbn [mbind option_bind]. rewrite Ews. cbn [mbind option_bind]. rewrite Ef, attributes_read.
  cbn [mbind option_bind]. unfold after_attributes.
  change (strip_prefix _ _) with
    (Some (quoted_string (raw_name name is_rev2) ++ extended_data name tags is_rev2)).
  cbn [mbind option_bind]. by rewrite unquote_quoted.
Qed.

Lemma old_name_extended name tags is_rev2 :
  Forall is_child_info tags ->
  old_name_read (extended_data name tags is_rev2) =
  if negb (bytes_eqb (utf7_encode name) name) && is_rev2 then Some (utf7_encode name) else None.
Proof.
  intros Htags. unfold extended_data. set (extra := if negb _ && _ then _ else _).
  destruct (negb _ && _) eqn:Ec; subst extra.
  - rewrite (bool_decide_false (_ :: _ = [])) by done. cbn [orb negb app map]. rewrite separated_cons.
    unfold old_name_read, tag_serialize at 1. rewrite <- !app_assoc.
    change (strip_prefix _ _) with
      (Some ((quoted_string (utf7_encode name) ++ b ")") ++ flat_map (cons SP) (map tag_serialize tags) ++ b ")" ++ CRLF)).
    cbn [mbind option_bind]. by rewrite <- app_assoc, unquote_quoted.
  - destruct tags as [|t tags]; [done|]. rewrite (bool_decide_false (t :: tags = [])) by done.
    rewrite orb_true_r. cbn [app map]. apply Forall_inv in Htags. destruct t; [|done]. by rewrite separated_cons.
Qed.

(** ** Properties *)

(** The LIST line of a mailbox can be read back by the client: from the
    bytes it gets the attributes and, after decoding modified UTF-7 in
    IMAP4rev1 sessions, the name of the mailbox, for every name made of
    characters of the Basic Multilingual Plane.  A IMAP4rev2 client gets the
    IMAP4rev1 name too, as OLDNAME, exactly when it differs, and it decodes to
    the same name. *)
Theorem list_item_reads_back cs attrs tags is_rev2 is_lsub :
  Forall is_bmp cs -> Forall is_child_info tags ->
  exists raw rest,
    list_read (list_item_serialize (mkListItem (encode cs) attrs tags) is_rev2 is_lsub) =
      Some (is_lsub, attrs, raw, rest) /\
    utf7_maybe_decode raw (if is_rev2 then Rev2 else Rev1) = encode cs /\
    match old_name_read rest with
    | Some old => is_rev2 = true /\ old <> encode cs /\ utf7_decode old = Some (encode cs)
    | None => is_rev2 = true -> utf7_encode (encode cs) = encode cs
    end.
Proof.
  intros Hcs Htags. pose proof (utf7_roundtrip_text cs Hcs) as Hrt.
  eexists _, _. split; [apply list_read_text|]. rewrite old_name_extended by done. split.
  - unfold raw_name, utf7_maybe_decode. destruct is_rev2; [done|]. cbn. by rewrite Hrt.
  - destruct (bytes_eqb _ _) eqn:Eb; cbn [negb andb]; [by intros _; apply bytes_eqb_eq in Eb|].
    destruct is_rev2; [|done]. split_and!; [done| |done]. intros E%bytes_eqb_eq. congruence.
Qed.

Lemma list_item_reads_back_witness :
  let cs := [83; 252; 100; 47; 21488] in
  exists raw rest,
    list_read (list_item_serialize (mkListItem (encode cs) [HasNoChildren; Sent] []) true false) =
      Some (false, [HasNoChildren; Sent], raw, rest) /\ raw = encode cs /\
    is_Some (old_name_read rest).
Proof.
  destruct (list_item_reads_back [83; 252; 100; 47; 21488] [HasNoChildren; Sent] [] true false)
    as (raw & rest & E & Hraw & Hold).
  - repeat constructor; unfold is_bmp; lia.
  - constructor.
  - exists raw, rest. split; [exact E|]. split; [exact Hraw|]. destruct (old_name_read rest); [done|].
    specialize (Hold eq_refl). vm_compute in Hold. discriminate Hold.
Defined.

(** The client reads the result of a search back: the numbers in order
    from SEARCH and SORT responses, and from an ESEARCH response the tag of
    the command, MIN, MAX and COUNT, and an ALL set that contains a number
    exactly when it was found; ALL is left out when nothing was. *)
Theorem search_reads_back r tag :
  search_ok r ->
  if sr_is_esearch r then
    exists all,
      search_read (search_serialize r tag) =
        Some (LineExtended tag (sr_is_uid r) (sr_count r) (sr_min r) (sr_max r) all (sr_highest_modseq r)) /\
      match all with
      | Some s => forall v max, contains s v max = true <-> v ∈ sr_ids r
      | None => sr_ids r = []
      end
  else search_read (search_serialize r tag) = Some (LineNumbers (sr_is_sort r) (sr_ids r) (sr_highest_modseq r)).
Proof.
  intros Hok. unfold search_serialize. destruct (sr_is_esearch r).
  - destruct (extended_read_words tag r Hok) as (all & E & Hall). exists all. split; [|done].
    set (items := (if sr_is_uid r then b " UID" else []) ++ _).
    assert (Ei : items = flat_map (cons SP) (extended_words r)).
    { unfold items, extended_words. rewrite !flat_map_app, !search_item_words.
      f_equal; [by destruct (sr_is_uid r)|]. do 4 f_equal. case_bool_decide; [done|]. cbn. by rewrite app_nil_r. }
    rewrite Ei. unfold search_read. rewrite <- !app_assoc, strip_prefix_app, unquote_quoted.
    cbn [mbind option_bind]. rewrite strip_prefix_app. cbn [mbind option_bind].
    change CRLF with [CR; LF]. rewrite (read_words_flat CR [] (extended_words r) [LF]) by (done || by apply extended_words_word).
    cbn [mbind option_bind tail]. exact E.
  - pose proof (ids_u32 r Hok) as Hids. destruct Hok as [_ _ _ _ Hm]. rewrite <- !app_assoc.
    set (line := flat_map _ _ ++ _). unfold search_read.
    destruct (sr_is_sort r); cbn [negb].
    + rewrite (eq_refl : strip_prefix (b "* ESEARCH (TAG ") (b "* SORT" ++ line) = None).
      rewrite (eq_refl : strip_prefix (b "* SEARCH") (b "* SORT" ++ line) = None), strip_prefix_app.
      cbn [mbind option_bind]. unfold line. change CRLF with [CR; LF].
      rewrite numbers_line by done. cbn [mbind option_bind tail]. by rewrite numbers_read_dec.
    + rewrite (eq_refl : strip_prefix (b "* ESEARCH (TAG ") (b "* SEARCH" ++ line) = None), strip_prefix_app.
      cbn [mbind option_bind]. unfold line. change CRLF with [CR; LF].
      rewrite numbers_line by done. cbn [mbind option_bind tail]. by rewrite numbers_read_dec.
Qed.

Lemma search_reads_back_witness :
  exists all,
    search_read (search_serialize (mkSearchResponse true true false [2; 3; 4; 9] (Some 2) (Some 9) (Some 4) None) (b "A7")) =
      Some (LineExtended (b "A7") true (Some 4) (Some 2) (Some 9) all None) /\
    (forall s, all = Some s -> contains s 3 9 = true).
Proof.
  destruct (search_reads_back (mkSearchResponse true true false [2; 3; 4; 9] (Some 2) (Some 9) (Some 4) None) (b "A7"))
    as (all & E & Hall).
  - split; cbn; unfold is_u32; repeat constructor; vm_compute; try done; intros [=].
  - exists all. split; [exact E|]. intros s ->. apply Hall. by right; left.
Defined.

(** Rights written by the server are accepted back by SETACL: for a
    nonempty list without repetitions, after an optional ["+"] or ["-"]. *)
Theorem rights_read_back rs :
  rs <> [] -> NoDup rs ->
  mod_rights_parse (map to_char rs) = Ok {| mr_op := RightsReplace; mr_rights := rs |} /\
  mod_rights_parse (43 :: map to_char rs) = Ok {| mr_op := RightsAdd; mr_rights := rs |} /\
  mod_rights_parse (45 :: map to_char rs) = Ok {| mr_op := RightsRemove; mr_rights := rs |}.
Proof. intros Hne Hn. split_and!; by apply (rights_loop_chars _ rs _ []). Qed.

Lemma rights_read_back_witness :
  mod_rights_parse (b "+lrswi") = Ok {| mr_op := RightsAdd; mr_rights := [Lookup; Read; RSeen; Write; Insert] |}.
Proof.
  apply (rights_read_back [Lookup; Read; RSeen; Write; Insert]); [done|].
  refine (bool_decide_eq_true_1 _ _). vm_compute. reflexivity.
Defined.

(** After SETACL replaced the rights of an identifier, GETACL shows
    exactly the rights asked for and those that JMAP does not tell apart from
    them ([s] and [w], [t] and [e]), none twice. *)
Theorem getacl_after_setacl rs :
  NoDup (acl_rights (map into_acl rs) []) /\
  forall r, r ∈ acl_rights (map into_acl rs) [] <-> exists r', r' ∈ rs /\ into_acl r = into_acl r'.
Proof.
  split.
  - assert (H : forall acls acc, NoDup acc -> NoDup (acl_rights acls acc)).
    { induction acls as [|a acls IH]; intros acc Hacc; cbn [acl_rights]; [done|]. destruct (from_acl a) as [r1 [r2|]];
        apply IH; by repeat apply push_unique_nodup. }
    apply H. constructor.
  - intros r. rewrite acl_rights_elem. split.
    + intros [?%elem_of_nil|(a & (r' & -> & Hr')%list_elem_of_fmap & Hr)]; [done|].
      exists r'. split; [done|]. destruct r', Hr as [<-|[= <-]]; done.
    + intros (r' & Hr' & E). right. exists (into_acl r'). split; [by apply list_elem_of_fmap_2|].
      rewrite <- E. destruct r; cbn; auto.
Qed.

(** [ACL::Modify] is shown as [k], but removing [k] removes [ACL::CreateChild]
    and leaves it. *)
Lemma modify_not_removable : (from_acl AclModify).1 = CreateMailbox /\ into_acl CreateMailbox <> AclModify.
Proof. done. Qed.

(** A user who may rename and delete a mailbox gets the right [x] twice. *)
Lemma rights_repeated :
  as_imap_rights (mkMailboxRights false false false false false false true true false) = [DeleteMailbox; DeleteMailbox].
Proof. reflexivity. Qed.
