(* ===== verification/FetchWire.v ===== *)
(** * FETCH responses: [src/protocol/fetch.rs]

    The data items of a FETCH response with their serializers: envelopes,
    addresses, body structures, sections and literals. *)

From S2P Require Import Prelude Utf8 Utf7 Types Flags Wire Parsers ParseFetch Responses.

Record EmailAddress := mkEmailAddress { ea_name : option str; ea_address : str }.
Record AddressGroup := mkAddressGroup { ag_name : option str; ag_addresses : list EmailAddress }.
Inductive Address := Single (a : EmailAddress) | Group (g : AddressGroup).

Inductive BodyContents := ContentsText (s : str) | ContentsBytes (x : bytes).

Record Envelope := mkEnvelope {
  env_date : option Z; env_subject : option str;
  env_from : list Address; env_sender : list Address; env_reply_to : list Address;
  env_to : list Address; env_cc : list Address; env_bcc : list Address;
  env_in_reply_to : option str; env_message_id : option str
}.

Record BodyPartFields := mkBodyPartFields {
  body_subtype : option str;
  body_parameters : option (list (str * str));
  body_id : option str; body_description : option str; body_encoding : option str;
  body_size_octets : Z
}.

Record BodyPartExtension := mkBodyPartExtension {
  body_disposition : option (str * list (str * str));
  body_language : option (list str);
  body_location : option str
}.

#[warnings="-register-all"]
Inductive BodyPart :=
| Multipart (body_parts : list BodyPart) (subtype : str) (parameters : option (list (str * str))) (extension : BodyPartExtension)
| Basic_ (body_type : option str) (fields : BodyPartFields) (body_md5 : option str) (extension : BodyPartExtension)
| Text_ (fields : BodyPartFields) (body_size_lines : Z) (body_md5 : option str) (extension : BodyPartExtension)
| Message_ (fields : BodyPartFields) (envelope : option Envelope) (body : option BodyPart) (body_size_lines : Z)
    (body_md5 : option str) (extension : BodyPartExtension).

Inductive DataItem :=
| DBinary (sections : list Z) (offset : option Z) (contents : BodyContents)
| DBinarySize (sections : list Z) (size : Z)
| DBody (part : BodyPart)
| DBodyStructure (part : BodyPart)
| DBodySection (sections : list FetchSection) (origin_octet : option Z) (contents : str)
| DEnvelope (envelope : Envelope)
| DFlags (flags : list Flag)
| DInternalDate (date : Z)
| DUid (uid : Z)
| DRfc822 (contents : str)
| DRfc822Header (contents : str)
| DRfc822Size (size : Z)
| DRfc822Text (contents : str)
| DPreview (contents : option str)
| DModSeq (modseq : Z)
| DEmailId (email_id : str)
| DThreadId (thread_id : str).

Record FetchItem := mkFetchItem { fi_id : Z; fi_items : list DataItem }.

(** ** Addresses *)

(** [str::split_once] *)
Fixpoint split_once (c : Z) (s : str) : option (str * str) :=
  match s with
  | [] => None
  | x :: s' => if x =? c then Some ([], s') else '(l, r) ← split_once c s'; Some (x :: l, r)
  end.

Definition email_address_serialize (a : EmailAddress) : bytes :=
  let '(route, addr) :=
    match split_once 58 (ea_address a) with
    | Some (route, addr) => (b " " ++ quoted_string route ++ b " ", addr)
    | None => (b " NIL ", ea_address a)
    end in
  b "(" ++ quoted_string_or_nil (ea_name a) ++ route ++
  match split_once 64 addr with
  | Some (local, host) => quoted_string local ++ b " " ++ quoted_string host
  | None => quoted_string (ea_address a) ++ [SP; DQUOTE; DQUOTE]
  end ++ b ")".

Definition address_group_serialize (g : AddressGroup) : bytes :=
  b "(NIL NIL " ++ match ag_name g with Some name => quoted_string name | None => [DQUOTE; DQUOTE] end ++ b " NIL)" ++
  flat_map email_address_serialize (ag_addresses g) ++ b "(NIL NIL NIL NIL)".

Definition address_serialize (a : Address) : bytes :=
  match a with Single a => email_address_serialize a | Group g => address_group_serialize g end.

(** ** Envelopes *)
Definition serialize_addresses (addresses : list Address) : bytes :=
  b " " ++
  (if decide (addresses <> []) then b "(" ++ flat_map address_serialize addresses ++ b ")" else b "NIL").

(** [if !list.is_empty() { list } else { from }] *)
Definition or_from (from l : list Address) : list Address := if decide (l <> []) then l else from.

Definition envelope_serialize `{Chrono} (e : Envelope) : bytes :=
  b "(" ++ quoted_rfc2822_or_nil (env_date e) ++ b " " ++ quoted_string_or_nil (env_subject e) ++
  serialize_addresses (env_from e) ++
  serialize_addresses (or_from (env_from e) (env_sender e)) ++
  serialize_addresses (or_from (env_from e) (env_reply_to e)) ++
  serialize_addresses (env_to e) ++
  serialize_addresses (env_cc e) ++
  serialize_addresses (env_bcc e) ++
  flat_map (fun item => b " " ++ quoted_string_or_nil item) [env_in_reply_to e; env_message_id e] ++ b ")".

(** ** Body structures *)
Definition parameters_serialize (parameters : list (str * str)) : bytes :=
  separated (map (fun '(key, value) => quoted_string key ++ b " " ++ quoted_string value) parameters).

Definition parameters_or_nil (parameters : option (list (str * str))) : bytes :=
  match parameters with Some parameters => b " (" ++ parameters_serialize parameters ++ b ")" | None => b " NIL" end.

Definition fields_serialize (f : BodyPartFields) : bytes :=
  quoted_string_or_nil (body_subtype f) ++ parameters_or_nil (body_parameters f) ++
  flat_map (fun item => b " " ++ quoted_string_or_nil item) [body_id f; body_description f; body_encoding f] ++
  b " " ++ dec (body_size_octets f).

Definition languages_serialize (body_language : option (list str)) : bytes :=
  match body_language with
  | None | Some [] => b " NIL"
  | Some [lang] => b " " ++ quoted_string lang
  | Some langs => b " (" ++ separated (map quoted_string langs) ++ b ")"
  end.

Definition extension_serialize (x : BodyPartExtension) : bytes :=
  match body_disposition x with
  | Some (disposition, parameters) =>
      b "(" ++ quoted_string disposition ++ b " (" ++ parameters_serialize parameters ++ b "))"
  | None => b "NIL"
  end ++
  languages_serialize (body_language x) ++ b " " ++ quoted_string_or_nil (body_location x).

(** What follows for BODYSTRUCTURE. *)
Definition extended_serialize (is_extended : bool) (body_md5 : option str) (extension : BodyPartExtension) : bytes :=
  if is_extended then b " " ++ quoted_string_or_nil body_md5 ++ b " " ++ extension_serialize extension else [].

Fixpoint body_part_serialize `{Chrono} (part : BodyPart) (is_extended : bool) : bytes :=
  b "(" ++
  match part with
  | Multipart body_parts subtype parameters extension =>
      separated (map (fun part => body_part_serialize part is_extended) body_parts) ++ b " " ++ quoted_string subtype ++
      (if is_extended then parameters_or_nil parameters ++ b " " ++ extension_serialize extension else [])
  | Basic_ body_type fields body_md5 extension =>
      quoted_string_or_nil body_type ++ b " " ++ fields_serialize fields ++ extended_serialize is_extended body_md5 extension
  | Text_ fields body_size_lines body_md5 extension =>
      quoted_string (b "text") ++ b " " ++ fields_serialize fields ++ b " " ++ dec body_size_lines ++
      extended_serialize is_extended body_md5 extension
  | Message_ fields envelope body body_size_lines body_md5 extension =>
      quoted_string (b "message") ++ b " " ++ fields_serialize fields ++ b " " ++
      match envelope with Some envelope => envelope_serialize envelope | None => b "NIL" end ++ b " " ++
      match body with Some body => body_part_serialize body is_extended | None => b "NIL" end ++ b " " ++
      dec body_size_lines ++ extended_serialize is_extended body_md5 extension
  end ++ b ")".

(** [add_part], [set_envelope]; the [debug_assert]s are not part of a release build. *)
Definition add_part (self part : BodyPart) : BodyPart :=
  match self with
  | Multipart body_parts subtype parameters extension => Multipart (body_parts ++ [part]) subtype parameters extension
  | Message_ fields envelope _ body_size_lines body_md5 extension =>
      Message_ fields envelope (Some part) body_size_lines body_md5 extension
  | _ => self
  end.

Definition set_envelope (self : BodyPart) (envelope : Envelope) : BodyPart :=
  match self with
  | Message_ fields _ body body_size_lines body_md5 extension =>
      Message_ fields (Some envelope) body body_size_lines body_md5 extension
  | _ => self
  end.

(** ** Sections *)
Fixpoint dotted (l : list bytes) : bytes :=
  match l with
  | [] => []
  | [x] => x
  | x :: l => x ++ b "." ++ dotted l
  end.

Definition section_serialize (s : FetchSection) : bytes :=
  match s with
  | SecPart num => dec num
  | SecHeader => b "HEADER"
  | SecHeaderFields not fields =>
      (if negb not then b "HEADER.FIELDS " else b "HEADER.FIELDS.NOT ") ++ b "(" ++
      separated (map (map to_ascii_uppercase) fields) ++ b ")"
  | SecText => b "TEXT"
  | SecMime => b "MIME"
  end.

(** ["]<origin> "] or ["] "] *)
Definition origin_serialize (origin : option Z) : bytes :=
  match origin with Some origin => b "]<" ++ dec origin ++ b "> " | None => b "] " end.

(** ** Data items *)
Definition data_item_serialize `{Chrono} (item : DataItem) : bytes :=
  match item with
  | DBinary sections offset contents =>
      b "BINARY[" ++ dotted (map dec sections) ++ origin_serialize offset ++
      match contents with
      | ContentsText text => literal_string text
      | ContentsBytes bytes => b "~{" ++ dec (Z.of_nat (length bytes)) ++ b "}" ++ CRLF ++ bytes
      end
  | DBinarySize sections size => b "BINARY.SIZE[" ++ dotted (map dec sections) ++ b "] " ++ dec size
  | DBody part => b "BODY " ++ body_part_serialize part false
  | DBodyStructure part => b "BODYSTRUCTURE " ++ body_part_serialize part true
  | DBodySection sections origin_octet contents =>
      b "BODY[" ++ dotted (map section_serialize sections) ++ origin_serialize origin_octet ++ literal_string contents
  | DEnvelope envelope => b "ENVELOPE " ++ envelope_serialize envelope
  | DFlags flags => b "FLAGS (" ++ separated (map flag_serialize flags) ++ b ")"
  | DInternalDate date => b "INTERNALDATE " ++ quoted_timestamp date
  | DUid uid => b "UID " ++ dec uid
  | DRfc822 contents => b "RFC822 " ++ literal_string contents
  | DRfc822Header contents => b "RFC822.HEADER " ++ literal_string contents
  | DRfc822Size size => b "RFC822.SIZE " ++ dec size
  | DRfc822Text contents => b "RFC822.TEXT " ++ literal_string contents
  | DPreview contents =>
      b "PREVIEW " ++ match contents with Some contents => literal_string contents | None => b "NIL" end
  | DModSeq modseq => b "MODSEQ (" ++ dec modseq ++ b ")"
  | DEmailId email_id => b "EMAILID (" ++ email_id ++ b ")"
  | DThreadId thread_id => b "THREADID (" ++ thread_id ++ b ")"
  end.

Definition fetch_item_serialize `{Chrono} (item : FetchItem) : bytes :=
  b "* " ++ dec (fi_id item) ++ b " FETCH (" ++ separated (map data_item_serialize (fi_items item)) ++ b ")" ++ CRLF.

Definition fetch_response_serialize `{Chrono} (items : list FetchItem) : bytes := flat_map fetch_item_serialize items.
