(* ===== verification/FetchRead.v ===== *)
(** * Reading FETCH responses

    What a client does with a FETCH response: cut the bytes into atoms, quoted
    strings, literals and parentheses, and build the tree of RFC 3501, section 9.
    The theorem is that it gets the data items back, whatever bytes the
    literals hold. *)

From S2P Require Import Prelude Utf8 Utf7 Types Sequence Flags Wire Parsers ParseFetch Responses FetchWire.

(** ** The reader *)
Inductive Tok :=
| TOpen | TClose | TLine
| TAtom (s : bytes)
| TQuoted (s : bytes)
| TLiteral (binary : bool) (s : bytes).

Inductive Mode :=
| MNeutral
| MAtom (acc : bytes) (in_bracket : bool)
| MQuoted (acc : bytes) (escaped : bool)
| MLiteral (binary : bool) (digits : bytes)
| MLiteralLine (binary : bool) (digits : bytes)
| MData (binary : bool) (n : nat) (acc : bytes)
| MTilde.

Definition is_special (c : Z) : bool := (c =? 32) || (c =? 40) || (c =? 41) || (c =? 34) || (c =? 123) || (c =? 126) || (c =? 13) || (c =? 10).

Fixpoint lex (mode : Mode) (bs : bytes) : option (list Tok) :=
  match bs with
  | [] => match mode with MNeutral => Some [] | _ => None end
  | c :: bs' =>
      let neutral (before : list Tok) :=
        if (c =? 32) || (c =? 13) then app before <$> lex MNeutral bs'
        else if c =? 40 then app (before ++ [TOpen]) <$> lex MNeutral bs'
        else if c =? 41 then app (before ++ [TClose]) <$> lex MNeutral bs'
        else if c =? 10 then app (before ++ [TLine]) <$> lex MNeutral bs'
        else if c =? 34 then app before <$> lex (MQuoted [] false) bs'
        else if c =? 123 then app before <$> lex (MLiteral false []) bs'
        else if c =? 126 then app before <$> lex MTilde bs'
        else app before <$> lex (MAtom [c] (c =? 91)) bs' in
      match mode with
      | MNeutral => neutral []
      | MAtom acc true => lex (MAtom (acc ++ [c]) (negb (c =? 93))) bs'
      | MAtom acc false =>
          if is_special c then neutral [TAtom acc] else lex (MAtom (acc ++ [c]) (c =? 91)) bs'
      | MQuoted acc escaped =>
          if (c =? 13) || (c =? 10) then None
          else if escaped then lex (MQuoted (acc ++ [c]) false) bs'
          else if c =? 92 then lex (MQuoted acc true) bs'
          else if c =? 34 then cons (TQuoted acc) <$> lex MNeutral bs'
          else lex (MQuoted (acc ++ [c]) false) bs'
      | MLiteral binary digits =>
          if c =? 125 then lex (MLiteralLine binary digits) bs' else lex (MLiteral binary (digits ++ [c])) bs'
      | MLiteralLine binary digits =>
          if c =? 13 then lex (MLiteralLine binary digits) bs'
          else if c =? 10 then
            match parse_uint 64 digits with
            | Some 0 => cons (TLiteral binary []) <$> lex MNeutral bs'
            | Some n => lex (MData binary (Z.to_nat n) []) bs'
            | None => None
            end
          else None
      | MData binary n acc =>
          if (n =? 1)%nat then cons (TLiteral binary (acc ++ [c])) <$> lex MNeutral bs'
          else lex (MData binary (n - 1) (acc ++ [c])) bs'
      | MTilde => if c =? 123 then lex (MLiteral true []) bs' else None
      end
  end.

(** The trees of a line. *)
#[warnings="-register-all"]
Inductive Tree :=
| Atom (s : bytes)
| Quoted (s : bytes)
| Literal (binary : bool) (s : bytes)
| Node (children : list Tree).

Fixpoint read_trees (stack : list (list Tree)) (current : list Tree) (toks : list Tok) : option (list (list Tree)) :=
  match toks with
  | [] => match stack, current with [], [] => Some [] | _, _ => None end
  | tok :: toks' =>
      match tok with
      | TOpen => read_trees (current :: stack) [] toks'
      | TClose => match stack with
                  | outer :: stack => read_trees stack (outer ++ [Node current]) toks'
                  | [] => None
                  end
      | TLine => match stack with [] => cons current <$> read_trees [] [] toks' | _ => None end
      | TAtom s => read_trees stack (current ++ [Atom s]) toks'
      | TQuoted s => read_trees stack (current ++ [Quoted s]) toks'
      | TLiteral binary s => read_trees stack (current ++ [Literal binary s]) toks'
      end
  end.

(** The lines of a response. *)
Definition read_lines (bs : bytes) : option (list (list Tree)) := toks ← lex MNeutral bs; read_trees [] [] toks.

(** ** The trees of the data (RFC 3501, section 9, [msg-att]) *)
Definition nil_tree : Tree := Atom (b "NIL").
Definition string_tree (s : option str) : Tree := match s with Some s => Quoted s | None => nil_tree end.
Definition number_tree (n : Z) : Tree := Atom (dec n).

(** [address = "(" addr-name SP addr-adl SP addr-mailbox SP addr-host ")"]; the
    source route comes before a colon. *)
Definition address_parts (address : str) : option str * str :=
  match split_once 58 address with Some (route, addr) => (Some route, addr) | None => (None, address) end.

Definition email_address_tree (a : EmailAddress) : Tree :=
  let '(route, addr) := address_parts (ea_address a) in
  let '(local, host) := default (addr, []) (split_once 64 addr) in
  Node [string_tree (ea_name a); string_tree route; Quoted local; Quoted host].

Definition address_trees (a : Address) : list Tree :=
  match a with
  | Single a => [email_address_tree a]
  | Group g =>
      [Node [nil_tree; nil_tree; Quoted (default [] (ag_name g)); nil_tree]] ++ map email_address_tree (ag_addresses g) ++
      [Node [nil_tree; nil_tree; nil_tree; nil_tree]]
  end.

Definition addresses_tree (l : list Address) : Tree :=
  if decide (l <> []) then Node (flat_map address_trees l) else nil_tree.

Section Trees.
Context `{Chrono}.

Definition envelope_tree (e : Envelope) : Tree :=
  Node [string_tree (format_rfc2822 <$> env_date e); string_tree (env_subject e);
        addresses_tree (env_from e);
        addresses_tree (or_from (env_from e) (env_sender e));
        addresses_tree (or_from (env_from e) (env_reply_to e));
        addresses_tree (env_to e); addresses_tree (env_cc e); addresses_tree (env_bcc e);
        string_tree (env_in_reply_to e); string_tree (env_message_id e)].

Definition parameters_tree (l : list (str * str)) : Tree := Node (flat_map (fun '(k, v) => [Quoted k; Quoted v]) l).

Definition fields_trees (f : BodyPartFields) : list Tree :=
  [string_tree (body_subtype f); from_option parameters_tree nil_tree (body_parameters f); string_tree (body_id f);
   string_tree (body_description f); string_tree (body_encoding f); number_tree (body_size_octets f)].

Definition languages_tree (l : option (list str)) : Tree :=
  match l with
  | None | Some [] => nil_tree
  | Some [lang] => Quoted lang
  | Some langs => Node (map Quoted langs)
  end.

Definition extension_trees (x : BodyPartExtension) : list Tree :=
  [from_option (fun '(d, l) => Node [Quoted d; parameters_tree l]) nil_tree (body_disposition x);
   languages_tree (body_language x); string_tree (body_location x)].

Definition extended_trees (is_extended : bool) (body_md5 : option str) (x : BodyPartExtension) : list Tree :=
  if is_extended then string_tree body_md5 :: extension_trees x else [].

Fixpoint body_tree (part : BodyPart) (is_extended : bool) : Tree :=
  Node match part with
       | Multipart parts subtype parameters x =>
           map (fun part => body_tree part is_extended) parts ++ [Quoted subtype] ++
           (if is_extended then from_option parameters_tree nil_tree parameters :: extension_trees x else [])
       | Basic_ body_type fields md5 x => string_tree body_type :: fields_trees fields ++ extended_trees is_extended md5 x
       | Text_ fields lines md5 x =>
           Quoted (b "text") :: fields_trees fields ++ [number_tree lines] ++ extended_trees is_extended md5 x
       | Message_ fields envelope body lines md5 x =>
           Quoted (b "message") :: fields_trees fields ++ [from_option envelope_tree nil_tree envelope] ++
           [match body with Some body => body_tree body is_extended | None => nil_tree end] ++
           [number_tree lines] ++ extended_trees is_extended md5 x
       end.

(** The name of a section, with the origin of a partial fetch. *)
Definition section_name (name : bytes) (sections : list bytes) (origin : option Z) : Tree :=
  Atom (name ++ b "[" ++ dotted sections ++ b "]" ++ from_option (fun o => b "<" ++ dec o ++ b ">") [] origin).

Definition data_item_trees (item : DataItem) : list Tree :=
  match item with
  | DBinary sections offset contents =>
      [section_name (b "BINARY") (map dec sections) offset;
       match contents with ContentsText s => Literal false s | ContentsBytes x => Literal true x end]
  | DBinarySize sections size => [section_name (b "BINARY.SIZE") (map dec sections) None; number_tree size]
  | DBody part => [Atom (b "BODY"); body_tree part false]
  | DBodyStructure part => [Atom (b "BODYSTRUCTURE"); body_tree part true]
  | DBodySection sections origin contents =>
      [section_name (b "BODY") (map section_serialize sections) origin; Literal false contents]
  | DEnvelope e => [Atom (b "ENVELOPE"); envelope_tree e]
  | DFlags flags => [Atom (b "FLAGS"); Node (map (fun f => Atom (flag_serialize f)) flags)]
  | DInternalDate date => [Atom (b "INTERNALDATE"); Quoted (format_datetime date)]
  | DUid uid => [Atom (b "UID"); number_tree uid]
  | DRfc822 contents => [Atom (b "RFC822"); Literal false contents]
  | DRfc822Header contents => [Atom (b "RFC822.HEADER"); Literal false contents]
  | DRfc822Size size => [Atom (b "RFC822.SIZE"); number_tree size]
  | DRfc822Text contents => [Atom (b "RFC822.TEXT"); Literal false contents]
  | DPreview contents => [Atom (b "PREVIEW"); from_option (Literal false) nil_tree contents]
  | DModSeq modseq => [Atom (b "MODSEQ"); Node [number_tree modseq]]
  | DEmailId id => [Atom (b "EMAILID"); Node [Atom id]]
  | DThreadId id => [Atom (b "THREADID"); Node [Atom id]]
  end.

Definition fetch_item_line (item : FetchItem) : list Tree :=
  [Atom (b "*"); number_tree (fi_id item); Atom (b "FETCH"); Node (flat_map data_item_trees (fi_items item))].
End Trees.

(** ** Reading back *)
Fixpoint flatten (t : Tree) : list Tok :=
  match t with
  | Atom s => [TAtom s]
  | Quoted s => [TQuoted s]
  | Literal binary s => [TLiteral binary s]
  | Node children => TOpen :: flat_map flatten children ++ [TClose]
  end.

Fixpoint tree_ind' (P : Tree -> Prop) (fa : forall s, P (Atom s)) (fq : forall s, P (Quoted s))
    (fl : forall binary s, P (Literal binary s)) (fn : forall children, Forall P children -> P (Node children)) (t : Tree) : P t :=
  match t with
  | Atom s => fa s
  | Quoted s => fq s
  | Literal binary s => fl binary s
  | Node children =>
      fn children ((fix all l : Forall P l :=
        match l with [] => @List.Forall_nil _ P | t :: l => @List.Forall_cons _ P t l (tree_ind' P fa fq fl fn t) (all l) end) children)
  end.

Lemma read_trees_flatten t stack current toks :
  read_trees stack current (flatten t ++ toks) = read_trees stack (current ++ [t]) toks.
Proof.
  revert stack current toks; induction t as [| | |children IH] using tree_ind'; intros; [done..|].
  cbn [flatten app read_trees]. rewrite <- app_assoc.
  enough (Hall : forall acc, read_trees (current :: stack) acc (flat_map flatten children ++ [TClose] ++ toks) =
                   read_trees stack (current ++ [Node (acc ++ children)]) toks) by apply (Hall []).
  induction IH as [|t children Ht _ IHc]; intros acc; cbn [flat_map]; [by rewrite app_nil_r|].
  rewrite <- app_assoc, Ht, IHc, <- app_assoc. done.
Qed.

Lemma read_trees_all l stack current toks :
  read_trees stack current (flat_map flatten l ++ toks) = read_trees stack (current ++ l) toks.
Proof.
  revert current; induction l as [|t l IH]; intros current; cbn [flat_map]; [by rewrite app_nil_r|].
  rewrite <- app_assoc, read_trees_flatten, IH, <- app_assoc. done.
Qed.

(** [x] reads as [l] before a delimiter; [x] reads as [l] before anything. *)
Definition shows (x : bytes) (l : list Tree) : Prop := forall c rest,
  is_special c = true -> lex MNeutral (x ++ c :: rest) = app (flat_map flatten l) <$> lex MNeutral (c :: rest).
Definition closes (x : bytes) (l : list Tree) : Prop := forall rest,
  lex MNeutral (x ++ rest) = app (flat_map flatten l) <$> lex MNeutral rest.

Definition head_special (x : bytes) : Prop := match x with [] => True | c :: _ => is_special c = true end.

Lemma app_fmap (u v : list Tok) (o : option (list Tok)) : app u <$> (app v <$> o) = app (u ++ v) <$> o.
Proof. destruct o; cbn; by rewrite ?app_assoc. Qed.

Lemma closes_shows x l : closes x l -> shows x l.
Proof. intros Hx c rest _. apply Hx. Qed.

Lemma shows_app x y l k m : shows x l -> shows y k -> head_special y -> m = l ++ k -> shows (x ++ y) m.
Proof.
  intros Hx Hy Hs -> c rest Hc. rewrite <- app_assoc, flat_map_app, <- app_fmap, <- (Hy c rest Hc).
  destruct y as [|d y]; [by apply Hx|]. apply (Hx d _ Hs).
Qed.

Lemma closes_app x y l k m : closes x l -> closes y k -> m = l ++ k -> closes (x ++ y) m.
Proof. intros Hx Hy -> rest. by rewrite <- app_assoc, flat_map_app, <- app_fmap, Hx, Hy. Qed.

Lemma closes_then x y l k m : closes x l -> shows y k -> m = l ++ k -> shows (x ++ y) m.
Proof. intros Hx Hy -> c rest Hc. by rewrite <- app_assoc, flat_map_app, <- app_fmap, Hx, Hy. Qed.

Lemma lex_space rest : lex MNeutral (32 :: rest) = lex MNeutral rest.
Proof. cbn. by destruct (lex MNeutral rest). Qed.

Lemma shows_space x l : shows x l -> shows (b " " ++ x) l.
Proof. intros Hx c rest Hc. change (b " " ++ x) with (32 :: x). cbn [app]. rewrite lex_space. by apply Hx. Qed.

Lemma lex_open rest : lex MNeutral (40 :: rest) = app [TOpen] <$> lex MNeutral rest.
Proof. done. Qed.
Lemma lex_close rest : lex MNeutral (41 :: rest) = app [TClose] <$> lex MNeutral rest.
Proof. done. Qed.

Lemma closes_node x l : shows x l -> closes (b "(" ++ x ++ b ")") [Node l].
Proof.
  intros Hx rest. change ((b "(" ++ x ++ b ")") ++ rest) with (40 :: (x ++ [41]) ++ rest).
  rewrite lex_open, <- app_assoc. cbn [app]. rewrite (Hx 41 rest eq_refl), lex_close, !app_fmap.
  cbn [flat_map flatten]. rewrite app_nil_r. by destruct (lex MNeutral rest).
Qed.

Lemma shows_separated {A} (f : A -> bytes) (g : A -> list Tree) l :
  (forall x, x ∈ l -> shows (f x) (g x)) -> shows (separated (map f l)) (flat_map g l).
Proof.
  induction l as [|x l IH]; intros Hl; cbn [map separated flat_map].
  - intros c rest _. cbn [app]. by destruct (lex MNeutral (c :: rest)).
  - destruct l as [|y l]; cbn [map].
    + cbn [flat_map]. rewrite app_nil_r. apply Hl. by left.
    + apply (shows_app _ _ (g x) (flat_map g (y :: l))); [apply Hl; by left| |done|done].
      apply (shows_space _ _ (IH (fun z Hz => Hl z (list_elem_of_further _ _ _ Hz)))).
Qed.

Lemma closes_flat_map {A} (f : A -> bytes) (g : A -> list Tree) l :
  (forall x, x ∈ l -> closes (f x) (g x)) -> closes (flat_map f l) (flat_map g l).
Proof.
  induction l as [|x l IH]; intros Hl; cbn [flat_map].
  - intros rest. by destruct (lex MNeutral rest) eqn:E; cbn; rewrite E.
  - eapply closes_app; [apply Hl; by left|apply IH; intros; apply Hl; by right|done].
Qed.

(** *** Strings *)
Definition text_ok (s : str) : Prop := Forall (fun c => c <> 13 /\ c <> 10) s.

Lemma lex_quoted s acc rest :
  text_ok s -> lex (MQuoted acc false) (flat_map quote_byte s ++ DQUOTE :: rest) = cons (TQuoted (acc ++ s)) <$> lex MNeutral rest.
Proof.
  intros Hs; revert acc; induction Hs as [|c s [H1 H2] Hs IH]; intros acc; cbn [flat_map]; [by rewrite app_nil_r|].
  rewrite (cons_middle c acc s), app_assoc, <- IH. apply Z.eqb_neq in H1, H2. unfold quote_byte.
  destruct (Z.eqb_spec c 92) as [->|H3]; [done|]. destruct (Z.eqb_spec c 34) as [->|H4]; [done|].
  unfold BACKSLASH, DQUOTE in *. rewrite (proj2 (Z.eqb_neq c 92) H3), (proj2 (Z.eqb_neq c 34) H4).
  cbn [orb app lex]. rewrite H1, H2, (proj2 (Z.eqb_neq c 92) H3), (proj2 (Z.eqb_neq c 34) H4). done.
Qed.

Lemma closes_quoted s : text_ok s -> closes (quoted_string s) [Quoted s].
Proof.
  intros Hs rest. unfold quoted_string. cbn [app]. rewrite <- app_assoc. cbn [app].
  change (lex MNeutral (DQUOTE :: ?r)) with (app [] <$> lex (MQuoted [] false) r). rewrite lex_quoted by done.
  by destruct (lex MNeutral rest).
Qed.

(** *** Atoms: no delimiter, but for what is in brackets *)
Fixpoint atom_scan (in_bracket : bool) (w : bytes) : bool :=
  match w with
  | [] => negb in_bracket
  | c :: w => if in_bracket then atom_scan (negb (c =? 93)) w else negb (is_special c) && atom_scan (c =? 91) w
  end.
Definition atom_ok (w : bytes) : Prop := w <> [] /\ atom_scan false w = true.

Lemma lex_atom w acc br c rest :
  atom_scan br w = true -> is_special c = true ->
  lex (MAtom acc br) (w ++ c :: rest) = app [TAtom (acc ++ w)] <$> lex MNeutral (c :: rest).
Proof.
  intros Hw Hc. revert acc br Hw; induction w as [|d w IH]; intros acc br Hw.
  - destruct br; [done|]. cbn [app]. rewrite app_nil_r. cbn [lex]. rewrite Hc. cbn [app].
    unfold is_special in Hc. destruct (c =? 32), (c =? 13), (c =? 40), (c =? 41), (c =? 10), (c =? 34), (c =? 123), (c =? 126);
      try done; cbn [orb]; by (destruct (lex _ rest)).
  - rewrite (cons_middle d acc w), app_assoc. cbn [atom_scan] in Hw. destruct br.
    + cbn [app lex]. by rewrite IH.
    + apply andb_true_iff in Hw as [Hd Hw]. apply negb_true_iff in Hd. cbn [app lex]. rewrite Hd. by rewrite IH.
Qed.

Lemma shows_atom w : atom_ok w -> shows w [Atom w].
Proof.
  intros [Hne Hw] c rest Hc. destruct w as [|d w]; [done|]. cbn [atom_scan] in Hw. apply andb_true_iff in Hw as [Hd Hw].
  apply negb_true_iff in Hd. cbn [app]. change (flat_map flatten [Atom (d :: w)]) with ([TAtom ([d] ++ w)]).
  rewrite <- (lex_atom w [d] (d =? 91) c rest Hw Hc). cbn [lex]. unfold is_special in Hd.
  rewrite !orb_false_iff in Hd. destruct Hd as [[[[[[[H1 H2] H3] H4] H5] H6] H7] H8].
  rewrite H1, H2, H3, H4, H5, H6, H7, H8. cbn [orb]. by destruct (lex _ _).
Qed.

Lemma atom_scan_digits w : Forall (fun c => is_ascii_digit c = true) w -> atom_scan false w = true.
Proof.
  intros Hw. induction Hw as [|c w Hc Hw IH]; [done|]. cbn [atom_scan]. unfold is_ascii_digit in Hc. unfold is_special.
  replace (c =? 91) with false by lia. rewrite IH. lia.
Qed.

Lemma atom_dec n : 0 <= n -> atom_ok (dec n).
Proof. intros Hn. split; [destruct (dec_cons n) as (? & ? & ->); done|]. by apply atom_scan_digits, dec_all_digits. Qed.

Lemma shows_dec n : 0 <= n -> shows (dec n) [number_tree n].
Proof. intros. by apply shows_atom, atom_dec. Qed.

Lemma shows_string_or_nil s : (forall t, s = Some t -> text_ok t) -> shows (quoted_string_or_nil s) [string_tree s].
Proof.
  destruct s as [s|]; intros Hs; cbn [quoted_string_or_nil string_tree].
  - by apply closes_shows, closes_quoted, Hs.
  - apply shows_atom. by split.
Qed.

(** *** Literals *)
Lemma lex_digits binary w digits rest :
  Forall (fun c => is_ascii_digit c = true) w ->
  lex (MLiteral binary digits) (w ++ 125 :: rest) = lex (MLiteralLine binary (digits ++ w)) rest.
Proof.
  intros Hw; revert digits; induction Hw as [|c w Hc Hw IH]; intros digits; [by rewrite app_nil_r|].
  rewrite (cons_middle c digits w), app_assoc, <- IH. cbn [app lex]. unfold is_ascii_digit in Hc.
  by replace (c =? 125) with false by lia.
Qed.

Lemma lex_data binary acc s rest :
  s <> [] -> lex (MData binary (length s) acc) (s ++ rest) = cons (TLiteral binary (acc ++ s)) <$> lex MNeutral rest.
Proof.
  revert acc; induction s as [|c s IH]; intros acc Hs; [done|]. destruct s as [|d s]; [done|].
  rewrite (cons_middle c acc (d :: s)), app_assoc, <- IH by done. done.
Qed.

Definition length_ok (s : bytes) : Prop := Z.of_nat (length s) < 2 ^ 64.

Lemma lex_literal binary s rest :
  length_ok s ->
  lex (MLiteral binary []) (dec (Z.of_nat (length s)) ++ b "}" ++ CRLF ++ s ++ rest) = cons (TLiteral binary s) <$> lex MNeutral rest.
Proof.
  intros Hs. change (b "}" ++ CRLF ++ s ++ rest) with (125 :: 13 :: 10 :: s ++ rest).
  rewrite lex_digits by (apply dec_all_digits; lia). cbn [app lex Z.eqb Pos.eqb]. rewrite parse_uint_dec by (unfold length_ok in Hs; lia).
  destruct (Z.of_nat (length s)) eqn:E; [destruct s; [done|by cbn in E]| |lia].
  rewrite <- E, Nat2Z.id. apply (lex_data binary []). by destruct s.
Qed.

Lemma closes_literal s : length_ok s -> closes (literal_string s) [Literal false s].
Proof.
  intros Hs rest. unfold literal_string. change (b "{") with [123]. rewrite <- !app_assoc. cbn [app].
  change (lex MNeutral (123 :: ?r)) with (app [] <$> lex (MLiteral false []) r). rewrite (lex_literal false s rest Hs).
  by destruct (lex MNeutral rest).
Qed.

Lemma closes_literal8 x : length_ok x -> closes (b "~{" ++ dec (Z.of_nat (length x)) ++ b "}" ++ CRLF ++ x) [Literal true x].
Proof.
  intros Hs rest. change (b "~{") with [126; 123]. rewrite <- !app_assoc. cbn [app].
  change (lex MNeutral (126 :: 123 :: ?r)) with (app [] <$> lex (MLiteral true []) r). rewrite (lex_literal true x rest Hs).
  by destruct (lex MNeutral rest).
Qed.

(** ** The data *)
Definition opt_ok (s : option str) : Prop := forall t, s = Some t -> text_ok t.

(** A source route comes with a complete address. *)
Record email_address_ok (a : EmailAddress) : Prop := {
  ea_name_ok : opt_ok (ea_name a);
  ea_address_ok : text_ok (ea_address a);
  ea_route_ok : forall route addr, split_once 58 (ea_address a) = Some (route, addr) -> is_Some (split_once 64 addr)
}.

Definition address_ok (a : Address) : Prop :=
  match a with
  | Single a => email_address_ok a
  | Group g => opt_ok (ag_name g) /\ Forall email_address_ok (ag_addresses g)
  end.

Record envelope_ok (e : Envelope) : Prop := {
  env_subject_ok : opt_ok (env_subject e);
  env_from_ok : Forall address_ok (env_from e); env_sender_ok : Forall address_ok (env_sender e);
  env_reply_to_ok : Forall address_ok (env_reply_to e); env_to_ok : Forall address_ok (env_to e);
  env_cc_ok : Forall address_ok (env_cc e); env_bcc_ok : Forall address_ok (env_bcc e);
  env_in_reply_to_ok : opt_ok (env_in_reply_to e); env_message_id_ok : opt_ok (env_message_id e)
}.

Definition parameters_ok (l : list (str * str)) : Prop := Forall (fun p => text_ok p.1 /\ text_ok p.2) l.

Record fields_ok (f : BodyPartFields) : Prop := {
  subtype_ok : opt_ok (body_subtype f);
  fields_parameters_ok : forall l, body_parameters f = Some l -> parameters_ok l;
  id_ok : opt_ok (body_id f); description_ok : opt_ok (body_description f); encoding_ok : opt_ok (body_encoding f);
  octets_ok : 0 <= body_size_octets f
}.

Record extension_ok (x : BodyPartExtension) : Prop := {
  disposition_ok : forall d l, body_disposition x = Some (d, l) -> text_ok d /\ parameters_ok l;
  languages_ok : forall l, body_language x = Some l -> Forall text_ok l;
  location_ok : opt_ok (body_location x)
}.

Fixpoint body_ok (part : BodyPart) : Prop :=
  match part with
  | Multipart parts subtype parameters x =>
      foldr (fun part P => body_ok part /\ P) True parts /\ text_ok subtype /\
      (forall l, parameters = Some l -> parameters_ok l) /\ extension_ok x
  | Basic_ body_type fields md5 x => opt_ok body_type /\ fields_ok fields /\ opt_ok md5 /\ extension_ok x
  | Text_ fields lines md5 x => fields_ok fields /\ 0 <= lines /\ opt_ok md5 /\ extension_ok x
  | Message_ fields envelope body lines md5 x =>
      fields_ok fields /\ (forall e, envelope = Some e -> envelope_ok e) /\
      match body with Some body => body_ok body | None => True end /\ 0 <= lines /\ opt_ok md5 /\ extension_ok x
  end.

Lemma flat_map_one {A B} (f : A -> B) l : flat_map (fun x => [f x]) l = map f l.
Proof. induction l as [|x l IH]; cbn; by rewrite ?IH. Qed.

Lemma split_once_spec c s l r : split_once c s = Some (l, r) -> s = l ++ c :: r.
Proof.
  revert l r; induction s as [|x s IH]; intros l r; cbn [split_once]; [done|].
  destruct (Z.eqb_spec x c) as [->|]; [by intros [= <- <-]|].
  destruct (split_once c s) as [[l' r']|]; cbn; [|done]. intros [= <- <-]. cbn. f_equal. by apply IH.
Qed.

Lemma split_text_ok c s l r : split_once c s = Some (l, r) -> text_ok s -> text_ok l /\ text_ok r.
Proof. intros ->%split_once_spec [Hl Hr]%list.Forall_app. apply list.Forall_cons in Hr as [_ Hr]. done. Qed.

(** [x ++ " " ++ y] *)
Lemma shows_then x y l k m : shows x l -> shows y k -> m = l ++ k -> shows (x ++ b " " ++ y) m.
Proof. intros Hx Hy Hm. apply (shows_app _ _ l k); [done|by apply shows_space|done|done]. Qed.

Lemma nil_shows : shows (b "NIL") [nil_tree].
Proof. apply shows_atom. by split. Qed.

(** A parenthesis around what [H] shows. *)
Ltac as_node H := apply closes_node in H; rewrite <- ?app_assoc in H; rewrite <- ?app_assoc; exact H.

Lemma closes_email_address a : email_address_ok a -> closes (email_address_serialize a) [email_address_tree a].
Proof.
  intros [Hn Ha Hr]. unfold email_address_serialize, email_address_tree, address_parts.
  assert (Hname := shows_string_or_nil _ Hn).
  destruct (split_once 58 (ea_address a)) as [[route addr]|] eqn:E.
  - destruct (Hr _ _ eq_refl) as [[local host] E2]. rewrite E2. cbn [default].
    destruct (split_text_ok _ _ _ _ E Ha) as [Hroute Haddr]. destruct (split_text_ok _ _ _ _ E2 Haddr) as [Hl Hh].
    assert (Hall : shows (quoted_string_or_nil (ea_name a) ++ b " " ++ quoted_string route ++ b " " ++ quoted_string local ++
                     b " " ++ quoted_string host) [string_tree (ea_name a); Quoted route; Quoted local; Quoted host]).
    { eapply shows_then; [exact Hname| |reflexivity].
      eapply shows_then; [by apply closes_shows, closes_quoted| |reflexivity].
      eapply shows_then; [by apply closes_shows, closes_quoted|by apply closes_shows, closes_quoted|reflexivity]. }
    as_node Hall.
  - assert (Hrest : forall x l, shows x l -> closes (b "(" ++ quoted_string_or_nil (ea_name a) ++ b " NIL " ++ x ++ b ")")
                       [Node (string_tree (ea_name a) :: nil_tree :: l)]).
    { intros x l Hx. assert (Hall : shows (quoted_string_or_nil (ea_name a) ++ b " " ++ b "NIL" ++ b " " ++ x)
        (string_tree (ea_name a) :: nil_tree :: l)).
      { eapply shows_then; [exact Hname| |reflexivity]. eapply shows_then; [apply nil_shows|exact Hx|reflexivity]. }
      as_node Hall. }
    destruct (split_once 64 (ea_address a)) as [[local host]|] eqn:E2; cbn [default].
    + destruct (split_text_ok _ _ _ _ E2 Ha) as [Hl Hh]. apply Hrest.
      eapply shows_then; [by apply closes_shows, closes_quoted|by apply closes_shows, closes_quoted|reflexivity].
    + apply Hrest. apply (shows_then (quoted_string (ea_address a)) (quoted_string []) [Quoted (ea_address a)] [Quoted []]);
        [by apply closes_shows, closes_quoted|apply closes_shows, closes_quoted; constructor|done].
Qed.

Lemma closes_address a : address_ok a -> closes (address_serialize a) (address_trees a).
Proof.
  destruct a as [a|g]; cbn [address_ok address_serialize address_trees]; [by apply closes_email_address|].
  intros [Hn Ha]. unfold address_group_serialize.
  set (name := match ag_name g with Some name => quoted_string name | None => [DQUOTE; DQUOTE] end).
  assert (Hname : shows name [Quoted (default [] (ag_name g))]).
  { unfold name. destruct (ag_name g) as [s|]; cbn; [by apply closes_shows, closes_quoted, Hn|apply closes_shows].
    change [DQUOTE; DQUOTE] with (quoted_string []). apply closes_quoted. constructor. }
  assert (Hopen : closes (b "(NIL NIL " ++ name ++ b " NIL)") [Node [nil_tree; nil_tree; Quoted (default [] (ag_name g)); nil_tree]]).
  { assert (Hall : shows (b "NIL" ++ b " " ++ b "NIL" ++ b " " ++ name ++ b " " ++ b "NIL")
                     [nil_tree; nil_tree; Quoted (default [] (ag_name g)); nil_tree]).
    { eapply shows_then; [apply nil_shows| |reflexivity]. eapply shows_then; [apply nil_shows| |reflexivity].
      eapply shows_then; [exact Hname|apply nil_shows|reflexivity]. }
    as_node Hall. }
  rewrite (app_assoc name), (app_assoc (b "(NIL NIL ")). eapply closes_app; [exact Hopen| |reflexivity].
  eapply closes_app; [apply (closes_flat_map _ (fun a => [email_address_tree a]))| |].
  - intros x Hx. apply closes_email_address. by apply (proj1 (list.Forall_forall _ _) Ha).
  - assert (Hall : shows (b "NIL" ++ b " " ++ b "NIL" ++ b " " ++ b "NIL" ++ b " " ++ b "NIL") [nil_tree; nil_tree; nil_tree; nil_tree]).
    { eapply shows_then; [apply nil_shows| |reflexivity]. eapply shows_then; [apply nil_shows| |reflexivity].
      eapply shows_then; [apply nil_shows|apply nil_shows|reflexivity]. }
    as_node Hall.
  - by rewrite flat_map_one.
Qed.

Lemma shows_addresses l : Forall address_ok l -> shows (serialize_addresses l) [addresses_tree l].
Proof.
  intros Hl. unfold serialize_addresses, addresses_tree. apply shows_space. destruct (decide (l <> [])).
  - apply closes_shows, closes_node, closes_shows, closes_flat_map. intros a Ha. apply closes_address.
    by apply (proj1 (list.Forall_forall _ _) Hl).
  - apply nil_shows.
Qed.

Lemma or_from_ok from l : Forall address_ok from -> Forall address_ok l -> Forall address_ok (or_from from l).
Proof. unfold or_from. by case_decide. Qed.

Lemma shows_parameters l : parameters_ok l -> shows (parameters_serialize l) (flat_map (fun '(k, v) => [Quoted k; Quoted v]) l).
Proof.
  intros Hl. apply shows_separated. intros [k v] Hp. apply (proj1 (list.Forall_forall _ _) Hl) in Hp as [Hk Hv].
  eapply shows_then; [by apply closes_shows, closes_quoted|by apply closes_shows, closes_quoted|reflexivity].
Qed.

Lemma shows_parameters_or_nil p :
  (forall l, p = Some l -> parameters_ok l) -> shows (parameters_or_nil p) [from_option parameters_tree nil_tree p].
Proof.
  intros Hp. destruct p as [l|]; cbn [parameters_or_nil from_option].
  - apply (shows_space (b "(" ++ parameters_serialize l ++ b ")")). apply closes_shows, closes_node, shows_parameters, Hp. done.
  - apply (shows_space (b "NIL")), nil_shows.
Qed.

Lemma special_parameters p x : head_special (parameters_or_nil p ++ x).
Proof. by destruct p. Qed.

Lemma shows_fields f : fields_ok f -> shows (fields_serialize f) (fields_trees f).
Proof.
  intros [Hs Hp Hi Hd He Ho]. unfold fields_serialize, fields_trees. cbn [flat_map]. rewrite app_nil_r, <- !app_assoc.
  eapply shows_app; [by apply shows_string_or_nil| |apply special_parameters|reflexivity].
  eapply shows_app; [by apply shows_parameters_or_nil| |done|reflexivity]. apply shows_space.
  eapply shows_then; [by apply shows_string_or_nil| |reflexivity].
  eapply shows_then; [by apply shows_string_or_nil| |reflexivity].
  eapply shows_then; [by apply shows_string_or_nil|by apply shows_dec|reflexivity].
Qed.

Lemma shows_languages l :
  (forall x, l = Some x -> Forall text_ok x) -> shows (languages_serialize l) [languages_tree l] /\ forall x, head_special (languages_serialize l ++ x).
Proof.
  intros Hl. destruct l as [[|lang [|lang' l]]|]; (split; [|done]); cbn [languages_serialize languages_tree].
  - apply (shows_space (b "NIL")), nil_shows.
  - apply shows_space, closes_shows, closes_quoted. exact (List.Forall_inv (Hl _ eq_refl)).
  - apply (shows_space (b "(" ++ separated (map quoted_string (lang :: lang' :: l)) ++ b ")")).
    apply closes_shows, closes_node. rewrite <- (flat_map_one Quoted). apply shows_separated. intros x Hx.
    apply closes_shows, closes_quoted. by apply (proj1 (list.Forall_forall _ _) (Hl _ eq_refl)).
  - apply (shows_space (b "NIL")), nil_shows.
Qed.

Lemma shows_extension x : extension_ok x -> shows (extension_serialize x) (extension_trees x).
Proof.
  intros [Hd Hl Hloc]. unfold extension_serialize, extension_trees. destruct (shows_languages _ Hl) as [Hlang Hspecial].
  apply (shows_app _ _ [from_option (fun '(d, l) => Node [Quoted d; parameters_tree l]) nil_tree (body_disposition x)]
    [languages_tree (body_language x); string_tree (body_location x)]); [| |apply Hspecial|done].
  2: { eapply shows_then; [exact Hlang|by apply shows_string_or_nil|reflexivity]. }
  destruct (body_disposition x) as [[d l]|]; cbn [from_option]; [|apply nil_shows].
  destruct (Hd d l eq_refl) as [Hdt Hp]. apply closes_shows.
  assert (Hall : shows (quoted_string d ++ b " " ++ b "(" ++ parameters_serialize l ++ b ")") [Quoted d; parameters_tree l]).
  { eapply shows_then; [by apply closes_shows, closes_quoted| |reflexivity].
    by apply closes_shows, closes_node, shows_parameters. }
  as_node Hall.
Qed.

Lemma shows_extended is_extended md5 x :
  opt_ok md5 -> extension_ok x ->
  shows (extended_serialize is_extended md5 x) (extended_trees is_extended md5 x) /\ head_special (extended_serialize is_extended md5 x).
Proof.
  intros Hm Hx. unfold extended_serialize, extended_trees. destruct is_extended; (split; [|done]).
  - apply shows_space. eapply shows_then; [by apply shows_string_or_nil|by apply shows_extension|reflexivity].
  - intros c rest _. cbn [app flat_map]. by destruct (lex MNeutral (c :: rest)).
Qed.

(** Dates are rendered without quotes, backslashes and line ends. *)
Definition plain (s : str) : Prop := Forall (fun c => c <> 13 /\ c <> 10 /\ c <> 34 /\ c <> 92) s.

Lemma plain_quoted s : plain s -> DQUOTE :: s ++ [DQUOTE] = quoted_string s /\ text_ok s.
Proof.
  intros Hs. split; [|eapply List.Forall_impl; [|exact Hs]; cbn; tauto]. unfold quoted_string. do 2 f_equal.
  induction Hs as [|c s (? & ? & H3 & H4) Hs IH]; [done|]. cbn [flat_map]. unfold quote_byte, BACKSLASH, DQUOTE.
  rewrite (proj2 (Z.eqb_neq c 92) H4), (proj2 (Z.eqb_neq c 34) H3). cbn. by f_equal.
Qed.

Section Responses.
Context `{Chrono}.
Hypothesis Hdatetime : forall t, plain (format_datetime t).
Hypothesis Hrfc2822 : forall t, plain (format_rfc2822 t).

Lemma shows_date d : shows (quoted_rfc2822_or_nil d) [string_tree (format_rfc2822 <$> d)].
Proof using Hrfc2822.
  destruct d as [d|]; cbn [quoted_rfc2822_or_nil]; [|apply nil_shows]. unfold quoted_rfc2822.
  destruct (plain_quoted _ (Hrfc2822 d)) as [-> Ht]. by apply closes_shows, closes_quoted.
Qed.

Lemma closes_envelope e : envelope_ok e -> closes (envelope_serialize e) [envelope_tree e].
Proof using Hrfc2822.
  intros []. assert (Hall : shows (quoted_rfc2822_or_nil (env_date e) ++ b " " ++ quoted_string_or_nil (env_subject e) ++
    serialize_addresses (env_from e) ++ serialize_addresses (or_from (env_from e) (env_sender e)) ++
    serialize_addresses (or_from (env_from e) (env_reply_to e)) ++ serialize_addresses (env_to e) ++
    serialize_addresses (env_cc e) ++ serialize_addresses (env_bcc e) ++
    b " " ++ quoted_string_or_nil (env_in_reply_to e) ++ b " " ++ quoted_string_or_nil (env_message_id e))
    (match envelope_tree e with Node l => l | _ => [] end)).
  { eapply shows_then; [apply shows_date| |reflexivity]. eapply shows_app; [by apply shows_string_or_nil| |done|reflexivity].
    do 6 (eapply shows_app; [apply shows_addresses; by try apply or_from_ok| |done|reflexivity]).
    apply shows_space. eapply shows_then; [by apply shows_string_or_nil|by apply shows_string_or_nil|reflexivity]. }
  unfold envelope_serialize. cbn [flat_map]. as_node Hall.
Qed.

(** *** Body structures *)
Fixpoint body_ind' (P : BodyPart -> Prop)
    (fm : forall parts subtype parameters x, Forall P parts -> P (Multipart parts subtype parameters x))
    (fb : forall body_type fields md5 x, P (Basic_ body_type fields md5 x))
    (ft : forall fields lines md5 x, P (Text_ fields lines md5 x))
    (fe : forall fields envelope body lines md5 x, (forall p, body = Some p -> P p) -> P (Message_ fields envelope body lines md5 x))
    (part : BodyPart) : P part :=
  let go := body_ind' P fm fb ft fe in
  match part with
  | Multipart parts subtype parameters x =>
      fm parts subtype parameters x ((fix all l : Forall P l :=
        match l with [] => @List.Forall_nil _ P | p :: l => @List.Forall_cons _ P p l (go p) (all l) end) parts)
  | Basic_ body_type fields md5 x => fb body_type fields md5 x
  | Text_ fields lines md5 x => ft fields lines md5 x
  | Message_ fields envelope body lines md5 x =>
      fe fields envelope body lines md5 x
        match body with
        | Some q => fun p e => match e in _ = o return match o with Some p => P p | None => True end with eq_refl => go q end
        | None => fun p e => match e in _ = o return match o with Some p => P p | None => True end with eq_refl => I end
        end
  end.

Lemma closes_body part is_extended :
  body_ok part -> closes (body_part_serialize part is_extended) [body_tree part is_extended].
Proof using Hrfc2822.
  induction part as [parts subtype parameters x IH|body_type fields md5 x|fields lines md5 x|fields envelope body lines md5 x IH]
    using body_ind'; cbn [body_ok]; intros Hok; cbn [body_part_serialize body_tree].
  - destruct Hok as (Hparts & Hs & Hp & Hx).
    assert (Hseparated : shows (separated (map (fun part => body_part_serialize part is_extended) parts))
                           (map (fun part => body_tree part is_extended) parts)).
    { rewrite <- (flat_map_one (fun part => body_tree part is_extended)). apply shows_separated.
      intros p Hin. apply closes_shows. apply (proj1 (list.Forall_forall _ _) IH p Hin). clear -Hparts Hin.
      induction parts as [|q parts IHp]; [by apply elem_of_nil in Hin|]. destruct Hparts as [Hq Hparts].
      apply elem_of_cons in Hin as [->|Hin]; [done|by apply IHp]. }
    apply closes_node. eapply shows_then; [exact Hseparated| |reflexivity]. destruct is_extended.
    + eapply closes_then; [by apply closes_quoted| |reflexivity].
      eapply shows_then; [by apply shows_parameters_or_nil|by apply shows_extension|reflexivity].
    + rewrite app_nil_r. by apply closes_shows, closes_quoted.
  - destruct Hok as (Ht & Hf & Hm & Hx). destruct (shows_extended is_extended md5 x Hm Hx) as [He Hs].
    apply closes_node. eapply shows_then; [by apply shows_string_or_nil| |reflexivity].
    eapply shows_app; [by apply shows_fields|exact He|exact Hs|reflexivity].
  - destruct Hok as (Hf & Hl & Hm & Hx). destruct (shows_extended is_extended md5 x Hm Hx) as [He Hs].
    apply closes_node. eapply shows_then; [apply closes_shows, closes_quoted; repeat constructor; done| |reflexivity].
    eapply shows_then; [by apply shows_fields| |reflexivity].
    eapply shows_app; [by apply shows_dec|exact He|exact Hs|reflexivity].
  - destruct Hok as (Hf & Henv & Hb & Hl & Hm & Hx). destruct (shows_extended is_extended md5 x Hm Hx) as [He Hs].
    apply closes_node. eapply shows_then; [apply closes_shows, closes_quoted; repeat constructor; done| |reflexivity].
    eapply shows_then; [by apply shows_fields| |reflexivity].
    eapply (shows_then _ _ [from_option envelope_tree nil_tree envelope]); [| |reflexivity].
    { destruct envelope as [e|]; [by apply closes_shows, closes_envelope, Henv|apply nil_shows]. }
    eapply (shows_then _ _ [match body with Some body => body_tree body is_extended | None => nil_tree end]); [| |reflexivity].
    { destruct body as [p|]; [by apply closes_shows, IH|apply nil_shows]. }
    eapply shows_app; [by apply shows_dec|exact He|exact Hs|reflexivity].
Qed.

(** *** Sections *)
Definition no_bracket (w : bytes) : Prop := Forall (fun c => c <> 93) w.

Lemma atom_scan_plain w v : forallb (fun c => negb (is_special c) && negb (c =? 91)) w = true -> atom_scan false (w ++ v) = atom_scan false v.
Proof.
  induction w as [|c w IH]; intros Hw; [done|]. cbn [forallb] in Hw. apply andb_true_iff in Hw as [Hc Hw].
  apply andb_true_iff in Hc as [Hs Hb]. apply negb_true_iff in Hb. cbn [app atom_scan]. by rewrite Hs, Hb, IH.
Qed.

Lemma atom_scan_bracket w v : no_bracket w -> atom_scan true (w ++ 93 :: v) = atom_scan false v.
Proof.
  intros Hw. induction Hw as [|c w Hc Hw IH]; [done|]. cbn [app atom_scan]. by rewrite (proj2 (Z.eqb_neq c 93) Hc).
Qed.

Lemma digits_plain w : Forall (fun c => is_ascii_digit c = true) w -> forallb (fun c => negb (is_special c) && negb (c =? 91)) w = true.
Proof.
  intros Hw. induction Hw as [|c w Hc Hw IH]; [done|]. cbn [forallb]. rewrite IH. unfold is_ascii_digit in Hc. unfold is_special. lia.
Qed.

Definition origin_ok (origin : option Z) : Prop := forall n, origin = Some n -> 0 <= n.

Lemma section_name_ok name sections origin :
  name <> [] -> forallb (fun c => negb (is_special c) && negb (c =? 91)) name = true -> no_bracket (dotted sections) -> origin_ok origin ->
  atom_ok (name ++ b "[" ++ dotted sections ++ b "]" ++ from_option (fun o => b "<" ++ dec o ++ b ">") [] origin).
Proof.
  intros Hne Hn Hs Ho. split; [by destruct name|]. rewrite atom_scan_plain by done.
  change (atom_scan false (b "[" ++ ?x)) with (atom_scan true x). change (b "]") with [93]. cbn [app].
  rewrite atom_scan_bracket by done. destruct origin as [n|]; [|done]. cbn [from_option].
  change (atom_scan false (b "<" ++ ?x)) with (atom_scan false x). rewrite atom_scan_plain; [done|].
  apply digits_plain, dec_all_digits, Ho. done.
Qed.

Lemma origin_text origin : origin_serialize origin = b "]" ++ from_option (fun o => b "<" ++ dec o ++ b ">") [] origin ++ b " ".
Proof. destruct origin; cbn [origin_serialize from_option]; [|done]. by rewrite <- !app_assoc. Qed.

Lemma shows_section name sections origin x t :
  name <> [] -> forallb (fun c => negb (is_special c) && negb (c =? 91)) name = true -> no_bracket (dotted sections) -> origin_ok origin ->
  closes x [t] -> closes (name ++ b "[" ++ dotted sections ++ origin_serialize origin ++ x) [section_name name sections origin; t].
Proof.
  intros Hne Hn Hs Ho Hx rest. pose proof (shows_atom _ (section_name_ok name sections origin Hne Hn Hs Ho)) as Ha.
  rewrite origin_text. replace ((name ++ b "[" ++ dotted sections ++ (b "]" ++ from_option (fun o => b "<" ++ dec o ++ b ">") [] origin ++ b " ") ++ x) ++ rest)
    with ((name ++ b "[" ++ dotted sections ++ b "]" ++ from_option (fun o => b "<" ++ dec o ++ b ">") [] origin) ++ 32 :: (x ++ rest))
    by (rewrite <- !app_assoc; done).
  rewrite (Ha 32 _ eq_refl), lex_space, Hx, app_fmap. done.
Qed.

Definition section_ok (s : FetchSection) : Prop :=
  match s with
  | SecPart num => 0 <= num
  | SecHeaderFields _ fields => Forall no_bracket fields
  | _ => True
  end.

Lemma no_bracket_dec n : 0 <= n -> no_bracket (dec n).
Proof.
  intros Hn. eapply List.Forall_impl; [|apply (dec_all_digits n Hn)]. intros c Hc. unfold is_ascii_digit in Hc. lia.
Qed.

Lemma no_bracket_separated l : Forall no_bracket l -> no_bracket (separated l).
Proof.
  intros Hl. induction Hl as [|x l Hx Hl IH]; [constructor|]. destruct l; [done|]. cbn [separated].
  apply list.Forall_app. split; [done|]. by apply List.Forall_cons.
Qed.

Lemma no_bracket_dotted l : Forall no_bracket l -> no_bracket (dotted l).
Proof.
  intros Hl. induction Hl as [|x l Hx Hl IH]; [constructor|]. destruct l; [done|]. cbn [dotted].
  apply list.Forall_app. split; [done|]. by apply List.Forall_cons.
Qed.

Lemma no_bracket_section s : section_ok s -> no_bracket (section_serialize s).
Proof.
  destruct s as [num| |not fields| |]; cbn [section_ok section_serialize]; intros Hs; [by apply no_bracket_dec|by repeat constructor| |by repeat constructor..].
  apply list.Forall_app. split; [destruct not; by repeat constructor|]. apply List.Forall_cons; [done|].
  apply list.Forall_app. split; [|by repeat constructor]. apply no_bracket_separated, List.Forall_map.
  eapply List.Forall_impl; [|exact Hs]. intros f Hf. apply List.Forall_map. eapply List.Forall_impl; [|exact Hf].
  cbn. intros c Hc. unfold to_ascii_uppercase, is_ascii_lower. destruct (_ && _) eqn:E; lia.
Qed.

(** *** Data items *)
Definition data_item_ok (item : DataItem) : Prop :=
  match item with
  | DBinary sections offset contents =>
      Forall (fun n => 0 <= n) sections /\ origin_ok offset /\
      match contents with ContentsText s => length_ok s | ContentsBytes x => length_ok x end
  | DBinarySize sections size => Forall (fun n => 0 <= n) sections /\ 0 <= size
  | DBody part | DBodyStructure part => body_ok part
  | DBodySection sections origin contents => Forall section_ok sections /\ origin_ok origin /\ length_ok contents
  | DEnvelope e => envelope_ok e
  | DFlags flags => Forall (fun f => atom_ok (flag_serialize f)) flags
  | DInternalDate _ => True
  | DUid n | DRfc822Size n | DModSeq n => 0 <= n
  | DRfc822 s | DRfc822Header s | DRfc822Text s => length_ok s
  | DPreview s => forall t, s = Some t -> length_ok t
  | DEmailId id | DThreadId id => atom_ok id
  end.

Lemma shows_named name w x l : w = name ++ b " " -> atom_ok name -> shows x l -> shows (w ++ x) (Atom name :: l).
Proof. intros -> Hn Hx. rewrite <- app_assoc. eapply shows_then; [by apply shows_atom|exact Hx|done]. Qed.

Lemma shows_node x l : shows x l -> shows (b "(" ++ x ++ b ")") [Node l].
Proof. intros. by apply closes_shows, closes_node. Qed.

Lemma shows_data_item item : data_item_ok item -> shows (data_item_serialize item) (data_item_trees item).
Proof using All.
  destruct item as [sections offset contents|sections size|part|part|sections origin contents|e|flags|d|u|s|s|n|s|s|n|i|i];
    cbn [data_item_ok data_item_serialize data_item_trees]; intros Hok.
  - destruct Hok as (Hs & Ho & Hc). apply closes_shows.
    apply (shows_section (b "BINARY") (map dec sections) offset); [done|done| |done|].
    + apply no_bracket_dotted, List.Forall_map. eapply List.Forall_impl; [|exact Hs]. apply no_bracket_dec.
    + destruct contents; [by apply closes_literal|by apply closes_literal8].
  - destruct Hok as [Hs Hn]. assert (Hb : no_bracket (dotted (map dec sections))).
    { apply no_bracket_dotted, List.Forall_map. eapply List.Forall_impl; [|exact Hs]. apply no_bracket_dec. }
    pose proof (shows_atom _ (section_name_ok (b "BINARY.SIZE") (map dec sections) None ltac:(done) eq_refl Hb ltac:(done))) as Ha.
    pose proof (shows_then _ _ _ _ _ Ha (shows_dec size Hn) eq_refl) as Hall. cbn [from_option] in Hall.
    rewrite <- !app_assoc in Hall. exact Hall.
  - apply (shows_named (b "BODY")); [done|by split|]. by apply closes_shows, closes_body.
  - apply (shows_named (b "BODYSTRUCTURE")); [done|by split|]. by apply closes_shows, closes_body.
  - destruct Hok as (Hs & Ho & Hc). apply closes_shows.
    apply (shows_section (b "BODY") (map section_serialize sections) origin); [done|done| |done|by apply closes_literal].
    apply no_bracket_dotted, List.Forall_map. eapply List.Forall_impl; [|exact Hs]. apply no_bracket_section.
  - apply (shows_named (b "ENVELOPE")); [done|by split|]. by apply closes_shows, closes_envelope.
  - apply (shows_named (b "FLAGS") (b "FLAGS ") (b "(" ++ separated (map flag_serialize flags) ++ b ")")); [done|by split|].
    apply shows_node. rewrite <- (flat_map_one (fun f => Atom (flag_serialize f))). apply shows_separated. intros f Hf. apply shows_atom.
    by apply (proj1 (list.Forall_forall _ _) Hok).
  - apply (shows_named (b "INTERNALDATE")); [done|by split|]. unfold quoted_timestamp.
    destruct (plain_quoted _ (Hdatetime d)) as [-> Ht]. by apply closes_shows, closes_quoted.
  - apply (shows_named (b "UID")); [done|by split|by apply shows_dec].
  - apply (shows_named (b "RFC822")); [done|by split|by apply closes_shows, closes_literal].
  - apply (shows_named (b "RFC822.HEADER")); [done|by split|by apply closes_shows, closes_literal].
  - apply (shows_named (b "RFC822.SIZE")); [done|by split|by apply shows_dec].
  - apply (shows_named (b "RFC822.TEXT")); [done|by split|by apply closes_shows, closes_literal].
  - apply (shows_named (b "PREVIEW")); [done|by split|]. destruct s as [s|]; [|apply nil_shows].
    by apply closes_shows, closes_literal, Hok.
  - apply (shows_named (b "MODSEQ") (b "MODSEQ ") (b "(" ++ dec n ++ b ")")); [done|by split|]. by apply shows_node, shows_dec.
  - apply (shows_named (b "EMAILID") (b "EMAILID ") (b "(" ++ i ++ b ")")); [done|by split|]. by apply shows_node, shows_atom.
  - apply (shows_named (b "THREADID") (b "THREADID ") (b "(" ++ i ++ b ")")); [done|by split|]. by apply shows_node, shows_atom.
Qed.

Definition fetch_item_ok (item : FetchItem) : Prop := 0 <= fi_id item /\ Forall data_item_ok (fi_items item).

Lemma lex_fetch_item item rest :
  fetch_item_ok item ->
  lex MNeutral (fetch_item_serialize item ++ rest) = app (flat_map flatten (fetch_item_line item) ++ [TLine]) <$> lex MNeutral rest.
Proof using All.
  intros [Hid Hitems]. assert (Hall : shows (b "*" ++ b " " ++ dec (fi_id item) ++ b " " ++ b "FETCH" ++ b " " ++
    b "(" ++ separated (map data_item_serialize (fi_items item)) ++ b ")") (fetch_item_line item)).
  { eapply shows_then; [apply shows_atom; by split| |reflexivity]. eapply shows_then; [by apply shows_dec| |reflexivity].
    eapply shows_then; [apply (shows_atom (b "FETCH")); by split| |reflexivity]. apply shows_node, shows_separated.
    intros x Hx. apply shows_data_item. by apply (proj1 (list.Forall_forall _ _) Hitems). }
  specialize (Hall 13 (10 :: rest) eq_refl). rewrite <- !app_assoc in Hall. unfold fetch_item_serialize. rewrite <- !app_assoc.
  etransitivity; [exact Hall|]. change (lex MNeutral (13 :: 10 :: rest)) with (app [] <$> (app [TLine] <$> lex MNeutral rest)).
  generalize (flat_map flatten (fetch_item_line item)). intros fl. destruct (lex MNeutral rest); cbn; [by rewrite <- app_assoc|done].
Qed.

(** C27: A FETCH response is read back: cutting the bytes into atoms, quoted
    strings and literals and nesting the parentheses gives, line by line, the
    trees of the data items (envelopes, body structures with all their parts,
    sections, literals of any bytes), for any number of messages.  (The texts
    must not contain line ends; a source route comes with a full address.) *)
Theorem fetch_reads_back items :
  Forall fetch_item_ok items -> read_lines (fetch_response_serialize items) = Some (map fetch_item_line items).
Proof using All.
  intros Hi. unfold read_lines.
  assert (Hlex : lex MNeutral (fetch_response_serialize items) = Some (flat_map (fun i => flat_map flatten (fetch_item_line i) ++ [TLine]) items)).
  { unfold fetch_response_serialize. induction Hi as [|i items Hi Hitems IH]; [done|]. cbn [flat_map].
    rewrite lex_fetch_item by done. by rewrite IH. }
  rewrite Hlex. cbn [mbind option_bind]. clear Hlex Hi. induction items as [|i items IH]; [done|]. cbn [flat_map map].
  rewrite <- app_assoc, read_trees_all. cbn [app read_trees]. by rewrite IH.
Qed.
End Responses.

(** ** Concrete responses *)
#[local] Instance demo_chrono : Chrono := {|
  parse_datetime_str _ := None; parse_date_str _ := None;
  format_datetime _ := b "17-Jul-1996 02:44:25 +0000"; format_rfc2822 _ := b "Wed, 17 Jul 1996 02:23:25 +0000" |}.

Definition demo_item : FetchItem := mkFetchItem 7 [
  DFlags [Seen; Keyword (b "$Important")]; DUid 12;
  DEnvelope (mkEnvelope (Some 0) (Some [DQUOTE; 72; 105; DQUOTE]) [Single (mkEmailAddress None (b "ann@example.org"))] [] []
    [Group (mkAddressGroup (Some (b "Friends")) [mkEmailAddress (Some (b "Bob")) (b "bob@example.org")])] [] [] None None);
  DBody (Multipart [Text_ (mkBodyPartFields (Some (b "plain")) (Some [(b "charset", b "utf-8")]) None None (Some (b "7bit")) 30) 2 None
                      (mkBodyPartExtension None None None)] (b "mixed") None (mkBodyPartExtension None None None));
  DBodySection [SecPart 1; SecHeaderFields false [b "Subject"; b "From"]] (Some 0) [41; 13; 10; 34; 123]].

Lemma fetch_reads_back_witness :
  read_lines (fetch_response_serialize [demo_item; mkFetchItem 8 []]) =
  Some [fetch_item_line demo_item; [Atom (b "*"); Atom (b "8"); Atom (b "FETCH"); Node []]].
Proof.
  assert (Hdt : forall t, plain (format_datetime t)) by (intros t; refine (bool_decide_eq_true_1 _ _); vm_compute; reflexivity).
  assert (Hrfc : forall t, plain (format_rfc2822 t)) by (intros t; refine (bool_decide_eq_true_1 _ _); vm_compute; reflexivity).
  apply (fetch_reads_back Hdt Hrfc [demo_item; mkFetchItem 8 []]).
  assert (Hnone : opt_ok None) by (intros t; discriminate).
  assert (Hx : extension_ok (mkBodyPartExtension None None None)) by (split; try done; discriminate).
  assert (Hsome : forall s : str, forallb (fun c => negb (c =? 13) && negb (c =? 10)) s = true -> opt_ok (Some s)).
  { intros s Hs t [= <-]. apply list.Forall_forall. intros c Hc%list_elem_of_In. apply (proj1 (forallb_forall _ _) Hs) in Hc. lia. }
  assert (Ha : forall n s, opt_ok n -> opt_ok (Some s) -> split_once 58 s = None -> email_address_ok (mkEmailAddress n s)).
  { intros n s Hn Hs E. split; [done|by apply Hs|cbn; by rewrite E]. }
  apply List.Forall_cons; [|apply List.Forall_cons; [|constructor]]; (split; [done|]); [|constructor].
  apply List.Forall_cons; [|apply List.Forall_cons; [|apply List.Forall_cons; [|apply List.Forall_cons; [|apply List.Forall_cons; [|constructor]]]]].
  - apply List.Forall_cons; [|apply List.Forall_cons; [|constructor]]; by split.
  - done.
  - split; cbn; try done; try (by constructor); [by apply Hsome| |].
    + apply List.Forall_cons; [|constructor]. by apply Ha; [|apply Hsome|].
    + apply List.Forall_cons; [|constructor]. split; [by apply Hsome|]. apply List.Forall_cons; [|constructor].
      apply Ha; [by apply Hsome|by apply Hsome|done].
  - cbn. split; [split; [|done]|split; [by apply (Hsome (b "mixed"))|split; [discriminate|done]]].
    split; [|split; [lia|done]]. split; cbn; try done; try (by apply Hsome).
    intros l [= <-]. apply List.Forall_cons; [|constructor]. split; [by apply (Hsome (b "charset"))|by apply (Hsome (b "utf-8"))].
  - cbn. split_and!; [|by intros n [= <-]|done]. apply List.Forall_cons; [done|]. apply List.Forall_cons; [|constructor].
    cbn. repeat constructor; discriminate.
Defined.

(** A source route before a bare name: the mailbox repeats the route. *)
Example route_repeated :
  email_address_serialize (mkEmailAddress None (b "relay:bob")) =
  b "(NIL " ++ quoted_string (b "relay") ++ b " " ++ quoted_string (b "relay:bob") ++ b " " ++ quoted_string [] ++ b ")".
Proof. vm_compute. reflexivity. Qed.

(** A line end in a header goes into a quoted string as it is, and the line cannot be read. *)
Example subject_with_line_end :
  read_lines (fetch_response_serialize [mkFetchItem 1 [DEnvelope (mkEnvelope None (Some [72; 10]) [] [] [] [] [] [] None None)]]) = None.
Proof. vm_compute. reflexivity. Qed.
