(* ===== verification/Mime.v ===== *)
(** * Parts of a message: [src/commands/fetch.rs], [impl AsImapDataItem for Message]

    A message as the [mail_parser] library leaves it (its fields, as far as the
    server reads them, are data here), and what FETCH makes of it: the body
    structure, sections, decoded parts and the envelope. *)

From S2P Require Import Prelude Utf8 Utf7 Types Flags Wire ParseFetch Responses FetchWire.

(** ** The parsed message *)
Record Header := mkHeader { h_name : str; h_is_mime : bool; h_start : nat; h_end : nat }.

Record ContentType := mkContentType { c_type : str; c_subtype : option str; c_attributes : option (list (str * str)) }.

(** The values of the headers of a part that the library has parsed. *)
Record MimeFields := mkMimeFields {
  content_type : option ContentType; content_id : option str; content_description : option str;
  content_transfer_encoding : option str; content_disposition : option ContentType;
  content_language : option (list str); content_location : option str
}.

Record Addr := mkAddr { addr_name : option str; addr_address : option str }.
Record AddrGroup := mkAddrGroup { group_name : option str; group_addresses : list Addr }.
Inductive HeaderValue :=
| HvAddress (a : Addr) | HvAddressList (l : list Addr) | HvGroup (g : AddrGroup) | HvGroupList (l : list AddrGroup) | HvOther.

(** The values of the headers of a message. *)
Record MessageFields := mkMessageFields {
  get_date : option Z; get_subject : option str;
  get_from : list HeaderValue; get_sender : list HeaderValue; get_reply_to : list HeaderValue;
  get_to : list HeaderValue; get_cc : list HeaderValue; get_bcc : list HeaderValue;
  get_in_reply_to : option (list str); get_message_id : option str
}.

#[warnings="-register-all"]
Inductive Message_t :=
| mkMessage (raw_message : bytes) (message_fields : MessageFields) (parts : list MessagePart)
with MessagePart :=
| mkPart (headers : list Header) (mime : MimeFields) (offset_header offset_body offset_end : nat) (is_encoding_problem : bool)
    (body : PartType)
with PartType :=
| PtText (s : str) | PtHtml (s : str) | PtBinary (x : bytes) | PtInlineBinary (x : bytes)
| PtMessage (m : Message_t) | PtMultipart (parts : list nat).

Definition raw_message (m : Message_t) : bytes := let '(mkMessage r _ _) := m in r.
Definition message_fields (m : Message_t) : MessageFields := let '(mkMessage _ f _) := m in f.
Definition message_parts (m : Message_t) : list MessagePart := let '(mkMessage _ _ p) := m in p.
Definition part_headers (p : MessagePart) : list Header := let '(mkPart h _ _ _ _ _ _) := p in h.
Definition part_mime (p : MessagePart) : MimeFields := let '(mkPart _ m _ _ _ _ _) := p in m.
Definition offset_header (p : MessagePart) : nat := let '(mkPart _ _ o _ _ _ _) := p in o.
Definition offset_body (p : MessagePart) : nat := let '(mkPart _ _ _ o _ _ _) := p in o.
Definition offset_end (p : MessagePart) : nat := let '(mkPart _ _ _ _ o _ _) := p in o.
Definition is_encoding_problem (p : MessagePart) : bool := let '(mkPart _ _ _ _ _ e _) := p in e.
Definition part_body (p : MessagePart) : PartType := let '(mkPart _ _ _ _ _ _ b) := p in b.

(** [get_root_part]: the first of the parts; [get_sub_parts], [is_message] *)
Definition get_root_part {E} (m : Message_t) : Res E MessagePart := unwrap (message_parts m !! 0%nat).
Definition get_sub_parts (p : MessagePart) : option (list nat) :=
  match part_body p with PtMultipart ids => Some ids | _ => None end.
Definition is_message (p : MessagePart) : bool := match part_body p with PtMessage _ => true | _ => false end.

(** [slice.get(start..end)] *)
Definition get_range (x : bytes) (start end_ : nat) : option bytes :=
  if (start <=? end_)%nat && (end_ <=? length x)%nat then Some (take (end_ - start) (drop start x)) else None.

(** ** Partial fetches *)
Definition get_partial_bytes (x : bytes) (partial : option (Z * Z)) : bytes :=
  match partial with
  | Some (start, end_) =>
      default [] (get_range x (Z.to_nat start) (Nat.min (Z.to_nat (wrap32 (start + end_))) (length x)))
  | None => x
  end.

(** ** Addresses and envelopes *)
Definition single_address (a : Addr) : list Address :=
  match addr_address a with Some email => [Single (mkEmailAddress (addr_name a) email)] | None => [] end.

Definition group_address (g : AddrGroup) : Address :=
  Group (mkAddressGroup (group_name g)
    (flat_map (fun a => match addr_address a with Some email => [mkEmailAddress (addr_name a) email] | None => [] end) (group_addresses g))).

Definition as_imap_address (v : HeaderValue) : list Address :=
  match v with
  | HvAddress a => single_address a
  | HvAddressList l => flat_map single_address l
  | HvGroup g => [group_address g]
  | HvGroupList l => map group_address l
  | HvOther => []
  end.

(** ["<id> <id>"] *)
Definition id_list (l : list str) : str := separated (map (fun id => b "<" ++ id ++ b ">") l).

Definition envelope (m : Message_t) : Envelope :=
  let f := message_fields m in
  mkEnvelope (get_date f) (get_subject f)
    (flat_map as_imap_address (get_from f)) (flat_map as_imap_address (get_sender f)) (flat_map as_imap_address (get_reply_to f))
    (flat_map as_imap_address (get_to f)) (flat_map as_imap_address (get_cc f)) (flat_map as_imap_address (get_bcc f))
    (id_list <$> get_in_reply_to f) ((fun id => b "<" ++ id ++ b ">") <$> get_message_id f).

(** ** Body structures *)

(** [format!("{:x}", md5::compute(b))] of the [md5] crate. *)
Class Md5 := md5_hex : bytes -> str.

Section Structure.
Context `{Md5}.

Definition is_text_part (p : MessagePart) : bool := match part_body p with PtText _ | PtHtml _ => true | _ => false end.
Definition is_multipart_part (p : MessagePart) : bool := match part_body p with PtMultipart _ => true | _ => false end.

Definition part_fields (p : MessagePart) (body : option bytes) (is_extended : bool) : BodyPartFields :=
  let ct := content_type (part_mime p) in
  let parameters := if negb (is_multipart_part p) || is_extended then ct ≫= c_attributes else None in
  if negb (is_multipart_part p) then
    let subtype := ct ≫= c_subtype in
    let id := (fun id => b "<" ++ id ++ b ">") <$> content_id (part_mime p) in
    let encoding := content_transfer_encoding (part_mime p) in
    let octets := match body with Some x => Z.of_nat (length x) | None => 0 end in
    if is_text_part p then
      mkBodyPartFields (Some (default (b "plain") subtype)) (Some (default [(b "charset", b "us-ascii")] parameters)) id
        (content_description (part_mime p)) (Some (default (b "7bit") encoding)) octets
    else mkBodyPartFields subtype parameters id (content_description (part_mime p)) encoding octets
  else mkBodyPartFields None parameters None None None 0.

Definition part_extension (p : MessagePart) (is_extended : bool) : BodyPartExtension :=
  if is_extended then
    mkBodyPartExtension ((fun cd => (c_type cd, default [] (c_attributes cd))) <$> content_disposition (part_mime p))
      (content_language (part_mime p)) (content_location (part_mime p))
  else mkBodyPartExtension None None None.

Definition as_body_part {E} (m : Message_t) (part_id : nat) (is_extended : bool) : Res E BodyPart :=
  let* p := unwrap (message_parts m !! part_id) in
  let body := get_range (raw_message m) (offset_body p) (offset_end p) in
  let fields := part_fields p body is_extended in
  let extension := part_extension p is_extended in
  let body_md5 := if is_extended && negb (is_multipart_part p) then md5_hex <$> body else None in
  Ok match part_body p with
     | PtMultipart _ =>
         Multipart [] (default [] (content_type (part_mime p) ≫= c_subtype)) (body_parameters fields) extension
     | PtMessage _ => Message_ fields None None 0 body_md5 extension
     | _ =>
         if is_text_part p then
           Text_ fields (match body with Some x => Z.of_nat (length (List.filter (Z.eqb LF) x)) | None => 0 end) body_md5 extension
         else Basic_ (c_type <$> content_type (part_mime p)) fields body_md5 extension
     end.

(** A part that is being put together: with the parts still to add, and the
    message they are from when it is not that of the part inside. *)
Record OpenPart := mkOpenPart { op_root : BodyPart; op_parts : list nat; op_message : option Message_t }.

(** [if let Some(root_part) = root_part { stack.push(..) }] *)
Definition push_open (root_part : option BodyPart) (parts : list nat) (message : option Message_t) (stack : list OpenPart)
  : list OpenPart :=
  match root_part with Some root => mkOpenPart root parts message :: stack | None => stack end.

Fixpoint structure_loop {E} (fuel : nat) (is_extended : bool) (message : Message_t) (parts : list nat) (root_part : option BodyPart)
    (stack : list OpenPart) : Res E BodyPart :=
  match fuel with
  | O => NoFuel
  | S fuel =>
      match parts with
      | part_id :: parts =>
          let* part := as_body_part message part_id is_extended in
          let* p := unwrap (message_parts message !! part_id) in
          match part_body p with
          | PtMessage nested_message =>
              structure_loop fuel is_extended nested_message [0%nat] (Some (set_envelope part (envelope nested_message)))
                (push_open root_part parts (Some message) stack)
          | PtMultipart subparts =>
              structure_loop fuel is_extended message subparts (Some part) (push_open root_part parts None stack)
          | _ =>
              match root_part with
              | Some root => structure_loop fuel is_extended message parts (Some (add_part root part)) stack
              | None => Ok part
              end
          end
      | [] =>
          match stack with
          | prev :: stack =>
              let* root := unwrap root_part in
              structure_loop fuel is_extended (default message (op_message prev)) (op_parts prev)
                (Some (add_part (op_root prev) root)) stack
          | [] => unwrap root_part
          end
      end
  end.

Definition body_structure {E} (fuel : nat) (m : Message_t) (is_extended : bool) : Res E BodyPart :=
  structure_loop fuel is_extended m [0%nat] None [].
End Structure.

(** ** Sections *)

(** The headers that [keep] keeps, as they are in the message, and an empty line. *)
Definition header_lines (m : Message_t) (keep : Header -> bool) (headers : list Header) : bytes :=
  flat_map (fun h => h_name h ++ b ":" ++ default [] (get_range (raw_message m) (h_start h) (h_end h))) (List.filter keep headers) ++ CRLF.

Definition lossy_partial (x : bytes) (partial : option (Z * Z)) : str := lossy (get_partial_bytes x partial).

(** [part = ...?] for a part number. *)
Definition select_part (message : Message_t) (part : MessagePart) (num : Z) (sections_single : bool) : option MessagePart :=
  match get_sub_parts part with
  | Some ids => pos ← ids !! Z.to_nat (Z.max 0 (num - 1)); message_parts message !! pos
  | None => if (num =? 1) && (sections_single || is_message part) then Some part else None
  end.

(** [if let (PartType::Message(nested), Some(_)) = (&part.body, iter.peek())] *)
Definition enter_message {E A} (message : Message_t) (part : MessagePart) (rest : list A) : Res E (Message_t * MessagePart) :=
  match part_body part, rest with
  | PtMessage nested_message, _ :: _ => let* root := get_root_part nested_message in Ok (nested_message, root)
  | _, _ => Ok (message, part)
  end.

Fixpoint section_loop {E} (sections : list FetchSection) (sections_single : bool) (partial : option (Z * Z))
    (message : Message_t) (part : MessagePart) : Res E (option str) :=
  match sections with
  | [] =>
      Ok ((fun x => lossy_partial x partial) <$> get_range (raw_message message) (offset_body part) (offset_end part))
  | SecPart num :: rest =>
      match select_part message part num sections_single with
      | None => Ok None
      | Some part =>
          let* (message, part) := enter_message message part rest in
          section_loop rest sections_single partial message part
      end
  | SecHeader :: _ =>
      Ok ((fun x => lossy_partial x partial) <$> get_range (raw_message message) (offset_header part) (offset_body part))
  | SecHeaderFields not fields :: _ =>
      Ok (Some (lossy_partial
        (header_lines message (fun h => negb (eqb (existsb (eq_ignore_ascii_case (h_name h)) fields) not)) (part_headers part)) partial))
  | SecText :: _ =>
      Ok ((fun x => lossy_partial x partial) <$> get_range (raw_message message) (offset_body part) (offset_end part))
  | SecMime :: _ =>
      Ok (Some (lossy_partial (header_lines message h_is_mime (part_headers part)) partial))
  end.

Definition body_section {E} (m : Message_t) (sections : list FetchSection) (partial : option (Z * Z)) : Res E (option str) :=
  let* part := get_root_part m in
  match sections with
  | [] => Ok ((fun x => lossy_partial x partial) <$> get_range (raw_message m) (offset_header part) (offset_end part))
  | _ => section_loop sections (length sections =? 1)%nat partial m part
  end.

(** ** Decoded parts *)
Fixpoint binary_part {E} (sections : list Z) (message : Message_t) (part : MessagePart) : Res E (option MessagePart) :=
  match sections with
  | [] => Ok (Some part)
  | section :: rest =>
      match (ids ← get_sub_parts part; pos ← ids !! Z.to_nat (Z.max 0 (section - 1)); message_parts message !! pos) with
      | None => Ok None
      | Some part =>
          let* (message, part) := enter_message message part rest in
          binary_part rest message part
      end
  end.

(** [Ok(None)]: no such part; [Err(())]: it cannot be decoded. *)
Definition binary (m : Message_t) (sections : list Z) (partial : option (Z * Z)) : Res unit (option BodyContents) :=
  let* root := get_root_part m in
  let* part := binary_part sections m root in
  match part with
  | None => Ok None
  | Some part =>
      if is_encoding_problem part then Err tt
      else
        match part_body part with
        | PtText text | PtHtml text => Ok (Some (ContentsText (lossy_partial text partial)))
        | PtBinary x | PtInlineBinary x => Ok (Some (ContentsBytes (get_partial_bytes x partial)))
        | PtMessage message =>
            let* root := get_root_part message in
            Ok (Some (ContentsBytes (get_partial_bytes
              (default [] (get_range (raw_message message) (offset_header root) (offset_end root))) partial)))
        | PtMultipart _ => Ok None
        end
  end.

Definition binary_size {E} (m : Message_t) (sections : list Z) : Res E (option Z) :=
  let* root := get_root_part m in
  let* part := binary_part sections m root in
  match part with
  | None => Ok None
  | Some part =>
      match part_body part with
      | PtText x | PtHtml x | PtBinary x | PtInlineBinary x => Ok (Some (Z.of_nat (length x)))
      | PtMessage message =>
          let* root := get_root_part message in
          Ok (Some (Z.of_nat (offset_end root - offset_header root)))
      | PtMultipart _ => Ok (Some 0)
      end
  end.
