(* ===== verification/MimeSpec.v ===== *)
(** * What FETCH makes of the parts of a message

    The structure of a message as the tree of its parts, which the loop of
    [body_structure] puts together; the partial fetches of an octet string; and
    the sections a message is cut into. *)

From S2P Require Import Prelude Utf8 Utf7 Types Flags Wire ParseFetch Responses FetchWire Mime.

(** ** The tree of parts *)
Section Tree.
Context `{Md5} (is_extended : bool).

(** [structured m id part]: [part] describes part [id] of the message and
    everything inside it. *)
Inductive structured : Message_t -> nat -> BodyPart -> Prop :=
| structured_leaf m id p part :
    message_parts m !! id = Some p -> is_message p = false -> get_sub_parts p = None ->
    as_body_part (E := unit) m id is_extended = Ok part ->
    structured m id part
| structured_message m id p nested part inner :
    message_parts m !! id = Some p -> part_body p = PtMessage nested ->
    as_body_part (E := unit) m id is_extended = Ok part ->
    structured nested 0 inner ->
    structured m id (add_part (set_envelope part (envelope nested)) inner)
| structured_multipart m id p ids part inner :
    message_parts m !! id = Some p -> part_body p = PtMultipart ids ->
    as_body_part (E := unit) m id is_extended = Ok part ->
    structured_all m ids inner ->
    structured m id (foldl add_part part inner)
with structured_all : Message_t -> list nat -> list BodyPart -> Prop :=
| structured_nil m : structured_all m [] []
| structured_cons m id ids part parts :
    structured m id part -> structured_all m ids parts -> structured_all m (id :: ids) (part :: parts).

Scheme structured_mind := Minimality for structured Sort Prop
  with structured_all_mind := Minimality for structured_all Sort Prop.
Combined Scheme structured_both from structured_mind, structured_all_mind.

Lemma as_body_part_ok {E F} m id part : as_body_part (E := E) m id is_extended = Ok part -> as_body_part (E := F) m id is_extended = Ok part.
Proof. unfold as_body_part. destruct (message_parts m !! id); cbn; [by intros [= ->]|done]. Qed.

(** In the middle of the loop: a part of the tree is added to the part around
    it, and the loop goes on with the parts that follow. *)
Lemma structure_loop_both {E} :
  (forall m id part, structured m id part ->
     exists n, forall fuel rest root stack,
       structure_loop (E := E) (n + fuel) is_extended m (id :: rest) (Some root) stack =
       structure_loop fuel is_extended m rest (Some (add_part root part)) stack) /\
  (forall m ids parts, structured_all m ids parts ->
     exists n, forall fuel rest root stack,
       structure_loop (E := E) (n + fuel) is_extended m (ids ++ rest) (Some root) stack =
       structure_loop fuel is_extended m rest (Some (foldl add_part root parts)) stack).
Proof.
  apply structured_both.
  - intros m id p part Hp Hm Hs Hpart. exists 1%nat. intros. cbn [Nat.add structure_loop].
    rewrite (as_body_part_ok _ _ _ Hpart), Hp. cbn.
    unfold is_message, get_sub_parts in *. by destruct (part_body p).
  - intros m id p nested part inner Hp Hb Hpart _ [n IH]. exists (S (n + 1))%nat. intros.
    cbn [Nat.add structure_loop]. rewrite (as_body_part_ok _ _ _ Hpart), Hp. cbn. rewrite Hb.
    rewrite <- Nat.add_assoc, IH. done.
  - intros m id p ids part inner Hp Hb Hpart _ [n IH]. exists (S (n + 1))%nat. intros.
    cbn [Nat.add structure_loop]. rewrite (as_body_part_ok _ _ _ Hpart), Hp. cbn. rewrite Hb.
    rewrite <- Nat.add_assoc, <- (app_nil_r ids), IH. done.
  - intros m. exists 0%nat. done.
  - intros m id ids part parts _ [n IH] _ [k IHs]. exists (n + k)%nat. intros. cbn [app].
    by rewrite <- Nat.add_assoc, IH, IHs.
Qed.

Lemma body_structure_structured {E} m part :
  structured m 0 part -> exists n, forall fuel, body_structure (E := E) (n + fuel) m is_extended = Ok part.
Proof.
  unfold body_structure. destruct (structure_loop_both (E := E)) as [Hone Hall].
  intros Hs. inversion Hs as [? ? p ? Hp Hm Hsub Hpart|? ? p nested part' inner Hp Hb Hpart Hin|? ? p ids part' inner Hp Hb Hpart Hin]; subst.
  - exists 1%nat. intros. cbn [Nat.add structure_loop].
    rewrite (as_body_part_ok _ _ _ Hpart), Hp. cbn. unfold is_message, get_sub_parts in *. by destruct (part_body p).
  - destruct (Hone _ _ _ Hin) as [n IH]. exists (S (n + 1))%nat. intros. cbn [Nat.add structure_loop].
    rewrite (as_body_part_ok _ _ _ Hpart), Hp. cbn. rewrite Hb. rewrite <- Nat.add_assoc. cbn [push_open]. by rewrite IH.
  - destruct (Hall _ _ _ Hin) as [n IH]. exists (S (n + 1))%nat. intros. cbn [Nat.add structure_loop].
    rewrite (as_body_part_ok _ _ _ Hpart), Hp. cbn. rewrite Hb. rewrite <- Nat.add_assoc. cbn [push_open].
    rewrite <- (app_nil_r ids), IH. done.
Qed.
End Tree.

(** A message as the parser leaves it: there is a root part, the parts of a
    part come after it, and the messages inside are such messages too. *)
Fixpoint well_formed (m : Message_t) : bool :=
  let '(mkMessage _ _ parts) := m in
  (0 <? length parts)%nat &&
  (fix go (i : nat) (ps : list MessagePart) : bool :=
     match ps with
     | [] => true
     | p :: ps => part_well_formed (length parts) i p && go (S i) ps
     end) 0%nat parts
with part_well_formed (n i : nat) (p : MessagePart) : bool :=
  let '(mkPart _ _ _ _ _ _ body) := p in body_well_formed n i body
with body_well_formed (n i : nat) (body : PartType) : bool :=
  match body with
  | PtMessage m => well_formed m
  | PtMultipart ids => forallb (fun id => (i <? id)%nat && (id <? n)%nat) ids
  | _ => true
  end.

Fixpoint message_size (m : Message_t) : nat :=
  let '(mkMessage _ _ parts) := m in
  S ((fix go (ps : list MessagePart) : nat := match ps with [] => 0%nat | p :: ps => (part_size p + go ps)%nat end) parts)
with part_size (p : MessagePart) : nat := let '(mkPart _ _ _ _ _ _ body) := p in body_size body
with body_size (body : PartType) : nat := match body with PtMessage m => message_size m | _ => 0%nat end.

Lemma message_size_nested m id p nested :
  message_parts m !! id = Some p -> part_body p = PtMessage nested -> (message_size nested < message_size m)%nat.
Proof.
  destruct m as [raw f parts]. cbn [message_parts]. intros Hp Hb. cbn [message_size].
  apply Nat.lt_succ_r. revert id Hp. induction parts as [|q parts IH]; intros [|id] Hp; try done; cbn in *.
  - simplify_eq. destruct p; cbn in *. subst. cbn. lia.
  - specialize (IH _ Hp). lia.
Qed.

Lemma well_formed_part m id p :
  well_formed m = true -> message_parts m !! id = Some p -> body_well_formed (length (message_parts m)) id (part_body p) = true.
Proof.
  destruct m as [raw f parts]. cbn [message_parts well_formed]. rewrite andb_true_iff. intros [_ Hwf] Hp.
  revert Hwf. change (body_well_formed (length parts) id) with (body_well_formed (length parts) (0 + id)).
  generalize 0%nat as i. generalize (length parts) as n. revert id Hp.
  induction parts as [|q parts IH]; intros [|id] Hp n i; try done; rewrite andb_true_iff; intros [Hq Hps]; cbn in Hp.
  - simplify_eq. rewrite Nat.add_0_r. by destruct p.
  - rewrite <- Nat.add_succ_comm. by eapply IH.
Qed.

Section Existence.
Context `{Md5} (is_extended : bool).

Lemma as_body_part_exists m id p :
  message_parts m !! id = Some p -> exists part, as_body_part (E := unit) m id is_extended = Ok part.
Proof. intros Hp. unfold as_body_part. rewrite Hp. cbn. eauto. Qed.

(** A part whose own parts have descriptions. *)
Lemma structured_step m id p :
  well_formed m = true -> message_parts m !! id = Some p ->
  (forall nested, part_body p = PtMessage nested -> well_formed nested = true -> exists part, structured is_extended nested 0 part) ->
  (forall id', (id < id')%nat -> (id' < length (message_parts m))%nat -> exists part, structured is_extended m id' part) ->
  exists part, structured is_extended m id part.
Proof.
  intros Hwf Hp Hnested Hlater. destruct (as_body_part_exists _ _ _ Hp) as [part Hpart].
  pose proof (well_formed_part _ _ _ Hwf Hp) as Hb. destruct (part_body p) as [x|x|x|x|nested|ids] eqn:E; cbn [body_well_formed] in Hb.
  1-4: exists part; eapply structured_leaf; [done|unfold is_message, get_sub_parts; by rewrite E..|done].
  - destruct (Hnested nested) as [inner Hin]; [done..|]. eexists. by eapply structured_message.
  - enough (exists inner, structured_all is_extended m ids inner) as [inner Hin] by (eexists; by eapply structured_multipart).
    clear E Hnested. induction ids as [|id' ids IH]; [exists []; constructor|].
    cbn [forallb] in Hb. rewrite !andb_true_iff, !Nat.ltb_lt in Hb. destruct Hb as [[Hlt Hlen] Hb].
    destruct (Hlater id' Hlt Hlen) as [x Hx], (IH Hb) as [xs Hxs]. exists (x :: xs). by constructor.
Qed.

Lemma structured_exists m : well_formed m = true -> exists part, structured is_extended m 0 part.
Proof.
  remember (message_size m) as n eqn:Hn. revert m Hn. induction n as [n IHm] using lt_wf_ind. intros m Hn Hwf.
  assert (Hparts : forall k id, (length (message_parts m) - id <= k)%nat -> (id < length (message_parts m))%nat ->
            exists part, structured is_extended m id part).
  { induction k as [|k IHk]; intros id Hk Hid; [lia|]. destruct (lookup_lt_is_Some_2 _ _ Hid) as [p Hp].
    apply (structured_step _ _ _ Hwf Hp).
    - intros nested Hb Hw. eapply IHm; [|done|done]. rewrite Hn. by eapply message_size_nested.
    - intros id' Hlt Hlen. apply IHk; lia. }
  destruct m as [raw f parts]. eapply Hparts; [done|]. cbn [well_formed message_parts] in *.
  apply andb_true_iff in Hwf as [Hlen _]. by apply Nat.ltb_lt in Hlen.
Qed.

(** C26: the loop of [body_structure] comes to an end on every message the
    parser may leave, and what it returns is the tree of the parts of the
    message: every part is described by itself, with the descriptions of its
    own parts inside it and in their order, and a message that is a part with
    its envelope and its structure. *)
Theorem body_structure_tree m :
  well_formed m = true ->
  exists part n, structured is_extended m 0 part /\
    forall fuel, body_structure (E := unit) (n + fuel) m is_extended = Ok part.
Proof.
  intros Hwf. destruct (structured_exists m Hwf) as [part Hpart].
  destruct (body_structure_structured (E := unit) is_extended m part Hpart) as [n Hn]. by exists part, n.
Qed.
End Existence.

(** ** Partial fetches *)
Lemma get_range_drop_take x start end_ :
  (start <= end_)%nat -> (end_ <= length x)%nat -> get_range x start end_ = Some (take (end_ - start) (drop start x)).
Proof.
  intros Hs He. unfold get_range. apply Nat.leb_le in Hs, He. by rewrite Hs, He.
Qed.

(** The octets from [start] on, at most [count] of them. *)
Lemma get_partial_bytes_drop x start count :
  0 <= start -> 0 <= count -> start + count < 2 ^ 32 ->
  get_partial_bytes x (Some (start, count)) = take (Z.to_nat count) (drop (Z.to_nat start) x).
Proof.
  intros Hs Hc Hb. unfold get_partial_bytes. rewrite wrap32_mod, Z.mod_small by lia.
  destruct (decide (Z.to_nat start <= length x)%nat) as [Hle|Hgt].
  - rewrite get_range_drop_take by lia. cbn [default]. unfold default, id.
    rewrite Z2Nat.inj_add by lia. destruct (decide (Z.to_nat start + Z.to_nat count <= length x)%nat).
    + by rewrite Nat.min_l, Nat.add_sub' by lia.
    + rewrite Nat.min_r by lia. rewrite !take_ge; rewrite ?length_drop; lia || done.
  - unfold get_range. rewrite (proj2 (Nat.leb_gt _ _)) by lia. cbn. rewrite drop_ge, take_nil by lia. done.
Qed.

(** The partial fetches of an octet string fit together: what is fetched
    from an offset on, and then from where that ended, is what one fetch of
    both would have returned; and a fetch from the start of at least as many
    octets as there are returns them all. *)
Theorem partial_fetches_join x start count count' :
  0 <= start -> 0 <= count -> 0 <= count' -> start + count + count' < 2 ^ 32 ->
  get_partial_bytes x (Some (start, count)) ++ get_partial_bytes x (Some (start + count, count')) =
    get_partial_bytes x (Some (start, count + count')) /\
  (Z.of_nat (length x) <= count -> get_partial_bytes x (Some (0, count)) = get_partial_bytes x None).
Proof.
  intros Hs Hc Hc' Hb. rewrite !get_partial_bytes_drop by lia. split.
  - rewrite !Z2Nat.inj_add, <- drop_drop, take_take_drop by lia. done.
  - intros Hlen. cbn. apply take_ge. lia.
Qed.

(** ** Sections *)
Definition ascii (x : bytes) : Prop := Forall (fun c => 0 <= c < 128) x.

Lemma lossy_ascii x : ascii x -> lossy x = x.
Proof.
  induction 1 as [|c x Hc Hx IH]; [done|]. cbn [lossy].
  rewrite (proj2 (Z.leb_le 0 c)), (proj2 (Z.ltb_lt c 128)) by lia. cbn [andb]. by rewrite IH.
Qed.

Lemma ascii_range x start end_ y : ascii x -> get_range x start end_ = Some y -> ascii y.
Proof.
  unfold get_range. intros Hx. destruct (_ && _); [|done]. intros [= <-]. by apply list.Forall_take, list.Forall_drop.
Qed.

Lemma get_range_join x i j k :
  (i <= j)%nat -> (j <= k)%nat -> (k <= length x)%nat ->
  exists y z, get_range x i j = Some y /\ get_range x j k = Some z /\ get_range x i k = Some (y ++ z).
Proof.
  intros Hij Hjk Hk. rewrite !get_range_drop_take by lia. eexists _, _. split_and!; [done..|].
  f_equal. replace (k - i)%nat with (j - i + (k - j))%nat by lia. rewrite <- take_take_drop, drop_drop.
  repeat f_equal; lia.
Qed.

(** The sections of a message whose parts lie one after the other in the
    message: BODY[HEADER] and BODY[TEXT], one after the other, are BODY[], and
    BODY[1] of a message that is not a multipart one is its BODY[TEXT]. *)
Theorem body_sections_join m root :
  message_parts m !! 0%nat = Some root -> ascii (raw_message m) ->
  (offset_header root <= offset_body root)%nat -> (offset_body root <= offset_end root)%nat ->
  (offset_end root <= length (raw_message m))%nat ->
  exists h t,
    body_section (E := unit) m [SecHeader] None = Ok (Some h) /\
    body_section (E := unit) m [SecText] None = Ok (Some t) /\
    body_section (E := unit) m [] None = Ok (Some (h ++ t)) /\
    (get_sub_parts root = None -> body_section (E := unit) m [SecPart 1] None = Ok (Some t)).
Proof.
  intros Hroot Hraw H1 H2 H3. destruct (get_range_join _ _ _ _ H1 H2 H3) as (h & t & Hh & Ht & Hht).
  exists h, t. unfold body_section, get_root_part. rewrite Hroot. cbn.
  rewrite Hh, Ht, Hht. unfold lossy_partial. cbn. rewrite !lossy_ascii by eauto using ascii_range.
  split_and!; [done..|]. intros Hsub. unfold select_part. rewrite Hsub. cbn. unfold enter_message.
  destruct (part_body root); cbn; rewrite Ht; unfold lossy_partial; cbn; by rewrite lossy_ascii by eauto using ascii_range.
Qed.

(** ** A message with a message inside *)
Module Demo.
Definition no_fields : MessageFields := mkMessageFields None None [] [] [] [] [] [] None None.
Definition no_mime : MimeFields := mkMimeFields None None None None None None None.

(** A short message, and a multipart one that forwards it. *)
Definition inner_raw : bytes := b "A: b" ++ CRLF ++ CRLF ++ b "Hello" ++ CRLF.
Definition inner : Message_t :=
  mkMessage inner_raw no_fields [mkPart [mkHeader (b "A") false 2 6] no_mime 0 8 15 false (PtText (b "Hello" ++ CRLF))].

Definition outer_raw : bytes := b "C: d" ++ CRLF ++ CRLF ++ b "x" ++ CRLF ++ inner_raw.
Definition forward : Message_t :=
  mkMessage outer_raw no_fields
    [mkPart [mkHeader (b "C") false 2 6] no_mime 0 8 26 false (PtMultipart [1; 2]);
     mkPart [] no_mime 8 8 11 false (PtText (b "x" ++ CRLF));
     mkPart [] no_mime 11 11 26 false (PtMessage inner)]%nat.

Definition md5 : Md5 := fun _ => b "0".
End Demo.
#[local] Existing Instance Demo.md5.

Lemma body_structure_tree_witness :
  well_formed Demo.forward = true /\
  exists part n, structured false Demo.forward 0 part /\
    forall fuel, body_structure (E := unit) (n + fuel) Demo.forward false = Ok part.
Proof. split; [vm_compute; reflexivity|]. apply body_structure_tree. vm_compute. reflexivity. Defined.

Lemma partial_fetches_join_witness :
  let x := b "0123456789" in
  get_partial_bytes x (Some (2, 3)) ++ get_partial_bytes x (Some (2 + 3, 4)) = get_partial_bytes x (Some (2, 3 + 4)) /\
  (Z.of_nat (length x) <= 3 -> get_partial_bytes x (Some (0, 3)) = get_partial_bytes x None).
Proof. apply partial_fetches_join; vm_compute; (reflexivity || discriminate). Defined.

Lemma body_sections_join_witness :
  exists h t,
    body_section (E := unit) Demo.inner [SecHeader] None = Ok (Some h) /\
    body_section (E := unit) Demo.inner [SecText] None = Ok (Some t) /\
    body_section (E := unit) Demo.inner [] None = Ok (Some (h ++ t)) /\
    (get_sub_parts (default (mkPart [] Demo.no_mime 0 0 0 false (PtText [])) (message_parts Demo.inner !! 0%nat)) = None ->
     body_section (E := unit) Demo.inner [SecPart 1] None = Ok (Some t)).
Proof.
  apply body_sections_join; [reflexivity| |vm_compute; lia..].
  refine (bool_decide_eq_true_1 _ _). vm_compute. reflexivity.
Defined.

(** The sum of the offset and the count wraps around: no octets at all for a
    client that asks for the rest of a message. *)
Example rest_of_a_message : get_partial_bytes (b "0123456789") (Some (2, 2 ^ 32 - 1)) = [].
Proof. vm_compute. reflexivity. Qed.

(** The only part of a forwarded message that is not a multipart one has a
    number, but no contents. *)
Example no_part_of_forwarded :
  body_section (E := unit) Demo.forward [SecPart 2; SecPart 1] None = Ok None /\
  body_section (E := unit) Demo.forward [SecPart 2; SecText] None = Ok (Some (b "Hello" ++ CRLF)).
Proof. vm_compute. done. Qed.

(** BINARY[1] of a message that is not a multipart one is missing. *)
Example no_binary_part :
  binary Demo.inner [1] None = Ok None /\ body_section (E := unit) Demo.inner [SecPart 1] None = Ok (Some (b "Hello" ++ CRLF)).
Proof. vm_compute. done. Qed.

(** The structure says that a forwarded message has no lines. *)
Example forwarded_without_lines :
  match as_body_part (E := unit) Demo.forward 2 false with Ok (Message_ _ _ _ lines _ _) => lines | _ => 1 end = 0.
Proof. vm_compute. done. Qed.
