(* ===== verification/Tasks.v ===== *)
(** * Tasks on a selected mailbox

    A command that works on messages runs as a task of its own: a computation
    with the snapshot of the selected mailbox and its saved search
    ([core::client::SelectedMailbox]), the bytes it has written so far, and the
    rest of the world (the store, the clock, the JMAP server).  A task that
    takes the lock of the snapshot does so for one step at a time. *)

From S2P Require Import Prelude Utf8 Utf7 Types Sequence Wire Jmap Store UidStore Modseq Synchronize SelectedMailbox Responses.

Record TaskState (W : Type) := mkTaskState {
  selected : MailboxData;
  saved_search : SavedSearch;
  written : list bytes;
  world : W
}.
Arguments mkTaskState {W}. Arguments selected {W}. Arguments saved_search {W}. Arguments written {W}. Arguments world {W}.

(** [max_objects_in_get], [max_objects_in_set] of the session's capabilities. *)
Class Limits (W : Type) := { get_limit : W -> option Z; set_limit : W -> option Z }.

(** [ids.chunks(n)], which panics for 0 *)
Fixpoint chunks_loop {A} (fuel n : nat) (l : list A) : list (list A) :=
  match fuel, l with
  | S fuel, _ :: _ => take n l :: chunks_loop fuel n (drop n l)
  | _, _ => []
  end.
Definition chunks {E A} (n : Z) (l : list A) : Res E (list (list A)) :=
  if n <=? 0 then Panic else Ok (chunks_loop (length l) (Z.to_nat n) l).

Section Tasks.
Context {W : Type}.

Abbreviation T := (EM (TaskState W)).

(** A call of the world outside. *)
Definition on_world {E A} (m : EM W E A) : T E A := fun s =>
  let '(r, w) := m (world s) in (r, mkTaskState (selected s) (saved_search s) (written s) w).

(** [mailbox.state.lock()], [*mailbox.saved_search.lock()] *)
Definition get_selected {E} : T E MailboxData := fun s => (Ok (selected s), s).
Definition set_selected {E} (d : MailboxData) : T E unit := fun s =>
  (Ok tt, mkTaskState d (saved_search s) (written s) (world s)).
Definition get_saved {E} : T E SavedSearch := fun s => (Ok (saved_search s), s).
Definition set_saved {E} (x : SavedSearch) : T E unit := fun s =>
  (Ok tt, mkTaskState (selected s) x (written s) (world s)).

(** [data.write_bytes(bytes).await] *)
Definition write_bytes {E} (x : bytes) : T E unit := fun s =>
  (Ok tt, mkTaskState (selected s) (saved_search s) (written s ++ [x]) (world s)).

(** [mailbox.sequence_to_jmap(&sequence, is_uid).await] *)
Definition task_sequence_to_jmap (sequence : Sequence) (is_uid : bool) : T StatusResponse (gmap (list Z) ImapId) :=
  do* state := get_selected in
  do* saved := get_saved in
  lift (sequence_to_jmap state saved sequence is_uid).

(** [mailbox.synchronize_uids(new_state.jmap_ids, new_state.imap_uids, remove_missing)] *)
Definition task_synchronize_uids {E} (new_state : MailboxData) (remove_missing : bool)
  : T E (option nat * option (list ImapId)) :=
  do* state := get_selected in
  do* (state, total, deletions) :=
    lift (synchronize_uids state (md_jmap_ids new_state) (md_imap_uids new_state) remove_missing) in
  do* _ := set_selected state in
  ret (total, deletions).

(** The EXISTS response for a new number of messages. *)
Definition write_exists {E} (total_messages : option nat) : T E unit :=
  match total_messages with
  | Some n => write_bytes (exists_serialize (Z.of_nat n))
  | None => ret tt
  end.
End Tasks.

(** ** Computations that come to an end *)
Definition post {S E A} (m : EM S E A) (s : S) (Q : A -> S -> Prop) : Prop :=
  match m s with (Ok x, s') => Q x s' | _ => True end.

Section Post.
Context {S E : Type}.

Lemma post_ret {A} (x : A) (s : S) (Q : A -> S -> Prop) : Q x s -> post (E := E) (ret x) s Q.
Proof. done. Qed.
Lemma post_lift {A} (r : Res E A) (s : S) (Q : A -> S -> Prop) : (forall x, r = Ok x -> Q x s) -> post (lift r) s Q.
Proof. unfold post, lift. destruct r; auto. Qed.
Lemma post_bind {A B} (m : EM S E A) (k : A -> EM S E B) s Q :
  post m s (fun x s' => post (k x) s' Q) -> post (bindM m k) s Q.
Proof. unfold post, bindM. by destruct (m s) as [[x|e| |] s1]. Qed.
Lemma post_mono {A} (m : EM S E A) s (Q Q' : A -> S -> Prop) : post m s Q -> (forall x s', Q x s' -> Q' x s') -> post m s Q'.
Proof. unfold post. destruct (m s) as [[x|e| |] s1]; auto. Qed.
Lemma post_any {A} (m : EM S E A) s : post m s (fun _ _ => True).
Proof. unfold post. by destruct (m s) as [[]]. Qed.
Lemma post_run {A} (m : EM S E A) s (Q : A -> S -> Prop) x s' : post m s Q -> m s = (Ok x, s') -> Q x s'.
Proof. unfold post. intros HQ Hm. by rewrite Hm in HQ. Qed.
End Post.

Lemma bind_done {S E A B} (m : EM S E A) (k : A -> EM S E B) s x s' :
  bindM m k s = (Ok x, s') -> exists a s1, m s = (Ok a, s1) /\ k a s1 = (Ok x, s').
Proof. unfold bindM. destruct (m s) as [[a|e| |] s1]; intros Hk; try done. by exists a, s1. Qed.

(** How a sequence of two steps ends. *)
Lemma bind_cases {S E A B} (m : EM S E A) (k : A -> EM S E B) s r s' :
  bindM m k s = (r, s') ->
  (exists a s1, m s = (Ok a, s1) /\ k a s1 = (r, s')) \/ (exists e, m s = (Err e, s') /\ r = Err e) \/ r = Panic \/ r = NoFuel.
Proof.
  unfold bindM. destruct (m s) as [[a|e| |] s1]; intros Hk; [left; by exists a, s1|right; left|right; right..]; inversion Hk; subst; eauto.
Qed.

(** A step of the world outside writes nothing. *)
Lemma post_on_world {W E A} (m : EM W E A) (s : TaskState W) (Q : A -> TaskState W -> Prop) :
  (forall x w, m (world s) = (Ok x, w) -> Q x (mkTaskState (selected s) (saved_search s) (written s) w)) -> post (on_world m) s Q.
Proof. unfold post, on_world. destruct (m (world s)) as [[x|e| |] w]; auto. Qed.
Lemma post_write {W E} x (s : TaskState W) (Q : unit -> TaskState W -> Prop) :
  Q tt (mkTaskState (selected s) (saved_search s) (written s ++ [x]) (world s)) -> post (E := E) (Tasks.write_bytes x) s Q.
Proof. done. Qed.

Ltac post_steps :=
  repeat first
    [ apply post_bind | apply post_ret | apply post_lift; intros ? ? | apply post_write ].

(** ** The chunks of a request *)
Lemma chunks_loop_concat {A} fuel n (l : list A) : (0 < n)%nat -> (length l <= fuel)%nat -> concat (chunks_loop fuel n l) = l.
Proof.
  intros Hn. revert l. induction fuel as [|fuel IH]; intros [|x l] Hl; cbn [chunks_loop concat]; try done; [cbn in Hl; lia|].
  rewrite IH; [apply take_drop|]. rewrite length_drop. cbn in *. lia.
Qed.

Lemma chunks_concat {E A} n (l : list A) cs : chunks (E := E) n l = Ok cs -> concat cs = l.
Proof.
  unfold chunks. destruct (Z.leb_spec n 0); [done|]. intros [= <-]. apply chunks_loop_concat; lia.
Qed.
