(* ===== verification/SearchTask.v ===== *)
(** * SEARCH and SORT: [src/commands/search.rs]

    The task of a search: the search keys become a filter of the JMAP query
    language (an explicit stack of open operators), the query runs page by
    page, and the JMAP ids it finds become sequence numbers or UIDs of the
    selected mailbox, from which the result options choose. *)

From stdpp Require Import sorting.
From S2P Require Import Prelude Utf8 Utf7 Types Receiver Sequence Flags Wire Commands Parsers ParseSearch Responses.
From S2P Require Import Jmap Store UidStore Modseq Synchronize SelectedMailbox Tasks.

(** ** The query language of the JMAP client library, as far as it is used *)
Inductive EmailFilter :=
| QInMailbox (id : str) | QId (ids : list str) | QInThread (id : str)
| QFrom (s : str) | QTo (s : str) | QCc (s : str) | QBcc (s : str) | QBody (s : str) | QSubject (s : str) | QText (s : str)
| QHeader (name : str) (value : option str)
| QAfter (d : Z) | QBefore (d : Z) | QSentAfter (d : Z) | QSentBefore (d : Z)
| QMinSize (n : Z) | QMaxSize (n : Z)
| QHasKeyword (k : str) | QNotKeyword (k : str).

#[warnings="-register-all"]
Inductive QueryFilter :=
| QCondition (c : EmailFilter)
| QOperator (op : Operator) (conditions : list QueryFilter).

Inductive EmailProperty := EReceivedAt | ECc | ESentAt | EFrom | ESize | ESubject | ETo.
Record EmailComparator := mkEmailComparator { ec_property : EmailProperty; ec_is_ascending : bool }.

(** The answer to [Email/changes]. *)
Record EmailChanges := mkEmailChanges {
  ec_new_state : str; ec_created : list str; ec_updated : list str; ec_destroyed : list str }.

(** [Email/query] as [search] sends it: no account is named, which means the
    default account of the session; and [Email/changes]. *)
Class SearchClient (W : Type) := {
  send_search : QueryFilter -> option (list EmailComparator) -> Z -> EM W JmapError QueryPage;
  send_changes_email : str -> str -> EM W JmapError EmailChanges
}.

(** ** Translating the search keys *)

(** [date + 86400] as [i64] *)
Definition add_day (date : Z) : Z := (date + 86400 + 2 ^ 63) mod 2 ^ 64 - 2 ^ 63.

(** [now.saturating_sub(date as u64) as i64] *)
Definition seconds_ago (now date : Z) : Z := Z.max 0 (now - date).

(** The keys that stand for conditions on a single message. *)
Definition condition_key (filter : Filter) : list QueryFilter :=
  match filter with
  | FFrom text => [QCondition (QFrom text)]
  | FTo text => [QCondition (QTo text)]
  | FCc text => [QCondition (QCc text)]
  | FBcc text => [QCondition (QBcc text)]
  | FBody text => [QCondition (QBody text)]
  | FSubject text => [QCondition (QSubject text)]
  | FText text => [QCondition (QText text)]
  | FHeader header value => [QCondition (QHeader header (if bool_decide (value = []) then None else Some value))]
  | FOn date => [QOperator And [QCondition (QAfter date); QCondition (QBefore (add_day date))]]
  | FSince date => [QCondition (QAfter date)]
  | FBefore date => [QCondition (QBefore date)]
  | FSentOn date => [QOperator And [QCondition (QSentAfter date); QCondition (QSentBefore (add_day date))]]
  | FSentSince date => [QCondition (QSentAfter date)]
  | FSentBefore date => [QCondition (QSentBefore date)]
  | FLarger size => [QCondition (QMinSize (wrap32 (size + 1)))]
  | FSmaller size => [QCondition (QMaxSize size)]
  | FAnswered => [QCondition (QHasKeyword (to_jmap Answered))]
  | FDeleted => [QCondition (QHasKeyword (to_jmap Deleted))]
  | FDraft => [QCondition (QHasKeyword (to_jmap Draft))]
  | FFlagged => [QCondition (QHasKeyword (to_jmap Flagged))]
  | FKeyword keyword => [QCondition (QHasKeyword (to_jmap keyword))]
  | FSeen => [QCondition (QHasKeyword (to_jmap Seen))]
  | FUnanswered => [QCondition (QNotKeyword (to_jmap Answered))]
  | FUndeleted => [QCondition (QNotKeyword (to_jmap Deleted))]
  | FUndraft => [QCondition (QNotKeyword (to_jmap Draft))]
  | FUnflagged => [QCondition (QNotKeyword (to_jmap Flagged))]
  | FUnkeyword keyword => [QCondition (QNotKeyword (to_jmap keyword))]
  | FUnseen => [QCondition (QNotKeyword (to_jmap Seen))]
  | FRecent => [QCondition (QHasKeyword (to_jmap Recent))]
  | FNew => [QOperator And [QCondition (QHasKeyword (to_jmap Recent)); QCondition (QNotKeyword (to_jmap Seen))]]
  | FOld => [QCondition (QHasKeyword (to_jmap Recent))]
  | FEmailId id => [QCondition (QId [id])]
  | FThreadId id => [QCondition (QInThread id)]
  | FAll | FSequence _ _ | FOlder _ | FYounger _ | FModSeq _ _ | FOperator _ _ => []
  end.

(** What the loop carries besides the filters: [seen_modseq], [highest_modseq]. *)
Record ModSeqState := mkModSeqState { seen_modseq : bool; highest_modseq : option Z }.

(** An open operator: its own kind, what is left of its keys, what they became. *)
Record OpenFilter := mkOpenFilter { of_operator : Operator; of_imap : list Filter; of_jmap : list QueryFilter }.

(** The iterations the loop takes for a key. *)
Fixpoint filter_steps (filter : Filter) : nat :=
  match filter with
  | FOperator _ filters => S (S (list_sum (map filter_steps filters)))
  | _ => 1
  end.

Section Translate.
Context {W : Type} `{Sled W} `{Clock W} `{SearchClient W}.

Abbreviation T := (EM (TaskState W) StatusResponse).

(** The ids of a sequence set; the order of a hash map is not specified. *)
Definition sequence_ids (sequence : Sequence) (is_uid : bool) : T (list str) :=
  do* ids := task_sequence_to_jmap sequence is_uid in
  ret (map fst (map_to_list ids)).

Definition sequence_key (mailbox : MailboxId) (prev_saved_search : option (option (list ImapId)))
    (sequence : Sequence) (is_uid : bool) : T (list QueryFilter) :=
  match sequence, prev_saved_search with
  | Sequence.SavedSearch, Some (Some prev_saved_search) =>
      do* state := get_selected in
      do* ids := lift (Selected.imap_to_jmap state prev_saved_search) in
      ret [QCondition (QId ids)]
  | Sequence.SavedSearch, Some None => lift (Err (sr_no (msg "No saved search found.")))
  | _, _ =>
      do* ids := sequence_ids sequence is_uid in
      ret [QCondition (QId ids)]
  end.

Definition modseq_filter (mailbox : MailboxId) (modseq : Z) (m : ModSeqState) : T (list QueryFilter * ModSeqState) :=
  if seen_modseq m then lift (Err (sr_no (msg "Only one MODSEQ parameter per query is allowed.")))
  else
    do* state := attempt (on_world (modseq_to_state (account_id mailbox) (wrap32 modseq))) in
    match state with
    | Ok (Some state) =>
        do* response := on_world (map_errM into_status_response (send_changes_email (account_id mailbox) state)) in
        do* highest := on_world (map_errM (fun _ => database_failure)
                                   (state_to_modseq (account_id mailbox) (ec_new_state response))) in
        ret ([QCondition (QId (ec_updated response ++ ec_created response))], mkModSeqState true (Some highest))
    | Ok None => lift (Err (sr_bad [PStr (b "MODSEQ '"); PStr (dec modseq); PStr (b "' does not exist.")]))
    | _ => lift (Err database_failure)
    end.

(** One key: what it adds to the filters. *)
Definition convert_key (mailbox : MailboxId) (prev_saved_search : option (option (list ImapId))) (is_uid : bool)
    (filter : Filter) (m : ModSeqState) : T (list QueryFilter * ModSeqState) :=
  match filter with
  | FSequence sequence uid_filter =>
      do* new := sequence_key mailbox prev_saved_search sequence (is_uid || uid_filter) in
      ret (new, m)
  | FOlder date | FYounger date =>
      do* now := on_world (map_errM (fun _ => database_failure) unix_now) in
      ret ([QCondition (QAfter (seconds_ago now date))], m)
  | FModSeq modseq _ => modseq_filter mailbox modseq m
  | filter => ret (condition_key filter, m)
  end.

Fixpoint convert_loop (fuel : nat) (mailbox : MailboxId) (prev_saved_search : option (option (list ImapId)))
    (is_uid : bool) (operator : Operator) (imap_filters : list Filter) (jmap_filters : list QueryFilter)
    (stack : list OpenFilter) (m : ModSeqState) : T (Operator * list QueryFilter * ModSeqState) :=
  match fuel with
  | O => lift NoFuel
  | S fuel =>
      let go := convert_loop fuel mailbox prev_saved_search is_uid in
      match imap_filters with
      | FOperator new_operator new_imap_filters :: imap_filters =>
          go new_operator new_imap_filters [] (mkOpenFilter operator imap_filters jmap_filters :: stack) m
      | filter :: imap_filters =>
          do* (new, m) := convert_key mailbox prev_saved_search is_uid filter m in
          go operator imap_filters (jmap_filters ++ new) stack m
      | [] =>
          match stack with
          | prev :: stack => go (of_operator prev) (of_imap prev) (of_jmap prev ++ [QOperator operator jmap_filters]) stack m
          | [] => ret (operator, jmap_filters, m)
          end
      end
  end.

(** The filter that is sent: restricted to the mailbox, unless it is the
    virtual one with all messages. *)
Definition mailbox_filter (mailbox : MailboxId) (operator : Operator) (jmap_filters : list QueryFilter) : QueryFilter :=
  match mailbox_id mailbox with
  | Some mailbox_id =>
      if decide (operator = And) then
        if decide (jmap_filters <> []) then QOperator And (jmap_filters ++ [QCondition (QInMailbox mailbox_id)])
        else QCondition (QInMailbox mailbox_id)
      else QOperator And [QCondition (QInMailbox mailbox_id); QOperator operator jmap_filters]
  | None =>
      match jmap_filters with
      | [filter] => filter
      | _ => QOperator operator jmap_filters
      end
  end.

Definition imap_filter_to_jmap (filter : Filter) (mailbox : MailboxId)
    (prev_saved_search : option (option (list ImapId))) (is_uid : bool) : T (QueryFilter * option Z) :=
  let '(imap_filters, operator) :=
    match filter with FOperator operator filters => (filters, operator) | _ => ([filter], And) end in
  do* (operator, jmap_filters, m) :=
    convert_loop (S (list_sum (map filter_steps imap_filters))) mailbox prev_saved_search is_uid operator
      imap_filters [] [] (mkModSeqState false None) in
  ret (mailbox_filter mailbox operator jmap_filters, highest_modseq m).
End Translate.

(** ** The search *)
Definition sort_property (sort : Sort) : EmailProperty :=
  match sort with
  | SArrival => EReceivedAt
  | SCc => ECc
  | SDate => ESentAt
  | SFrom => EFrom
  | SDisplayFrom => EFrom
  | SSize => ESize
  | SSubject => ESubject
  | STo => ETo
  | SDisplayTo => ETo
  end.

Definition sort_comparators (sort : list Comparator) : list EmailComparator :=
  map (fun comp => mkEmailComparator (sort_property (cmp_sort comp)) (ascending comp)) sort.

(** [if is_uid { id.uid } else { id.seqnum }] *)
Definition id_number (is_uid : bool) (id : ImapId) : Z := if is_uid then id_uid id else id_seqnum id.

(** [iter().min()], [iter().max()] *)
Definition list_min (l : list Z) : option Z := match l with [] => None | x :: l => Some (foldl Z.min x l) end.
Definition list_max (l : list Z) : option Z := match l with [] => None | x :: l => Some (foldl Z.max x l) end.

(** With both a minimum and a maximum, their messages are all that is left. *)
Definition found_ids (is_uid : bool) (min max : option Z) (imap_ids : list ImapId) : list ImapId :=
  match min, max with
  | Some min, Some max =>
      flat_map (fun min_max => option_list (List.find (fun id => id_number is_uid id =? min_max) imap_ids)) [min; max]
  | _, _ => imap_ids
  end.

Definition search_answer (options : list ResultOption) (is_esearch is_uid is_sort : bool) (imap_ids : list ImapId)
    (total : Z) (highest_modseq : option Z) : list ImapId * SearchResponse :=
  let min := if bool_decide (RMin ∈ options) then list_min (map (id_number is_uid) imap_ids) else None in
  let max := if bool_decide (RMax ∈ options) then list_max (map (id_number is_uid) imap_ids) else None in
  let imap_ids := found_ids is_uid min max imap_ids in
  let ids := map (id_number is_uid) imap_ids in
  (imap_ids,
   mkSearchResponse is_uid is_esearch is_sort
     (if bool_decide (options = []) || bool_decide (RAll ∈ options) then
        if negb is_sort then merge_sort Z.le ids else ids
      else [])
     min max
     (if bool_decide (RCount ∈ options) then Some (wrap32 total) else None)
     highest_modseq).

Section SearchTask.
Context {W : Type} `{Sled W} `{Clock W} `{EmailClient W} `{SearchClient W}.

Abbreviation T := (EM (TaskState W) StatusResponse).

(** The [loop] over the pages of the query. *)
Fixpoint query_loop (fuel : nat) (filter : QueryFilter) (sort : option (list EmailComparator)) (position : Z)
    (jmap_ids : list str) : T (list str * Z) :=
  match fuel with
  | O => lift NoFuel
  | S fuel =>
      do* response := on_world (map_errM into_status_response (send_search filter sort position)) in
      let total := default 0 (page_total response) in
      let response := page_ids response in
      if (0 <? length response)%nat then
        let jmap_ids := jmap_ids ++ response in
        if Z.of_nat (length jmap_ids) <? total then
          query_loop fuel filter sort (add_i32 position (Z.of_nat (length response))) jmap_ids
        else ret (jmap_ids, total)
      else ret (jmap_ids, total)
  end.

Definition run_query (fuel : nat) (filter : QueryFilter) (highest_modseq : option Z)
    (sort : option (list EmailComparator)) : T (list str * Z) :=
  match filter, highest_modseq, sort with
  | QCondition (QId value), Some _, None => ret (value, Z.of_nat (length value))
  | _, _, _ => query_loop fuel filter sort 0 []
  end.

(** The ids as messages of the snapshot; unless all of them are there, after
    a resynchronization. *)
Definition search_ids (mailbox : MailboxId) (jmap_ids : list str) : T (list ImapId) :=
  do* state := get_selected in
  do* imap_ids := lift (Selected.jmap_to_imap state jmap_ids) in
  if negb (length imap_ids =? length jmap_ids)%nat then
    do* new_state := on_world (synchronize_messages mailbox) in
    do* (new_message_count, _) := task_synchronize_uids new_state false in
    do* state := get_selected in
    do* imap_ids := lift (Selected.jmap_to_imap state jmap_ids) in
    do* _ := write_exists new_message_count in
    ret imap_ids
  else ret imap_ids.

Definition search (fuel : nat) (arguments : SearchArguments) (mailbox : MailboxId) (save : bool)
    (prev_saved_search : option (option (list ImapId))) (is_uid : bool) : T SearchResponse :=
  do* (filter, highest_modseq) := imap_filter_to_jmap (search_filter arguments) mailbox prev_saved_search is_uid in
  let sort := sort_comparators <$> search_sort arguments in
  do* (jmap_ids, total) := run_query fuel filter highest_modseq sort in
  do* imap_ids := search_ids mailbox jmap_ids in
  let '(imap_ids, response) :=
    search_answer (result_options arguments) (is_esearch arguments) is_uid (bool_decide (is_Some sort)) imap_ids total
      highest_modseq in
  do* _ := if save then set_saved (Results imap_ids) else ret tt in
  ret response.

(** The task that [handle_search] spawns: the bytes it writes at the end. *)
Definition search_task `{DebugFmt} (fuel : nat) (arguments : SearchArguments) (mailbox : MailboxId) (save : bool)
    (prev_saved_search : option (option (list ImapId))) (is_sort is_uid : bool) : EM (TaskState W) unit unit :=
  let tag := search_tag arguments in
  do* result := attempt (search fuel arguments mailbox save prev_saved_search is_uid) in
  match result with
  | Ok response =>
      write_bytes (search_serialize response tag ++
        status_serialize (with_tag (completed (if negb is_sort then Search is_uid else Sort_ is_uid)) tag))
  | Err response =>
      do* _ := match prev_saved_search with
               | Some prev => set_saved (match prev with None => SavedNone | Some s => Results s end)
               | None => ret tt
               end in
      write_bytes (status_serialize (with_tag response tag))
  | Panic => lift Panic
  | NoFuel => lift NoFuel
  end.
End SearchTask.
