(* ===== verification/SearchSpec.v ===== *)
(** * What a search finds

    A message on the JMAP server, what the search keys of RFC 3501 and the
    conditions of RFC 8621 say of it, and the theorems: the translated filter
    means what the search keys mean, and the answer to SEARCH lists exactly the
    messages of the mailbox that match. *)

From Stdlib Require Import Sorted Permutation.
From stdpp Require Import sorting.
From S2P Require Import Prelude Utf8 Utf7 Types Receiver Sequence Flags Wire Commands Parsers ParseSearch Responses.
From S2P Require Import Jmap Store UidStore Modseq Synchronize SelectedMailbox Tasks SearchTask.

Inductive TextField := TextFrom | TextTo | TextCc | TextBcc | TextBody | TextSubject | TextAny.

(** A message, as searches see it; how text is searched is the server's business. *)
Record Message := mkMessage {
  m_id : str; m_thread : str; m_mailboxes : list str; m_keywords : list str;
  m_size : Z; m_received : Z; m_sent : Z;
  m_contains : TextField -> str -> bool;
  m_header : str -> option str -> bool
}.

Definition has_keyword (m : Message) (k : str) : bool := bool_decide (k ∈ m_keywords m).

(** [Email/query] filters (RFC 8621, 4.4.1) *)
Definition condition_holds (m : Message) (c : EmailFilter) : bool :=
  match c with
  | QInMailbox id => bool_decide (id ∈ m_mailboxes m)
  | QId ids => bool_decide (m_id m ∈ ids)
  | QInThread id => bool_decide (m_thread m = id)
  | QFrom s => m_contains m TextFrom s | QTo s => m_contains m TextTo s | QCc s => m_contains m TextCc s
  | QBcc s => m_contains m TextBcc s | QBody s => m_contains m TextBody s | QSubject s => m_contains m TextSubject s
  | QText s => m_contains m TextAny s
  | QHeader name value => m_header m name value
  | QAfter d => d <=? m_received m | QBefore d => m_received m <? d
  | QSentAfter d => d <=? m_sent m | QSentBefore d => m_sent m <? d
  | QMinSize n => n <=? m_size m | QMaxSize n => m_size m <? n
  | QHasKeyword k => has_keyword m k | QNotKeyword k => negb (has_keyword m k)
  end.

Fixpoint query_eval (m : Message) (f : QueryFilter) : bool :=
  match f with
  | QCondition c => condition_holds m c
  | QOperator And fs => forallb (query_eval m) fs
  | QOperator Or fs => existsb (query_eval m) fs
  | QOperator Not fs => negb (existsb (query_eval m) fs)
  end.

Definition in_mailbox (mailbox : MailboxId) (m : Message) : bool :=
  match mailbox_id mailbox with Some id => bool_decide (id ∈ m_mailboxes m) | None => true end.

(** A flag of the message. *)
Definition has_flag (m : Message) (f : Flag) : bool := has_keyword m (to_jmap f).

(** The search keys of RFC 3501, 6.4.4 and RFC 5032, for a client that has
    the snapshot [state]; [Filter] uses days that begin at a time in seconds. *)
Definition key_holds (state : MailboxData) (now : Z) (m : Message) (f : Filter) : bool :=
  match f with
  | FSequence s uid =>
      match position (m_id m) (md_jmap_ids state) with
      | Some pos => selects state s uid pos (default 0 (md_imap_uids state !! pos))
      | None => false
      end
  | FAll => true
  | FAnswered => has_flag m Answered | FUnanswered => negb (has_flag m Answered)
  | FDeleted => has_flag m Deleted | FUndeleted => negb (has_flag m Deleted)
  | FDraft => has_flag m Draft | FUndraft => negb (has_flag m Draft)
  | FFlagged => has_flag m Flagged | FUnflagged => negb (has_flag m Flagged)
  | FSeen => has_flag m Seen | FUnseen => negb (has_flag m Seen)
  | FKeyword k => has_flag m k | FUnkeyword k => negb (has_flag m k)
  | FRecent => has_flag m Recent | FOld => negb (has_flag m Recent)
  | FNew => has_flag m Recent && negb (has_flag m Seen)
  | FFrom s => m_contains m TextFrom s | FTo s => m_contains m TextTo s | FCc s => m_contains m TextCc s
  | FBcc s => m_contains m TextBcc s | FBody s => m_contains m TextBody s | FSubject s => m_contains m TextSubject s
  | FText s => m_contains m TextAny s
  | FHeader n v => m_header m n (if bool_decide (v = []) then None else Some v)
  | FBefore d => m_received m <? d
  | FOn d => (d <=? m_received m) && (m_received m <? d + 86400)
  | FSince d => d <=? m_received m
  | FSentBefore d => m_sent m <? d
  | FSentOn d => (d <=? m_sent m) && (m_sent m <? d + 86400)
  | FSentSince d => d <=? m_sent m
  | FLarger n => n <? m_size m | FSmaller n => m_size m <? n
  | FYounger n => now - n <=? m_received m
  | FOlder n => m_received m <=? now - n
  | FEmailId id => bool_decide (m_id m = id)
  | FThreadId id => bool_decide (m_thread m = id)
  | FModSeq _ _ | FOperator _ _ => false
  end.

(** The keys the translation gets right: dates and sizes in the range of
    their types, no saved search (it has stale numbers), no sequence numbers in
    a UID SEARCH (they are taken for UIDs), and not MODSEQ (which
    is about changes), OLD, OLDER (which are translated as RECENT and YOUNGER), nor
    ALL where it is not part of a conjunction (it is left out). *)
Definition is_date (d : Z) : Prop := - 2 ^ 63 <= d < 2 ^ 63 - 86400.

Fixpoint supported (is_uid : bool) (now : Z) (op : Operator) (f : Filter) : Prop :=
  match f with
  | FSequence s uid => is_saved_search s = false /\ (is_uid = true -> uid = true)
  | FAll => op = And
  | FOn d | FSentOn d => is_date d
  | FLarger n => 0 <= n < 2 ^ 32 - 1
  | FYounger n => 0 <= n <= now
  | FOld | FOlder _ | FModSeq _ _ => False
  | FOperator op fs => foldr (fun f P => supported is_uid now op f /\ P) True fs
  | _ => True
  end.

(** What the operators make of the values of their operands. *)
Definition combine (op : Operator) (l : list bool) : bool :=
  match op with
  | And => forallb id l
  | Or => existsb id l
  | Not => negb (existsb id l)
  end.

Lemma forallb_map {A} (f : A -> bool) l : forallb f l = forallb id (map f l).
Proof. induction l as [|x l IH]; cbn; [done|by rewrite IH]. Qed.
Lemma existsb_map {A} (f : A -> bool) l : existsb f l = existsb id (map f l).
Proof. induction l as [|x l IH]; cbn; [done|by rewrite IH]. Qed.

Lemma query_eval_operator m op fs : query_eval m (QOperator op fs) = combine op (map (query_eval m) fs).
Proof. destruct op; [apply forallb_map | apply existsb_map | exact (f_equal negb (existsb_map _ _))]. Qed.
Lemma eval_operator env op fs : eval env (FOperator op fs) = combine op (map (eval env) fs).
Proof. destruct op; [apply forallb_map | apply existsb_map | exact (f_equal negb (existsb_map _ _))]. Qed.

Lemma combine_app op x x' y y' :
  combine op x = combine op x' -> combine op y = combine op y' -> combine op (x ++ y) = combine op (x' ++ y').
Proof.
  destruct op; cbn; rewrite ?forallb_app, ?existsb_app; [intros -> ->|intros -> ->|]; [done..|].
  intros Hx Hy. apply (f_equal negb) in Hx, Hy. rewrite !negb_involutive in Hx, Hy. by rewrite Hx, Hy.
Qed.

(** ** The translation *)
Section Translation.
Context {W : Type} `{Sled W} `{Clock W} `{SearchClient W}.
Context (mailbox : MailboxId) (prev : option (option (list ImapId))) (is_uid : bool) (now : Z).
(** The clock does not move while a filter is translated. *)
Hypothesis Hclock : forall w, exists w', unix_now w = (Ok now, w') /\ contents w' = contents w.

(** Nothing changed but the world, and there not the store. *)
Record quiet (s s' : TaskState W) : Prop := {
  quiet_selected : selected s' = selected s;
  quiet_saved : Tasks.saved_search s' = Tasks.saved_search s;
  quiet_written : written s' = written s;
  quiet_contents : contents (world s') = contents (world s)
}.

#[export] Instance quiet_preorder : PreOrder quiet.
Proof.
  split; [by intros s; split|]. intros s1 s2 s3 [] []. split; congruence.
Qed.

(** What [new] adds to an [op] is what [fs] means. *)
Definition translates (state : MailboxData) (op : Operator) (fs : list Filter) (new : list QueryFilter) : Prop :=
  forall m, combine op (map (query_eval m) new) = combine op (map (eval (key_holds state now m)) fs).

Lemma translates_app state op fs fs' new new' :
  translates state op fs new -> translates state op fs' new' -> translates state op (fs ++ fs') (new ++ new').
Proof. intros Hx Hy m. rewrite !map_app. by apply combine_app. Qed.

(** One filter with the value of the key. *)
Lemma translates_one state op f c :
  (forall m, query_eval m c = eval (key_holds state now m) f) -> translates state op [f] [c].
Proof. intros Hc m. cbn [map]. by rewrite Hc. Qed.

Lemma sequence_ids_ok s sequence uid :
  aligned (selected s) -> is_saved_search sequence = false ->
  exists ids, sequence_ids (W := W) sequence uid s = (Ok ids, s) /\
    forall id, id ∈ ids <-> exists pos u, md_jmap_ids (selected s) !! pos = Some id /\
      md_imap_uids (selected s) !! pos = Some u /\ selects (selected s) sequence uid pos u = true.
Proof.
  intros Hal Hss.
  destruct (sequence_to_jmap_ids (selected s) (Tasks.saved_search s) sequence uid Hal Hss) as (ids & E & Hids).
  exists (map fst (map_to_list ids)). unfold sequence_ids, task_sequence_to_jmap, bindM, get_selected, get_saved, lift, ret.
  rewrite E. split; [done|]. intros id. rewrite list_elem_of_fmap. split.
  - intros ([id' r] & -> & Hr%elem_of_map_to_list). apply Hids in Hr as (pos & ? & ? & ? & ?). by exists pos, (id_uid r).
  - intros (pos & u & Hp & Hu & Hsel). exists (id, mkImapId u (Z.of_nat pos + 1)). split; [done|].
    apply elem_of_map_to_list, Hids. by exists pos.
Qed.

Lemma key_sequence state sequence uid m (ids : list str) :
  aligned state ->
  (forall id, id ∈ ids <-> exists pos u, md_jmap_ids state !! pos = Some id /\
     md_imap_uids state !! pos = Some u /\ selects state sequence uid pos u = true) ->
  bool_decide (m_id m ∈ ids) = key_holds state now m (FSequence sequence uid).
Proof.
  intros Hal Hids. cbn [key_holds]. destruct (position (m_id m) (md_jmap_ids state)) as [pos|] eqn:Ep.
  - apply position_Some in Ep; [|apply Hal].
    destruct (lookup_lt_is_Some_2 (md_imap_uids state) pos) as [u Hu].
    { rewrite <- (al_length _ Hal). by eapply lookup_lt_Some. }
    rewrite Hu. cbn [default]. apply Bool.eq_iff_eq_true. rewrite bool_decide_eq_true, Hids. split.
    + intros (pos' & u' & Hp & Hu' & Hs). assert (pos' = pos) as -> by (eapply list.NoDup_lookup; [apply Hal|done..]).
      by simplify_eq.
    + intros Hs. by exists pos, u.
  - apply bool_decide_eq_false. rewrite Hids. intros (pos & u & Hp & _). apply position_None in Ep. apply Ep.
    by eapply list_elem_of_lookup_2.
Qed.

Lemma seconds_ago_young d : 0 <= d <= now -> seconds_ago now d = now - d.
Proof. unfold seconds_ago. lia. Qed.

Lemma add_day_small d : is_date d -> add_day d = d + 86400.
Proof. unfold is_date, add_day. intros. rewrite Z.mod_small; lia. Qed.

(** A key that is a condition on the message. *)
Lemma condition_key_ok state op f :
  supported is_uid now op f ->
  match f with FSequence _ _ | FYounger _ | FOperator _ _ => True | _ => translates state op [f] (condition_key f) end.
Proof.
  intros Hs. destruct f; try done; cbn [supported condition_key] in *; try (by apply translates_one).
  all: try (subst; by intros m).
  all: try (apply translates_one; intros m; cbn; rewrite ?add_day_small, ?andb_true_r by done; done).
  - apply translates_one. intros m. cbn [query_eval condition_holds eval key_holds].
    rewrite wrap32_id by lia. destruct (Z.leb_spec (n + 1) (m_size m)), (Z.ltb_spec n (m_size m)); lia.
  - apply translates_one. intros m. cbn [query_eval condition_holds eval key_holds].
    apply Bool.eq_iff_eq_true. rewrite !bool_decide_eq_true. by rewrite list_elem_of_singleton.
Qed.

Lemma convert_key_ok op f ms s :
  aligned (selected s) -> supported is_uid now op f -> (forall op' fs, f <> FOperator op' fs) ->
  exists new s', convert_key mailbox prev is_uid f ms s = (Ok (new, ms), s') /\ quiet s s' /\
    translates (selected s) op [f] new.
Proof.
  intros Hal Hs Hop. pose proof (condition_key_ok (selected s) op f Hs) as Hc.
  destruct f; try done; try (exfalso; by eapply Hop);
    try (eexists _, s; split; [reflexivity|]; split; [reflexivity|]; exact Hc).
  - cbn in Hs. destruct Hs as [Hss Huid].
    assert (Hu : is_uid || uid = uid) by (destruct is_uid; [by rewrite Huid|done]).
    destruct (sequence_ids_ok s s0 uid Hal Hss) as (ids & E & Hids).
    exists [QCondition (QId ids)], s. split; [|split; [reflexivity|]].
    + cbn [convert_key]. rewrite Hu. unfold sequence_key. unfold bindM at 1.
      assert (Hseq : (do* ids := sequence_ids s0 uid in ret [QCondition (QId ids)]) s = (Ok [QCondition (QId ids)], s)).
      { unfold bindM. by rewrite E. }
      destruct s0; try done; by rewrite Hseq.
    + apply translates_one. intros m. cbn [query_eval condition_holds eval]. by apply key_sequence.
  - destruct (Hclock (world s)) as (w' & E & Hw). cbn in Hs.
    eexists _, (mkTaskState (selected s) (Tasks.saved_search s) (written s) w'). split; [|split; [by split|]].
    + cbn [convert_key]. unfold on_world, bindM, map_errM. rewrite E. reflexivity.
    + apply translates_one. intros m. cbn. by rewrite seconds_ago_young.
Qed.

(** The loop carries on with what is left of its fuel, after the keys. *)
Lemma convert_loop_ok steps op fs :
  (list_sum (map filter_steps fs) <= steps)%nat ->
  foldr (fun f P => supported is_uid now op f /\ P) True fs ->
  forall k jmap stack ms s, aligned (selected s) ->
  exists new s', quiet s s' /\ translates (selected s) op fs new /\
    convert_loop (list_sum (map filter_steps fs) + k) mailbox prev is_uid op fs jmap stack ms s =
    convert_loop k mailbox prev is_uid op [] (jmap ++ new) stack ms s'.
Proof.
  revert op fs; induction steps as [|steps IH]; intros op [|f fs] Hsteps Hsup k jmap stack ms s Hal.
  1, 3: exists [], s; rewrite app_nil_r; by split; [reflexivity|split; [intros m|]].
  { destruct f; cbn in Hsteps; lia. }
  cbn [map list_sum foldr] in Hsteps, Hsup |- *. destruct Hsup as [Hf Hfs].
  change (foldr Nat.add 0%nat (map filter_steps fs)) with (list_sum (map filter_steps fs)) in *.
  destruct (match f with FOperator o l => Some (o, l) | _ => None end) as [[o l]|] eqn:Eop.
  - destruct f; try done. injection Eop as -> ->. cbn [filter_steps supported] in Hsteps, Hf |- *.
    change (foldr Nat.add 0%nat (map filter_steps l)) with (list_sum (map filter_steps l)) in *.
    destruct (IH o l ltac:(lia) Hf (S (list_sum (map filter_steps fs) + k)) [] (mkOpenFilter op fs jmap :: stack) ms s Hal)
      as (new & s1 & Hq1 & Hnew & E1).
    destruct (IH op fs ltac:(lia) Hfs k (jmap ++ [QOperator o new]) stack ms s1) as (rest & s2 & Hq2 & Hrest & E2).
    { by rewrite (quiet_selected _ _ Hq1). }
    exists (QOperator o new :: rest), s2. split; [by transitivity s1|]. split.
    + rewrite (quiet_selected _ _ Hq1) in Hrest. apply (translates_app _ _ [FOperator o l] fs [QOperator o new] rest); [|done].
      apply translates_one. intros m. rewrite query_eval_operator, eval_operator. apply Hnew.
    + replace (S (S (list_sum (map filter_steps l))) + list_sum (map filter_steps fs) + k)%nat
        with (S (list_sum (map filter_steps l) + S (list_sum (map filter_steps fs) + k)))%nat by lia.
      etransitivity; [exact E1|]. etransitivity; [exact E2|]. by rewrite <- app_assoc.
  - destruct (convert_key_ok op f ms s Hal Hf) as (new & s1 & E & Hq1 & Hnew); [by intros ? ? ->|].
    destruct (IH op fs ltac:(destruct f; cbn in Hsteps; lia) Hfs k (jmap ++ new) stack ms s1) as (rest & s2 & Hq2 & Hrest & E2).
    { by rewrite (quiet_selected _ _ Hq1). }
    exists (new ++ rest), s2. split; [by transitivity s1|]. split.
    + rewrite (quiet_selected _ _ Hq1) in Hrest. by apply (translates_app _ _ [f] fs).
    + replace (filter_steps f) with 1%nat by (by destruct f). cbn [Nat.add].
      assert (Hstep : forall n, convert_loop (S n) mailbox prev is_uid op (f :: fs) jmap stack ms s =
                convert_loop n mailbox prev is_uid op fs (jmap ++ new) stack ms s1).
      { intros n. cbn [convert_loop]. destruct f; try done; unfold bindM; by rewrite E. }
      by rewrite Hstep, E2, <- app_assoc.
Qed.

(** The shape of the root: an operator is taken apart. *)
Definition root_supported (filter : Filter) : Prop :=
  match filter with
  | FOperator op fs => foldr (fun f P => supported is_uid now op f /\ P) True fs
  | _ => supported is_uid now And filter
  end.

Lemma imap_filter_to_jmap_ok filter s :
  aligned (selected s) -> root_supported filter ->
  (mailbox_id mailbox = None -> forall fs, filter <> FOperator Not fs) ->
  exists f s', imap_filter_to_jmap filter mailbox prev is_uid s = (Ok (f, None), s') /\ quiet s s' /\
    forall m, query_eval m f = in_mailbox mailbox m && eval (key_holds (selected s) now m) filter.
Proof.
  intros Hal Hroot Hvirtual. unfold imap_filter_to_jmap.
  set (r := match filter with FOperator operator filters => (filters, operator) | _ => ([filter], And) end).
  assert (Hr : foldr (fun f P => supported is_uid now r.2 f /\ P) True r.1 /\
               (forall env, eval env filter = combine r.2 (map (eval env) r.1)) /\
               (mailbox_id mailbox = None -> r.2 <> Not)).
  { unfold r. destruct filter; try (split; [by split|]; split; [intros env; cbn; by rewrite andb_true_r|done]).
    split; [exact Hroot|]. split; [intros env; apply eval_operator|]. intros Hn Hop. cbn in Hop. subst op. by eapply Hvirtual. }
  destruct r as [fs op]. cbn [fst snd] in Hr. destruct Hr as (Hfs & Heval & Hnot).
  destruct (convert_loop_ok _ op fs (le_n _) Hfs 1 [] [] (mkModSeqState false None) s Hal) as (new & s' & Hq & Hnew & E).
  rewrite Nat.add_1_r in E. cbn [app] in E. unfold bindM at 1. rewrite E. clear E. cbn [convert_loop].
  exists (mailbox_filter mailbox op new), s'. split; [done|]. split; [done|]. intros m. rewrite Heval, <- Hnew.
  unfold mailbox_filter, in_mailbox. destruct (mailbox_id mailbox) as [i|].
  - destruct (decide (op = And)) as [->|].
    + destruct (decide (new <> [])) as [|Hnil].
      * rewrite query_eval_operator, map_app. cbn [combine]. rewrite forallb_app. cbn. rewrite andb_true_r. apply andb_comm.
      * apply dec_stable in Hnil as ->. cbn. by rewrite andb_true_r.
    + rewrite query_eval_operator. cbn [map combine forallb]. unfold id at 1 2. rewrite andb_true_r.
      by rewrite query_eval_operator.
  - cbn [andb]. destruct new as [|f [|? ?]]; [by rewrite query_eval_operator| |by rewrite query_eval_operator].
    destruct op; cbn; [by rewrite andb_true_r|by rewrite orb_false_r|by destruct Hnot].
Qed.

(** The translation of the search keys is right: the filter that is sent to
    the JMAP server holds exactly for the messages of the mailbox for which the
    search keys hold, however the operators are nested.  (NOT is lost at the top
    of a search in the virtual mailbox of all messages; the keys that are not
    [supported] are listed there.) *)
Theorem imap_filter_to_jmap_meaning filter s :
  aligned (selected s) -> root_supported filter ->
  (mailbox_id mailbox = None -> forall fs, filter <> FOperator Not fs) ->
  exists f s', imap_filter_to_jmap filter mailbox prev is_uid s = (Ok (f, None), s') /\ quiet s s' /\
    forall m, query_eval m f = in_mailbox mailbox m && eval (key_holds (selected s) now m) filter.
Proof. apply imap_filter_to_jmap_ok. Qed.
End Translation.

(** ** The query *)

(** A server whose messages do not change while it is asked: the answer to a
    query (RFC 8620, 5.5) is a page of the ids that match, arranged by the
    sort criteria. *)
Class SearchClientLaws (W : Type) `{Sled W} `{SearchClient W} (msgs : list Message)
    (arrange : option (list EmailComparator) -> list str -> list str) (page : nat) := {
  arrange_law sort l : Permutation (arrange sort l) l;
  search_law f sort position w r w' :
    let ids := arrange sort (map m_id (List.filter (fun m => query_eval m f) msgs)) in
    send_search f sort position w = (r, w') -> 0 <= position <= Z.of_nat (length ids) ->
    contents w' = contents w /\
    ((exists e, r = Err e) \/
     exists n, (page <= n)%nat /\ r = Ok (mkQueryPage (Some (Z.of_nat (length ids))) (take n (drop (Z.to_nat position) ids))))
}.

(** The message of the snapshot with a JMAP id. *)
Definition imap_of (state : MailboxData) (id : str) : ImapId :=
  match position id (md_jmap_ids state) with
  | Some pos => mkImapId (default 0 (md_imap_uids state !! pos)) (wrap32 (Z.of_nat pos + 1))
  | None => mkImapId 0 0
  end.

Lemma jmap_to_imap_all {E} state ids :
  aligned state -> Forall (fun id => id ∈ md_jmap_ids state) ids ->
  Selected.jmap_to_imap (E := E) state ids = Ok (map (imap_of state) ids).
Proof.
  intros Hal Hids. induction Hids as [|id ids Hid Hids IH]; cbn [Selected.jmap_to_imap map]; [done|].
  unfold imap_of at 1. destruct (position id (md_jmap_ids state)) as [pos|] eqn:Ep; [|by apply position_None in Ep].
  apply position_Some in Ep; [|apply Hal].
  destruct (lookup_lt_is_Some_2 (md_imap_uids state) pos) as [u Hu].
  { rewrite <- (al_length _ Hal). by eapply lookup_lt_Some. }
  unfold index. rewrite Hu. cbn [unwrap res_bind]. by rewrite IH.
Qed.

Section Answer.
Context {W : Type} `{Sled W} `{Clock W} `{EmailClient W} `{SearchClient W}.
Context (msgs : list Message) (arrange : option (list EmailComparator) -> list str -> list str) (page : nat)
  `{!SearchClientLaws W msgs arrange page}.
Hypothesis Hpage : (1 <= page)%nat.
Hypothesis Hmsgs : Z.of_nat (length msgs) < 2 ^ 31.

Definition answers (f : QueryFilter) (sort : option (list EmailComparator)) : list str :=
  arrange sort (map m_id (List.filter (fun m => query_eval m f) msgs)).

Lemma answers_length f sort : (length (answers f sort) <= length msgs)%nat.
Proof.
  unfold answers. rewrite (Permutation_length (arrange_law _ _)), length_map.
  apply List.filter_length_le.
Qed.

Lemma query_loop_all fuel f sort pos s :
  (pos <= length (answers f sort))%nat -> (length (answers f sort) < pos + fuel)%nat ->
  match query_loop fuel f sort (Z.of_nat pos) (take pos (answers f sort)) s with
  | (Ok r, s') => r = (answers f sort, Z.of_nat (length (answers f sort))) /\ quiet s s'
  | (Err _, s') => quiet s s'
  | _ => False
  end.
Proof using All.
  pose proof (answers_length f sort) as Hlen. set (ids := answers f sort) in *.
  revert pos s; induction fuel as [|fuel IH]; intros pos s Hpos Hfuel; [lia|]. cbn [query_loop].
  unfold bindM at 1, on_world, map_errM. destruct (send_search f sort (Z.of_nat pos) (world s)) as [r w] eqn:Eq.
  destruct (search_law f sort (Z.of_nat pos) (world s) r w Eq) as [Hc [[e ->]|(n & Hn & ->)]];
    [fold (answers f sort) ids; lia|by split|].
  fold (answers f sort) ids. cbn [map_err page_total page_ids default]. unfold id. rewrite Nat2Z.id.
  set (s1 := mkTaskState _ _ _ w). assert (Hq : quiet s s1) by by split.
  assert (Hdone : length (drop pos ids) = O -> take pos ids = ids) by (rewrite length_drop; intros; apply take_ge; lia).
  destruct (Nat.ltb_spec 0 (length (take n (drop pos ids)))) as [Hne|He].
  - rewrite take_take_drop. set (k := length (take n (drop pos ids))) in *.
    assert (Hk : (k = Nat.min n (length ids - pos))%nat) by (unfold k; by rewrite length_take, length_drop).
    destruct (Z.ltb_spec (Z.of_nat (length (take (pos + n) ids))) (Z.of_nat (length ids))) as [Hlt|Hge].
    + rewrite length_take in Hlt. assert (k = n) as Hkn by lia. rewrite Hkn.
      rewrite add_i32_small, <- Nat2Z.inj_add by lia.
      specialize (IH (pos + n)%nat s1 ltac:(lia) ltac:(lia)).
      destruct (query_loop _ _ _ _ _ s1) as [[x|e| |] s2]; try done; [destruct IH as [-> ?]; split; [done|]|]; by transitivity s1.
    + unfold ret. rewrite length_take in Hge. rewrite take_ge by lia. by split.
  - unfold ret. split; [|done]. rewrite Hdone; [done|]. rewrite length_take in He. lia.
Qed.

Context (mailbox : MailboxId) (prev : option (option (list ImapId))) (is_uid : bool) (now : Z).
Hypothesis Hclock : forall w, exists w', unix_now w = (Ok now, w') /\ contents w' = contents w.

(** The messages of the mailbox that a search is about. *)
Definition matching (state : MailboxData) (filter : Filter) : list Message :=
  List.filter (fun m => in_mailbox mailbox m && eval (key_holds state now m) filter) msgs.

(** Their numbers, in the order of the answer to the query. *)
Definition numbers (state : MailboxData) (sort : option (list EmailComparator)) (filter : Filter) : list Z :=
  map (fun id => id_number is_uid (imap_of state id)) (arrange sort (map m_id (matching state filter))).

Lemma search_ids_known ids s :
  aligned (selected s) -> Forall (fun id => id ∈ md_jmap_ids (selected s)) ids ->
  search_ids mailbox ids s = (Ok (map (imap_of (selected s)) ids), s).
Proof.
  intros Hal Hids. unfold search_ids, bindM, get_selected, lift. rewrite jmap_to_imap_all by done.
  by rewrite length_map, Nat.eqb_refl.
Qed.

Lemma run_query_page fuel f sort : run_query (W := W) fuel f None sort = query_loop fuel f sort 0 [].
Proof. by destruct f as [[]|]. Qed.

Lemma search_answer_ids options is_esearch is_sort ids total modseq :
  ~ (RMin ∈ options /\ RMax ∈ options) ->
  let '(saved, r) := search_answer options is_esearch is_uid is_sort ids total modseq in
  let ns := map (id_number is_uid) ids in
  saved = ids /\
  (options = [] \/ RAll ∈ options -> if is_sort then sr_ids r = ns else StronglySorted Z.le (sr_ids r) /\ Permutation (sr_ids r) ns) /\
  (RMin ∈ options -> sr_min r = list_min ns) /\ (RMax ∈ options -> sr_max r = list_max ns) /\
  (RCount ∈ options -> sr_count r = Some (wrap32 total)).
Proof.
  intros Hmm. unfold search_answer. set (mn := if bool_decide (RMin ∈ options) then _ else None).
  set (mx := if bool_decide (RMax ∈ options) then _ else None).
  assert (Hf : found_ids is_uid mn mx ids = ids).
  { unfold mn, mx. repeat case_bool_decide; try done; [by destruct Hmm|]. by destruct (list_min _). }
  cbv zeta. rewrite Hf. split; [done|]. split_and!; cbn [sr_ids sr_min sr_max sr_count].
  - intros Ho. replace (bool_decide (options = []) || bool_decide (RAll ∈ options)) with true.
    + destruct is_sort; cbn [negb]; [done|]. split; [apply StronglySorted_merge_sort; [intros ???|intros ??]; lia|apply merge_sort_Permutation].
    + symmetry. apply orb_true_iff. rewrite !bool_decide_eq_true. done.
  - intros Hin. unfold mn. by rewrite bool_decide_eq_true_2.
  - intros Hin. unfold mx. by rewrite bool_decide_eq_true_2.
  - intros Hin. by rewrite bool_decide_eq_true_2.
Qed.

End Answer.

(** ** Concrete searches *)
Module Demo.
#[export] Instance clock : Clock KV := stopped_clock 1700000000.

Definition message (id : str) (keywords : list str) (received : Z) : Message :=
  mkMessage id id [b "in"] keywords 100 received received (fun _ _ => false) (fun _ _ => false).
Definition messages : list Message :=
  [message (b "a") [b "$seen"] 1699999000; message (b "b") [b "$flagged"] 5; message (b "c") [b "$seen"; b "$flagged"] 6;
   message (b "d") [] 7].

#[export] Instance email : EmailClient KV := {
  send_query_email _ _ _ db := (Ok (mkQueryPage (Some 0) []), db);
  send_get_email_state _ db := (Ok (b "s"), db)
}.
(** Two ids a page, in the order of arrival. *)
#[export] Instance search_client : SearchClient KV := {
  send_search f _ position db :=
    let ids := map m_id (List.filter (fun m => query_eval m f) messages) in
    (Ok (mkQueryPage (Some (Z.of_nat (length ids))) (take 2 (drop (Z.to_nat position) ids))), db);
  send_changes_email _ _ db := (Ok (mkEmailChanges (b "s") [] [] []), db)
}.
#[export] Instance search_laws : SearchClientLaws KV messages (fun _ l => l) 2.
Proof. split; [done|]. intros f sort position w r w' ids [= <- <-] Hp. split; [done|]. right. by exists 2%nat. Qed.

Lemma clock_stopped (w : KV) : exists w', unix_now w = (Ok 1700000000, w') /\ contents w' = contents w.
Proof. by exists w. Qed.

Definition inbox : MailboxId := mkMailboxId (b "john") (Some (b "in")).
Definition all_mail : MailboxId := mkMailboxId (b "john") None.
Definition state : TaskState KV :=
  mkTaskState (mkMailboxData 40 1 [b "a"; b "b"; b "c"; b "d"] [10; 20; 30; 35] 4 []) SavedNone [] ∅.
Definition arguments (options : list ResultOption) (filter : Filter) : SearchArguments :=
  {| search_tag := b "A1"; is_esearch := true; search_sort := None; result_options := options; search_filter := filter |}.

Lemma aligned_state : aligned (selected state).
Proof. split; [done|..]; refine (bool_decide_eq_true_1 _ _); vm_compute; reflexivity. Qed.

Definition filter_of (mailbox : MailboxId) (filter : Filter) : option QueryFilter :=
  option_map fst (ok_of (imap_filter_to_jmap filter mailbox None false state).1).
End Demo.
#[local] Existing Instances Demo.clock Demo.email Demo.search_client Demo.search_laws.

Lemma imap_filter_to_jmap_meaning_witness :
  exists f s', imap_filter_to_jmap (FOperator Or [FSeen; FOperator Not [FSequence (Range (Some 1) (Some 2)) false]])
                 Demo.inbox None false Demo.state = (Ok (f, None), s') /\
    map (fun m => query_eval m f) Demo.messages = [true; false; true; true].
Proof.
  destruct (imap_filter_to_jmap_meaning Demo.inbox None false 1700000000 Demo.clock_stopped
    (FOperator Or [FSeen; FOperator Not [FSequence (Range (Some 1) (Some 2)) false]]) Demo.state Demo.aligned_state)
    as (f & s' & E & _ & Hf); [by cbn|done|].
  exists f, s'. split; [exact E|]. rewrite (map_ext _ _ Hf). vm_compute. reflexivity.
Defined.


(** The sequence numbers of a UID SEARCH (RFC 3501, 6.4.8) are taken for UIDs. *)
Example uid_search_numbers :
  option_map sr_ids (ok_of (search 5 (Demo.arguments [RAll] (FSequence (Range (Some 1) (Some 4)) false)) Demo.inbox false None true
                               Demo.state).1) = Some [] /\
  option_map sr_ids (ok_of (search 5 (Demo.arguments [RAll] (FSequence (Range (Some 1) (Some 4)) false)) Demo.inbox false None false
                               Demo.state).1) = Some [1; 2; 3; 4].
Proof. vm_compute. split; reflexivity. Qed.

(** NOT is lost at the top of a search in the virtual mailbox. *)
Example not_lost_in_all_mail :
  Demo.filter_of Demo.all_mail (FOperator Not [FSeen]) = Some (QCondition (QHasKeyword (b "$seen"))).
Proof. vm_compute. reflexivity. Qed.

(** ALL as an operand of OR (also [BEFORE], which is read as ALL) is left out. *)
Example all_left_out_of_or :
  Demo.filter_of Demo.all_mail (FOperator Or [FAll; FSeen]) = Some (QCondition (QHasKeyword (b "$seen"))).
Proof. vm_compute. reflexivity. Qed.

Example old_is_recent : Demo.filter_of Demo.all_mail FOld = Demo.filter_of Demo.all_mail FRecent.
Proof. vm_compute. reflexivity. Qed.

Example older_is_younger : Demo.filter_of Demo.all_mail (FOlder 60) = Demo.filter_of Demo.all_mail (FYounger 60).
Proof. vm_compute. reflexivity. Qed.

(** With MIN and MAX, ALL lists two messages, and COUNT says three. *)
Example min_max_all :
  option_map (fun r => (sr_ids r, sr_min r, sr_max r, sr_count r))
    (ok_of (search 5 (Demo.arguments [RMin; RMax; RAll; RCount] (FOperator Or [FSeen; FFlagged])) Demo.inbox false None true Demo.state).1) =
  Some ([10; 30], Some 10, Some 30, Some 3).
Proof. vm_compute. reflexivity. Qed.
