(* ===== verification/ExpungeTask.v ===== *)
(** * EXPUNGE: [src/commands/expunge.rs]

    What the server is asked to destroy, and what the client is told when the
    messages are gone.  The handler itself is in [Session.v]: CLOSE and EXPUNGE
    call [expunge], EXPUNGE then synchronizes the mailbox and answers. *)

From Stdlib Require Import Sorted.
From stdpp Require Import sorting.
From S2P Require Import Prelude Utf8 Utf7 Types Sequence Flags Wire Commands Parsers ParseSearch Responses.
From S2P Require Import Jmap Store UidStore Modseq Synchronize SelectedMailbox Tasks SearchTask SearchSpec.

(** [Email/query] with a filter and [Email/set], which destroys what it found,
    in one request: the responses to the two calls. *)
Class ExpungeClient (W : Type) := {
  ExpungeResponse : Type;
  send_destroy : str -> QueryFilter -> EM W JmapError (list ExpungeResponse);
  unwrap_set_email : ExpungeResponse -> Res JmapError str   (* the new state *)
}.

Section Expunge.
Context {W : Type} `{ExpungeClient W}.

(** The messages that are to be destroyed. *)
Definition expunge_filter (mailbox : MailboxId) (sequence : option Sequence) : EM (TaskState W) StatusResponse QueryFilter :=
  do* ids :=
    match sequence with
    | Some sequence =>
        do* ids := task_sequence_to_jmap sequence true in
        ret [QCondition (QId (map fst (map_to_list ids)))]
    | None => ret []
    end in
  ret (QOperator And
    (QCondition (QHasKeyword (to_jmap Deleted)) ::
     (match mailbox_id mailbox with Some mailbox_id => [QCondition (QInMailbox mailbox_id)] | None => [] end) ++ ids)).

Definition expunge (mailbox : MailboxId) (sequence : option Sequence) : EM (TaskState W) StatusResponse str :=
  do* filter := expunge_filter mailbox sequence in
  do* response := on_world (map_errM into_status_response (send_destroy (account_id mailbox) filter)) in
  match response with
  | [_; set_email] => lift (map_err into_status_response (unwrap_set_email set_email))
  | _ => lift (Err (with_code (sr_no (msg "Invalid JMAP server response")) ContactAdmin))
  end.
End Expunge.

(** ** The answer *)

(** The numbers of the messages that are gone. *)
Fixpoint deleted_ids (is_qresync : bool) (seqnum : nat) (imap_uids new_imap_uids : list Z) : list Z :=
  match imap_uids with
  | [] => []
  | uid :: imap_uids' =>
      let rest := deleted_ids is_qresync (S seqnum) imap_uids' new_imap_uids in
      if negb (bool_decide (uid ∈ new_imap_uids)) then
        (if is_qresync then uid else wrap32 (Z.of_nat seqnum + 1)) :: rest
      else rest
  end.

Definition expunge_answer (is_qresync : bool) (state new_state : MailboxData) : bytes :=
  let deleted := deleted_ids is_qresync 0 (md_imap_uids state) (md_imap_uids new_state) in
  if negb (bool_decide (deleted = [])) || negb (bool_decide (md_total_messages state = md_total_messages new_state)) then
    (if negb (bool_decide (deleted = [])) then expunge_serialize is_qresync (merge_sort Z.le deleted) else []) ++
    exists_serialize (Z.of_nat (md_total_messages new_state))
  else [].

(** ** The server *)

(** The messages of an account, and those that the server refuses to destroy:
    [Email/set] destroys, of the messages that the query found, the others. *)
Class ExpungeLaws (W : Type) `{ExpungeClient W} := {
  messages : W -> str -> list Message;
  refused : W -> str -> Message -> Prop;
  destroy_law account f w r w' :
    send_destroy account f w = (Ok r, w') ->
    (forall m, m ∈ messages w' account <-> m ∈ messages w account /\ ~ (query_eval m f = true /\ ~ refused w account m)) /\
    forall other, other <> account -> messages w' other = messages w other
}.

(** A message that EXPUNGE is about: in the mailbox, flagged as deleted, and
    among those that the set of UIDs names in the snapshot. *)
Definition expunged (state : MailboxData) (mailbox : MailboxId) (sequence : option Sequence) (m : Message) : bool :=
  has_flag m Deleted && in_mailbox mailbox m &&
  match sequence with
  | Some sequence => key_holds state 0 m (FSequence sequence true)
  | None => true
  end.

Section ExpungeProps.
Context {W : Type} `{Client : ExpungeClient W} `{Laws : !ExpungeLaws W}.

Lemma expunge_filter_ok mailbox sequence (s : TaskState W) :
  aligned (selected s) -> match sequence with Some sequence => is_saved_search sequence = false | None => True end ->
  exists f, expunge_filter mailbox sequence s = (Ok f, s) /\
    forall m, query_eval m f = expunged (selected s) mailbox sequence m.
Proof.
  intros Hal Hss. unfold expunge_filter, bindM at 1, expunged, in_mailbox, has_flag.
  destruct sequence as [sequence|].
  - destruct (sequence_ids_ok s sequence true Hal Hss) as (ids & E & Hids).
    unfold sequence_ids, bindM in E |- *. destruct (task_sequence_to_jmap sequence true s) as [[l|e| |] s']; try done.
    injection E as <- ->. eexists. split; [reflexivity|]. intros m.
    pose proof (key_sequence 0 (selected s) sequence true m _ Hal Hids) as Hk.
    destruct (mailbox_id mailbox); cbn -[key_holds]; rewrite Hk, ?andb_true_r; by rewrite <- ?andb_assoc.
  - eexists. split; [reflexivity|]. intros m. destruct (mailbox_id mailbox); cbn; by rewrite ?andb_true_r.
Qed.

(** EXPUNGE changes nothing but the world. *)
Lemma expunge_world mailbox sequence (s s' : TaskState W) state :
  aligned (selected s) -> match sequence with Some sequence => is_saved_search sequence = false | None => True end ->
  expunge mailbox sequence s = (Ok state, s') ->
  exists w, s' = mkTaskState (selected s) (saved_search s) (written s) w.
Proof.
  intros Hal Hss. destruct (expunge_filter_ok mailbox sequence s Hal Hss) as (f & E & Hf).
  unfold expunge, bindM at 1. rewrite E. unfold bindM, on_world, map_errM, lift.
  destruct (send_destroy (account_id mailbox) f (world s)) as [[r|e| |] w] eqn:Hd; try done. cbn [map_err].
  intros Hs. exists w. destruct r as [|r1 [|r2 [|r3 r]]]; by injection Hs.
Qed.

(** EXPUNGE destroys the messages of the mailbox that are flagged as
    deleted, with a set of UIDs only those of them that the set names in the
    snapshot, and no other message of any account; whether it succeeds or not,
    the snapshot is left for the synchronization that follows. *)
Theorem expunge_destroys mailbox sequence (s s' : TaskState W) state :
  aligned (selected s) -> match sequence with Some sequence => is_saved_search sequence = false | None => True end ->
  expunge mailbox sequence s = (Ok state, s') ->
  selected s' = selected s /\
  (forall m, m ∈ messages (world s') (account_id mailbox) <->
     m ∈ messages (world s) (account_id mailbox) /\
     ~ (expunged (selected s) mailbox sequence m = true /\ ~ refused (world s) (account_id mailbox) m)) /\
  forall account, account <> account_id mailbox -> messages (world s') account = messages (world s) account.
Proof.
  intros Hal Hss. destruct (expunge_filter_ok mailbox sequence s Hal Hss) as (f & E & Hf).
  unfold expunge, bindM at 1. rewrite E. unfold bindM, on_world, map_errM, lift.
  destruct (send_destroy (account_id mailbox) f (world s)) as [[r|e| |] w] eqn:Hd; try done. cbn [map_err].
  destruct (destroy_law _ _ _ _ _ Hd) as [Hm Ho]. intros Hs.
  assert (s' = mkTaskState (selected s) (saved_search s) (written s) w) as ->.
  { destruct r as [|r1 [|r2 [|r3 r]]]; by injection Hs. }
  split_and!; [done| |done]. intros m. cbn [world]. by rewrite Hm, Hf.
Qed.
End ExpungeProps.

(** *** The client *)
Lemma deleted_ids_gone uids pos old : deleted_ids false pos old uids = map id_seqnum (gone uids pos old).
Proof.
  revert pos; induction old as [|u old IH]; intros pos; cbn; [done|]. rewrite IH.
  case_bool_decide; cbn; [done|]. do 2 f_equal.
Qed.

Lemma deleted_ids_sorted uids pos old :
  Z.of_nat (pos + length old) < 2 ^ 32 ->
  StronglySorted Z.le (deleted_ids false pos old uids) /\
  Forall (fun n => Z.of_nat pos < n) (deleted_ids false pos old uids).
Proof.
  revert pos; induction old as [|u old IH]; intros pos Hs; cbn [deleted_ids]; [by repeat constructor|].
  cbn [length] in Hs. destruct (IH (S pos)) as [Hso Hgt]; [lia|].
  assert (Forall (fun n => Z.of_nat pos + 1 < n) (deleted_ids false (S pos) old uids)) as Hgt'.
  { eapply List.Forall_impl; [|exact Hgt]. cbn. lia. }
  case_bool_decide; cbn [negb].
  - split; [done|]. eapply List.Forall_impl; [|exact Hgt']. cbn. lia.
  - rewrite wrap32_id by lia. split.
    + constructor; [done|]. eapply List.Forall_impl; [|exact Hgt']. cbn. lia.
    + constructor; [lia|]. eapply List.Forall_impl; [|exact Hgt']. cbn. lia.
Qed.

Lemma deleted_ids_nil q uids pos old : deleted_ids q pos old uids = [] <-> Forall (fun u => u ∈ uids) old.
Proof.
  revert pos; induction old as [|u old IH]; intros pos; cbn [deleted_ids]; [done|].
  rewrite list.Forall_cons, <- (IH (S pos)). case_bool_decide; cbn [negb]; naive_solver.
Qed.

(** The EXPUNGE lines of an answer. *)
Definition expunge_lines (numbers : list Z) : bytes := flat_map (fun n => b "* " ++ dec n ++ b " EXPUNGE" ++ CRLF) numbers.

(** The client follows an EXPUNGE: the numbers of the untagged EXPUNGE
    lines, taken one after the other, leave of the messages it knew exactly those
    that are still there; the number of messages is announced after them, and
    when the answer is silent nothing changed. *)
Theorem expunge_answer_client state new_state :
  aligned state -> md_total_messages state = length (md_imap_uids state) ->
  exists numbers,
    client_expunges (md_imap_uids state) numbers = filter (fun u => u ∈ md_imap_uids new_state) (md_imap_uids state) /\
    (expunge_answer false state new_state =
       expunge_lines numbers ++ exists_serialize (Z.of_nat (md_total_messages new_state)) \/
     expunge_answer false state new_state = [] /\ numbers = [] /\ md_total_messages new_state = md_total_messages state /\
     (NoDup (md_imap_uids new_state) -> md_total_messages new_state = length (md_imap_uids new_state) ->
      Permutation (md_imap_uids new_state) (md_imap_uids state))).
Proof.
  intros Hal Htot. pose proof (al_small _ Hal) as Hsm.
  set (uids := md_imap_uids state) in *. set (new := md_imap_uids new_state) in *.
  destruct (deleted_ids_sorted new 0 uids ltac:(cbn; lia)) as [Hso _].
  exists (expunge_numbers 0 (deleted_ids false 0 uids new)).
  assert (Hview : client_expunges uids (expunge_numbers 0 (deleted_ids false 0 uids new)) = filter (fun u => u ∈ new) uids).
  { rewrite deleted_ids_gone. apply (client_expunges_gone new uids [] 0 0); cbn; lia. }
  split; [exact Hview|]. unfold expunge_answer. fold uids new. cbn zeta.
  assert (Hms : merge_sort Z.le (deleted_ids false 0 uids new) = deleted_ids false 0 uids new).
  { apply (StronglySorted_unique Z.le); [|done|apply merge_sort_Permutation]. apply StronglySorted_merge_sort; apply _. }
  rewrite Hms. destruct (decide (deleted_ids false 0 uids new = [])) as [Hd|Hd].
  - rewrite Hd. rewrite bool_decide_true by done. cbn [negb orb].
    destruct (decide (md_total_messages state = md_total_messages new_state)) as [Ht|Ht].
    + right. rewrite bool_decide_true by done. split_and!; [done..|]. intros Hn Hlen.
      apply deleted_ids_nil in Hd. symmetry. apply submseteq_length_Permutation.
      * apply NoDup_submseteq; [apply Hal|]. by apply list.Forall_forall.
      * fold uids in Htot. lia.
    + left. by rewrite bool_decide_false.
  - left. rewrite bool_decide_false by done. done.
Qed.

(** ** A server *)
Module Demo.
#[export] Instance expunge_client : ExpungeClient (list Message) := {
  ExpungeResponse := str;
  send_destroy account f w :=
    (Ok [[]; b "s2"], if decide (account = b "john") then List.filter (fun m => negb (query_eval m f)) w else w);
  unwrap_set_email r := Ok r
}.
#[export] Instance expunge_laws : ExpungeLaws (list Message).
Proof.
  refine {| messages w account := if decide (account = b "john") then w else []; refused _ _ _ := False |}.
  intros account f w r w' [= _ <-]. split.
  - intros m. destruct (decide (account = b "john")) as [->|Hne]; [|set_solver].
    rewrite decide_True by done. rewrite !list_elem_of_In, filter_In, negb_true_iff. destruct (query_eval m f); naive_solver.
  - intros other Hne. repeat (case_decide as Hd; subst); first [done | by destruct (Hne eq_refl) | congruence].
Defined.

Definition message (id : str) (mailbox : str) (keywords : list str) : Message :=
  mkMessage id id [mailbox] keywords 100 0 0 (fun _ _ => false) (fun _ _ => false).
Definition a : Message := message (b "a") (b "in") [b "$deleted"].
Definition c : Message := message (b "c") (b "in") [b "$seen"; b "$deleted"].
Definition e : Message := message (b "e") (b "in") [b "$seen"].
Definition g : Message := message (b "g") (b "archive") [b "$deleted"].
Definition inbox : MailboxId := mkMailboxId (b "john") (Some (b "in")).
Definition state : TaskState (list Message) := mkTaskState demo_state SavedNone [] [a; c; e; g].
Definition left_after (sequence : option Sequence) : list str :=
  map m_id (world (expunge inbox sequence state).2).
End Demo.
#[local] Existing Instances Demo.expunge_client Demo.expunge_laws.

Lemma expunge_destroys_witness :
  exists s', expunge Demo.inbox (Some (Range (Some 2) None)) Demo.state = (Ok (b "s2"), s') /\
    Demo.a ∈ messages (world s') (b "john") /\ Demo.c ∉ messages (world s') (b "john").
Proof.
  destruct (expunge Demo.inbox (Some (Range (Some 2) None)) Demo.state) as [r s'] eqn:E.
  assert (r = Ok (b "s2")) as -> by (apply (f_equal fst) in E; vm_compute in E; by rewrite <- E).
  exists s'. split; [done|].
  destruct (expunge_destroys Demo.inbox (Some (Range (Some 2) None)) Demo.state s' (b "s2") demo_state_aligned eq_refl E)
    as (_ & Hm & _).
  split.
  - apply Hm. split; [by left|]. intros [He _]. vm_compute in He. discriminate.
  - intros Hc. apply Hm in Hc as [_ Hn]. apply Hn. split; [vm_compute; reflexivity|by intros []].
Defined.

Lemma expunge_answer_client_witness :
  exists numbers, client_expunges [1; 3; 5] numbers = [5].
Proof.
  destruct (expunge_answer_client demo_state (mkMailboxData 6 1 [b "e"] [5] 1 []) demo_state_aligned eq_refl)
    as (numbers & Hv & _).
  exists numbers. exact Hv.
Defined.

(** The argument of UID EXPUNGE that is not a set of UIDs is ignored: everything
    that is flagged as deleted goes. *)
Example bad_set_expunges_all :
  ok_of (parse_sequence_set (b "2:x")) = None /\
  Demo.left_after (ok_of (parse_sequence_set (b "2:x"))) = [b "e"; b "g"] /\
  Demo.left_after (ok_of (parse_sequence_set (b "2:3"))) = [b "a"; b "e"; b "g"].
Proof. vm_compute. split_and!; reflexivity. Qed.
