(* ===== verification/StatusTask.v ===== *)
(** * STATUS: [src/commands/status.rs]

    The answer to STATUS, put together from what the cache of mailboxes knows
    and from the JMAP server for the rest, which is kept for the next time. *)

From Stdlib Require Import Permutation.
From S2P Require Import Prelude Utf8 Utf7 Types Flags Parsers ParseSearch Responses Jmap Store UidStore Modseq Synchronize.
From S2P Require Import Wire Mailboxes SelectedMailbox Tasks SearchTask.

(** The requests: one [Email/query] per filter, for the number of messages; a
    page of a mailbox ([Email/query]) with the sizes of its messages
    ([Email/get]). *)
Class StatusClient (W : Type) := {
  EmailResponse : Type;
  send_counts : str -> list QueryFilter -> EM W JmapError (list EmailResponse);
  send_sizes : str -> option str -> Z -> Z -> EM W JmapError (list EmailResponse);
  unwrap_query_total : EmailResponse -> Res JmapError (option Z);
  unwrap_get_sizes : EmailResponse -> Res JmapError (list Z)
}.

(** [Mailbox::default()] *)
Definition default_mailbox : Mailbox := mkMailbox false false RoleNone None None None None None None.

Definition mailbox_key (mailbox : MailboxId) : str := default [] (mailbox_id mailbox).

(** [.entry(key).or_insert_with(Mailbox::default)] and a change of the entry *)
Definition update_entry (key : str) (f : Mailbox -> Mailbox) (a : Account) : Account :=
  mkAccount (acc_account_id a) (prefix a) (mailbox_state a) (mailbox_names a)
    (<[key := f (default default_mailbox (mailbox_data a !! key))]> (mailbox_data a)) (modseq a).

Definition set_uids (status : MailboxData) (m : Mailbox) : Mailbox :=
  mkMailbox (has_children m) (is_subscribed m) (role m) (Some (Z.of_nat (md_total_messages status))) (total_unseen m)
    (total_deleted m) (Some (md_uid_validity status)) (Some (md_uid_next status)) (size m).
Definition set_unseen (n : Z) (m : Mailbox) : Mailbox :=
  mkMailbox (has_children m) (is_subscribed m) (role m) (total_messages m) (Some n)
    (total_deleted m) (mb_uid_validity m) (mb_uid_next m) (size m).
Definition set_deleted (n : Z) (m : Mailbox) : Mailbox :=
  mkMailbox (has_children m) (is_subscribed m) (role m) (total_messages m) (total_unseen m)
    (Some n) (mb_uid_validity m) (mb_uid_next m) (size m).
Definition set_size (n : Z) (m : Mailbox) : Mailbox :=
  mkMailbox (has_children m) (is_subscribed m) (role m) (total_messages m) (total_unseen m)
    (total_deleted m) (mb_uid_validity m) (mb_uid_next m) (Some n).
Definition set_modseq (n : Z) (a : Account) : Account :=
  mkAccount (acc_account_id a) (prefix a) (mailbox_state a) (mailbox_names a) (mailbox_data a) (Some n).

Abbreviation Item := (Status * StatusItemType)%type.

(** [StatusItemType::Number(value as u32)] *)
Definition number (value : Z) : StatusItemType := StatusNumber (wrap32 value).

(** What the cache answers for an item. *)
Definition cached_value (a : Account) (m : Mailbox) (mailbox : MailboxId) (item : Status) : option StatusItemType :=
  match item with
  | StMessages => number <$> total_messages m
  | StUidNext => StatusNumber <$> mb_uid_next m
  | StUidValidity => StatusNumber <$> mb_uid_validity m
  | StUnseen => number <$> total_unseen m
  | StDeleted => number <$> total_deleted m
  | StSize => number <$> size m
  | StHighestModSeq => StatusNumber <$> modseq a
  | StMailboxId =>
      Some (StatusString (match mailbox_id mailbox with
                          | Some id => account_id mailbox ++ b "/" ++ id
                          | None => account_id mailbox
                          end))
  | StRecent => Some (StatusNumber 0)
  end.

(** The items that are known, with their values, and the others. *)
Fixpoint split_items (a : Account) (m : Mailbox) (mailbox : MailboxId) (items : list Status) : list Item * list Status :=
  match items with
  | [] => ([], [])
  | item :: items' =>
      let '(known, rest) := split_items a m mailbox items' in
      match cached_value a m mailbox item with
      | Some v => ((item, v) :: known, rest)
      | None => (known, item :: rest)
      end
  end.

(** [items_update.contains(&item)] *)
Definition wants (items : list Status) (item : Status) : bool := existsb (fun i => bool_decide (i = item)) items.

(** A change of the first account with the id, with what is read from it. *)
Fixpoint with_account {E A} (id : str) (f : Account -> Account * Res E A) (none : A) (l : list Account) : list Account * Res E A :=
  match l with
  | [] => ([], Ok none)
  | a :: l' =>
      if bool_decide (acc_account_id a = id) then let '(a, r) := f a in (a :: l', r)
      else let '(l', r) := with_account id f none l' in (a :: l', r)
  end.

Section Status.
Context {W : Type} `{Sled W} `{Clock W} `{EmailClient W} `{MailboxClient W} `{StatusClient W}.
Context (folder_all : str).

Abbreviation D := (EM (Data W) StatusResponse).

Definition on_account {A} (id : str) (f : Account -> Account * Res StatusResponse A) (none : A) : D A := fun d =>
  let '(l, r) := with_account id f none (mailboxes d) in (r, mkData l (outer d)).

Definition on_outer {A} (m : EM W StatusResponse A) : D A := fun d => let '(r, w) := m (outer d) in (r, mkData (mailboxes d) w).

Definition invalid_response : StatusResponse := with_code (sr_no (msg "Invalid JMAP server response")) ContactAdmin.

(** *** UIDNEXT, UIDVALIDITY and MESSAGES *)
Definition uids_items (items_update : list Status) (status : MailboxData) : list Item :=
  (if wants items_update StUidNext then [(StUidNext, StatusNumber (md_uid_next status))] else []) ++
  (if wants items_update StUidValidity then [(StUidValidity, StatusNumber (md_uid_validity status))] else []) ++
  (if wants items_update StMessages then [(StMessages, number (Z.of_nat (md_total_messages status)))] else []).

Definition update_uid_items (mailbox : MailboxId) (items_update : list Status) : D (list Item) :=
  if wants items_update StUidNext || wants items_update StUidValidity || wants items_update StMessages then
    do* status := on_outer (synchronize_messages mailbox) in
    on_account (account_id mailbox)
      (fun a => (update_entry (mailbox_key mailbox) (set_uids status) a, Ok (uids_items items_update status))) []
  else ret [].

(** *** UNSEEN and DELETED *)
Definition count_filter (mailbox : MailboxId) (condition : EmailFilter) : QueryFilter :=
  QOperator And (match mailbox_id mailbox with
                 | Some id => [QCondition (QInMailbox id); QCondition condition]
                 | None => [QCondition condition]
                 end).

Definition count_filters (mailbox : MailboxId) (items_update : list Status) : list QueryFilter :=
  (if wants items_update StUnseen then [count_filter mailbox (QNotKeyword (to_jmap Seen))] else []) ++
  (if wants items_update StDeleted then [count_filter mailbox (QHasKeyword (to_jmap Deleted))] else []).

(** [responses.next()], its total and the responses to come *)
Definition next_total (responses : list EmailResponse) : Res StatusResponse (Z * list EmailResponse) :=
  match responses with
  | [] => Err invalid_response
  | response :: responses =>
      let* total := map_err into_status_response (unwrap_query_total response) in
      Ok (default 0 total, responses)
  end.

(** The number of deleted messages goes out under the name UNSEEN. *)
Definition count_items (key : str) (items_update : list Status) (responses : list EmailResponse) (a : Account)
  : Account * Res StatusResponse (list Item) :=
  let a := update_entry key (fun m => m) a in
  let deleted a unseen responses :=
    if wants items_update StDeleted then
      match next_total responses with
      | Ok (n, _) => (update_entry key (set_deleted n) a, Ok (unseen ++ [(StUnseen, number n)]))
      | Err e => (a, Err e)
      | Panic => (a, Panic)
      | NoFuel => (a, NoFuel)
      end
    else (a, Ok unseen) in
  if wants items_update StUnseen then
    match next_total responses with
    | Ok (n, responses) => deleted (update_entry key (set_unseen n) a) [(StUnseen, number n)] responses
    | Err e => (a, Err e)
    | Panic => (a, Panic)
    | NoFuel => (a, NoFuel)
    end
  else deleted a [] responses.

Definition update_count_items (mailbox : MailboxId) (items_update : list Status) : D (list Item) :=
  if wants items_update StUnseen || wants items_update StDeleted then
    do* responses :=
      on_outer (map_errM into_status_response (send_counts (account_id mailbox) (count_filters mailbox items_update))) in
    on_account (account_id mailbox) (count_items (mailbox_key mailbox) items_update responses) []
  else ret [].

(** *** SIZE *)
Fixpoint size_loop (pages : nat) (mailbox : MailboxId) (limit position mailbox_size : Z) : EM W StatusResponse Z :=
  match pages with
  | O => ret mailbox_size
  | S pages =>
      do* response := map_errM into_status_response (send_sizes (account_id mailbox) (mailbox_id mailbox)
                        (add_i32 position 0) limit) in
      match response with
      | [query; get] =>
          do* emails := lift (map_err into_status_response (unwrap_get_sizes get)) in
          if decide (emails <> []) then
            do* total_emails := lift (map_err into_status_response (unwrap_query_total query)) in
            let position := position + Z.of_nat (length emails) in
            let mailbox_size := foldl Z.add mailbox_size emails in
            if position <? default 0 total_emails then size_loop pages mailbox limit position mailbox_size
            else ret mailbox_size
          else ret mailbox_size
      | _ => lift (Err (with_code (sr_no (msg "Invalid JMAP server response.")) ContactAdmin))
      end
  end.

Definition update_size_items (mailbox : MailboxId) (items_update : list Status) : D (list Item) :=
  if wants items_update StSize then
    do* limit := on_outer (fun w => (Ok (max_objects_in_get w), w)) in
    do* mailbox_size := on_outer (size_loop 100 mailbox (default 500 limit) 0 0) in
    on_account (account_id mailbox)
      (fun a => (update_entry (mailbox_key mailbox) (set_size mailbox_size) a, Ok [(StSize, number mailbox_size)])) []
  else ret [].

(** *** HIGHESTMODSEQ *)
Definition update_modseq_items (mailbox : MailboxId) (items_update : list Status) : D (list Item) :=
  if wants items_update StHighestModSeq then
    do* modseq := on_outer (synchronize_state (account_id mailbox)) in
    do* _ := on_account (account_id mailbox) (fun a => (set_modseq modseq a, Ok tt)) tt in
    ret [(StHighestModSeq, StatusNumber modseq)]
  else ret [].

Definition status (mailbox_name : str) (items : list Status) : D StatusItem :=
  do* l := (fun d => (Ok (mailboxes d), d)) in
  do* default_id := on_outer (fun w => (Ok (default_account_id w), w)) in
  match get_mailbox_by_name folder_all default_id l mailbox_name with
  | None => lift (Err (with_code (sr_no (msg "Mailbox does not exist.")) NonExistent))
  | Some mailbox =>
      let key := mailbox_key mailbox in
      do* (items_response, items_update) :=
        on_account (account_id mailbox)
          (fun a => let a := update_entry key (fun m => m) a in
                    (a, Ok (split_items a (default default_mailbox (mailbox_data a !! key)) mailbox items))) ([], []) in
      do* uids := update_uid_items mailbox items_update in
      do* counts := update_count_items mailbox items_update in
      do* sizes := update_size_items mailbox items_update in
      do* modseqs := update_modseq_items mailbox items_update in
      ret (mkStatusItem mailbox_name (items_response ++ uids ++ counts ++ sizes ++ modseqs))
  end.

(** The task that [handle_status] spawns: the bytes it writes. *)
Definition status_task `{DebugFmt} (folder_shared : str) (arguments : StatusArguments) (is_rev2 : bool) : EM (Data W) unit bytes :=
  let tag := status_tag arguments in
  do* refreshed := attempt (synchronize_mailboxes folder_shared false false) in
  match refreshed with
  | Ok _ =>
      do* answer := attempt (status (status_mailbox arguments) (status_items arguments)) in
      match answer with
      | Ok answer =>
          ret (status_item_serialize answer is_rev2 ++ status_serialize (with_tag (completed Status_) tag))
      | Err response => ret (status_serialize (with_tag response tag))
      | Panic => lift Panic
      | NoFuel => lift NoFuel
      end
  | Err err => ret (status_serialize (with_tag (into_status_response err) tag))
  | Panic => lift Panic
  | NoFuel => lift NoFuel
  end.
End Status.

(** ** What STATUS answers *)
Lemma with_account_split {E A} id (f : Account -> Account * Res E A) none l1 a l2 :
  Forall (fun a => acc_account_id a <> id) l1 -> acc_account_id a = id ->
  with_account id f none (l1 ++ a :: l2) = (l1 ++ (f a).1 :: l2, (f a).2).
Proof.
  intros Hl1 Ha. induction Hl1 as [|x l1 Hx Hl1 IH]; cbn [with_account app].
  - rewrite bool_decide_eq_true_2 by done. by destruct (f a).
  - rewrite bool_decide_eq_false_2 by done. by rewrite IH.
Qed.

Lemma wants_elem items item : wants items item = true <-> item ∈ items.
Proof.
  unfold wants. rewrite existsb_exists. setoid_rewrite bool_decide_eq_true. setoid_rewrite <- list_elem_of_In. split.
  - by intros (? & ? & ->).
  - by exists item.
Qed.

Section Answers.
Context {W : Type} `{Sled W} `{Clock W} `{EmailClient W} `{MailboxClient W} `{StatusClient W}.
Context (mailbox : MailboxId) (l1 l2 : list Account).

(** What the cache knows of the mailbox. *)
Definition known (a : Account) (item : Status) : option StatusItemType :=
  cached_value a (default default_mailbox (mailbox_data a !! mailbox_key mailbox)) mailbox item.

(** The same account, but for what is known of the mailbox. *)
Record keeps (a a' : Account) : Prop := {
  keeps_id : acc_account_id a' = acc_account_id a;
  keeps_prefix : prefix a' = prefix a;
  keeps_state : mailbox_state a' = mailbox_state a;
  keeps_names : mailbox_names a' = mailbox_names a;
  keeps_data : forall k, k <> mailbox_key mailbox -> mailbox_data a' !! k = mailbox_data a !! k
}.

#[export] Instance keeps_preorder : PreOrder keeps.
Proof.
  split; [intros a; by split|]. intros a1 a2 a3 Hx Hy. destruct Hx, Hy. split; try congruence. intros k Hk. by rewrite keeps_data1, keeps_data0.
Qed.

Lemma keeps_entry f a : keeps a (update_entry (mailbox_key mailbox) f a).
Proof. split; try done. intros k Hk. cbn. by rewrite lookup_insert_ne. Qed.

Lemma known_entry f a item :
  known (update_entry (mailbox_key mailbox) f a) item =
  cached_value a (f (default default_mailbox (mailbox_data a !! mailbox_key mailbox))) mailbox item.
Proof. unfold known, update_entry. cbn [mailbox_data]. rewrite lookup_insert_eq. by destruct item. Qed.

(** A stage of the answer reports the wanted items of its [group], keeps
    them in the cache, and leaves the rest. *)
Definition stage_ok (group wanted : list Status) (m : EM (Data W) StatusResponse (list Item)) : Prop :=
  forall a d, mailboxes d = l1 ++ a :: l2 -> acc_account_id a = account_id mailbox ->
  match m d with
  | (Ok items, d') =>
      exists a', mailboxes d' = l1 ++ a' :: l2 /\ keeps a a' /\
        NoDup (map fst items) /\ (forall i, i ∈ map fst items <-> i ∈ wanted /\ i ∈ group) /\
        (forall i v, (i, v) ∈ items -> known a' i = Some v) /\
        (forall i, i ∉ group -> known a' i = known a i)
  | _ => True
  end.

Hypothesis Hl1 : Forall (fun a => acc_account_id a <> account_id mailbox) l1.

(** A stage that has nothing to do. *)
Lemma stage_skip group wanted :
  (forall i, i ∈ group -> i ∉ wanted) -> stage_ok group wanted (ret []).
Proof.
  intros Hno a d Hd Ha. exists a. split_and!; try done; [constructor| |by intros ? ? ?%elem_of_nil].
  intros i. split; [by intros ?%elem_of_nil|]. intros [? ?]. by edestruct Hno.
Qed.

(** A stage that asks and then writes the entry. *)
Lemma on_account_split {A} (f : Account -> Account * Res StatusResponse A) none d a :
  mailboxes d = l1 ++ a :: l2 -> acc_account_id a = account_id mailbox ->
  on_account (W := W) (account_id mailbox) f none d = ((f a).2, mkData (l1 ++ (f a).1 :: l2) (outer d)).
Proof using Hl1. intros Hd Ha. unfold on_account. rewrite Hd, with_account_split by done. done. Qed.

Lemma update_uid_items_ok wanted :
  stage_ok [StUidNext; StUidValidity; StMessages] wanted (update_uid_items mailbox wanted).
Proof using Hl1.
  unfold update_uid_items. pose proof (wants_elem wanted) as Hw.
  destruct (wants wanted StUidNext || wants wanted StUidValidity || wants wanted StMessages) eqn:E.
  2: { apply stage_skip. intros i Hi Hin. apply Hw in Hin. rewrite !orb_false_iff in E. destruct E as [[E1 E2] E3].
       rewrite !elem_of_cons, elem_of_nil in Hi. destruct Hi as [->|[->|[->|[]]]]; congruence. }
  intros a d Hd Ha. unfold bindM, on_outer. destruct (synchronize_messages mailbox (outer d)) as [[st|e| |] w]; try done.
  erewrite on_account_split by done. cbn [fst snd]. eexists. split; [reflexivity|]. split; [apply keeps_entry|].
  unfold uids_items. rewrite !map_app. split_and!.
  - destruct (wants wanted StUidNext), (wants wanted StUidValidity), (wants wanted StMessages); cbn;
      refine (bool_decide_eq_true_1 _ _); reflexivity.
  - intros i. rewrite !elem_of_app, <- Hw.
    destruct (wants wanted StUidNext) eqn:E1, (wants wanted StUidValidity) eqn:E2, (wants wanted StMessages) eqn:E3; cbn;
      rewrite ?list_elem_of_singleton, ?elem_of_nil, ?elem_of_cons, ?elem_of_nil; split;
      try (intros; destruct_or?; subst; auto 10; fail); intros [? ?]; destruct_or?; subst; auto; congruence.
  - intros i v. rewrite known_entry, !elem_of_app.
    destruct (wants wanted StUidNext), (wants wanted StUidValidity), (wants wanted StMessages); cbn;
      rewrite ?list_elem_of_singleton, ?elem_of_nil; intros; destruct_or?; simplify_eq; done.
  - intros i Hi. rewrite known_entry. destruct i; try done; destruct Hi; rewrite !elem_of_cons; auto.
Qed.

(** A stage for a single item that is wanted. *)
Lemma stage_one wanted item m :
  item ∈ wanted ->
  (forall a d, mailboxes d = l1 ++ a :: l2 -> acc_account_id a = account_id mailbox ->
   match m d with
   | (Ok items, d') =>
       exists a' v, mailboxes d' = l1 ++ a' :: l2 /\ keeps a a' /\ items = [(item, v)] /\
         known a' item = Some v /\ forall i, i <> item -> known a' i = known a i
   | _ => True
   end) ->
  stage_ok [item] wanted m.
Proof.
  intros Hw Hm a d Hd Ha. specialize (Hm a d Hd Ha). destruct (m d) as [[items|e| |] d']; try done.
  destruct Hm as (a' & v & Hd' & Hk & -> & Hv & Hrest). exists a'. split_and!; try done.
  - by apply NoDup_singleton.
  - intros i. cbn. rewrite !list_elem_of_singleton. split; [by intros ->|by intros []].
  - intros i v' [= -> ->]%list_elem_of_singleton. done.
  - intros i Hi. apply Hrest. intros ->. by destruct Hi; left.
Qed.

Lemma wants_skip wanted item : wants wanted item = false -> forall i, i ∈ [item] -> i ∉ wanted.
Proof. intros Hf i ->%list_elem_of_singleton Hin. apply wants_elem in Hin. congruence. Qed.

Lemma update_size_items_ok wanted : stage_ok [StSize] wanted (update_size_items mailbox wanted).
Proof using Hl1.
  unfold update_size_items. destruct (wants wanted StSize) eqn:E; [|by apply stage_skip, wants_skip].
  apply stage_one; [by apply wants_elem|]. intros a d Hd Ha. unfold bindM, on_outer. cbn [fst snd].
  destruct (size_loop _ _ _ _ _ _) as [[n|e| |] w]; try done.
  erewrite on_account_split by done. cbn [fst snd]. eexists _, _. split; [reflexivity|]. split; [apply keeps_entry|].
  split; [done|]. rewrite known_entry. split; [done|]. intros i Hi. rewrite known_entry. by destruct i.
Qed.

Lemma update_modseq_items_ok wanted : stage_ok [StHighestModSeq] wanted (update_modseq_items mailbox wanted).
Proof using Hl1.
  unfold update_modseq_items. destruct (wants wanted StHighestModSeq) eqn:E; [|by apply stage_skip, wants_skip].
  apply stage_one; [by apply wants_elem|]. intros a d Hd Ha. unfold bindM, on_outer. cbn [fst snd].
  destruct (synchronize_state _ _) as [[n|e| |] w]; try done.
  erewrite on_account_split by done. cbn [fst snd]. eexists _, _. split; [reflexivity|]. split; [by split|].
  split; [done|]. split; [done|]. intros i Hi. unfold known. cbn. by destruct i.
Qed.

(** Without DELETED. *)
Lemma update_count_items_ok wanted :
  StDeleted ∉ wanted -> stage_ok [StUnseen] wanted (update_count_items mailbox wanted).
Proof using Hl1.
  intros Hdel. unfold update_count_items.
  assert (Ed : wants wanted StDeleted = false) by (apply not_true_iff_false; by rewrite wants_elem).
  rewrite Ed, orb_false_r. destruct (wants wanted StUnseen) eqn:E; [|by apply stage_skip, wants_skip].
  apply stage_one; [by apply wants_elem|]. intros a d Hd Ha. unfold bindM, on_outer. cbn [fst snd].
  destruct (map_errM _ _ _) as [[responses|e| |] w]; try done.
  erewrite on_account_split by done. cbn [fst snd]. unfold count_items. rewrite E, Ed.
  destruct (next_total responses) as [[n rest]|e| |]; try done. cbn [fst snd]. eexists _, _. split; [reflexivity|].
  split; [etransitivity; apply keeps_entry|]. split; [done|]. rewrite known_entry. split; [done|].
  intros i Hi. rewrite known_entry. unfold known, update_entry. cbn [mailbox_data]. rewrite lookup_insert_eq. by destruct i.
Qed.

(** Two stages for different items. *)
Lemma stage_then g1 g2 wanted m1 m2 :
  stage_ok g1 wanted m1 -> stage_ok g2 wanted m2 -> forallb (fun i => negb (wants g2 i)) g1 = true ->
  stage_ok (g1 ++ g2) wanted (do* x := m1 in do* y := m2 in ret (x ++ y)).
Proof.
  intros H1' H2' Hg a d Hd Ha.
  assert (Hdisj : forall i, i ∈ g1 -> i ∉ g2).
  { intros i Hi Hi2. apply list_elem_of_In in Hi. apply (proj1 (forallb_forall _ _) Hg) in Hi.
    apply wants_elem in Hi2. by rewrite Hi2 in Hi. }
  specialize (H1' a d Hd Ha). unfold bindM.
  destruct (m1 d) as [[x|e| |] d1]; try done. destruct H1' as (a1 & Hd1 & Hk1 & Hn1 & Hx & Hv1 & Hr1).
  specialize (H2' a1 d1 Hd1 ltac:(by rewrite (keeps_id _ _ Hk1))).
  destruct (m2 d1) as [[y|e| |] d2]; try done. destruct H2' as (a2 & Hd2 & Hk2 & Hn2 & Hy & Hv2 & Hr2).
  exists a2. split; [done|]. split; [by transitivity a1|]. rewrite map_app. split_and!.
  - apply list.NoDup_app. split_and!; [done| |done]. intros i [_ Hi1]%Hx [_ Hi2]%Hy. by eapply Hdisj.
  - intros i. rewrite !elem_of_app, Hx, Hy. tauto.
  - intros i v [Hin|Hin]%elem_of_app; [|by apply Hv2]. rewrite Hr2; [by apply Hv1|]. apply Hdisj.
    apply (Hx i). apply (list_elem_of_fmap_2 fst _ _ Hin).
  - intros i. rewrite elem_of_app. intros Hi. rewrite Hr2, Hr1 by tauto. done.
Qed.
End Answers.

Lemma split_items_spec a m mailbox items :
  let '(known, rest) := split_items a m mailbox items in
  Permutation (map fst known ++ rest) items /\
  (forall i v, (i, v) ∈ known -> cached_value a m mailbox i = Some v) /\
  (forall i, i ∈ rest -> i ∈ items /\ cached_value a m mailbox i = None).
Proof.
  induction items as [|i items IH]; cbn [split_items]; [by split_and!; [|intros ?? ?%elem_of_nil|intros ? ?%elem_of_nil]|].
  destruct (split_items a m mailbox items) as [kn rest]. destruct IH as (Hp & Hk & Hr).
  destruct (cached_value a m mailbox i) as [v|] eqn:E; cbn [map app]; split_and!.
  - by constructor.
  - intros j w [[= -> ->]|Hin]%elem_of_cons; [done|by apply Hk].
  - intros j Hj. destruct (Hr j Hj). split; [by right|done].
  - symmetry. apply Permutation_cons_app. by symmetry.
  - done.
  - intros j [->|Hj]%elem_of_cons; [split; [by left|done]|]. destruct (Hr j Hj). split; [by right|done].
Qed.

Section StatusTheorem.
Context {W : Type} `{Sled W} `{Clock W} `{EmailClient W} `{MailboxClient W} `{StatusClient W}.
Context (folder_all : str).

(** The statuses that may have to be asked for. *)
Definition asked : list Status := [StUidNext; StUidValidity; StMessages] ++ [StUnseen] ++ [StSize] ++ [StHighestModSeq].

End StatusTheorem.

(** ** A concrete STATUS *)
Module Demo.
#[export] Instance clock : Clock KV := stopped_clock 1700000000.
#[export] Instance email : EmailClient KV := {
  send_query_email _ _ _ db := (Ok (mkQueryPage (Some 2) [b "a"; b "b"]), db);
  send_get_email_state _ db := (Ok (b "s1"), db)
}.
#[export] Instance mailbox_client : MailboxClient KV := {
  MethodResponse := unit; ChangesResponse := unit;
  default_account_id _ := b "john"; session_accounts _ := []; max_objects_in_get _ := None;
  is_session_updated _ := true; refresh_session := ret tt;
  send_mailbox_page _ _ _ := ret []; unwrap_get_mailbox _ := Ok ([], []); unwrap_query_mailbox _ := Ok None;
  send_changes_mailbox _ := ret []; unwrap_changes_mailbox _ := Ok tt; take_account_id r := ([], r);
  ch_account_id _ := []; ch_new_state _ := []; ch_total_changes _ := 0; ch_created _ := []; ch_updated _ := [];
  ch_destroyed _ := []; ch_updated_is_count _ := None
}.
(** A count, or the sizes of a page. *)
#[export] Instance status_client : StatusClient KV := {
  EmailResponse := (option Z * list Z)%type;
  send_counts _ filters db := (Ok (map (fun _ => (Some 7, [])) filters), db);
  send_sizes _ _ _ _ db := (Ok [(Some 2, []); (Some 2, [100; 200])], db);
  unwrap_query_total r := Ok r.1;
  unwrap_get_sizes r := Ok r.2
}.
Definition account : Account :=
  mkAccount (b "john") None (b "s") [(b "INBOX", b "in")]
    {[ b "in" := mkMailbox false true RoleInbox (Some 2) None None None None None ]} None.
Definition answer (items : list Status) : option (list Item) :=
  option_map si_items (ok_of (status (b "All Mail") (b "INBOX") items (mkData [account] (∅ : KV))).1).
End Demo.
#[local] Existing Instances Demo.clock Demo.email Demo.mailbox_client Demo.status_client.


(** DELETED is answered as UNSEEN. *)
Example deleted_as_unseen :
  Demo.answer [StUnseen; StDeleted] = Some [(StUnseen, StatusNumber 7); (StUnseen, StatusNumber 7)].
Proof. vm_compute. reflexivity. Qed.
