(* ===== verification/AclTask.v ===== *)
(** * Access rights: [src/commands/acl.rs]

    The tasks of GETACL, MYRIGHTS, SETACL and DELETEACL: the mailbox is looked
    up in the cache, its access list is read from or changed on the JMAP server,
    and the rights of IMAP are translated from and into those of JMAP. *)

From S2P Require Import Prelude Utf8 Utf7 Types Receiver Sequence Flags Wire Commands Parsers Responses Jmap Store BTree UidStore Synchronize Mailboxes.

#[export] Instance ACL_eq_dec : EqDecision ACL.
Proof. solve_decision. Defined.

(** A change of the access list of a mailbox: entries of identifiers set and
    cleared, in this order, or the list of an identifier replaced. *)
Inductive AclUpdate :=
| AclSet (changes : list (str * ACL * bool))
| AclReplace (identifier : str) (acls : list ACL).

(** [Mailbox/get] with the access list, or with the rights of the user, and
    [Mailbox/set]: the call, and what it says of the mailbox. *)
Class AclClient (W : Type) := {
  send_get_acl : str -> str -> EM W JmapError (list (option (list (str * list ACL))));
  send_get_rights : str -> str -> EM W JmapError (list (option MailboxRights));
  send_set_acl : str -> str -> AclUpdate -> EM W JmapError (Res JmapError unit)
}.

Section AclTask.
Context {W : Type} `{MailboxClient W} `{AclClient W} `{DebugFmt}.
Context (folder_all : str).

(** The bytes a task writes are its result. *)
Abbreviation T := (EM (Data W) unit).

Definition on_server {E A} (m : EM W E A) : EM (Data W) E A := fun d =>
  let '(r, w) := m (outer d) in (r, mkData (mailboxes d) w).

Definition get_acl_mailbox (arguments : AclArguments) : EM (Data W) (list Piece) MailboxId := fun d =>
  match get_mailbox_by_name folder_all (default_account_id (outer d)) (mailboxes d) (acl_mailbox arguments) with
  | Some mailbox =>
      match mailbox_id mailbox with
      | Some _ => (Ok mailbox, d)
      | None => (Err (msg "ACL operations are not permitted on this mailbox."), d)
      end
  | None => (Err (msg "Mailbox does not exist."), d)
  end.

(** The tasks with an error response as their error. *)
Definition answered (m : EM (Data W) StatusResponse bytes) : T bytes :=
  do* r := attempt m in
  match r with
  | Ok bytes => ret bytes
  | Err response => ret (status_serialize response)
  | Panic => lift Panic
  | NoFuel => lift NoFuel
  end.

(** The account and the id of the mailbox that the arguments name. *)
Definition acl_target (arguments : AclArguments) : EM (Data W) StatusResponse (str * str) :=
  do* mailbox := map_errM (fun err => with_tag (sr_no err) (acl_tag arguments)) (get_acl_mailbox arguments) in
  do* id := lift (unwrap (mailbox_id mailbox)) in
  ret (account_id mailbox, id).

Definition acl_call {A} (arguments : AclArguments) (m : EM W JmapError A) : EM (Data W) StatusResponse A :=
  map_errM (fun err => with_tag (into_status_response err) (acl_tag arguments)) (on_server m).

(** [response.take_list().pop()] *)
Definition last_mailbox {A} (arguments : AclArguments) (l : list A) : EM (Data W) StatusResponse A :=
  lift (ok_or (list.last l) (with_tag (sr_no (msg "Mailbox not found")) (acl_tag arguments))).

Definition get_permissions (arguments : AclArguments) : EM (Data W) StatusResponse (list (str * list Rights)) :=
  do* (account_id, id) := acl_target arguments in
  do* mailboxes := acl_call arguments (send_get_acl account_id id) in
  do* acl := last_mailbox arguments mailboxes in
  ret (map (fun '(identifier, acls) => (identifier, acl_rights acls [])) (default [] acl)).

Definition get_acl_task (arguments : AclArguments) (is_rev2 : bool) : T bytes :=
  answered
    (do* permissions := get_permissions arguments in
     ret (get_acl_serialize (acl_mailbox arguments) permissions is_rev2 ++
          status_serialize (with_tag (completed GetAcl) (acl_tag arguments)))).

Definition my_rights_task (arguments : AclArguments) (is_rev2 : bool) : T bytes :=
  answered
    (do* (account_id, id) := acl_target arguments in
     do* mailboxes := acl_call arguments (send_get_rights account_id id) in
     do* rights := last_mailbox arguments mailboxes in
     ret (my_rights_serialize (acl_mailbox arguments) (match rights with Some r => as_imap_rights r | None => [] end) is_rev2 ++
          status_serialize (with_tag (completed MyRights) (acl_tag arguments)))).

(** The calls of [acl_set] for the rights of the arguments. *)
Fixpoint acl_changes (arguments : AclArguments) (value : bool) (rights : list Rights)
  : Res StatusResponse (list (str * ACL * bool)) :=
  match rights with
  | [] => Ok []
  | r :: rights =>
      let* identifier := unwrap (acl_identifier arguments) in
      let* changes := acl_changes arguments value rights in
      Ok ((identifier, into_acl r, value) :: changes)
  end.

(** The update that SETACL asks for. *)
Definition acl_update (arguments : AclArguments) : Res StatusResponse AclUpdate :=
  let* mod_rights := unwrap (acl_mod_rights arguments) in
  match mr_op mod_rights with
  | RightsAdd =>
      let* changes := acl_changes arguments true (mr_rights mod_rights) in Ok (AclSet changes)
  | RightsRemove =>
      let* changes := acl_changes arguments false (mr_rights mod_rights) in Ok (AclSet changes)
  | RightsReplace =>
      let* identifier := unwrap (acl_identifier arguments) in
      Ok (AclReplace identifier (map into_acl (mr_rights mod_rights)))
  end.

(** The update, and the answer to [command]. *)
Definition send_update (arguments : AclArguments) (command : Command) (update : Res StatusResponse AclUpdate)
  : EM (Data W) StatusResponse bytes :=
  do* (account_id, id) := acl_target arguments in
  do* update := lift update in
  do* updated := acl_call arguments (send_set_acl account_id id update) in
  do* _ := lift (map_err (fun err => with_tag (into_status_response err) (acl_tag arguments)) updated) in
  ret (status_serialize (with_tag (completed command) (acl_tag arguments))).

Definition set_acl_task (arguments : AclArguments) : T bytes :=
  answered (send_update arguments SetAcl (acl_update arguments)).

Definition delete_acl_task (arguments : AclArguments) : T bytes :=
  answered (send_update arguments DeleteAcl
    (let* identifier := unwrap (acl_identifier arguments) in Ok (AclReplace identifier []))).
End AclTask.

(** ** The server *)

(** Whether [update] leaves [acl] granted to [identifier]. *)
Definition updated (update : AclUpdate) (identifier : str) (acl : ACL) (before : Prop) : Prop :=
  match update with
  | AclSet changes =>
      fold_left (fun granted '(i, a, value) => if decide (i = identifier /\ a = acl) then value = true else granted)
        changes before
  | AclReplace i acls => (i = identifier /\ acl ∈ acls) \/ (i <> identifier /\ before)
  end.

(** What the server promises: its calls come back, [Mailbox/get] shows the
    access list of the mailbox, and [Mailbox/set] changes it as asked. *)
Class AclLaws (W : Type) `{MailboxClient W, AclClient W} := {
  granted : W -> str -> str -> str -> ACL -> Prop;
  get_acl_shows w account id mailboxes w' :
    send_get_acl account id w = (Ok mailboxes, w') ->
    default_account_id w' = default_account_id w /\
    (forall i a, granted w' account id i a <-> granted w account id i a) /\
    match list.last mailboxes with
    | Some acl => forall i a, granted w account id i a <-> exists acls, (i, acls) ∈ default [] acl /\ a ∈ acls
    | None => True
    end;
  set_acl_updates w account id update w' :
    send_set_acl account id update w = (Ok (Ok tt), w') ->
    default_account_id w' = default_account_id w /\
    forall i a, granted w' account id i a <-> updated update i a (granted w account id i a);
  set_acl_returns w account id update :
    match (send_set_acl account id update w).1 with
    | Ok (Ok _) | Ok (Err _) | Err _ => True
    | Ok Panic | Ok NoFuel | Panic | NoFuel => False
    end
}.

(** The rights that are shown for an identifier. *)
Definition shows (permissions : list (str * list Rights)) (identifier : str) (r : Rights) : Prop :=
  exists rights, (identifier, rights) ∈ permissions /\ r ∈ rights.

(** A right of the list that JMAP does not tell apart from [r]. *)
Definition asked (rights : list Rights) (r : Rights) : Prop := exists r', r' ∈ rights /\ into_acl r' = into_acl r.

(** The rights of [identifier] after SETACL, from those before it. *)
Definition after_setacl (m : ModRights) (r : Rights) (before : Prop) : Prop :=
  match mr_op m with
  | RightsReplace => asked (mr_rights m) r
  | RightsAdd => before \/ asked (mr_rights m) r
  | RightsRemove => before /\ ~ asked (mr_rights m) r
  end.

(** ** Lemmas *)
Lemma right_shown a r :
  ((from_acl a).1 = r \/ (from_acl a).2 = Some r) <-> a = into_acl r \/ (a = AclModify /\ r = CreateMailbox).
Proof.
  split.
  - destruct a; cbn; intros [<-|[=]]; subst; cbn; auto.
  - intros [->|[-> ->]]; [destruct r; cbn; auto | by left].
Qed.

Section AclLemmas.
Context {W : Type} `{Client : MailboxClient W} `{Acl : !AclClient W} `{Laws : !AclLaws W} `{DebugFmt}.
Context (folder_all : str).

Abbreviation target := (acl_target folder_all).

Lemma acl_target_state arguments (d : Data W) : (target arguments d).2 = d.
Proof.
  unfold acl_target, bindM, map_errM, get_acl_mailbox.
  destruct get_mailbox_by_name as [m|]; [|done]. destruct (mailbox_id m) eqn:E; [|done]. cbn. by rewrite E.
Qed.

(** The mailbox depends on the cache and on the account of the session. *)
Lemma acl_target_stable arguments arguments' (d d' : Data W) t :
  mailboxes d' = mailboxes d -> default_account_id (outer d') = default_account_id (outer d) ->
  acl_mailbox arguments' = acl_mailbox arguments ->
  (target arguments d).1 = Ok t -> (target arguments' d').1 = Ok t.
Proof.
  unfold acl_target, bindM, map_errM, get_acl_mailbox. intros -> -> ->.
  destruct get_mailbox_by_name as [m|]; [|done]. destruct (mailbox_id m) eqn:E; [|done]. cbn. by rewrite E.
Qed.

Lemma acl_target_returns arguments (d : Data W) : returns (target arguments d).1.
Proof.
  unfold acl_target, bindM, map_errM, get_acl_mailbox.
  destruct get_mailbox_by_name as [m|]; [|done]. destruct (mailbox_id m) eqn:E; [|done]. cbn. by rewrite E.
Qed.

(** A right is shown when one of the entries that stand for it is granted. *)
Definition visible (w : W) (t : str * str) (identifier : str) (r : Rights) : Prop :=
  granted w t.1 t.2 identifier (into_acl r) \/ (granted w t.1 t.2 identifier AclModify /\ r = CreateMailbox).

(** GETACL shows what is granted, and changes nothing. *)
Lemma permissions_shown arguments (d d' : Data W) permissions :
  get_permissions folder_all arguments d = (Ok permissions, d') ->
  exists t, (target arguments d).1 = Ok t /\ mailboxes d' = mailboxes d /\
    default_account_id (outer d') = default_account_id (outer d) /\
    (forall i a, granted (outer d') t.1 t.2 i a <-> granted (outer d) t.1 t.2 i a) /\
    forall i r, shows permissions i r <-> visible (outer d) t i r.
Proof.
  unfold get_permissions, bindM. pose proof (acl_target_state arguments d) as Hs.
  destruct (target arguments d) as [[[acc id]|e| |] d1]; cbn in Hs; subst d1; try done.
  unfold acl_call, map_errM, on_server.
  destruct (send_get_acl acc id (outer d)) as [r w'] eqn:Hg. destruct r as [l|e| |]; try done. cbn [map_err].
  destruct (get_acl_shows _ _ _ _ _ Hg) as (Hd & Hsame & Hl).
  unfold last_mailbox, lift. destruct (list.last l) as [acl|]; [|done]. cbn. intros [= <- <-].
  exists (acc, id). split_and!; try done. cbn. intros i r. unfold shows. split.
  - intros (rights & ([j acls] & [= <- ->] & Hin)%list_elem_of_fmap & Hr).
    apply acl_rights_elem in Hr as [?%elem_of_nil|(a & Ha & Hr)]; [done|].
    assert (granted (outer d) acc id i a) by (apply Hl; eauto).
    apply right_shown in Hr as [->|[-> ->]]; [by left | by right].
  - intros Hv. assert (exists a, granted (outer d) acc id i a /\ ((from_acl a).1 = r \/ (from_acl a).2 = Some r))
      as (a & (acls & Hin & Ha)%Hl & Hr).
    { destruct Hv as [?|[? ->]]; [exists (into_acl r)|exists AclModify]; rewrite right_shown; auto. }
    exists (acl_rights acls []). split.
    + apply list_elem_of_fmap. by exists (i, acls).
    + apply acl_rights_elem. right. eauto.
Qed.

(** An update that is answered with OK took place. *)
Lemma update_sent arguments command u (d d' : Data W) out :
  send_update folder_all arguments command u d = (Ok out, d') ->
  exists t update, (target arguments d).1 = Ok t /\ u = Ok update /\ mailboxes d' = mailboxes d /\
    default_account_id (outer d') = default_account_id (outer d) /\
    out = status_serialize (with_tag (completed command) (acl_tag arguments)) /\
    forall i a, granted (outer d') t.1 t.2 i a <-> updated update i a (granted (outer d) t.1 t.2 i a).
Proof.
  unfold send_update, bindM. pose proof (acl_target_state arguments d) as Hs.
  destruct (target arguments d) as [[[acc id]|e| |] d1]; cbn in Hs; subst d1; try done.
  unfold lift at 1. destruct u as [update|e| |]; try done.
  unfold acl_call, map_errM, on_server.
  destruct (send_set_acl acc id update (outer d)) as [r w'] eqn:Hg. destruct r as [[[]|e| |]|e| |]; try done.
  cbn. intros [= <- <-]. destruct (set_acl_updates _ _ _ _ _ Hg) as [Hd Hu].
  exists (acc, id), update. split_and!; done.
Qed.

Lemma update_answered arguments command u (d : Data W) :
  returns u -> exists out d', answered (send_update folder_all arguments command u) d = (Ok out, d').
Proof.
  intros Hu. unfold answered, bindM at 1, attempt, send_update, bindM.
  pose proof (acl_target_state arguments d) as Hs. pose proof (acl_target_returns arguments d) as Hr.
  destruct (target arguments d) as [[[acc id]|e| |] d1]; cbn in Hs; subst d1; try done; [|by eexists _, _].
  unfold lift at 1. destruct u as [update|e| |]; try done; [|by eexists _, _].
  unfold acl_call, map_errM, on_server. pose proof (set_acl_returns (outer d) acc id update) as Hret.
  destruct (send_set_acl acc id update (outer d)) as [r w']. destruct r as [[[]|e| |]|e| |]; try done; by eexists _, _.
Qed.
End AclLemmas.

(** ** What an update does to the rights shown *)
Lemma acl_changes_map arguments value rights i :
  acl_identifier arguments = Some i ->
  acl_changes arguments value rights = Ok (map (fun r => (i, into_acl r, value)) rights).
Proof. intros Hi. induction rights as [|r rs IH]; cbn; [done|]. by rewrite Hi, IH. Qed.

(** All the entries of an identifier set or cleared. *)
Lemma updated_all i j a value rights before :
  updated (AclSet (map (fun r => (i, into_acl r, value)) rights)) j a before <->
  (if value : bool then before \/ (i = j /\ exists r, r ∈ rights /\ into_acl r = a)
   else before /\ ~ (i = j /\ exists r, r ∈ rights /\ into_acl r = a)).
Proof.
  revert before; induction rights as [|r rs IH]; intros before; cbn [map updated fold_left].
  - destruct value; set_solver.
  - unfold updated in IH. rewrite IH. clear IH. case_decide as Hd; destruct value; set_solver.
Qed.

Lemma modify_not_asked r : into_acl r <> AclModify.
Proof. by destruct r. Qed.

Section Shown.
Context {W : Type} `{Laws : AclLaws W}.
Implicit Types (w : W).

(** SETACL of [rights] for [i], from what it does to the list of the server. *)
Lemma shown_after arguments m update i w w' t j r :
  acl_identifier arguments = Some i -> acl_mod_rights arguments = Some m ->
  acl_update arguments = Ok update ->
  (forall i a, granted w' t.1 t.2 i a <-> updated update i a (granted w t.1 t.2 i a)) ->
  (mr_op m = RightsRemove -> r <> CreateMailbox) ->
  visible w' t j r <-> (if decide (j = i) then after_setacl m r (visible w t j r) else visible w t j r).
Proof.
  unfold acl_update. intros Hi Hm Hu Hw Hr. rewrite Hm in Hu. cbn [unwrap res_bind] in Hu.
  unfold visible, after_setacl, asked. rewrite !Hw. pose proof (modify_not_asked) as Hn.
  destruct (mr_op m); [rewrite (acl_changes_map _ _ _ _ Hi) in Hu..|rewrite Hi in Hu];
    cbn [unwrap res_bind] in Hu; injection Hu as <-; rewrite ?updated_all; cbn [updated];
    rewrite ?list_elem_of_fmap; case_decide; subst; naive_solver.
Qed.
End Shown.

(** ** The tasks answer, and do what they say *)
Lemma parse_setacl q arguments :
  parse_acl q = Ok arguments -> req_command q = SetAcl ->
  exists i m, acl_identifier arguments = Some i /\ acl_mod_rights arguments = Some m /\ returns (acl_update arguments).
Proof.
  intros Hp Hc. unfold parse_acl in Hp. rewrite Hc in Hp. cbn [res_bind] in Hp.
  repeat match type of Hp with
  | res_bind ?r _ = Ok _ => let E := fresh "E" in destruct r as [[? ?]|?| |] eqn:E; cbn [res_bind] in Hp; try done
  | res_bind ?r _ = Ok _ => let E := fresh "E" in destruct r eqn:E; cbn [res_bind] in Hp; try done
  end.
  injection Hp as <-. cbn.
  repeat match goal with
  | E : res_bind ?r _ = Ok _ |- _ => let E' := fresh "E" in destruct r as [[? ?]|?| |] eqn:E'; cbn [res_bind] in E; try done
  | E : res_bind ?r _ = Ok _ |- _ => let E' := fresh "E" in destruct r eqn:E'; cbn [res_bind] in E; try done
  end.
  simplify_eq. eexists _, _. split_and!; [done..|]. unfold acl_update. cbn.
  destruct mr_op; [erewrite acl_changes_map by done..|]; done.
Qed.

Section AclProps.
Context {W : Type} `{Client : MailboxClient W} `{Acl : !AclClient W} `{Laws : !AclLaws W} `{DebugFmt}.
Context (folder_all : str).

(** C19: The arguments of a SETACL request are always answered, without a panic;
    and when the change was carried out, a later GETACL of the mailbox shows for
    the identifier what the rights asked for make of those shown by a GETACL
    before (replaced, added or removed, up to the rights that JMAP does not tell
    apart), and for every other identifier what it showed before.  (Removing [k]
    is left out: [ACL::Modify], which no right stands for, is shown as [k] too.) *)
Theorem setacl_then_getacl q arguments :
  parse_acl q = Ok arguments -> req_command q = SetAcl ->
  exists i m, acl_identifier arguments = Some i /\ acl_mod_rights arguments = Some m /\
    (forall d : Data W, exists out d', set_acl_task folder_all arguments d = (Ok out, d')) /\
    forall get (d0 d1 d2 d3 : Data W) before out after,
      acl_mailbox get = acl_mailbox arguments ->
      get_permissions folder_all get d0 = (Ok before, d1) ->
      send_update folder_all arguments SetAcl (acl_update arguments) d1 = (Ok out, d2) ->
      get_permissions folder_all get d2 = (Ok after, d3) ->
      set_acl_task folder_all arguments d1 = (Ok out, d2) /\
      forall j r, (mr_op m = RightsRemove -> r <> CreateMailbox) ->
        shows after j r <-> (if decide (j = i) then after_setacl m r (shows before j r) else shows before j r).
Proof.
  intros Hp Hc. destruct (parse_setacl q arguments Hp Hc) as (i & m & Hi & Hm & Hret).
  exists i, m. split_and!; [done..|intros d; by apply update_answered|].
  intros get d0 d1 d2 d3 before out after Hmb H0 H1 H2.
  destruct (permissions_shown _ _ _ _ _ H0) as (t & Ht & Hb1 & Ha1 & Hg1 & Hs1).
  destruct (update_sent _ _ _ _ _ _ _ H1) as (t1 & update & Ht1 & Hu & Hb2 & Ha2 & _ & Hg2).
  destruct (permissions_shown _ _ _ _ _ H2) as (t2 & Ht2 & _ & _ & _ & Hs3).
  assert (t1 = t) as ->.
  { pose proof (acl_target_stable _ _ _ _ _ _ Hb1 Ha1 (eq_sym Hmb) Ht). congruence. }
  assert (t2 = t) as ->.
  { pose proof (acl_target_stable _ _ _ _ _ _ Hb2 Ha2 Hmb Ht1). congruence. }
  split. { unfold set_acl_task, answered, bindM, attempt. by rewrite H1. }
  intros j r Hr. rewrite Hs3, (shown_after arguments m update i (outer d1)) by done.
  assert (visible (outer d1) t j r <-> shows before j r) as Hv by (rewrite Hs1; unfold visible; by rewrite !Hg1).
  case_decide; [|done]. unfold after_setacl. destruct (mr_op m); by rewrite ?Hv.
Qed.

(** After DELETEACL no right is shown for the identifier. *)
Lemma deleteacl_then_getacl arguments i get (d0 d1 d2 : Data W) out after :
  acl_identifier arguments = Some i -> acl_mailbox get = acl_mailbox arguments ->
  send_update folder_all arguments DeleteAcl (Ok (AclReplace i [])) d0 = (Ok out, d1) ->
  get_permissions folder_all get d1 = (Ok after, d2) ->
  delete_acl_task folder_all arguments d0 = (Ok out, d1) /\ forall r, ~ shows after i r.
Proof.
  intros Hi Hmb H1 H2. destruct (update_sent _ _ _ _ _ _ _ H1) as (t & update & Ht & [= <-] & Hb & Ha & _ & Hg).
  destruct (permissions_shown _ _ _ _ _ H2) as (t2 & Ht2 & _ & _ & _ & Hs).
  assert (t2 = t) as ->.
  { pose proof (acl_target_stable _ _ _ _ _ _ Hb Ha Hmb Ht). congruence. }
  split. { unfold delete_acl_task, answered, bindM, attempt. rewrite Hi. cbn [unwrap res_bind]. by rewrite H1. }
  intros r. rewrite Hs. unfold visible. rewrite !Hg. cbn. set_solver.
Qed.
End AclProps.

(** ** A server *)
Module Demo.
#[export] Instance debug : DebugFmt := {| debug_str s := s; debug_char c := [c] |}.
Abbreviation Lists := (gmap (list Z) (list ACL)).

Definition change (w : Lists) (c : str * ACL * bool) : Lists :=
  let '(i, a, value) := c in
  let l := default [] (w !! i) in
  <[i := if value : bool then a :: l else base.filter (fun x => x <> a) l]> w.

(** The account of John, with the access list of his inbox. *)
#[export] Instance mailbox_client : MailboxClient Lists := {
  MethodResponse := unit; ChangesResponse := unit;
  default_account_id _ := b "john"; session_accounts _ := []; max_objects_in_get _ := None;
  is_session_updated _ := true; refresh_session := ret tt;
  send_mailbox_page _ _ _ := ret []; unwrap_get_mailbox _ := Ok ([], []); unwrap_query_mailbox _ := Ok None;
  send_changes_mailbox _ := ret []; unwrap_changes_mailbox _ := Ok tt; take_account_id r := ([], r);
  ch_account_id _ := []; ch_new_state _ := []; ch_total_changes _ := 0; ch_created _ := []; ch_updated _ := [];
  ch_destroyed _ := []; ch_updated_is_count _ := None
}.
#[export] Instance acl_client : AclClient Lists := {
  send_get_acl account id w := (Ok [Some (map_to_list w)], w);
  send_get_rights _ _ w := (Ok [Some (mkMailboxRights true true true true true true true true true)], w);
  send_set_acl account id update w :=
    (Ok (Ok tt), match update with AclReplace i acls => <[i := acls]> w | AclSet changes => fold_left change changes w end)
}.

Definition listed (w : Lists) (i : str) (a : ACL) : Prop := a ∈ default [] (w !! i).

Lemma listed_change changes w i a :
  listed (fold_left change changes w) i a <-> updated (AclSet changes) i a (listed w i a).
Proof.
  assert (Hext : forall l (P Q : Prop), (P <-> Q) ->
    fold_left (fun granted '(j, a', value) => if decide (j = i /\ a' = a) then (value : bool) = true else granted) l P <->
    fold_left (fun granted '(j, a', value) => if decide (j = i /\ a' = a) then (value : bool) = true else granted) l Q).
  { induction l as [|[[j a'] v] l IH]; intros P Q HPQ; cbn; [done|]. apply IH. by case_decide. }
  revert w; induction changes as [|[[j a'] v] l IH]; intros w; cbn; [done|]. rewrite IH. apply Hext.
  unfold listed, change. destruct (decide (j = i)) as [->|Hne].
  - rewrite lookup_insert_eq. destruct v; case_decide as Hd; cbn [default id]; clear IH Hext;
      rewrite ?elem_of_cons, ?list_elem_of_filter; naive_solver.
  - rewrite lookup_insert_ne by done. rewrite decide_False; naive_solver.
Qed.

#[export] Instance acl_laws : AclLaws Lists.
Proof.
  refine {| granted := fun w _ _ i a => listed w i a |}.
  - intros w acc id l w' [= <- <-]. split_and!; [done..|]. intros i a. cbn. unfold listed. split.
    + intros Ha. destruct (w !! i) as [l|] eqn:E; [|by apply elem_of_nil in Ha]. exists l. split; [|done].
      by apply elem_of_map_to_list.
    + intros (l & Hl%elem_of_map_to_list & Ha). by rewrite Hl.
  - intros w acc id update w' Hs. split; [done|]. cbn in Hs. destruct update as [changes|j acls]; injection Hs as <-; intros i a.
    + apply listed_change.
    + unfold listed. cbn. destruct (decide (j = i)) as [->|Hne];
        [rewrite lookup_insert_eq | rewrite lookup_insert_ne by done]; cbn; intuition congruence.
  - done.
Defined.

Definition account : Account :=
  mkAccount (b "john") None (b "s") [(b "INBOX", b "in")]
    {[ b "in" := mkMailbox false true RoleInbox None None None None None None ]} None.
Definition before : Data Lists := mkData [account] {[ b "jane" := [AclModify; AclReadItems] ]}.

Definition request (rights : str) : Request Command :=
  {| req_tag := b "a1"; req_command := SetAcl;
     req_tokens := [Argument (b "INBOX"); Argument (b "jane"); Argument rights] |}.
Definition get : AclArguments :=
  {| acl_tag := b "a2"; acl_mailbox := b "INBOX"; acl_identifier := None; acl_mod_rights := None |}.
Definition arguments (rights : str) : AclArguments :=
  match parse_acl (request rights) with Ok a => a | _ => get end.
Definition all : str := b "All Mail".
Definition after (rights : str) : Data Lists := (set_acl_task all (arguments rights) before).2.
End Demo.
#[local] Existing Instances Demo.debug Demo.mailbox_client Demo.acl_client Demo.acl_laws.

Lemma setacl_then_getacl_witness :
  exists after, (get_permissions Demo.all Demo.get (Demo.after (b "+sk"))).1 = Ok after /\
    shows after (b "jane") Write /\ ~ shows after (b "jane") Insert.
Proof.
  destruct (setacl_then_getacl Demo.all (Demo.request (b "+sk")) (Demo.arguments (b "+sk")))
    as (i & m & Hi & Hm & _ & Hrun); [vm_compute; reflexivity|reflexivity|].
  injection Hi as <-. injection Hm as <-. eexists. split; [vm_compute; reflexivity|].
  edestruct (Hrun Demo.get Demo.before) as [_ Hs]; [reflexivity|vm_compute; reflexivity..|].
  rewrite !Hs by done. rewrite !decide_True by done. cbn. split.
  - right. exists RSeen. split; [by left|done].
  - intros [(rights & Hin & Hr)|(r & Hr & Heq)].
    + apply list_elem_of_singleton in Hin as [= ->]. clear -Hr. set_solver.
    + clear -Hr Heq. set_solver.
Defined.

(** [k] is shown for [ACL::Modify], and SETACL with [-k] leaves it. *)
Example k_not_removed :
  ok_of (get_permissions Demo.all Demo.get (Demo.after (b "-k"))).1 = Some [(b "jane", [CreateMailbox; Read])].
Proof. vm_compute. reflexivity. Qed.
