(* ===== verification/FetchTask.v ===== *)
(** * FETCH: [src/commands/fetch.rs], [impl SessionData]

    The task of a FETCH: the messages a sequence set names, those of them that
    changed since a modification sequence, what the JMAP server is asked for,
    one FETCH response per message, and the messages that become seen. *)

From stdpp Require Import sorting.
From S2P Require Import Prelude Utf8 Utf7 Types Sequence Flags Wire Commands Parsers ParseSearch ParseFetch Responses FetchWire Mime.
From S2P Require Import Jmap Store UidStore Modseq Synchronize SelectedMailbox Tasks SearchTask.

(** ** Messages as the JMAP library returns them *)
Record JmapAddress := mkJmapAddress { ja_name : option str; ja_email : str }.
Record JmapGroup := mkJmapGroup { jg_name : option str; jg_addresses : list JmapAddress }.
Inductive JmapHeaderValue :=
| AsAddressesAll (addrs : list (list JmapAddress)) | AsAddresses (addrs : list JmapAddress)
| AsGroupedAddressesAll (groups : list (list JmapGroup)) | AsGroupedAddresses (groups : list JmapGroup)
| AsOther.

Inductive Property :=
| PId | PSentAt | PSubject | PFrom | PSender | PReplyTo | PGroupedAddresses (header : str) | PInReplyTo | PMessageId
| PKeywords | PReceivedAt | PPreview | PSize | PBlobId | PThreadId.

#[export] Instance Property_eq_dec : EqDecision Property.
Proof. solve_decision. Defined.

Record Email := mkEmail {
  e_id : option str; e_blob_id : option str; e_thread_id : option str; e_keywords : list str;
  e_sent_at : option Z; e_received_at : option Z; e_size : Z; e_subject : option str; e_preview : option str;
  e_from : option (list JmapAddress); e_sender : option (list JmapAddress); e_reply_to : option (list JmapAddress);
  e_header : str -> option JmapHeaderValue;
  e_in_reply_to : option (list str); e_message_id : option (list str)
}.

(** The requests of the task, the parser of the [mail_parser] library, and
    whether the connection still takes bytes. *)
Class FetchClient (W : Type) := {
  send_get_email : str -> list str -> list Property -> EM W JmapError (list Email * str);
  download : str -> EM W JmapError bytes;
  SetEmailResponse : Type;
  send_set_seen : str -> list (list str) -> EM W JmapError (list SetEmailResponse);
  unwrap_set_email : SetEmailResponse -> Res JmapError str;   (* the new state *)
  parse_message : bytes -> option Message_t;
  is_open : W -> bool
}.

(** [From<&EmailAddress>], [From<&EmailAddressGroup>], [as_imap_address] *)
Definition imap_email (a : JmapAddress) : EmailAddress := mkEmailAddress (ja_name a) (ja_email a).
Definition imap_address (a : JmapAddress) : Address := Single (imap_email a).
Definition imap_groups (groups : list JmapGroup) : list Address :=
  flat_map (fun g =>
    match jg_name g with
    | None => map imap_address (jg_addresses g)
    | Some _ => [Group (mkAddressGroup (jg_name g) (map imap_email (jg_addresses g)))]
    end) groups.
Definition jmap_as_imap_address (v : JmapHeaderValue) : list Address :=
  match v with
  | AsAddressesAll addrs => map imap_address (concat addrs)
  | AsAddresses addrs => map imap_address addrs
  | AsGroupedAddressesAll groups => imap_groups (concat groups)
  | AsGroupedAddresses groups => imap_groups groups
  | AsOther => []
  end.

Definition imap_addresses (l : option (list JmapAddress)) : list Address := default [] (map imap_address <$> l).
Definition header_addresses (e : Email) (header : str) : list Address :=
  default [] (jmap_as_imap_address <$> e_header e header).

Definition email_envelope (e : Email) : Envelope :=
  mkEnvelope (e_sent_at e) (e_subject e) (imap_addresses (e_from e)) (imap_addresses (e_sender e))
    (imap_addresses (e_reply_to e)) (header_addresses e (b "To")) (header_addresses e (b "Cc")) (header_addresses e (b "Bcc"))
    (id_list <$> e_in_reply_to e) (id_list <$> e_message_id e).

(** ** What to ask for *)
Record Needs := mkNeeds { properties : list Property; set_seen_flags : bool; needs_blobs : bool; needs_modseq : bool }.

(** One attribute: the properties it needs, of which the names [unique] are
    not repeated. *)
Definition add_properties (l : list Property) (n : Needs) : Needs :=
  mkNeeds (properties n ++ l) (set_seen_flags n) (needs_blobs n) (needs_modseq n).
Definition add_property (p : Property) (n : Needs) : Needs :=
  mkNeeds (push_unique (properties n) p) (set_seen_flags n) (needs_blobs n) (needs_modseq n).
Definition add_blob (seen : bool) (n : Needs) : Needs :=
  mkNeeds (push_unique (properties n) PBlobId) (set_seen_flags n || seen) true (needs_modseq n).

Definition attribute_needs (is_select : bool) (n : Needs) (attribute : ParseFetch.Attribute) : Needs :=
  match attribute with
  | AEnvelope =>
      add_properties [PSentAt; PSubject; PFrom; PSender; PReplyTo; PGroupedAddresses (b "To"); PGroupedAddresses (b "Cc");
                      PGroupedAddresses (b "Bcc"); PInReplyTo; PMessageId] n
  | AFlags => add_property PKeywords n
  | AInternalDate => add_properties [PReceivedAt] n
  | APreview _ => add_property PPreview n
  | ARfc822Size => add_properties [PSize] n
  | ARfc822Header | ABody | ABodyStructure | ABinarySize _ => add_blob false n
  | ABodySection peek _ _ | ABinary peek _ _ => add_blob (is_select && negb peek) n
  | ARfc822Text | ARfc822 => add_blob is_select n
  | AUid | AEmailId => n
  | AModSeq => mkNeeds (properties n) (set_seen_flags n) (needs_blobs n) true
  | AThreadId => add_property PThreadId n
  end.

Definition fetch_needs (is_select : bool) (attributes : list ParseFetch.Attribute) : Needs :=
  let n := foldl (attribute_needs is_select) (mkNeeds [PId] false false false) attributes in
  if set_seen_flags n then add_property PKeywords n else n.

(** [u32::MAX], for a modification sequence that is not known *)
Definition NO_MODSEQ : Z := 2 ^ 32 - 1.

Definition highest_modseq_response `{DebugFmt} (modseq : Z) : bytes :=
  status_serialize (with_code (sr_ok (msg "Highest Modseq")) (HighestModseq modseq)).

Section FetchTask.
Context {W : Type} `{Sled W} `{Clock W} `{EmailClient W} `{SearchClient W} `{Limits W} `{FetchClient W} `{DebugFmt} `{Chrono} `{Md5}.
(** The snapshot of the mailbox, [mailbox.is_select], the fuel of [body_structure]. *)
Context (mailbox : MailboxId) (is_select : bool) (fuel : nat).

Abbreviation T := (EM (TaskState W) StatusResponse).

(** [self.core.state_to_modseq(..)] *)
Definition core_modseq (state : str) : T Z :=
  on_world (map_errM (fun _ => database_failure) (state_to_modseq (account_id mailbox) state)).
(** [.unwrap_or(u32::MAX)] *)
Definition modseq_or_max (state : str) : T Z :=
  do* r := attempt (core_modseq state) in
  match r with Ok modseq => ret modseq | Err _ => ret NO_MODSEQ | Panic => lift Panic | NoFuel => lift NoFuel end.

(** *** CHANGEDSINCE *)
Definition validate_vanished (arguments : FetchArguments) (is_uid is_qresync : bool) : Res StatusResponse unit :=
  if include_vanished arguments then
    if negb is_qresync then Err (sr_bad (msg "Enable QRESYNC first to use the VANISHED parameter."))
    else if negb is_uid then Err (sr_bad (msg "VANISHED parameter is only available for UID FETCH."))
    else Ok tt
  else Ok tt.

Definition write_vanished (changes : EmailChanges) : T unit :=
  if bool_decide (ec_destroyed changes <> []) || bool_decide (ec_updated changes <> []) then
    do* r := on_world (fun w => let '(r, w) := attempt (jmap_to_imap mailbox (ec_destroyed changes ++ ec_updated changes)
                                                          OnlyIncludeDeleted) w in (r, w)) in
    match r with
    | Ok (_, vanished) =>
        if decide (vanished <> []) then Tasks.write_bytes (vanished_serialize true (merge_sort Z.le vanished)) else ret tt
    | Err _ => ret tt
    | Panic => lift Panic
    | NoFuel => lift NoFuel
    end
  else ret tt.

(** [ids.remove(&jmap_id)] and [changed_ids.insert(jmap_id, imap_ids)] *)
Fixpoint changed_loop (changed : list str) (ids changed_ids : gmap (list Z) ImapId) : gmap (list Z) ImapId :=
  match changed with
  | [] => changed_ids
  | jmap_id :: changed =>
      match ids !! jmap_id with
      | Some imap_ids => changed_loop changed (delete jmap_id ids) (<[jmap_id := imap_ids]> changed_ids)
      | None => changed_loop changed ids changed_ids
      end
  end.

(** [None]: there is nothing to send. *)
Definition since (arguments : FetchArguments) (changed_since : Z) (ids : gmap (list Z) ImapId) (enabled_condstore : bool)
  : T (option (gmap (list Z) ImapId) * bool) :=
  do* state := on_world (map_errM (fun _ => database_failure) (modseq_to_state (account_id mailbox) (wrap32 changed_since))) in
  match state with
  | None => lift (Err (sr_bad [PStr (b "MODSEQ '"); PStr (dec changed_since); PStr (b "' does not exist.")]))
  | Some state =>
      do* changes := on_world (map_errM into_status_response (send_changes_email (account_id mailbox) state)) in
      do* enabled_condstore :=
        if enabled_condstore then
          do* modseq := core_modseq (ec_new_state changes) in
          do* _ := Tasks.write_bytes (highest_modseq_response modseq) in
          ret false
        else ret false in
      do* _ := if include_vanished arguments then write_vanished changes else ret tt in
      let changed_ids := changed_loop (ec_created changes ++ ec_updated changes) ids ∅ in
      if decide (changed_ids = ∅) then ret (None, enabled_condstore) else ret (Some changed_ids, enabled_condstore)
  end.

(** *** One message *)
Definition keyword_flags (e : Email) : list Flag := map parse_jmap (e_keywords e).

Definition decode_failure (sections : list Z) (number : Z) : bytes :=
  status_serialize (with_code (sr_no [PStr (b "Failed to decode part "); PStr (dotted (map dec sections)); PStr (b " of message ");
                                      PStr (dec number); PStr (b ".")]) UnknownCte).

(** The contents of a message: the bytes, and what the parser makes of them. *)
Abbreviation Raw := (option (bytes * Message_t)).

Definition raw_part (raw : Raw) (range : MessagePart -> nat * nat) (item : str -> DataItem) : T (list DataItem) :=
  do* (raw_message, message) := lift (unwrap raw) in
  do* root := lift (get_root_part message) in
  ret (map (fun x => item (lossy x)) (option_list (get_range raw_message (range root).1 (range root).2))).

Definition attribute_items (is_uid : bool) (imap : ImapId) (e : Email) (raw : Raw) (set_seen_flag : bool) (modseq : Z)
    (attribute : ParseFetch.Attribute) : T (list DataItem) :=
  match attribute with
  | AEnvelope => ret [DEnvelope (email_envelope e)]
  | AFlags => ret [DFlags (keyword_flags e ++ if set_seen_flag then [Seen] else [])]
  | AInternalDate => ret (map DInternalDate (option_list (e_received_at e)))
  | APreview _ => ret [DPreview (e_preview e)]
  | ARfc822Size => ret [DRfc822Size (e_size e)]
  | AUid => ret [DUid (id_uid imap)]
  | ARfc822 => do* (raw_message, _) := lift (unwrap raw) in ret [DRfc822 (lossy raw_message)]
  | ARfc822Header => raw_part raw (fun root => (offset_header root, offset_body root)) DRfc822Header
  | ARfc822Text => raw_part raw (fun root => (offset_body root, offset_end root)) DRfc822Text
  | ABody =>
      do* (_, message) := lift (unwrap raw) in
      do* part := lift (body_structure fuel message false) in
      ret [DBody part]
  | ABodyStructure =>
      do* (_, message) := lift (unwrap raw) in
      do* part := lift (body_structure fuel message true) in
      ret [DBodyStructure part]
  | ABodySection _ sections partial =>
      do* (_, message) := lift (unwrap raw) in
      do* contents := lift (body_section message sections partial) in
      ret (map (DBodySection sections (fst <$> partial)) (option_list contents))
  | ABinary _ sections partial =>
      do* (_, message) := lift (unwrap raw) in
      match binary message sections partial with
      | Ok contents => ret (map (DBinary sections (fst <$> partial)) (option_list contents))
      | Err _ =>
          do* _ := Tasks.write_bytes (decode_failure sections (id_number is_uid imap)) in
          ret []
      | Panic => lift Panic
      | NoFuel => lift NoFuel
      end
  | ABinarySize sections =>
      do* (_, message) := lift (unwrap raw) in
      do* size := lift (binary_size message sections) in
      ret (map (DBinarySize sections) (option_list size))
  | AModSeq => ret (if modseq =? NO_MODSEQ then [] else [DModSeq modseq])
  | AEmailId => ret (map (fun id => DEmailId (account_id mailbox ++ b "-" ++ id)) (option_list (e_id e)))
  | AThreadId => ret (map (fun id => DThreadId (account_id mailbox ++ b "-" ++ id)) (option_list (e_thread_id e)))
  end.

Fixpoint email_items (is_uid : bool) (imap : ImapId) (e : Email) (raw : Raw) (set_seen_flag : bool) (modseq : Z)
    (attributes : list ParseFetch.Attribute) : T (list DataItem) :=
  match attributes with
  | [] => ret []
  | attribute :: attributes =>
      do* items := attribute_items is_uid imap e raw set_seen_flag modseq attribute in
      do* rest := email_items is_uid imap e raw set_seen_flag modseq attributes in
      ret (items ++ rest)
  end.

(** The message itself, if it is needed; [None]: the message is skipped. *)
Definition email_raw (needs : Needs) (e : Email) : T (option Raw) :=
  if needs_blobs needs then
    match e_blob_id e with
    | Some blob_id =>
        do* r := on_world (attempt (download blob_id)) in
        match r with
        | Ok raw_message => ret ((fun message => Some (raw_message, message)) <$> parse_message raw_message)
        | Err _ => ret None
        | Panic => lift Panic
        | NoFuel => lift NoFuel
        end
    | None => ret None
    end
  else ret (Some None).

(** [!email.keywords().iter().any(|&k| k == Flag::Seen.to_jmap())] *)
Definition is_unseen (e : Email) : bool := negb (existsb (bytes_eqb (to_jmap Seen)) (e_keywords e)).

(** [self.write_bytes(buf).await]: whether the connection took the bytes. *)
Definition write_if_open (x : bytes) : T bool := fun s =>
  if is_open (world s) then (do* _ := Tasks.write_bytes x in ret true) s else (Ok false, s).

(** The response for a message and, if it becomes seen, its id; [None]: the
    connection is closed. *)
Definition fetch_email (needs : Needs) (attributes : list ParseFetch.Attribute) (is_uid : bool) (ids : gmap (list Z) ImapId) (modseq : Z)
    (e : Email) : T (option (list str)) :=
  match ids !! default [] (e_id e) with
  | None => ret (Some [])
  | Some imap =>
      do* raw := email_raw needs e in
      match raw with
      | None => ret (Some [])
      | Some raw =>
          let set_seen_flag := set_seen_flags needs && is_unseen e in
          do* items := email_items is_uid imap e raw set_seen_flag modseq attributes in
          let items := items ++ (if set_seen_flag && negb (bool_decide (AFlags ∈ attributes))
                                 then [DFlags (keyword_flags e ++ [Seen])] else []) in
          do* sent := write_if_open (fetch_item_serialize (mkFetchItem (id_seqnum imap) items)) in
          if (sent : bool) then ret (Some (if set_seen_flag then [default [] (e_id e)] else [])) else ret None
      end
  end.

Fixpoint fetch_emails (needs : Needs) (attributes : list ParseFetch.Attribute) (is_uid : bool) (ids : gmap (list Z) ImapId) (modseq : Z)
    (emails : list Email) (set_seen_ids : list str) : T (option (list str)) :=
  match emails with
  | [] => ret (Some set_seen_ids)
  | e :: emails =>
      do* seen := fetch_email needs attributes is_uid ids modseq e in
      match seen with
      | Some seen => fetch_emails needs attributes is_uid ids modseq emails (set_seen_ids ++ seen)
      | None => ret None
      end
  end.

(** *** The requests, [max_objects_in_get] messages at a time *)
Fixpoint fetch_chunks (needs : Needs) (attributes : list ParseFetch.Attribute) (is_uid : bool) (ids : gmap (list Z) ImapId)
    (chunks : list (list str)) (modseq : Z) (set_seen_ids : list str) : T (option (Z * list str)) :=
  match chunks with
  | [] => ret (Some (modseq, set_seen_ids))
  | jmap_ids :: chunks =>
      do* (emails, state) :=
        on_world (map_errM into_status_response (send_get_email (account_id mailbox) jmap_ids (properties needs))) in
      do* modseq := if needs_modseq needs && (modseq =? NO_MODSEQ) then modseq_or_max state else ret modseq in
      do* seen := fetch_emails needs attributes is_uid ids modseq emails set_seen_ids in
      match seen with
      | Some set_seen_ids => fetch_chunks needs attributes is_uid ids chunks modseq set_seen_ids
      | None => ret None
      end
  end.

(** *** The messages that become seen *)
Fixpoint seen_responses (responses : list SetEmailResponse) (enabled_condstore : bool) (modseq : Z) : T Z :=
  match responses with
  | [] => ret modseq
  | response :: responses =>
      do* state := lift (map_err into_status_response (unwrap_set_email response)) in
      do* modseq := if enabled_condstore then modseq_or_max state else ret modseq in
      seen_responses responses enabled_condstore modseq
  end.

Definition set_seen (set_seen_ids : list str) (enabled_condstore : bool) (modseq : Z) : T Z :=
  if decide (set_seen_ids <> []) then
    do* limit := on_world (fun w => (Ok (set_limit w), w)) in
    do* chunks := lift (chunks (default 500 limit) set_seen_ids) in
    do* responses := on_world (map_errM into_status_response (send_set_seen (account_id mailbox) chunks)) in
    seen_responses responses enabled_condstore modseq
  else ret modseq.

(** The modification sequence of a client that enables CONDSTORE with this FETCH. *)
Definition report_modseq (enabled_condstore : bool) (modseq : Z) : T unit :=
  if enabled_condstore then
    do* modseq :=
      if modseq =? NO_MODSEQ then
        do* r := on_world (attempt (synchronize_state (account_id mailbox))) in
        match r with Ok m => ret m | Err _ => ret modseq | Panic => lift Panic | NoFuel => lift NoFuel end
      else ret modseq in
    if modseq =? NO_MODSEQ then ret tt else Tasks.write_bytes (highest_modseq_response modseq)
  else ret tt.

(** The part after CHANGEDSINCE. *)
Definition fetch_messages (attributes : list ParseFetch.Attribute) (is_uid : bool) (ids : gmap (list Z) ImapId) (enabled_condstore : bool)
  : T unit :=
  let needs := fetch_needs is_select attributes in
  let attributes := if is_uid then push_unique attributes AUid else attributes in
  do* limit := on_world (fun w => (Ok (get_limit w), w)) in
  do* chunks := lift (chunks (default 500 limit) (map fst (map_to_list ids))) in
  do* done := fetch_chunks needs attributes is_uid ids chunks NO_MODSEQ [] in
  match done with
  | None => ret tt
  | Some (modseq, set_seen_ids) =>
      do* modseq := set_seen set_seen_ids enabled_condstore modseq in
      report_modseq enabled_condstore modseq
  end.

Definition fetch_steps (arguments : FetchArguments) (is_uid is_qresync enabled_condstore : bool) : T unit :=
  do* _ := lift (validate_vanished arguments is_uid is_qresync) in
  do* ids := task_sequence_to_jmap (fetch_sequence_set arguments) is_uid in
  match changed_since arguments with
  | Some changed_since =>
      do* (ids, enabled_condstore) := since arguments changed_since ids enabled_condstore in
      match ids with
      | None => ret tt
      | Some ids => fetch_messages (push_unique (attributes arguments) AModSeq) is_uid ids enabled_condstore
      end
  | None => fetch_messages (attributes arguments) is_uid ids enabled_condstore
  end.

Definition fetch (arguments : FetchArguments) (is_uid is_qresync enabled_condstore : bool) : EM (TaskState W) unit StatusResponse :=
  let tag := fetch_tag arguments in
  do* r := attempt (fetch_steps arguments is_uid is_qresync enabled_condstore) in
  match r with
  | Ok _ => ret (with_tag (completed (Fetch is_uid)) tag)
  | Err response => ret (with_tag response tag)
  | Panic => lift Panic
  | NoFuel => lift NoFuel
  end.

(** The task that [handle_fetch] spawns. *)
Definition fetch_task (arguments : FetchArguments) (is_uid is_qresync enabled_condstore : bool) : EM (TaskState W) unit unit :=
  do* response := fetch arguments is_uid is_qresync enabled_condstore in
  Tasks.write_bytes (status_serialize response).
End FetchTask.
