(* ===== verification/StoreTask.v ===== *)
(** * STORE: [src/commands/store.rs]

    The task of a STORE: the messages a sequence set names, without those that
    changed since a modification sequence; the changes of their keywords; the
    FETCH responses with their new flags. *)

From stdpp Require Import sorting.
From S2P Require Import Prelude Utf8 Utf7 Types Sequence Flags Wire Commands Parsers ParseFetch FetchWire Mime.
From S2P Require Import Jmap Store UidStore Modseq Synchronize SelectedMailbox Tasks SearchTask FetchTask.

(** What the update of a message says of its keywords. *)
Inductive KeywordUpdate := SetKeywords (l : list str) | PatchKeywords (l : list (str * bool)).

(** The answers to the calls of a request. *)
Inductive StoreResponse :=
| GetEmail (list_ : list Email)
| SetEmail (new_state : str) (updated_ids : option (list str))
| MethodError (e : JmapError)
| OtherMethod.

(** One request with [Email/set] calls and [Email/get] calls. *)
Class StoreClient (W : Type) := {
  send_store : str -> list (list (str * KeywordUpdate)) -> list (list str) -> EM W JmapError (list StoreResponse)
}.

(** [arguments.keywords] and [arguments.operation] for a message *)
Definition keyword_update (operation : Operation) (keywords : list Flag) : KeywordUpdate :=
  match operation with
  | OpSet => SetKeywords (map to_jmap keywords)
  | OpAdd => PatchKeywords (map (fun k => (to_jmap k, true)) keywords)
  | OpClear => PatchKeywords (map (fun k => (to_jmap k, false)) keywords)
  end.

(** ** UNCHANGEDSINCE *)

(** [modified], [unchanged_ids], [sequence_set], [unchanged_failed] *)
Record Unchanged := mkUnchanged {
  modified : list Z; unchanged_ids : gmap (list Z) ImapId; sequence_left : gset Z; unchanged_failed : bool }.

Definition was_changed (changes : EmailChanges) (jmap_id : str) : bool :=
  bool_decide (jmap_id ∈ ec_updated changes) || bool_decide (jmap_id ∈ ec_created changes) || bool_decide (jmap_id ∈ ec_destroyed changes).

Fixpoint unchanged_loop (changes : EmailChanges) (is_uid : bool) (ids : list (str * ImapId)) (u : Unchanged) : Unchanged :=
  match ids with
  | [] => u
  | (jmap_id, imap_id) :: ids =>
      let was_destroyed := bool_decide (jmap_id ∈ ec_destroyed changes) in
      let id := id_number is_uid imap_id in
      let sequence_set := sequence_left u ∖ {[id]} in
      let failed := unchanged_failed u || was_destroyed in
      unchanged_loop changes is_uid ids
        (if bool_decide (jmap_id ∈ ec_updated changes) || bool_decide (jmap_id ∈ ec_created changes) || was_destroyed then
           mkUnchanged (modified u ++ [id]) (unchanged_ids u) sequence_set failed
         else mkUnchanged (modified u) (<[jmap_id := imap_id]> (unchanged_ids u)) sequence_set failed)
  end.

(** The numbers that are left name no message. *)
Definition unchanged_rest (u : Unchanged) : Unchanged :=
  if decide (sequence_left u = ∅) then u
  else mkUnchanged (modified u ++ elements (sequence_left u)) (unchanged_ids u) (sequence_left u) true.

Definition filter_unchanged (state : MailboxData) (changes : EmailChanges) (sequence : Sequence) (is_uid : bool)
    (ids : gmap (list Z) ImapId) : Unchanged :=
  let max := if is_uid then default 0 (list.last (md_imap_uids state)) else wrap32 (Z.of_nat (length (md_imap_uids state))) in
  unchanged_rest (unchanged_loop changes is_uid (map_to_list ids) (mkUnchanged [] ∅ (expand sequence max) false)).

Definition with_code_if (r : StatusResponse) (code : option ResponseCode) : StatusResponse :=
  match code with Some code => with_code r code | None => r end.

Section StoreTask.
Context {W : Type} `{Sled W} `{Clock W} `{SearchClient W} `{Limits W} `{StoreClient W} `{Chrono} `{DebugFmt}.
Context (mailbox : MailboxId).

Abbreviation T := (EM (TaskState W) StatusResponse).

Definition modseq_response (modseq : Z) : StatusResponse :=
  sr_bad [PStr (b "MODSEQ '"); PStr (dec modseq); PStr (b "' does not exist.")].

(** The messages to update and the response so far. *)
Definition store_select (arguments : StoreArguments) (is_uid : bool) : T (gmap (list Z) ImapId * StatusResponse) :=
  let t := store_tag arguments in
  do* ids := map_errM (fun r => with_tag r t) (task_sequence_to_jmap (store_sequence_set arguments) is_uid) in
  if decide (ids = ∅) then lift (Err (with_tag (completed (Store is_uid)) t))
  else
    do* (ids, response_code, unchanged_failed) :=
      match unchanged_since arguments with
      | None => ret (ids, None, false)
      | Some unchanged_since =>
          do* state := on_world (map_errM (fun _ => with_tag database_failure t)
                                   (modseq_to_state (account_id mailbox) (wrap32 unchanged_since))) in
          match state with
          | None => lift (Err (with_tag (modseq_response unchanged_since) t))
          | Some state =>
              do* changes := on_world (map_errM (fun e => with_tag (into_status_response e) t)
                                         (send_changes_email (account_id mailbox) state)) in
              do* snapshot := get_selected in
              let u := filter_unchanged snapshot changes (store_sequence_set arguments) is_uid ids in
              ret (unchanged_ids u,
                   if decide (modified u <> []) then Some (Modified (merge_sort Z.le (modified u))) else None,
                   unchanged_failed u)
          end
      end in
    let response := with_tag (if negb unchanged_failed then completed (Store is_uid)
                              else sr_no (msg "Some of the messages no longer exist.")) t in
    let response := with_code_if response response_code in
    if decide (ids = ∅) then lift (Err response) else ret (ids, response).

(** ** The update *)

(** [emails], [new_state], [updated_ids] *)
Record StoreResults := mkStoreResults { sr_emails : list Email; sr_new_state : str; sr_updated : list str }.

Fixpoint store_results (t : str) (responses : list StoreResponse) (r : StoreResults) : Res StatusResponse StoreResults :=
  match responses with
  | [] => Ok r
  | GetEmail l :: responses => store_results t responses (mkStoreResults (sr_emails r ++ l) (sr_new_state r) (sr_updated r))
  | SetEmail state updated :: responses =>
      store_results t responses (mkStoreResults (sr_emails r) state (sr_updated r ++ default [] updated))
  | MethodError e :: _ => Err (with_tag (into_status_response e) t)
  | OtherMethod :: _ => Err (with_code (with_tag (sr_no (msg "Invalid response received from JMAP server.")) t) ContactAdmin)
  end.

(** The response says so unless all of the messages were updated. *)
Definition verify_updated (ids : gmap (list Z) ImapId) (updated_ids : list str) (response : StatusResponse) : StatusResponse :=
  if negb (size ids =? length updated_ids)%nat && bool_decide (rtype response = RtOk) then
    {| tag := tag response; code := code response;
       message := if decide (updated_ids = []) then msg "Operation failed."
                  else msg "Opertation failed for some of the messages.";
       rtype := RtNo |}
  else response.

(** [Response { items }], one for every message that is returned *)
Definition flags_items (ids : gmap (list Z) ImapId) (is_uid : bool) (modseq : Z) (updated_ids : list str) (emails : list Email)
  : list FetchItem :=
  omap (fun email =>
    imap_id ← ids !! default [] (e_id email);
    Some (mkFetchItem (id_seqnum imap_id)
      (DFlags (keyword_flags email) ::
       (if is_uid then [DUid (id_uid imap_id)] else []) ++
       (if negb (modseq =? NO_MODSEQ) && existsb (bytes_eqb (default [] (e_id email))) updated_ids then [DModSeq modseq] else []))))
    emails.

Definition modseq_items (ids : gmap (list Z) ImapId) (is_uid : bool) (modseq : Z) (updated_ids : list str) : list FetchItem :=
  omap (fun jmap_id =>
    imap_id ← ids !! jmap_id;
    Some (mkFetchItem (id_seqnum imap_id) (DModSeq modseq :: if is_uid then [DUid (id_uid imap_id)] else [])))
    updated_ids.

Definition set_last_state (state : str) : T unit :=
  do* d := get_selected in
  set_selected (mkMailboxData (md_uid_next d) (md_uid_validity d) (md_jmap_ids d) (md_imap_uids d) (md_total_messages d) state).

Definition store_update (arguments : StoreArguments) (is_uid is_condstore : bool) (ids : gmap (list Z) ImapId)
    (response : StatusResponse) : T bytes :=
  let t := store_tag arguments in
  do* max_get := on_world (fun w => (Ok (default 500 (get_limit w)), w)) in
  do* max_set := on_world (fun w => (Ok (default 500 (set_limit w)), w)) in
  let ids_vec := map fst (map_to_list ids) in
  do* set_chunks := lift (chunks max_set ids_vec) in
  do* get_chunks := if is_silent arguments then ret [] else lift (chunks max_get ids_vec) in
  let update := keyword_update (operation arguments) (keywords arguments) in
  do* responses := on_world (map_errM (fun e => with_tag (into_status_response e) t)
                       (send_store (account_id mailbox) (map (map (fun id => (id, update))) set_chunks) get_chunks)) in
  do* r := lift (store_results t responses (mkStoreResults [] [] [])) in
  do* modseq :=
    if is_condstore then
      do* m := on_world (attempt (state_to_modseq (account_id mailbox) (sr_new_state r))) in
      match m with Ok m => ret m | Err _ => ret NO_MODSEQ | Panic => lift Panic | NoFuel => lift NoFuel end
    else ret NO_MODSEQ in
  do* _ := set_last_state (sr_new_state r) in
  let response := verify_updated ids (sr_updated r) response in
  if decide (sr_emails r <> []) then
    ret (fetch_response_serialize (flags_items ids is_uid modseq (sr_updated r) (sr_emails r)) ++ status_serialize response)
  else if negb (modseq =? NO_MODSEQ) && bool_decide (sr_updated r <> []) then
    ret (fetch_response_serialize (modseq_items ids is_uid modseq (sr_updated r)) ++ status_serialize response)
  else lift (Err response).

Definition store (arguments : StoreArguments) (is_uid is_condstore : bool) : T bytes :=
  do* (ids, response) := store_select arguments is_uid in
  store_update arguments is_uid is_condstore ids response.

(** The task that [handle_store] spawns. *)
Definition store_task (arguments : StoreArguments) (is_uid is_condstore : bool) : EM (TaskState W) unit unit :=
  do* r := attempt (store arguments is_uid is_condstore) in
  match r with
  | Ok bytes => Tasks.write_bytes bytes
  | Err response => Tasks.write_bytes (status_serialize response)
  | Panic => lift Panic
  | NoFuel => lift NoFuel
  end.
End StoreTask.

(** ** UNCHANGEDSINCE leaves changed messages alone *)

(** [n] is the number of a message of [ids] that changed. *)
Definition names_changed (changes : EmailChanges) (is_uid : bool) (ids : gmap (list Z) ImapId) (n : Z) : Prop :=
  exists id r, ids !! id = Some r /\ id_number is_uid r = n /\ was_changed changes id = true.
Definition names_destroyed (changes : EmailChanges) (ids : gmap (list Z) ImapId) : Prop :=
  exists id, is_Some (ids !! id) /\ id ∈ ec_destroyed changes.
(** [n] is one of the numbers of the set, but not that of a message. *)
Definition names_nothing (numbers : gset Z) (is_uid : bool) (ids : gmap (list Z) ImapId) (n : Z) : Prop :=
  n ∈ numbers /\ forall id r, ids !! id = Some r -> id_number is_uid r <> n.

(** The loop in one piece. *)
Definition insert_all (m : gmap (list Z) ImapId) (l : list (str * ImapId)) : gmap (list Z) ImapId :=
  foldl (fun m p => <[p.1 := p.2]> m) m l.

Lemma unchanged_loop_eq changes is_uid l u :
  unchanged_loop changes is_uid l u =
  mkUnchanged
    (modified u ++ map (fun p => id_number is_uid p.2) (List.filter (fun p => was_changed changes p.1) l))
    (insert_all (unchanged_ids u) (List.filter (fun p => negb (was_changed changes p.1)) l))
    (sequence_left u ∖ list_to_set (map (fun p => id_number is_uid p.2) l))
    (unchanged_failed u || existsb (fun p => bool_decide (p.1 ∈ ec_destroyed changes)) l).
Proof.
  revert u. induction l as [|[jmap_id r] l IH]; intros u; cbn [unchanged_loop List.filter map existsb fst snd].
  { rewrite app_nil_r, orb_false_r. destruct u. cbn. by rewrite difference_empty_L. }
  fold (was_changed changes jmap_id). rewrite IH. destruct (was_changed changes jmap_id); cbn [negb modified unchanged_ids sequence_left unchanged_failed map].
  all: by rewrite <- ?app_assoc, <- ?orb_assoc, difference_difference_l_L.
Qed.

Lemma insert_all_lookup m l id r :
  NoDup (map fst l) ->
  (insert_all m l !! id = Some r) <-> (id, r) ∈ l \/ (id ∉ map fst l) /\ (m !! id = Some r).
Proof.
  revert m. induction l as [|[i q] l IH]; intros m Hn; cbn [insert_all foldl map fst snd].
  { rewrite !elem_of_nil. tauto. }
  cbn [map fst] in Hn. apply list.NoDup_cons in Hn as [Hx Hn]. fold (insert_all (<[i:=q]> m) l).
  rewrite IH, !elem_of_cons by done. destruct (decide (i = id)) as [->|Hne].
  - rewrite lookup_insert_eq. split.
    + intros [?|[? [= ->]]]; auto.
    + intros [[[= ->]|?]|[[] _]]; auto.
  - rewrite lookup_insert_ne by done. split.
    + intros [?|[Hnot ?]]; [by auto|]. right. split; [|done]. intros [?|?]; [congruence|done].
    + intros [[[= -> ->]|?]|[Hnot ?]]; [done|by auto|]. right. split; [|done]. tauto.
Qed.

Lemma filter_map_to_list_nodup (ids : gmap (list Z) ImapId) (f : str * ImapId -> bool) :
  NoDup (map fst (List.filter f (map_to_list ids))).
Proof.
  pose proof (NoDup_fst_map_to_list ids) as Hn. induction (map_to_list ids) as [|x l IH]; cbn in *; [constructor|].
  apply list.NoDup_cons in Hn as [Hx Hn]. destruct (f x); cbn; [|by apply IH]. apply list.NoDup_cons. split; [|by apply IH].
  intros (y & Hy & Hin)%list_elem_of_fmap. apply Hx. apply list_elem_of_fmap. exists y. split; [done|].
  apply list_elem_of_In in Hin. apply filter_In in Hin as [Hin _]. by apply list_elem_of_In.
Qed.

(** What UNCHANGEDSINCE leaves, what it reports, and whether it says NO. *)
Lemma filter_unchanged_spec state changes sequence is_uid ids :
  let u := filter_unchanged state changes sequence is_uid ids in
  let numbers := expand sequence (if is_uid then default 0 (list.last (md_imap_uids state))
                                  else wrap32 (Z.of_nat (length (md_imap_uids state)))) in
  (forall id r, unchanged_ids u !! id = Some r <-> ids !! id = Some r /\ was_changed changes id = false) /\
  (forall n, n ∈ modified u <-> names_changed changes is_uid ids n \/ names_nothing numbers is_uid ids n) /\
  (unchanged_failed u = true <-> names_destroyed changes ids \/ exists n, names_nothing numbers is_uid ids n).
Proof.
  intros u numbers. subst u. unfold filter_unchanged. fold numbers. rewrite unchanged_loop_eq. cbn [modified unchanged_ids sequence_left unchanged_failed orb app].
  set (l := map_to_list ids). assert (Hl : forall id r, (id, r) ∈ l <-> ids !! id = Some r) by (intros; apply elem_of_map_to_list).
  set (left := numbers ∖ list_to_set (map (fun p => id_number is_uid p.2) l)).
  assert (Hleft : forall n, n ∈ left <-> names_nothing numbers is_uid ids n).
  { intros n. unfold left, names_nothing. rewrite elem_of_difference, elem_of_list_to_set, list_elem_of_fmap. split; intros [Hn Hno]; (split; [done|]).
    - intros id r Hid <-. apply Hno. exists (id, r). by rewrite Hl.
    - intros ([id r] & -> & Hin). by apply (Hno id r); [apply Hl|]. }
  assert (Hmod : forall n, n ∈ map (fun p => id_number is_uid p.2) (List.filter (fun p => was_changed changes p.1) l) <-> names_changed changes is_uid ids n).
  { intros n. unfold names_changed. rewrite list_elem_of_In, in_map_iff. setoid_rewrite filter_In. setoid_rewrite <- list_elem_of_In. split.
    - intros ([id r] & <- & ? & ?). exists id, r. by rewrite <- Hl.
    - intros (id & r & ? & <- & ?). exists (id, r). by rewrite Hl. }
  assert (Hfail : existsb (fun p => bool_decide (p.1 ∈ ec_destroyed changes)) l = true <-> names_destroyed changes ids).
  { unfold names_destroyed. rewrite existsb_exists. setoid_rewrite <- list_elem_of_In. setoid_rewrite bool_decide_eq_true. split.
    - intros ([id r] & Hin & ?). exists id. split; [exists r; by apply Hl|done].
    - intros (id & [r Hr] & ?). exists (id, r). by rewrite Hl. }
  assert (Hids : forall id r, insert_all ∅ (List.filter (fun p => negb (was_changed changes p.1)) l) !! id = Some r <->
                   ids !! id = Some r /\ was_changed changes id = false).
  { intros id r. rewrite insert_all_lookup by apply filter_map_to_list_nodup.
    rewrite list_elem_of_In, filter_In, <- list_elem_of_In, Hl, lookup_empty. cbn. rewrite negb_true_iff. intuition done. }
  unfold unchanged_rest. cbn [sequence_left modified unchanged_ids unchanged_failed]. case_decide as Hempty; cbn [modified unchanged_ids unchanged_failed].
  - split_and!; [done|intros n|]; rewrite ?Hmod, ?Hfail; setoid_rewrite <- Hleft; rewrite Hempty;
      (split; [by left|]).
    + by intros [?|?%elem_of_empty].
    + by intros [?|[n ?%elem_of_empty]].
  - split_and!; [done|intros n|].
    + by rewrite elem_of_app, Hmod, elem_of_elements, Hleft.
    + apply set_choose_L in Hempty as [n Hn]. split; [|done]. intros _. right. exists n. by apply Hleft.
Qed.

Section Store.
Context {W : Type} `{Sled W} `{Clock W} `{SearchClient W} `{Limits W} `{StoreClient W} `{Chrono} `{DebugFmt}.
Context (mailbox : MailboxId).

(** The messages that an answer says were updated. *)
Definition updated_of (responses : list StoreResponse) : list str :=
  flat_map (fun r => match r with SetEmail _ updated => default [] updated | _ => [] end) responses.

(** The server does not say that it updated a message twice, or one it was not asked to. *)
Hypothesis Hsend : forall account sets gets w responses w',
  send_store account sets gets w = (Ok responses, w') ->
  NoDup (updated_of responses) /\ forall id, id ∈ updated_of responses -> id ∈ map fst (concat sets).

Lemma store_results_updated t responses r r' :
  store_results t responses r = Ok r' -> sr_updated r' = sr_updated r ++ updated_of responses.
Proof.
  revert r. induction responses as [|[l|state updated|e|] responses IH]; intros r; cbn [store_results updated_of flat_map]; try done.
  - intros [= ->]. by rewrite app_nil_r.
  - intros Hr. by rewrite (IH _ Hr).
  - intros Hr. rewrite (IH _ Hr). cbn. by rewrite <- app_assoc.
Qed.

Lemma store_results_no t responses r e : store_results t responses r = Err e -> rtype e = RtNo.
Proof.
  revert r. induction responses as [|[l|state updated|e'|] responses IH]; intros r; cbn [store_results]; try done.
  - apply IH.
  - apply IH.
  - intros [= <-]. apply (into_status_response_no e').
  - by intros [= <-].
Qed.

Lemma all_updated (ids : gmap (list Z) ImapId) updated :
  NoDup updated -> (forall id, id ∈ updated -> is_Some (ids !! id)) -> size ids = length updated ->
  forall id, id ∈ updated <-> is_Some (ids !! id).
Proof.
  intros Hn Hsub Hsize id. split; [apply Hsub|]. intros [r Hr].
  assert (Hperm : updated ≡ₚ map fst (map_to_list ids)).
  { apply submseteq_length_Permutation.
    - apply NoDup_submseteq; [done|]. intros i Hi. destruct (Hsub _ Hi) as [q Hq].
      apply list_elem_of_fmap. exists (i, q). split; [done|]. by apply elem_of_map_to_list.
    - rewrite length_map, length_map_to_list. by rewrite Hsize. }
  rewrite Hperm. apply list_elem_of_fmap. exists (id, r). split; [done|]. by apply elem_of_map_to_list.
Qed.

Lemma verify_updated_ok n ids sets update account gets responses response w w' :
  chunks (E := StatusResponse) n (map fst (map_to_list ids)) = Ok sets ->
  send_store account (map (map (fun id => (id, update))) sets) gets w = (Ok responses, w') ->
  rtype (verify_updated ids (updated_of responses) response) = RtOk ->
  rtype response = RtOk /\ forall id, id ∈ updated_of responses <-> is_Some (ids !! id).
Proof using Hsend.
  intros Hc Hw Hok. unfold verify_updated in Hok. destruct (Hsend _ _ _ _ _ _ Hw) as [Hn Hsub].
  destruct (size ids =? length (updated_of responses))%nat eqn:E; cbn [negb andb] in Hok; [|case_bool_decide; [done|congruence]].
  split; [done|]. apply all_updated; [done| |by apply Nat.eqb_eq in E].
  intros id Hid. apply Hsub in Hid. rewrite <- concat_map, map_map in Hid. cbn in Hid. rewrite map_id in Hid.
  apply chunks_concat in Hc. rewrite Hc in Hid.
  apply list_elem_of_fmap in Hid as ([i q] & -> & Hin). exists q. by apply elem_of_map_to_list.
Qed.

(** The FETCH response is for a message of [ids]. *)
Definition item_names (ids : gmap (list Z) ImapId) (is_uid : bool) (item : FetchItem) : Prop :=
  exists id r, ids !! id = Some r /\ fi_id item = id_seqnum r /\ (is_uid = true -> DUid (id_uid r) ∈ fi_items item).

Lemma flags_items_name ids is_uid modseq updated emails : Forall (item_names ids is_uid) (flags_items ids is_uid modseq updated emails).
Proof.
  apply list.Forall_forall. intros item (e & _ & He)%list_elem_of_omap.
  destruct (ids !! default [] (e_id e)) as [r|] eqn:E; [|done]. cbn in He. inversion He; subst.
  exists (default [] (e_id e)), r. split_and!; [done|done|]. intros ->. cbn. by right; left.
Qed.

Lemma modseq_items_name ids is_uid modseq updated : Forall (item_names ids is_uid) (modseq_items ids is_uid modseq updated).
Proof.
  apply list.Forall_forall. intros item (id & _ & He)%list_elem_of_omap.
  destruct (ids !! id) as [r|] eqn:E; [|done]. cbn in He. inversion He; subst.
  exists id, r. split_and!; [done|done|]. intros ->. cbn. by right; left.
Qed.

End Store.

(** ** A mailbox with three messages, one of them changed *)
Module Demo.
#[export] Instance clock : Clock KV := stopped_clock 1700000000.
#[export] Instance debug : DebugFmt := {| debug_str s := s; debug_char c := [c] |}.
#[export] Instance chrono : Chrono := {|
  parse_datetime_str _ := None; parse_date_str _ := None; format_datetime _ := []; format_rfc2822 _ := [] |}.
#[export] Instance search_client : SearchClient KV := {
  send_search _ _ _ db := (Ok (mkQueryPage (Some 0) []), db);
  send_changes_email _ _ db := (Ok (mkEmailChanges (b "t") [] [b "a"] []), db)
}.
#[export] Instance limits : Limits KV := {| get_limit _ := Some 2; set_limit _ := Some 2 |}.
(** Everything is updated; the state after is "u". *)
#[export] Instance client : StoreClient KV := {|
  send_store _ sets gets db :=
    (Ok [SetEmail (b "u") (Some (remove_dups (map fst (concat sets))))], db)
|}.

Lemma client_law account sets gets w responses w' :
  send_store account sets gets w = (Ok responses, w') ->
  NoDup (updated_of responses) /\ forall id, id ∈ updated_of responses -> id ∈ map fst (concat sets).
Proof.
  intros [= <- <-]. cbn. rewrite app_nil_r. split; [apply NoDup_remove_dups|]. intros id. by rewrite elem_of_remove_dups.
Qed.

Definition inbox : MailboxId := mkMailboxId (b "john") (Some (b "in")).
Definition snapshot : MailboxData := mkMailboxData 40 1 [b "a"; b "b"; b "c"] [10; 20; 30] 3 [].
(** The store knows the state "s" by the number 1. *)
Definition state : TaskState KV := mkTaskState snapshot SavedNone [] (state_to_modseq (b "john") (b "s") ∅).2.
Definition arguments (sequence : Sequence) (since : option Z) : StoreArguments :=
  {| store_tag := b "A1"; store_sequence_set := sequence; operation := OpAdd; is_silent := true; keywords := [Flagged];
     unchanged_since := since |}.
Definition all : Sequence := Range (Some 1) None.
Definition answer (sequence : Sequence) (since : option Z) (is_uid : bool) : list bytes :=
  written (store_task inbox (arguments sequence since) is_uid false state).2.
End Demo.
#[local] Existing Instances Demo.clock Demo.debug Demo.chrono Demo.search_client Demo.limits Demo.client.



(** Message 1 changed: it is left alone, and reported. *)
Example changed_is_reported :
  Demo.answer Demo.all (Some 1) false = [b "A1 OK [MODIFIED 1] STORE completed" ++ CRLF].
Proof. vm_compute. reflexivity. Qed.

(** The numbers of a UID range that no message has are reported as modified,
    and the answer is NO, although all of the messages were updated. *)
Example uid_gaps_modified :
  Demo.answer (Range (Some 20) (Some 30)) (Some 1) true =
  [b "A1 NO [MODIFIED 21:29] Some of the messages no longer exist." ++ CRLF].
Proof. vm_compute. reflexivity. Qed.
