(* ===== verification/CopyTask.v ===== *)
(** * COPY and MOVE: [src/commands/copy_move.rs]

    The task of a COPY or MOVE: inside an account the messages get another
    mailbox, across accounts they are copied; then the UIDs of the copies are
    looked up, and after a MOVE the messages leave the snapshot of the selected
    mailbox, of which the client is told with EXPUNGE. *)

From stdpp Require Import sorting.
From Stdlib Require Import Sorted.
From S2P Require Import Prelude Utf8 Utf7 Types Sequence Wire Parsers.
From S2P Require Import Jmap Store UidStore Synchronize SelectedMailbox Tasks StoreTask.

(** The answers of an [Email/copy] request. *)
Inductive CopyResponse :=
| CopyEmail (created : option (list str))
| CopySetEmail (new_state : str) (destroyed : option (list str))
| CopyError (e : JmapError)
| CopyOther.

(** The requests: [Email/set] with changes of mailboxes (the answers already
    unwrapped, with the new state and the ids that were updated), and
    [Email/copy] from one account to another. *)
Class CopyClient (W : Type) := {
  send_move : str -> list (list (str * list (str * bool))) -> EM W JmapError (list (Res JmapError (str * option (list str))));
  send_copy : str -> str -> bool -> list (list (str * list (str * bool))) -> EM W JmapError (list CopyResponse)
}.

(** What the messages copied so far are. *)
Record Copied := mkCopied { src_uids : list Z; copied_ids : list str; destroyed_ids : list str }.

(** [if let Some(imap_id) = ids.get(&id) { src_uids.push(imap_id.uid) } copied_ids.push(id)] *)
Definition add_copied (ids : gmap (list Z) ImapId) (new : list str) (c : Copied) : Copied :=
  mkCopied (src_uids c ++ omap (fun id => id_uid <$> ids !! id) new) (copied_ids c ++ new) (destroyed_ids c).

(** The messages that stay, and the numbers (or UIDs) of the others. *)
Fixpoint expunge_loop (destroyed : list str) (is_qresync : bool) (pos : nat) (l : list (str * Z))
    (new_jmap_ids : list str) (new_imap_uids expunged : list Z) : list str * list Z * list Z :=
  match l with
  | [] => (new_jmap_ids, new_imap_uids, expunged)
  | (jmap_id, imap_uid) :: l =>
      if negb (bool_decide (jmap_id ∈ destroyed)) then
        expunge_loop destroyed is_qresync (S pos) l (new_jmap_ids ++ [jmap_id]) (new_imap_uids ++ [imap_uid]) expunged
      else
        expunge_loop destroyed is_qresync (S pos) l new_jmap_ids new_imap_uids
          (expunged ++ [if is_qresync then imap_uid else wrap32 (Z.of_nat pos + 1)])
  end.

Definition remove_moved (destroyed : list str) (is_qresync : bool) (state : MailboxData) : MailboxData * list Z :=
  let '(jmap_ids, imap_uids, expunged) :=
    expunge_loop destroyed is_qresync 0 (zip (md_jmap_ids state) (md_imap_uids state)) [] [] [] in
  (mkMailboxData (md_uid_next state) (md_uid_validity state) jmap_ids imap_uids
     (md_total_messages state - length expunged) (md_last_state state),
   merge_sort Z.le expunged).

Section CopyTask.
Context {W : Type} `{Sled W} `{Clock W} `{Limits W} `{CopyClient W} `{DebugFmt}.
Context (src_mailbox dest_mailbox : MailboxId) (is_move is_uid is_qresync : bool).

Abbreviation T := (EM (TaskState W) StatusResponse).

Definition tagged_jmap {A} (t : str) (m : EM W JmapError A) : T A :=
  on_world (map_errM (fun e => with_tag (into_status_response e) t) m).

Fixpoint move_responses (t : str) (ids : gmap (list Z) ImapId) (responses : list (Res JmapError (str * option (list str)))) (c : Copied)
  : T Copied :=
  match responses with
  | [] => ret c
  | response :: responses =>
      do* (new_state, updated) := lift (map_err (fun e => with_tag (into_status_response e) t) response) in
      do* _ := if is_move then set_last_state new_state else ret tt in
      move_responses t ids responses (add_copied ids (default [] updated) c)
  end.

Fixpoint copy_responses (t : str) (ids : gmap (list Z) ImapId) (responses : list CopyResponse) (c : Copied) : T Copied :=
  match responses with
  | [] => ret c
  | CopyEmail created :: responses => copy_responses t ids responses (add_copied ids (default [] created) c)
  | CopySetEmail new_state destroyed :: responses =>
      do* _ := set_last_state new_state in
      copy_responses t ids responses (mkCopied (src_uids c) (copied_ids c) (destroyed_ids c ++ default [] destroyed))
  | CopyError e :: _ => lift (Err (with_tag (into_status_response e) t))
  | CopyOther :: responses => copy_responses t ids responses c
  end.

(** [copied_ids] and, across accounts, [destroyed_ids] *)
Definition copy_messages (t : str) (ids : gmap (list Z) ImapId) : T (Copied * option (list str)) :=
  do* max_set := on_world (fun w => (Ok (default 500 (set_limit w)), w)) in
  do* chunks := lift (chunks max_set (map fst (map_to_list ids))) in
  do* dest := lift (unwrap (mailbox_id dest_mailbox)) in
  if bool_decide (account_id src_mailbox = account_id dest_mailbox) then
    let update := (dest, true) :: (if is_move then map (fun id => (id, false)) (option_list (mailbox_id src_mailbox)) else []) in
    do* responses := tagged_jmap t (send_move (account_id src_mailbox) (map (map (fun id => (id, update))) chunks)) in
    do* c := move_responses t ids responses (mkCopied [] [] []) in
    ret (c, None)
  else
    do* responses := tagged_jmap t (send_copy (account_id src_mailbox) (account_id dest_mailbox) is_move
                                      (map (map (fun id => (id, [(dest, true)]))) chunks)) in
    do* c := copy_responses t ids responses (mkCopied [] [] []) in
    ret (c, Some (destroyed_ids c)).

(** The UIDs of the copies; both questions are asked in any case. *)
Definition copy_uids (t : str) (c : Copied) : T (list str * ResponseCode) :=
  do* mapped := on_world (attempt (UidStore.jmap_to_imap dest_mailbox (copied_ids c) AddIfMissing)) in
  do* dest := on_world (attempt (uids dest_mailbox)) in
  match mapped, dest with
  | Ok (copied_ids, dest_uids), Ok (uid_validity, _) =>
      ret (copied_ids, CopyUid uid_validity (merge_sort Z.le (src_uids c)) (merge_sort Z.le dest_uids))
  | _, _ => lift (Err (with_tag database_failure t))
  end.

Definition copy_move (arguments : CopyMoveArguments) : T unit :=
  let t := cm_tag arguments in
  do* ids := map_errM (fun r => with_tag r t) (task_sequence_to_jmap (cm_sequence_set arguments) is_uid) in
  if decide (ids = ∅) then lift (Err (with_tag (sr_no (msg "No messages were found.")) t))
  else
    let response := with_tag (completed (if is_move then Move is_uid else Copy is_uid)) t in
    do* (c, destroyed) := copy_messages t ids in
    if decide (copied_ids c = []) then lift (Err (with_tag (sr_no (msg "Copy failed.")) t))
    else
      do* (copied_ids, uid_copy) := copy_uids t c in
      if is_move then
        let destroyed := default copied_ids destroyed in
        do* state := get_selected in
        let '(state, expunged) := remove_moved destroyed is_qresync state in
        do* _ := set_selected state in
        do* _ := on_world (attempt (delete_ids src_mailbox destroyed)) in
        Tasks.write_bytes (expunge_serialize is_qresync expunged ++
          status_serialize (with_code (sr_ok (msg "Copied UIDs")) uid_copy) ++ status_serialize response)
      else Tasks.write_bytes (status_serialize (with_code response uid_copy)).

(** The task that [handle_copy_move] spawns. *)
Definition copy_move_task (arguments : CopyMoveArguments) : EM (TaskState W) unit unit :=
  do* r := attempt (copy_move arguments) in
  match r with
  | Ok _ => ret tt
  | Err err => Tasks.write_bytes (status_serialize err)
  | Panic => lift Panic
  | NoFuel => lift NoFuel
  end.
End CopyTask.

(** ** MOVE, as the client sees it *)
Lemma expunge_loop_spec destroyed is_qresync pos l nj nu ex :
  expunge_loop destroyed is_qresync pos l nj nu ex =
  (nj ++ map fst (filter (fun p => p.1 ∉ destroyed) l), nu ++ map snd (filter (fun p => p.1 ∉ destroyed) l),
   ex ++ (expunge_loop destroyed is_qresync pos l [] [] []).2).
Proof.
  revert pos nj nu ex. induction l as [|[j u] l IH]; intros pos nj nu ex; cbn [expunge_loop]; [by rewrite !app_nil_r|].
  rewrite filter_cons. cbn [fst]. rewrite !app_nil_l. case_bool_decide as Hd; cbn [negb].
  - rewrite decide_False by tauto. rewrite (IH (S pos) nj nu), (IH (S pos) [] [] [if is_qresync then u else wrap32 (Z.of_nat pos + 1)]).
    cbn [snd]. by rewrite <- app_assoc.
  - rewrite decide_True by done. rewrite (IH (S pos) (nj ++ [j])), (IH (S pos) [j] [u] []). cbn. by rewrite <- !app_assoc.
Qed.

(** The expunged numbers are those of the messages that are gone. *)
Lemma expunge_loop_gone destroyed l pos kept :
  NoDup (map snd l) ->
  (forall j u, (j, u) ∈ l -> u ∈ kept <-> j ∉ destroyed) ->
  (expunge_loop destroyed false pos l [] [] []).2 = map id_seqnum (gone kept pos (map snd l)).
Proof.
  revert pos. induction l as [|[j u] l IH]; intros pos Hn Hk; cbn [expunge_loop map snd gone]; [done|].
  cbn [map snd] in Hn. apply list.NoDup_cons in Hn as [_ Hn].
  assert (Hju : u ∈ kept <-> j ∉ destroyed) by (apply Hk; by left).
  assert (Hrest : forall j u, (j, u) ∈ l -> u ∈ kept <-> j ∉ destroyed) by (intros; apply Hk; by right).
  case_bool_decide as Hd; cbn [negb]; case_bool_decide as Hu; try tauto; cbn [snd app map id_seqnum].
  all: rewrite expunge_loop_spec; cbn [snd app]; by rewrite IH.
Qed.

Lemma expunged_sorted l kept pos :
  Z.of_nat (pos + length l) < 2 ^ 32 -> StronglySorted Z.le (map id_seqnum (gone kept pos l)).
Proof.
  enough (Hgen : Z.of_nat (pos + length l) < 2 ^ 32 -> StronglySorted Z.le (map id_seqnum (gone kept pos l)) /\
            Forall (fun n => Z.of_nat pos < n) (map id_seqnum (gone kept pos l))) by (intros; by apply Hgen).
  revert pos. induction l as [|u l IH]; intros pos Hs; cbn [gone map]; [by split; constructor|].
  cbn [length] in Hs. destruct (IH (S pos) ltac:(lia)) as [Hsort Hall].
  assert (Hall' : forall k, k < Z.of_nat (S pos) + 1 -> Forall (fun n => k < n + 1) (map id_seqnum (gone kept (S pos) l))).
  { intros k Hk. eapply list.Forall_impl; [exact Hall|]. cbn. lia. }
  case_bool_decide; cbn [map id_seqnum]; (split; [|]).
  - done.
  - eapply list.Forall_impl; [exact Hall|]. cbn. lia.
  - constructor; [done|]. eapply list.Forall_impl; [exact Hall|]. cbn. rewrite wrap32_id by lia. lia.
  - constructor; [rewrite wrap32_id by lia; lia|]. eapply list.Forall_impl; [exact Hall|]. cbn. lia.
Qed.

Lemma merge_sort_sorted (l : list Z) : StronglySorted Z.le l -> merge_sort Z.le l = l.
Proof.
  intros Hl. apply (StronglySorted_unique Z.le); [|done|apply merge_sort_Permutation].
  apply StronglySorted_merge_sort; [intros ???|intros ??]; lia.
Qed.

Lemma filter_iff_in {A} (P Q : A -> Prop) `{!forall x, Decision (P x), !forall x, Decision (Q x)} (l : list A) :
  (forall x, x ∈ l -> P x <-> Q x) -> filter P l = filter Q l.
Proof.
  induction l as [|x l IH]; intros Hl; [done|]. rewrite !filter_cons.
  rewrite IH by (intros; apply Hl; by right). pose proof (Hl x ltac:(by left)). repeat case_decide; tauto || done.
Qed.

(** A UID is among those of the messages that stay if its message is. *)
Lemma kept_uids (l : list (str * Z)) (destroyed : list str) :
  NoDup (map snd l) -> forall j u, (j, u) ∈ l -> u ∈ map snd (filter (fun p => p.1 ∉ destroyed) l) <-> j ∉ destroyed.
Proof.
  intros Hn j u Hju. rewrite list_elem_of_fmap. split.
  - intros ([j' u'] & -> & [Hd Hin]%list_elem_of_filter). cbn in *.
    apply list_elem_of_lookup in Hju as [i Hi], Hin as [i' Hi'].
    assert (i = i') as <-; [|congruence].
    apply (list.NoDup_lookup (map snd l) i i' u'); [done|by rewrite list_lookup_fmap, Hi|by rewrite list_lookup_fmap, Hi'].
  - intros Hd. exists (j, u). split; [done|]. by apply list_elem_of_filter.
Qed.

(** The snapshot after a MOVE. *)
Lemma remove_moved_spec destroyed state :
  aligned state ->
  let r := remove_moved destroyed false state in
  client_expunges (md_imap_uids state) (expunge_numbers 0 r.2) = md_imap_uids r.1 /\
  pairs r.1 = filter (fun p => p.1 ∉ destroyed) (pairs state) /\
  (md_total_messages state = length (md_imap_uids state) -> md_total_messages r.1 = length (md_imap_uids r.1)).
Proof.
  intros [Hlen Hnj Hnu Hsm] r. unfold r, remove_moved. clear r. fold (pairs state).
  set (l := pairs state). set (keep := filter (fun p => p.1 ∉ destroyed) l).
  assert (Hu : map snd l = md_imap_uids state) by (by apply zip_snd).
  assert (Hj : map fst l = md_jmap_ids state) by (by apply zip_fst).
  assert (Hin : forall j u, (j, u) ∈ l -> u ∈ map snd keep <-> j ∉ destroyed) by (apply kept_uids; by rewrite Hu).
  assert (Hgone : (expunge_loop destroyed false 0 l [] [] []).2 = map id_seqnum (gone (map snd keep) 0 (map snd l)))
    by (apply expunge_loop_gone; [by rewrite Hu|done]).
  rewrite expunge_loop_spec, Hgone. cbn [app fst snd md_imap_uids md_total_messages]. fold keep.
  assert (Hsize : Z.of_nat (length (map snd l)) < 2 ^ 32) by (by rewrite Hu).
  rewrite merge_sort_sorted by (by apply expunged_sorted).
  assert (Hkeep : filter (fun u => u ∈ map snd keep) (map snd l) = map snd keep).
  { rewrite <- (filter_map_snd (fun u => u ∈ map snd keep)). f_equal. apply filter_iff_in. intros [j u] Hju. by apply Hin. }
  split_and!.
  - rewrite <- Hu. etransitivity; [by apply (client_expunges_gone (map snd keep) (map snd l) [] 0 0)|]. done.
  - unfold pairs at 1. cbn. apply zip_maps.
  - intros Htot. rewrite Htot, <- Hu. pose proof (length_gone (map snd keep) 0 (map snd l)) as Hg. rewrite Hkeep in Hg.
    rewrite (length_map id_seqnum). lia.
Qed.

Section Move.
Context {W : Type} `{Sled W} `{Clock W} `{Limits W} `{CopyClient W} `{DebugFmt}.
Context (src_mailbox dest_mailbox : MailboxId) (is_uid : bool).

Create HintDb keeps.

(** The same messages in the snapshot, and nothing written. *)
Definition same_messages (s s' : TaskState W) : Prop :=
  md_jmap_ids (selected s') = md_jmap_ids (selected s) /\ md_imap_uids (selected s') = md_imap_uids (selected s) /\
  md_total_messages (selected s') = md_total_messages (selected s) /\ written s' = written s.

#[export] Instance same_messages_preorder : PreOrder same_messages.
Proof. split; [by intros s|]. intros s1 s2 s3 (? & ? & ? & ?) (? & ? & ? & ?). unfold same_messages. split_and!; congruence. Qed.

(** A step that leaves the messages. *)
Definition keeps_messages {E A} (m : EM (TaskState W) E A) : Prop := forall s, post m s (fun _ s' => same_messages s s').

Lemma keeps_bind {E A B} (m : EM (TaskState W) E A) (k : A -> EM (TaskState W) E B) :
  keeps_messages m -> (forall x, keeps_messages (k x)) -> keeps_messages (bindM m k).
Proof.
  intros Hm Hk s. apply post_bind. eapply post_mono; [apply Hm|]. intros x s1 Hs1. eapply post_mono; [apply Hk|].
  intros y s2 Hs2. exact (transitivity Hs1 Hs2).
Qed.
Lemma keeps_lift {E A} (r : Res E A) : keeps_messages (lift r).
Proof. intros s. apply post_lift. intros x _. reflexivity. Qed.
Lemma keeps_ret {E A} (x : A) : keeps_messages (E := E) (ret x).
Proof. intros s. apply post_ret. reflexivity. Qed.
Lemma keeps_world {E A} (m : EM W E A) : keeps_messages (on_world m).
Proof. intros s. apply post_on_world. done. Qed.
Lemma keeps_last_state state : keeps_messages (set_last_state state).
Proof. by intros s. Qed.
#[local] Hint Resolve keeps_bind keeps_lift keeps_ret keeps_world keeps_last_state : keeps.

Lemma move_responses_keeps is_move t ids responses c : keeps_messages (move_responses is_move t ids responses c).
Proof.
  revert c. induction responses as [|r responses IH]; intros c; cbn [move_responses]; [auto with keeps|].
  apply keeps_bind; [auto with keeps|]. intros [state updated]. apply keeps_bind; [destruct is_move; auto with keeps|auto].
Qed.

Lemma copy_responses_keeps t ids responses c : keeps_messages (copy_responses t ids responses c).
Proof.
  revert c. induction responses as [|[created|state destroyed|e|] responses IH]; intros c; cbn [copy_responses]; auto with keeps.
Qed.

Lemma copy_messages_keeps is_move t ids : keeps_messages (copy_messages src_mailbox dest_mailbox is_move t ids).
Proof.
  unfold copy_messages. do 3 (apply keeps_bind; [auto with keeps|]; intros ?).
  case_bool_decide; (apply keeps_bind; [unfold tagged_jmap; auto with keeps|]; intros ?; apply keeps_bind; [|auto with keeps]).
  - apply move_responses_keeps.
  - apply copy_responses_keeps.
Qed.

Lemma copy_uids_keeps t c : keeps_messages (copy_uids dest_mailbox t c).
Proof.
  unfold copy_uids. do 2 (apply keeps_bind; [auto with keeps|]; intros ?). repeat case_match; auto with keeps.
Qed.

End Move.

(** ** Two mailboxes of one account *)
Module Demo.
#[export] Instance clock : Clock KV := stopped_clock 1700000000.
#[export] Instance debug : DebugFmt := {| debug_str s := s; debug_char c := [c] |}.
#[export] Instance limits : Limits KV := {| get_limit _ := None; set_limit _ := None |}.
(** Everything is updated or copied, and the originals are destroyed. *)
#[export] Instance client : CopyClient KV := {|
  send_move _ chunks db := (Ok [Ok (b "u", Some (map fst (concat chunks)))], db);
  send_copy _ _ is_move chunks db := (Ok [CopyEmail (Some (map fst (concat chunks)))], db)
|}.

Definition inbox : MailboxId := mkMailboxId (b "john") (Some (b "in")).
Definition archive : MailboxId := mkMailboxId (b "john") (Some (b "ar")).
Definition shared : MailboxId := mkMailboxId (b "jane") (Some (b "in")).
Definition snapshot : MailboxData := mkMailboxData 40 1 [b "a"; b "b"; b "c"] [5; 7; 9] 3 [].
Definition state : TaskState KV := mkTaskState snapshot SavedNone [] ∅.
Definition arguments (first last : Z) : CopyMoveArguments :=
  {| cm_tag := b "A1"; cm_sequence_set := Range (Some first) (Some last); cm_mailbox_name := b "Archive" |}.

Lemma copy_aligned_state : aligned (selected state).
Proof. split; [done|..]; refine (bool_decide_eq_true_1 _ _); vm_compute; reflexivity. Qed.
End Demo.
#[local] Existing Instances Demo.clock Demo.debug Demo.limits Demo.client.


(** The client is told that message 5 became 1 and 7 became 2.  It is the
    other way round: 5 is "a", and "a" has UID 2. *)
Example copyuid_pairs_wrong :
  let run := copy_move Demo.inbox Demo.archive false true false (Demo.arguments 5 7) Demo.state in
  written run.2 = [b "A1 OK [COPYUID 209254 5,7 1:2] UID COPY completed" ++ CRLF] /\
  (UidStore.jmap_to_imap Demo.archive [b "a"] MapNone (world run.2)).1 = Ok ([b "a"], [2]).
Proof. vm_compute. done. Qed.

(** A MOVE to another account that destroys nothing ends in an empty VANISHED. *)
Example vanished_empty :
  written (copy_move Demo.inbox Demo.shared true false true (Demo.arguments 1 1) Demo.state).2 =
  [b "* VANISHED " ++ CRLF ++ b "* OK [COPYUID 209254 5 1] Copied UIDs" ++ CRLF ++ b "A1 OK MOVE completed" ++ CRLF].
Proof. vm_compute. done. Qed.
