(* ===== verification/AppendTask.v ===== *)
(** * APPEND: [src/commands/append.rs]

    The task of an APPEND: every message is uploaded and imported, the new
    messages get their UIDs, and the answer names them. *)

From stdpp Require Import sorting.
From S2P Require Import Prelude Utf8 Utf7 Types Sequence Flags Wire Commands Parsers Responses.
From S2P Require Import Jmap Store UidStore UidSpec UidOps Synchronize SelectedMailbox Tasks StoreTask.

(** [Email/import] of a blob: the mailbox, the keywords and the date. *)
Record ImportRequest := mkImportRequest {
  im_blob_id : str; im_mailbox_ids : list str; im_keywords : list str; im_received_at : option Z }.

(** The upload of a blob, and an import with the id that is created, which may
    be an error of its own, and the new state. *)
Class AppendClient (W : Type) := {
  upload : bytes -> EM W JmapError str;
  send_import : str -> ImportRequest -> EM W JmapError (Res JmapError str * str)
}.

Section AppendTask.
Context {W : Type} `{Sled W} `{Clock W} `{EmailClient W} `{AppendClient W} `{DebugFmt}.
(** The destination, and whether it is the selected mailbox. *)
Context (mailbox : MailboxId) (is_dest_selected : bool).

Abbreviation T := (EM (TaskState W) StatusResponse).

Definition append_message (account_id : str) (raw_message : bytes) (mailbox_ids keywords : list str) (received_at : option Z)
  : EM W JmapError (str * str) :=
  do* blob_id := upload raw_message in
  do* (created, new_state) := send_import account_id (mkImportRequest blob_id mailbox_ids keywords received_at) in
  do* id := lift created in
  ret (id, new_state).

(** The messages in their order, until one of them fails. *)
Fixpoint append_loop (messages : list Message) (created_jmap_ids : list str) (response : StatusResponse)
  : T (list str * StatusResponse) :=
  match messages with
  | [] => ret (created_jmap_ids, response)
  | message :: messages =>
      do* dest := lift (unwrap (mailbox_id mailbox)) in
      do* r := on_world (attempt (append_message (account_id mailbox) (msg_bytes message) [dest]
                                    (map to_jmap (msg_flags message)) (received_at message))) in
      match r with
      | Ok (jmap_id, new_state) =>
          do* _ := if is_dest_selected then set_last_state new_state else ret tt in
          append_loop messages (if decide (jmap_id <> []) then created_jmap_ids ++ [jmap_id] else created_jmap_ids) response
      | Err err => ret (created_jmap_ids, with_tag (into_status_response err) (default [] (tag response)))
      | Panic => lift Panic
      | NoFuel => lift NoFuel
      end
  end.

(** The UIDVALIDITY; the selected mailbox is synchronized first. *)
Definition append_validity : T Z :=
  if is_dest_selected then
    do* new_state := on_world (synchronize_messages mailbox) in
    do* (new_message_count, _) := task_synchronize_uids new_state false in
    do* _ := write_exists new_message_count in
    ret (md_uid_validity new_state)
  else
    do* r := on_world (map_errM (fun _ => database_failure) (uids mailbox)) in
    ret r.1.

(** The last response, with the UIDs of the messages that were created. *)
Definition append_steps (messages : list Message) (response : StatusResponse) : T StatusResponse :=
  do* (created_jmap_ids, response) := append_loop messages [] response in
  if decide (created_jmap_ids <> []) then
    map_errM (fun e => with_tag e (default [] (tag response)))
      (do* mapped := on_world (map_errM (fun _ => database_failure) (UidStore.jmap_to_imap mailbox created_jmap_ids AddIfMissing)) in
       do* uid_validity := append_validity in
       ret (with_code response (AppendUid uid_validity mapped.2)))
  else ret response.

(** The task that [handle_append] spawns. *)
Definition append_task (arguments : AppendArguments) : EM (TaskState W) unit unit :=
  do* r := attempt (append_steps (append_messages arguments) (with_tag (completed Append) (append_tag arguments))) in
  match r with
  | Ok response | Err response => Tasks.write_bytes (status_serialize response)
  | Panic => lift Panic
  | NoFuel => lift NoFuel
  end.
End AppendTask.

(** ** The UIDs of the new messages *)
Lemma um_uid_added um id : um_uid um id = None -> um_uid (um_add um id) id = Some (um_last um + 1).
Proof.
  unfold um_uid. cbn [um_add um_entries]. rewrite list.filter_app.
  destruct (filter (fun e => e.2 = id) (um_entries um)) as [|x l]; [|done]. intros _.
  rewrite app_nil_l, filter_cons_True by done. done.
Qed.

Lemma um_uid_add_missing um id : exists uid, um_uid (um_add_missing um id) id = Some uid.
Proof.
  unfold um_add_missing. destruct (um_uid um id) as [uid|] eqn:E; [by exists uid|]. eexists. by apply um_uid_added.
Qed.

Lemma um_found_all um ids :
  let um' := foldl um_add_missing um ids in Forall2 (fun id uid => um_uid um' id = Some uid) ids (uids_of (um_found um' ids)).
Proof.
  intros um'. assert (Hall : Forall (fun id => is_Some (um_uid um' id)) ids).
  { unfold um'. clear um'. revert um. induction ids as [|id ids IH]; intros um; [constructor|]. cbn [foldl]. constructor.
    - destruct (um_uid_add_missing um id) as [uid Huid]. exists uid. by apply add_missing_stable.
    - apply IH. }
  clearbody um'. induction Hall as [|id ids [uid Huid] _ IH]; [constructor|].
  rewrite (found_cons _ _ _ uid) by done. cbn. by constructor.
Qed.

Section Append.
Context {W : Type} `{SledLaws W} `{!Clock W} `{!ClockLaws W} `{!EmailClient W} `{!AppendClient W} `{!DebugFmt}.
Context (mailbox : MailboxId).

(** The server does not touch the store, and its ids are strings. *)
Hypothesis Hupload : forall x w r w', upload x w = (r, w') -> contents w' = contents w.
Hypothesis Himport : forall account q w r w', send_import account q w = (r, w') -> contents w' = contents w /\
  forall id state, r = Ok (Ok id, state) -> from_utf8 id = Some id.

(** A message that was imported, with its id. *)
Definition imported (message : Message) (id : str) : Prop :=
  exists dest w state w', mailbox_id mailbox = Some dest /\
    append_message (account_id mailbox) (msg_bytes message) [dest] (map to_jmap (msg_flags message)) (received_at message) w = (Ok (id, state), w').

Lemma append_message_contents account raw mailboxes keywords date w r w' :
  append_message account raw mailboxes keywords date w = (r, w') ->
  contents w' = contents w /\ forall id state, r = Ok (id, state) -> from_utf8 id = Some id.
Proof using Hupload Himport.
  unfold append_message, bindM. destruct (upload raw w) as [[blob|e| |] w1] eqn:E; apply Hupload in E;
    [|by intros [= <- <-]..].
  destruct (send_import _ _ w1) as [[[created state]|e| |] w2] eqn:E2; apply Himport in E2 as [Hc Hid];
    [|intros [= <- <-]; split; [congruence|done]..].
  unfold lift. destruct created as [id|e| |]; intros [= <- <-]; (split; [congruence|done || intros ? ? [= -> ->]]). by eapply Hid.
Qed.

(** The messages up to the first failure. *)
Lemma append_loop_spec messages created response s :
  post (append_loop mailbox false messages created response) s (fun r s' =>
    contents (world s') = contents (world s) /\ written s' = written s /\
    exists ids rest, Forall2 imported (take (length ids) messages) ids /\ Forall (fun id => from_utf8 id = Some id) ids /\
      (length ids <= length messages)%nat /\ r = (created ++ filter (fun id => id <> []) ids, rest) /\
      ((length ids = length messages /\ rest = response) \/ rtype rest = RtNo)).
Proof using Hupload Himport.
  revert created s. induction messages as [|m messages IH]; intros created s; cbn [append_loop].
  { apply post_ret. split_and!; [done|done|]. exists [], response. cbn. rewrite app_nil_r. split_and!; try done; by left. }
  apply post_bind, post_lift. intros dest Hdest. apply post_bind, post_on_world. intros r w Hrun.
  assert (mailbox_id mailbox = Some dest) by (by destruct (mailbox_id mailbox); simplify_eq/=).
  unfold attempt in Hrun. destruct (append_message _ _ _ _ _ _) as [r0 w0] eqn:E.
  pose proof (append_message_contents _ _ _ _ _ _ _ _ E) as [Hc Hutf].
  destruct r0 as [[id state]|e| |]; try done; inversion Hrun; subst; clear Hrun.
  - apply post_bind, post_ret. eapply post_mono; [apply IH|]. cbn [world written].
    intros r' s' (Hc' & Hw' & ids & rest & Himp & Hall & Hlen & -> & Hrest). split_and!; [congruence|done|].
    exists (id :: ids), rest. cbn [length take]. split_and!.
    + constructor; [by eexists _, _, _, _|done].
    + constructor; [by eapply Hutf|done].
    + lia.
    + rewrite filter_cons. case_decide; [by rewrite <- app_assoc|done].
    + destruct Hrest as [[? ?]|?]; [left; split; [lia|done]|by right].
  - apply post_ret. cbn [world written]. split_and!; [done|done|]. exists [], (with_tag (into_status_response e) (default [] (tag response))).
    cbn. rewrite app_nil_r. split_and!; try done; [lia|right; apply (into_status_response_no e)].
Qed.

Lemma wp_uids_of c um :
  represents c mailbox um ->
  wp (uids mailbox) (fun r c' => is_u32 r.1 /\ represents c' mailbox (um_set_validity um r.1)) c.
Proof.
  intros Hr. unfold uids. apply wp_bind. eapply wp_uid_validity; [exact Hr|]. intros v c' Hv _ Hr'.
  apply wp_bind. eapply wp_uid_next; [exact Hr'|]. by apply wp_ret.
Qed.

End Append.

(** ** A mailbox, and a server that fails on an empty message *)
Module Demo.
#[export] Instance clock : Clock KV := stopped_clock 1700000000.
Lemma append_clock_laws : @ClockLaws KV mem_sled clock.
Proof. apply stopped_clock_laws. unfold is_u64. lia. Qed.
#[export] Existing Instance append_clock_laws.
#[export] Instance debug : DebugFmt := {| debug_str s := s; debug_char c := [c] |}.
#[export] Instance email_client : EmailClient KV := {
  send_query_email _ _ _ db := (Ok (mkQueryPage (Some 0) []), db);
  send_get_email_state _ db := (Ok (b "s"), db)
}.
(** The id of a message is "m" with its text. *)
#[export] Instance client : AppendClient KV := {|
  upload x db := (Ok (lossy x), db);
  send_import _ q db :=
    (Ok (if bytes_eqb (im_blob_id q) [] then Err (SetError InvalidEmail None) else Ok (b "m"), b "t"), db)
|}.
Definition archive : MailboxId := mkMailboxId (b "john") (Some (b "ar")).
Definition state : TaskState KV := mkTaskState (mkMailboxData 1 1 [] [] 0 []) SavedNone [] ∅.
Definition message (x : bytes) : Message := {| msg_bytes := x; msg_flags := []; received_at := None |}.
Definition response : StatusResponse := with_tag (completed Append) (b "A1").

Lemma upload_law x w r w' : upload x w = (r, w') -> contents w' = contents w.
Proof. by intros [= _ <-]. Qed.
Lemma import_law account q w r w' : send_import account q w = (r, w') -> contents w' = contents w /\
  forall id state, r = Ok (Ok id, state) -> from_utf8 id = Some id.
Proof. intros [= <- <-]. split; [done|]. intros id state. destruct (bytes_eqb _ _); [done|]. by intros [= <- _]. Qed.
End Demo.
#[local] Existing Instances Demo.clock Demo.append_clock_laws Demo.debug Demo.email_client Demo.client.


(** A message that fails leaves the ones before it in the mailbox: the answer
    is NO, with an APPENDUID for them. *)
Example append_not_atomic :
  written (append_task Demo.archive false
             {| append_tag := b "A1"; append_mailbox := b "Archive"; append_messages := [Demo.message (b "x"); Demo.message []] |}
             Demo.state).2 = [b "A1 NO [APPENDUID 209254 1] Invalid e-mail address." ++ CRLF].
Proof. vm_compute. done. Qed.
