(* ===== verification/ThreadTask.v ===== *)
(** * THREAD: [src/commands/thread.rs]

    The task of a THREAD: the search keys become a JMAP query, which is read
    page by page together with the thread of every message; the messages are
    grouped by thread and answered as numbers of the selected mailbox. *)

From Stdlib Require Import Permutation.
From S2P Require Import Prelude Utf8 Utf7 Types Receiver Sequence Flags Wire Commands Parsers ParseSearch Responses.
From S2P Require Import Jmap Store UidStore Modseq Synchronize SelectedMailbox Tasks SearchTask.

(** The answers to one request: an [Email/query] and the [Email/get] of its
    result, with the ids of the messages and of their threads. *)
Inductive ThreadResponse :=
| ThreadGet (emails : list (str * option str))
| ThreadQuery (total : option Z) (ids : list str)
| ThreadError (e : JmapError)
| ThreadOther.

Class ThreadClient (W : Type) := {
  send_thread_page : QueryFilter -> Z -> Z -> EM W JmapError (list ThreadResponse)
}.

Abbreviation Threads := (gmap (list Z) (list str)).

(** [threads.entry(thread_id).or_insert_with(Vec::new).push(id)] *)
Definition add_thread (threads : Threads) (email : str * option str) : Threads :=
  match email.2 with
  | Some thread_id => <[thread_id := default [] (threads !! thread_id) ++ [email.1]]> threads
  | None => threads
  end.

(** What a page adds: [results_len] and [total] are of this page. *)
Record Page := mkPage { pg_threads : Threads; pg_jmap_ids : list str; pg_results_len : nat; pg_total : Z }.

Section ThreadTask.
Context {W : Type} `{Sled W} `{Clock W} `{EmailClient W} `{SearchClient W} `{Limits W} `{ThreadClient W} `{DebugFmt}.

Abbreviation T := (EM (TaskState W) StatusResponse).

Fixpoint page_responses (t : str) (responses : list ThreadResponse) (p : Page) : Res StatusResponse Page :=
  match responses with
  | [] => Ok p
  | ThreadGet emails :: responses =>
      page_responses t responses (mkPage (foldl add_thread (pg_threads p) emails) (pg_jmap_ids p) (pg_results_len p) (pg_total p))
  | ThreadQuery total results :: responses =>
      page_responses t responses (mkPage (pg_threads p) (pg_jmap_ids p ++ results) (length results) (default 0 total))
  | ThreadError e :: _ => Err (with_tag (into_status_response e) t)
  | ThreadOther :: _ => Ok p
  end.

Fixpoint thread_loop (fuel : nat) (t : str) (filter : QueryFilter) (limit position : Z) (threads : Threads) (jmap_ids : list str)
  : T (Threads * list str) :=
  match fuel with
  | O => lift NoFuel
  | S fuel =>
      do* responses := on_world (map_errM (fun e => with_tag (into_status_response e) t) (send_thread_page filter position limit)) in
      do* p := lift (page_responses t responses (mkPage threads jmap_ids 0 0)) in
      if (0 <? pg_results_len p)%nat && (Z.of_nat (length (pg_jmap_ids p)) <? pg_total p) then
        thread_loop fuel t filter limit (add_i32 position (Z.of_nat (pg_results_len p))) (pg_threads p) (pg_jmap_ids p)
      else ret (pg_threads p, pg_jmap_ids p)
  end.

(** [threads.values()], in the unspecified order of a hash map, as numbers *)
Fixpoint thread_numbers (is_uid : bool) (state : MailboxData) (threads : list (list str)) : Res StatusResponse (list (list Z)) :=
  match threads with
  | [] => Ok []
  | jmap_ids :: threads =>
      let* ids := Selected.jmap_to_imap state jmap_ids in
      let* rest := thread_numbers is_uid state threads in
      Ok (map (id_number is_uid) ids :: rest)
  end.

(** The errors of the translation of the search keys have no tag. *)
Definition thread (fuel : nat) (arguments : ThreadArguments) (mailbox : MailboxId) (is_uid : bool) : T (list (list Z) * str) :=
  let t := thread_tag arguments in
  do* (filter, _) := imap_filter_to_jmap (thread_filter arguments) mailbox None is_uid in
  do* limit := on_world (fun w => (Ok (default 500 (get_limit w)), w)) in
  do* (threads, jmap_ids) := thread_loop fuel t filter limit 0 ∅ [] in
  do* state := get_selected in
  do* _ :=
    if negb (is_in_sync state jmap_ids) then
      do* new_state := map_errM (fun e => with_tag e t) (on_world (synchronize_messages mailbox)) in
      do* (new_message_count, _) := task_synchronize_uids new_state false in
      write_exists new_message_count
    else ret tt in
  do* state := get_selected in
  do* threads := lift (thread_numbers is_uid state (map snd (map_to_list threads))) in
  ret (threads, t).

(** The task that [handle_thread] spawns. *)
Definition thread_task (fuel : nat) (arguments : ThreadArguments) (mailbox : MailboxId) (command : Command) (is_uid : bool)
  : EM (TaskState W) unit unit :=
  do* r := attempt (thread fuel arguments mailbox is_uid) in
  match r with
  | Ok (threads, tag) => Tasks.write_bytes (thread_serialize threads ++ status_serialize (with_tag (completed command) tag))
  | Err response => Tasks.write_bytes (status_serialize response)
  | Panic => lift Panic
  | NoFuel => lift NoFuel
  end.
End ThreadTask.

(** ** Every message that is found is in one thread *)

(** The threads of [ids]: for every thread of one of them, all of them that
    belong to it, in their order. *)
Definition grouped (thread_of : str -> str) (ids : list str) (threads : Threads) : Prop :=
  forall t l, threads !! t = Some l <-> l = filter (fun id => thread_of id = t) ids /\ l <> [].

Lemma grouped_nil thread_of : grouped thread_of [] ∅.
Proof. intros t l. rewrite lookup_empty. split; [done|]. by intros [-> ?]. Qed.

Lemma grouped_add thread_of ids threads id :
  grouped thread_of ids threads -> grouped thread_of (ids ++ [id]) (add_thread threads (id, Some (thread_of id))).
Proof.
  intros Hg t l. cbn [add_thread fst snd]. rewrite list.filter_app. destruct (decide (thread_of id = t)) as [<-|Hne].
  - rewrite lookup_insert_eq, filter_cons_True by done. change (filter _ []) with (@nil str).
    assert (Hl : default [] (threads !! thread_of id) = filter (fun i => thread_of i = thread_of id) ids).
    { destruct (threads !! thread_of id) as [k|] eqn:E; [by apply Hg in E as [-> _]|].
      destruct (filter (fun i => thread_of i = thread_of id) ids) as [|x k] eqn:Ef; [done|].
      assert (Hs : threads !! thread_of id = Some (x :: k)) by (apply Hg; by rewrite Ef). congruence. }
    rewrite Hl. split; [intros [= <-]; split; [done|]; by destruct (filter _ ids)|]. by intros [-> _].
  - rewrite lookup_insert_ne, filter_cons_False by done. change (filter _ []) with (@nil str). rewrite app_nil_r. apply Hg.
Qed.

Lemma grouped_page thread_of ids threads page :
  grouped thread_of ids threads ->
  grouped thread_of (ids ++ page) (foldl add_thread threads (map (fun id => (id, Some (thread_of id))) page)).
Proof.
  revert ids threads. induction page as [|id page IH]; intros ids threads Hg; cbn [map foldl]; [by rewrite app_nil_r|].
  replace (ids ++ id :: page) with ((ids ++ [id]) ++ page) by (by rewrite <- app_assoc). by apply IH, grouped_add.
Qed.

Section Answer.
Context {W : Type} `{Sled W} `{Clock W} `{EmailClient W} `{SearchClient W} `{Limits W} `{ThreadClient W} `{DebugFmt}.
Context (query : QueryFilter) (ids : list str) (thread_of : str -> str).

(** [Email/query] finds [ids] and returns them from a position on, at least one
    at a time, with how many there are; [Email/get] knows their threads. *)
Hypothesis Hpages : forall position limit w r w',
  send_thread_page query position limit w = (r, w') -> 0 <= position <= Z.of_nat (length ids) ->
  (exists e, r = Err e) \/
  exists n, (1 <= n)%nat /\ let page := take n (drop (Z.to_nat position) ids) in
    r = Ok [ThreadQuery (Some (Z.of_nat (length ids))) page; ThreadGet (map (fun id => (id, Some (thread_of id))) page)].
Hypothesis Hlen : Z.of_nat (length ids) < 2 ^ 31.

Lemma thread_loop_all fuel t limit pos threads (s : TaskState W) :
  (pos <= length ids)%nat -> (length ids - pos < fuel)%nat -> grouped thread_of (take pos ids) threads ->
  match thread_loop fuel t query limit (Z.of_nat pos) threads (take pos ids) s with
  | (Ok (threads', l), s') => grouped thread_of ids threads' /\ l = ids
  | (Err _, _) => True
  | _ => False
  end.
Proof using All.
  revert pos threads s. induction fuel as [|fuel IH]; intros pos threads s Hp Hf Hg; [lia|]. cbn [thread_loop].
  unfold bindM at 1, on_world, map_errM.
  destruct (send_thread_page query (Z.of_nat pos) limit (world s)) as [r w] eqn:E.
  apply Hpages in E as [[e ->]|(n & Hn & ->)]; [done| |lia]. cbn [map_err]. rewrite Nat2Z.id.
  set (page := take n (drop pos ids)). unfold bindM at 1, lift. cbn [page_responses pg_threads pg_jmap_ids default]. unfold id.
  cbn [pg_results_len pg_total pg_jmap_ids pg_threads].
  assert (Hnext : take pos ids ++ page = take (pos + n) ids) by apply take_take_drop.
  assert (Hg' : grouped thread_of (take (pos + n) ids) (foldl add_thread threads (map (fun id => (id, Some (thread_of id))) page)))
    by (rewrite <- Hnext; by apply grouped_page).
  rewrite Hnext. assert (Hpage : length page = Nat.min n (length ids - pos)) by (unfold page; by rewrite length_take, length_drop).
  pose proof (length_take ids (pos + n)) as Hl.
  destruct (Nat.ltb_spec 0 (length page)) as [Hne|He]; cbn [andb].
  2: { split; [|apply take_ge; lia]. rewrite take_ge in Hg' by lia. done. }
  destruct (Z.ltb_spec (Z.of_nat (length (take (pos + n) ids))) (Z.of_nat (length ids))).
  - rewrite add_i32_small by lia. rewrite <- Nat2Z.inj_add. replace (length page) with n by lia. apply IH; [lia|lia|done].
  - split; [|apply take_ge; lia]. rewrite take_ge in Hg' by lia. done.
Qed.

Lemma thread_numbers_ok is_uid state threads numbers :
  thread_numbers is_uid state threads = Ok numbers ->
  Forall2 (fun l n => exists imap, Selected.jmap_to_imap (E := StatusResponse) state l = Ok imap /\ n = map (id_number is_uid) imap) threads numbers.
Proof.
  revert numbers. induction threads as [|l threads IH]; intros numbers; cbn [thread_numbers]; [intros [= <-]; constructor|].
  destruct (Selected.jmap_to_imap state l) as [imap| | |] eqn:E; cbn [res_bind]; try done.
  destruct (thread_numbers is_uid state threads) as [rest| | |]; cbn [res_bind]; try done.
  intros [= <-]. constructor; [by exists imap|by apply IH].
Qed.

End Answer.

(** ** A mailbox with four messages in two threads *)
Module Demo.
#[export] Instance clock : Clock KV := stopped_clock 1700000000.
#[export] Instance debug : DebugFmt := {| debug_str s := s; debug_char c := [c] |}.
#[export] Instance limits : Limits KV := {| get_limit _ := Some 2; set_limit _ := Some 2 |}.
#[export] Instance email : EmailClient KV := {
  send_query_email _ _ _ db := (Ok (mkQueryPage (Some 0) []), db);
  send_get_email_state _ db := (Ok (b "s"), db)
}.
#[export] Instance search_client : SearchClient KV := {
  send_search _ _ _ db := (Ok (mkQueryPage (Some 0) []), db);
  send_changes_email _ _ db := (Ok (mkEmailChanges (b "s") [] [] []), db)
}.
Definition ids : list str := [b "a"; b "b"; b "c"; b "d"].
Definition thread_of (id : str) : str := if decide (id = b "b") then b "u" else b "t".
(** Two messages a page. *)
#[export] Instance client : ThreadClient KV := {|
  send_thread_page _ position _ db :=
    let page := take 2 (drop (Z.to_nat position) ids) in
    (Ok [ThreadQuery (Some (Z.of_nat (length ids))) page; ThreadGet (map (fun id => (id, Some (thread_of id))) page)], db)
|}.

Definition inbox : MailboxId := mkMailboxId (b "john") (Some (b "in")).
Definition state : TaskState KV :=
  mkTaskState (mkMailboxData 40 1 ids [10; 20; 30; 35] 4 []) SavedNone [] ∅.
Definition arguments (filter : Filter) : ThreadArguments :=
  {| thread_tag := b "A1"; thread_filter := filter; thread_algorithm := References |}.
Definition filter : QueryFilter := QCondition (QInMailbox (b "in")).
Definition answer (f : Filter) (is_uid : bool) : list bytes :=
  written (thread_task 5 (arguments f) inbox (Thread is_uid) is_uid state).2.

Lemma pages position limit w r w' :
  send_thread_page filter position limit w = (r, w') -> 0 <= position <= Z.of_nat (length ids) ->
  (exists e, r = Err e) \/
  exists n, (1 <= n)%nat /\ let page := take n (drop (Z.to_nat position) ids) in
    r = Ok [ThreadQuery (Some (Z.of_nat (length ids))) page; ThreadGet (map (fun id => (id, Some (thread_of id))) page)].
Proof. intros [= <- <-] _. right. exists 2%nat. split; [lia|reflexivity]. Qed.
End Demo.
#[local] Existing Instances Demo.clock Demo.debug Demo.limits Demo.email Demo.search_client Demo.client.


(** The answer to a search key that is refused has no tag: the command is never
    answered. *)
Example refused_without_tag :
  Demo.answer (FModSeq 7 MsNone) false = [b "* BAD MODSEQ '7' does not exist." ++ CRLF].
Proof. vm_compute. reflexivity. Qed.

Example threads_of_uids : Demo.answer FAll true = [b "* THREAD (20)(10 30 35)" ++ CRLF ++ b "A1 OK UID THREAD completed" ++ CRLF].
Proof. vm_compute. reflexivity. Qed.
