(* ===== verification/FetchSpec.v ===== *)
(** * What FETCH answers

    The responses to a FETCH, one per message, and the messages that it makes
    seen, for a JMAP server that returns the messages it has. *)

From stdpp Require Import sorting.
From Stdlib Require Import Permutation.
From S2P Require Import Prelude Utf8 Utf7 Types Sequence Flags Wire Commands Parsers ParseSearch ParseFetch Responses FetchWire Mime.
From S2P Require Import Jmap Store UidStore Modseq Synchronize SelectedMailbox Tasks SearchTask FetchTask MimeSpec.

Section Answers.
Context {W : Type} `{Sled W} `{Clock W} `{EmailClient W} `{SearchClient W} `{Limits W} `{FetchClient W} `{DebugFmt} `{Chrono} `{Md5}.
Context (mailbox : MailboxId) (fuel : nat).

Abbreviation State := (TaskState W).

(** ** The items of a response *)
Lemma map_option_list {A B C} (f : B -> C) (g : A -> B) (o : option A) :
  map (fun x => f (g x)) (option_list o) = map f (option_list (g <$> o)).
Proof. by destruct o. Qed.


(** The items an attribute of the request may have as its answer. *)
Definition item_of (imap : ImapId) (e : Email) (seen : bool) (attribute : ParseFetch.Attribute) (items : list DataItem) : Prop :=
  match attribute with
  | AEnvelope => items = [DEnvelope (email_envelope e)]
  | AFlags => items = [DFlags (keyword_flags e ++ if seen then [Seen] else [])]
  | AInternalDate => items = map DInternalDate (option_list (e_received_at e))
  | APreview _ => items = [DPreview (e_preview e)]
  | ARfc822Size => items = [DRfc822Size (e_size e)]
  | AUid => items = [DUid (id_uid imap)]
  | AEmailId => items = map (fun id => DEmailId (account_id mailbox ++ b "-" ++ id)) (option_list (e_id e))
  | AThreadId => items = map (fun id => DThreadId (account_id mailbox ++ b "-" ++ id)) (option_list (e_thread_id e))
  | AModSeq => exists x, items = map DModSeq (option_list x)
  | ARfc822 => exists x, items = [DRfc822 x]
  | ARfc822Header => exists x, items = map DRfc822Header (option_list x)
  | ARfc822Text => exists x, items = map DRfc822Text (option_list x)
  | ABody => exists x, items = [DBody x]
  | ABodyStructure => exists x, items = [DBodyStructure x]
  | ABodySection _ sections partial => exists x, items = map (DBodySection sections (fst <$> partial)) (option_list x)
  | ABinary _ sections partial => exists x, items = map (DBinary sections (fst <$> partial)) (option_list x)
  | ABinarySize sections => exists x, items = map (DBinarySize sections) (option_list x)
  end.

(** The only other lines: a part that cannot be decoded. *)
Definition is_note (x : bytes) : Prop := exists sections n, x = decode_failure sections n.

(** A step that only writes notes. *)
Definition notes (s s' : State) (ns : list bytes) : Prop := Forall is_note ns /\ written s' = written s ++ ns.

Lemma notes_refl s : notes s s [].
Proof. split; [constructor|]. by rewrite app_nil_r. Qed.

Lemma notes_trans s1 s2 s3 n1 n2 : notes s1 s2 n1 -> notes s2 s3 n2 -> notes s1 s3 (n1 ++ n2).
Proof. intros [? Hx] [? Hy]. split; [by apply list.Forall_app|]. by rewrite Hy, Hx, app_assoc. Qed.

Lemma attribute_items_ok is_uid imap e raw seen modseq attribute s :
  post (attribute_items mailbox fuel is_uid imap e raw seen modseq attribute) s
    (fun items s' => item_of imap e seen attribute items /\ exists ns, notes s s' ns).
Proof.
  destruct attribute; cbn [attribute_items item_of]; unfold raw_part; post_steps;
    repeat case_match; post_steps; try done; (split; [|first [by eexists; apply notes_refl | eexists; split; [|reflexivity]]]); eauto.
  - eexists. apply map_option_list.
  - eexists. apply map_option_list.
  - by exists None.
  - repeat constructor. by eexists _, _.
  - by exists None.
  - by exists (Some modseq).
Qed.

(** The items of a response are the answers to the attributes, in order. *)
Definition items_of (imap : ImapId) (e : Email) (seen : bool) (attributes : list ParseFetch.Attribute) (items : list DataItem) : Prop :=
  exists itemss, items = concat itemss /\ Forall2 (item_of imap e seen) attributes itemss.

Lemma email_items_ok is_uid imap e raw seen modseq attributes s :
  post (email_items mailbox fuel is_uid imap e raw seen modseq attributes) s
    (fun items s' => items_of imap e seen attributes items /\ exists ns, notes s s' ns).
Proof.
  revert s. induction attributes as [|attribute attributes IH]; intros s; cbn [email_items].
  { apply post_ret. split; [by exists []; split; [|constructor]|exists []; apply notes_refl]. }
  apply post_bind. eapply post_mono; [apply attribute_items_ok|]. intros items s1 (Hi & ns & Hns).
  apply post_bind. eapply post_mono; [apply IH|]. intros rest s2 ((itemss & -> & Hr) & ns' & Hns').
  apply post_ret. split; [|eexists; by eapply notes_trans]. exists (items :: itemss). split; [done|]. by constructor.
Qed.

(** ** One response per message *)
Context (needs : Needs) (attributes : list ParseFetch.Attribute) (is_uid : bool) (ids : gmap (list Z) ImapId).
(** The connection stays open. *)
Hypothesis Hopen : forall w : W, is_open w = true.

Definition becomes_seen (e : Email) : bool := set_seen_flags needs && is_unseen e.

(** What goes out for a message, and the id of the message if it is to be
    marked as seen.  A message is left out only if its contents are needed. *)
Inductive answered (imap : ImapId) (e : Email) : list bytes * list str -> Prop :=
| answered_skipped : needs_blobs needs = true -> answered imap e ([], [])
| answered_sent ns items :
    Forall is_note ns -> items_of imap e (becomes_seen e) attributes items ->
    answered imap e
      (ns ++ [fetch_item_serialize (mkFetchItem (id_seqnum imap)
         (items ++ if becomes_seen e && negb (bool_decide (AFlags ∈ attributes)) then [DFlags (keyword_flags e ++ [Seen])] else []))],
       if becomes_seen e then [default [] (e_id e)] else []).

Lemma email_raw_ok e s :
  post (email_raw needs e) s (fun raw s' => written s' = written s /\ (raw = None -> needs_blobs needs = true)).
Proof.
  unfold email_raw. destruct (needs_blobs needs) eqn:E; [|by apply post_ret].
  destruct (e_blob_id e); [|by apply post_ret]. apply post_bind, post_on_world. intros r w _.
  destruct r; post_steps; done.
Qed.

Lemma fetch_email_ok modseq e imap s :
  ids !! default [] (e_id e) = Some imap ->
  post (fetch_email mailbox fuel needs attributes is_uid ids modseq e) s
    (fun seen s' => exists out, answered imap e out /\ written s' = written s ++ out.1 /\ seen = Some out.2).
Proof using Hopen.
  intros Hid. unfold fetch_email. rewrite Hid. apply post_bind. eapply post_mono; [apply email_raw_ok|]. intros raw s1 [Hw Hraw].
  destruct raw as [raw|].
  2: { apply post_ret. exists ([], []). split; [by constructor; apply Hraw|]. by rewrite Hw, app_nil_r. }
  apply post_bind. eapply post_mono; [apply email_items_ok|]. intros items s2 (Hi & ns & Hns & Hw2).
  apply post_bind. unfold post, write_if_open. rewrite Hopen. unfold bindM, Tasks.write_bytes, ret. cbn [written selected saved_search world].
  eexists. split; [by apply answered_sent|]. split; [|done]. cbn [fst written]. by rewrite Hw2, Hw, <- app_assoc.
Qed.
(** A message that was asked for, with what goes out for it. *)
Definition answer (e : Email) (out : list bytes * list str) : Prop :=
  exists imap, ids !! default [] (e_id e) = Some imap /\ answered imap e out.

Lemma fetch_emails_ok modseq emails acc s :
  Forall (fun e => is_Some (ids !! default [] (e_id e))) emails ->
  post (fetch_emails mailbox fuel needs attributes is_uid ids modseq emails acc) s
    (fun seen s' => exists outs, Forall2 answer emails outs /\
       written s' = written s ++ concat (map fst outs) /\ seen = Some (acc ++ concat (map snd outs))).
Proof using Hopen.
  intros Hids. revert acc s. induction Hids as [|e emails [imap Hid] _ IH]; intros acc s; cbn [fetch_emails].
  { apply post_ret. exists []. cbn. by rewrite !app_nil_r. }
  apply post_bind. eapply post_mono; [by apply fetch_email_ok|]. intros seen s1 (out & Hout & Hw & ->).
  eapply post_mono; [apply IH|]. intros seen s2 (outs & Houts & Hw2 & ->).
  exists (out :: outs). split; [constructor; [by exists imap|done]|]. cbn. by rewrite Hw2, Hw, <- !app_assoc.
Qed.

(** ** A server that has the messages [server] *)
Context (server : str -> option Email).
Hypothesis Hserver : forall id e, server id = Some e -> e_id e = Some id.
(** [Email/get] returns the messages it has, in whatever order. *)
Hypothesis Hget : forall account l props w emails state w',
  send_get_email account l props w = (Ok (emails, state), w') -> Permutation emails (omap server l).

Lemma modseq_or_max_written state (s : State) :
  post (modseq_or_max mailbox state) s (fun _ s' => written s' = written s).
Proof.
  unfold modseq_or_max, post, bindM, attempt, core_modseq, on_world, map_errM.
  destruct (state_to_modseq _ _ _) as [[m|e| |] w]; done.
Qed.

Lemma known_emails l emails :
  Forall (fun id => is_Some (ids !! id)) l -> Permutation emails (omap server l) ->
  Forall (fun e => is_Some (ids !! default [] (e_id e))) emails.
Proof using Hserver.
  intros Hl Hp. rewrite Hp. clear Hp. induction Hl as [|id l Hid _ IH]; [constructor|]. cbn.
  destruct (server id) as [e|] eqn:E; [|done]. constructor; [rewrite (Hserver _ _ E); exact Hid|exact IH].
Qed.

Lemma fetch_chunks_ok chunks modseq acc s :
  Forall (fun id => is_Some (ids !! id)) (concat chunks) ->
  post (fetch_chunks mailbox fuel needs attributes is_uid ids chunks modseq acc) s
    (fun r s' => exists emails outs modseq', Permutation emails (omap server (concat chunks)) /\ Forall2 answer emails outs /\
       written s' = written s ++ concat (map fst outs) /\ r = Some (modseq', acc ++ concat (map snd outs))).
Proof using Hopen Hserver Hget.
  revert modseq acc s. induction chunks as [|l chunks IH]; intros modseq acc s; cbn [fetch_chunks concat].
  { intros _. apply post_ret. exists [], [], modseq. cbn. rewrite !app_nil_r. split_and!; [constructor|constructor|done..]. }
  intros [Hl Hids]%list.Forall_app.
  apply post_bind, post_on_world. intros [emails state] w Hrun. unfold map_errM in Hrun.
  destruct (send_get_email _ _ _ _) as [[[emails' state']|e| |] w'] eqn:E; try done. cbn in Hrun. inversion Hrun; subst. clear Hrun.
  apply Hget in E. apply post_bind.
  eapply (post_mono _ _ (fun _ s' => written s' = written s)); [destruct (_ && _); [|done]; apply (modseq_or_max_written _ (mkTaskState _ _ _ _))|].
  intros modseq1 s1 Hw1. apply post_bind. eapply post_mono; [apply fetch_emails_ok, (known_emails l); done|].
  intros seen s2 (outs & Houts & Hw2 & ->). eapply post_mono; [by apply IH|].
  intros r s3 (emails2 & outs2 & modseq2 & Hp2 & Houts2 & Hw3 & ->).
  exists (emails ++ emails2), (outs ++ outs2), modseq2. rewrite !map_app, !concat_app, omap_app. split_and!.
  - by apply Permutation_app.
  - by apply Forall2_app.
  - by rewrite Hw3, Hw2, Hw1, <- !app_assoc.
  - by rewrite <- !app_assoc.
Qed.
End Answers.

Section Fetch.
Context {W : Type} `{Sled W} `{Clock W} `{EmailClient W} `{SearchClient W} `{Limits W} `{FetchClient W} `{DebugFmt} `{Chrono} `{Md5}.
Context (mailbox : MailboxId) (is_select : bool) (fuel : nat).

Lemma report_modseq_written enabled modseq (s : TaskState W) :
  post (report_modseq mailbox enabled modseq) s
    (fun _ s' => exists tail, written s' = written s ++ tail /\ (tail = [] \/ exists m, tail = [highest_modseq_response m])).
Proof.
  unfold report_modseq. destruct enabled; [|apply post_ret; exists []; rewrite app_nil_r; auto].
  apply post_bind. eapply (post_mono _ _ (fun _ s' => written s' = written s)).
  - destruct (_ =? _); [|by apply post_ret]. apply post_bind, post_on_world. intros r w _. destruct r; post_steps; done.
  - intros m s1 Hw. destruct (_ =? _); post_steps; cbn [written]; rewrite ?Hw; eexists; [rewrite app_nil_r|]; eauto.
Qed.

Lemma set_seen_written set_seen_ids enabled modseq (s : TaskState W) :
  post (set_seen mailbox set_seen_ids enabled modseq) s (fun _ s' => written s' = written s).
Proof.
  unfold set_seen. case_decide; [|by apply post_ret].
  apply post_bind, post_on_world. intros limit w _. apply post_bind, post_lift. intros cs _.
  apply post_bind, post_on_world. cbn [written selected saved_search]. intros responses w' _. clear. revert w' modseq.
  assert (Hloop : forall l modseq (t : TaskState W),
            post (seen_responses mailbox l enabled modseq) t (fun _ s' => written s' = written t)).
  { induction l as [|r l IH]; intros modseq t; cbn [seen_responses]; [by apply post_ret|].
    apply post_bind, post_lift. intros state _. apply post_bind.
    eapply (post_mono _ _ (fun _ s' => written s' = written t)); [destruct enabled; [apply modseq_or_max_written|by apply post_ret]|].
    intros m s1 Hw. eapply post_mono; [apply IH|]. intros ? ? ->. done. }
  intros w' modseq. apply (Hloop responses modseq (mkTaskState _ _ _ _)).
Qed.

Section Server.
Hypothesis Hopen : forall w : W, is_open w = true.
Context (server : str -> option Email).
Hypothesis Hserver : forall id e, server id = Some e -> e_id e = Some id.
Hypothesis Hget : forall account l props w emails state w',
  send_get_email account l props w = (Ok (emails, state), w') -> Permutation emails (omap server l).

End Server.

(** ** Who marks messages as seen *)
Definition sets_seen (attribute : ParseFetch.Attribute) : bool :=
  match attribute with
  | ABodySection peek _ _ | ABinary peek _ _ => negb peek
  | ARfc822 | ARfc822Text => true
  | _ => false
  end.

Lemma fetch_needs_seen attributes :
  set_seen_flags (fetch_needs is_select attributes) = is_select && existsb sets_seen attributes.
Proof.
  assert (Hfold : forall n, set_seen_flags (foldl (attribute_needs is_select) n attributes) =
                            set_seen_flags n || (is_select && existsb sets_seen attributes)).
  { induction attributes as [|a attributes IH]; intros n; cbn [foldl existsb].
    - by rewrite andb_false_r, orb_false_r.
    - rewrite IH. destruct a; cbn [attribute_needs add_properties add_property add_blob set_seen_flags sets_seen];
        try destruct peek; by destruct (set_seen_flags n), is_select. }
  unfold fetch_needs. specialize (Hfold (mkNeeds [PId] false false false)). cbn in Hfold.
  destruct (set_seen_flags (foldl _ _ _)) eqn:E; cbn; congruence.
Qed.

Lemma fetch_chunks_unseen needs attributes is_uid ids chunks modseq acc (s : TaskState W) :
  set_seen_flags needs = false ->
  post (fetch_chunks mailbox fuel needs attributes is_uid ids chunks modseq acc) s
    (fun r _ => match r with Some (_, seen) => seen = acc | None => True end).
Proof.
  intros Hn.
  assert (Hemail : forall modseq e (t : TaskState W), post (fetch_email mailbox fuel needs attributes is_uid ids modseq e) t
                     (fun r _ => match r with Some seen => seen = [] | None => True end)).
  { intros m e t. unfold fetch_email. destruct (ids !! _); [|by apply post_ret].
    apply post_bind. eapply post_mono; [apply email_raw_ok|]. intros [raw|] t1 _; [|by apply post_ret].
    apply post_bind. eapply post_mono; [apply email_items_ok|]. intros items t2 _. rewrite Hn. cbn [andb].
    unfold post, bindM, write_if_open, Tasks.write_bytes, ret. by destruct (is_open _). }
  assert (Hemails : forall modseq emails acc (t : TaskState W),
            post (fetch_emails mailbox fuel needs attributes is_uid ids modseq emails acc) t
              (fun r _ => match r with Some seen => seen = acc | None => True end)).
  { intros m emails. induction emails as [|e emails IH]; intros acc' t; cbn [fetch_emails]; [by apply post_ret|].
    apply post_bind. eapply post_mono; [apply Hemail|]. intros [seen|] t1 Hs; [|by apply post_ret].
    subst. rewrite app_nil_r. apply IH. }
  revert modseq s. induction chunks as [|l chunks IH]; intros modseq s; cbn [fetch_chunks]; [by apply post_ret|].
  apply post_bind, post_on_world. intros [emails state] w _. apply post_bind.
  eapply (post_mono _ _ (fun _ _ => True)); [apply post_any|]. intros m s1 _.
  apply post_bind. eapply post_mono; [apply Hemails|]. intros [seen|] s2 Hs; [subst; apply IH|by apply post_ret].
Qed.
End Fetch.

(** The same server, but for how it marks messages as seen. *)
Definition with_set_seen {W} (C : FetchClient W) (f : str -> list (list str) -> EM W JmapError (list SetEmailResponse)) : FetchClient W :=
  {| send_get_email := send_get_email; download := download; SetEmailResponse := SetEmailResponse; send_set_seen := f;
     unwrap_set_email := unwrap_set_email; parse_message := parse_message;
     is_open := is_open |}.

(** C25: a FETCH in a mailbox that was opened with EXAMINE, or that asks for
    contents with BODY.PEEK, BINARY.PEEK or RFC822.HEADER only, marks no message
    as seen: whatever the server would do when asked to, the FETCH goes the
    same way. *)
Theorem peek_marks_nothing {W} `{Sled W} `{Clock W} `{EmailClient W} `{SearchClient W} `{Limits W} (C : FetchClient W) `{DebugFmt} `{Chrono} `{Md5}
    mailbox is_select fuel f arguments is_uid is_qresync enabled s :
  is_select && existsb sets_seen (attributes arguments) = false ->
  fetch (H4 := with_set_seen C f) mailbox is_select fuel arguments is_uid is_qresync enabled s =
  fetch mailbox is_select fuel arguments is_uid is_qresync enabled s.
Proof.
  intros Hsees.
  assert (Hmessages : forall attrs is_uid ids enabled t,
            is_select && existsb sets_seen attrs = false ->
            fetch_messages (H4 := with_set_seen C f) mailbox is_select fuel attrs is_uid ids enabled t =
            fetch_messages mailbox is_select fuel attrs is_uid ids enabled t).
  { clear. intros attrs is_uid ids enabled t Hn. rewrite <- fetch_needs_seen in Hn.
    unfold fetch_messages, bindM, on_world, lift. cbn [with_set_seen].
    destruct (chunks _ _) as [cs|e| |]; try done.
    change (fetch_chunks (H4 := with_set_seen C f)) with (fetch_chunks (H4 := C)).
    match goal with |- context [fetch_chunks mailbox fuel ?needs ?attrs is_uid ids cs ?m ?acc ?st] =>
      pose proof (fetch_chunks_unseen mailbox fuel needs attrs is_uid ids cs m acc st Hn) as Hseen end.
    unfold post in Hseen. destruct (fetch_chunks _ _ _ _ _ _ _ _ _ _) as [[[[m seen]|]|e| |] s1]; try done. by subst. }
  assert (Hunique : existsb sets_seen (push_unique (attributes arguments) AModSeq) = existsb sets_seen (attributes arguments)).
  { unfold push_unique. case_bool_decide; [done|]. by rewrite existsb_app, orb_false_r. }
  unfold fetch. unfold bindM at 1 2, attempt.
  enough (Hsteps : fetch_steps (H4 := with_set_seen C f) mailbox is_select fuel arguments is_uid is_qresync enabled s =
                   fetch_steps mailbox is_select fuel arguments is_uid is_qresync enabled s) by (by rewrite Hsteps).
  unfold fetch_steps. unfold bindM at 1 2 4 5. destruct (lift _ s) as [[[]|e| |] s1]; try done.
  destruct (task_sequence_to_jmap _ _ s1) as [[ids|e| |] s2]; try done.
  destruct (changed_since arguments) as [n|]; [|by apply Hmessages]. unfold bindM.
  destruct (since _ _ _ _ _ s2) as [[[[ids'|] enabled']|e| |] s3]; try done. apply Hmessages. by rewrite Hunique.
Qed.

(** ** A mailbox with two messages *)
Module Demo.
#[export] Instance clock : Clock KV := stopped_clock 1700000000.
#[export] Instance debug : DebugFmt := {| debug_str s := s; debug_char c := [c] |}.
#[export] Instance chrono : Chrono := {|
  parse_datetime_str _ := None; parse_date_str _ := None; format_datetime _ := []; format_rfc2822 _ := [] |}.
#[export] Instance md5 : Md5 := fun _ => b "0".
#[export] Instance email_client : EmailClient KV := {
  send_query_email _ _ _ db := (Ok (mkQueryPage (Some 0) []), db);
  send_get_email_state _ db := (Ok (b "s"), db)
}.
#[export] Instance search_client : SearchClient KV := {
  send_search _ _ _ db := (Ok (mkQueryPage (Some 0) []), db);
  send_changes_email _ _ db := (Ok (mkEmailChanges (b "s") [] [] []), db)
}.

Definition message (id : str) (keywords : list str) : Email :=
  mkEmail (Some id) (Some id) None keywords None None 100 (Some (b "hi")) None None None None (fun _ => None) None None.
Definition server (id : str) : option Email :=
  if bytes_eqb id (b "a") then Some (message (b "a") [b "$seen"])
  else if bytes_eqb id (b "c") then Some (message (b "c") []) else None.

#[export] Instance limits : Limits KV := {| get_limit _ := Some 1; set_limit _ := Some 1 |}.
#[export] Instance client : FetchClient KV := {
  send_get_email _ l _ db := (Ok (omap server l, b "s"), db);
  download _ db := (Ok MimeSpec.Demo.inner_raw, db);
  SetEmailResponse := unit;
  send_set_seen _ _ db := (Ok [], db);
  unwrap_set_email _ := Ok (b "s");
  parse_message x := if bytes_eqb x MimeSpec.Demo.inner_raw then Some MimeSpec.Demo.inner else None;
  is_open _ := true
}.

Definition inbox : MailboxId := mkMailboxId (b "john") (Some (b "in")).
Definition ids : gmap (list Z) ImapId := <[b "a" := mkImapId 10 1]> (<[b "c" := mkImapId 30 2]> ∅).
Definition state : TaskState KV :=
  mkTaskState (mkMailboxData 40 1 [b "a"; b "c"] [10; 30] 2 []) SavedNone [] ∅.
Definition text : list ParseFetch.Attribute := [ABodySection false [SecText] None].
Definition arguments : FetchArguments :=
  {| fetch_tag := b "A1"; fetch_sequence_set := Range None None; attributes := [AUid; ABodySection true [SecText] None];
     changed_since := None; include_vanished := false |}.

Lemma server_id id e : server id = Some e -> e_id e = Some id.
Proof.
  unfold server. destruct (bytes_eqb id (b "a")) eqn:E; [apply bytes_eqb_eq in E; subst; by intros [= <-]|].
  destruct (bytes_eqb id (b "c")) eqn:E2; [apply bytes_eqb_eq in E2; subst; by intros [= <-]|done].
Qed.
End Demo.
#[local] Existing Instances Demo.clock Demo.debug Demo.chrono Demo.md5 Demo.email_client Demo.search_client Demo.limits Demo.client.


Lemma peek_marks_nothing_witness :
  true && existsb sets_seen (attributes Demo.arguments) = false /\
  fetch (H4 := with_set_seen Demo.client (fun _ _ db => (Err Transport, db))) Demo.inbox true 10 Demo.arguments true false false Demo.state =
  fetch Demo.inbox true 10 Demo.arguments true false false Demo.state.
Proof. split; [reflexivity|]. apply peek_marks_nothing. reflexivity. Defined.

(** A client that knows MODSEQ already is told the highest one again, with
    every FETCH of a MODSEQ ([handle_fetch] passes [true]). *)
Example highest_modseq_again :
  written (fetch_messages Demo.inbox true 10 [AModSeq] false (<[b "a" := mkImapId 10 1]> ∅) true Demo.state).2 =
  [b "* 1 FETCH (MODSEQ (1))" ++ CRLF; b "* OK [HIGHESTMODSEQ 1] Highest Modseq" ++ CRLF].
Proof. vm_compute. reflexivity. Qed.

(** CHANGEDSINCE keeps the low 32 bits of its number: 2^32 + 1 is 1 here. *)
Example changed_since_wraps :
  let since n := {| fetch_tag := b "A1"; fetch_sequence_set := Range None None; attributes := [AUid];
                    changed_since := Some n; include_vanished := false |} in
  let state := mkTaskState (selected Demo.state) SavedNone [] (state_to_modseq (b "john") (b "s") ∅).2 in
  let run n := option_map status_serialize (ok_of (fetch Demo.inbox true 10 (since n) false false false state).1) in
  run (2 ^ 32 + 1) = Some (b "A1 OK FETCH completed" ++ CRLF) /\ run 1 = run (2 ^ 32 + 1) /\
  run 2 = Some (b "A1 BAD MODSEQ '2' does not exist." ++ CRLF).
Proof. vm_compute. done. Qed.
