(* ===== verification/IdleTask.v ===== *)
(** * IDLE and the untagged responses: [src/commands/idle.rs]

    [write_changes] tells a client what changed since it was told last: the
    mailboxes that came and went, the messages of the selected mailbox that are
    gone, that are new and whose flags changed.  NOOP calls it, and the task of
    IDLE does so for every event that the JMAP server sends. *)

From stdpp Require Import sorting.
From S2P Require Import Prelude Utf8 Utf7 Types Sequence Flags Wire Commands Parsers ParseSearch ParseFetch Responses FetchWire Mime.
From S2P Require Import ExpungeTask.
From S2P Require Import Jmap Store UidStore Modseq Synchronize BTree Mailboxes SelectedMailbox Tasks SearchTask StatusTask FetchTask FetchSpec.

(** The cache of mailboxes, and the state of a task on the selected mailbox. *)
Record IdleState (W : Type) := mkIdleState { idle_accounts : list Account; idle_task : TaskState W }.
Arguments mkIdleState {W}. Arguments idle_accounts {W}. Arguments idle_task {W}.

(** What [Email/changes] says of the number of changes. *)
Class ChangesClient := { total_changes : EmailChanges -> Z }.

(** An event of the event source (an error, the end, or the changes of some
    accounts), or the request to stop. *)
Inductive TypeState := TypeMailbox | TypeEmail | TypeOther.
Inductive IdleEvent :=
| EventChanges (changes : list (str * list TypeState))
| EventError
| EventEnd
| EventDone.

Section IdleTask.
Context {W : Type} `{Sled W} `{Clock W} `{EmailClient W} `{MailboxClient W} `{StatusClient W} `{SearchClient W}.
Context `{Limits W} `{FetchClient W} `{DebugFmt} `{Chrono} `{Md5} `{ChangesClient}.
Context (folder_shared folder_all : str) (is_select : bool) (fuel : nat).

Abbreviation I := (EM (IdleState W) unit).

Definition on_data {E A} (m : EM (Data W) E A) : EM (IdleState W) E A := fun i =>
  let '(r, d) := m (mkData (idle_accounts i) (world (idle_task i))) in
  let s := idle_task i in
  (r, mkIdleState (mailboxes d) (mkTaskState (selected s) (saved_search s) (written s) (outer d))).
Definition on_task {E A} (m : EM (TaskState W) E A) : EM (IdleState W) E A := fun i =>
  let '(r, s) := m (idle_task i) in (r, mkIdleState (idle_accounts i) s).

Definition write_buf (buf : bytes) : I unit :=
  if negb (bool_decide (buf = [])) then on_task (Tasks.write_bytes buf) else ret tt.

(** *** The mailboxes *)

(** The STATUS responses of the mailboxes for which there is an answer. *)
Fixpoint changed_statuses (is_rev2 : bool) (names : list str) : I bytes :=
  match names with
  | [] => ret []
  | name :: names' =>
      do* item := attempt (on_data (status folder_all name [StMessages; StUnseen; StUidNext; StUidValidity])) in
      do* rest := changed_statuses is_rev2 names' in
      ret ((match item with Ok item => status_item_serialize item is_rev2 | _ => [] end) ++ rest)
  end.

Definition list_line (is_rev2 : bool) (attributes : list Responses.Attribute) (name : str) : bytes :=
  list_item_serialize (mkListItem name attributes []) is_rev2 false.

Definition write_mailbox_changes (is_rev2 : bool) : I unit :=
  do* changes := attempt (on_data (synchronize_mailboxes folder_shared true false)) in
  match changes with
  | Ok (Some changes) =>
      do* statuses := changed_statuses is_rev2 (changed changes) in
      write_buf (flat_map (list_line is_rev2 [AttrNonExistent]) (deleted changes) ++
                 flat_map (list_line is_rev2 []) (added changes) ++ statuses)
  | Ok None => lift Panic   (* unreachable!() *)
  | _ => ret tt
  end.

(** *** The messages *)

(** The UIDs of the messages of the snapshot that [Email/changes] names. *)
Fixpoint changed_uids (response : EmailChanges) (jmap_ids : list str) (imap_uids : list Z) : Res unit (list Z) :=
  match jmap_ids with
  | [] => Ok []
  | id :: jmap_ids' =>
      let* rest := changed_uids response jmap_ids' (drop 1 imap_uids) in
      if bool_decide (id ∈ ec_updated response) || bool_decide (id ∈ ec_created response) then
        let* uid := unwrap (imap_uids !! O) in Ok (uid :: rest)
      else Ok rest
  end.

Definition set_last_state (last_state : str) (state : MailboxData) : MailboxData :=
  mkMailboxData (md_uid_next state) (md_uid_validity state) (md_jmap_ids state) (md_imap_uids state)
    (md_total_messages state) last_state.

Definition changed_arguments (uids : list Z) : FetchArguments :=
  {| fetch_tag := []; fetch_sequence_set := List (map Number uids); attributes := [AFlags; AUid];
     changed_since := None; include_vanished := false |}.

Definition report_changes (mailbox : MailboxId) (is_qresync : bool) (response : EmailChanges) : I unit :=
  if 0 <? total_changes response then
    do* state := on_task get_selected in
    do* _ := on_task (set_selected (set_last_state (ec_new_state response) state)) in
    do* uids := lift (changed_uids response (md_jmap_ids state) (md_imap_uids state)) in
    if negb (bool_decide (uids = [])) then
      do* _ := on_task (fetch mailbox is_select fuel (changed_arguments uids) true is_qresync false) in ret tt
    else ret tt
  else ret tt.

Definition removal_response (is_qresync : bool) (total : option nat) (deletions : option (list ImapId)) : bytes :=
  (match deletions with
   | Some deletions =>
       expunge_serialize is_qresync (map (fun id => if negb is_qresync then id_seqnum id else id_uid id) deletions)
   | None => []
   end) ++
  (match total with Some n => exists_serialize (Z.of_nat n) | None => [] end).

Definition write_email_changes (mailbox : MailboxId) (is_qresync : bool) : I unit :=
  do* state := on_task get_selected in
  do* response := attempt (on_task (on_world (send_changes_email (account_id mailbox) (md_last_state state)))) in
  match response with
  | Ok response =>
      do* new_state := attempt (on_task (on_world (synchronize_messages mailbox))) in
      match new_state with
      | Ok new_state =>
          do* (total, deletions) := on_task (task_synchronize_uids new_state true) in
          do* _ := write_buf (removal_response is_qresync total deletions) in
          report_changes mailbox is_qresync response
      | Err err => on_task (Tasks.write_bytes (status_serialize err))
      | _ => ret tt
      end
  | Err err => on_task (Tasks.write_bytes (status_serialize (into_status_response err)))
  | _ => ret tt
  end.

Definition write_changes (mailbox : option MailboxId) (check_mailboxes check_emails is_qresync is_rev2 : bool) : I unit :=
  do* _ := (if check_mailboxes then write_mailbox_changes is_rev2 else ret tt) in
  match check_emails, mailbox with
  | true, Some mailbox => write_email_changes mailbox is_qresync
  | _, _ => ret tt
  end.

(** *** IDLE *)
Definition is_mailbox (t : TypeState) : bool := match t with TypeMailbox => true | _ => false end.
Definition is_email (t : TypeState) : bool := match t with TypeEmail => true | _ => false end.

Definition has_mailbox_changes (changes : list (str * list TypeState)) : bool :=
  existsb (fun c => existsb is_mailbox c.2) changes.
Definition has_email_changes (mailbox : option MailboxId) (changes : list (str * list TypeState)) : bool :=
  existsb (fun c => existsb is_email c.2 &&
                    match mailbox with Some m => bytes_eqb (account_id m) c.1 | None => false end) changes.

Definition idle_completed (tag : str) : I bool :=
  do* _ := on_task (Tasks.write_bytes (status_serialize (with_tag (completed Idle) tag))) in ret true.

(** After the event source ended, the task waits for the request to stop. *)
Fixpoint wait_done (tag : str) (events : list IdleEvent) : I bool :=
  match events with
  | [] => ret false
  | EventDone :: _ => idle_completed tag
  | _ :: events' => wait_done tag events'
  end.

(** The events in the order in which they are taken; has the task ended? *)
Fixpoint idle_loop (mailbox : option MailboxId) (tag : str) (is_qresync is_rev2 : bool) (events : list IdleEvent) : I bool :=
  match events with
  | [] => ret false
  | EventChanges changes :: events' =>
      do* _ := write_changes mailbox (has_mailbox_changes changes) (has_email_changes mailbox changes) is_qresync is_rev2 in
      idle_loop mailbox tag is_qresync is_rev2 events'
  | EventError :: events' => idle_loop mailbox tag is_qresync is_rev2 events'
  | EventEnd :: events' => wait_done tag events'
  | EventDone :: _ => idle_completed tag
  end.

Definition idle (mailbox : option MailboxId) (tag : str) (is_qresync is_rev2 : bool) (events : list IdleEvent) : I bool :=
  do* _ := write_changes mailbox true true is_qresync is_rev2 in
  idle_loop mailbox tag is_qresync is_rev2 events.
End IdleTask.

(** ** The mailboxes that are asked for *)
Lemma retain_accounts_some accounts l c : is_Some (retain_accounts accounts l (Some c)).2.
Proof. destruct l; by eexists. Qed.

Lemma replace_account_some a l c : is_Some (replace_account a l (Some c)).2.
Proof.
  revert c; induction l as [|old l IH]; intros c; cbn [replace_account]; [by eexists|].
  case_bool_decide; [by eexists|]. destruct (IH c) as [c' Hc]. destruct (replace_account a l (Some c)). cbn in *. by eexists.
Qed.

Lemma update_mailboxes_some changed added l c : is_Some (update_mailboxes changed added l (Some c)).2.
Proof.
  unfold update_mailboxes.
  assert (Hr : forall ch l c, is_Some (foldl (fun '(l, changes) a => replace_account a l changes) (l, Some c) ch).2).
  { induction ch as [|a ch IH]; intros l0 c0; cbn [foldl]; [by eexists|].
    destruct (replace_account_some a l0 c0) as [c1 Hc]. destruct (replace_account a l0 (Some c0)) as [l1 o]. cbn in Hc. by subst o. }
  destruct (Hr changed l c) as [c1 Hc]. destruct (foldl _ _ changed) as [l1 o]. cbn in Hc. subst o. cbn [snd].
  clear Hr. revert c1. induction added as [|a added IH]; intros c1; cbn; [by eexists|]. apply IH.
Qed.

(** [unreachable!()] in [write_changes] is not reached: when changes are asked
    for, they come. *)
Lemma synchronize_mailboxes_changes {W} `{MailboxClient W} folder_shared force (d d' : Data W) r :
  synchronize_mailboxes folder_shared true force d = (Ok r, d') -> is_Some r.
Proof.
  unfold synchronize_mailboxes. intros Hs.
  do 2 (apply bind_done in Hs as (? & ? & _ & Hs)).
  apply bind_done in Hs as ([added changes] & d1 & Hc & Hs).
  assert (is_Some changes) as [c ->].
  { destruct (force || _).
    - do 3 (apply bind_done in Hc as (? & ? & _ & Hc)).
      destruct (retain_accounts _ _ _) as [l o] eqn:El. apply (f_equal snd) in El. cbn in El.
      assert (is_Some o) as Ho by (rewrite <- El; apply retain_accounts_some).
      do 2 (apply bind_done in Hc as (? & ? & _ & Hc)). by injection Hc as _ <- _.
    - injection Hc as _ <- _. by eexists. }
  do 2 (apply bind_done in Hs as (? & ? & _ & Hs)).
  apply bind_done in Hs as ([ids l] & ? & _ & Hs).
  do 4 (apply bind_done in Hs as (? & ? & _ & Hs)).
  destruct (update_mailboxes _ _ _ _) as [l' o] eqn:El. apply (f_equal snd) in El. cbn in El.
  assert (is_Some o) as Ho by (rewrite <- El; apply update_mailboxes_some).
  apply bind_done in Hs as (? & ? & _ & Hs). by injection Hs as <- _.
Qed.

(** ** The messages *)
Lemma changed_uids_pairs response ids uids :
  length ids = length uids ->
  changed_uids response ids uids =
    Ok (map snd (filter (fun p => p.1 ∈ ec_updated response \/ p.1 ∈ ec_created response) (zip ids uids))).
Proof.
  revert uids; induction ids as [|id ids IH]; intros [|u uids] E; try done. cbn [changed_uids drop zip_with].
  injection E as E. change (drop 0 uids) with uids. rewrite (IH _ E). cbn [res_bind]. rewrite filter_cons. cbn [fst].
  do 2 case_bool_decide; case_decide; cbn; done || tauto.
Qed.

Section InStep.
Context {W : Type} `{Sled W} `{Clock W} `{EmailClient W} `{MailboxClient W} `{StatusClient W} `{SearchClient W}.
Context `{Limits W} `{FetchClient W} `{DebugFmt} `{Chrono} `{Md5} `{ChangesClient}.
Context (folder_shared folder_all : str) (is_select : bool) (fuel : nat).

(** The state of a task after the mailbox was read again. *)
Definition after_sync (s : TaskState W) (state : MailboxData) (w : W) (buf : bytes) : TaskState W :=
  mkTaskState state (saved_search s) (written s ++ (if bool_decide (buf = []) then [] else [buf])) w.

(** The messages of the snapshot that are reported as changed. *)
Definition changed_messages (response : EmailChanges) (state : MailboxData) : list Z :=
  map snd (filter (fun p => p.1 ∈ ec_updated response \/ p.1 ∈ ec_created response) (pairs state)).

(** The FETCH responses for them, from a state on. *)
Definition fetch_changed (mailbox : MailboxId) (is_qresync : bool) (response : EmailChanges) : EM (TaskState W) unit unit :=
  do* state := get_selected in
  do* _ := set_selected (set_last_state (ec_new_state response) state) in
  if bool_decide (changed_messages response state = []) then ret tt
  else do* _ := fetch mailbox is_select fuel (changed_arguments (changed_messages response state)) true is_qresync false in ret tt.

Lemma report_changes_ok mailbox is_qresync response accounts (s : TaskState W) :
  length (md_jmap_ids (selected s)) = length (md_imap_uids (selected s)) ->
  report_changes is_select fuel mailbox is_qresync response (mkIdleState accounts s) =
    if 0 <? total_changes response then on_task (fetch_changed mailbox is_qresync response) (mkIdleState accounts s)
    else (Ok tt, mkIdleState accounts s).
Proof.
  intros Hl. unfold report_changes. destruct (0 <? total_changes response); [|done].
  unfold fetch_changed, bindM at 1 2 3, on_task at 1 2, get_selected, set_selected. cbn [idle_task idle_accounts selected].
  unfold lift. rewrite changed_uids_pairs by done. fold (pairs (selected s)). fold (changed_messages response (selected s)).
  unfold on_task, bindM. cbn [idle_task idle_accounts]. case_bool_decide; cbn [negb]; [done|].
  by destruct (fetch _ _ _ _ _ _ _ _) as [[] ?].
Qed.

Lemma removal_response_nil numbers dels (n : option nat) :
  (n = None -> dels = []) -> numbers = expunge_numbers 0 (map id_seqnum dels) ->
  removal_response false n (if decide (dels = []) then None else Some dels) =
    match n with Some n => expunge_lines numbers ++ exists_serialize (Z.of_nat n) | None => [] end.
Proof.
  intros Hn ->. unfold removal_response. destruct n as [n|].
  - case_decide as Hd; [by subst dels|]. done.
  - by rewrite Hn.
Qed.

(** C18: The untagged responses keep the client in step: when the changes and
    the messages of the mailbox were read, the EXPUNGE lines take from what the
    client knew exactly the messages that are gone, the new ones follow, their
    number is announced, or nothing is written and nothing came or went; then,
    if there were changes, the flags are fetched of exactly the messages of the
    new snapshot that were created or updated, and the state of the server is
    remembered. *)
Theorem write_changes_in_step mailbox is_rev2 accounts (s : TaskState W) response w1 new_state w2 :
  aligned (selected s) -> md_total_messages (selected s) = length (md_imap_uids (selected s)) ->
  send_changes_email (account_id mailbox) (md_last_state (selected s)) (world s) = (Ok response, w1) ->
  synchronize_messages mailbox w1 = (Ok new_state, w2) ->
  length (md_jmap_ids new_state) = length (md_imap_uids new_state) -> NoDup (md_imap_uids new_state) ->
  exists numbers state' buf,
    let uids := md_imap_uids new_state in
    let s1 := after_sync s state' w2 buf in
    client_expunges (md_imap_uids (selected s)) numbers = filter (fun u => u ∈ uids) (md_imap_uids (selected s)) /\
    pairs state' = filter (fun p => p.2 ∈ uids) (pairs (selected s)) ++
                   filter (fun p => p.2 ∉ md_imap_uids (selected s)) (zip (md_jmap_ids new_state) uids) /\
    (buf = expunge_lines numbers ++ exists_serialize (Z.of_nat (length (md_imap_uids state'))) \/
     buf = [] /\ numbers = [] /\ md_imap_uids state' = md_imap_uids (selected s)) /\
    write_changes folder_shared folder_all is_select fuel (Some mailbox) false true false is_rev2 (mkIdleState accounts s) =
      if 0 <? total_changes response then on_task (fetch_changed mailbox false response) (mkIdleState accounts s1)
      else (Ok tt, mkIdleState accounts s1).
Proof.
  intros Hal Htot Hc Hs Hlen Hn.
  destruct (synchronize_uids_result (E := unit) _ _ _ Hal Htot Hlen Hn) as (state' & Er & Hj & Hu & Ht).
  set (keep := filter _ (pairs _)) in *. set (new := filter _ (zip _ _)) in *. set (dels := gone _ 0 _) in *.
  set (total := if _ || _ then Some _ else None) in Er.
  exists (expunge_numbers 0 (map id_seqnum dels)), state', (removal_response false total (if decide (dels = []) then None else Some dels)).
  cbn zeta. split_and!.
  - apply (client_expunges_gone _ (md_imap_uids (selected s)) [] 0 0); [cbn; apply Hal|done|done].
  - unfold pairs at 1. rewrite Hj, Hu. apply zip_maps.
  - assert (Htotal : total = None -> dels = [] /\ new = []).
    { unfold total. destruct (bool_decide (new <> []) || _) eqn:Ec; [done|]. intros _. apply orb_false_iff in Ec as [En Ed].
      by apply bool_decide_eq_false, dec_stable in En, Ed. }
    rewrite (removal_response_nil _ dels total) by (naive_solver || done).
    unfold total in *. destruct (bool_decide (new <> []) || _); [left|right].
    + do 2 f_equal. by rewrite Ht, Hu, length_map.
    + destruct (Htotal eq_refl) as [Hd Hnew]. split; [done|]. split; [by rewrite Hd|].
      rewrite Hu, map_app, Hnew, app_nil_r. unfold keep.
      rewrite (filter_map_snd (fun u => u ∈ md_imap_uids new_state)). unfold pairs. rewrite zip_snd by apply Hal.
      apply filter_all. by apply (gone_nil _ 0).
  - unfold write_changes, write_email_changes, bindM at 1. cbn [ret]. unfold ret at 1.
    unfold bindM at 1, on_task at 1, get_selected. cbn [idle_task idle_accounts].
    unfold bindM at 1, attempt at 1, on_task at 1, on_world at 1. cbn [idle_task idle_accounts]. rewrite Hc. cbn [world selected].
    unfold bindM at 1, attempt at 1, on_task at 1, on_world at 1. cbn [idle_task idle_accounts world]. rewrite Hs.
    unfold bindM at 1, on_task at 1, task_synchronize_uids, bindM at 1, get_selected. cbn [idle_task selected].
    unfold bindM at 1, lift at 1. rewrite Er. unfold bindM at 1, set_selected, ret at 1.
    cbn [saved_search written world].
    set (buf := removal_response _ _ _). unfold after_sync.
    rewrite <- report_changes_ok by (cbn; by rewrite Hj, Hu, !length_map).
    unfold bindM at 1, write_buf. case_bool_decide as Hb; cbn [negb].
    + unfold ret. by rewrite app_nil_r.
    + reflexivity.
Qed.
End InStep.

(** ** IDLE ends with DONE *)
Section IdleEnds.
Context {W : Type} `{Sled W} `{Clock W} `{EmailClient W} `{MailboxClient W} `{StatusClient W} `{SearchClient W}.
Context `{Limits W} `{FetchClient W} `{DebugFmt} `{Chrono} `{Md5} `{ChangesClient}.
Context (folder_shared folder_all : str) (is_select : bool) (fuel : nat).

Definition is_done (e : IdleEvent) : bool := match e with EventDone => true | _ => false end.

(** The task ends when it is told to, with the tagged answer. *)
Definition ends (tag : str) (events : list IdleEvent) (m : EM (IdleState W) unit bool) : Prop :=
  forall i b i', m i = (Ok b, i') ->
    b = existsb is_done events /\
    (b = true -> exists outs, written (idle_task i') = outs ++ [status_serialize (with_tag (completed Idle) tag)]).

Lemma idle_completed_ends tag events : existsb is_done events = true -> ends tag events (idle_completed tag).
Proof. intros He i b i' [= <- <-]. split; [done|]. intros _. by eexists. Qed.

Lemma wait_done_ends tag events : ends tag events (wait_done tag events).
Proof.
  induction events as [|e events IH]; [by intros i b i' [= <- <-]|].
  destruct e; [apply IH..|by apply idle_completed_ends].
Qed.

Lemma idle_loop_ends mailbox tag is_qresync is_rev2 events :
  ends tag events (idle_loop folder_shared folder_all is_select fuel mailbox tag is_qresync is_rev2 events).
Proof.
  induction events as [|e events IH]; [by intros i b i' [= <- <-]|].
  destruct e as [changes| | |]; cbn [idle_loop]; [|apply IH|apply (wait_done_ends tag events)|by apply idle_completed_ends].
  intros i b i' Hm. apply bind_done in Hm as (? & i1 & _ & Hm). by apply (IH i1).
Qed.

(** An IDLE is answered when, and only when, DONE was received. *)
Lemma idle_ends mailbox tag is_qresync is_rev2 events :
  ends tag events (idle folder_shared folder_all is_select fuel mailbox tag is_qresync is_rev2 events).
Proof. intros i b i' Hm. apply bind_done in Hm as (? & i1 & _ & Hm). by eapply idle_loop_ends. Qed.
End IdleEnds.

(** ** A mailbox that changed *)
Module Demo.
#[export] Instance email : EmailClient KV := {
  send_query_email _ _ _ db := (Ok (mkQueryPage (Some 2) [b "a"; b "c"]), db);
  send_get_email_state _ db := (Ok (b "s2"), db)
}.
#[export] Instance search_client : SearchClient KV := {
  send_search _ _ _ db := (Ok (mkQueryPage (Some 0) []), db);
  send_changes_email _ _ db := (Ok (mkEmailChanges (b "s2") [b "c"] [b "a"] [b "e"]), db)
}.
#[export] Instance changes_client : ChangesClient := {|
  total_changes r := Z.of_nat (length (ec_created r) + length (ec_updated r) + length (ec_destroyed r)) |}.

(** The client knows the messages 1 and 9; the second is gone, another came. *)
Definition state : TaskState KV := mkTaskState (mkMailboxData 10 1 [b "a"; b "e"] [1; 9] 2 (b "s1")) SavedNone [] ∅.
Definition inbox : MailboxId := mkMailboxId (b "john") (Some (b "in")).
End Demo.
#[local] Existing Instances FetchSpec.Demo.clock FetchSpec.Demo.debug FetchSpec.Demo.chrono FetchSpec.Demo.md5
  FetchSpec.Demo.limits FetchSpec.Demo.client StatusTask.Demo.mailbox_client StatusTask.Demo.status_client
  Demo.email Demo.search_client Demo.changes_client.

Example changes_written :
  written (idle_task (idle [] (b "All Mail") true 5 (Some Demo.inbox) (b "a1") false true [EventEnd; EventDone]
                        (mkIdleState [] Demo.state)).2) =
    [b "* 2 EXPUNGE" ++ CRLF ++ b "* 2 EXISTS" ++ CRLF;
     b "* 2 FETCH (FLAGS () UID 2)" ++ CRLF; b "* 1 FETCH (FLAGS (\Seen) UID 1)" ++ CRLF;
     b "a1 OK IDLE completed" ++ CRLF].
Proof. vm_compute. reflexivity. Qed.

Lemma write_changes_in_step_witness :
  exists numbers, client_expunges [1; 9] numbers = [1] /\
    exists i, write_changes [] (b "All Mail") true 5 (Some Demo.inbox) false true false true (mkIdleState [] Demo.state) = (Ok tt, i) /\
      md_imap_uids (selected (idle_task i)) = [1; 2].
Proof.
  destruct (synchronize_messages Demo.inbox (∅ : KV)) as [r w2] eqn:Es.
  pose proof (f_equal fst Es) as Er. vm_compute in Er. subst r.
  edestruct (write_changes_in_step [] (b "All Mail") true 5 Demo.inbox true [] Demo.state) as (numbers & state' & buf & Hv & Hp & _ & Hw);
    [split; [done|..]; refine (bool_decide_eq_true_1 _ _); vm_compute; reflexivity|done|reflexivity|exact Es|done| |].
  { refine (bool_decide_eq_true_1 _ _); vm_compute; reflexivity. }
  exists numbers. split; [exact Hv|].
  destruct (write_changes _ _ _ _ _ _ _ _ _ _) as [r i] eqn:E. clear Hw.
  assert (r = Ok tt /\ md_imap_uids (selected (idle_task i)) = [1; 2]) as [-> Hi].
  { pose proof (f_equal (fun x => (x.1, md_imap_uids (selected (idle_task x.2)))) E) as Hx.
    vm_compute in Hx. cbn [fst snd] in Hx. injection Hx as Hr Hi.
    split; [by symmetry|symmetry; exact Hi]. }
  exists i. exact (conj eq_refl Hi).
Defined.
