(* ===== verification/Settings.v ===== *)
(** * Start-up and house keeping

    [src/core/env_settings.rs]: the settings, from the command line, a file and
    the environment; what [src/core/config.rs] and [src/lib.rs] take from them;
    [src/core/housekeeper.rs]: when the store is cleaned up. *)

From S2P Require Import Prelude Utf8 Utf7 Types Flags FetchWire Store UidStore.

(** What the process is given: upper and lower case of the standard library's
    Unicode tables, the variables of the environment, and the files. *)
Class Process := {
  to_lowercase : str -> str;
  to_uppercase : str -> str;
  env_var : str -> option str;
  read_file : str -> str + bytes   (* the error, or the contents *)
}.

(** ** Text *)

(** [str::rsplit_once] and [str::split_once] at a short pattern *)
Fixpoint rsplit_at (p s : str) : option (str * str) :=
  match s with
  | [] => None
  | c :: s' =>
      match rsplit_at p s' with
      | Some (l, r) => Some (c :: l, r)
      | None => '(r) ← strip_prefix p s; Some ([], r)
      end
  end.
Fixpoint split_at (p s : str) : option (str * str) :=
  match strip_prefix p s with
  | Some r => Some ([], r)
  | None => match s with [] => None | c :: s' => '(l, r) ← split_at p s'; Some (c :: l, r) end
  end.

(** [str::split] at a character *)
Fixpoint split_char (c : Z) (s : str) : list str :=
  match s with
  | [] => [[]]
  | x :: s' =>
      let rest := split_char c s' in
      if x =? c then [] :: rest
      else match rest with y :: rest' => (x :: y) :: rest' | [] => [[x]] end
  end.

(** [BufRead::lines] of the contents of a file; a carriage return before the
    line end goes when the line is trimmed. *)
Fixpoint read_lines (s : bytes) : list bytes :=
  match s with
  | [] => []
  | c :: s' =>
      if c =? 10 then [] :: read_lines s'
      else match read_lines s' with
           | [] => [[c]]
           | line :: lines => (c :: line) :: lines
           end
  end.

(** ** The settings

    An error is a message; the process ends with it. *)
Abbreviation Args := (gmap (list Z) str).

Section Settings.
Context `{Process}.

Definition key_of (arg : str) : option str := to_lowercase <$> strip_prefix (b "--") arg.

Definition invalid_argument (arg : str) : str := b "Invalid command line argument: " ++ arg.

Fixpoint read_args (env_args : list str) (current_key : option str) (args : Args) : Res str Args :=
  match env_args with
  | [] => Ok args
  | arg :: env_args' =>
      match split_once 61 arg with
      | Some (key, value) =>
          match key_of key with
          | Some key => read_args env_args' current_key (<[key := value]> args)
          | None => Err (invalid_argument key)
          end
      | None =>
          match current_key with
          | Some key => read_args env_args' None (<[key := arg]> args)
          | None =>
              match key_of arg with
              | Some key => read_args env_args' (Some key) args
              | None => Err (invalid_argument arg)
              end
          end
      end
  end.

(** The value of a line of the file, without the comment. *)
Definition line_value (value : str) : str :=
  trim (match rsplit_at (b " #") value with
        | Some v => v.1
        | None => match split_at (9 :: b "#") value with Some v => v.1 | None => value end
        end).

Definition read_line (line : str) (args : Args) : Res str Args :=
  let line := trim line in
  if bool_decide (line = []) || starts_with (b "#") line then Ok args
  else
    match split_once 58 line with
    | Some (key, value) =>
        let key := trim key in
        if bool_decide (is_Some (args !! key)) then Ok args
        else if bool_decide (line_value value = []) then Ok args
        else Ok (<[key := line_value value]> args)
    | None => Err (b "Invalid config file line: " ++ line)
    end.

Definition failed_to_read (config_path err : str) : str :=
  b "Failed to read config file " ++ config_path ++ b ": " ++ err.

Fixpoint read_config (config_path : str) (lines : list bytes) (args : Args) : Res str Args :=
  match lines with
  | [] => Ok args
  | line :: lines' =>
      match from_utf8 line with
      | Some line => let* args := read_line line args in read_config config_path lines' args
      | None => Err (failed_to_read config_path (b "stream did not contain valid UTF-8"))
      end
  end.

(** [EnvSettings::new]; the first argument is the name of the program. *)
Definition new_settings (env_args : list str) : Res str Args :=
  let* args := read_args (drop 1 env_args) None ∅ in
  match args !! b "config" with
  | Some config_path =>
      let args := delete (b "config") args in
      match read_file config_path with
      | inl err => Err (failed_to_read config_path err)
      | inr contents => read_config config_path (read_lines contents) args
      end
  | None => Ok args
  end.

(** [name.replace('-', _).to_uppercase()] *)
Definition env_name (name : str) : str := to_uppercase (map (fun c => if c =? 45 then 95 else c) name).

Definition get (args : Args) (name : str) : option str :=
  match args !! name with Some value => Some value | None => env_var (env_name name) end.

Definition contains_key (args : Args) (name : str) : bool :=
  bool_decide (is_Some (args !! name)) || bool_decide (is_Some (env_var (env_name name))).

Definition parse_setting {T} (from_str : str -> option T) (args : Args) (name : str) : Res str (option T) :=
  match get args name with
  | Some value =>
      match from_str value with
      | Some value => Ok (Some value)
      | None => Err (b "Failed to parse argument: " ++ name)
      end
  | None => Ok None
  end.

Definition parse_list (args : Args) (name : str) : option (list str) :=
  (fun value => split_char (if bool_decide (59 ∈ value) then 59 else 44) value) <$> get args name.

Definition set_value (args : Args) (name value : str) : Args := <[name := value]> args.

(** ** What the server takes from them *)
Record CoreSettings := mkCoreSettings {
  jmap_url : str; folder_shared : str; folder_all : str; max_request_size : Z; trusted_hosts : list str }.

Definition DEFAULT_JMAP_URL : str := b "http://127.0.0.1:8080".

(** The part of [build_core] that does not open files. *)
Definition core_settings (args : Args) : Res str CoreSettings :=
  let* max_request_size := parse_setting (parse_uint 64) args (b "max-request-size") in
  Ok (mkCoreSettings
        (default DEFAULT_JMAP_URL (get args (b "jmap-url")))
        (default (b "Shared Folders") (get args (b "name-shared")))
        (default (b "All Mail") (get args (b "name-all")))
        (default (50 * 1024 * 1024) max_request_size)
        (match get args (b "jmap-trusted-hosts") with
         | Some hosts => split_char 59 hosts
         | None => [b "127.0.0.1"]
         end)).

(** The ports to listen on, with TLS or not, and the one for ManageSieve. *)
Definition port (args : Args) (name : str) (default_port : Z) : option Z :=
  (fun bind_port => default default_port (parse_uint 16 bind_port)) <$> get args name.

Definition listeners (args : Args) : Res str (list (Z * bool) * option Z) :=
  if negb (contains_key args (b "bind-port")) && negb (contains_key args (b "bind-port-tls")) then
    Err (b "Failed to start IMAP listener. Please specify 'bind-port' and/or 'bind-port-tls'.")
  else
    Ok (map (fun p => (p, false)) (option_list (port args (b "bind-port") 143)) ++
        map (fun p => (p, true)) (option_list (port args (b "bind-port-tls") 993)),
        port args (b "bind-port-sieve") 4190).

(** ** The housekeeper

    The reason that the number parser gives is left out of the messages. *)
Inductive SimpleCron :=
| EveryDay (hour minute : Z)
| EveryWeek (day hour minute : Z).

Definition failed_to {A} (action : str) : Res str A := Err (b "Failed to " ++ action).

Definition in_range (lo hi n : Z) : bool := (lo <=? n) && (n <=? hi).

Fixpoint cron_loop (pos : nat) (values : list str) (hour minute : Z) : Res str SimpleCron :=
  match values with
  | [] => failed_to (b "parse cron expression.")
  | value :: values' =>
      match pos with
      | 0%nat =>
          let* minute := ok_or (parse_uint 32 value) (b "Failed to parse minute.") in
          if negb (in_range 0 59 minute) then failed_to (b "parse minute, invalid value: " ++ dec minute)
          else cron_loop 1 values' hour minute
      | 1%nat =>
          let* hour := ok_or (parse_uint 32 value) (b "Failed to parse hour.") in
          if negb (in_range 0 23 hour) then failed_to (b "parse hour, invalid value: " ++ dec hour)
          else cron_loop 2 values' hour minute
      | _ =>
          match value with
          | [] => failed_to (b "parse weekday")
          | 42 :: _ => Ok (EveryDay hour minute)
          | _ =>
              let* day := ok_or (parse_uint 32 value) (b "Failed to parse weekday.") in
              if negb (in_range 1 7 hour) then
                failed_to (b "parse weekday, invalid value: " ++ dec hour ++ b ", range is 1 (Monday) to 7 (Sunday).")
              else Ok (EveryWeek day hour minute)
          end
      end
  end.

Definition cron_parse (value : str) : Res str SimpleCron := cron_loop 0 (split_char 32 value) 0 0.
End Settings.

(** Local time, in nanoseconds: the beginning of the day of an instant, and the
    day of the week, from 1 for Monday on. *)
Class LocalTime := { midnight : Z -> Z; number_from_monday : Z -> Z }.

Definition SECOND : Z := 1000000000.
Definition DAY : Z := 86400 * SECOND.

Section Housekeeper.
Context `{LocalTime}.

(** [ymd(..).and_hms(hour, minute, 0)] on the day of [now], which has 24 hours. *)
Definition at_time (now hour minute : Z) : Z := midnight now + (hour * 3600 + minute * 60) * SECOND.

Definition time_to_next (cron : SimpleCron) (now : Z) : Z :=
  match cron with
  | EveryDay hour minute =>
      let next := at_time now hour minute in
      (if next <? now then next + DAY else next) - now
  | EveryWeek day hour minute =>
      let next := at_time now hour minute in
      (if next <? now then next + wrap32 (7 - number_from_monday now + day) * DAY else next) - now
  end.

(** The timer ran out, or the server stops. *)
Inductive Tick := TimeOut | Stopped.

Context {DB : Type} `{Sled DB} `{Clock DB}.

Fixpoint housekeeper (cache_ttl : Z) (ticks : list Tick) : M DB unit :=
  match ticks with
  | TimeOut :: ticks' =>
      do* _ := attempt (purge_deleted_ids cache_ttl) in
      housekeeper cache_ttl ticks'
  | Stopped :: _ | [] => ret tt
  end.

Definition spawn_housekeeper `{Process} (args : Args) : Res str (SimpleCron * Z) :=
  let* cron := cron_parse (default (b "0 3 *") (get args (b "cache-purge-every"))) in
  let* ttl := parse_setting (parse_uint 64) args (b "cache-removed-id-ttl") in
  Ok (cron, default 2592000 ttl).
End Housekeeper.

(** ** Trimming and splitting text *)

(** Printable characters that are not spaces. *)
Definition graphic (c : Z) : Prop := 33 <= c <= 126.

Lemma graphic_not_whitespace c : graphic c -> is_whitespace c = false.
Proof. unfold graphic, is_whitespace. lia. Qed.

Lemma trim_start_id cs c cs' : cs = c :: cs' -> is_whitespace c = false -> trim_start cs = cs.
Proof. intros -> Hc. cbn. by rewrite Hc. Qed.

Lemma encode_ascii s : Forall (fun c => 0 <= c < 128) s -> encode s = s.
Proof.
  induction 1 as [|c s Hc _ IH]; [done|]. cbn [encode flat_map]. fold (encode s). rewrite IH.
  unfold encode_char. by replace (c <? 128) with true by lia.
Qed.

(** ASCII text that begins and ends with graphic characters is left alone. *)
Lemma trim_id s c s1 d s2 :
  Forall (fun c => 0 <= c < 128) s -> s = c :: s1 -> s = s2 ++ [d] -> graphic c -> graphic d -> trim s = s.
Proof.
  intros Ha Hc Hd Gc Gd. unfold trim. rewrite chars_ascii by done. cbn [default]. unfold id.
  rewrite (trim_start_id s c s1) by (done || by apply graphic_not_whitespace).
  rewrite Hd, reverse_app. cbn [reverse rev_append]. change (reverse [d]) with [d]. cbn [app].
  rewrite (trim_start_id (d :: reverse s2) d (reverse s2)) by (done || by apply graphic_not_whitespace).
  rewrite reverse_cons, reverse_involutive, <- Hd. by apply encode_ascii.
Qed.

Lemma trim_graphic s : s <> [] -> Forall graphic s -> trim s = s.
Proof.
  intros Hne Hs. destruct s as [|c s1]; [done|]. destruct (exists_last Hne) as (s2 & d & E).
  eapply (trim_id _ c s1 d s2); [|done|done| |].
  - eapply List.Forall_impl; [|exact Hs]. unfold graphic. lia.
  - by apply list.Forall_cons in Hs as [? _].
  - rewrite E in Hs. apply list.Forall_app in Hs as [_ Hd]. by apply list.Forall_cons in Hd as [? _].
Qed.

Lemma trim_space s : s <> [] -> Forall graphic s -> trim (32 :: s) = s.
Proof.
  intros Hne Hs. rewrite <- (trim_graphic s Hne Hs) at 2. unfold trim.
  assert (Forall (fun c => 0 <= c < 128) s) by (eapply List.Forall_impl; [|exact Hs]; unfold graphic; lia).
  by rewrite !chars_ascii by (try constructor; (lia || done)).
Qed.

Lemma split_once_at c s s' : c ∉ s -> split_once c (s ++ c :: s') = Some (s, s').
Proof.
  intros Hs. induction s as [|x s IH]; cbn [app split_once]; [by rewrite Z.eqb_refl|].
  apply not_elem_of_cons in Hs as [Hx Hs]. replace (x =? c) with false by lia. by rewrite IH.
Qed.

Lemma split_once_none c s : c ∉ s -> split_once c s = None.
Proof.
  intros Hs. induction s as [|x s IH]; cbn [split_once]; [done|].
  apply not_elem_of_cons in Hs as [Hx Hs]. replace (x =? c) with false by lia. by rewrite IH.
Qed.

Lemma rsplit_at_none c d s : d ∉ s -> rsplit_at [c; d] s = None.
Proof.
  intros Hs. induction s as [|x s IH]; cbn [rsplit_at]; [done|]. apply not_elem_of_cons in Hs as [Hx Hs].
  rewrite IH by done. cbn. destruct (c =? x); [|done]. destruct s as [|y s]; [done|].
  apply not_elem_of_cons in Hs as [Hy _]. by replace (d =? y) with false by lia.
Qed.

Lemma split_at_none c d s : d ∉ s -> split_at [c; d] s = None.
Proof.
  intros Hs. induction s as [|x s IH]; cbn [split_at]; [done|]. apply not_elem_of_cons in Hs as [Hx Hs].
  rewrite (IH Hs). cbn [strip_prefix]. destruct (c =? x); [|done]. destruct s as [|y s]; [done|].
  apply not_elem_of_cons in Hs as [Hy _]. by replace (d =? y) with false by lia.
Qed.

(** ** Where a setting comes from *)
Section Precedence.
Context `{Process}.

(** An option of the command line: [--key=value], or [--key value]. *)
Record CommandOption := mkCommandOption { o_key : str; o_value : str; o_joined : bool }.

Definition option_args (o : CommandOption) : list str :=
  if o_joined o then [b "--" ++ o_key o ++ 61 :: o_value o] else [b "--" ++ o_key o; o_value o].

Definition option_ok (o : CommandOption) : Prop :=
  (61 ∉ o_key o) /\ to_lowercase (o_key o) = o_key o /\ (o_joined o = false -> 61 ∉ o_value o).

(** The lines [key: value] of a file. *)
Definition line_text (l : str * str) : str := l.1 ++ b ": " ++ l.2.
Definition file_text (lines : list (str * str)) : bytes := flat_map (fun l => line_text l ++ [10]) lines.

Definition line_ok (l : str * str) : Prop :=
  l.1 <> [] /\ Forall graphic l.1 /\ (58 ∉ l.1) /\ (35 ∉ l.1) /\ l.2 <> [] /\ Forall graphic l.2 /\ 35 ∉ l.2.

#[export] Instance graphic_dec c : Decision (graphic c).
Proof. unfold graphic. apply _. Defined.
#[export] Instance option_ok_dec o : Decision (option_ok o).
Proof. unfold option_ok. apply _. Defined.
#[export] Instance line_ok_dec l : Decision (line_ok l).
Proof. unfold line_ok. apply _. Defined.

Definition values (name : str) (l : list (str * str)) : list str :=
  map snd (filter (fun p => p.1 = name) l).
Definition option_values (name : str) (opts : list CommandOption) : list str :=
  values name (map (fun o => (o_key o, o_value o)) opts).

Lemma key_of_option k : to_lowercase k = k -> key_of (b "--" ++ k) = Some k.
Proof. intros Hk. unfold key_of. rewrite strip_prefix_app. cbn. by rewrite Hk. Qed.

Lemma equals_not_dash k : 61 ∉ k -> 61 ∉ (b "--" ++ k).
Proof. intros Hk [Hd|?]%elem_of_app; [|done]. revert Hd. apply (bool_decide_eq_false_1 _). vm_compute. reflexivity. Qed.

Lemma read_args_options opts args :
  Forall option_ok opts ->
  read_args (flat_map option_args opts) None args = Ok (foldl (fun m o => <[o_key o := o_value o]> m) args opts).
Proof.
  intros Ho. revert args; induction Ho as [|[k v j] opts (Hk & Hl & Hv) _ IH]; intros args; [done|].
  cbn [o_key o_value o_joined] in *. cbn [flat_map foldl]. unfold option_args at 1. cbn [o_joined o_key o_value].
  destruct j; cbn [app].
  - cbn [read_args]. rewrite (app_assoc (b "--")), split_once_at by by apply equals_not_dash.
    rewrite key_of_option by done. apply IH.
  - cbn [read_args]. rewrite split_once_none by by apply equals_not_dash.
    rewrite key_of_option, split_once_none by auto. apply IH.
Qed.

Lemma foldl_lookup (opts : list CommandOption) (m : Args) name :
  foldl (fun m o => <[o_key o := o_value o]> m) m opts !! name =
    match list.last (option_values name opts) with Some v => Some v | None => m !! name end.
Proof.
  revert m; induction opts as [|o opts IH]; intros m; cbn [foldl]; [done|]. rewrite IH.
  unfold option_values, values. cbn [map]. rewrite filter_cons. cbn [fst].
  case_decide as Hd; cbn [map snd].
  - subst name. rewrite last_cons. destruct (list.last _); [done|]. by rewrite lookup_insert_eq.
  - by rewrite lookup_insert_ne.
Qed.

Lemma read_lines_text l rest : 10 ∉ l -> read_lines (l ++ 10 :: rest) = l :: read_lines rest.
Proof.
  intros Hl. induction l as [|c l IH]; [done|]. apply not_elem_of_cons in Hl as [Hc Hl].
  cbn [app read_lines]. replace (c =? 10) with false by lia. by rewrite IH.
Qed.

Lemma not_graphic c s : ~ graphic c -> Forall graphic s -> c ∉ s.
Proof. intros Hc Hs Hin. by apply Hc, (proj1 (list.Forall_forall _ _) Hs). Qed.

Lemma read_lines_file lines : Forall line_ok lines -> read_lines (file_text lines) = map line_text lines.
Proof.
  induction 1 as [|[k v] lines (Hk & Gk & _ & _ & Hv & Gv & _) _ IH]; [done|]. cbn [fst snd] in *.
  unfold file_text. cbn [flat_map]. rewrite <- app_assoc. cbn [app]. rewrite read_lines_text.
  { cbn [map]. by rewrite <- IH. }
  unfold line_text. cbn [fst snd]. rewrite !not_elem_of_app. split_and!.
  - apply not_graphic; [unfold graphic; lia|done].
  - refine (bool_decide_eq_false_1 _ _). vm_compute. reflexivity.
  - apply not_graphic; [unfold graphic; lia|done].
Qed.

Lemma line_text_ascii l : line_ok l -> Forall (fun c => 0 <= c < 128) (line_text l).
Proof.
  intros (_ & Gk & _ & _ & _ & Gv & _). unfold line_text. apply list.Forall_app. split.
  - eapply List.Forall_impl; [|exact Gk]. unfold graphic. lia.
  - apply list.Forall_app. split; [by repeat constructor|]. eapply List.Forall_impl; [|exact Gv]. unfold graphic. lia.
Qed.

Lemma read_line_text l args :
  line_ok l ->
  read_line (line_text l) args = Ok (match args !! l.1 with Some _ => args | None => <[l.1 := l.2]> args end).
Proof.
  intros Hok. pose proof (line_text_ascii l Hok) as Ha. destruct l as [k v].
  destruct Hok as (Hk & Gk & Ck & Nk & Hv & Gv & Nv). cbn [fst snd] in *.
  destruct k as [|c k]; [done|]. destruct (exists_last Hv) as (v' & d & Ev).
  unfold read_line. erewrite trim_id; [|exact Ha|reflexivity| | |].
  2: { unfold line_text. cbn [fst snd]. rewrite Ev, !app_assoc. reflexivity. }
  2: { by apply list.Forall_cons in Gk as [? _]. }
  2: { rewrite Ev in Gv. apply list.Forall_app in Gv as [_ Gd]. by apply list.Forall_cons in Gd as [? _]. }
  rewrite bool_decide_false by done.
  assert (Hc : starts_with (b "#") (line_text (c :: k, v)) = false).
  { apply not_elem_of_cons in Nk as [Hc _]. unfold line_text. change (b "#") with [35]. cbn [fst snd app starts_with]. replace (35 =? c) with false by lia. done. }
  rewrite Hc. cbn [orb]. unfold line_text. cbn [fst snd]. change (b ": " ++ v) with (58 :: 32 :: v).
  rewrite split_once_at by done. rewrite trim_graphic by done.
  assert (Hval : line_value (32 :: v) = v).
  { unfold line_value. rewrite (rsplit_at_none 32 35), (split_at_none 9 35) by (apply not_elem_of_cons; split; [lia|done]).
    by apply trim_space. }
  rewrite Hval. destruct (args !! (c :: k)) as [x|] eqn:E.
  - by rewrite bool_decide_true by by eexists.
  - rewrite bool_decide_false by by intros [? ?]. by rewrite bool_decide_false.
Qed.

Lemma read_config_lines path lines args :
  Forall line_ok lines ->
  exists args', read_config path (map line_text lines) args = Ok args' /\
    forall name, args' !! name = match args !! name with Some v => Some v | None => head (values name lines) end.
Proof.
  intros Hl. revert args; induction Hl as [|l lines Hok _ IH]; intros args.
  - exists args. split; [done|]. intros name. by destruct (args !! name).
  - cbn [map read_config]. rewrite from_utf8_ascii by by apply line_text_ascii. rewrite read_line_text by done. cbn [res_bind].
    destruct (IH (match args !! l.1 with Some _ => args | None => <[l.1 := l.2]> args end)) as (args' & E & Hargs).
    exists args'. split; [done|]. intros name. rewrite Hargs. unfold values. rewrite filter_cons.
    case_decide as Hd; [subst name|]; destruct (args !! l.1) as [x|] eqn:El; rewrite ?El; cbn [map head]; try done.
    + by rewrite lookup_insert_eq.
    + by rewrite lookup_insert_ne.
Qed.

End Precedence.

(** ** When the housekeeper runs *)

(** Days of 24 hours, that begin where the last one ended. *)
Class LocalTimeLaws `{LocalTime} := {
  midnight_law t : midnight t <= t < midnight t + DAY;
  same_day t t' : midnight t <= t' < midnight t + DAY -> midnight t' = midnight t;
  next_day t : midnight (t + DAY) = midnight t + DAY
}.

Section Daily.
Context `{LocalTimeLaws}.

Lemma split_char_end c s : c ∉ s -> split_char c s = [s].
Proof.
  induction s as [|x s IH]; intros Hs; [done|]. apply not_elem_of_cons in Hs as [Hx Hs].
  cbn [split_char]. replace (x =? c) with false by lia. by rewrite IH.
Qed.

Lemma split_char_cons c s s' : c ∉ s -> split_char c (s ++ c :: s') = s :: split_char c s'.
Proof.
  induction s as [|x s IH]; intros Hs; cbn [app split_char]; [by rewrite Z.eqb_refl|].
  apply not_elem_of_cons in Hs as [Hx Hs]. replace (x =? c) with false by lia. by rewrite IH.
Qed.

Lemma space_not_in_dec n : 0 <= n -> 32 ∉ dec n.
Proof.
  intros Hn Hin. pose proof (dec_all_digits n Hn) as Hd. rewrite list.Forall_forall in Hd.
  specialize (Hd 32 Hin). done.
Qed.

(** A daily schedule, written as the minute, the hour and a star, is
    accepted exactly as written, and from every moment on the next run is less
    than a day away and at that time of the day. *)
Theorem daily_schedule hour minute rest now :
  0 <= hour <= 23 -> 0 <= minute <= 59 -> 32 ∉ rest ->
  cron_parse (dec minute ++ b " " ++ dec hour ++ b " *" ++ rest) = Ok (EveryDay hour minute) /\
  let next := now + time_to_next (EveryDay hour minute) now in
  now <= next < now + DAY /\ next = at_time next hour minute.
Proof.
  intros Hh Hm Hr. split.
  - unfold cron_parse. change (b " " ++ ?s) with (32 :: s). change (b " *" ++ rest) with (32 :: 42 :: rest).
    rewrite !split_char_cons by (apply space_not_in_dec; lia).
    rewrite split_char_end by (apply not_elem_of_cons; split; [lia|done]).
    cbn [cron_loop]. unfold in_range. rewrite !parse_uint_dec by lia. cbn [ok_or res_bind].
    replace ((0 <=? minute) && (minute <=? 59)) with true by lia.
    by replace ((0 <=? hour) && (hour <=? 23)) with true by lia.
  - cbn [time_to_next]. unfold at_time. pose proof (midnight_law now) as Hmid. unfold DAY, SECOND in *.
    destruct (Z.ltb_spec (midnight now + (hour * 3600 + minute * 60) * 1000000000) now) as [Hlt|Hge].
    + split; [lia|]. replace (now + _) with (midnight now + (hour * 3600 + minute * 60) * 1000000000 + DAY) by (unfold DAY, SECOND; lia).
      rewrite next_day. rewrite (same_day now (midnight now + (hour * 3600 + minute * 60) * 1000000000)) by (unfold DAY, SECOND; lia). unfold DAY, SECOND. lia.
    + split; [lia|]. replace (now + _) with (midnight now + (hour * 3600 + minute * 60) * 1000000000) by lia.
      rewrite (same_day now (midnight now + (hour * 3600 + minute * 60) * 1000000000)) by (unfold DAY, SECOND; lia). lia.
Qed.
End Daily.

(** ** A process *)
Module Demo.
(** A file of two lines, and the clock of Greenwich. *)
#[export] Instance process : Process := {|
  to_lowercase s := map to_ascii_lowercase s;
  to_uppercase s := map (fun c => if is_ascii_lower c then c - 32 else c) s;
  env_var name := if bytes_eqb name (b "NAME_ALL") then Some (b "Everything") else None;
  read_file path :=
    if bytes_eqb path (b "/etc/imap.yml") then inr (file_text [(b "bind-port", b "1143"); (b "jmap-url", b "https://jmap.org")])
    else inl (b "No such file or directory")
|}.
#[export] Instance utc : LocalTime := {| midnight t := t / DAY * DAY; number_from_monday t := (t / DAY + 3) mod 7 + 1 |}.
#[export] Instance utc_laws : LocalTimeLaws.
Proof.
  split; cbn; unfold DAY, SECOND.
  - intros t. pose proof (Z.div_mod t (86400 * 1000000000) ltac:(lia)).
    pose proof (Z.mod_pos_bound t (86400 * 1000000000) ltac:(lia)). lia.
  - intros t t' Ht. f_equal. symmetry. apply (Z.div_unique_pos _ _ _ (t' - t / (86400 * 1000000000) * (86400 * 1000000000))); lia.
  - intros t. replace (t + 86400 * 1000000000) with (t + 1 * (86400 * 1000000000)) by lia.
    rewrite Z.div_add by lia. lia.
Defined.

Definition opts : list CommandOption :=
  [mkCommandOption (b "config") (b "/etc/imap.yml") true; mkCommandOption (b "bind-port") (b "143") false;
   mkCommandOption (b "name-shared") (b "Shared") true; mkCommandOption (b "bind-port") (b "2143") false].
Definition args : Res str Args := new_settings (b "imap" :: flat_map option_args opts).
(** Monday, 5 January 1970, 4 o'clock. *)
Definition monday : Z := 4 * DAY + 4 * 3600 * SECOND.
End Demo.
#[local] Existing Instances Demo.process Demo.utc Demo.utc_laws.


Lemma daily_schedule_witness :
  cron_parse (b "0 3 *") = Ok (EveryDay 3 0) /\ time_to_next (EveryDay 3 0) Demo.monday = 23 * 3600 * SECOND.
Proof.
  destruct (daily_schedule 3 0 [] Demo.monday) as [E _]; [lia|lia|by apply not_elem_of_nil|].
  split; [exact E|reflexivity].
Defined.

(** The value of an option that contains an equals sign, in an argument of its
    own, is taken for another option. *)
Example value_with_equals :
  new_settings [b "imap"; b "--jmap-url"; b "http://jmap.org/?a=b"] = Err (b "Invalid command line argument: http://jmap.org/?a").
Proof. vm_compute. reflexivity. Qed.

(** Only the last of two comments is cut off a line. *)
Example two_comments : line_value (b " 143 # IMAP # plain") = b "143 # IMAP".
Proof. vm_compute. reflexivity. Qed.

(** The range of the day of the week is checked for the hour. *)
Example weekday_unchecked :
  cron_parse (b "0 3 9") = Ok (EveryWeek 9 3 0) /\ (match cron_parse (b "0 0 1") with Err _ => true | _ => false end) = true.
Proof. vm_compute. split; reflexivity. Qed.

(** On a Monday at 4, the weekly run of Sunday at 5 is in an hour, and that of
    Sunday at 3 in thirteen days less an hour. *)
Example weekly_at_wrong_day :
  time_to_next (EveryWeek 7 5 0) Demo.monday = 3600 * SECOND /\
  time_to_next (EveryWeek 7 3 0) Demo.monday = 13 * DAY - 3600 * SECOND.
Proof. vm_compute. split; reflexivity. Qed.
