(* ===== verification/Startup.v ===== *)
(** * Starting the server: [src/lib.rs], [src/core/config.rs]

    From the settings of [Settings.v] to the listeners that run: the database,
    the TLS configuration, the address to bind to, the ports, the housekeeper.
    Every failure ends the process with a message. The signals that stop it are
    not modelled, nor the subscriber of the log. *)

From S2P Require Import Prelude Types FetchWire Store UidStore Settings.

(** ** IP addresses: [IpAddr::from_str] of the standard library

    A parser takes a prefix of the text, or nothing. *)
Inductive IpAddr := V4 (octets : list Z) | V6 (groups : list Z).

Definition Parser (A : Type) : Type := str -> option (A * str).

(** [read_given_char] *)
Definition given (c : Z) (s : str) : option str := match s with x :: s' => if x =? c then Some s' else None | [] => None end.

Definition digit (radix c : Z) : option Z :=
  let d := if (48 <=? c) && (c <=? 57) then c - 48
           else if (97 <=? c) && (c <=? 102) then c - 87
           else if (65 <=? c) && (c <=? 70) then c - 55 else radix in
  if d <? radix then Some d else None.

(** The digits at the beginning, and what follows. *)
Fixpoint digits (radix : Z) (s : str) : list Z * str :=
  match s with
  | c :: s' => match digit radix c with Some d => let '(ds, rest) := digits radix s' in (d :: ds, rest) | None => ([], s) end
  | [] => ([], s)
  end.

(** [read_number]: at most [max_digits] digits, the number at most [max]. *)
Definition number (radix : Z) (max_digits : nat) (zero_prefix : bool) (max : Z) : Parser Z := fun s =>
  let '(ds, rest) := digits radix s in
  let n := foldl (fun n d => n * radix + d) 0 ds in
  if bool_decide (ds = []) || (max_digits <? length ds)%nat || (max <? n) then None
  else if negb zero_prefix && (1 <? length ds)%nat && bool_decide (head ds = Some 0) then None
  else Some (n, rest).

(** [read_separator]: the separator, but not before the first part. *)
Definition separated {A} (sep : Z) (index : nat) (p : Parser A) : Parser A := fun s =>
  match index with O => p s | _ => given sep s ≫= p end.

Fixpoint v4_octets (n i : nat) : Parser (list Z) := fun s =>
  match n with
  | O => Some ([], s)
  | S n' =>
      '(o, s) ← separated 46 i (number 10 3 false 255) s;
      '(os, s) ← v4_octets n' (S i) s;
      Some (o :: os, s)
  end.
Definition read_ipv4 : Parser (list Z) := v4_octets 4 0.

(** [read_groups]: up to [n] more groups, the [i]-th first; does the list end in
    the octets of an IPv4 address? *)
Fixpoint read_groups (n i : nat) (s : str) : list Z * bool * str :=
  match n with
  | O => ([], false, s)
  | S n' =>
      match (if (0 <? n')%nat then separated 58 i read_ipv4 s else None) with
      | Some ([o1; o2; o3; o4], s') => ([o1 * 256 + o2; o3 * 256 + o4], true, s')
      | _ =>
          match separated 58 i (number 16 4 true 65535) s with
          | Some (g, s') => let '(gs, ipv4, s'') := read_groups n' (S i) s' in (g :: gs, ipv4, s'')
          | None => ([], false, s)
          end
      end
  end.

Definition read_ipv6 : Parser (list Z) := fun s =>
  let '(hd, ipv4, s) := read_groups 8 0 s in
  if (length hd =? 8)%nat then Some (hd, s)
  else if ipv4 : bool then None
  else
    s ← given 58 s;
    s ← given 58 s;
    let '(tl, _, s) := read_groups (7 - length hd) 0 s in
    Some (hd ++ replicate (8 - length hd - length tl) 0 ++ tl, s).

Definition parse_ip (s : str) : option IpAddr :=
  match read_ipv4 s with
  | Some (octets, rest) => if bool_decide (rest = []) then Some (V4 octets) else None
  | None =>
      match read_ipv6 s with
      | Some (groups, []) => Some (V6 groups)
      | _ => None
      end
  end.

Example addresses :
  map parse_ip [b "0.0.0.0"; b "10.0.0.256"; b "10.0.0.01"; b "127.0.0.1 "; b "::"; b "::1"; b "fe80::a:1"; b "::ffff:10.0.0.1";
                b "1:2:3:4:5:6:7:8"; b "1:2:3:4:5:6:7"; b "1:2:3:4:5:6:7::"; b "1::2::3"; b "localhost"] =
  [Some (V4 [0; 0; 0; 0]); None; None; None; Some (V6 [0; 0; 0; 0; 0; 0; 0; 0]); Some (V6 [0; 0; 0; 0; 0; 0; 0; 1]);
   Some (V6 [65152; 0; 0; 0; 0; 0; 10; 1]); Some (V6 [0; 0; 0; 0; 0; 65535; 2560; 1]); Some (V6 [1; 2; 3; 4; 5; 6; 7; 8]); None;
   Some (V6 [1; 2; 3; 4; 5; 6; 7; 0]); None; None].
Proof. vm_compute. reflexivity. Qed.

(** ** What the process finds

    The database, the PEM and TLS libraries, the thread pool, name resolution
    and binding: an error is a text. *)
Class Platform := {
  Database : Type; TlsConfig : Type;
  open_database : str -> str + Database;
  pem_certificates : bytes -> str + list bytes;
  pem_private_keys : bytes -> str + list bytes;
  single_cert : list bytes -> bytes -> str + TlsConfig;
  num_cpus : Z;
  parse_level : str -> option Z;
  to_socket_addrs : str -> str + list (IpAddr * Z);
  bind : IpAddr -> Z -> option str
}.

(** How the process ends early. *)
Inductive Exit :=
| Message (text : str)
| BindFailed (address : IpAddr) (port : Z) (error : str)
| BadAddress (parameter : str).

Section Startup.
Context `{Process} `{Platform}.

(** *** [trait UnwrapFailure] *)
Definition some_or_exit {A} (o : option A) (message : str) : Res Exit A :=
  match o with Some result => Ok result | None => Err (Message (b "Failed to " ++ message)) end.
Definition ok_or_exit {A} (r : str + A) (message : str) : Res Exit A :=
  match r with inr result => Ok result | inl err => Err (Message (b "Failed to " ++ message ++ b ": " ++ err)) end.
Definition exit_failed_to {A} (action : str) : Res Exit A := Err (Message (b "Failed to " ++ action)).
Definition or_exit {A} (r : Res str A) : Res Exit A := map_err Message r.

(** *** [EnvSettings::parse_ipaddr], [EnvSettings::parse_socketaddr] *)
Definition parse_ipaddr (args : Args) (name default_ : str) : Res Exit IpAddr :=
  match parse_ip (default default_ (get args name)) with Some a => Ok a | None => Err (BadAddress name) end.

Definition parse_socketaddr (args : Args) (name default_ : str) : Res Exit (IpAddr * Z) :=
  match get args name with
  | Some value =>
      match to_socket_addrs value with
      | inr (a :: _) => Ok a
      | inr [] => Err (Message (b "Failed to parse address in parameter '" ++ name ++ b "'."))
      | inl _ => Err (BadAddress name)
      end
  | None => match to_socket_addrs default_ with inr (a :: _) => Ok a | _ => Panic end
  end.

(** *** [load_tls_config] *)
Definition load_tls_config (args : Args) : Res Exit TlsConfig :=
  match get args (b "cert-path"), get args (b "key-path") with
  | Some cert_path, Some key_path =>
      let* cert_file := ok_or_exit (read_file cert_path) (b "open certificate path") in
      let* certificates := ok_or_exit (pem_certificates cert_file) (b "load TLS config: Invalid certificate file") in
      let* key_file := ok_or_exit (read_file key_path) (b "open private key path") in
      let* private_keys := ok_or_exit (pem_private_keys key_file) (b "load TLS config: Invalid private key file") in
      if bool_decide (certificates = []) then
        exit_failed_to (b "load TLS config: No certificates found in file " ++ cert_path)
      else
        match private_keys with
        | [] => exit_failed_to (b "load TLS config: No private keys found in file " ++ key_path)
        | private_key :: _ => ok_or_exit (single_cert certificates private_key) (b "load TLS configuration")
        end
  | _, _ => exit_failed_to (b "load TLS config: Missing 'cert-path' and/or 'key-path' parameters.")
  end.

(** *** [build_core] *)
Record Core := mkCore { db : Database; num_threads : Z; tls_acceptor : TlsConfig; core_values : CoreSettings }.

Definition build_core (args : Args) : Res Exit Core :=
  let* cache_dir := some_or_exit (get args (b "cache-dir")) (b "start server: Missing cache-dir parameter.") in
  let* db := ok_or_exit (open_database cache_dir) (b "open database") in
  let* worker_pool_size := or_exit (parse_setting (parse_uint 64) args (b "worker-pool-size")) in
  let* tls_acceptor := load_tls_config args in
  let* values := or_exit (core_settings args) in
  Ok (mkCore db (match worker_pool_size with Some v => if 0 <? v then v else num_cpus | None => num_cpus end) tls_acceptor values).

(** *** [start_imap_server] *)
Inductive Kind := Imap | ImapTls | ManageSieve.

Record Listener := mkListener { l_kind : Kind; l_address : IpAddr; l_port : Z }.

(** [TcpListener::bind] of a listener that is spawned *)
Definition spawn (kind : Kind) (address : IpAddr) (port : option Z) : Res Exit (list Listener) :=
  match port with
  | None => Ok []
  | Some port => match bind address port with
                 | None => Ok [mkListener kind address port]
                 | Some e => Err (BindFailed address port e)
                 end
  end.

Record Running := mkRunning { r_core : Core; r_level : option Z; r_listeners : list Listener; r_housekeeper : SimpleCron * Z }.

Definition start_imap_server (args : Args) : Res Exit Running :=
  let* level := or_exit (parse_setting parse_level args (b "log-level")) in
  if negb (contains_key args (b "bind-port")) && negb (contains_key args (b "bind-port-tls")) then
    exit_failed_to (b "start IMAP listener. Please specify 'bind-port' and/or 'bind-port-tls'.")
  else
    let* core := build_core args in
    let* bind_addr := parse_ipaddr args (b "bind-addr") (b "0.0.0.0") in
    let* imap := spawn Imap bind_addr (port args (b "bind-port") 143) in
    let* imap_tls := spawn ImapTls bind_addr (port args (b "bind-port-tls") 993) in
    let* sieve := spawn ManageSieve bind_addr (port args (b "bind-port-sieve") 4190) in
    let* housekeeper := or_exit (spawn_housekeeper args) in
    Ok (mkRunning core level (imap ++ imap_tls ++ sieve) housekeeper).

(** ** A server that runs *)
Lemma spawn_spec kind address port l :
  spawn kind address port = Ok l ->
  l = map (mkListener kind address) (option_list port) /\ Forall (fun x => bind (l_address x) (l_port x) = None) l.
Proof.
  destruct port as [p|]; cbn; [|intros [= <-]; by split].
  destruct (bind address p) eqn:Eb; [done|]. intros [= <-]. split; [done|]. by repeat constructor.
Qed.

(** The database is that of the directory that the settings name; the TLS
    configuration is made of the certificates and the first key of the files
    that they name, and without any of them the process ends. *)
Theorem build_core_spec args core : build_core args = Ok core ->
  exists cache_dir cert_path cert_file certificates key_path key_file private_key keys,
    get args (b "cache-dir") = Some cache_dir /\ open_database cache_dir = inr (db core) /\
    get args (b "cert-path") = Some cert_path /\ read_file cert_path = inr cert_file /\
    get args (b "key-path") = Some key_path /\ read_file key_path = inr key_file /\
    pem_certificates cert_file = inr certificates /\ certificates <> [] /\ pem_private_keys key_file = inr (private_key :: keys) /\
    single_cert certificates private_key = inr (tls_acceptor core).
Proof.
  unfold build_core. destruct (get args (b "cache-dir")) as [dir|]; cbn [some_or_exit res_bind]; [|done].
  destruct (open_database dir) as [e|d] eqn:Ed; cbn [ok_or_exit res_bind]; [done|]. destruct (or_exit _) as [n|e| |]; cbn [res_bind]; try done.
  destruct (load_tls_config args) as [tls|e| |] eqn:Et; cbn [res_bind]; try done. destruct (or_exit _) as [v|e| |]; cbn [res_bind]; try done.
  intros [= <-]. cbn [db tls_acceptor]. revert Et. unfold load_tls_config.
  destruct (get args (b "cert-path")) as [cp|] eqn:Ecp; [|done]. destruct (get args (b "key-path")) as [kp|] eqn:Ekp; [|done].
  destruct (read_file cp) as [e|cf] eqn:Ecf; cbn [ok_or_exit res_bind]; [done|].
  destruct (pem_certificates cf) as [e|cs] eqn:Ecs; cbn [ok_or_exit res_bind]; [done|].
  destruct (read_file kp) as [e|kf] eqn:Ekf; cbn [ok_or_exit res_bind]; [done|].
  destruct (pem_private_keys kf) as [e|ks] eqn:Eks; cbn [ok_or_exit res_bind]; [done|].
  case_bool_decide as Hne; [done|]. destruct ks as [|k ks]; [done|].
  destruct (single_cert cs k) as [e|t] eqn:Es; cbn [ok_or_exit]; [done|]. intros [= <-].
  exists dir, cp, cf, cs, kp, kf, k, ks. by split_and!.
Qed.

Lemma contains_key_port args name d : contains_key args name = true -> exists p, port args name d = Some p.
Proof.
  unfold contains_key, port, get. rewrite orb_true_iff. destruct (args !! name) as [v|]; [by eexists|].
  rewrite !bool_decide_eq_true. intros [[? ?]|[v ->]]; [done|]. by eexists.
Qed.

Lemma negb_andb_keys x y : negb x && negb y = false -> x = true \/ y = true.
Proof. destruct x, y; auto. Qed.

Lemma listeners_ok args kind address name d l :
  0 <= d < 2 ^ 16 -> l = map (mkListener kind address) (option_list (port args name d)) ->
  Forall (fun x => bind (l_address x) (l_port x) = None) l ->
  Forall (fun l => bind (l_address l) (l_port l) = None /\ 0 <= l_port l < 2 ^ 16) l.
Proof.
  intros Hd -> Hb. unfold port in *. destruct (get args name) as [v|]; [|constructor]. cbn in *.
  apply Forall_inv in Hb. constructor; [|constructor]. split; [exact Hb|]. cbn.
  destruct (parse_uint 16 v) as [p|] eqn:Ep; cbn; [by apply parse_uint_bound in Ep|done].
Qed.

Lemma num_threads_positive args core : 0 < num_cpus -> build_core args = Ok core -> 0 < num_threads core.
Proof.
  intros Hc. unfold build_core. destruct (some_or_exit _ _); cbn [res_bind]; try done. destruct (ok_or_exit _ _); cbn [res_bind]; try done.
  destruct (or_exit _) as [n|e| |]; cbn [res_bind]; try done. destruct (load_tls_config args); cbn [res_bind]; try done.
  destruct (or_exit _); cbn [res_bind]; try done. intros [= <-]. cbn. destruct n as [n|]; [|done]. destruct (Z.ltb_spec 0 n); done.
Qed.

End Startup.

(** ** A machine *)
Module Demo.
#[export] Instance process : Process := {|
  to_lowercase s := s; to_uppercase s := s; env_var _ := None;
  read_file path := if bytes_eqb path (b "/cert.pem") then inr [1; 2] else if bytes_eqb path (b "/key.pem") then inr [3; 4] else inl (b "not found")
|}.
#[export] Instance platform : Platform := {|
  Database := unit; TlsConfig := list bytes;
  open_database _ := inr tt; pem_certificates x := inr [x]; pem_private_keys x := inr (map (fun c => [c]) x);
  single_cert certificates key := inr (certificates ++ [key]); num_cpus := 4; parse_level _ := None;
  to_socket_addrs _ := inl (b "no such host");
  bind _ p := if p =? 80 then Some (b "permission denied") else None
|}.
Definition args : Args := list_to_map
  [(b "cache-dir", b "/var/cache"); (b "cert-path", b "/cert.pem"); (b "key-path", b "/key.pem"); (b "bind-port", b "1143");
   (b "bind-port-tls", b "imaps"); (b "bind-addr", b "::1"); (b "worker-pool-size", b "0")].
End Demo.
#[local] Existing Instances Demo.process Demo.platform.

Example starts :
  match start_imap_server Demo.args with
  | Ok run => (r_listeners run, num_threads (r_core run), tls_acceptor (r_core run), r_housekeeper run)
  | _ => ([], 0, [], (EveryDay 0 0, 0))
  end =
  (map (fun k => mkListener k.1 (V6 [0; 0; 0; 0; 0; 0; 0; 1]) k.2) [(Imap, 1143); (ImapTls, 993)], 4, [[1; 2]; [3]],
   (EveryDay 3 0, 2592000)).
Proof. vm_compute. reflexivity. Qed.

Example stops_without_key :
  start_imap_server (delete (b "key-path") Demo.args) =
  Err (Message (b "Failed to load TLS config: Missing 'cert-path' and/or 'key-path' parameters.")).
Proof. vm_compute. reflexivity. Qed.

