(* ===== verification/Listing.v ===== *)
(** * LIST and LSUB: [src/commands/list.rs]

    Which mailbox names a pattern matches, and the task that answers LIST:
    options, the virtual folders, the mailboxes of each account with their
    attributes, and the STATUS of each when asked for. *)

From Stdlib Require Import Sorted.
From S2P Require Import Prelude Utf8 Utf7 Types Parsers Responses Wire Jmap Store BTree UidStore Synchronize Mailboxes StatusTask.

(** ** [matches_pattern] *)
Definition is_wild (c : Z) : bool := (c =? 37) || (c =? 42).

(** What precedes the first wildcard, and the rest. *)
Fixpoint take_segment (pattern : str) : str * str :=
  match pattern with
  | c :: pattern' =>
      if is_wild c then ([], pattern) else let '(segment, rest) := take_segment pattern' in (c :: segment, rest)
  | [] => ([], [])
  end.

(** The inner loop: look for the segment in the name; at the end of the
    pattern it has to be at the end of the name. *)
Inductive Seek := Found (rest : str) | AtEnd | Missing.

Fixpoint seek (match_bytes : str) (pattern_eof : bool) (match_count : nat) (name : str) : Seek :=
  match name with
  | [] => Missing
  | ch :: name' =>
      if bool_decide (match_bytes !! match_count = Some ch) then
        if (S match_count =? length match_bytes)%nat then
          if negb pattern_eof then Found name'
          else match name' with [] => AtEnd | _ => seek match_bytes pattern_eof 0 name' end
        else seek match_bytes pattern_eof (S match_count) name'
      else seek match_bytes pattern_eof 0 name'
  end.

(** One pattern; each iteration consumes a byte of it at least. *)
Fixpoint match_loop (fuel : nat) (pattern name : str) : bool :=
  match fuel with
  | O => false
  | S fuel' =>
      match pattern with
      | [] => bool_decide (name = [])
      | ch :: pattern' =>
          if is_wild ch then
            match take_segment pattern' with
            | ([], _) => (ch =? 42) || negb (existsb (Z.eqb SLASH) name)
            | (segment, rest) =>
                match seek segment (bool_decide (rest = [])) 0 name with
                | Found name' => match_loop fuel' rest name'
                | AtEnd => true
                | Missing => false
                end
            end
          else
            match name with
            | mch :: name' => if mch =? ch then match_loop fuel' pattern' name' else false
            | [] => false
            end
      end
  end.

Definition matches_one (pattern name : str) : bool := match_loop (S (length pattern)) pattern name.

Definition matches_pattern (patterns : list str) (mailbox_name : str) : bool :=
  match patterns with
  | [] => true
  | _ => existsb (fun pattern => matches_one pattern mailbox_name) patterns
  end.

(** ** What patterns match *)
Lemma take_segment_shorter pattern : (length (take_segment pattern).2 <= length pattern)%nat.
Proof.
  induction pattern as [|c pattern IH]; cbn; [done|]. destruct (is_wild c); cbn; [lia|].
  destruct (take_segment pattern); cbn in *; lia.
Qed.

(** The fuel is enough: more of it changes nothing. *)
Lemma match_loop_fuel fuel fuel' pattern name :
  (length pattern < fuel)%nat -> (length pattern < fuel')%nat -> match_loop fuel pattern name = match_loop fuel' pattern name.
Proof.
  revert fuel' pattern name; induction fuel as [|fuel IH]; intros fuel' pattern name Hf Hf'; [lia|].
  destruct fuel' as [|fuel']; [lia|]. cbn [match_loop]. destruct pattern as [|ch pattern]; [done|]. cbn in Hf, Hf'.
  destruct (is_wild ch).
  - pose proof (take_segment_shorter pattern) as Hs. destruct (take_segment pattern) as [[|x seg] rest]; [done|]. cbn in Hs.
    destruct (seek _ _ _ _); try done. apply IH; lia.
  - destruct name as [|mch name]; [done|]. destruct (_ =? _); [|done]. apply IH; lia.
Qed.

Definition literal (p : str) : Prop := Forall (fun c => is_wild c = false) p.

Lemma match_literal p q name :
  literal p -> matches_one (p ++ q) name = match strip_prefix p name with Some r => matches_one q r | None => false end.
Proof.
  unfold matches_one. intros Hp; revert name; induction Hp as [|c p Hc Hp IH]; intros name; [done|].
  cbn [app match_loop length strip_prefix]. rewrite Hc. destruct name as [|mch name]; [done|].
  rewrite (Z.eqb_sym c mch). destruct (mch =? c); [|done]. apply IH.
Qed.

(** The patterns that clients use mean what RFC 3501 says: a name without
    wildcards matches itself, a final [*] matches everything that begins so,
    and a final [%] what has no further separator. *)
Theorem matches_pattern_simple p name :
  literal p ->
  matches_pattern [p] name = bool_decide (name = p) /\
  matches_pattern [p ++ [42]] name = starts_with p name /\
  (matches_pattern [p ++ [37]] name = true <-> exists r, name = p ++ r /\ Forall (fun c => c <> SLASH) r).
Proof.
  intros Hp. unfold matches_pattern. cbn [existsb]. rewrite !orb_false_r, !match_literal by done. split_and!.
  - pose proof (match_literal p [] name Hp) as Hm. rewrite app_nil_r in Hm. rewrite Hm.
    destruct (strip_prefix p name) as [r|] eqn:E.
    + apply strip_prefix_spec in E as ->. destruct r as [|x r]; [by rewrite app_nil_r, bool_decide_eq_true_2|].
      rewrite bool_decide_eq_false_2; [done|]. intros Hb%(f_equal length). rewrite length_app in Hb. cbn in Hb. lia.
    + rewrite bool_decide_eq_false_2; [done|]. intros ->. pose proof (strip_prefix_app p []) as Hn.
      rewrite app_nil_r in Hn. congruence.
  - destruct (strip_prefix p name) as [r|] eqn:E.
    + apply strip_prefix_spec in E as ->. by rewrite starts_with_app.
    + destruct (starts_with p name) eqn:Es; [|done]. apply starts_with_spec in Es as (r & ->).
      by rewrite strip_prefix_app in E.
  - assert (Hns : forall r, negb (existsb (Z.eqb SLASH) r) = true <-> Forall (fun c => c <> SLASH) r).
    { intros r. rewrite negb_true_iff, <- not_true_iff_false, existsb_exists, List.Forall_forall. split.
      - intros Hn x Hx ->. apply Hn. exists SLASH. by rewrite Z.eqb_refl.
      - intros Hf (x & Hx & Hs). apply Z.eqb_eq in Hs. by apply (Hf x). }
    destruct (strip_prefix p name) as [r|] eqn:E.
    + apply strip_prefix_spec in E as ->. cbn. rewrite Hns. split; [by exists r|].
      by intros (r' & ->%app_inv_head & ?).
    + split; [done|]. intros (r & -> & _). by rewrite strip_prefix_app in E.
Qed.

(** *** Soundness

    Wildcards match anything; two in a row are kept apart. *)
Inductive glob : str -> str -> Prop :=
| glob_nil : glob [] []
| glob_char c p n : is_wild c = false -> glob p n -> glob (c :: p) (c :: n)
| glob_wild c p n1 n2 : is_wild c = true -> glob p n2 -> glob (c :: p) (n1 ++ n2).

Lemma glob_literal seg p n : literal seg -> glob p n -> glob (seg ++ p) (seg ++ n).
Proof. induction 1; cbn; [done|]. intros. constructor; auto. Qed.

Lemma take_segment_spec pattern seg rest :
  take_segment pattern = (seg, rest) -> pattern = seg ++ rest /\ literal seg.
Proof.
  revert seg; induction pattern as [|c pattern IH]; intros seg; cbn.
  { intros [= <- <-]. split; [done|constructor]. }
  destruct (is_wild c) eqn:E; [intros [= <- <-]; split; [done|constructor]|].
  destruct (take_segment pattern) as [seg' rest']. intros [= <- <-]. destruct (IH seg' eq_refl) as [-> Hs]. split; [done|]. by constructor.
Qed.

(** The bytes just read are the beginning of the segment. *)
Lemma seek_spec seg eof k name :
  (k < length seg)%nat ->
  match seek seg eof k name with
  | Found rest => exists pre, take k seg ++ name = pre ++ seg ++ rest
  | AtEnd => exists pre, take k seg ++ name = pre ++ seg
  | Missing => True
  end.
Proof.
  revert k; induction name as [|ch name IH]; intros k Hk; cbn [seek]; [done|].
  assert (Hskip : forall k', (0 < length seg)%nat ->
    match seek seg eof 0 name with
    | Found rest => exists pre, take k' seg ++ ch :: name = pre ++ seg ++ rest
    | AtEnd => exists pre, take k' seg ++ ch :: name = pre ++ seg
    | Missing => True
    end).
  { intros k' H0. specialize (IH O H0). rewrite take_0 in IH. cbn [app] in IH.
    destruct (seek seg eof 0 name); [|..]; try done; destruct IH as (pre & ->); exists (take k' seg ++ ch :: pre);
      by rewrite <- app_assoc. }
  case_bool_decide as Hch; [|apply Hskip; lia].
  assert (Hsnoc : take k seg ++ ch :: name = take (S k) seg ++ name) by by rewrite (take_S_r _ _ _ Hch), <- app_assoc.
  destruct (S k =? length seg)%nat eqn:Efull.
  - apply Nat.eqb_eq in Efull. assert (Hall : take (S k) seg = seg) by (apply take_ge; lia). rewrite Hall in Hsnoc.
    destruct eof; cbn [negb].
    + destruct name as [|x name]; [exists []; by rewrite Hsnoc, app_nil_r|]. apply Hskip. lia.
    + exists []. by rewrite Hsnoc.
  - apply Nat.eqb_neq in Efull. rewrite Hsnoc. apply IH. lia.
Qed.

(** No two wildcards in a row, except at the end. *)
Fixpoint apart (pattern : str) : Prop :=
  match pattern with
  | c1 :: (c2 :: _) as pattern' => ~ (is_wild c1 = true /\ is_wild c2 = true) /\ apart pattern'
  | _ => True
  end.

Lemma apart_app seg rest : apart (seg ++ rest) -> apart rest.
Proof. induction seg as [|c seg IH]; [done|]. intros H. apply IH. cbn [app apart] in H. destruct (seg ++ rest); [done|apply H]. Qed.

Lemma take_segment_wild pattern seg c rest : take_segment pattern = (seg, c :: rest) -> is_wild c = true.
Proof.
  revert seg; induction pattern as [|x pattern IH]; intros seg; cbn; [done|].
  destruct (is_wild x) eqn:E; [by intros [= <- <- <-]|]. destruct (take_segment pattern) as [seg' rest'].
  intros [= <- ->]. by eapply IH.
Qed.

Lemma seek_at_end seg eof k name : seek seg eof k name = AtEnd -> eof = true.
Proof.
  revert k; induction name as [|ch name IH]; intros k; cbn [seek]; [done|].
  case_bool_decide; [|apply IH]. destruct (_ =? _)%nat; [|apply IH]. by destruct eof.
Qed.

Lemma match_loop_sound fuel pattern name : apart pattern -> match_loop fuel pattern name = true -> glob pattern name.
Proof.
  revert pattern name; induction fuel as [|fuel IH]; intros pattern name Ha Hm; [done|]. cbn [match_loop] in Hm.
  destruct pattern as [|ch pattern].
  { apply bool_decide_eq_true in Hm as ->. constructor. }
  pose proof (apart_app [ch] pattern Ha) as Ha'.
  destruct (is_wild ch) eqn:Ew.
  - destruct (take_segment pattern) as [seg rest] eqn:Et. pose proof Et as Et'. apply take_segment_spec in Et as [-> Hseg].
    destruct seg as [|x seg]; cbn [app] in *.
    { destruct rest as [|c rest]; [rewrite <- (app_nil_r name); apply (glob_wild ch [] name []); [done|constructor]|].
      destruct Ha as [Hno _]. destruct Hno. split; [done|]. by eapply take_segment_wild. }
    pose proof (seek_spec (x :: seg) (bool_decide (rest = [])) 0 name ltac:(cbn; lia)) as Hs.
    rewrite take_0 in Hs. cbn [app] in Hs.
    destruct (seek _ _ 0 name) as [name'| |] eqn:Es; [| |done]; destruct Hs as (pre & ->).
    + apply glob_wild; [done|]. apply (glob_literal (x :: seg)); [done|]. apply IH; [|done].
      by apply (apart_app (x :: seg)).
    + apply seek_at_end in Es. apply bool_decide_eq_true in Es as ->. apply glob_wild; [done|].
      pose proof (glob_literal (x :: seg) [] [] Hseg glob_nil) as Hg. cbn [app] in Hg. rewrite app_nil_r in *. exact Hg.
  - destruct name as [|mch name]; [done|]. destruct (Z.eqb_spec mch ch) as [->|]; [|done]. constructor; [done|]. by apply IH.
Qed.

(** Whatever LIST shows matches the pattern, wildcards standing for any
    text, when the pattern has no two wildcards in a row. *)
Theorem matches_pattern_sound patterns name :
  patterns <> [] -> Forall apart patterns -> matches_pattern patterns name = true ->
  exists pattern, pattern ∈ patterns /\ glob pattern name.
Proof.
  intros Hne Ha Hm. unfold matches_pattern in Hm. destruct patterns as [|q patterns]; [done|].
  apply existsb_exists in Hm as (pattern & Hin & Hm). exists pattern. split; [by apply list_elem_of_In|].
  apply (proj1 (List.Forall_forall _ _) Ha) in Hin. by eapply match_loop_sound.
Qed.

(** It is not all: the search for a segment does not go back, [%] crosses
    separators, and two wildcards in a row end the pattern. *)
Example segment_search_misses : matches_pattern [b "*test"] (b "ttest") = false.
Proof. reflexivity. Qed.
Example percent_crosses : matches_pattern [b "%b"] (b "a/b") = true.
Proof. reflexivity. Qed.
Example wildcards_end_pattern : matches_pattern [b "**x"] (b "INBOX") = true.
Proof. reflexivity. Qed.

(** ** The LIST task *)

(** Building the list cannot fail, except by a panic ([Empty_set] has no
    values). *)

(** [tag], [reference_name], [patterns] and the options. *)
Definition list_parts (arguments : ListArguments)
  : str * str * list str * list SelectionOption * list ReturnOption :=
  match arguments with
  | ListBasic t reference_name mailbox_name => (t, reference_name, [mailbox_name], [], [])
  | ListExtended_ t reference_name mailbox_name selection_options return_options =>
      (t, reference_name, mailbox_name, selection_options, return_options)
  end.

Record ListOptions := mkListOptions {
  filter_subscribed : bool;
  filter_special_use : bool;
  recursive_match : bool;
  include_special_use : bool;
  include_subscribed : bool;
  include_children : bool;
  include_status : option (list Status)
}.

Definition select_option (o : ListOptions) (s : SelectionOption) : ListOptions :=
  match s with
  | SelSubscribed =>
      mkListOptions true (filter_special_use o) (recursive_match o) (include_special_use o) true (include_children o) (include_status o)
  | SelRemote => o
  | SelSpecialUse =>
      mkListOptions (filter_subscribed o) true (recursive_match o) true (include_subscribed o) (include_children o) (include_status o)
  | SelRecursiveMatch =>
      mkListOptions (filter_subscribed o) (filter_special_use o) true (include_special_use o) (include_subscribed o)
        (include_children o) (include_status o)
  end.

Definition return_option (o : ListOptions) (r : ReturnOption) : ListOptions :=
  match r with
  | RetSubscribed =>
      mkListOptions (filter_subscribed o) (filter_special_use o) (recursive_match o) (include_special_use o) true
        (include_children o) (include_status o)
  | RetChildren =>
      mkListOptions (filter_subscribed o) (filter_special_use o) (recursive_match o) (include_special_use o)
        (include_subscribed o) true (include_status o)
  | RetStatus status =>
      mkListOptions (filter_subscribed o) (filter_special_use o) (recursive_match o) (include_special_use o)
        (include_subscribed o) (include_children o) (Some status)
  | RetSpecialUse =>
      mkListOptions (filter_subscribed o) (filter_special_use o) (recursive_match o) true (include_subscribed o)
        (include_children o) (include_status o)
  end.

Definition list_options (version : ProtocolVersion) (selection : list SelectionOption) (return_ : list ReturnOption)
  : ListOptions :=
  foldl return_option (foldl select_option (mkListOptions false false false (is_rev2 version) false false None) selection) return_.

(** [Role]s with a special-use attribute. *)
Definition special_use (r : Role) : option Attribute :=
  match r with
  | RoleArchive => Some Archive
  | RoleDrafts => Some Drafts
  | RoleJunk => Some AttrJunk
  | RoleSent => Some Sent
  | RoleTrash => Some Trash
  | RoleImportant => Some AttrImportant
  | _ => None
  end.

(** Is a mailbox below the name subscribed? *)
Fixpoint subscribed_below (data : hash_map Mailbox) (pfx : str) (names : list (str * str)) : Res Empty_set bool :=
  match names with
  | [] => Ok false
  | (mailbox_name, mailbox_id) :: names' =>
      if starts_with pfx mailbox_name then
        let* mailbox := unwrap (data !! mailbox_id) in
        if is_subscribed mailbox then Ok true else subscribed_below data pfx names'
      else subscribed_below data pfx names'
  end.

(** The item of one mailbox, if it is listed. *)
Definition list_mailbox (o : ListOptions) (patterns : list str) (account : Account) (e : str * str) : Res Empty_set (option ListItem) :=
  let '(mailbox_name, mailbox_id) := e in
  if matches_pattern patterns mailbox_name then
    let* mailbox := unwrap (mailbox_data account !! mailbox_id) in
    let* has_recursive_match :=
      (if recursive_match o then subscribed_below (mailbox_data account) (mailbox_name ++ [SLASH]) (mailbox_names account)
       else Ok false) in
    if negb (filter_subscribed o) || is_subscribed mailbox || has_recursive_match then
      let children :=
        if include_children o then [if has_children mailbox then AttrHasChildren else HasNoChildren] else [] in
      let subscribed := if include_subscribed o && is_subscribed mailbox then [Subscribed] else [] in
      let item use :=
        Ok (Some (mkListItem mailbox_name (children ++ subscribed ++ use)
                    (if negb has_recursive_match then [] else [TagChildInfo [ChildSubscribed]]))) in
      if include_special_use o then
        match special_use (role mailbox) with
        | Some a => item [a]
        | None => if filter_special_use o then Ok None else item []
        end
      else item []
    else Ok None
  else Ok None.

Fixpoint list_mailboxes (o : ListOptions) (patterns : list str) (account : Account) (names : list (str * str))
  : Res Empty_set (list ListItem) :=
  match names with
  | [] => Ok []
  | e :: names' =>
      let* item := list_mailbox o patterns account e in
      let* rest := list_mailboxes o patterns account names' in
      Ok (option_list item ++ rest)
  end.

Section List.
Context (folder_shared folder_all : str).

(** A folder that only holds others. *)
Definition container (o : ListOptions) (patterns : list str) (name : str) : list ListItem :=
  if negb (filter_subscribed o) && matches_pattern patterns name then
    [mkListItem name (if include_children o then [AttrHasChildren; NoSelect] else [NoSelect]) []]
  else [].

Fixpoint list_accounts (o : ListOptions) (patterns : list str) (added_shared_folder : bool) (l : list Account)
  : Res Empty_set (list ListItem) :=
  match l with
  | [] => Ok []
  | account :: l' =>
      let folders :=
        match prefix account with
        | Some p => (if negb added_shared_folder then container o patterns folder_shared else []) ++ container o patterns p
        | None => []
        end in
      let* items := list_mailboxes o patterns account (mailbox_names account) in
      let* rest := list_accounts o patterns (added_shared_folder || bool_decide (is_Some (prefix account))) l' in
      Ok (folders ++ items ++ rest)
  end.

Definition list_items (o : ListOptions) (patterns : list str) (l : list Account) : Res Empty_set (list ListItem) :=
  let all_mail :=
    if negb (filter_subscribed o) && matches_pattern patterns folder_all then
      [mkListItem folder_all [AttrAll; NoInferiors] []]
    else [] in
  let* rest := list_accounts o patterns false l in
  Ok (all_mail ++ rest).

Context {W : Type} `{Sled W} `{Clock W} `{EmailClient W} `{MailboxClient W} `{StatusClient W}.

Fixpoint list_status (items : list ListItem) (wanted : list Status) : EM (Data W) StatusResponse (list StatusItem) :=
  match items with
  | [] => ret []
  | item :: items' =>
      do* s := attempt (status folder_all (li_mailbox_name item) wanted) in
      do* rest := list_status items' wanted in
      ret (option_list (ok_of s) ++ rest)
  end.

(** The bytes that answer the command; [Err] is an early [return]. *)
Definition list_answer (response : ListResponse) (is_lsub : bool) (t : str) `{DebugFmt} : bytes :=
  list_response_serialize response ++ status_serialize (with_tag (completed (if negb is_lsub then List_ else Lsub)) t).

Definition list_ `{DebugFmt} (arguments : ListArguments) (is_lsub : bool) (version : ProtocolVersion)
  : EM (Data W) StatusResponse bytes :=
  let '(t, reference_name, patterns, selection_options, return_options) := list_parts arguments in
  do* _ := map_errM (fun e => with_tag (into_status_response e) t) (synchronize_mailboxes folder_shared false false) in
  let o := list_options version selection_options return_options in
  if recursive_match o && negb (filter_subscribed o) then
    lift (Err (with_tag (sr_bad (msg "RECURSIVEMATCH cannot be the only selection option.")) t))
  else
    let patterns := if bool_decide (reference_name = []) then patterns else map (fun p => reference_name ++ p) patterns in
    do* l := (fun d => (Ok (mailboxes d), d)) in
    do* items := lift (map_err (fun e : Empty_set => match e with end) (list_items o patterns l)) in
    do* status_items := match include_status o with Some wanted => list_status items wanted | None => ret [] end in
    ret (list_answer (mkListResponse (is_rev2 version) is_lsub items status_items) is_lsub t).
End List.

(** ** What LIST shows *)
Section Listed.
Context (folder_shared folder_all : str).

Lemma subscribed_below_ok data pfx names :
  (forall n i, (n, i) ∈ names -> is_Some (data !! i)) ->
  exists r, subscribed_below data pfx names = Ok r /\
    (r = true -> exists n i m, (n, i) ∈ names /\ starts_with pfx n = true /\ data !! i = Some m /\ is_subscribed m = true).
Proof.
  induction names as [|[n i] names IH]; intros Hd; cbn [subscribed_below]; [by exists false|].
  destruct IH as (r & Hr & Hsub); [intros n' i' Hin; apply (Hd n'); by right|].
  assert (Hrest : r = true -> exists n0 i0 m, (n0, i0) ∈ (n, i) :: names /\ starts_with pfx n0 = true /\ data !! i0 = Some m /\
                                   is_subscribed m = true).
  { intros H. destruct (Hsub H) as (n0 & i0 & m & Hin & ?). exists n0, i0, m. split; [by right|done]. }
  destruct (starts_with pfx n) eqn:Es; [|by exists r]. destruct (Hd n i ltac:(by left)) as [m Hm]. rewrite Hm. cbn [unwrap res_bind].
  destruct (is_subscribed m) eqn:Esub; [|by exists r]. exists true. split; [done|]. intros _. exists n, i, m.
  split; [by left|done].
Qed.

(** A mailbox of the account that LIST may show. *)
Definition shown (o : ListOptions) (patterns : list str) (a : Account) (item : ListItem) : Prop :=
  exists id m, (li_mailbox_name item, id) ∈ mailbox_names a /\ mailbox_data a !! id = Some m /\
    matches_pattern patterns (li_mailbox_name item) = true /\
    (filter_subscribed o = true -> is_subscribed m = true \/
       exists n i m', (n, i) ∈ mailbox_names a /\ starts_with (li_mailbox_name item ++ [SLASH]) n = true /\
         mailbox_data a !! i = Some m' /\ is_subscribed m' = true).

Lemma list_mailbox_ok o patterns a e :
  consistent a -> e ∈ mailbox_names a ->
  exists r, list_mailbox o patterns a e = Ok r /\ forall item, r = Some item -> shown o patterns a item.
Proof.
  intros Hc He. destruct e as [n i].
  assert (Hd : forall n i, (n, i) ∈ mailbox_names a -> is_Some (mailbox_data a !! i)) by (intros; apply Hc; eauto).
  unfold list_mailbox. destruct (matches_pattern patterns n) eqn:Em; [|by exists None].
  destruct (Hd _ _ He) as [m Hm]. rewrite Hm. cbn [unwrap res_bind].
  assert (Hrec : exists r, (if recursive_match o then subscribed_below (mailbox_data a) (n ++ [SLASH]) (mailbox_names a) else Ok false)
                   = Ok r /\ (r = true -> exists n' i' m', (n', i') ∈ mailbox_names a /\ starts_with (n ++ [SLASH]) n' = true /\
                                mailbox_data a !! i' = Some m' /\ is_subscribed m' = true)).
  { destruct (recursive_match o); [by apply subscribed_below_ok|by exists false]. }
  destruct Hrec as (r & -> & Hr). cbn [res_bind].
  destruct (negb (filter_subscribed o) || is_subscribed m || r) eqn:Ef; [|by exists None]. cbv zeta.
  assert (Hshown : forall attrs tags, shown o patterns a (mkListItem n attrs tags)).
  { intros attrs tags. exists i, m. split_and!; try done. cbn [li_mailbox_name]. intros Hf. rewrite Hf in Ef. cbn in Ef.
    apply orb_true_iff in Ef as [?|?]; [by left|right; auto]. }
  assert (Hitem : forall attrs tags, exists r, Ok (Some (mkListItem n attrs tags)) = @Ok Empty_set _ r /\
             forall item, r = Some item -> shown o patterns a item).
  { intros. eexists. split; [reflexivity|]. intros item [= <-]. apply Hshown. }
  destruct (include_special_use o); [|apply Hitem]. destruct (special_use (role m)); [apply Hitem|].
  destruct (filter_special_use o); [by exists None|apply Hitem].
Qed.

Lemma list_mailboxes_ok o patterns a names :
  consistent a -> (forall e, e ∈ names -> e ∈ mailbox_names a) ->
  exists items, list_mailboxes o patterns a names = Ok items /\ forall item, item ∈ items -> shown o patterns a item.
Proof.
  intros Hc. induction names as [|e names IH]; intros Hin; cbn [list_mailboxes].
  { exists []. split; [done|]. intros item Hi; inv Hi. }
  destruct (list_mailbox_ok o patterns a e Hc (Hin e ltac:(by left))) as (r & -> & Hr).
  destruct IH as (items & -> & Hitems); [intros; apply Hin; by right|]. cbn [res_bind].
  eexists. split; [reflexivity|]. intros item Hi. apply elem_of_app in Hi as [Hi|Hi]; [|by apply Hitems].
  destruct r as [x|]; [|inv Hi]. apply list_elem_of_singleton in Hi as ->. by apply Hr.
Qed.

Lemma container_noselect o patterns name item : item ∈ container o patterns name -> NoSelect ∈ li_attributes item.
Proof.
  unfold container. destruct (_ && _); intros Hi; [|inv Hi]. apply list_elem_of_singleton in Hi as ->. cbn.
  destruct (include_children o); set_solver.
Qed.

Lemma list_accounts_ok o patterns added l :
  Forall consistent l ->
  exists items, list_accounts folder_shared o patterns added l = Ok items /\
    forall item, item ∈ items -> NoSelect ∈ li_attributes item \/ exists a, a ∈ l /\ shown o patterns a item.
Proof.
  intros Hl. revert added; induction Hl as [|a l Ha Hl IH]; intros added; cbn [list_accounts].
  { exists []. split; [done|]. intros item Hi; inv Hi. }
  destruct (list_mailboxes_ok o patterns a (mailbox_names a) Ha ltac:(done)) as (items & -> & Hitems).
  destruct (IH (added || bool_decide (is_Some (prefix a)))) as (rest & -> & Hrest). cbn [res_bind].
  eexists. split; [reflexivity|]. intros item Hi. apply elem_of_app in Hi as [Hi|Hi]; [left|].
  - destruct (prefix a) as [p|]; [|inv Hi]. apply elem_of_app in Hi as [Hi|Hi]; [|by eapply container_noselect].
    destruct added; cbn [negb] in Hi; [inv Hi|by eapply container_noselect].
  - apply elem_of_app in Hi as [Hi|Hi]; [right; exists a; split; [by left|by apply Hitems]|].
    apply Hrest in Hi as [?|(a' & ? & ?)]; [by left|]. right. exists a'. split; [by right|done].
Qed.

End Listed.


Lemma matches_pattern_simple_witness : matches_pattern [b "Work/" ++ [37]] (b "Work/2023") = true.
Proof.
  assert (Hl : literal (b "Work/")) by by repeat constructor.
  apply (matches_pattern_simple (b "Work/") (b "Work/2023") Hl). exists (b "2023").
  split; [reflexivity|]. repeat constructor; discriminate.
Defined.

Lemma matches_pattern_sound_witness : exists pattern, pattern ∈ [b "Work/%3"] /\ glob pattern (b "Work/2023").
Proof.
  apply matches_pattern_sound; [done| |reflexivity].
  apply List.Forall_cons; [|constructor]. cbn. repeat split; try (intros [??]; discriminate).
Defined.
