(* ===== verification/Sasl.v ===== *)
(** * SASL challenges

    [decode_challenge_plain] and [decode_challenge_oauth] of
    [src/commands/authenticate.rs]: the credentials a client sends with
    AUTHENTICATE, after base64 decoding. *)

From S2P Require Import Prelude Utf8 Utf7 Types Sequence.

(** The credentials of the JMAP client library. *)
Inductive Credentials :=
| Basic (username secret : str)
| Bearer (token : str).

#[export] Instance Credentials_eq_dec : EqDecision Credentials.
Proof. solve_decision. Defined.

(** [base64::decode] *)
Class Base64 := base64_decode : bytes -> option bytes.

(** ** PLAIN (RFC 4616) *)
Fixpoint plain_loop (challenge username secret : bytes) (arg_num : Z) : bytes * bytes :=
  match challenge with
  | [] => (username, secret)
  | ch :: challenge' =>
      if negb (ch =? 0) then
        if arg_num =? 1 then plain_loop challenge' (username ++ [ch]) secret arg_num
        else if arg_num =? 2 then plain_loop challenge' username (secret ++ [ch]) arg_num
        else plain_loop challenge' username secret arg_num
      else plain_loop challenge' username secret (arg_num + 1)
  end.

Definition decode_challenge_plain (challenge : bytes) : Res (list Piece) Credentials :=
  let '(username, secret) := plain_loop challenge [] [] 0 in
  match from_utf8 username, from_utf8 secret with
  | Some username, Some secret =>
      if negb (bool_decide (username = [])) && negb (bool_decide (secret = [])) then Ok (Basic username secret)
      else Err (msg "Invalid AUTH=PLAIN challenge.")
  | _, _ => Err (msg "Invalid AUTH=PLAIN challenge.")
  end.

(** ** OAUTHBEARER (RFC 7628) *)
Definition BEARER : bytes := b "auth=Bearer ".

Fixpoint find_byte (c : Z) (s : bytes) : option nat :=
  match s with
  | [] => None
  | x :: s' => if x =? c then Some O else S <$> find_byte c s'
  end.

(** [challenge.get(pos..pos + n)], up to the next 0x01 *)
Definition bearer_token (challenge : bytes) (pos : nat) : Res (list Piece) Credentials :=
  let n := default (length challenge)
             (if (pos <=? length challenge)%nat then find_byte 1 (drop pos challenge) else None) in
  let* token := ok_or (get_range challenge pos (pos + n)) (msg "Failed to find end of bearer token") in
  let* token := ok_or (from_utf8 token) (msg "Bearer token is not a valid UTF-8 string.") in
  Ok (Bearer token).

(** [rest] is [challenge.get(pos..)]. *)
Fixpoint oauth_loop (challenge : bytes) (pos : nat) (rest : bytes) (saw_marker : bool) : Res (list Piece) Credentials :=
  match rest with
  | [] => Err (msg "Failed to find 'auth=Bearer' in challenge.")
  | ch :: rest' =>
      if saw_marker then
        if starts_with BEARER rest then bearer_token challenge (pos + 12)
        else oauth_loop challenge (S pos) rest' false
      else if ch =? 1 then oauth_loop challenge (S pos) rest' true
      else oauth_loop challenge (S pos) rest' saw_marker
  end.

Definition decode_challenge_oauth (challenge : bytes) : Res (list Piece) Credentials :=
  oauth_loop challenge 0 challenge true.

(** What [handle_authenticate] does with the decoded challenge. *)
Definition decode_challenge (m : Mechanism) (challenge : bytes) : Res (list Piece) Credentials :=
  if bool_decide (m = Plain) then decode_challenge_plain challenge else decode_challenge_oauth challenge.

(** ** Lemmas *)
Lemma plain_or_oauth_returns m challenge : returns (decode_challenge m challenge).
Proof.
  unfold decode_challenge. case_bool_decide.
  - unfold decode_challenge_plain. destruct (plain_loop _ _ _ _). by repeat case_match.
  - unfold decode_challenge_oauth. generalize 0%nat, true.
    assert (Hl : forall rest pos saw, returns (oauth_loop challenge pos rest saw)).
    { induction rest as [|ch rest IH]; intros pos saw; cbn [oauth_loop]; [done|]. destruct saw; [|case_match; apply IH].
      destruct (starts_with _ _); [|apply IH]. unfold bearer_token.
      apply returns_bind; [apply returns_ok_or|]. intros t _. apply returns_bind; [apply returns_ok_or | done]. }
    intros. apply Hl.
Qed.

Definition no_byte (c : Z) (s : bytes) : Prop := Forall (fun x => x <> c) s.

Lemma plain_loop_user u rest username secret :
  no_byte 0 u -> plain_loop (u ++ rest) username secret 1 = plain_loop rest (username ++ u) secret 1.
Proof.
  intros Hu. revert username; induction Hu as [|c u Hc _ IH]; intros username; cbn [app plain_loop]; [by rewrite app_nil_r|].
  rewrite (proj2 (Z.eqb_neq c 0)) by done. cbn [negb Z.eqb Pos.eqb]. by rewrite IH, <- app_assoc.
Qed.

Lemma plain_loop_secret s rest username secret :
  no_byte 0 s -> plain_loop (s ++ rest) username secret 2 = plain_loop rest username (secret ++ s) 2.
Proof.
  intros Hs. revert secret; induction Hs as [|c s Hc _ IH]; intros secret; cbn [app plain_loop]; [by rewrite app_nil_r|].
  rewrite (proj2 (Z.eqb_neq c 0)) by done. cbn [negb Z.eqb Pos.eqb]. by rewrite IH, <- app_assoc.
Qed.

Lemma plain_loop_authzid a rest username secret :
  no_byte 0 a -> plain_loop (a ++ rest) username secret 0 = plain_loop rest username secret 0.
Proof.
  induction 1 as [|c a Hc _ IH]; cbn [app plain_loop]; [done|].
  rewrite (proj2 (Z.eqb_neq c 0)) by done. exact IH.
Qed.

Lemma find_byte_app c s rest : no_byte c s -> find_byte c (s ++ c :: rest) = Some (length s).
Proof.
  induction 1 as [|x s Hx _ IH]; cbn [app find_byte length]; [by rewrite Z.eqb_refl|].
  rewrite (proj2 (Z.eqb_neq x c)) by done. by rewrite IH.
Qed.

Lemma oauth_skip challenge pos seg rest :
  no_byte 1 seg ->
  oauth_loop challenge pos (seg ++ 1 :: rest) false = oauth_loop challenge (pos + length seg + 1) rest true.
Proof.
  intros Hs. revert pos; induction Hs as [|x seg Hx _ IH]; intros pos; cbn [app oauth_loop].
  - cbn. f_equal. lia.
  - rewrite (proj2 (Z.eqb_neq x 1)) by done. rewrite IH. f_equal. cbn [length]. lia.
Qed.

(** A field of the challenge that is not the token. *)
Definition other_field (seg : bytes) : Prop :=
  seg <> [] /\ no_byte 1 seg /\ forall r, starts_with BEARER (seg ++ 1 :: r) = false.

Definition fields (segs : list bytes) : bytes := flat_map (fun s => s ++ [1]) segs.

Lemma length_fields seg segs : length (fields (seg :: segs)) = (length seg + 1 + length (fields segs))%nat.
Proof. unfold fields. cbn [flat_map]. by rewrite !length_app. Qed.

Lemma oauth_fields challenge pos segs rest :
  Forall other_field segs ->
  oauth_loop challenge pos (fields segs ++ rest) true = oauth_loop challenge (pos + length (fields segs)) rest true.
Proof.
  intros Hs. revert pos; induction Hs as [|seg segs (Hne & Hno & Hb) _ IH]; intros pos.
  - cbn. by rewrite Nat.add_0_r.
  - change (fields (seg :: segs)) with ((seg ++ [1]) ++ fields segs) at 1. rewrite <- !app_assoc. cbn [app].
    destruct seg as [|x seg]; [done|]. cbn [app oauth_loop].
    specialize (Hb (fields segs ++ rest)). cbn [app] in Hb. rewrite Hb.
    rewrite oauth_skip by by inv Hno. rewrite IH.
    f_equal. rewrite length_fields. cbn [length]. lia.
Qed.

(** ** Properties *)

(** AUTHENTICATE PLAIN gives exactly the user name and the password of the
    message of RFC 4616, whatever bytes other than NUL they consist of, when
    they are nonempty UTF-8; the authorization identity is ignored. *)
Theorem decode_plain_credentials authzid user pass :
  no_byte 0 authzid -> no_byte 0 user -> no_byte 0 pass ->
  user <> [] -> pass <> [] -> valid_utf8 user -> valid_utf8 pass ->
  decode_challenge_plain (authzid ++ 0 :: user ++ 0 :: pass) = Ok (Basic user pass).
Proof.
  intros Ha Hu Hp Hnu Hnp [cu Ecu] [cp Ecp]. unfold decode_challenge_plain.
  rewrite plain_loop_authzid by done.
  change (plain_loop (0 :: user ++ 0 :: pass) [] [] 0) with (plain_loop (user ++ 0 :: pass) [] [] 1).
  rewrite plain_loop_user by done. cbn [app].
  change (plain_loop (0 :: pass) user [] 1) with (plain_loop pass user [] 2).
  pose proof (plain_loop_secret pass [] user [] Hp) as E. rewrite app_nil_r in E. rewrite E. cbn [plain_loop app].
  unfold from_utf8. rewrite Ecu, Ecp. rewrite !bool_decide_false by done. done.
Qed.

Lemma decode_plain_credentials_witness :
  decode_challenge_plain ([0] ++ b "john" ++ [0] ++ b "p@ss") = Ok (Basic (b "john") (b "p@ss")).
Proof.
  apply (decode_plain_credentials [] (b "john") (b "p@ss"));
    first [ by eexists | discriminate | by repeat constructor ].
Defined.

(** AUTHENTICATE OAUTHBEARER finds the bearer token of the message of
    RFC 7628 after the GS2 header and any other fields. *)
Theorem decode_oauth_token segs token rest :
  Forall other_field segs -> no_byte 1 token -> valid_utf8 token ->
  decode_challenge_oauth (fields segs ++ BEARER ++ token ++ 1 :: rest) = Ok (Bearer token).
Proof.
  intros Hs Ht [ct Ect]. unfold decode_challenge_oauth. set (challenge := fields segs ++ _).
  unfold challenge at 2. rewrite oauth_fields by done. cbn [Nat.add].
  change (BEARER ++ token ++ 1 :: rest) with (97 :: tail BEARER ++ token ++ 1 :: rest). cbn [oauth_loop].
  change (97 :: tail BEARER ++ token ++ 1 :: rest) with (BEARER ++ token ++ 1 :: rest).
  rewrite starts_with_app. unfold bearer_token.
  assert (Hd : drop (length (fields segs) + 12) challenge = token ++ 1 :: rest).
  { unfold challenge. by rewrite drop_app_add, (drop_app_length' BEARER _ 12). }
  assert (Hl : length challenge = (length (fields segs) + 12 + (length token + S (length rest)))%nat).
  { unfold challenge. rewrite !length_app. cbn [length]. change (length BEARER) with 12%nat. lia. }
  rewrite (proj2 (Nat.leb_le _ _)) by lia. rewrite Hd, find_byte_app by done. change (default _ (Some (length token))) with (length token).
  set (pos := (length (fields segs) + 12)%nat) in *. unfold get_range.
  replace ((pos <=? pos + length token) && (pos + length token <=? length challenge))%nat with true by lia.
  rewrite Hd. replace (pos + length token - pos)%nat with (length token) by lia.
  rewrite take_app_length. cbn [ok_or res_bind]. unfold from_utf8. by rewrite Ect.
Qed.

Lemma decode_oauth_token_witness :
  decode_challenge_oauth
    (fields [b "n,a=user@example.com,"; b "host=server.example.com"; b "port=143"] ++ BEARER ++ b "vF9dft4" ++ [1; 1]) =
  Ok (Bearer (b "vF9dft4")).
Proof.
  apply decode_oauth_token.
  - repeat constructor; try discriminate; intros; reflexivity.
  - by repeat constructor.
  - by eexists.
Defined.

(** A token without the final 0x01 is refused: the end of the range is out of bounds. *)
Lemma oauth_unterminated :
  decode_challenge_oauth (fields [b "n,,"] ++ BEARER ++ b "vF9dft4") = Err (msg "Failed to find end of bearer token").
Proof. reflexivity. Qed.
