(* ===== verification/Session.v ===== *)
(** * A connection

    [src/core/client.rs] (the session, which commands each state allows, the
    dispatch of a chunk of input), the handlers of [src/commands/*.rs] as far
    as they run in the connection's own task, and one iteration of the read
    loop of [src/core/connection.rs].

    A handler is a computation on the session, the rest of the world and the
    trace of what the connection did.  What the handlers call (the JMAP
    client, the caches, the shared state of a selected mailbox, the writer) is
    the class [Backend]; the tasks they start are the values [Task]. *)

From stdpp Require Import sorting.
From S2P Require Import ExpungeTask.
From S2P Require Import Prelude Utf8 Utf7 Types Receiver Sequence Flags Wire Commands.
From S2P Require Import Parsers ParseSearch ParseFetch Store UidStore SelectedMailbox Responses Sasl.

(** ** Session state *)

(** [Arc<SelectedMailbox>]: the mutable part is behind the reference. *)
Record SelectedMailbox (Ref : Type) := mkSelectedMailbox {
  sm_ref : Ref;
  sm_id : MailboxId;
  sm_is_select : bool;
  sm_is_condstore : bool
}.
Arguments mkSelectedMailbox {Ref} _ _ _ _.
Arguments sm_ref {Ref} _.
Arguments sm_id {Ref} _.
Arguments sm_is_select {Ref} _.
Arguments sm_is_condstore {Ref} _.

Inductive SessionState (D Ref : Type) :=
| NotAuthenticated (auth_failures : Z)
| Authenticated (data : D)
| Selected (data : D) (mailbox : SelectedMailbox Ref).
Arguments NotAuthenticated {D Ref} _.
Arguments Authenticated {D Ref} _.
Arguments Selected {D Ref} _ _.

Record Session (D Ref : Type) := mkSession {
  s_receiver : Receiver Command;
  s_version : ProtocolVersion;
  s_state : SessionState D Ref;
  s_is_tls : bool;
  s_is_condstore : bool;
  s_is_qresync : bool;
  s_idle : bool   (* [idle_tx.is_some()] *)
}.
Arguments mkSession {D Ref} _ _ _ _ _ _ _.
Arguments s_receiver {D Ref} _.
Arguments s_version {D Ref} _.
Arguments s_state {D Ref} _.
Arguments s_is_tls {D Ref} _.
Arguments s_is_condstore {D Ref} _.
Arguments s_is_qresync {D Ref} _.
Arguments s_idle {D Ref} _.

(** The tasks that handlers spawn, with what they capture. *)
Inductive Task (Ref : Type) :=
| TaskList (arguments : ListArguments) (is_lsub : bool) (version : ProtocolVersion)
| TaskCreate (arguments : list CreateArguments)
| TaskDelete (arguments : list MailboxArguments)
| TaskRename (arguments : RenameArguments)
| TaskStatus (arguments : StatusArguments) (version : ProtocolVersion)
| TaskAppend (arguments : AppendArguments) (mailbox : MailboxId) (selected_mailbox : option (SelectedMailbox Ref))
    (is_dest_selected : bool)
| TaskSearch (arguments : SearchArguments) (mailbox : SelectedMailbox Ref) (save : bool)
    (prev_saved_search : option (option (list ImapId))) (is_sort is_uid : bool)
| TaskFetch (arguments : FetchArguments) (mailbox : SelectedMailbox Ref) (is_uid is_qresync enabled_condstore : bool)
| TaskStore (arguments : StoreArguments) (mailbox : SelectedMailbox Ref) (is_uid is_condstore : bool)
| TaskCopyMove (arguments : CopyMoveArguments) (src : SelectedMailbox Ref) (dest : MailboxId)
    (is_move is_uid is_qresync : bool)
| TaskThread (arguments : ThreadArguments) (mailbox : SelectedMailbox Ref) (command : Command) (is_uid : bool)
| TaskIdle (tag : str) (mailbox : option (SelectedMailbox Ref)) (is_qresync is_rev2 : bool)
| TaskSubscribe (tag : str) (mailbox_name : str) (is_subscribe : bool)
| TaskGetAcl (arguments : AclArguments) (is_rev2 : bool)
| TaskMyRights (arguments : AclArguments) (is_rev2 : bool)
| TaskSetAcl (arguments : AclArguments)
| TaskDeleteAcl (arguments : AclArguments).
Arguments TaskList {Ref}. Arguments TaskCreate {Ref}. Arguments TaskDelete {Ref}. Arguments TaskRename {Ref}.
Arguments TaskStatus {Ref}. Arguments TaskAppend {Ref}. Arguments TaskSearch {Ref}. Arguments TaskFetch {Ref}.
Arguments TaskStore {Ref}. Arguments TaskCopyMove {Ref}. Arguments TaskThread {Ref}. Arguments TaskIdle {Ref}.
Arguments TaskSubscribe {Ref}. Arguments TaskGetAcl {Ref}. Arguments TaskMyRights {Ref}. Arguments TaskSetAcl {Ref}.
Arguments TaskDeleteAcl {Ref}.

(** ** The rest of the world *)

(** [Err tt] is an error without an answer of its own; [inr] an error response. *)
Class Backend (W : Type) := {
  Client : Type; Account : Type; SessionData : Type; Ref : Type;
  (* the JMAP library and the account caches *)
  connect : Credentials -> M W Client;
  fetch_mailboxes : Client -> M W (option (list Account));
  purge_deleted : Account -> M W unit;
  new_session_data : Client -> list Account -> M W SessionData;
  mailboxes_len : SessionData -> M W nat;
  synchronize_mailboxes : SessionData -> M W (unit + StatusResponse);
  get_mailbox_by_name : SessionData -> str -> M W (option MailboxId);
  synchronize_messages : SessionData -> MailboxId -> M W (MailboxData + StatusResponse);
  get_jmap_state : SessionData -> str -> M W (str + StatusResponse);
  core_state_to_modseq : SessionData -> str -> str -> M W Z;
  data_fetch : SessionData -> FetchArguments -> SelectedMailbox Ref -> bool -> bool -> bool -> M W unit;
  data_expunge : SessionData -> SelectedMailbox Ref -> option Sequence -> M W (str + StatusResponse);
  write_changes : SessionData -> option (SelectedMailbox Ref) -> bool -> bool -> M W unit;
  event_source : SessionData -> bool -> M W unit;
  (* the shared state of a selected mailbox *)
  new_mailbox : MailboxData -> M W Ref;
  lock_state : Ref -> M W MailboxData;
  set_mailbox_state : Ref -> MailboxData -> M W unit;
  saved_search : Ref -> M W SavedSearch;
  clear_saved_search : Ref -> M W unit;
  start_saved_search : Ref -> M W unit;
  (* channels and tasks *)
  send_bytes : bytes -> M W unit;
  recover_stream : M W unit;
  stop_idle : M W unit;
  spawn : SessionData -> Task Ref -> M W unit
}.

(** What the connection did, in order. *)
Inductive Event (Ref : Type) :=
| Wrote (x : bytes)
| Connecting (credentials : Credentials)
| Spawned (t : Task Ref).
Arguments Wrote {Ref}. Arguments Connecting {Ref}. Arguments Spawned {Ref}.

Section Session.
Context {W : Type} `{Backend W} `{DebugFmt} `{Chrono} `{Charsets} `{Base64}.
(** [self.core.folder_shared] and [env!("CARGO_PKG_VERSION")] *)
Context (folder_shared : str) (cargo_pkg_version : str).

Abbreviation Sess := (Session SessionData Ref).
Abbreviation St := (SessionState SessionData Ref).

Record Conn := mkConn { session : Sess; world : W; trace : list (Event Ref) }.

Abbreviation C := (M Conn).

Definition get_session : C Sess := fun c => (Ok (session c), c).
Definition put_session (s : Sess) : C unit := fun c => (Ok tt, mkConn s (world c) (trace c)).
Definition log (e : Event Ref) : C unit := fun c => (Ok tt, mkConn (session c) (world c) (trace c ++ [e])).
Definition on_world {A} (m : M W A) : C A := fun c =>
  let '(r, w) := m (world c) in (r, mkConn (session c) w (trace c)).

(** The fields of the session. *)
Definition set_state (s : Sess) (st : St) : Sess :=
  mkSession (s_receiver s) (s_version s) st (s_is_tls s) (s_is_condstore s) (s_is_qresync s) (s_idle s).
Definition set_receiver (s : Sess) (r : Receiver Command) : Sess :=
  mkSession r (s_version s) (s_state s) (s_is_tls s) (s_is_condstore s) (s_is_qresync s) (s_idle s).
Definition set_version (s : Sess) (v : ProtocolVersion) : Sess :=
  mkSession (s_receiver s) v (s_state s) (s_is_tls s) (s_is_condstore s) (s_is_qresync s) (s_idle s).
Definition set_tls (s : Sess) : Sess :=
  mkSession (s_receiver s) (s_version s) (s_state s) true (s_is_condstore s) (s_is_qresync s) (s_idle s).
Definition set_condstore (s : Sess) : Sess :=
  mkSession (s_receiver s) (s_version s) (s_state s) (s_is_tls s) true (s_is_qresync s) (s_idle s).
Definition set_qresync (s : Sess) : Sess :=
  mkSession (s_receiver s) (s_version s) (s_state s) (s_is_tls s) (s_is_condstore s) true (s_idle s).
Definition set_idle (s : Sess) (idle : bool) : Sess :=
  mkSession (s_receiver s) (s_version s) (s_state s) (s_is_tls s) (s_is_condstore s) (s_is_qresync s) idle.
Definition modify (f : Sess -> Sess) : C unit := do* s := get_session in put_session (f s).

(** [Session::new] *)
Definition new_session (max_request_size : Z) (is_tls : bool) : Sess :=
  mkSession (new_receiver max_request_size Start) Rev1 (NotAuthenticated 0) is_tls false false false.

(** [Session::write_bytes] *)
Definition write_bytes (x : bytes) : C unit := do* _ := log (Wrote x) in on_world (send_bytes x).
Definition write_status (r : StatusResponse) : C unit := write_bytes (status_serialize r).

Definition spawn_task (data : SessionData) (t : Task Ref) : C unit :=
  do* _ := log (Spawned t) in on_world (spawn data t).

(** [match request.parse_..() { Ok(arguments) => .., Err(response) => self.write_bytes(..) }] *)
Definition parsed {A} (r : Res StatusResponse A) (k : A -> C unit) : C unit :=
  match r with
  | Ok a => k a
  | Err response => write_status response
  | Panic => lift Panic
  | NoFuel => lift NoFuel
  end.

(** ** [impl State] *)
Definition auth_failures (st : St) : Res unit Z :=
  match st with NotAuthenticated auth_failures => Ok auth_failures | _ => Panic end.

Definition session_data (st : St) : Res unit SessionData :=
  match st with
  | Authenticated data => Ok data
  | Selected data _ => Ok data
  | NotAuthenticated _ => Panic
  end.

Definition mailbox_data (st : St) : Res unit (SessionData * SelectedMailbox Ref) :=
  match st with Selected data mailbox => Ok (data, mailbox) | _ => Panic end.

Definition session_mailbox_data (st : St) : Res unit (SessionData * option (SelectedMailbox Ref)) :=
  match st with
  | Authenticated data => Ok (data, None)
  | Selected data mailbox => Ok (data, Some mailbox)
  | NotAuthenticated _ => Panic
  end.

Definition select_data (st : St) : Res unit (SessionData * SelectedMailbox Ref) :=
  match st with Selected data mailbox => Ok (data, mailbox) | _ => Panic end.

Definition is_authenticated (st : St) : bool :=
  match st with Authenticated _ | Selected _ _ => true | NotAuthenticated _ => false end.

Definition is_mailbox_selected (st : St) : bool := match st with Selected _ _ => true | _ => false end.

(** An accessor applied to the state of the session. *)
Definition state_get {A} (f : St -> Res unit A) : C A := do* s := get_session in lift (f (s_state s)).

(** ** [Request::is_allowed] *)
Definition is_allowed (q : Request Command) (st : St) (is_tls : bool) : Res StatusResponse (Request Command) :=
  let refuse m := Err (with_tag m (req_tag q)) in
  match req_command q with
  | Capability_ | Noop | Logout | Id => Ok q
  | StartTls => if negb is_tls then Ok q else refuse (sr_no (msg "Already in TLS mode."))
  | Authenticate =>
      match st with NotAuthenticated _ => Ok q | _ => refuse (sr_no (msg "Already authenticated.")) end
  | Login =>
      match st with
      | NotAuthenticated _ =>
          if is_tls then Ok q else refuse (sr_no (msg "LOGIN is disabled on the clear-text port."))
      | _ => refuse (sr_no (msg "Already authenticated."))
      end
  | Enable | Select | Examine | Create | Delete | Rename | Subscribe | Unsubscribe | List_ | Lsub | Namespace
  | Status_ | Append | Idle | SetAcl | DeleteAcl | GetAcl | ListRights | MyRights | Unauthenticate =>
      match st with
      | Authenticated _ | Selected _ _ => Ok q
      | NotAuthenticated _ => refuse (sr_no (msg "Not authenticated."))
      end
  | Close | Unselect | Expunge _ | Search _ | Fetch _ | Store _ | Copy _ | Move _ | Check_ | Sort_ _ | Thread _ =>
      match st with
      | Selected _ mailbox =>
          if sm_is_select mailbox ||
             negb (match req_command q with Store _ | Expunge _ | Move _ => true | _ => false end)
          then Ok q
          else refuse (sr_no (msg "Not permitted in EXAMINE state."))
      | Authenticated _ => refuse (sr_bad (msg "No mailbox is selected."))
      | NotAuthenticated _ => refuse (sr_no (msg "Not authenticated."))
      end
  end.

(** [group_requests]: the requests that follow with the same command. *)
Fixpoint group_requests (last_command : Command) (requests : list (Request Command))
  : list (Request Command) * list (Request Command) :=
  match requests with
  | request :: requests' =>
      if decide (req_command request = last_command) then
        let '(grouped, rest) := group_requests last_command requests' in (request :: grouped, rest)
      else ([], requests)
  | [] => ([], [])
  end.

(** ** Authentication *)

(** [Session::authenticate] *)
Definition authenticate (credentials : Credentials) (t : str) : C unit :=
  do* _ := log (Connecting credentials) in
  do* client := attempt (on_world (connect credentials)) in
  match client with
  | Ok client =>
      do* mailboxes := on_world (fetch_mailboxes client) in
      do* mailboxes := lift (ok_or mailboxes tt) in
      do* first := lift (unwrap (head mailboxes)) in
      do* purged := attempt (on_world (purge_deleted first)) in
      match purged with
      | Ok _ =>
          do* data := on_world (new_session_data client mailboxes) in
          do* _ := modify (fun s => set_state s (Authenticated data)) in
          do* s := get_session in
          write_status
            (with_tag (with_code (sr_ok (msg "Authentication successful"))
                         (CapabilityCode (all_capabilities true (s_is_tls s)))) t)
      | _ =>
          do* _ := write_status (with_tag database_failure t) in
          lift (Err tt)
      end
  | _ =>
      do* _ := write_status
                 (with_code (with_tag (sr_no (msg "Authentication failed")) t) AuthenticationFailed) in
      do* failures := state_get auth_failures in
      if failures <? 3 then modify (fun s => set_state s (NotAuthenticated (failures + 1)))
      else
        do* _ := write_status (sr_bye (msg "Too many authentication failures")) in
        lift (Err tt)
  end.

Definition handle_login (q : Request Command) : C unit :=
  parsed (parse_login q) (fun args => authenticate (Basic (username args) (password args)) (login_tag args)).

(** The receiver is left in the middle of the same AUTHENTICATE request, so
    that the next line becomes its argument. *)
Definition resume_authenticate (t : str) (m : Mechanism) (s : Sess) : Sess :=
  set_receiver s
    (Receiver.set_state (set_request (s_receiver s)
       (mkRequest t Authenticate [Argument (mechanism_serialize m)])) (ArgumentState SP)).

Definition handle_authenticate (q : Request Command) : C unit :=
  parsed (parse_authenticate q) (fun args =>
    match auth_mechanism args with
    | Plain | OAuthBearer =>
        match list.last (auth_params args) with
        | Some param =>
            match base64_decode param with
            | Some challenge =>
                match decode_challenge (auth_mechanism args) challenge with
                | Ok credentials => authenticate credentials (auth_tag args)
                | Err err => write_status (with_tag (sr_no err) (auth_tag args))
                | Panic => lift Panic
                | NoFuel => lift NoFuel
                end
            | None =>
                write_status (with_code (with_tag (sr_no (msg "Failed to decode challenge.")) (auth_tag args)) Parse)
            end
        | None =>
            do* _ := modify (resume_authenticate (auth_tag args) (auth_mechanism args)) in
            write_bytes (b "+ " ++ [DQUOTE; DQUOTE] ++ CRLF)
        end
    | _ =>
        write_status
          (with_code (with_tag (sr_no (msg "Authentication mechanism not supported.")) (auth_tag args)) Cannot)
    end).

Definition handle_unauthenticate (q : Request Command) : C unit :=
  do* _ := modify (fun s => set_state s (NotAuthenticated 0)) in
  write_status (with_tag (completed Unauthenticate) (req_tag q)).

(** ** Session commands *)
Definition handle_capability (q : Request Command) : C unit :=
  do* s := get_session in
  write_bytes (capability_response (all_capabilities (is_authenticated (s_state s)) (s_is_tls s)) ++
               status_serialize (with_tag (completed Capability_) (req_tag q))).

Definition id_response : bytes :=
  let Q := [DQUOTE] in
  b "* ID (" ++ Q ++ b "name" ++ Q ++ b " " ++ Q ++ b "Stalwart IMAP" ++ Q ++ b " " ++ Q ++ b "version" ++ Q ++ b " " ++
  Q ++ cargo_pkg_version ++ Q ++ b " " ++ Q ++ b "vendor" ++ Q ++ b " " ++ Q ++ b "Stalwart Labs Ltd." ++ Q ++ b " " ++
  Q ++ b "support-url" ++ Q ++ b " " ++ Q ++ b "https://stalw.art/imap" ++ Q ++ b ")" ++ CRLF.

Definition handle_id (q : Request Command) : C unit :=
  write_bytes (id_response ++ status_serialize (with_tag (completed Id) (req_tag q))).

Definition handle_noop (q : Request Command) (is_check : bool) : C unit :=
  do* s := get_session in
  do* _ := match s_state s with
           | Authenticated data => on_world (write_changes data None (s_is_qresync s) (is_rev2 (s_version s)))
           | Selected data mailbox =>
               on_world (write_changes data (Some mailbox) (s_is_qresync s) (is_rev2 (s_version s)))
           | NotAuthenticated _ => ret tt
           end in
  write_status (with_tag (completed (if negb is_check then Noop else Check_)) (req_tag q)).

Definition handle_logout (q : Request Command) : C unit :=
  do* _ := write_bytes
             (status_serialize (sr_bye [PStr (b "Stalwart IMAP4rev2 v"); PStr cargo_pkg_version;
                                        PStr (b " bids you farewell.")]) ++
              status_serialize (with_tag (completed Logout) (req_tag q))) in
  lift (Err tt).

Fixpoint enable_loop (capabilities : list Capability) (t : str) : C unit :=
  match capabilities with
  | [] => write_status (with_tag (sr_ok (msg "ENABLE successful.")) t)
  | capability :: capabilities' =>
      match capability with
      | IMAP4rev2 => do* _ := modify (fun s => set_version s Rev2) in enable_loop capabilities' t
      | IMAP4rev1 => do* _ := modify (fun s => set_version s Rev1) in enable_loop capabilities' t
      | CondStore => do* _ := modify set_condstore in enable_loop capabilities' t
      | QResync => do* _ := modify set_qresync in enable_loop capabilities' t
      | Utf8Accept => enable_loop capabilities' t
      | _ =>
          write_status
            (with_tag (sr_ok [PStr (capability_serialize capability); PStr (b " cannot be enabled.")]) t)
      end
  end.

Definition handle_enable (q : Request Command) : C unit :=
  parsed (parse_enable q) (fun arguments => enable_loop (enable_capabilities arguments) (enable_tag arguments)).

Definition handle_namespace (q : Request Command) : C unit :=
  do* data := state_get session_data in
  do* n := on_world (mailboxes_len data) in
  write_bytes (namespace_serialize (if (1 <? n)%nat then Some folder_shared else None) ++
               status_serialize (with_tag (completed Namespace) (req_tag q))).

(** [true]: the stream is handed over to the TLS acceptor. *)
Definition handle_starttls (q : Request Command) : C bool :=
  do* _ := write_status (with_tag (sr_ok (msg "Begin TLS negotiation now")) (req_tag q)) in
  do* _ := on_world recover_stream in
  ret true.

Definition handle_idle (q : Request Command) : C unit :=
  do* s := get_session in
  do* (data, mailbox) := lift (session_mailbox_data (s_state s)) in
  do* changes := attempt (on_world (event_source data (bool_decide (is_Some mailbox)))) in
  match changes with
  | Ok _ =>
      do* _ := write_bytes (b "+ Idling, send 'DONE' to stop." ++ CRLF) in
      do* _ := modify (fun s => set_idle s true) in
      spawn_task data (TaskIdle (req_tag q) mailbox (s_is_qresync s) (is_rev2 (s_version s)))
  | _ =>
      write_status
        (with_code (with_tag (sr_no (msg "It was not possible to start IDLE.")) (req_tag q)) ContactAdmin)
  end.

(** ** Mailboxes *)
Definition handle_list (q : Request Command) : C unit :=
  do* s := get_session in
  let command := req_command q in
  let is_lsub := bool_decide (command = Lsub) in
  parsed (if negb is_lsub then parse_list q (s_version s) else parse_lsub q) (fun arguments =>
    if negb (is_separator_query arguments) then
      do* data := state_get session_data in
      spawn_task data (TaskList arguments is_lsub (s_version s))
    else
      write_bytes
        (list_response_serialize
           (mkListResponse (is_rev2 (s_version s)) is_lsub [mkListItem [] [NoSelect] []] []) ++
         status_serialize
           (with_tag (completed command)
              (match arguments with ListBasic t _ _ => t | ListExtended_ t _ _ _ _ => t end)))).

(** The requests of a group that parse; the others are answered at once. *)
Fixpoint parse_group {A} (parse_one : Request Command -> Res StatusResponse A) (requests : list (Request Command))
  : C (list A) :=
  match requests with
  | [] => ret []
  | request :: requests' =>
      match parse_one request with
      | Ok argument => do* rest := parse_group parse_one requests' in ret (argument :: rest)
      | Err response => do* _ := write_status response in parse_group parse_one requests'
      | Panic => lift Panic
      | NoFuel => lift NoFuel
      end
  end.

Definition handle_group {A} (parse_one : Request Command -> Res StatusResponse A) (task : list A -> Task Ref)
    (requests : list (Request Command)) : C unit :=
  do* arguments := parse_group parse_one requests in
  match arguments with
  | [] => ret tt
  | _ => do* data := state_get session_data in spawn_task data (task arguments)
  end.

Definition handle_create (requests : list (Request Command)) : C unit :=
  do* s := get_session in handle_group (fun q => parse_create q (s_version s)) TaskCreate requests.
Definition handle_delete (requests : list (Request Command)) : C unit :=
  do* s := get_session in handle_group (fun q => parse_delete q (s_version s)) TaskDelete requests.

(** The handlers that parse, take the session's data and start a task. *)
Definition handle_simple {A} (r : Res StatusResponse A) (task : A -> Task Ref) : C unit :=
  parsed r (fun arguments => do* data := state_get session_data in spawn_task data (task arguments)).

Definition handle_rename (q : Request Command) : C unit :=
  do* s := get_session in handle_simple (parse_rename q (s_version s)) TaskRename.
Definition handle_status (q : Request Command) : C unit :=
  do* s := get_session in handle_simple (parse_status q (s_version s)) (fun a => TaskStatus a (s_version s)).
Definition handle_subscribe (q : Request Command) (is_subscribe : bool) : C unit :=
  do* s := get_session in
  handle_simple (parse_subscribe q (s_version s)) (fun a => TaskSubscribe (mbox_tag a) (mbox_name a) is_subscribe).
Definition handle_get_acl (q : Request Command) : C unit :=
  do* s := get_session in handle_simple (parse_acl q) (fun a => TaskGetAcl a (is_rev2 (s_version s))).
Definition handle_my_rights (q : Request Command) : C unit :=
  do* s := get_session in handle_simple (parse_acl q) (fun a => TaskMyRights a (is_rev2 (s_version s))).
Definition handle_set_acl (q : Request Command) : C unit := handle_simple (parse_acl q) TaskSetAcl.
Definition handle_delete_acl (q : Request Command) : C unit := handle_simple (parse_acl q) TaskDeleteAcl.

Definition handle_list_rights (q : Request Command) : C unit :=
  parsed (parse_acl q) (fun arguments =>
    do* identifier := lift (unwrap (acl_identifier arguments)) in
    do* s := get_session in
    write_bytes
      (list_rights_serialize (acl_mailbox arguments) identifier
         [[Read]; [Lookup]; [Write; RSeen]; [Insert]; [RExpunge; DeleteMessages]; [CreateMailbox]; [DeleteMailbox];
          [Post]; [Administer]] (is_rev2 (s_version s)) ++
       status_serialize (with_tag (completed ListRights) (acl_tag arguments)))).

(** What APPEND, COPY and MOVE do before they start: the mailbox of that name. *)
Definition destination (data : SessionData) (mailbox_name t : str) (missing : StatusResponse) (k : MailboxId -> C unit)
  : C unit :=
  do* r := on_world (synchronize_mailboxes data) in
  match r with
  | inr err => write_status (with_tag err t)
  | inl _ =>
      do* mailbox := on_world (get_mailbox_by_name data mailbox_name) in
      match mailbox with
      | Some mailbox =>
          if bool_decide (is_Some (mailbox_id mailbox)) then k mailbox
          else
            write_status
              (with_code (with_tag (sr_no (msg "Appending messages to this mailbox is not allowed.")) t) Cannot)
      | None => write_status (with_code (with_tag missing t) TryCreate)
      end
  end.

Definition handle_append (q : Request Command) : C unit :=
  parsed (parse_append q) (fun arguments =>
    do* (data, selected_mailbox) := state_get session_mailbox_data in
    destination data (append_mailbox arguments) (append_tag arguments) (sr_no (msg "Mailbox does not exist."))
      (fun mailbox =>
         let is_dest_selected := match selected_mailbox with Some sm => bool_decide (sm_id sm = mailbox) | None => false end in
         spawn_task data (TaskAppend arguments mailbox selected_mailbox is_dest_selected))).

(** ** The selected mailbox *)
Definition handle_close (q : Request Command) : C unit :=
  do* (data, mailbox) := state_get select_data in
  do* _ := (if sm_is_select mailbox then do* _ := on_world (data_expunge data mailbox None) in ret tt else ret tt) in
  do* _ := modify (fun s => set_state s (Authenticated data)) in
  write_status (with_tag (completed Close) (req_tag q)).

Definition handle_unselect (q : Request Command) : C unit :=
  do* data := state_get session_data in
  do* _ := modify (fun s => set_state s (Authenticated data)) in
  write_status (with_tag (completed Unselect) (req_tag q)).

Definition with_last_state (state : MailboxData) (last_state : str) : MailboxData :=
  mkMailboxData (md_uid_next state) (md_uid_validity state) (md_jmap_ids state) (md_imap_uids state)
    (md_total_messages state) last_state.

Definition handle_expunge (q : Request Command) (uid : bool) : C unit :=
  do* (data, mailbox) := state_get select_data in
  let sequence := match req_tokens q with Argument value :: _ => ok_of (parse_sequence_set value) | _ => None end in
  do* r := on_world (data_expunge data mailbox sequence) in
  match r with
  | inr response => write_status (with_tag response (req_tag q))
  | inl jmap_state =>
      do* _ := on_world (clear_saved_search (sm_ref mailbox)) in
      do* r := on_world (synchronize_messages data (sm_id mailbox)) in
      match r with
      | inl new_state =>
          do* s := get_session in
          do* state := on_world (lock_state (sm_ref mailbox)) in
          do* _ := on_world (set_mailbox_state (sm_ref mailbox) (with_last_state new_state jmap_state)) in
          write_bytes (expunge_answer (s_is_qresync s) state new_state ++
                       status_serialize (with_tag (completed (Expunge uid)) (req_tag q)))
      | inr response => write_status (with_tag response (req_tag q))
      end
  end.

Definition handle_search (q : Request Command) (is_sort uid : bool) : C unit :=
  do* s := get_session in
  parsed (if negb is_sort then parse_search q (s_version s) else parse_sort q) (fun arguments =>
    do* (data, mailbox) := state_get mailbox_data in
    let save := bool_decide (RSave ∈ result_options arguments) in
    do* prev_saved_search :=
      (if save then
         do* previous := on_world (saved_search (sm_ref mailbox)) in
         do* _ := on_world (start_saved_search (sm_ref mailbox)) in
         ret (Some (get_saved_search previous))
       else ret None) in
    spawn_task data (TaskSearch arguments mailbox save prev_saved_search is_sort uid)).

Definition handle_fetch (q : Request Command) (uid : bool) : C unit :=
  parsed (parse_fetch q) (fun arguments =>
    do* (data, mailbox) := state_get select_data in
    do* s := get_session in
    let enabled_condstore :=
      (negb (s_is_condstore s) && bool_decide (is_Some (changed_since arguments))) ||
      bool_decide (AModSeq ∈ attributes arguments) in
    do* _ := (if enabled_condstore then modify set_condstore else ret tt) in
    spawn_task data (TaskFetch arguments mailbox uid (s_is_qresync s) enabled_condstore)).

Definition handle_store (q : Request Command) (uid : bool) : C unit :=
  parsed (parse_store q) (fun arguments =>
    do* (data, mailbox) := state_get select_data in
    do* s := get_session in
    spawn_task data (TaskStore arguments mailbox uid (s_is_condstore s || sm_is_condstore mailbox))).

Definition handle_copy_move (q : Request Command) (is_move uid : bool) : C unit :=
  parsed (parse_copy_move q) (fun arguments =>
    do* (data, src_mailbox) := state_get mailbox_data in
    destination data (cm_mailbox_name arguments) (cm_tag arguments) (sr_no (msg "Destination mailbox does not exist."))
      (fun dest_mailbox =>
         if bool_decide (account_id (sm_id src_mailbox) = account_id dest_mailbox) &&
            bool_decide (mailbox_id (sm_id src_mailbox) = mailbox_id dest_mailbox)
         then
           write_status
             (with_code (with_tag (sr_no (msg "Source and destination mailboxes are the same.")) (cm_tag arguments)) Cannot)
         else
           do* s := get_session in
           spawn_task data (TaskCopyMove arguments src_mailbox dest_mailbox is_move uid (s_is_qresync s)))).

Definition handle_thread (q : Request Command) (uid : bool) : C unit :=
  parsed (parse_thread q) (fun arguments =>
    do* (data, mailbox) := state_get mailbox_data in
    spawn_task data (TaskThread arguments mailbox (req_command q) uid)).

(** ** SELECT and EXAMINE *)

(** The UIDs whose changes a QRESYNC client wants. *)
Definition resync_uids (q : QResync_) : Res unit Sequence :=
  match known_uids q with
  | Some known => Ok known
  | None => let* m := unwrap (seq_match q) in Ok m.2
  end.

Definition resync_arguments (q : QResync_) (sequence : Sequence) : FetchArguments :=
  {| fetch_tag := []; fetch_sequence_set := sequence; attributes := [AFlags]; changed_since := Some (qr_modseq q);
     include_vanished := true |}.

(** The end of [handle_select]: QRESYNC, the answer and the new state. *)
Definition enter_mailbox (q : Request Command) (arguments : SelectArguments) (data : SessionData) (id : MailboxId)
    (state : MailboxData) (is_condstore : bool) (highest_modseq : option Z) : C unit :=
  let t := select_tag arguments in
  let is_select := bool_decide (req_command q = Select) in
  do* s := get_session in
  do* ref := on_world (new_mailbox state) in
  let mailbox := mkSelectedMailbox ref id is_select is_condstore in
  let resync k :=
    match qresync arguments with
    | Some qr =>
        if negb (s_is_qresync s) then write_status (with_tag (sr_no (msg "QRESYNC is not enabled.")) t)
        else if qr_uid_validity qr =? md_uid_validity state then
          do* sequence := lift (resync_uids qr) in
          do* _ := on_world (data_fetch data (resync_arguments qr sequence) mailbox true true false) in k
        else k
    | None => k
    end in
  resync
    (let response :=
       mkSelectResponse (mkListItem (select_mailbox arguments) [] []) (Z.of_nat (length (md_imap_uids state))) 0 0
         (md_uid_validity state) (md_uid_next state) (is_rev2 (s_version s)) (is_mailbox_selected (s_state s))
         highest_modseq
         (match mailbox_id id with Some m => account_id id ++ b "-" ++ m | None => account_id id end) in
     do* _ := modify (fun s => set_state s (Selected data mailbox)) in
     write_bytes
       (select_response_serialize response ++
        status_serialize
          (with_code (with_tag (completed (req_command q)) t) (if is_select then ReadWrite else ReadOnly)))).

(** The part of [handle_select] after the messages were synchronized. *)
Definition finish_select (q : Request Command) (arguments : SelectArguments) (data : SessionData) (id : MailboxId)
    (state : MailboxData) : C unit :=
  let t := select_tag arguments in
  do* s := get_session in
  let is_condstore := s_is_condstore s || condstore arguments in
  do* jmap_state := on_world (get_jmap_state data (account_id id)) in
  match jmap_state with
  | inr response => write_status (with_tag response t)
  | inl jmap_state =>
      let state := with_last_state state jmap_state in
      if is_condstore then
        do* highest_modseq := attempt (on_world (core_state_to_modseq data (account_id id) (md_last_state state))) in
        match highest_modseq with
        | Ok highest_modseq => enter_mailbox q arguments data id state is_condstore (Some highest_modseq)
        | _ => write_status (with_tag database_failure t)
        end
      else enter_mailbox q arguments data id state is_condstore None
  end.

Definition handle_select (q : Request Command) : C unit :=
  do* s := get_session in
  parsed (parse_select q (s_version s)) (fun arguments =>
    do* data := state_get session_data in
    do* r := on_world (synchronize_mailboxes data) in
    match r with
    | inr err => write_status (with_tag err (select_tag arguments))
    | inl _ =>
        do* mailbox := on_world (get_mailbox_by_name data (select_mailbox arguments)) in
        match mailbox with
        | Some id =>
            do* r := on_world (synchronize_messages data id) in
            match r with
            | inl state => finish_select q arguments data id state
            | inr response => write_status (with_tag response (select_tag arguments))
            end
        | None =>
            write_status
              (with_code (with_tag (sr_no (msg "Mailbox does not exist.")) (select_tag arguments)) NonExistent)
        end
    end).

(** ** [Session::ingest] *)

(** One request that is not part of a group; [true]: switch to TLS. *)
Definition handle_request (request : Request Command) : C bool :=
  let no_tls (m : C unit) := do* _ := m in ret false in
  match req_command request with
  | List_ | Lsub => no_tls (handle_list request)
  | Select | Examine => no_tls (handle_select request)
  | Create => no_tls (handle_create [request])
  | Delete => no_tls (handle_delete [request])
  | Rename => no_tls (handle_rename request)
  | Status_ => no_tls (handle_status request)
  | Append => no_tls (handle_append request)
  | Close => no_tls (handle_close request)
  | Unselect => no_tls (handle_unselect request)
  | Expunge uid => no_tls (handle_expunge request uid)
  | Search uid => no_tls (handle_search request false uid)
  | Fetch uid => no_tls (handle_fetch request uid)
  | Store uid => no_tls (handle_store request uid)
  | Copy uid => no_tls (handle_copy_move request false uid)
  | Move uid => no_tls (handle_copy_move request true uid)
  | Sort_ uid => no_tls (handle_search request true uid)
  | Thread uid => no_tls (handle_thread request uid)
  | Idle => no_tls (handle_idle request)
  | Subscribe => no_tls (handle_subscribe request true)
  | Unsubscribe => no_tls (handle_subscribe request false)
  | Namespace => no_tls (handle_namespace request)
  | Authenticate => no_tls (handle_authenticate request)
  | Login => no_tls (handle_login request)
  | Capability_ => no_tls (handle_capability request)
  | Enable => no_tls (handle_enable request)
  | StartTls => handle_starttls request
  | Noop => no_tls (handle_noop request false)
  | Check_ => no_tls (handle_noop request true)
  | Logout => no_tls (handle_logout request)
  | SetAcl => no_tls (handle_set_acl request)
  | DeleteAcl => no_tls (handle_delete_acl request)
  | GetAcl => no_tls (handle_get_acl request)
  | ListRights => no_tls (handle_list_rights request)
  | MyRights => no_tls (handle_my_rights request)
  | Unauthenticate => no_tls (handle_unauthenticate request)
  | Id => no_tls (handle_id request)
  end.

(** The second loop; runs of CREATE and of DELETE are handled together. *)
Fixpoint dispatch (fuel : nat) (requests : list (Request Command)) : C bool :=
  match fuel with
  | O => lift NoFuel
  | S fuel' =>
      match requests with
      | [] => ret false
      | request :: requests' =>
          match req_command request with
          | Create =>
              let '(grouped, rest) := group_requests Create requests' in
              do* _ := handle_create (request :: grouped) in dispatch fuel' rest
          | Delete =>
              let '(grouped, rest) := group_requests Delete requests' in
              do* _ := handle_delete (request :: grouped) in dispatch fuel' rest
          | _ =>
              do* upgrade := handle_request request in
              if upgrade : bool then ret true else dispatch fuel' requests'
          end
      end
  end.

(** The first loop: the requests of the chunk that the state allows. *)
Fixpoint collect (fuel : nat) (chunk : bytes) : C (list (Request Command) * option Z) :=
  match fuel with
  | O => lift NoFuel
  | S fuel' =>
      do* s := get_session in
      let '(receiver, res, rest) := parse (s_receiver s) chunk in
      do* _ := put_session (set_receiver s receiver) in
      match res with
      | Ok request =>
          match is_allowed request (s_state s) (s_is_tls s) with
          | Ok request =>
              do* (requests, needs_literal) := collect fuel' rest in ret (request :: requests, needs_literal)
          | Err response => do* _ := write_status response in collect fuel' rest
          | Panic => lift Panic
          | NoFuel => lift NoFuel
          end
      | Err NeedsMoreData => ret ([], None)
      | Err (NeedsLiteral size) => ret ([], Some size)
      | Err (ErrorResponse response) => do* _ := write_status response in ret ([], None)
      | Panic => lift Panic
      | NoFuel => lift NoFuel
      end
  end.

Definition ingest (chunk : bytes) : C bool :=
  do* (requests, needs_literal) := collect (S (length chunk)) chunk in
  do* upgrade := dispatch (S (length requests)) requests in
  if upgrade then ret true
  else
    match needs_literal with
    | Some size => do* _ := write_bytes (b "+ Ready for " ++ dec size ++ b " bytes." ++ CRLF) in ret false
    | None => ret false
    end.

(** ** The read loop of [src/core/connection.rs] *)

(** One chunk read from the socket, in clear or over TLS; after [true] the
    socket is handed to the TLS acceptor and the session goes on in
    [handle_conn_tls], which starts with [Session::set_stream_tls]. *)
Definition on_read (chunk : bytes) : C bool :=
  do* s := get_session in
  if s_idle s then
    if starts_with (b "DONE") chunk then
      do* _ := on_world stop_idle in
      do* _ := modify (fun s => set_idle s false) in ret false
    else ret false
  else ingest chunk.

Definition set_stream_tls : C unit := modify set_tls.

(** [handle_conn] and [handle_conn_tls] on the chunks the socket delivers. *)
Fixpoint serve (chunks : list bytes) : C unit :=
  match chunks with
  | [] => ret tt
  | chunk :: chunks' =>
      do* upgrade := on_read chunk in
      do* _ := (if upgrade : bool then set_stream_tls else ret tt) in
      serve chunks'
  end.

End Session.
