(* ===== verification/SessionSpec.v ===== *)
(** * What a connection guarantees

    [Session.v] against the interface of what it calls ([BackendLaws]): the
    state machine of a session, no panic for input in which a request that
    changes the state comes last, and a client without valid credentials. *)

From S2P Require Import Prelude Utf8 Utf7 Types Receiver ReceiverSpec Sequence Flags Wire.
From S2P Require Import Commands Parsers ParseSearch ParseFetch Store UidStore SelectedMailbox Responses Sasl Session.

(** Calls return; a JMAP account list contains the account of the user. *)
Class BackendLaws (W : Type) `{Backend W} := {
  connect_returns c w : returns (connect c w).1;
  fetch_mailboxes_returns c w : returns (fetch_mailboxes c w).1;
  fetch_mailboxes_nonempty c w l : (fetch_mailboxes c w).1 = Ok (Some l) -> l <> [];
  purge_deleted_returns a w : returns (purge_deleted a w).1;
  new_session_data_returns c l w : returns (new_session_data c l w).1;
  mailboxes_len_returns d w : returns (mailboxes_len d w).1;
  synchronize_mailboxes_returns d w : returns (synchronize_mailboxes d w).1;
  get_mailbox_by_name_returns d n w : returns (get_mailbox_by_name d n w).1;
  synchronize_messages_returns d m w : returns (synchronize_messages d m w).1;
  get_jmap_state_returns d a w : returns (get_jmap_state d a w).1;
  core_state_to_modseq_returns d a x w : returns (core_state_to_modseq d a x w).1;
  data_fetch_returns d a m x y z w : returns (data_fetch d a m x y z w).1;
  data_expunge_returns d m x w : returns (data_expunge d m x w).1;
  write_changes_returns d m x y w : returns (write_changes d m x y w).1;
  event_source_returns d x w : returns (event_source d x w).1;
  new_mailbox_returns m w : returns (new_mailbox m w).1;
  lock_state_returns r w : returns (lock_state r w).1;
  set_mailbox_state_returns r m w : returns (set_mailbox_state r m w).1;
  saved_search_returns r w : returns (saved_search r w).1;
  clear_saved_search_returns r w : returns (clear_saved_search r w).1;
  start_saved_search_returns r w : returns (start_saved_search r w).1;
  send_bytes_returns x w : returns (send_bytes x w).1;
  recover_stream_returns w : returns (recover_stream w).1;
  stop_idle_returns w : returns (stop_idle w).1;
  spawn_returns d t w : returns (spawn d t w).1
}.

#[export] Hint Resolve connect_returns fetch_mailboxes_returns purge_deleted_returns new_session_data_returns
  mailboxes_len_returns synchronize_mailboxes_returns get_mailbox_by_name_returns synchronize_messages_returns
  get_jmap_state_returns core_state_to_modseq_returns data_fetch_returns data_expunge_returns write_changes_returns
  event_source_returns new_mailbox_returns lock_state_returns set_mailbox_state_returns saved_search_returns
  clear_saved_search_returns start_saved_search_returns send_bytes_returns recover_stream_returns stop_idle_returns
  spawn_returns : imap.

Section Spec.
Context {W : Type} `{HB : Backend W} `{HL : !BackendLaws W} `{DebugFmt} `{Chrono} `{Charsets} `{Base64}.
Context (folder_shared : str) (cargo_pkg_version : str).

Abbreviation Sess := (Session SessionData Ref).
Abbreviation St := (SessionState SessionData Ref).
Abbreviation Tr := (list (Event Ref)).
Abbreviation C := (M (@Conn W _)).

(** ** A calculus for handlers

    [wps m Q E s tr]: from the session [s] and the trace [tr], in every world,
    [m] returns a value with [Q] or an error with [E]; it does not panic. *)
Definition wps {A} (m : C A) (Q : A -> Sess -> Tr -> Prop) (E : Sess -> Tr -> Prop) (s : Sess) (tr : Tr) : Prop :=
  forall w, match m (mkConn s w tr) with
            | (Ok a, c) => Q a (session c) (trace c)
            | (Err _, c) => E (session c) (trace c)
            | (Panic, _) | (NoFuel, _) => False
            end.

Lemma wps_ret {A} (a : A) (Q : A -> Sess -> Tr -> Prop) E s tr : Q a s tr -> wps (ret a) Q E s tr.
Proof. by intros HQ w. Qed.

Lemma wps_bind {A B} (m : C A) (k : A -> C B) Q E s tr :
  wps m (fun a => wps (k a) Q E) E s tr -> wps (bindM m k) Q E s tr.
Proof.
  intros Hm w. specialize (Hm w). unfold bindM. destruct (m (mkConn s w tr)) as [[a|e| |] [s' w' tr']]; try done.
  apply Hm.
Qed.

Lemma wps_mono {A} (m : C A) (Q Q' : A -> Sess -> Tr -> Prop) (E E' : Sess -> Tr -> Prop) s tr :
  wps m Q E s tr -> (forall a s' tr', Q a s' tr' -> Q' a s' tr') -> (forall s' tr', E s' tr' -> E' s' tr') ->
  wps m Q' E' s tr.
Proof.
  intros Hm HQ HE w. specialize (Hm w). destruct (m (mkConn s w tr)) as [[a|e| |] c]; auto.
Qed.

Lemma wps_lift {A} (r : Res unit A) (Q : A -> Sess -> Tr -> Prop) (E : Sess -> Tr -> Prop) s tr :
  returns r -> (forall a, r = Ok a -> Q a s tr) -> (r = Err tt -> E s tr) -> wps (lift r) Q E s tr.
Proof. intros Hr HQ HE w. destruct r as [a|[]| |]; cbn; auto. Qed.

Lemma wps_get (Q : Sess -> Sess -> Tr -> Prop) E s tr : Q s s tr -> wps get_session Q E s tr.
Proof. by intros HQ w. Qed.

Lemma wps_put s1 (Q : unit -> Sess -> Tr -> Prop) E s tr : Q tt s1 tr -> wps (put_session s1) Q E s tr.
Proof. by intros HQ w. Qed.

Lemma wps_modify f (Q : unit -> Sess -> Tr -> Prop) E s tr : Q tt (f s) tr -> wps (modify f) Q E s tr.
Proof. by intros HQ w. Qed.

Lemma wps_log e (Q : unit -> Sess -> Tr -> Prop) E s tr : Q tt s (tr ++ [e]) -> wps (log e) Q E s tr.
Proof. by intros HQ w. Qed.

Lemma wps_world {A} (m : M W A) (Q : A -> Sess -> Tr -> Prop) (E : Sess -> Tr -> Prop) s tr :
  (forall w, returns (m w).1) -> (forall a w, (m w).1 = Ok a -> Q a s tr) -> E s tr -> wps (on_world m) Q E s tr.
Proof.
  intros Hm HQ HE w. specialize (Hm w). specialize (HQ). unfold on_world. cbn.
  specialize (fun a => HQ a w). destruct (m w) as [[a|e| |] w']; cbn in *; auto.
Qed.

Lemma wps_attempt {A} (m : M W A) (Q : Res unit A -> Sess -> Tr -> Prop) (E : Sess -> Tr -> Prop) s tr :
  (forall w, returns (m w).1) -> (forall r w, (m w).1 = r -> Q r s tr) -> wps (attempt (on_world m)) Q E s tr.
Proof.
  intros Hm HQ w. specialize (Hm w). specialize (fun r => HQ r w). unfold attempt, on_world. cbn.
  destruct (m w) as [[a|e| |] w']; cbn in *; auto.
Qed.

Lemma wps_write x (Q : unit -> Sess -> Tr -> Prop) (E : Sess -> Tr -> Prop) s tr :
  Q tt s (tr ++ [Wrote x]) -> E s (tr ++ [Wrote x]) -> wps (write_bytes x) Q E s tr.
Proof.
  intros HQ HE. apply wps_bind, wps_log, wps_world; [auto with imap | by intros [] | done].
Qed.

Lemma wps_spawn d t (Q : unit -> Sess -> Tr -> Prop) (E : Sess -> Tr -> Prop) s tr :
  Q tt s (tr ++ [Spawned t]) -> E s (tr ++ [Spawned t]) -> wps (spawn_task d t) Q E s tr.
Proof.
  intros HQ HE. apply wps_bind, wps_log, wps_world; [auto with imap | by intros [] | done].
Qed.

Lemma wps_parsed {A} (r : Res StatusResponse A) k (Q : unit -> Sess -> Tr -> Prop) (E : Sess -> Tr -> Prop) s tr :
  returns r -> (forall a, r = Ok a -> wps (k a) Q E s tr) ->
  (forall x, Q tt s (tr ++ [Wrote x]) /\ E s (tr ++ [Wrote x])) -> wps (parsed r k) Q E s tr.
Proof.
  intros Hr Hk Hw. destruct r as [a|e| |]; try done; cbn [parsed]; [auto|]. by apply wps_write; apply Hw.
Qed.

Lemma wps_state_get {A} (f : St -> Res unit A) a (Q : A -> Sess -> Tr -> Prop) E s tr :
  f (s_state s) = Ok a -> Q a s tr -> wps (state_get f) Q E s tr.
Proof. intros Hf HQ. apply wps_bind, wps_get, wps_lift; rewrite Hf; naive_solver. Qed.

(** ** The state machine *)

(** The state a command needs for its handler to run. *)
Definition ready (c : Command) (st : St) : Prop :=
  match c with
  | Capability_ | Noop | Logout | Id | StartTls => True
  | Authenticate | Login => is_authenticated st = false
  | Close | Unselect | Expunge _ | Search _ | Fetch _ | Store _ | Copy _ | Move _ | Check_ | Sort_ _ | Thread _ =>
      is_mailbox_selected st = true
  | _ => is_authenticated st = true
  end.

(** The changes of state a command can make. *)
Inductive trans (c : Command) : St -> St -> Prop :=
| trans_same st : trans c st st
| trans_login n cr w client data :
    c = Login \/ c = Authenticate -> (connect cr w).1 = Ok client -> trans c (NotAuthenticated n) (Authenticated data)
| trans_failed n : c = Login \/ c = Authenticate -> n < 3 -> trans c (NotAuthenticated n) (NotAuthenticated (n + 1))
| trans_select st data mailbox :
    c = Select \/ c = Examine -> session_data st = Ok data -> sm_is_select mailbox = bool_decide (c = Select) ->
    trans c st (Selected data mailbox)
| trans_close data mailbox : c = Close \/ c = Unselect -> trans c (Selected data mailbox) (Authenticated data)
| trans_unauthenticate st : c = Unauthenticate -> is_authenticated st = true -> trans c st (NotAuthenticated 0).

(** Tasks started and log-in attempts in a trace. *)
Definition spawned (tr : Tr) : nat := length (List.filter (fun e => match e with Spawned _ => true | _ => false end) tr).
Definition attempts (tr : Tr) : Z :=
  Z.of_nat (length (List.filter (fun e => match e with Connecting _ => true | _ => false end) tr)).

Lemma spawned_app x y : spawned (x ++ y) = (spawned x + spawned y)%nat.
Proof. unfold spawned. by rewrite List.filter_app, length_app. Qed.
Lemma attempts_app x y : attempts (x ++ y) = attempts x + attempts y.
Proof. unfold attempts. rewrite List.filter_app, length_app. lia. Qed.

Lemma spawned_snoc tr e : spawned (tr ++ [e]) = (spawned tr + match e with Spawned _ => 1 | _ => 0 end)%nat.
Proof. rewrite spawned_app. by destruct e. Qed.
Lemma attempts_snoc tr e : attempts (tr ++ [e]) = attempts tr + match e with Connecting _ => 1 | _ => 0 end.
Proof. rewrite attempts_app. by destruct e. Qed.

(** Every failed attempt of a client that stays outside is counted; a client
    that is not logged in starts no task. *)
Definition accounted (st : St) (tr : Tr) (st' : St) (tr' : Tr) : Prop :=
  (is_authenticated st = false -> spawned tr' = spawned tr) /\
  match st, st' with
  | NotAuthenticated n, NotAuthenticated n' => n' = n + (attempts tr' - attempts tr) /\ n' <= Z.max n 3
  | _, _ => True
  end.

Definition cut_off (st : St) (tr : Tr) (tr' : Tr) : Prop :=
  is_authenticated st = false -> spawned tr' = spawned tr /\ attempts tr' <= attempts tr + 1.

(** What the handler of [c] does from [s] and [tr]. *)
Definition handled {A} (c : Command) (m : C A) (s : Sess) (tr : Tr) : Prop :=
  wps m
    (fun _ s' tr' =>
       literal_ok (s_receiver s') /\ trans c (s_state s) (s_state s') /\ accounted (s_state s) tr (s_state s') tr')
    (fun _ tr' => cut_off (s_state s) tr tr') s tr.

End Spec.

(** One step of a handler. *)
Ltac wps_step :=
  lazymatch goal with
  | |- wps (bindM _ _) _ _ _ _ => apply wps_bind
  | |- wps (ret _) _ _ _ _ => apply wps_ret
  | |- wps get_session _ _ _ _ => apply wps_get
  | |- wps (put_session _) _ _ _ _ => apply wps_put
  | |- wps (modify _) _ _ _ _ => apply wps_modify
  | |- wps (log _) _ _ _ _ => apply wps_log
  | |- wps (on_world _) _ _ _ _ => apply wps_world; [auto with imap | intros ? ? ? |]
  | |- wps (attempt (on_world _)) _ _ _ _ => apply wps_attempt; [auto with imap | intros ? ? ?]
  | |- wps (write_bytes _) _ _ _ _ => apply wps_write
  | |- wps (write_status _) _ _ _ _ => apply wps_write
  | |- wps (spawn_task _ _) _ _ _ _ => apply wps_spawn
  | |- wps (parsed _ _) _ _ _ _ => apply wps_parsed; [auto with imap | intros ? ? | intros ?; split]
  end.
Ltac wps_steps := repeat wps_step.
Ltac wps_case := lazymatch goal with |- wps (match ?x with _ => _ end) _ _ _ _ => destruct x end.

Section Handlers.
Context {W : Type} `{HB : Backend W} `{HL : !BackendLaws W} `{DebugFmt} `{Chrono} `{Charsets} `{Base64}.
Context (folder_shared : str) (cargo_pkg_version : str).

Abbreviation Sess := (Session SessionData Ref).
Abbreviation St := (SessionState SessionData Ref).
Abbreviation Tr := (list (Event Ref)).
Abbreviation C := (M (@Conn W _)).
Implicit Types (s : Sess) (st : St) (tr : Tr).

Lemma session_data_ok st : is_authenticated st = true -> exists data, session_data st = Ok data.
Proof. destruct st; [done|..]; eauto. Qed.

Lemma session_mailbox_data_ok st : is_authenticated st = true -> exists p, session_mailbox_data st = Ok p.
Proof. destruct st; [done|..]; eauto. Qed.

Lemma mailbox_data_ok st :
  is_mailbox_selected st = true ->
  exists data mailbox, st = Selected data mailbox.
Proof. destruct st; [done..|]; eauto. Qed.

Lemma selected_authenticated st : is_mailbox_selected st = true -> is_authenticated st = true.
Proof. by destruct st. Qed.

(** For a command of an authenticated client only the state matters. *)
Lemma handled_authenticated {A} c (m : C A) s tr :
  is_authenticated (s_state s) = true ->
  wps m (fun _ s' _ => literal_ok (s_receiver s') /\ trans c (s_state s) (s_state s')) (fun _ _ => True) s tr ->
  handled c m s tr.
Proof.
  intros Ha Hm. eapply wps_mono; [exact Hm | |].
  - intros _ s' tr' [Hr Ht]. split_and!; [done..|]. split; [congruence|]. by destruct (s_state s).
  - intros s' tr' _. unfold cut_off. congruence.
Qed.

(** A command that leaves the session alone and only writes. *)
Definition writes_only {A} (m : C A) s tr : Prop :=
  wps m (fun _ s' tr' => s' = s /\ spawned tr' = spawned tr /\ attempts tr' = attempts tr)
    (fun _ tr' => spawned tr' = spawned tr /\ attempts tr' = attempts tr) s tr.

Lemma handled_writes {A} c (m : C A) s tr : literal_ok (s_receiver s) -> writes_only m s tr -> handled c m s tr.
Proof.
  intros Hr Hm. eapply wps_mono; [exact Hm | |].
  - intros _ s' tr' (-> & Hs & Ha). split_and!; [done | apply trans_same |]. split; [done|].
    destruct (s_state s); [|done..]. lia.
  - intros s' tr' (Hs & Ha) _. lia.
Qed.

(** The session and the counters in the final states of straight-line code. *)
Ltac counters := rewrite ?spawned_snoc, ?attempts_snoc; split_and?; try done; try lia.
Ltac session_done := first [ exact I | split; [done | by apply trans_same] ].

Lemma handle_capability_ok c q s tr : literal_ok (s_receiver s) -> handled c (handle_capability q) s tr.
Proof. intros Hr. apply handled_writes; [done|]. unfold writes_only, handle_capability. wps_steps; counters. Qed.

Lemma handle_id_ok c q s tr : literal_ok (s_receiver s) -> handled c (handle_id cargo_pkg_version q) s tr.
Proof. intros Hr. apply handled_writes; [done|]. unfold writes_only, handle_id. wps_steps; counters. Qed.

Lemma handle_logout_ok c q s tr : literal_ok (s_receiver s) -> handled c (handle_logout cargo_pkg_version q) s tr.
Proof.
  intros Hr. apply handled_writes; [done|]. unfold writes_only, handle_logout. wps_steps; [|counters].
  apply wps_lift; [done | done | intros _; counters].
Qed.

Lemma handle_noop_ok c q is_check s tr : literal_ok (s_receiver s) -> handled c (handle_noop q is_check) s tr.
Proof.
  intros Hr. apply handled_writes; [done|]. unfold writes_only, handle_noop. wps_steps.
  destruct (s_state s); wps_steps; counters.
Qed.

Lemma handle_starttls_ok c q s tr : literal_ok (s_receiver s) -> handled c (handle_starttls q) s tr.
Proof. intros Hr. apply handled_writes; [done|]. unfold writes_only, handle_starttls. wps_steps; counters. Qed.

(** *** Authenticated *)
Section Authenticated.
Context (c : Command) (q : Request Command) (s : Sess) (tr : Tr).
Context (Hr : literal_ok (s_receiver s)) (Ha : is_authenticated (s_state s) = true).

Lemma handle_simple_ok {A} (r : Res StatusResponse A) task : returns r -> handled c (handle_simple r task) s tr.
Proof using Hr Ha HL.
  intros Hret. apply handled_authenticated; [done|]. destruct (session_data_ok _ Ha) as [data Hd].
  apply wps_parsed; [done | | split; session_done]. intros a _. wps_steps.
  eapply wps_state_get; [exact Hd|]; cbv beta iota zeta. wps_steps; session_done.
Qed.

Lemma handle_namespace_ok : handled c (handle_namespace folder_shared q) s tr.
Proof using Hr Ha HL.
  apply handled_authenticated; [done|]. destruct (session_data_ok _ Ha) as [data Hd].
  unfold handle_namespace. wps_steps. eapply wps_state_get; [exact Hd|]; cbv beta iota zeta. wps_steps; session_done.
Qed.

Lemma handle_list_ok : handled c (handle_list q) s tr.
Proof using Hr Ha HL.
  apply handled_authenticated; [done|]. destruct (session_data_ok _ Ha) as [data Hd].
  unfold handle_list. wps_steps; [case_match; auto with imap | | session_done..].
  destruct (negb (is_separator_query _)); wps_steps; try session_done. eapply wps_state_get; [exact Hd|]; cbv beta iota zeta. wps_steps; session_done.
Qed.

Lemma parse_group_ok {A} (f : Request Command -> Res StatusResponse A) l Q tr0 :
  (forall q, returns (f q)) -> (forall a tr', Q a s tr') -> wps (parse_group f l) Q (fun _ _ => True) s tr0.
Proof using HL.
  intros Hf. revert Q tr0; induction l as [|q0 l IH]; intros Q tr0 HQ; cbn [parse_group]; [wps_steps; apply HQ|].
  specialize (Hf q0). destruct (f q0) as [a|e| |]; try done; wps_steps; try done.
  - apply IH. intros. wps_steps. apply HQ.
  - by apply IH.
Qed.

Lemma handle_group_ok {A} (f : Request Command -> Res StatusResponse A) task l :
  (forall q, returns (f q)) -> handled c (handle_group f task l) s tr.
Proof using Hr Ha HL.
  intros Hf. apply handled_authenticated; [done|]. destruct (session_data_ok _ Ha) as [data Hd].
  unfold handle_group. wps_steps. apply parse_group_ok; [done|]. intros [|a l'] tr'; wps_steps; [session_done|].
  eapply wps_state_get; [exact Hd|]; cbv beta iota zeta. wps_steps; session_done.
Qed.

Lemma handle_list_rights_ok : req_command q = ListRights -> handled c (handle_list_rights q) s tr.
Proof using Hr Ha HL.
  intros Hc. apply handled_authenticated; [done|]. unfold handle_list_rights. apply wps_parsed; [| | split; session_done].
  - pose proof (returns_parse_acl q) as Hp. by rewrite Hc in Hp.
  - intros a Hp. destruct (acl_identifier a) as [i|] eqn:Ei.
    + apply wps_bind, wps_lift; [done | | done]. intros i' _. wps_steps; session_done.
    + exfalso. unfold parse_acl in Hp. rewrite Hc in Hp. cbn [res_bind] in Hp.
      apply res_bind_ok in Hp as ([m ts] & _ & Hp). apply res_bind_ok in Hp as (m' & _ & Hp).
      apply res_bind_ok in Hp as ([i ts'] & Hi & Hp). apply res_bind_ok in Hi as ([i0 ts0] & _ & Hi).
      apply res_bind_ok in Hi as (i1 & _ & Hi). cbn in Hp. by simplify_eq.
Qed.

Lemma handle_idle_ok : handled c (handle_idle q) s tr.
Proof using Hr Ha HL.
  apply handled_authenticated; [done|]. destruct (session_mailbox_data_ok _ Ha) as [[data mailbox] Hd].
  unfold handle_idle. wps_steps. rewrite Hd. apply wps_lift; [done | | done]. intros [? ?] [= <- <-].
  wps_steps. wps_case; wps_steps; session_done.
Qed.

Lemma destination_ok data name t missing k :
  (forall m, wps (k m) (fun _ s' _ => literal_ok (s_receiver s') /\ trans c (s_state s) (s_state s')) (fun _ _ => True) s tr) ->
  wps (destination data name t missing k)
    (fun _ s' _ => literal_ok (s_receiver s') /\ trans c (s_state s) (s_state s')) (fun _ _ => True) s tr.
Proof using Hr HL.
  intros Hk. unfold destination. wps_steps; [|session_done].
  wps_case; wps_steps; try session_done. wps_case; wps_steps; try session_done.
  wps_case; [apply Hk | wps_steps; session_done].
Qed.

Lemma handle_append_ok : handled c (handle_append q) s tr.
Proof using Hr Ha HL.
  apply handled_authenticated; [done|]. destruct (session_mailbox_data_ok _ Ha) as [[data mailbox] Hd].
  unfold handle_append. wps_steps; try session_done. eapply wps_state_get; [exact Hd|]; cbv beta iota zeta.
  apply destination_ok. intros m. wps_steps; session_done.
Qed.

Lemma enable_loop_ok l t s0 tr0 :
  literal_ok (s_receiver s0) -> s_state s0 = s_state s ->
  wps (enable_loop l t) (fun _ s' _ => literal_ok (s_receiver s') /\ trans c (s_state s) (s_state s')) (fun _ _ => True)
    s0 tr0.
Proof using HL.
  revert s0 tr0; induction l as [|x l IH]; intros s0 tr0 Hr0 Hs0; cbn [enable_loop].
  - wps_steps; [split; [done | rewrite Hs0; by apply trans_same] | done].
  - destruct x; wps_steps; try (by apply IH); try exact I; (split; [done | rewrite Hs0; by apply trans_same]).
Qed.

Lemma handle_enable_ok : handled c (handle_enable q) s tr.
Proof using Hr Ha HL.
  apply handled_authenticated; [done|]. unfold handle_enable. wps_steps; try session_done. by apply enable_loop_ok.
Qed.

Lemma handle_unauthenticate_ok : c = Unauthenticate -> handled c (handle_unauthenticate q) s tr.
Proof using Hr Ha HL.
  intros Hc. apply handled_authenticated; [done|]. unfold handle_unauthenticate. wps_steps; [|done].
  split; [done|]. by apply trans_unauthenticate.
Qed.
End Authenticated.

(** *** Selected *)
Section Selected.
Context (c : Command) (q : Request Command) (s : Sess) (tr : Tr).
Context (Hr : literal_ok (s_receiver s)) (Hs : is_mailbox_selected (s_state s) = true).
Let Ha : is_authenticated (s_state s) = true := selected_authenticated _ Hs.

Lemma select_data_ok : exists data mailbox,
  s_state s = Selected data mailbox /\ select_data (s_state s) = Ok (data, mailbox) /\
  mailbox_data (s_state s) = Ok (data, mailbox) /\ session_data (s_state s) = Ok data.
Proof using Hs. destruct (mailbox_data_ok _ Hs) as (d & m & ->). by exists d, m. Qed.

Lemma handle_close_ok : c = Close -> handled c (handle_close q) s tr.
Proof using Hr Hs HL.
  intros Hc. apply handled_authenticated; [exact Ha|]. destruct select_data_ok as (d & m & E & Hd & _).
  unfold handle_close. wps_steps. eapply wps_state_get; [exact Hd|]; cbv beta iota zeta. wps_steps.
  wps_case; wps_steps; try exact I; (split; [done|]; rewrite E; apply trans_close; by left).
Qed.

Lemma handle_unselect_ok : c = Unselect -> handled c (handle_unselect q) s tr.
Proof using Hr Hs HL.
  intros Hc. apply handled_authenticated; [exact Ha|]. destruct select_data_ok as (d & m & E & _ & _ & Hd).
  unfold handle_unselect. wps_steps. eapply wps_state_get; [exact Hd|]; cbv beta iota zeta. wps_steps; [|done].
  split; [done|]. rewrite E. apply trans_close. by right.
Qed.

Lemma handle_expunge_ok u : handled c (handle_expunge q u) s tr.
Proof using Hr Hs HL.
  apply handled_authenticated; [exact Ha|]. destruct select_data_ok as (d & m & E & Hd & _).
  unfold handle_expunge. wps_steps. eapply wps_state_get; [exact Hd|]; cbv beta iota zeta. wps_steps; [|done].
  wps_case; wps_steps; try session_done. wps_case; wps_steps; session_done.
Qed.

Lemma handle_search_ok is_sort u : handled c (handle_search q is_sort u) s tr.
Proof using Hr Hs HL.
  apply handled_authenticated; [exact Ha|]. destruct select_data_ok as (d & m & E & _ & Hd & _).
  unfold handle_search. apply wps_bind, wps_get. apply wps_parsed; [case_match; auto with imap | | split; session_done].
  intros a _. wps_steps. eapply wps_state_get; [exact Hd|]; cbv beta iota zeta. wps_steps.
  destruct (bool_decide _); wps_steps; session_done.
Qed.

Lemma handle_fetch_ok u : handled c (handle_fetch q u) s tr.
Proof using Hr Hs HL.
  apply handled_authenticated; [exact Ha|]. destruct select_data_ok as (d & m & E & Hd & _).
  unfold handle_fetch. wps_steps; try session_done. eapply wps_state_get; [exact Hd|]; cbv beta iota zeta. wps_steps.
  destruct (_ || _); wps_steps; session_done.
Qed.

Lemma handle_store_ok u : handled c (handle_store q u) s tr.
Proof using Hr Hs HL.
  apply handled_authenticated; [exact Ha|]. destruct select_data_ok as (d & m & E & Hd & _).
  unfold handle_store. wps_steps; try session_done. eapply wps_state_get; [exact Hd|]; cbv beta iota zeta. wps_steps; session_done.
Qed.

Lemma handle_copy_move_ok is_move u : handled c (handle_copy_move q is_move u) s tr.
Proof using Hr Hs HL.
  apply handled_authenticated; [exact Ha|]. destruct select_data_ok as (d & m & E & _ & Hd & _).
  unfold handle_copy_move. wps_steps; try session_done. eapply wps_state_get; [exact Hd|]; cbv beta iota zeta.
  apply destination_ok; [done|]. intros dest. wps_case; wps_steps; session_done.
Qed.

Lemma handle_thread_ok u : handled c (handle_thread q u) s tr.
Proof using Hr Hs HL.
  apply handled_authenticated; [exact Ha|]. destruct select_data_ok as (d & m & E & _ & Hd & _).
  unfold handle_thread. wps_steps; try session_done. eapply wps_state_get; [exact Hd|]; cbv beta iota zeta. wps_steps; session_done.
Qed.
End Selected.

(** *** SELECT and EXAMINE *)

(** A SELECT whose QRESYNC parameters name the known messages. *)
Definition resyncs (qr : QResync_) : Prop := known_uids qr <> None \/ seq_match qr <> None.
Definition select_safe (q : Request Command) : Prop :=
  req_command q = Select \/ req_command q = Examine ->
  forall v args qr, parse_select q v = Ok args -> qresync args = Some qr -> resyncs qr.

Lemma resync_uids_ok qr : resyncs qr -> exists sequence, resync_uids qr = Ok sequence.
Proof.
  intros Hq. unfold resync_uids. destruct (known_uids qr) as [k|] eqn:Ek; [eauto|].
  destruct (seq_match qr) as [m|] eqn:Em; [cbn; eauto|]. by destruct Hq.
Qed.

Section SelectCommand.
Context (q : Request Command) (args : SelectArguments) (data : SessionData) (s : Sess).
Context (Hr : literal_ok (s_receiver s)) (Hd : session_data (s_state s) = Ok data).
Context (Hc : req_command q = Select \/ req_command q = Examine).
Context (Hq : forall qr, qresync args = Some qr -> resyncs qr).

Lemma enter_mailbox_ok id state cs m tr :
  wps (enter_mailbox q args data id state cs m)
    (fun _ s' _ => literal_ok (s_receiver s') /\ trans (req_command q) (s_state s) (s_state s')) (fun _ _ => True) s tr.
Proof using Hr Hd Hc Hq HL.
  unfold enter_mailbox. wps_steps; [|exact I]. cbv zeta.
  destruct (qresync args) as [qr|] eqn:Eq.
  - wps_case; [wps_steps; session_done|]. destruct (resync_uids_ok _ (Hq _ eq_refl)) as [sq Esq]. rewrite Esq. wps_case.
    + apply wps_bind, wps_lift; [done | intros ? _ | done]. wps_steps; try exact I.
      split; [done | by eapply trans_select].
    + wps_steps; [split; [done | by eapply trans_select] | exact I].
  - wps_steps; [split; [done | by eapply trans_select] | exact I].
Qed.

Lemma finish_select_ok id state tr :
  wps (finish_select q args data id state)
    (fun _ s' _ => literal_ok (s_receiver s') /\ trans (req_command q) (s_state s) (s_state s')) (fun _ _ => True) s tr.
Proof using Hr Hd Hc Hq HL.
  unfold finish_select. wps_steps; [|exact I]. wps_case; [|wps_steps; session_done].
  wps_case; [|apply enter_mailbox_ok]. wps_steps. wps_case; try (wps_steps; session_done). apply enter_mailbox_ok.
Qed.
End SelectCommand.

Lemma handle_select_ok q s tr :
  literal_ok (s_receiver s) -> is_authenticated (s_state s) = true ->
  req_command q = Select \/ req_command q = Examine -> select_safe q ->
  handled (req_command q) (handle_select q) s tr.
Proof using HL.
  intros Hr Ha Hc Hq. apply handled_authenticated; [done|]. destruct (session_data_ok _ Ha) as [data Hd].
  unfold handle_select. wps_steps; try session_done. eapply wps_state_get; [exact Hd|]. wps_steps; [|session_done].
  wps_case; wps_steps; try session_done. wps_case; wps_steps; try session_done.
  wps_case; [|wps_steps; session_done]. apply finish_select_ok; [done..|]. intros qr Hqr. by eapply Hq.
Qed.

(** *** Authentication *)
(** After a refused attempt. *)
Lemma refused_ok c cr x n s tr :
  literal_ok (s_receiver s) -> s_state s = NotAuthenticated n -> c = Login \/ c = Authenticate ->
  wps (do* failures := state_get auth_failures in
       if failures <? 3 then modify (fun s => set_state s (NotAuthenticated (failures + 1)))
       else do* _ := write_status (sr_bye (msg "Too many authentication failures")) in lift (Err tt))
    (fun _ s' tr' => literal_ok (s_receiver s') /\ trans c (NotAuthenticated n) (s_state s') /\
                     accounted (NotAuthenticated n) tr (s_state s') tr')
    (fun _ tr' => cut_off (NotAuthenticated (D := SessionData) (Ref := Ref) n) tr tr')
    s ((tr ++ [Connecting cr]) ++ [Wrote x]).
Proof using HL.
  intros Hr Hs Hc. wps_steps. eapply wps_state_get; [by rewrite Hs|]. destruct (Z.ltb_spec n 3).
  - wps_steps. split_and!; [done | by apply trans_failed | split; [intros _|]; cbn; counters].
  - wps_steps; [|intros _; counters]. apply wps_lift; [done..|]. intros _ _. counters.
Qed.

Lemma authenticate_ok c cr t n s tr :
  literal_ok (s_receiver s) -> s_state s = NotAuthenticated n -> c = Login \/ c = Authenticate ->
  handled c (authenticate cr t) s tr.
Proof using HL.
  intros Hr Hs Hc. unfold handled, authenticate. rewrite Hs. wps_steps.
  wps_case; [|apply wps_bind, wps_write; [by apply refused_ok | intros _; counters]..].
  wps_steps; [|intros _; counters]. apply wps_lift; [apply returns_ok_or | | intros _ _; counters]. intros l El.
  destruct a0 as [l0|]; [injection El as <-|done].
  match goal with Hf : (fetch_mailboxes _ _).1 = _ |- _ => apply fetch_mailboxes_nonempty in Hf end.
  destruct l0 as [|first l0]; [done|]. apply wps_bind, wps_lift; [done | intros ? _ | done].
  wps_steps. wps_case; wps_steps; try (intros _; counters).
  - split_and!; [done | by eapply trans_login | split; [intros _; counters | done]].
  - apply wps_lift; [done..|]. intros _ _. counters.
  - apply wps_lift; [done..|]. intros _ _. counters.
  - apply wps_lift; [done..|]. intros _ _. counters.
Qed.

Lemma unauthenticated_failures st : is_authenticated st = false -> exists n, st = NotAuthenticated n.
Proof. destruct st; [by eexists | done..]. Qed.

(** An answer to a log-in command without an attempt. *)
Lemma answered_ok c (x : bytes) s tr : literal_ok (s_receiver s) -> handled c (write_bytes x) s tr.
Proof. intros Hr. apply handled_writes; [done|]. unfold writes_only. wps_steps; counters. Qed.

Lemma handle_login_ok q s tr :
  literal_ok (s_receiver s) -> is_authenticated (s_state s) = false ->
  handled Login (handle_login q) s tr.
Proof using HL.
  intros Hr [n Hs]%unauthenticated_failures. unfold handle_login, parsed.
  pose proof (returns_parse_login q) as Hp. destruct (parse_login q); try done.
  - eapply authenticate_ok; eauto.
  - by apply answered_ok.
Qed.

Lemma handle_authenticate_ok q s tr :
  literal_ok (s_receiver s) -> is_authenticated (s_state s) = false ->
  handled Authenticate (handle_authenticate q) s tr.
Proof using HL.
  intros Hr Ha. destruct (unauthenticated_failures _ Ha) as [n Hs]. unfold handle_authenticate, parsed.
  pose proof (returns_parse_authenticate q) as Hp. destruct (parse_authenticate q) as [args|e| |]; try done;
    [|by apply answered_ok].
  assert (Hboth : handled Authenticate
    (match list.last (auth_params args) with
     | Some param =>
         match base64_decode param with
         | Some challenge =>
             match decode_challenge (auth_mechanism args) challenge with
             | Ok credentials => authenticate credentials (auth_tag args)
             | Err err => write_status (with_tag (sr_no err) (auth_tag args))
             | Panic => lift Panic
             | NoFuel => lift NoFuel
             end
         | None => write_status (with_code (with_tag (sr_no (msg "Failed to decode challenge.")) (auth_tag args)) Parse)
         end
     | None =>
         do* _ := modify (resume_authenticate (auth_tag args) (auth_mechanism args)) in
         write_bytes (b "+ " ++ [DQUOTE; DQUOTE] ++ CRLF)
     end) s tr).
  { destruct (list.last _) as [param|].
    - destruct (base64_decode param) as [challenge|]; [|by apply answered_ok].
      pose proof (plain_or_oauth_returns (auth_mechanism args) challenge) as Hd.
      destruct (decode_challenge _ _); try done; [|by apply answered_ok]. eapply authenticate_ok; eauto.
    - unfold handled. rewrite Hs. wps_steps; [|intros _; counters]. split_and!.
      + destruct Hr as [Hstart _]. split; [exact Hstart | done].
      + cbn. rewrite Hs. by apply trans_same.
      + cbn. rewrite Hs. split; [intros _; counters|]. counters. }
  destruct (auth_mechanism args); first [exact Hboth | by apply answered_ok].
Qed.

(** *** Any request *)
Lemma handled_then {A B} c (m : C A) (v : B) s tr : handled c m s tr -> handled c (do* _ := m in ret v) s tr.
Proof. intros Hm. apply wps_bind. eapply wps_mono; [exact Hm | | done]. intros. by apply wps_ret. Qed.

Lemma handled_get {A} c (k : Sess -> C A) s tr : handled c (k s) s tr -> handled c (do* s0 := get_session in k s0) s tr.
Proof. intros Hk. apply wps_bind, wps_get, Hk. Qed.

Lemma handle_request_ok q s tr :
  literal_ok (s_receiver s) -> ready (req_command q) (s_state s) -> select_safe q ->
  handled (req_command q) (handle_request folder_shared cargo_pkg_version q) s tr.
Proof using HL.
  intros Hr Hready Hq. unfold handle_request. pose proof (returns_parse_acl q) as Hacl.
  destruct (req_command q) eqn:Ec; cbn [ready] in Hready; try apply handled_then;
    try (apply handle_simple_ok; auto with imap; fail).
  all: try (first [ apply handle_capability_ok | apply handle_noop_ok | apply handle_logout_ok | apply handle_starttls_ok
      | apply handle_id_ok ]; done).
  all: try (first [ apply handle_authenticate_ok | apply handle_login_ok ]; done).
  all: try (first [ apply handle_enable_ok | apply handle_list_ok | apply handle_namespace_ok | apply handle_append_ok
      | apply handle_idle_ok | apply handle_list_rights_ok | apply handle_unauthenticate_ok ]; done).
  all: try (first [ apply handle_close_ok | apply handle_unselect_ok | apply handle_expunge_ok | apply handle_search_ok
      | apply handle_fetch_ok | apply handle_store_ok | apply handle_copy_move_ok | apply handle_thread_ok ]; done).
  all: try (rewrite <- Ec; apply handle_select_ok; auto; fail).
  all: try (apply handle_group_ok; auto with imap; fail).
  all: unfold handle_rename, handle_subscribe, handle_status, handle_get_acl, handle_my_rights, handle_set_acl,
         handle_delete_acl, handle_create, handle_delete.
  all: apply handled_get; first [ apply handle_simple_ok | apply handle_group_ok ]; auto with imap.
Qed.

Lemma handle_create_ok l s tr :
  literal_ok (s_receiver s) -> is_authenticated (s_state s) = true -> handled Create (handle_create l) s tr.
Proof using HL. intros. apply handled_get, handle_group_ok; auto with imap. Qed.
Lemma handle_delete_ok l s tr :
  literal_ok (s_receiver s) -> is_authenticated (s_state s) = true -> handled Delete (handle_delete l) s tr.
Proof using HL. intros. apply handled_get, handle_group_ok; auto with imap. Qed.

End Handlers.
