(* ===== verification/SessionProps.v ===== *)
(** * Whole chunks of input

    The dispatch of [Session.v] on the results of [SessionSpec.v]: which
    pipelined input is handled without a panic, what a client without valid
    credentials can do, and how AUTHENTICATE goes on with the next line. *)

From S2P Require Import Prelude Utf8 Utf7 Types Receiver ReceiverSpec Sequence Flags Wire.
From S2P Require Import Commands Parsers ParseSearch ParseFetch Store UidStore SelectedMailbox Responses Sasl Session SessionSpec.

Section Chunks.
Context {W : Type} `{HB : Backend W} `{HL : !BackendLaws W} `{DebugFmt} `{Chrono} `{Charsets} `{Base64}.
Context (folder_shared : str) (cargo_pkg_version : str).

Abbreviation Sess := (Session SessionData Ref).
Abbreviation St := (SessionState SessionData Ref).
Abbreviation Tr := (list (Event Ref)).
Abbreviation C := (M (@Conn W _)).
Implicit Types (s : Sess) (st : St) (tr : Tr).

(** ** A list of requests *)

(** Commands after which whatever was allowed still is. *)
Definition stable (c : Command) : Prop :=
  match c with Close | Unselect | Unauthenticate | Login | Authenticate => False | _ => True end.

Lemma trans_ready c c' st st' : stable c -> trans c st st' -> ready c' st -> ready c' st'.
Proof.
  intros Hc Ht Hr.
  destruct Ht as [st|n cr w cl d [-> | ->] _|n [-> | ->] _|st d m _ Hd _|d m [-> | ->]|st -> _]; try done.
  assert (Ha : is_authenticated st = true) by by destruct st. destruct c'; cbn in *; congruence.
Qed.

(** Every request but the last is stable. *)
Fixpoint stable_but_last (l : list (Request Command)) : Prop :=
  match l with
  | [] => True
  | q :: l' => (l' = [] \/ stable (req_command q)) /\ stable_but_last l'
  end.

Lemma stable_but_last_sublist k l : sublist k l -> stable_but_last l -> stable_but_last k.
Proof.
  induction 1 as [|q k l Hsub IH|q k l Hsub IH]; cbn; [done| |]; intros [Hq Hl]; [|by apply IH].
  split; [|by apply IH]. destruct Hq as [->|Hq]; [|by right]. left. by apply sublist_nil_r in Hsub.
Qed.

Lemma sublist_in {A} (k l : list A) x : sublist k l -> In x k -> In x l.
Proof. induction 1; cbn; intuition. Qed.

Lemma group_requests_spec c l grouped rest :
  group_requests c l = (grouped, rest) ->
  l = grouped ++ rest /\ Forall (fun q => req_command q = c) grouped.
Proof.
  revert grouped; induction l as [|q l IH]; intros grouped; cbn [group_requests]; [intros; by simplify_eq|].
  case_decide as Hq; [|intros; by simplify_eq].
  destruct (group_requests c l) as [g r]. intros; simplify_eq. destruct (IH g eq_refl) as [-> Hg]. split; [done|]. by constructor.
Qed.

Lemma stable_but_last_app x y : stable_but_last (x ++ y) -> stable_but_last y.
Proof. induction x as [|q x IH]; [done|]. intros [_ Hx]. by apply IH. Qed.

(** What [dispatch] needs of the requests, whatever the kind of client: the
    precondition of each handler, kept by the ones before it. *)
Lemma dispatch_loop (K : list (Request Command) -> Prop) (P : Sess -> Tr -> Prop) (R : Request Command -> Sess -> Tr -> Prop) (E : Sess -> Tr -> Prop) fuel l s tr :
  (forall x y, K (x ++ y) -> K y) ->
  (forall q rest s tr, P s tr -> R q s tr -> Forall (fun q => R q s tr) rest ->
     K (q :: rest) ->
     wps (handle_request folder_shared cargo_pkg_version q)
       (fun _ s' tr' => P s' tr' /\ Forall (fun q => R q s' tr') rest) E s tr) ->
  (forall c grouped rest s tr, c = Create \/ c = Delete -> P s tr -> Forall (fun q => R q s tr) (grouped ++ rest) ->
     grouped <> [] -> Forall (fun q => req_command q = c) grouped ->
     wps (if decide (c = Create) then handle_create grouped else handle_delete grouped)
       (fun _ s' tr' => P s' tr' /\ Forall (fun q => R q s' tr') rest) E s tr) ->
  (length l < fuel)%nat -> P s tr -> Forall (fun q => R q s tr) l -> K l ->
  wps (dispatch folder_shared cargo_pkg_version fuel l) (fun _ s' tr' => P s' tr') E s tr.
Proof.
  intros HK Hone Hgroup. revert l s tr; induction fuel as [|fuel IH]; intros l s tr Hl HP HR Hst; [lia|]. cbn [dispatch].
  destruct l as [|q l]; [by apply wps_ret|]. apply list.Forall_cons in HR as [HRq HR].
  pose proof (HK [q] l Hst) as Hst'. cbn [length] in Hl.
  assert (Hrun : wps (do* upgrade := handle_request folder_shared cargo_pkg_version q in
                      if upgrade : bool then ret true else dispatch folder_shared cargo_pkg_version fuel l)
                   (fun _ s' tr' => P s' tr') E s tr).
  { apply wps_bind. eapply wps_mono; [by eapply (Hone q l) | | done].
    intros [] s' tr' [HP' HR']; [by apply wps_ret|]. apply IH; try done. lia. }
  assert (Hgrp : forall c, c = Create \/ c = Delete -> req_command q = c ->
    wps (let '(grouped, rest) := group_requests c l in
         do* _ := (if decide (c = Create) then handle_create (q :: grouped) else handle_delete (q :: grouped)) in
         dispatch folder_shared cargo_pkg_version fuel rest) (fun _ s' tr' => P s' tr') E s tr).
  { intros c Hc Hqc. destruct (group_requests c l) as [grouped rest] eqn:Eg.
    apply group_requests_spec in Eg as [-> Hg]. apply wps_bind. eapply wps_mono; [apply (Hgroup c (q :: grouped) rest) | | done].
    - done. - done. - by constructor. - done. - by constructor.
    - intros _ s' tr' [HP' HR']. apply IH; try done; [rewrite length_app in Hl; lia | by eapply HK]. }
  destruct (req_command q) eqn:Ec; try exact Hrun.
  - apply (Hgrp Create); auto.
  - apply (Hgrp Delete); auto.
Qed.

(** ** The requests of a chunk *)
Definition requests_in s (chunk : bytes) : list (Request Command) := omap ok_of (run (s_receiver s) chunk).2.

Lemma allowed_ready q st tls q' : is_allowed q st tls = Ok q' -> q' = q /\ ready (req_command q) st.
Proof.
  unfold is_allowed, ready. destruct (req_command q); repeat case_match; intros [= <-]; done.
Qed.

Lemma is_allowed_returns q st tls : returns (is_allowed q st tls).
Proof. unfold is_allowed. destruct (req_command q); by repeat case_match. Qed.

Lemma collect_ok fuel chunk s tr :
  (length chunk < fuel)%nat -> literal_ok (s_receiver s) ->
  wps (collect fuel chunk)
    (fun r s' tr' => (exists rc, s' = set_receiver s rc) /\ literal_ok (s_receiver s') /\
       sublist r.1 (requests_in s chunk) /\ Forall (fun q => ready (req_command q) (s_state s)) r.1 /\
       spawned tr' = spawned tr /\ attempts tr' = attempts tr)
    (fun _ tr' => spawned tr' = spawned tr /\ attempts tr' = attempts tr) s tr.
Proof using HL.
  revert chunk s tr; induction fuel as [|fuel IH]; intros chunk s tr Hf Hr; [lia|]. cbn [collect].
  wps_steps. destruct (parse (s_receiver s) chunk) as [[rc res] rest] eqn:Ep.
  pose proof (parse_literal_ok _ chunk Hr) as [Hrc Hret]. rewrite Ep in Hrc, Hret. cbn in Hrc, Hret.
  pose proof (run_parse (s_receiver s) chunk) as Hrun. rewrite Ep in Hrun.
  pose proof (parse_rest _ _ _ _ _ Ep) as Hrest.
  assert (Hdone : forall tr0, spawned tr0 = spawned tr -> attempts tr0 = attempts tr -> forall o : option Z,
    wps (ret ([], o)) (fun r s' tr' => (exists rc, s' = set_receiver s rc) /\ literal_ok (s_receiver s') /\
       sublist r.1 (requests_in s chunk) /\ Forall (fun q => ready (req_command q) (s_state s)) r.1 /\
       spawned tr' = spawned tr /\ attempts tr' = attempts tr)
    (fun _ tr' => spawned tr' = spawned tr /\ attempts tr' = attempts tr) (set_receiver s rc) tr0).
  { intros tr0 ?? o. apply wps_ret. split_and!; eauto. apply sublist_nil_l. }
  apply wps_bind, wps_put. destruct res as [q|[|size|e]| |]; try done; try (by apply Hdone).
  - destruct Hrest as [[? ?]|[_ Hlen]]; [done|].
    assert (Ein : requests_in s chunk = q :: requests_in (set_receiver s rc) rest).
    { unfold requests_in. by rewrite Hrun. }
    pose proof (is_allowed_returns q (s_state s) (s_is_tls s)) as Hal.
    destruct (is_allowed q (s_state s) (s_is_tls s)) as [q'|e'| |] eqn:Ea; try done.
    + apply allowed_ready in Ea as [-> Hq]. apply wps_bind. eapply wps_mono; [apply IH; [lia | done] | | done].
      intros [l o] s' tr' ([rc' ->] & Hr' & Hsub & Hl & Hs & Ha). cbn in *. apply wps_ret. split_and!; eauto.
      * rewrite Ein. by constructor.
      * by constructor.
    + apply wps_bind, wps_write; [|by rewrite spawned_snoc, attempts_snoc; lia].
      eapply wps_mono; [apply IH; [lia | done] | |].
      * intros [l o] s' tr' ([rc' ->] & Hr' & Hsub & Hl & Hs & Ha). cbn in *. rewrite spawned_snoc in Hs.
        rewrite attempts_snoc in Ha. split_and!; eauto; try lia. rewrite Ein. by constructor.
      * cbn. intros s' tr'. rewrite spawned_snoc, attempts_snoc. lia.
  - apply wps_bind, wps_write; [|by rewrite spawned_snoc, attempts_snoc; lia].
    apply Hdone; rewrite ?spawned_snoc, ?attempts_snoc; lia.
Qed.

(** A session from which only the kind of state matters. *)
Definition ready_for s (q : Request Command) : Prop := ready (req_command q) (s_state s) /\ select_safe q.

Lemma ready_for_trans c l s s' :
  stable c -> trans c (s_state s) (s_state s') -> Forall (ready_for s) l -> Forall (ready_for s') l.
Proof.
  intros Hc Ht Hl. eapply Forall_impl; [|exact Hl]. intros q [Hq Hsel]. split; [by eapply trans_ready | done].
Qed.

Lemma dispatch_ok l s tr :
  literal_ok (s_receiver s) -> Forall (ready_for s) l -> stable_but_last l ->
  wps (dispatch folder_shared cargo_pkg_version (S (length l)) l)
    (fun _ s' _ => literal_ok (s_receiver s')) (fun _ _ => True) s tr.
Proof using HL.
  intros Hr Hl Hst.
  apply (dispatch_loop stable_but_last (fun s _ => literal_ok (s_receiver s)) (fun q s _ => ready_for s q));
    [exact stable_but_last_app | | | lia | done..].
  - clear s tr Hr Hl. intros q rest s tr Hr [Hq Hsel] Hrest [Hs _].
    eapply wps_mono; [by apply handle_request_ok | | done]. intros _ s' tr' (Hr' & Ht & _). split; [done|].
    destruct Hs as [->|Hs]; [done|]. by eapply ready_for_trans.
  - clear s tr Hr Hl. intros c grouped rest s tr Hc Hr Hall Hne Hg.
    assert (Ha : is_authenticated (s_state s) = true).
    { destruct Hg as [|q g Hq Hg]; [done|]. cbn [app] in Hall. apply list.Forall_cons in Hall as [[Hq' _] _]. rewrite Hq in Hq'. by destruct Hc as [-> | ->]. }
    apply Forall_app in Hall as [_ Hrest].
    destruct Hc as [-> | ->]; [rewrite decide_True by done | rewrite decide_False by done].
    + eapply wps_mono; [eapply handle_create_ok; done | | done].
      intros _ s' tr' (Hr' & Ht & _). split; [done|]. by eapply (ready_for_trans Create).
    + eapply wps_mono; [eapply handle_delete_ok; done | | done].
      intros _ s' tr' (Hr' & Ht & _). split; [done|]. by eapply (ready_for_trans Delete).
Qed.

(** ** A client that stays outside *)
Definition outside s tr : Prop :=
  literal_ok (s_receiver s) /\ s_state s = NotAuthenticated (attempts tr) /\ attempts tr <= 3 /\ spawned tr = O.
Definition gone_outside (_ : Sess) tr : Prop := spawned tr = O /\ attempts tr <= 4.

(** No credentials are accepted. *)
Definition rejects : Prop := forall cr w client, (connect cr w).1 <> Ok client.

Lemma outside_handled {A} c (m : C A) s tr :
  rejects -> outside s tr -> ready c (s_state s) -> handled c m s tr -> wps m (fun _ s' tr' => outside s' tr') gone_outside s tr.
Proof.
  intros Hrej (Hr & Hs & Ha & Hsp) Hready Hm. eapply wps_mono; [exact Hm | |].
  - intros _ s' tr' (Hr' & Ht & Hspawn & Hacc). rewrite Hs in *. specialize (Hspawn eq_refl).
    inv Ht as [st E1 E2|n cr w cl d Hc Hok E1 E2|n Hc Hn E1 E2|st d m0 Hc Hd _ E1 E2|d m0 Hc E1 E2|st Hc Hauth E1 E2]; try done.
    + rewrite <- E2 in *. split_and!; [done|rewrite <- E2; f_equal; lia|lia|congruence].
    + by destruct (Hrej _ _ _ Hok).
    + rewrite <- E2 in *. split_and!; [done|rewrite <- E2; f_equal; lia|lia|congruence].
  - intros s' tr' Hcut. rewrite Hs in Hcut. destruct (Hcut eq_refl). split; [congruence|lia].
Qed.

Lemma select_not_ready st q :
  is_authenticated st = false -> ready (req_command q) st -> select_safe q.
Proof. intros Hst Hq [Hc|Hc]; rewrite Hc in Hq; cbn in Hq; congruence. Qed.

Lemma outside_dispatch l s tr :
  rejects -> outside s tr -> Forall (fun q => forall n, ready (req_command q) (NotAuthenticated (D := SessionData) (Ref := Ref) n)) l ->
  wps (dispatch folder_shared cargo_pkg_version (S (length l)) l) (fun _ s' tr' => outside s' tr') gone_outside s tr.
Proof using HL.
  intros Hrej Ho Hl.
  apply (dispatch_loop (fun _ => True) outside
           (fun q _ _ => forall n, ready (req_command q) (NotAuthenticated (D := SessionData) (Ref := Ref) n)));
    [done | | | lia | done..].
  - clear s tr Ho Hl l. intros q rest s tr Ho Hq Hrest _. pose proof Ho as (Hr & Hs & _).
    specialize (Hq (attempts tr)). rewrite <- Hs in Hq.
    eapply wps_mono; [eapply outside_handled; [done..|apply handle_request_ok; try done] | done | done].
    eapply select_not_ready; [|done]. by rewrite Hs.
  - clear s tr Ho Hl l. intros c grouped rest s tr Hc Ho Hall Hne Hg. exfalso.
    destruct Hg as [|q g Hq Hg]; [done|]. cbn [app] in Hall. apply list.Forall_cons in Hall as [Hq' _]. rewrite Hq in Hq'. specialize (Hq' 0).
    by destruct Hc as [-> | ->].
Qed.

Lemma ready_outside c st n : is_authenticated st = false -> ready c st -> ready c (NotAuthenticated (D := SessionData) (Ref := Ref) n).
Proof. by destruct st, c. Qed.

Lemma outside_ingest chunk s tr :
  rejects -> outside s tr -> wps (ingest folder_shared cargo_pkg_version chunk) (fun _ s' tr' => outside s' tr') gone_outside s tr.
Proof using HL.
  intros Hrej (Hr & Hs & Ha & Hsp). apply wps_bind. eapply wps_mono; [apply collect_ok; [lia | done] | |].
  2: { cbn. intros s' tr' [E1 E2]. split; [congruence | lia]. }
  intros [l o] s' tr' ([rc ->] & Hr' & _ & Hl & Hsp' & Ha'). cbn in Hl.
  assert (Ho : outside (set_receiver s rc) tr').
  { split_and!; [done | cbn; rewrite Hs; f_equal; lia | lia | congruence]. }
  apply wps_bind. eapply wps_mono; [apply outside_dispatch; [done..|] | | done].
  { eapply Forall_impl; [|exact Hl]. intros q Hq n. eapply ready_outside; [|exact Hq]. by rewrite Hs. }
  intros [] s2 tr2 Ho2; [by apply wps_ret|]. destruct o as [size|]; [|by apply wps_ret].
  destruct Ho2 as (Hr2 & Hs2 & Ha2 & Hsp2).
  apply wps_bind, wps_write; [apply wps_ret|]; rewrite ?spawned_snoc, ?attempts_snoc.
  - split_and!; rewrite ?spawned_snoc, ?attempts_snoc; [done | rewrite Hs2; f_equal; lia | lia | lia].
  - split; rewrite ?spawned_snoc, ?attempts_snoc; lia.
Qed.

Lemma outside_on_read chunk s tr :
  rejects -> outside s tr -> wps (on_read folder_shared cargo_pkg_version chunk) (fun _ s' tr' => outside s' tr') gone_outside s tr.
Proof using HL.
  intros Hrej Ho. unfold on_read. apply wps_bind, wps_get. destruct (s_idle s); [|by apply outside_ingest].
  pose proof Ho as (Hr & Hs & Ha & Hsp).
  destruct (starts_with _ _); wps_steps; try done. split; [done | lia].
Qed.

Lemma outside_serve chunks s tr :
  rejects -> outside s tr -> wps (serve folder_shared cargo_pkg_version chunks) (fun _ s' tr' => outside s' tr') gone_outside s tr.
Proof using HL.
  intros Hrej. revert s tr; induction chunks as [|chunk chunks IH]; intros s tr Ho; cbn [serve]; [by apply wps_ret|].
  apply wps_bind. eapply (wps_mono _ (fun _ s' tr' => outside s' tr') _ gone_outside); [by apply outside_on_read| |done].
  intros [] s' tr' Ho'; [apply wps_bind, wps_modify, IH, Ho' | by apply wps_bind, wps_ret, IH].
Qed.

(** ** Properties *)


(** A client whose credentials the JMAP server never accepts stays
    outside, whatever it sends: none of its input starts a task on mailbox
    data, it has at most three failed attempts while it is connected, the
    counter counts them all, and the fourth disconnects it. *)
Theorem rejected_client_stays_outside chunks w max is_tls :
  rejects ->
  match serve folder_shared cargo_pkg_version chunks (mkConn (new_session max is_tls) w []) with
  | (Ok _, c) => spawned (trace c) = O /\ s_state (session c) = NotAuthenticated (attempts (trace c)) /\ attempts (trace c) <= 3
  | (Err _, c) => spawned (trace c) = O /\ attempts (trace c) <= 4
  | _ => False
  end.
Proof using HL.
  intros Hrej.
  assert (Ho : outside (new_session max is_tls) []) by by split_and!.
  pose proof (outside_serve chunks _ _ Hrej Ho w) as Hs.
  destruct (serve _ _ chunks _) as [[a|e| |] c]; try done. by destruct Hs as (_ & ? & ? & ?).
Qed.

(** C35: AUTHENTICATE without an initial response goes on with the next line:
    the client is asked for it, and the line it sends is received as the
    response of the same command, as if it had been sent along. *)
Theorem authenticate_continues s w tr t m mx line :
  s_receiver s = new_receiver mx Start -> m = Plain \/ m = OAuthBearer -> (forall w x, (send_bytes x w).1 = Ok tt) ->
  arg_ok Authenticate (AtomArg line) -> Z.of_nat (length line) <= mx ->
  match handle_authenticate (mkRequest t Authenticate [Argument (mechanism_serialize m)]) (mkConn s w tr) with
  | (Ok _, c) =>
      trace c = tr ++ [Wrote (b "+ " ++ [DQUOTE; DQUOTE] ++ CRLF)] /\
      run (s_receiver (session c)) (line ++ CRLF) =
        (new_receiver mx Start, [Ok (mkRequest t Authenticate (map arg_token [AtomArg (mechanism_serialize m); AtomArg line]))])
  | _ => False
  end.
Proof using HL.
  intros Hr Hm Hsend Hline Hmx.
  assert (Hp : parse_authenticate (mkRequest t Authenticate [Argument (mechanism_serialize m)]) =
               Ok {| auth_tag := t; auth_mechanism := m; auth_params := [] |}) by by destruct Hm as [-> | ->].
  unfold handle_authenticate. rewrite Hp. cbn [parsed auth_mechanism auth_params list.last].
  assert (Hrun : forall r, r = at_arg mx Start t Authenticate [Argument (mechanism_serialize m)] 0 [] SP ->
    run r (line ++ CRLF) = (new_receiver mx Start,
      [Ok (mkRequest t Authenticate (map arg_token [AtomArg (mechanism_serialize m); AtomArg line]))])).
  { intros r ->. rewrite run_app. pose proof (run_arg mx Start t Authenticate [Argument (mechanism_serialize m)] 0 (AtomArg line) Hline) as Hra.
    cbn [arg_text] in Hra. rewrite Hra by (cbn; lia). cbn [fst snd arg_events app].
    destruct (after_arg_flush mx Start t Authenticate [Argument (mechanism_serialize m)] 0 (AtomArg line) Hline ltac:(lia))
      as (ts' & cur' & bf & last & -> & Hflush & Hcur & Hc0).
    rewrite run_line_end by (cbn [arg_size] in Hcur; lia). cbn [fst snd app]. rewrite Hflush.
    by destruct Hm as [-> | ->]. }
  specialize (Hsend w (b "+ " ++ [DQUOTE; DQUOTE] ++ CRLF)).
  assert (Hb : at_arg mx Start t Authenticate [Argument (mechanism_serialize m)] 0 [] SP = s_receiver (resume_authenticate t m s)).
  { unfold resume_authenticate, Receiver.set_state, set_request. cbn [s_receiver set_receiver]. by rewrite Hr. }
  destruct Hm as [-> | ->]; cbn -[run mechanism_serialize b CRLF arg_token resume_authenticate] in *; unfold on_world;
    cbn -[run mechanism_serialize b CRLF arg_token resume_authenticate];
    destruct (send_bytes _ w) as [r0 w0]; cbn in Hsend |- *; subst r0; (split; [done|]); by apply Hrun.
Qed.
End Chunks.

(** ** A world in which every call succeeds

    One account with an INBOX; [accept] says which credentials are valid. *)
Module Demo.
Definition empty_mailbox : MailboxData := mkMailboxData 1 7 [] [] 0 [].

Definition world (accept : Credentials -> bool) : Backend unit := {|
  Client := unit; Account := unit; SessionData := unit; Ref := unit;
  connect c := if accept c then ret tt else lift (Err tt);
  fetch_mailboxes _ := ret (Some [tt]);
  purge_deleted _ := ret tt;
  new_session_data _ _ := ret tt;
  mailboxes_len _ := ret 1%nat;
  synchronize_mailboxes _ := ret (inl tt);
  get_mailbox_by_name _ name := ret (if bool_decide (name = b "INBOX") then Some (mkMailboxId (b "a") (Some (b "i"))) else None);
  synchronize_messages _ _ := ret (inl empty_mailbox);
  get_jmap_state _ _ := ret (inl []);
  core_state_to_modseq _ _ _ := ret 0;
  data_fetch _ _ _ _ _ _ := ret tt;
  data_expunge _ _ _ := ret (inl []);
  write_changes _ _ _ _ := ret tt;
  event_source _ _ := ret tt;
  new_mailbox _ := ret tt;
  lock_state _ := ret empty_mailbox;
  set_mailbox_state _ _ := ret tt;
  saved_search _ := ret SavedNone;
  clear_saved_search _ := ret tt;
  start_saved_search _ := ret tt;
  send_bytes _ := ret tt;
  recover_stream := ret tt;
  stop_idle := ret tt;
  spawn _ _ := ret tt
|}.

Lemma world_laws accept : @BackendLaws unit (world accept).
Proof. split; try done; cbn; [intros c w; by destruct (accept c) | intros c w l [= <-]; done]. Qed.

#[local] Instance debug : DebugFmt := {| debug_str s := s; debug_char c := [c] |}.
#[local] Instance no_dates : Chrono := {|
  parse_datetime_str _ := None; parse_date_str _ := None; format_datetime _ := []; format_rfc2822 _ := [] |}.
#[local] Instance no_charsets : Charsets := fun _ => None.
#[local] Instance no_base64 : Base64 := fun x => Some x.

Definition lines (l : list string) : bytes := flat_map (fun x => b x ++ CRLF) l.

Section Runs.
Context (accept : Credentials -> bool).
#[local] Instance here : Backend unit := world accept.

Definition start (is_tls : bool) : Session unit unit := new_session 1000 is_tls.
Definition selected : Session unit unit :=
  set_state (start true) (Selected tt (mkSelectedMailbox tt (mkMailboxId (b "a") (Some (b "i"))) true false)).

(** What the client reads while the server serves these chunks, and whether
    the server panicked. *)
Definition run_chunks (s : Session unit unit) (chunks : list bytes) : Res unit unit * Conn :=
  serve (b "Shared Folders") (b "0.1") chunks (mkConn s tt []).
Definition answers (s : Session unit unit) (chunks : list bytes) : list bytes :=
  omap (fun e => match e with Wrote x => Some x | _ => None end) (trace (run_chunks s chunks).2).
Definition panics (s : Session unit unit) (chunks : list bytes) : bool :=
  match (run_chunks s chunks).1 with Panic => true | _ => false end.
End Runs.

Definition anyone (c : Credentials) : bool := true.
Definition only_john (c : Credentials) : bool := match c with Basic u _ => bool_decide (u = b "john") | _ => false end.

(** LOGIN, then SELECT in a chunk of its own, selects the mailbox. *)
Example log_in_and_select :
  s_state (session (run_chunks anyone (start anyone true) [lines ["A1 LOGIN john secret"]; lines ["A2 SELECT INBOX"]]).2) =
  s_state (selected anyone).
Proof. vm_compute. reflexivity. Qed.

(** In the same chunk SELECT is refused: it is checked before LOGIN has run. *)
Example pipelined_select_refused :
  head (answers anyone (start anyone true) [lines ["A1 LOGIN john secret"; "A2 SELECT INBOX"]]) =
  Some (b "A2 NO Not authenticated." ++ CRLF).
Proof. vm_compute. reflexivity. Qed.

(** CLOSE and a command on the mailbox in one chunk: both are allowed while
    the mailbox is selected, and the second finds none. *)
Example close_then_expunge_panics :
  panics anyone (selected anyone) [lines ["A1 CLOSE"; "A2 EXPUNGE"]] = true /\
  panics anyone (selected anyone) [lines ["A1 CLOSE"]; lines ["A2 EXPUNGE"]] = false.
Proof. vm_compute. split; reflexivity. Qed.

(** Two LOGINs in one chunk: a failure of the second after the success of the
    first. *)
Example second_login_panics :
  panics only_john (start only_john true) [lines ["A1 LOGIN john secret"; "A2 LOGIN eve secret"]] = true.
Proof. vm_compute. reflexivity. Qed.

(** QRESYNC parameters without known UIDs. *)
Example qresync_without_uids_panics :
  panics anyone (selected anyone) [lines ["A1 ENABLE QRESYNC"]; lines ["A2 SELECT INBOX (QRESYNC (7 1))"]] = true /\
  panics anyone (selected anyone) [lines ["A1 ENABLE QRESYNC"]; lines ["A2 SELECT INBOX (QRESYNC (7 1 1:9))"]] = false.
Proof. vm_compute. split; reflexivity. Qed.

(** What follows an erroneous command in the same chunk is lost. *)
Example error_drops_chunk :
  answers anyone (selected anyone) [lines ["A1 FOO"; "A2 NOOP"]] =
  answers anyone (selected anyone) [lines ["A1 FOO"]] /\
  length (answers anyone (selected anyone) [lines ["A1 FOO"]; lines ["A2 NOOP"]]) = 2%nat.
Proof. vm_compute. split; reflexivity. Qed.

(** The part of a command that came in clear before the TLS handshake is
    completed with what comes after it. *)
Example starttls_keeps_input :
  answers anyone (start anyone false) [lines ["A1 STARTTLS"] ++ b "A2 LO"; b "GIN john secret" ++ CRLF] =
  answers anyone (start anyone false) [lines ["A1 STARTTLS"]; lines ["A2 LOGIN john secret"]].
Proof. vm_compute. reflexivity. Qed.

(** A command in the packet of DONE is lost. *)
Example done_drops_chunk :
  answers anyone (selected anyone) [lines ["A1 IDLE"]; lines ["DONE"; "A2 NOOP"]] =
  answers anyone (selected anyone) [lines ["A1 IDLE"]; lines ["DONE"]] /\
  length (answers anyone (selected anyone) [lines ["A1 IDLE"]; lines ["DONE"]; lines ["A2 NOOP"]]) = 2%nat.
Proof. vm_compute. split; reflexivity. Qed.
End Demo.

(** ** The properties at concrete inputs *)
Import Demo.
#[local] Existing Instances Demo.debug Demo.no_dates Demo.no_charsets Demo.no_base64.
#[local] Instance john_world : Backend unit := world only_john.
#[local] Instance john_laws : BackendLaws unit := world_laws only_john.


Lemma rejected_client_stays_outside_witness :
  spawned (trace (run_chunks (fun _ => false) (start (fun _ => false) true)
    [lines ["A1 LOGIN eve x"; "A2 SELECT INBOX"]; lines ["A3 LOGIN eve y"]]).2) = O.
Proof.
  pose proof (@rejected_client_stays_outside unit (world (fun _ => false)) (world_laws (fun _ => false)) _ _ _ _
    (b "Shared Folders") (b "0.1") [lines ["A1 LOGIN eve x"; "A2 SELECT INBOX"]; lines ["A3 LOGIN eve y"]] tt 1000 true) as Hr.
  unfold run_chunks, start, here. destruct (serve _ _ _ _) as [[a|e| |] c]; cbn in *; first [apply Hr | exfalso; apply Hr]; done.
Defined.

Lemma authenticate_continues_witness :
  trace (handle_authenticate (mkRequest (b "A1") Authenticate [Argument (mechanism_serialize Plain)])
    (mkConn (start only_john true) tt [])).2 = [Wrote (b "+ " ++ [DQUOTE; DQUOTE] ++ CRLF)].
Proof.
  assert (Hl : arg_ok Authenticate (AtomArg (b "AGpvaG4AeA=="))) by by repeat constructor.
  assert (Hz : Z.of_nat (length (b "AGpvaG4AeA==")) <= 1000) by by vm_compute.
  pose proof (authenticate_continues (start only_john true) tt [] (b "A1") Plain 1000 (b "AGpvaG4AeA==")
    eq_refl (or_introl eq_refl) (fun _ _ => eq_refl) Hl Hz) as Ha.
  destruct (handle_authenticate _ _) as [[a|e| |] c]; [exact (proj1 Ha) | destruct Ha..].
Defined.
