(* ===== verification/Lifecycle.v ===== *)
(** * From the listener to the end of a connection

    [src/core/listener.rs], [src/managesieve/listener.rs] and
    [src/core/connection.rs]: connections are accepted until the server stops;
    an IMAP connection is greeted and then read from until it is closed, fails,
    is silent for too long, or the server stops. *)

From S2P Require Import Prelude Utf8 Utf7 Types Receiver ReceiverSpec Sequence Flags Wire Commands Parsers ParseSearch ParseFetch.
From S2P Require Import Responses Store UidStore SelectedMailbox Sasl Session SessionSpec SessionProps.

(** ** Listeners *)

(** What [tokio::select!] of a listener yields: a connection, an error, or the
    news that the server stops. *)
Inductive Incoming (Peer : Type) := Accepted (peer : Peer) | AcceptFailed | ListenerStops.
Arguments Accepted {Peer}. Arguments AcceptFailed {Peer}. Arguments ListenerStops {Peer}.

(** The connections that get a task of their own. *)
Fixpoint accept_loop {Peer} (l : list (Incoming Peer)) : list Peer :=
  match l with
  | Accepted peer :: l' => peer :: accept_loop l'
  | AcceptFailed :: l' => accept_loop l'
  | ListenerStops :: _ | [] => []
  end.

(** ** A connection *)

(** What a read of at most 4096 bytes yields ([Read []] is the end of the
    stream), or the news that the server stops; and the seconds that pass
    before. *)
Inductive Arrival := Read (chunk : bytes) | ReadFailed | ServerStops.
Abbreviation Timeline := (list (Z * Arrival)).

(** How a connection ends. *)
Inductive Ending := ClosedByPeer | Failed | TimedOut | ShutDown | Disconnected | TlsFailed | WriterGone.
#[global] Instance ending_eq_dec : EqDecision Ending.
Proof. solve_decision. Defined.

(** The address of the peer, the TLS acceptor, the greeting on the bare socket,
    and the channel of the writer: is it still there? *)
Class Streams (W : Type) := {
  peer_addr : EM W unit unit;
  accept_tls : EM W unit unit;
  write_greeting : bytes -> EM W unit unit;
  send_stream : M W bool
}.

Definition SERVER_GREETING (cargo_pkg_version : str) : list Piece :=
  [PStr (b "Stalwart IMAP4rev2 v"); PStr cargo_pkg_version; PStr (b " at your service.")].

Definition NON_AUTHENTICATED_TIMEOUT : Z := 60.
Definition AUTHENTICATED_TIMEOUT : Z := 30 * 60.

Section Lifecycle.
Context {W : Type} `{HB : Backend W} `{Streams W} `{DebugFmt} `{Chrono} `{Charsets} `{Base64}.
Context (folder_shared : str) (cargo_pkg_version : str).

Abbreviation Sess := (Session SessionData Ref).
Abbreviation C := (M (@Conn W _)).

Definition greeting (is_tls : bool) : bytes :=
  status_serialize (with_code (sr_ok (SERVER_GREETING cargo_pkg_version)) (CapabilityCode (all_capabilities false is_tls))).

Definition read_timeout (st : SessionState SessionData Ref) : Z :=
  if is_authenticated st then AUTHENTICATED_TIMEOUT else NON_AUTHENTICATED_TIMEOUT.

(** [session.write_bytes(..).await.ok()] *)
Definition farewell (text : string) (e : Ending) : C Ending :=
  do* _ := attempt (F := unit) (write_bytes (b "* BYE " ++ b text ++ CRLF)) in ret e.

(** The loop of [handle_conn] and, after the upgrade or from the beginning,
    of [handle_conn_tls]. Nothing more on the timeline is silence. *)
Fixpoint conn_loop (tls : bool) (l : Timeline) : C Ending :=
  match l with
  | [] => farewell "Connection timed out." TimedOut
  | (elapsed, arrival) :: l' =>
      do* s := get_session in
      if read_timeout (s_state s) <=? elapsed then farewell "Connection timed out." TimedOut
      else
        match arrival with
        | Read [] => ret ClosedByPeer
        | Read chunk =>
            do* r := attempt (on_read folder_shared cargo_pkg_version chunk) in
            match r with
            | Ok upgrade =>
                if upgrade && negb tls then
                  do* accepted := attempt (on_world accept_tls) in
                  match accepted with
                  | Ok _ =>
                      do* _ := set_stream_tls in
                      do* sent := on_world send_stream in
                      if sent : bool then conn_loop true l' else ret WriterGone
                  | _ => ret TlsFailed
                  end
                else conn_loop tls l'
            | Err _ => ret Disconnected
            | Panic => lift Panic
            | NoFuel => lift NoFuel
            end
        | ReadFailed => ret Failed
        | ServerStops => farewell "Server shutting down." ShutDown
        end
  end.

Definition handle_conn (tls : bool) (l : Timeline) : C Ending :=
  do* sent := on_world send_stream in
  if sent : bool then conn_loop tls l else ret WriterGone.

(** [handle_conn_tls] sets [is_tls] again, which [Session::new] has set here. *)
Definition greet_and_handle (is_tls : bool) (l : Timeline) : C Ending :=
  do* accepted := (if is_tls then attempt (on_world accept_tls) else ret (Ok tt)) in
  match accepted with
  | Ok _ =>
      do* greeted := attempt (on_world (write_greeting (greeting is_tls))) in
      match greeted with
      | Ok _ => handle_conn is_tls l
      | _ => ret Failed
      end
  | _ => ret TlsFailed
  end.

(** The task of an accepted connection; the address is unwrapped. *)
Definition handle_accepted (is_tls : bool) (l : Timeline) : C Ending :=
  do* known := attempt (on_world peer_addr) in
  match known with Ok _ => greet_and_handle is_tls l | _ => lift Panic end.

(** ** A client that is never accepted *)
Class StreamsLaws := {
  accept_tls_returns w : returns (accept_tls w).1;
  write_greeting_returns x w : returns (write_greeting x w).1;
  send_stream_ok w : exists there, (send_stream w).1 = Ok there
}.
Context `{HL : !BackendLaws W} `{SL : !StreamsLaws}.
#[local] Hint Resolve accept_tls_returns write_greeting_returns : imap.

Abbreviation Tr := (list (Event Ref)).

(** The connection is over, without a task or too many attempts. *)
Definition over (e : Ending) (_ : Sess) (tr : Tr) : Prop := spawned tr = O /\ attempts tr <= 4 /\ (e <> Disconnected -> attempts tr <= 3).
Abbreviation never := (fun _ _ => False).

Lemma wps_farewell text e s tr : outside s tr -> wps (farewell text e) over never s tr.
Proof using HL.
  intros (_ & _ & Ha & Hsp) w. unfold farewell, bindM, attempt.
  assert (Hw : wps (write_bytes (b "* BYE " ++ b text ++ CRLF)) (fun _ _ tr' => spawned tr' = O /\ attempts tr' <= 3)
    (fun _ tr' => spawned tr' = O /\ attempts tr' <= 3) s tr).
  { apply wps_write; by rewrite spawned_snoc, attempts_snoc, Z.add_0_r, Nat.add_0_r. }
  specialize (Hw w). destruct (write_bytes _ (mkConn s w tr)) as [[a|x| |] c]; try done; destruct Hw; split_and!; cbn; (done || lia).
Qed.

Lemma wps_attempt_read {A} chunk (k : Res unit bool -> C A) Q E s tr :
  rejects -> outside s tr ->
  (forall up s' tr', outside s' tr' -> wps (k (Ok up)) Q E s' tr') ->
  (forall s' tr', gone_outside s' tr' -> wps (k (Err tt)) Q E s' tr') ->
  wps (bindM (attempt (on_read folder_shared cargo_pkg_version chunk)) k) Q E s tr.
Proof using HL.
  intros Hrej Ho Hok Herr w. pose proof (outside_on_read folder_shared cargo_pkg_version chunk _ _ Hrej Ho w) as Hr.
  unfold bindM, attempt. destruct (on_read _ _ _ _) as [[up|[]| |] [s' w' tr']]; try done.
  - by apply Hok.
  - by apply Herr.
Qed.

Lemma read_timeout_outside s tr : outside s tr -> read_timeout (s_state s) = NON_AUTHENTICATED_TIMEOUT.
Proof. intros (_ & Hs & _). unfold read_timeout. by rewrite Hs. Qed.

Lemma outside_tls s tr : outside s tr -> outside (set_tls s) tr.
Proof. by intros (? & ? & ? & ?). Qed.

Lemma outside_over e s tr : outside s tr -> over e s tr.
Proof. intros (_ & _ & Ha & Hsp). split_and!; [done|lia|done]. Qed.

Lemma wps_send_stream (Q : bool -> Sess -> Tr -> Prop) E s tr :
  (forall there, Q there s tr) -> wps (on_world send_stream) Q E s tr.
Proof using SL.
  intros HQ w. unfold on_world. destruct (send_stream_ok w) as [there Hw]. cbn.
  destruct (send_stream w) as [r w']. cbn in Hw. subst r. apply HQ.
Qed.

Lemma wps_conn_loop l : forall tls s tr, rejects -> outside s tr -> wps (conn_loop tls l) over never s tr.
Proof using HL SL.
  induction l as [|[elapsed arrival] l IH]; intros tls s tr Hrej Ho; cbn [conn_loop]; [by apply wps_farewell|].
  wps_step. wps_step. destruct (_ <=? _); [by apply wps_farewell|].
  destruct arrival as [[|x chunk]| |]; [by apply wps_ret, outside_over| |by apply wps_ret, outside_over|by apply wps_farewell].
  apply wps_attempt_read; [done|done| |].
  - intros up s' tr' Ho'. destruct (up && negb tls); [|by apply IH].
    wps_step. wps_step. destruct r; try (by apply wps_ret, outside_over).
    unfold set_stream_tls. wps_step. wps_step. wps_step. apply wps_send_stream. intros [].
    + by apply IH, outside_tls.
    + by apply wps_ret, outside_over, outside_tls.
  - intros s' tr' [Hsp Ha]. apply wps_ret. by split_and!.
Qed.

Lemma wps_greet_and_handle max is_tls l :
  rejects -> wps (greet_and_handle is_tls l) over never (new_session max is_tls) [].
Proof using HL SL.
  intros Hrej. assert (Ho : outside (new_session max is_tls) []) by by split_and!.
  unfold greet_and_handle, handle_conn.
  assert (Hgreet : wps (do* greeted := attempt (on_world (write_greeting (greeting is_tls))) in
      match greeted with
      | Ok _ => do* sent := on_world send_stream in if sent : bool then conn_loop is_tls l else ret WriterGone
      | _ => ret Failed
      end) over never (new_session max is_tls) []).
  { wps_step. wps_step. destruct r; try (by apply wps_ret, outside_over).
    wps_step. apply wps_send_stream. intros []; [by apply wps_conn_loop|by apply wps_ret, outside_over]. }
  apply wps_bind. destruct is_tls; [|by apply wps_ret].
  wps_step. destruct r; [exact Hgreet|by apply wps_ret, outside_over..].
Qed.

(** ** What comes after too long a silence is not served *)
Lemma bind_ext {A B} (m : C A) (k k' : A -> C B) c :
  (forall a c', m c = (Ok a, c') -> k a c' = k' a c') -> bindM m k c = bindM m k' c.
Proof. intros Hk. unfold bindM. destruct (m c) as [[a|e| |] c'] eqn:Hm; [by apply Hk|done..]. Qed.

Lemma conn_loop_cut t a l2 l1 : NON_AUTHENTICATED_TIMEOUT <= t -> rejects ->
  forall tls s w tr, outside s tr -> conn_loop tls (l1 ++ (t, a) :: l2) (mkConn s w tr) = conn_loop tls l1 (mkConn s w tr).
Proof using HL SL.
  intros Ht Hrej. induction l1 as [|[elapsed arrival] l1 IH]; intros tls s w tr Ho; cbn [app conn_loop].
  - unfold bindM at 1, get_session. cbn [session]. rewrite (read_timeout_outside s tr Ho).
    by rewrite (proj2 (Z.leb_le _ _) Ht).
  - apply bind_ext. intros s0 c0 [= <- <-]. destruct (_ <=? _); [done|].
    destruct arrival as [[|x chunk]| |]; [done| |done..].
    pose proof (outside_on_read folder_shared cargo_pkg_version (x :: chunk) s tr Hrej Ho w) as Hr.
    apply bind_ext. intros r c1. unfold attempt.
    destruct (on_read _ _ _ _) as [[up|[]| |] [s' w' tr']]; intros [= <- <-]; try done. cbn in Hr.
    destruct (up && negb tls); [|by apply IH].
    apply bind_ext. intros r c2. unfold attempt, on_world. cbn [world session trace].
    destruct (accept_tls w') as [[[]|e| |] w2]; intros [= <- <-]; try done.
    apply bind_ext. intros [] c3 [= <-].
    apply bind_ext. intros b4 c4. unfold on_world. cbn [world session trace].
    destruct (send_stream w2) as [r w3]. intros [= -> <-]. destruct b4; [|done]. by apply IH, outside_tls.
Qed.

Lemma greet_and_handle_cut max is_tls t a l2 l1 w : NON_AUTHENTICATED_TIMEOUT <= t -> rejects ->
  greet_and_handle is_tls (l1 ++ (t, a) :: l2) (mkConn (new_session max is_tls) w []) =
  greet_and_handle is_tls l1 (mkConn (new_session max is_tls) w []).
Proof using HL SL.
  intros Ht Hrej. assert (Ho : outside (new_session max is_tls) []) by by split_and!.
  unfold greet_and_handle. apply bind_ext. intros r c1 Hr.
  assert (Hc : exists w', c1 = mkConn (new_session max is_tls) w' []).
  { destruct is_tls; [|injection Hr as <- <-; eauto]. unfold attempt, on_world in Hr. cbn in Hr.
    destruct (accept_tls w) as [[|?| |] ?]; cbn in Hr; try done; injection Hr as <- <-; eauto. }
  destruct Hc as [w1 ->]. destruct r; try done.
  apply bind_ext. intros r c2. unfold attempt, on_world. cbn [world session trace].
  destruct (write_greeting _ w1) as [[|?| |] w2]; intros [= <- <-]; try done.
  apply bind_ext. intros there c3. unfold on_world. cbn [world session trace].
  destruct (send_stream w2) as [r w3]. intros [= -> <-]. destruct there; [by apply conn_loop_cut|done].
Qed.

Lemma handle_accepted_known is_tls l s w tr : (peer_addr w).1 = Ok tt ->
  exists w', handle_accepted is_tls l (mkConn s w tr) = greet_and_handle is_tls l (mkConn s w' tr).
Proof.
  intros Hp. unfold handle_accepted, bindM at 1, attempt, on_world. cbn [world session trace].
  destruct (peer_addr w) as [r w']. cbn in Hp. subst r. by exists w'.
Qed.

Lemma handle_accepted_cut max is_tls t a l2 l1 w : NON_AUTHENTICATED_TIMEOUT <= t -> rejects ->
  handle_accepted is_tls (l1 ++ (t, a) :: l2) (mkConn (new_session max is_tls) w []) =
  handle_accepted is_tls l1 (mkConn (new_session max is_tls) w []).
Proof using HL SL.
  intros Ht Hrej. apply bind_ext. intros r c. unfold attempt, on_world. cbn [world session trace].
  destruct (peer_addr w) as [[|?| |] w']; intros [= <- <-]; try done. by apply greet_and_handle_cut.
Qed.

(** ** What is advertised and what is allowed *)
Definition allows (c : Command) (st : SessionState SessionData Ref) (is_tls : bool) : bool :=
  match is_allowed (mkRequest [] c []) st is_tls with Ok _ => true | _ => false end.

(** The capabilities that stand for a command. *)
Definition capability_of (c : Command) : option Capability :=
  match c with
  | StartTls => Some CapStartTLS
  | Authenticate => Some (Auth Plain)
  | Idle => Some CapIdle
  | Namespace => Some CapNamespace
  | SetAcl | DeleteAcl | GetAcl | ListRights | MyRights => Some CapACL
  | Unauthenticate => Some UnAuthenticate
  | _ => None
  end.

(** A command that has a capability is allowed exactly when the capability is
    advertised. LOGIN is the exception: it is refused in clear text, and
    LOGINDISABLED is never advertised. *)
Lemma advertised_allowed st is_tls c cap :
  capability_of c = Some cap -> allows c st is_tls = bool_decide (cap ∈ all_capabilities (is_authenticated st) is_tls).
Proof.
  intros Hc.
  destruct c; cbn in Hc; try discriminate; injection Hc as <-;
    destruct st, is_tls; vm_compute; reflexivity.
Qed.

Lemma login_disabled_silently n :
  allows Login (NotAuthenticated n) false = false /\
  Forall (fun au => ~ In LoginDisabled (all_capabilities au false)) [true; false].
Proof. split; [done|]. repeat constructor; cbn; intuition discriminate. Qed.

(** ** The property *)

End Lifecycle.

(** ** Connections to the demo world *)
Module Demo.
Import SessionProps.Demo.
#[export] Existing Instances SessionProps.Demo.debug SessionProps.Demo.no_dates SessionProps.Demo.no_charsets SessionProps.Demo.no_base64.

#[export] Instance nobody_world : Backend unit := world (fun _ => false).
#[export] Instance nobody_laws : BackendLaws unit := world_laws (fun _ => false).
#[export] Instance streams : Streams unit := {| peer_addr := ret tt; accept_tls := ret tt; write_greeting _ := ret tt; send_stream := ret true |}.
#[export] Instance streams_laws : StreamsLaws.
Proof. split; try done. intros []. by exists true. Qed.

Definition connection (is_tls : bool) (l : Timeline) : Res unit Ending * Conn :=
  handle_accepted (b "Shared Folders") (b "0.1") is_tls l (mkConn (new_session 1000 is_tls) tt []).

Definition logins : Timeline := [
  (1, Read (lines ["A0 STARTTLS"])); (1, Read (lines ["A1 LOGIN eve 1"; "A2 LOGIN eve 2"]));
  (59, Read (lines ["A3 LOGIN eve 3"])); (60, Read (lines ["A4 LOGIN eve 4"]))].

(** The handshake comes first, three attempts are refused, and the fourth
    comes too late. *)
Example eve_times_out : (connection false logins).1 = Ok TimedOut /\ attempts (trace (connection false logins).2) = 3.
Proof. vm_compute. split; reflexivity. Qed.

(** In time, it disconnects. *)
Example eve_disconnected :
  (connection true [(1, Read (lines ["A1 LOGIN eve 1"; "A2 LOGIN eve 2"; "A3 LOGIN eve 3"; "A4 LOGIN eve 4"; "A5 NOOP"]))]).1 = Ok Disconnected.
Proof. vm_compute. reflexivity. Qed.

Example first_words : greeting (b "0.1") true =
  b "* OK [CAPABILITY IMAP4rev2 IMAP4rev1 ENABLE SASL-IR LITERAL+ ID UTF8=ACCEPT AUTH=OAUTHBEARER AUTH=PLAIN] Stalwart IMAP4rev2 v0.1 at your service." ++ CRLF.
Proof. vm_compute. reflexivity. Qed.
End Demo.

Import SessionProps.Demo Demo.
