(* ===== verification/Server.v ===== *)
(** * The connection and its tasks together

    [Session.v] models the task of a connection against the interface
    [Backend]; here the interface is implemented by the components that the
    code calls behind it: the caches of mailboxes, the snapshots of selected
    mailboxes and the tasks of the commands, over the JMAP server and the store.
    A task that a handler spawns waits in a queue; [run_task] runs it. *)

From stdpp Require Import sorting.
From S2P Require Import Prelude Utf8 Utf7 Types Receiver Sequence Flags Wire Commands Parsers ParseSearch ParseFetch Responses FetchWire Mime.
From S2P Require Import Jmap Store UidStore Modseq Synchronize BTree Mailboxes Folders SelectedMailbox Tasks SearchTask SearchSpec StatusTask.
From S2P Require Import AclTask FetchTask StoreTask CopyTask AppendTask ThreadTask ExpungeTask IdleTask Listing Sasl Session.

(** Connecting to the JMAP server, its event source, and the events that come. *)
Class Connection (W : Type) := {
  jmap_connect : Credentials -> EM W unit unit;
  open_events : bool -> EM W unit unit;
  idle_events : W -> list IdleEvent
}.

(** What the tasks of a connection share: the caches of mailboxes of its
    sessions, the snapshots and saved searches of the mailboxes it selected,
    the bytes in the channel of the writer, the tasks that were spawned. *)
Record Server (W : Type) := mkServer {
  sv_world : W;
  sv_sessions : list (list Mailboxes.Account);
  sv_mailboxes : list (MailboxData * SavedSearch);
  sv_sent : list bytes;
  sv_tasks : list (nat * Task nat)
}.
Arguments mkServer {W}. Arguments sv_world {W}. Arguments sv_sessions {W}. Arguments sv_mailboxes {W}.
Arguments sv_sent {W}. Arguments sv_tasks {W}.

Definition empty_data : MailboxData := mkMailboxData 0 0 [] [] 0 [].

Section Server.
Context {W : Type} `{Sled W} `{Clock W} `{EmailClient W} `{MailboxClient W} `{FolderClient W} `{StatusClient W}.
Context `{SearchClient W} `{Limits W} `{FetchClient W} `{StoreClient W} `{CopyClient W} `{AppendClient W}.
Context `{ThreadClient W} `{AclClient W} `{ExpungeClient W} `{ChangesClient} `{Connection W}.
Context `{DebugFmt} `{Chrono} `{Md5}.
(** [self.core.folder_shared], [self.core.folder_all]; the fuel of the loops over pages. *)
Context (folder_shared folder_all : str) (fuel : nat).

Abbreviation S := (Server W).

(** ** The parts of the state a component works on *)
Definition of_world {E A} (m : EM W E A) : EM S E A := fun v =>
  let '(r, w) := m (sv_world v) in (r, mkServer w (sv_sessions v) (sv_mailboxes v) (sv_sent v) (sv_tasks v)).

Definition of_session {E A} (d : nat) (m : EM (Data W) E A) : EM S E A := fun v =>
  let '(r, s) := m (mkData (default [] (sv_sessions v !! d)) (sv_world v)) in
  (r, mkServer (outer s) (<[d := mailboxes s]> (sv_sessions v)) (sv_mailboxes v) (sv_sent v) (sv_tasks v)).

Definition task_state (v : S) (ref : option nat) : TaskState W :=
  let '(data, saved) := default (empty_data, SavedNone) (ref ≫= fun r => sv_mailboxes v !! r) in
  mkTaskState data saved [] (sv_world v).

Lemma task_state_selected (v : S) r data saved :
  sv_mailboxes v !! r = Some (data, saved) -> task_state v (Some r) = mkTaskState data saved [] (sv_world v).
Proof. intros Hr. unfold task_state. cbn. by rewrite Hr. Qed.

Definition after_task (v : S) (ref : option nat) (s : TaskState W) (sessions : list (list Mailboxes.Account)) : S :=
  mkServer (Tasks.world s) sessions
    (match ref with Some r => <[r := (selected s, Tasks.saved_search s)]> (sv_mailboxes v) | None => sv_mailboxes v end)
    (sv_sent v ++ written s) (sv_tasks v).

Definition of_mailbox {E A} (ref : option nat) (m : EM (TaskState W) E A) : EM S E A := fun v =>
  let '(r, s) := m (task_state v ref) in (r, after_task v ref s (sv_sessions v)).

Definition of_idle {E A} (d : nat) (ref : option nat) (m : EM (IdleState W) E A) : EM S E A := fun v =>
  let '(r, i) := m (mkIdleState (default [] (sv_sessions v !! d)) (task_state v ref)) in
  (r, after_task v ref (idle_task i) (<[d := idle_accounts i]> (sv_sessions v))).

(** An error response as a value. *)
Definition or_status {A} (m : EM S StatusResponse A) : M S (A + StatusResponse) := fun v =>
  match m v with
  | (Ok a, v) => (Ok (inl a), v)
  | (Err e, v) => (Ok (inr e), v)
  | (Panic, v) => (Panic, v)
  | (NoFuel, v) => (NoFuel, v)
  end.

Definition without_error {E A} (m : EM S E A) : M S A := map_errM (fun _ => tt) m.
Definition jmap_status {A} (m : EM S JmapError A) : EM S StatusResponse A := map_errM into_status_response m.

Definition send (x : bytes) : M S unit := fun v =>
  (Ok tt, mkServer (sv_world v) (sv_sessions v) (sv_mailboxes v) (sv_sent v ++ [x]) (sv_tasks v)).

Definition update_mailbox (r : nat) (f : MailboxData * SavedSearch -> MailboxData * SavedSearch) : M S unit := fun v =>
  (Ok tt, mkServer (sv_world v) (sv_sessions v) (alter f r (sv_mailboxes v)) (sv_sent v) (sv_tasks v)).

Definition purge_account (a : Mailboxes.Account) : EM W unit unit :=
  purge_deleted_mailboxes (acc_account_id a) (map fst (map_to_list (Mailboxes.mailbox_data a))).

#[export] Instance server_backend : Backend S := {
  Client := unit; Session.Account := Mailboxes.Account; SessionData := nat; Ref := nat;
  connect credentials := of_world (jmap_connect credentials);
  Session.fetch_mailboxes _ := of_world (map_errM (fun _ => tt) (Mailboxes.fetch_mailboxes folder_shared));
  purge_deleted a := of_world (purge_account a);
  new_session_data _ accounts := fun v =>
    (Ok (length (sv_sessions v)), mkServer (sv_world v) (sv_sessions v ++ [accounts]) (sv_mailboxes v) (sv_sent v) (sv_tasks v));
  mailboxes_len d := fun v => (Ok (length (default [] (sv_sessions v !! d))), v);
  Session.synchronize_mailboxes d :=
    or_status (do* _ := jmap_status (of_session d (Mailboxes.synchronize_mailboxes folder_shared false false)) in ret tt);
  Session.get_mailbox_by_name d name := fun v =>
    (Ok (Mailboxes.get_mailbox_by_name folder_all (default_account_id (sv_world v)) (default [] (sv_sessions v !! d)) name), v);
  Session.synchronize_messages _ mailbox := or_status (of_world (Synchronize.synchronize_messages mailbox));
  Session.get_jmap_state _ account_id := or_status (of_world (Synchronize.get_jmap_state account_id));
  core_state_to_modseq _ account_id state := of_world (state_to_modseq account_id state);
  data_fetch _ arguments mailbox is_uid is_qresync enabled_condstore :=
    without_error (of_mailbox (Some (sm_ref mailbox))
      (do* _ := fetch (sm_id mailbox) (sm_is_select mailbox) fuel arguments is_uid is_qresync enabled_condstore in ret tt));
  data_expunge _ mailbox sequence := or_status (of_mailbox (Some (sm_ref mailbox)) (expunge (sm_id mailbox) sequence));
  Session.write_changes d mailbox is_qresync is_rev2 :=
    without_error (of_idle d (sm_ref <$> mailbox)
      (IdleTask.write_changes folder_shared folder_all (match mailbox with Some m => sm_is_select m | None => false end) fuel
         (sm_id <$> mailbox) true true is_qresync is_rev2));
  event_source _ selected := of_world (open_events selected);
  new_mailbox data := fun v =>
    (Ok (length (sv_mailboxes v)), mkServer (sv_world v) (sv_sessions v) (sv_mailboxes v ++ [(data, SavedNone)]) (sv_sent v) (sv_tasks v));
  lock_state r := fun v => (Ok (default empty_data (fst <$> sv_mailboxes v !! r)), v);
  Session.set_mailbox_state r data := update_mailbox r (fun p => (data, p.2));
  Session.saved_search r := fun v => (Ok (default SavedNone (snd <$> sv_mailboxes v !! r)), v);
  clear_saved_search r := update_mailbox r (fun p => (p.1, SavedNone));
  start_saved_search r := update_mailbox r (fun p => (p.1, InFlight []));
  send_bytes := send;
  recover_stream := ret tt;
  stop_idle := ret tt;
  spawn d t := fun v => (Ok tt, mkServer (sv_world v) (sv_sessions v) (sv_mailboxes v) (sv_sent v) (sv_tasks v ++ [(d, t)]))
}.

(** ** The tasks *)

(** Bytes, or a response, at the end of a task. *)
Definition then_send {E} (m : EM S E bytes) : M S unit := do* x := without_error m in send x.
Definition then_respond {E} (m : EM S E StatusResponse) : M S unit := do* r := without_error m in send (status_serialize r).

Fixpoint each {A} (f : A -> M S unit) (l : list A) : M S unit :=
  match l with [] => ret tt | x :: l' => do* _ := f x in each f l' end.

(** [Ok] and [Err] of a task that answers with bytes. *)
Definition bytes_or_status (m : EM (Data W) StatusResponse bytes) : EM (Data W) unit bytes :=
  do* r := attempt m in
  match r with
  | Ok x => ret x
  | Err e => ret (status_serialize e)
  | Panic => lift Panic
  | NoFuel => lift NoFuel
  end.

Abbreviation on_selected_mailbox m := (Some (sm_ref m)).

Definition run_task (d : nat) (t : Task nat) : M S unit :=
  match t with
  | TaskList arguments is_lsub version =>
      then_send (of_session d (bytes_or_status (list_ folder_shared folder_all arguments is_lsub version)))
  | TaskCreate arguments =>
      each (fun a => then_respond (of_session d (Folders.answered (create_folder folder_shared folder_all a)))) arguments
  | TaskDelete arguments =>
      each (fun a => then_respond (of_session d (Folders.answered (delete_folder folder_shared a)))) arguments
  | TaskRename arguments => then_respond (of_session d (Folders.answered (rename_folder folder_shared folder_all arguments)))
  | TaskStatus arguments version => then_send (of_session d (status_task folder_all folder_shared arguments (is_rev2 version)))
  | TaskAppend arguments mailbox selected_mailbox is_dest_selected =>
      without_error (of_mailbox (sm_ref <$> selected_mailbox) (append_task mailbox is_dest_selected arguments))
  | TaskSearch arguments mailbox save prev is_sort is_uid =>
      without_error (of_mailbox (on_selected_mailbox mailbox)
        (search_task fuel arguments (sm_id mailbox) save prev is_sort is_uid))
  | TaskFetch arguments mailbox is_uid is_qresync enabled_condstore =>
      without_error (of_mailbox (on_selected_mailbox mailbox)
        (fetch_task (sm_id mailbox) (sm_is_select mailbox) fuel arguments is_uid is_qresync enabled_condstore))
  | TaskStore arguments mailbox is_uid is_condstore =>
      without_error (of_mailbox (on_selected_mailbox mailbox) (store_task (sm_id mailbox) arguments is_uid is_condstore))
  | TaskCopyMove arguments src dest is_move is_uid is_qresync =>
      without_error (of_mailbox (on_selected_mailbox src) (copy_move_task (sm_id src) dest is_move is_uid is_qresync arguments))
  | TaskThread arguments mailbox command is_uid =>
      without_error (of_mailbox (on_selected_mailbox mailbox) (thread_task fuel arguments (sm_id mailbox) command is_uid))
  | TaskIdle tag mailbox is_qresync is_rev2 =>
      do* events := (fun v => (Ok (idle_events (sv_world v)), v)) in
      do* _ := of_idle d (sm_ref <$> mailbox)
                 (idle folder_shared folder_all (match mailbox with Some m => sm_is_select m | None => false end) fuel
                    (sm_id <$> mailbox) tag is_qresync is_rev2 events) in ret tt
  | TaskSubscribe tag mailbox_name is_subscribe =>
      then_respond (of_session d (Folders.answered (subscribe_folder folder_shared folder_all tag mailbox_name is_subscribe)))
  | TaskGetAcl arguments is_rev2 => then_send (of_session d (get_acl_task folder_all arguments is_rev2))
  | TaskMyRights arguments is_rev2 => then_send (of_session d (my_rights_task folder_all arguments is_rev2))
  | TaskSetAcl arguments => then_send (of_session d (set_acl_task folder_all arguments))
  | TaskDeleteAcl arguments => then_send (of_session d (delete_acl_task folder_all arguments))
  end.

(** One schedule: the tasks that are waiting, one after the other. *)
Definition run_tasks : M S unit := fun v =>
  each (fun '(d, t) => run_task d t) (sv_tasks v) (mkServer (sv_world v) (sv_sessions v) (sv_mailboxes v) (sv_sent v) []).
End Server.

(** ** EXPUNGE, from the request to the answer *)
Section ExpungeCommand.
Context {W : Type} `{Sled W} `{Clock W} `{EmailClient W} `{MailboxClient W} `{FolderClient W} `{StatusClient W}.
Context `{SearchClient W} `{Limits W} `{FetchClient W} `{StoreClient W} `{CopyClient W} `{AppendClient W}.
Context `{ThreadClient W} `{AclClient W} `{Destroy : ExpungeClient W} `{ChangesClient} `{Connection W}.
Context `{DebugFmt} `{Chrono} `{Md5} `{Charsets} `{Base64} `{!ExpungeLaws W}.
Context (folder_shared folder_all : str) (fuel : nat).

#[local] Instance here : Backend (Server W) := server_backend folder_shared folder_all fuel.

(** The set of UIDs of a UID EXPUNGE. *)
Definition requested (q : Request Command) : option Sequence :=
  match req_tokens q with Argument value :: _ => ok_of (parse_sequence_set value) | _ => None end.

Definition with_world (w : W) (v : Server W) : Server W :=
  mkServer w (sv_sessions v) (sv_mailboxes v) (sv_sent v) (sv_tasks v).

Lemma alter_alter_selected {A} (f g : A -> A) r (l : list A) x :
  l !! r = Some x -> alter g r (alter f r l) = <[r := g (f x)]> l.
Proof.
  intros Hr. apply list_eq; intros i. destruct (decide (i = r)) as [->|Hi].
  - rewrite !list_lookup_alter_eq, Hr. symmetry. apply list_lookup_insert_eq. by eapply lookup_lt_Some.
  - by rewrite !list_lookup_alter_ne, list_lookup_insert_ne.
Qed.

Lemma run_bind {D A B} (m : M D A) (k : A -> M D B) s a s' : m s = (Ok a, s') -> bindM m k s = k a s'.
Proof. intros Hm. unfold bindM. by rewrite Hm. Qed.

Lemma run_on_world {A B} (m : M (Server W) A) (k : A -> M (@Conn _ here) B) s v t a v' :
  m v = (Ok a, v') -> bindM (on_world m) k (mkConn s v t) = k a (mkConn s v' t).
Proof. intros Hm. apply run_bind. unfold on_world. cbn [world]. by rewrite Hm. Qed.

Lemma or_status_ok {A} (m : EM (Server W) StatusResponse A) v a v' :
  m v = (Ok a, v') -> or_status m v = (Ok (inl a), v').
Proof. intros Hm. unfold or_status. by rewrite Hm. Qed.

Lemma of_world_ok {E A} (m : EM W E A) (v : Server W) a w :
  m (sv_world v) = (Ok a, w) -> of_world m v = (Ok a, with_world w v).
Proof. intros Hm. unfold of_world. by rewrite Hm. Qed.

(** A task that changes nothing but the world. *)
Lemma of_mailbox_world {E A} (m : EM (TaskState W) E A) (v : Server W) r data saved x w :
  sv_mailboxes v !! r = Some (data, saved) ->
  m (mkTaskState data saved [] (sv_world v)) = (x, mkTaskState data saved [] w) ->
  of_mailbox (Some r) m v = (x, with_world w v).
Proof.
  intros Hr Hm. unfold of_mailbox. rewrite (task_state_selected _ _ _ _ Hr), Hm. unfold after_task, with_world. cbn.
  by rewrite list_insert_id, app_nil_r.
Qed.

Lemma handle_expunge_runs q uid (c : @Conn (Server W) _) d mailbox state saved jmap_state w1 new_state w2 :
  s_state (session c) = Selected d mailbox -> s_is_qresync (session c) = false ->
  sv_mailboxes (world c) !! (sm_ref mailbox : nat) = Some (state, saved) ->
  expunge (sm_id mailbox) (requested q) (mkTaskState state saved [] (sv_world (world c))) =
    (Ok jmap_state, mkTaskState state saved [] w1) ->
  Synchronize.synchronize_messages (sm_id mailbox) w1 = (Ok new_state, w2) ->
  let x := expunge_answer false state new_state ++ status_serialize (with_tag (completed (Expunge uid)) (req_tag q)) in
  handle_expunge q uid c =
    (Ok tt, mkConn (session c)
      (mkServer w2 (sv_sessions (world c))
         (<[(sm_ref mailbox : nat) := (with_last_state new_state jmap_state, SavedNone)]> (sv_mailboxes (world c)))
         (sv_sent (world c) ++ [x]) (sv_tasks (world c)))
      (trace c ++ [Wrote x])).
Proof.
  intros Hst Hq Hr He Hs x.
  subst x. destruct c as [s v t]. cbn [session world trace] in *.
  pose (v1 := with_world w1 v). pose (clear := update_mailbox (sm_ref mailbox : nat) (fun p => (p.1, SavedNone)) v1).
  pose (v2 := with_world w2 clear.2).
  unfold handle_expunge. fold (requested q).
  etrans; [apply (run_bind _ _ _ (d, mailbox)); exact (f_equal (fun st => (select_data st, mkConn s v t)) Hst)|].
  etrans; [apply (run_on_world _ _ _ _ _ (inl jmap_state) v1), or_status_ok; exact (of_mailbox_world _ _ _ _ _ _ _ Hr He)|].
  etrans; [apply (run_on_world _ _ _ _ _ tt clear.2); reflexivity|].
  etrans; [apply (run_on_world _ _ _ _ _ (inl new_state) v2), or_status_ok, of_world_ok; exact Hs|].
  etrans; [apply (run_bind _ _ _ s); reflexivity|].
  etrans; [apply (run_on_world _ _ _ _ _ state v2)|].
  { pose proof (list_lookup_alter_eq (fun p => (p.1, SavedNone)) (sv_mailboxes v) (sm_ref mailbox : nat)) as Hr2.
    rewrite Hr in Hr2. exact (f_equal (fun o => (Ok (default empty_data (fst <$> o)), v2)) Hr2). }
  rewrite Hq. cbn. unfold write_bytes, bindM, log, on_world. cbn. unfold send. cbn.
  do 3 f_equal. exact (alter_alter_selected _ _ _ _ _ Hr).
Qed.

(** C17: EXPUNGE, from the request to the answer: of the mailbox the messages
    that are flagged as deleted are destroyed, with a set of UIDs only those of
    them that the set names in the snapshot, and no other message of any account
    unless the server refuses; the snapshot becomes what the synchronization
    found, the saved search is forgotten, and a client that follows the untagged
    EXPUNGE lines is left with the messages that are still there, under the
    numbers they have. *)
Theorem expunge_command q uid (c : @Conn (Server W) _) d mailbox state saved jmap_state s1 new_state w2 :
  s_state (session c) = Selected d mailbox -> s_is_qresync (session c) = false ->
  sv_mailboxes (world c) !! (sm_ref mailbox : nat) = Some (state, saved) ->
  aligned state -> md_total_messages state = length (md_imap_uids state) ->
  match requested q with Some sequence => is_saved_search sequence = false | None => True end ->
  expunge (sm_id mailbox) (requested q) (mkTaskState state saved [] (sv_world (world c))) = (Ok jmap_state, s1) ->
  Synchronize.synchronize_messages (sm_id mailbox) (Tasks.world s1) = (Ok new_state, w2) ->
  exists numbers c', handle_expunge q uid c = (Ok tt, c') /\ session c' = session c /\
    sv_mailboxes (world c') =
      <[(sm_ref mailbox : nat) := (with_last_state new_state jmap_state, SavedNone)]> (sv_mailboxes (world c)) /\
    (forall account m, m ∈ messages (Tasks.world s1) account <-> m ∈ messages (sv_world (world c)) account /\
       ~ (account = account_id (sm_id mailbox) /\ expunged state (sm_id mailbox) (requested q) m = true /\
          ~ refused (sv_world (world c)) account m)) /\
    client_expunges (md_imap_uids state) numbers = filter (fun u => u ∈ md_imap_uids new_state) (md_imap_uids state) /\
    exists x, sv_sent (world c') = sv_sent (world c) ++ [x ++ status_serialize (with_tag (completed (Expunge uid)) (req_tag q))] /\
      (x = expunge_lines numbers ++ exists_serialize (Z.of_nat (md_total_messages new_state)) \/ x = [] /\ numbers = []).
Proof.
  intros Hst Hq Hr Hal Htot Hss He Hs.
  set (s0 := mkTaskState state saved [] (sv_world (world c))) in *.
  destruct (expunge_world _ _ s0 _ _ Hal Hss He) as [w1 ->].
  destruct (expunge_destroys _ _ s0 _ _ Hal Hss He) as (_ & Hm & Ho).
  destruct (expunge_answer_client state new_state Hal Htot) as (numbers & Hv & Hx).
  exists numbers. eexists. split_and!; [exact (handle_expunge_runs _ _ _ _ _ _ _ _ _ _ _ Hst Hq Hr He Hs)|done..| |exact Hv|].
  - intros account m. cbn [Tasks.world selected] in *. destruct (decide (account = account_id (sm_id mailbox))) as [->|Hne].
    + rewrite Hm. naive_solver.
    + rewrite (Ho _ Hne). naive_solver.
  - eexists; split; [reflexivity|]. naive_solver.
Qed.
End ExpungeCommand.

(** ** A server with one account *)
Module Demo.
(** The store, the messages, and the number of the state they are in. *)
Record World := mkWorld { kv : KV; mails : list SearchSpec.Message; version : Z }.

Definition on_kv {E A} (m : EM KV E A) : EM World E A := fun w =>
  let '(r, k) := m (kv w) in (r, mkWorld k (mails w) (version w)).

#[export] Instance store : Sled World := {
  contents w := kv w;
  sled_fails := False;
  sled_get k := on_kv (sled_get k);
  sled_insert k v := on_kv (sled_insert k v);
  sled_apply_batch ops := on_kv (sled_apply_batch ops);
  sled_scan_prefix p := on_kv (sled_scan_prefix p);
  sled_update_and_fetch k f := on_kv (sled_update_and_fetch k f)
}.
#[export] Instance clock : Clock World := fun w => (Ok 1700000000, w).
#[export] Instance debug : DebugFmt := {| debug_str s := s; debug_char c := [c] |}.
#[export] Instance chrono : Chrono := {|
  parse_datetime_str _ := None; parse_date_str _ := None; format_datetime _ := []; format_rfc2822 _ := [] |}.
#[export] Instance md5 : Md5 := fun _ => b "0".
#[export] Instance charsets : Charsets := fun _ => None.
#[export] Instance base64 : Base64 := fun x => Some x.
#[export] Instance limits : Limits World := {| get_limit _ := Some 500; set_limit _ := Some 500 |}.
#[export] Instance changes_client : ChangesClient := {|
  total_changes r := Z.of_nat (length (ec_created r) + length (ec_updated r) + length (ec_destroyed r)) |}.

Definition state_name (w : World) : str := b "s" ++ dec (version w).
Definition found (f : QueryFilter) (w : World) : list str := map m_id (List.filter (fun m => query_eval m f) (mails w)).
Definition page (ids : list str) (position : Z) : QueryPage :=
  mkQueryPage (Some (Z.of_nat (length ids))) (drop (Z.to_nat position) ids).

#[export] Instance email_client : EmailClient World := {
  send_query_email _ mailbox position w :=
    (Ok (page (match mailbox with Some id => found (QCondition (QInMailbox id)) w | None => map m_id (mails w) end) position), w);
  send_get_email_state _ w := (Ok (state_name w), w)
}.
#[export] Instance search_client : SearchClient World := {
  send_search f _ position w := (Ok (page (found f w) position), w);
  send_changes_email _ _ w := (Ok (mkEmailChanges (state_name w) [] [] []), w)
}.

(** One account with two mailboxes. *)
Definition jmap_mailboxes : list JmapMailbox :=
  [mkJmapMailbox (Some (b "in")) (Some (b "Inbox")) None RoleInbox true 2 1;
   mkJmapMailbox (Some (b "ar")) (Some (b "Old")) None RoleArchive true 1 1].
#[export] Instance mailbox_client : MailboxClient World := {
  MethodResponse := unit; ChangesResponse := unit;
  default_account_id _ := b "john"; session_accounts _ := [(b "john", b "John")]; max_objects_in_get _ := None;
  is_session_updated _ := true; refresh_session := ret tt;
  send_mailbox_page _ _ _ := ret [tt; tt]; unwrap_get_mailbox _ := Ok (b "m0", jmap_mailboxes); unwrap_query_mailbox _ := Ok (Some 2);
  send_changes_mailbox _ := ret []; unwrap_changes_mailbox _ := Ok tt; take_account_id r := ([], r);
  ch_account_id _ := []; ch_new_state _ := []; ch_total_changes _ := 0; ch_created _ := []; ch_updated _ := [];
  ch_destroyed _ := []; ch_updated_is_count _ := None
}.
#[export] Instance status_client : StatusClient World := {
  EmailResponse := (Z * list Z)%type;
  send_counts _ filters w := (Ok (map (fun f => (Z.of_nat (length (found f w)), [])) filters), w);
  send_sizes _ _ _ _ w := (Ok [(Z.of_nat (length (mails w)), []); (0, map m_size (mails w))], w);
  unwrap_query_total r := Ok (Some r.1);
  unwrap_get_sizes r := Ok r.2
}.

(** [Email/get] and [Email/set] *)
Definition email (m : SearchSpec.Message) : Email :=
  mkEmail (Some (m_id m)) (Some (m_id m)) (Some (m_thread m)) (m_keywords m) None None (m_size m) (Some (b "hi")) None None None None
    (fun _ => None) None None.
Definition emails (ids : list str) (w : World) : list Email :=
  omap (fun id => email <$> List.find (fun m => bytes_eqb (m_id m) id) (mails w)) ids.
#[export] Instance fetch_client : FetchClient World := {
  send_get_email _ l _ w := (Ok (emails l w, state_name w), w);
  download _ := lift (Err Transport);
  SetEmailResponse := unit;
  send_set_seen _ _ w := (Ok [], w);
  FetchTask.unwrap_set_email _ := Ok (b "s");
  parse_message _ := None;
  is_open _ := true
}.

Definition update_keywords (u : KeywordUpdate) (l : list str) : list str :=
  match u with
  | SetKeywords l' => l'
  | PatchKeywords ps =>
      foldl (fun l '(k, on) => let l := List.filter (fun x => negb (bytes_eqb x k)) l in if on : bool then l ++ [k] else l) l ps
  end.
Definition update_message (id : str) (u : KeywordUpdate) (m : SearchSpec.Message) : SearchSpec.Message :=
  if bytes_eqb (m_id m) id
  then mkMessage (m_id m) (m_thread m) (m_mailboxes m) (update_keywords u (m_keywords m)) (m_size m) (m_received m) (m_sent m)
         (m_contains m) (m_header m)
  else m.
#[export] Instance store_client : StoreClient World := {
  send_store _ sets gets w :=
    let w' := mkWorld (kv w) (foldl (fun l '(id, u) => map (update_message id u) l) (mails w) (concat sets)) (version w + 1) in
    (Ok (map (fun s => SetEmail (state_name w') (Some (map fst s))) sets ++ map (fun g => GetEmail (emails g w')) gets), w')
}.
#[export] Instance expunge_client : ExpungeClient World := {
  ExpungeResponse := str;
  send_destroy account f w :=
    if decide (account = b "john") then
      let w' := mkWorld (kv w) (List.filter (fun m => negb (query_eval m f)) (mails w)) (version w + 1) in (Ok [[]; state_name w'], w')
    else (Ok [[]; []], w);
  unwrap_set_email r := Ok r
}.
#[export] Instance expunge_laws : ExpungeLaws World.
Proof.
  refine {| messages w account := if decide (account = b "john") then mails w else []; refused _ _ _ := False |}.
  intros account f w r w'. cbn [send_destroy expunge_client]. destruct (decide (account = b "john")) as [->|Hne]; intros [= _ <-].
  - split; [|intros other Hne; by rewrite !decide_False].
    intros m. cbn [mails]. rewrite !list_elem_of_In, filter_In, negb_true_iff.
    destruct (query_eval m f); naive_solver.
  - split; [set_solver|done].
Defined.

(** The requests that the examples do not come to. *)
Definition refuse {A} : EM World JmapError A := lift (Err Transport).
#[export] Instance folder_client : FolderClient World := {
  SetResponse := unit; create_id _ := b "c"; send_set_mailbox _ _ _ := refuse; set_created _ _ := Err Transport;
  set_updated _ _ := Err Transport; set_take_new_state r := ([], r); set_has_updated _ := false; error_text _ := [];
  mailbox_destroy _ _ := refuse; mailbox_subscribe _ _ := refuse
}.
#[export] Instance copy_client : CopyClient World := {| send_move _ _ := refuse; send_copy _ _ _ _ := refuse |}.
#[export] Instance append_client : AppendClient World := {| upload _ := refuse; send_import _ _ := refuse |}.
#[export] Instance thread_client : ThreadClient World := {| send_thread_page _ _ _ := refuse |}.
#[export] Instance acl_client : AclClient World := {|
  send_get_acl _ _ := refuse; send_get_rights _ _ := refuse; send_set_acl _ _ _ := refuse |}.
#[export] Instance connection : Connection World := {|
  jmap_connect c := match c with Basic u _ => if bytes_eqb u (b "john") then ret tt else lift (Err tt) | _ => lift (Err tt) end;
  open_events _ := ret tt;
  idle_events _ := [EventDone]
|}.

Definition shared : str := b "Shared Folders".
Definition all_mail : str := b "All Mail".
#[export] Instance backend : Backend (Server World) := server_backend shared all_mail 10.

(** Each chunk of input is served, and then the tasks it started. *)
Fixpoint converse (chunks : list bytes) : M Conn unit :=
  match chunks with
  | [] => ret tt
  | chunk :: chunks' =>
      do* _ := serve shared (b "0.1") [chunk] in
      do* _ := Session.on_world (run_tasks shared all_mail 10) in
      converse chunks'
  end.

Definition message (id : str) (mailbox : str) (keywords : list str) : SearchSpec.Message :=
  mkMessage id id [mailbox] keywords 100 0 0 (fun _ _ => false) (fun _ _ => false).
Definition start : Conn :=
  mkConn (new_session 1000 true)
    (mkServer (mkWorld ∅ [message (b "a") (b "in") [b "$seen"]; message (b "c") (b "in") []; message (b "g") (b "ar") []] 1) [] [] [] []) [].

(** What the server sends on the input of a client, one command a packet. *)
Definition line (s : string) : bytes := b s ++ CRLF.
Definition answers (l : list string) : list bytes :=
  sv_sent (Session.world (converse (map line l) start).2).

(** The session after these lines. *)
Definition after (l : list string) : Conn := (converse (map line l) start).2.
Definition flagged : Conn := after ["A1 LOGIN john secret"; "A2 SELECT INBOX"; "A4 STORE 1:* +FLAGS (\Deleted)"].
Definition snapshot : MailboxData := mkMailboxData 3 209254 [b "a"; b "c"] [1; 2] 2 (b "s2").
Definition inbox : SelectedMailbox nat := mkSelectedMailbox 0%nat (mkMailboxId (b "john") (Some (b "in"))) true false.
End Demo.
#[local] Existing Instances Demo.store Demo.clock Demo.debug Demo.chrono Demo.md5 Demo.charsets Demo.base64 Demo.limits
  Demo.changes_client Demo.email_client Demo.search_client Demo.mailbox_client Demo.status_client Demo.fetch_client
  Demo.store_client Demo.expunge_client Demo.expunge_laws Demo.folder_client Demo.copy_client Demo.append_client
  Demo.thread_client Demo.acl_client Demo.connection.

(** From LOGIN to LOGOUT: the answers after that to LOGIN. *)
Example imap_conversation :
  tail (Demo.answers
    ["A1 LOGIN john secret"; "A2 SELECT INBOX"; "A3 SEARCH RETURN (SAVE COUNT) UNSEEN"; "A4 STORE $ +FLAGS.SILENT (\Deleted)";
     "A5 FETCH 1:* (UID FLAGS)"; "A6 STATUS Old (MESSAGES UIDNEXT)"; "A7 IDLE"; "DONE"; "A8 EXPUNGE"; "A9 FETCH 1:* UID";
     "A10 SELECT Trash"; "A11 LOGOUT"]) =
  map (flat_map (fun l => l ++ CRLF))
    [[b "* 2 EXISTS"; b "* FLAGS (\Answered \Flagged \Deleted \Seen \Draft)"; b "* 0 RECENT";
      b "* OK [PERMANENTFLAGS (\Deleted \Seen \Answered \Flagged \Draft \*)] All allowed"; b "* OK [UIDVALIDITY 209254] UIDs valid";
      b "* OK [UIDNEXT 3] Next predicted UID"; b "* OK [MAILBOXID (john-in)] Unique Mailbox ID"; b "A2 OK [READ-WRITE] SELECT completed"];
     [b "* ESEARCH (TAG " ++ quoted_string (b "A3") ++ b ") COUNT 1"; b "A3 OK SEARCH completed"];
     [b "A4 OK STORE completed"];
     [b "* 2 FETCH (UID 2 FLAGS (\Deleted))"]; [b "* 1 FETCH (UID 1 FLAGS (\Seen))"]; [b "A5 OK FETCH completed"];
     [b "* STATUS " ++ quoted_string (b "Old") ++ b " (MESSAGES 1 UIDNEXT 2)"; b "A6 OK STATUS completed"];
     [b "+ Idling, send 'DONE' to stop."]; [b "A7 OK IDLE completed"];
     [b "* 2 EXPUNGE"; b "* 1 EXISTS"; b "A8 OK EXPUNGE completed"];
     [b "* 1 FETCH (UID 1)"]; [b "A9 OK FETCH completed"];
     [b "A10 NO [NONEXISTENT] Mailbox does not exist."];
     [b "* BYE Stalwart IMAP4rev2 v0.1 bids you farewell."; b "A11 OK LOGOUT completed"]].
Proof. vm_compute. reflexivity. Qed.

Lemma expunge_command_witness :
  exists numbers c', handle_expunge (mkRequest (b "A9") (Expunge true) [Argument (b "2:*")]) true Demo.flagged = (Ok tt, c') /\
    client_expunges [1; 2] numbers = [1].
Proof.
  set (q := mkRequest (b "A9") (Expunge true) [Argument (b "2:*")]).
  destruct (expunge (sm_id Demo.inbox) (requested q) (mkTaskState Demo.snapshot SavedNone [] (sv_world (Session.world Demo.flagged)))) as [r s1] eqn:He.
  pose proof (f_equal fst He) as Hr. vm_compute in Hr. subst r.
  destruct (Synchronize.synchronize_messages (sm_id Demo.inbox) (Tasks.world s1)) as [r w2] eqn:Hs.
  assert (fst (Synchronize.synchronize_messages (sm_id Demo.inbox) (Tasks.world s1)) = Ok (mkMailboxData 3 209254 [b "a"] [1] 1 [])) as Hr.
  { rewrite (f_equal snd (eq_sym He) : s1 = _). vm_compute. reflexivity. }
  rewrite Hs in Hr. cbn in Hr. subst r.
  destruct (expunge_command Demo.shared Demo.all_mail 10 q true Demo.flagged 0%nat Demo.inbox Demo.snapshot SavedNone (b "s3") s1
    (mkMailboxData 3 209254 [b "a"] [1] 1 []) w2) as
    (numbers & c' & Hc & _ & _ & _ & Hv & _); [vm_compute; reflexivity..| | | |exact He|exact Hs|].
  - split; [done|..]; refine (bool_decide_eq_true_1 _ _); vm_compute; reflexivity.
  - reflexivity.
  - reflexivity.
  - exists numbers, c'. exact (conj Hc Hv).
Defined.
