(* ===== verification/Answers.v ===== *)
(** * Every command is answered once

    What a connection writes and starts for the requests of a chunk of input:
    for each of them one tagged response, or one task that has its tag; or, for
    an AUTHENTICATE without an initial response, the request for the next line. *)

From S2P Require Import Prelude Utf8 Utf7 Types Receiver ReceiverSpec Sequence Flags Wire Responses.
From S2P Require Import Commands Parsers ParseSearch ParseFetch Tags Store UidStore SelectedMailbox ExpungeTask Sasl Session SessionSpec SessionProps.

(** ** Responses *)

(** A write that completes no command starts with an asterisk, or with a plus
    when the client is asked to go on. What follows in it may quote the JMAP
    server, line ends and all, so that only its start is looked at. *)
Definition untagged (x : bytes) : bool := bool_decide (x = []) || starts_with (b "* ") x || starts_with (b "+ ") x.

(** The commands, by their tags, that bytes complete: untagged lines, and at
    the end of them at most one tagged response. *)
Inductive answers `{DebugFmt} : list str -> bytes -> Prop :=
| answers_none x : untagged x = true -> answers [] x
| answers_status x r t : untagged x = true -> tag r = Some t -> answers [t] (x ++ status_serialize r).

(** The commands that a task will complete. *)
Definition task_tags {Ref} (t : Task Ref) : list str :=
  match t with
  | TaskList arguments _ _ => [list_tag arguments]
  | TaskCreate arguments => map create_tag arguments
  | TaskDelete arguments => map mbox_tag arguments
  | TaskRename arguments => [rename_tag arguments]
  | TaskStatus arguments _ => [status_tag arguments]
  | TaskAppend arguments _ _ _ => [append_tag arguments]
  | TaskSearch arguments _ _ _ _ _ => [search_tag arguments]
  | TaskFetch arguments _ _ _ _ => [fetch_tag arguments]
  | TaskStore arguments _ _ _ => [store_tag arguments]
  | TaskCopyMove arguments _ _ _ _ _ => [cm_tag arguments]
  | TaskThread arguments _ _ _ => [thread_tag arguments]
  | TaskIdle tag _ _ _ | TaskSubscribe tag _ _ => [tag]
  | TaskGetAcl arguments _ | TaskMyRights arguments _ | TaskSetAcl arguments | TaskDeleteAcl arguments => [acl_tag arguments]
  end.

(** The commands that an event, and a list of events, takes care of. *)
Inductive completes `{DebugFmt} {Ref} : list str -> Event Ref -> Prop :=
| completes_wrote ts x : answers ts x -> completes ts (Wrote x)
| completes_spawned t : completes (task_tags t) (Spawned t)
| completes_connecting c : completes [] (Connecting c).

Inductive complete `{DebugFmt} {Ref} : list str -> list (Event Ref) -> Prop :=
| complete_nil : complete [] []
| complete_cons ts ts' e es : completes ts e -> complete ts' es -> complete (ts ++ ts') (e :: es).

Section Responses.
Context `{DebugFmt} {Ref : Type}.
Implicit Types (es : list (Event Ref)) (ts : list str).

Lemma complete_app ts ts' es es' : complete ts es -> complete ts' es' -> complete (ts ++ ts') (es ++ es').
Proof.
  intros Hc Hc'. induction Hc as [|ts0 ts1 e es He _ IH]; [done|]. rewrite <- app_assoc, <- app_comm_cons. by constructor.
Qed.

Lemma complete_one ts (e : Event Ref) : completes ts e -> complete ts [e].
Proof. intros He. rewrite <- (app_nil_r ts). constructor; [done|constructor]. Qed.

Lemma complete_answer ts x : answers ts x -> complete ts [Wrote (Ref := Ref) x].
Proof. intros Hx. by apply complete_one, completes_wrote. Qed.

Lemma complete_spawned ts (t : Task Ref) : task_tags t = ts -> complete ts [Spawned t].
Proof. intros <-. apply complete_one, completes_spawned. Qed.

Lemma complete_more ts x es : answers [] x -> complete ts es -> complete ts (Wrote x :: es).
Proof. intros Hx. by apply (complete_cons [] ts), completes_wrote. Qed.

Lemma complete_connecting ts c es : complete ts es -> complete ts (Connecting c :: es).
Proof. by apply (complete_cons [] ts), completes_connecting. Qed.

Lemma answers_tagged r t : tag r = Some t -> answers [t] (status_serialize r).
Proof. intros Ht. by apply (answers_status []). Qed.

Lemma untagged_status r : tag r = None -> untagged (status_serialize r) = true.
Proof. intros Hr. unfold status_serialize. by rewrite Hr. Qed.

Lemma answers_untagged r : tag r = None -> answers [] (status_serialize r).
Proof. intros Hr. by apply answers_none, untagged_status. Qed.

Lemma untagged_app x y : untagged x = true -> untagged y = true -> untagged (x ++ y) = true.
Proof.
  destruct x as [|x1 [|x2 x]]; [done| |done]. unfold untagged. cbn. by rewrite !andb_false_r.
Qed.

Lemma untagged_flat_map {A} (f : A -> bytes) l : (forall a, untagged (f a) = true) -> untagged (flat_map f l) = true.
Proof. intros Hf. induction l as [|a l IH]; [done|]. cbn [flat_map]. by apply untagged_app. Qed.

(** *** The untagged responses *)
Lemma untagged_namespace o : untagged (namespace_serialize o) = true.
Proof. by destruct o. Qed.

Lemma untagged_select_response r : untagged (select_response_serialize r) = true.
Proof. unfold select_response_serialize. apply untagged_app; [|done]. case_match; [|done]. by apply untagged_status. Qed.

Lemma untagged_status_item i v : untagged (status_item_serialize i v) = true.
Proof. done. Qed.

Lemma untagged_list_item i v l : untagged (list_item_serialize i v l) = true.
Proof. by destruct l. Qed.

Lemma untagged_list_response r : untagged (list_response_serialize r) = true.
Proof.
  unfold list_response_serialize. apply untagged_app; apply untagged_flat_map; intros; [apply untagged_list_item|done].
Qed.

Lemma untagged_expunge q ids : untagged (expunge_serialize q ids) = true.
Proof. unfold expunge_serialize. case_match; [|done]. by apply untagged_flat_map. Qed.

Lemma untagged_expunge_answer q old new : untagged (expunge_answer q old new) = true.
Proof.
  unfold expunge_answer. cbv zeta. destruct (_ || _); [|done]. apply untagged_app; [|done].
  case_match; [|done]. apply untagged_expunge.
Qed.
End Responses.

Create HintDb answers.
#[export] Hint Resolve untagged_namespace complete_spawned complete_more complete_connecting complete_answer answers_status answers_tagged answers_untagged answers_none untagged_select_response
  untagged_list_response untagged_status_item untagged_list_item untagged_expunge untagged_expunge_answer untagged_app untagged_status : answers.

(** ** Handlers *)
Section Handlers.
Context {W : Type} `{HB : Backend W} `{DebugFmt} `{Chrono} `{Charsets} `{Base64}.
Context (folder_shared : str) (cargo_pkg_version : str).

Abbreviation Sess := (Session SessionData Ref).
Abbreviation Tr := (list (Event Ref)).
Abbreviation C := (M (@Conn W _)).
Implicit Types (s : Sess) (es : Tr) (q : Request Command).

(** When [m] comes to its end from the session [s], what it returns, the
    session after it and the events that it adds to the trace satisfy [Q]. *)
Definition emits {A} (s : Sess) (m : C A) (Q : A -> Sess -> Tr -> Prop) : Prop :=
  forall w tr a c, m (mkConn s w tr) = (Ok a, c) -> exists es, trace c = tr ++ es /\ Q a (session c) es.

Lemma emits_none {A} s (m : C A) (Q : A -> Sess -> Tr -> Prop) :
  (forall w tr a c, m (mkConn s w tr) = (Ok a, c) -> trace c = tr /\ Q a (session c) []) -> emits s m Q.
Proof. intros Hm w tr a c E. exists []. rewrite app_nil_r. by eapply Hm. Qed.

Lemma emits_ret {A} s (a : A) (Q : A -> Sess -> Tr -> Prop) : Q a s [] -> emits s (ret a) Q.
Proof. intros HQ. apply emits_none. by intros w tr ? c [= <- <-]. Qed.

Lemma emits_bind {A B} s (m : C A) (k : A -> C B) (Q : B -> Sess -> Tr -> Prop) :
  emits s m (fun a s' es => emits s' (k a) (fun v s'' es' => Q v s'' (es ++ es'))) -> emits s (bindM m k) Q.
Proof.
  intros Hm w tr v c. unfold bindM. destruct (m (mkConn s w tr)) as [[a|e| |] [s' w' tr']] eqn:E; try done. intros Hk.
  destruct (Hm _ _ _ _ E) as (es & Htr & Ha). cbn in Htr. subst tr'. destruct (Ha _ _ _ _ Hk) as (es' & Ht & HQ).
  exists (es ++ es'). by rewrite Ht, app_assoc.
Qed.

Lemma emits_mono {A} s (m : C A) (Q Q' : A -> Sess -> Tr -> Prop) :
  emits s m Q -> (forall a s' es, Q a s' es -> Q' a s' es) -> emits s m Q'.
Proof. intros Hm HQ w tr a c E. destruct (Hm _ _ _ _ E) as (es & ? & ?). eauto. Qed.

Lemma emits_lift {A} s (r : Res unit A) (Q : A -> Sess -> Tr -> Prop) :
  (forall a, r = Ok a -> Q a s []) -> emits s (lift r) Q.
Proof. intros HQ. apply emits_none. intros w tr a c [= E <-]. auto. Qed.

Lemma emits_get s (Q : Sess -> Sess -> Tr -> Prop) : Q s s [] -> emits s get_session Q.
Proof. intros HQ. apply emits_none. by intros w tr ? c [= <- <-]. Qed.

Lemma emits_put s s' (Q : unit -> Sess -> Tr -> Prop) : Q tt s' [] -> emits s (put_session s') Q.
Proof. intros HQ. apply emits_none. by intros w tr ? c [= <- <-]. Qed.

Lemma emits_modify s f (Q : unit -> Sess -> Tr -> Prop) : Q tt (f s) [] -> emits s (modify f) Q.
Proof. intros HQ. apply emits_none. by intros w tr ? c [= <- <-]. Qed.

Lemma emits_log s e (Q : unit -> Sess -> Tr -> Prop) : Q tt s [e] -> emits s (log e) Q.
Proof. intros HQ w tr a c [= <- <-]. by exists [e]. Qed.

Lemma emits_world {A} s (m : M W A) (Q : A -> Sess -> Tr -> Prop) : (forall a, Q a s []) -> emits s (on_world m) Q.
Proof.
  intros HQ. apply emits_none. intros w tr a c. unfold on_world. cbn. destruct (m w) as [r w']. by intros [= -> <-].
Qed.

Lemma emits_attempt {A} s (m : M W A) (Q : Res unit A -> Sess -> Tr -> Prop) :
  (forall r, Q r s []) -> emits s (attempt (on_world m)) Q.
Proof.
  intros HQ. apply emits_none. intros w tr a c. unfold attempt, on_world. cbn. destruct (m w) as [[x|e| |] w']; by intros [= <- <-].
Qed.

Lemma emits_write s x (Q : unit -> Sess -> Tr -> Prop) : Q tt s [Wrote x] -> emits s (write_bytes x) Q.
Proof. intros HQ. apply emits_bind, emits_log, emits_world. by intros []. Qed.

Lemma emits_spawn s d t (Q : unit -> Sess -> Tr -> Prop) : Q tt s [Spawned t] -> emits s (spawn_task d t) Q.
Proof. intros HQ. apply emits_bind, emits_log, emits_world. by intros []. Qed.

Lemma emits_state_get {A} s f (Q : A -> Sess -> Tr -> Prop) :
  (forall a, f (s_state s) = Ok a -> Q a s []) -> emits s (state_get f) Q.
Proof. intros HQ. apply emits_bind, emits_get, emits_lift, HQ. Qed.

Lemma emits_parsed {A} s t (P : A -> Prop) (r : Res StatusResponse A) k (Q : unit -> Sess -> Tr -> Prop) :
  for_tag t P r -> (forall e, tag e = Some t -> Q tt s [Wrote (status_serialize e)]) ->
  (forall a, P a -> emits s (k a) Q) -> emits s (parsed r k) Q.
Proof.
  intros Hr HQ Hk. destruct r as [a|e| |]; cbn in *; [auto|by apply emits_write, HQ|by apply emits_lift..].
Qed.

(** The request with the tag [t] is answered. *)
Definition answered (t : str) (s : Sess) (m : C unit) : Prop := emits s m (fun _ _ es => complete [t] es).
End Handlers.

#[export] Hint Extern 3 (tag _ = Some _) => first [ reflexivity | assumption | cbn; apply (f_equal Some); first [ assumption | congruence ] ] : answers.
#[export] Hint Extern 2 (complete _ [Spawned _]) => apply complete_spawned; cbn; congruence : answers.
#[export] Hint Resolve parse_login_tag parse_delete_tag parse_subscribe_tag parse_rename_tag parse_create_tag parse_enable_tag
  parse_authenticate_tag parse_status_tag parse_copy_move_tag parse_acl_tag parse_select_tag parse_append_tag parse_store_tag
  parse_fetch_tag parse_search_tag parse_sort_tag parse_thread_tag parse_list_tag parse_lsub_tag : tags.

(** One step of a handler. *)
Ltac emits_step :=
  lazymatch goal with
  | |- answered _ _ _ => unfold answered
  | |- emits _ (bindM _ _) _ => apply emits_bind
  | |- emits _ (ret _) _ => apply emits_ret
  | |- emits _ get_session _ => apply emits_get
  | |- emits _ (put_session _) _ => apply emits_put
  | |- emits _ (modify _) _ => apply emits_modify
  | |- emits _ (log _) _ => apply emits_log
  | |- emits _ (lift _) _ => apply emits_lift; intros ? ?; try done
  | |- emits _ (on_world _) _ => apply emits_world; intros ?
  | |- emits _ (attempt (on_world _)) _ => apply emits_attempt; intros ?
  | |- emits _ (write_bytes _) _ => apply emits_write
  | |- emits _ (write_status _) _ => apply emits_write
  | |- emits _ (spawn_task _ _) _ => apply emits_spawn
  | |- emits _ (state_get _) _ => apply emits_state_get; intros ? ?
  | |- emits _ (parsed _ _) _ => eapply emits_parsed; [solve [eauto with tags] | intros ? ? | let H := fresh in intros ? H; cbv beta in H]
  | |- emits _ (match ?x with _ => _ end) _ => destruct x
  | |- emits _ (let _ := _ in _) _ => cbv zeta
  end; cbn [app].
Ltac emits_steps := repeat emits_step.

Section Handlers.
Context {W : Type} `{HB : Backend W} `{DebugFmt} `{Chrono} `{Charsets} `{Base64}.
Context (folder_shared : str) (cargo_pkg_version : str).

Abbreviation Sess := (Session SessionData Ref).
Abbreviation Tr := (list (Event Ref)).
Abbreviation C := (M (@Conn W _)).
Implicit Types (s : Sess) (es : Tr) (q : Request Command).

(** The request for the next line. *)
Definition go_on : bytes := b "+ " ++ [DQUOTE; DQUOTE] ++ CRLF.
Definition requests_of_lines es : nat :=
  length (List.filter (fun e => match e with Wrote x => bytes_eqb x go_on | _ => false end) es).

(** What an AUTHENTICATE that asks for the next line leaves behind. *)
Definition asks (q : Request Command) (s' : Sess) (es : Tr) : Prop :=
  req_command q = Authenticate /\ es = [Wrote go_on] /\
  exists m, request (s_receiver s') = mkRequest (req_tag q) Authenticate [Argument (mechanism_serialize m)].

Lemma handle_capability_answers s q : answered (req_tag q) s (handle_capability q).
Proof. unfold handle_capability. emits_steps. auto with answers. Qed.

Lemma handle_id_answers s q : answered (req_tag q) s (handle_id cargo_pkg_version q).
Proof. unfold handle_id. emits_steps. auto with answers. Qed.

Lemma handle_logout_answers s q : answered (req_tag q) s (handle_logout cargo_pkg_version q).
Proof. unfold handle_logout. emits_steps. Qed.

Lemma handle_noop_answers s q is_check : answered (req_tag q) s (handle_noop q is_check).
Proof. unfold handle_noop. emits_steps; auto with answers. Qed.

Lemma handle_unauthenticate_answers s q : answered (req_tag q) s (handle_unauthenticate q).
Proof. unfold handle_unauthenticate. emits_steps; auto with answers. Qed.

Lemma handle_namespace_answers s q : answered (req_tag q) s (handle_namespace folder_shared q).
Proof. unfold handle_namespace. emits_steps; auto with answers. Qed.

Lemma handle_idle_answers s q : answered (req_tag q) s (handle_idle q).
Proof. unfold handle_idle. emits_steps; auto with answers. Qed.

Lemma handle_list_answers s q : answered (req_tag q) s (handle_list q).
Proof.
  unfold handle_list. do 3 emits_step. eapply (emits_parsed _ _ (fun a => list_tag a = req_tag q)).
  - destruct (negb _); auto with tags.
  - auto with answers.
  - intros a Ha. emits_steps; auto with answers.
Qed.

(** The handlers that parse and start a task. *)
Lemma handle_simple_answers {A} s t (tag_of : A -> str) (r : Res StatusResponse A) task :
  for_tag t (fun a => tag_of a = t) r -> (forall a, task_tags (task a) = [tag_of a]) -> answered t s (handle_simple r task).
Proof.
  intros Hr Ht. unfold handle_simple, answered. eapply emits_parsed; [exact Hr|auto with answers|].
  intros a Ha. emits_steps. apply complete_spawned. by rewrite Ht, Ha.
Qed.

Lemma parse_group_answers {A} s (tag_of : A -> str) (parse_one : Request Command -> Res StatusResponse A) requests :
  (forall q, for_tag (req_tag q) (fun a => tag_of a = req_tag q) (parse_one q)) ->
  emits s (parse_group parse_one requests)
    (fun l _ es => exists refused, complete refused es /\ Permutation (refused ++ map tag_of l) (map req_tag requests)).
Proof.
  intros Hp. induction requests as [|q requests IH]; cbn [parse_group].
  - apply emits_ret. exists []. split; [constructor|done].
  - specialize (Hp q). destruct (parse_one q) as [a|e| |]; cbn in Hp; try (by apply emits_lift).
    + apply emits_bind. eapply emits_mono; [exact IH|]. intros l s' es (refused & Hc & Hl). apply emits_ret.
      exists refused. rewrite app_nil_r. split; [done|]. cbn. rewrite Hp, <- Hl. symmetry. apply Permutation_middle.
    + emits_steps. eapply emits_mono; [exact IH|]. intros l s' es (refused & Hc & Hl). exists (req_tag q :: refused).
      split; [|cbn; by rewrite Hl]. apply (complete_cons [_]); [by apply completes_wrote, answers_tagged|done].
Qed.

(** A group of CREATE or DELETE: each of the requests is refused or in the task. *)
Lemma handle_group_answers {A} s (tag_of : A -> str) (parse_one : Request Command -> Res StatusResponse A) task requests :
  (forall q, for_tag (req_tag q) (fun a => tag_of a = req_tag q) (parse_one q)) ->
  (forall l, task_tags (task l) = map tag_of l) ->
  emits s (handle_group parse_one task requests)
    (fun _ _ es => exists ts, complete ts es /\ Permutation ts (map req_tag requests)).
Proof.
  intros Hp Ht. unfold handle_group. apply emits_bind. eapply emits_mono; [by apply parse_group_answers|].
  intros l s' es (refused & Hc & Hl). destruct l as [|a l].
  - apply emits_ret. exists refused. rewrite app_nil_r in Hl. by rewrite app_nil_r.
  - emits_steps. exists (refused ++ map tag_of (a :: l)). split; [|done]. apply complete_app; [done|]. apply complete_spawned, Ht.
Qed.

Lemma handle_create_answers s requests :
  emits s (handle_create requests) (fun _ _ es => exists ts, complete ts es /\ Permutation ts (map req_tag requests)).
Proof. unfold handle_create. emits_steps. apply (handle_group_answers _ create_tag); auto with tags. Qed.

Lemma handle_delete_answers s requests :
  emits s (handle_delete requests) (fun _ _ es => exists ts, complete ts es /\ Permutation ts (map req_tag requests)).
Proof. unfold handle_delete. emits_steps. apply (handle_group_answers _ mbox_tag); auto with tags. Qed.

Lemma handle_list_rights_answers s q : answered (req_tag q) s (handle_list_rights q).
Proof. unfold handle_list_rights. emits_steps; auto with answers. Qed.

Lemma enable_loop_answers s l t : answered t s (enable_loop l t).
Proof.
  revert s; induction l as [|c l IH]; intros s; cbn [enable_loop]; [emits_steps; auto with answers|].
  destruct c; try apply IH; emits_steps; try apply IH; auto with answers.
Qed.

Lemma handle_enable_answers s q : answered (req_tag q) s (handle_enable q).
Proof. unfold handle_enable. emits_steps; [auto with answers|]. rename select (enable_tag _ = _) into Ha. rewrite Ha. apply enable_loop_answers. Qed.

(** *** Messages *)
Lemma destination_answers s data name t missing k :
  (forall m, answered t s (k m)) -> answered t s (destination data name t missing k).
Proof.
  intros Hk. unfold destination. emits_steps; auto with answers. apply Hk.
Qed.

Lemma handle_append_answers s q : answered (req_tag q) s (handle_append q).
Proof.
  unfold handle_append. emits_step. emits_step; [auto with answers|]. emits_steps. rename select (append_tag _ = _) into Ha. rewrite Ha.
  apply destination_answers. intros m. emits_steps. auto with answers.
Qed.
Lemma handle_close_answers s q : answered (req_tag q) s (handle_close q).
Proof. unfold handle_close. emits_steps; auto with answers. Qed.

Lemma handle_unselect_answers s q : answered (req_tag q) s (handle_unselect q).
Proof. unfold handle_unselect. emits_steps; auto with answers. Qed.

Lemma handle_expunge_answers s q uid : answered (req_tag q) s (handle_expunge q uid).
Proof. unfold handle_expunge. emits_steps; auto with answers. Qed.

Lemma handle_search_answers s q is_sort uid : answered (req_tag q) s (handle_search q is_sort uid).
Proof.
  unfold handle_search. do 3 emits_step. eapply (emits_parsed _ _ (fun a => search_tag a = req_tag q)).
  - destruct (negb _); auto with tags.
  - auto with answers.
  - intros a Ha. emits_steps; auto with answers.
Qed.

Lemma handle_fetch_answers s q uid : answered (req_tag q) s (handle_fetch q uid).
Proof. unfold handle_fetch. emits_steps; auto with answers. Qed.

Lemma handle_store_answers s q uid : answered (req_tag q) s (handle_store q uid).
Proof. unfold handle_store. emits_steps; auto with answers. Qed.

Lemma handle_thread_answers s q uid : answered (req_tag q) s (handle_thread q uid).
Proof. unfold handle_thread. emits_steps; auto with answers. Qed.

Lemma handle_copy_move_answers s q is_move uid : answered (req_tag q) s (handle_copy_move q is_move uid).
Proof.
  unfold handle_copy_move. emits_step. emits_step; [auto with answers|]. emits_steps. rename select (cm_tag _ = _) into Ha. rewrite Ha.
  apply destination_answers. intros m. rewrite <- Ha. emits_steps; auto with answers.
Qed.

(** *** SELECT *)
Lemma enter_mailbox_answers s q arguments data id state cs m :
  answered (select_tag arguments) s (enter_mailbox q arguments data id state cs m).
Proof. unfold enter_mailbox. emits_steps; auto with answers. Qed.

Lemma finish_select_answers s q arguments data id state :
  answered (select_tag arguments) s (finish_select q arguments data id state).
Proof. unfold finish_select. emits_steps; try apply enter_mailbox_answers; auto with answers. Qed.

Lemma handle_select_answers s q : answered (req_tag q) s (handle_select q).
Proof.
  unfold handle_select. do 3 emits_step. emits_step; [auto with answers|]. rename select (select_tag _ = _) into Ha. rewrite <- Ha.
  emits_steps; try apply finish_select_answers; auto with answers.
Qed.

(** *** Authentication *)
Lemma authenticate_answers s credentials t : answered t s (authenticate credentials t).
Proof. unfold authenticate. emits_steps; auto with answers. Qed.

Lemma handle_login_answers s q : answered (req_tag q) s (handle_login q).
Proof.
  unfold handle_login. emits_step. emits_step; [auto with answers|]. rename select (login_tag _ = _) into Ha. rewrite Ha.
  apply authenticate_answers.
Qed.

(** The request [q] is answered, or the next line is asked for. *)
Definition served {A} (q : Request Command) (s : Sess) (m : C A) : Prop :=
  emits s m (fun _ s' es => complete [req_tag q] es \/ asks q s' es).

Lemma handle_authenticate_served s q : req_command q = Authenticate -> served q s (handle_authenticate q).
Proof.
  intros Hc. unfold handle_authenticate, served. emits_step; [auto with answers|]. rename select (auth_tag _ = _) into Ha.
  assert (Hans : forall m, answered (req_tag q) s m -> emits s m (fun _ s' es => complete [req_tag q] es \/ asks q s' es)).
  { intros m Hm. eapply emits_mono; [exact Hm|]. auto. }
  rewrite Ha. emits_steps; try (left; auto with answers; fail); try (apply Hans, authenticate_answers).
  all: right; split; [done|]; split; [done|]; eexists; reflexivity.
Qed.

(** *** Any request *)
Lemma served_then {A} q s (m : C unit) (v : A) : served q s m -> served q s (do* _ := m in ret v).
Proof.
  intros Hm. apply emits_bind. eapply emits_mono; [exact Hm|]. intros ? s' es Hes. apply emits_ret. by rewrite app_nil_r.
Qed.

Lemma served_answered {A} q s (m : C unit) (v : A) : answered (req_tag q) s m -> served q s (do* _ := m in ret v).
Proof. intros Hm. apply served_then. eapply emits_mono; [exact Hm|]. by left. Qed.

Lemma served_group {A} q s (m : C unit) (v : A) :
  emits s m (fun _ _ es => exists ts, complete ts es /\ Permutation ts (map req_tag [q])) -> served q s (do* _ := m in ret v).
Proof.
  intros Hm. apply served_answered. eapply emits_mono; [exact Hm|]. intros ? ? es (ts & Hc & Hp).
  cbn [map] in Hp. apply Permutation_singleton_r in Hp. by subst ts.
Qed.

Create HintDb handlers.
#[local] Hint Resolve handle_capability_answers handle_id_answers handle_logout_answers handle_noop_answers
  handle_unauthenticate_answers handle_namespace_answers handle_idle_answers handle_list_answers handle_list_rights_answers
  handle_enable_answers handle_append_answers handle_close_answers handle_unselect_answers handle_expunge_answers
  handle_search_answers handle_fetch_answers handle_store_answers handle_thread_answers handle_copy_move_answers
  handle_select_answers handle_login_answers : handlers.

Lemma handle_request_served q s : served q s (handle_request folder_shared cargo_pkg_version q).
Proof.
  unfold handle_request. destruct (req_command q) eqn:Ec; try (apply served_answered; auto with handlers; fail).
  all: try (apply served_group; first [apply handle_create_answers|apply handle_delete_answers]).
  all: try (apply served_then, handle_authenticate_served; done).
  all: try (apply served_answered; unfold handle_rename, handle_status, handle_subscribe, handle_get_acl, handle_my_rights,
              handle_set_acl, handle_delete_acl; try (unfold answered; emits_step; emits_step)).
  all: try (eapply handle_simple_answers; [auto with tags|done]).
  unfold handle_starttls, served. emits_steps. left. auto with answers.
Qed.

(** ** A chunk of input *)

(** The requests [qs] are taken care of: each of them is answered once, by a
    tagged response or by a task, or is an AUTHENTICATE whose next line was
    asked for; nothing else is answered, apart from input with the tags [errors]
    that is no request. *)
Definition settled (qs : list (Request Command)) (errors : list str) (es : Tr) : Prop :=
  exists asked rest ts, Permutation (asked ++ rest) qs /\
    Forall (fun q => req_command q = Authenticate) asked /\ (length asked <= requests_of_lines es)%nat /\
    complete ts es /\ Permutation ts (map req_tag rest ++ errors).

Lemma settled_app qs qs' errors es es' : settled qs errors es -> settled qs' [] es' -> settled (qs ++ qs') errors (es ++ es').
Proof.
  intros (a & r & ts & Hq & Ha & Hn & Hc & Hp) (a' & r' & ts' & Hq' & Ha' & Hn' & Hc' & Hp').
  exists (a ++ a'), (r ++ r'), (ts ++ ts'). split_and!.
  - rewrite <- Hq, <- Hq'. rewrite <- !app_assoc. f_equiv. rewrite !app_assoc. f_equiv. apply Permutation_app_comm.
  - by apply Forall_app.
  - unfold requests_of_lines in *. rewrite List.filter_app, !length_app. lia.
  - by apply complete_app.
  - rewrite map_app, Hp, Hp', app_nil_r, <- !app_assoc. f_equiv. apply Permutation_app_comm.
Qed.

Lemma settled_answered qs errors ts es : complete ts es -> Permutation ts (map req_tag qs ++ errors) -> settled qs errors es.
Proof. intros Hc Hp. exists [], qs, ts. split_and!; try done. cbn. lia. Qed.

Lemma settled_nil : settled [] [] [].
Proof. by apply (settled_answered _ _ []); [constructor|]. Qed.

Lemma settled_one q s' es : complete [req_tag q] es \/ asks q s' es -> settled [q] [] es.
Proof.
  intros [Hc|(Hq & -> & _)]; [by eapply settled_answered; [exact Hc|]|].
  exists [q], [], []. split_and!; try done; [by repeat constructor|by apply complete_answer, answers_none].
Qed.

Lemma is_allowed_tag q st is_tls : for_tag (req_tag q) (fun q' => q' = q) (is_allowed q st is_tls).
Proof. unfold is_allowed. destruct (req_command q); by repeat case_match. Qed.

(** The second loop; after STARTTLS nothing more is handled. *)
Lemma dispatch_settles fuel qs s :
  emits s (dispatch folder_shared cargo_pkg_version fuel qs)
    (fun up _ es => exists handled dropped, qs = handled ++ dropped /\ settled handled [] es /\ (up = false -> dropped = [])).
Proof.
  revert qs s; induction fuel as [|fuel IH]; intros qs s; [by apply emits_lift|]. cbn [dispatch].
  destruct qs as [|q qs]; [apply emits_ret; exists [], []; split_and!; try done; apply settled_nil|].
  assert (Hone : emits s (do* upgrade := handle_request folder_shared cargo_pkg_version q in
      if upgrade : bool then ret true else dispatch folder_shared cargo_pkg_version fuel qs)
    (fun up _ es => exists handled dropped, q :: qs = handled ++ dropped /\ settled handled [] es /\ (up = false -> dropped = []))).
  { apply emits_bind. eapply emits_mono; [apply handle_request_served|]. intros up s1 es Hq. apply settled_one in Hq. destruct up.
    - apply emits_ret. exists [q], qs. by rewrite app_nil_r.
    - eapply emits_mono; [apply IH|]. intros up s2 es2 (h & d & -> & Hs & Hu). exists (q :: h), d.
      split_and!; [done| |done]. by apply (settled_app [q]). }
  assert (Hgroup : forall c (m : list (Request Command) -> C unit),
    (forall s l, emits s (m l) (fun _ _ es => exists ts, complete ts es /\ Permutation ts (map req_tag l))) ->
    emits s (let '(grouped, rest) := group_requests c qs in
             do* _ := m (q :: grouped) in dispatch folder_shared cargo_pkg_version fuel rest)
      (fun up _ es => exists handled dropped, q :: qs = handled ++ dropped /\ settled handled [] es /\ (up = false -> dropped = []))).
  { intros c m Hm. destruct (group_requests c qs) as [grouped rest] eqn:Eg. apply group_requests_spec in Eg as [-> _].
    apply emits_bind. eapply emits_mono; [apply Hm|]. intros ? s1 es (ts & Hc & Hp).
    eapply emits_mono; [apply IH|]. intros up s2 es2 (h & d & -> & Hs & Hu). exists ((q :: grouped) ++ h), d.
    split_and!; [by rewrite <- app_assoc| |done]. apply settled_app; [|done]. eapply settled_answered; [exact Hc|]. by rewrite app_nil_r. }
  destruct (req_command q); try exact Hone; apply Hgroup; intros; [apply handle_create_answers|apply handle_delete_answers].
Qed.

(** What the first loop takes of what the receiver finds in a chunk: requests
    up to an error, or a literal to wait for; and the tag of the error. *)
Fixpoint taken (l : list (Res RecvError (Request Command))) : list (Request Command) * list str :=
  match l with
  | Ok q :: l' => let '(qs, e) := taken l' in (q :: qs, e)
  | Err (ErrorResponse response) :: _ => ([], match tag response with Some t => [t] | None => [] end)
  | _ => ([], [])
  end.
Definition requests_of s (chunk : bytes) : list (Request Command) * list str := taken (run (s_receiver s) chunk).2.

Lemma answers_any response : answers (match tag response with Some t => [t] | None => [] end) (status_serialize response).
Proof. destruct (tag response) eqn:E; [by apply answers_tagged|by apply answers_untagged]. Qed.

Lemma collect_settles fuel chunk s :
  emits s (collect fuel chunk)
    (fun r _ es => exists refused, Permutation (r.1 ++ refused) (requests_of s chunk).1 /\
       complete (map req_tag refused ++ (requests_of s chunk).2) es).
Proof.
  revert chunk s; induction fuel as [|fuel IH]; intros chunk s; [by apply emits_lift|]. cbn [collect]. emits_step. emits_step.
  unfold requests_of. rewrite run_parse. destruct (parse (s_receiver s) chunk) as [[rc res] rest].
  apply emits_bind, emits_put. cbn [app].
  destruct res as [q|[|size|e]| |]; try (by apply emits_lift).
  - pose proof (is_allowed_tag q (s_state s) (s_is_tls s)) as Hq. cbn [snd taken].
    specialize (IH rest (set_receiver s rc)). unfold requests_of in IH. cbn [s_receiver set_receiver] in IH.
    destruct (taken (run rc rest).2) as [qs e]. cbn [fst snd] in *.
    destruct (is_allowed q (s_state s) (s_is_tls s)) as [q'|response| |]; cbn in Hq; try (by apply emits_lift).
    + subst q'. apply emits_bind. eapply emits_mono; [exact IH|]. intros [l n] s' es (refused & Hp & Hc). apply emits_ret.
      exists refused. cbn in *. rewrite app_nil_r. by rewrite Hp.
    + apply emits_bind, emits_write. eapply emits_mono; [exact IH|]. intros [l n] s' es (refused & Hp & Hc).
      exists (q :: refused). cbn in *. rewrite <- Permutation_middle, Hp. split; [done|].
      apply (complete_cons [_]); [by apply completes_wrote, answers_tagged|done].
  - apply emits_ret. exists []. split; [done|constructor].
  - apply emits_ret. exists []. split; [done|constructor].
  - emits_steps. exists []. cbn. split; [done|]. apply complete_answer, answers_any.
Qed.

(** The requests of a chunk of input, up to the first that is erroneous or
    waits for a literal, are answered once each; unless a STARTTLS comes before
    them. *)
Theorem chunk_answered s w tr chunk up c :
  ingest folder_shared cargo_pkg_version chunk (mkConn s w tr) = (Ok up, c) ->
  exists es handled dropped, trace c = tr ++ es /\ Permutation (handled ++ dropped) (requests_of s chunk).1 /\
    settled handled (requests_of s chunk).2 es /\ (up = false -> dropped = []).
Proof.
  assert (Hi : emits s (ingest folder_shared cargo_pkg_version chunk) (fun up _ es =>
    exists handled dropped, Permutation (handled ++ dropped) (requests_of s chunk).1 /\
      settled handled (requests_of s chunk).2 es /\ (up = false -> dropped = []))).
  { unfold ingest. apply emits_bind. eapply emits_mono; [apply collect_settles|]. intros [qs needs] s1 es1 (refused & Hp & Hc).
    cbn [fst] in Hp. apply emits_bind. eapply emits_mono; [apply dispatch_settles|].
    intros up' s2 es2 (handled & dropped & -> & Hs & Hup).
    assert (Hall : exists handled' dropped, Permutation (handled' ++ dropped) (requests_of s chunk).1 /\
      settled handled' (requests_of s chunk).2 (es1 ++ es2) /\ (up' = false -> dropped = [])).
    { exists (refused ++ handled), dropped. split_and!; [|apply settled_app; [by eapply settled_answered|done]|done].
      rewrite <- Hp, <- app_assoc. apply Permutation_app_comm. }
    destruct Hall as (h & d & Hp' & Hs' & Hd).
    assert (Hmore : forall x, untagged x = true -> settled h (requests_of s chunk).2 ((es1 ++ es2) ++ [Wrote x])).
    { intros x Hx. rewrite <- (app_nil_r h). apply settled_app; [done|]. apply (settled_answered _ _ []); [|done].
      by apply complete_answer, answers_none. }
    destruct up'; [|destruct needs as [size|]]; emits_steps; exists h, d; rewrite ?app_nil_r, ?app_assoc; split_and!; auto. }
  intros E. destruct (Hi _ _ _ _ E) as (es & Ht & h & d & Hp & Hs & Hd). by exists es, h, d.
Qed.
End Handlers.

(** ** A chunk with two requests and an unknown command *)
#[local] Existing Instances SessionProps.Demo.debug SessionProps.Demo.no_dates SessionProps.Demo.no_charsets
  SessionProps.Demo.no_base64.

#[local] Instance anyone_world : Backend unit := SessionProps.Demo.world SessionProps.Demo.anyone.

Lemma chunk_answered_witness :
  let c0 : @Conn unit _ := mkConn (SessionProps.Demo.selected SessionProps.Demo.anyone) tt [] in
  let chunk := SessionProps.Demo.lines ["A1 NOOP"; "A2 FETCH 1 FLAGS"; "A3 FOO"]%string in
  exists c h, ingest (b "Shared") (b "1") chunk c0 = (Ok false, c) /\
    Permutation h [mkRequest (b "A1") Noop []; mkRequest (b "A2") (Fetch false) [Argument (b "1"); Argument (b "FLAGS")]] /\
    settled h [b "A3"] (trace c).
Proof.
  intros c0 chunk. destruct (ingest (b "Shared") (b "1") chunk c0) as [r c] eqn:E.
  assert (r = Ok false) as ->.
  { apply (f_equal fst) in E. vm_compute in E. by rewrite <- E. }
  destruct (chunk_answered (b "Shared") (b "1") (session c0) tt [] chunk false c E) as (es & h & d & Ht & Hp & Hs & Hd).
  specialize (Hd eq_refl). subst d. exists c, h. split; [reflexivity|].
  assert (Hq : requests_of (session c0) chunk =
    ([mkRequest (b "A1") Noop []; mkRequest (b "A2") (Fetch false) [Argument (b "1"); Argument (b "FLAGS")]], [b "A3"])).
  { vm_compute. reflexivity. }
  rewrite Hq in Hp, Hs. rewrite app_nil_r in Hp. cbn [fst snd] in Hp, Hs. rewrite Ht. exact (conj Hp Hs).
Defined.
