(* ===== verification/TaskAnswers.v ===== *)
(** * Every task completes its commands

    What the tasks of [Server.v] write: untagged responses, and at the end of
    each task one tagged response for every command that it is for. *)

From S2P Require Import Prelude Utf8 Utf7 Types Receiver Sequence Flags Wire Commands Parsers ParseSearch ParseFetch Tags.
From S2P Require Import Responses FetchWire Mime Jmap Store UidStore Modseq Synchronize BTree Mailboxes Folders SelectedMailbox.
From S2P Require Import Tasks SearchTask StatusTask AclTask FetchTask StoreTask CopyTask AppendTask ThreadTask ExpungeTask IdleTask.
From S2P Require Import Listing Sasl Session SessionSpec SessionProps Server Answers.

(** ** Computations that write *)

(** The bytes written so far. *)
Class Output (S : Type) := output : S -> list bytes.
#[export] Instance task_output W : Output (TaskState W) := written.
#[export] Instance idle_output W : Output (IdleState W) := fun i => written (idle_task i).
#[export] Instance data_output W : Output (Data W) := fun _ => [].

Abbreviation any := (fun _ => True).
Abbreviation quiet_bytes xs := (Forall (fun x => untagged x = true) xs).

(** [m] writes untagged responses only; its result has [Q] and its error [P]. *)
Definition says {S E A} `{Output S} (P : E -> Prop) (m : EM S E A) (Q : A -> Prop) : Prop :=
  forall s r s', m s = (r, s') -> exists xs, output s' = output s ++ xs /\ quiet_bytes xs /\
    match r with Ok a => Q a | Err e => P e | Panic | NoFuel => True end.

(** The errors of a computation. *)
Definition fails_with {S E A} (P : E -> Prop) (m : EM S E A) : Prop := forall s e s', m s = (Err e, s') -> P e.

Section Says.
Context {S E : Type} `{Output S} (P : E -> Prop).

Lemma says_silent {A} (m : EM S E A) (Q : A -> Prop) :
  (forall s r s', m s = (r, s') -> output s' = output s /\ match r with Ok a => Q a | Err e => P e | Panic | NoFuel => True end) ->
  says P m Q.
Proof. intros Hm s r s' E'. destruct (Hm _ _ _ E') as [Ho Hr]. exists []. by rewrite app_nil_r. Qed.

Lemma says_ret {A} (a : A) (Q : A -> Prop) : Q a -> says P (ret a) Q.
Proof. intros HQ. apply says_silent. by intros s r s' [= <- <-]. Qed.

Lemma says_lift {A} (r : Res E A) (Q : A -> Prop) :
  match r with Ok a => Q a | Err e => P e | Panic | NoFuel => True end -> says P (lift r) Q.
Proof. intros HQ. apply says_silent. by intros s r' s' [= <- <-]. Qed.

Lemma says_bind {A B} (m : EM S E A) (k : A -> EM S E B) (R : A -> Prop) (Q : B -> Prop) :
  says P m R -> (forall a, R a -> says P (k a) Q) -> says P (bindM m k) Q.
Proof.
  intros Hm Hk s r s'. unfold bindM. destruct (m s) as [ra s1] eqn:E1. destruct (Hm _ _ _ E1) as (xs & Ho & Hxs & Ha).
  destruct ra as [a|e| |]; [|intros [= <- <-]; by exists xs..].
  intros E2. destruct (Hk a Ha _ _ _ E2) as (ys & Ho' & Hys & Hr). exists (xs ++ ys).
  split_and!; [by rewrite Ho', Ho, app_assoc|by apply Forall_app|done].
Qed.

Lemma says_mono {A} (P' : E -> Prop) (m : EM S E A) (Q Q' : A -> Prop) :
  says P m Q -> (forall a, Q a -> Q' a) -> (forall e, P e -> P' e) -> says P' m Q'.
Proof.
  intros Hm HQ HP s r s' E'. destruct (Hm _ _ _ E') as (xs & Ho & Hxs & Hr). exists xs. split_and!; [done..|]. destruct r; auto.
Qed.

Lemma says_get {A} (f : S -> A) (Q : A -> Prop) : (forall a, Q a) -> says P (fun s => (Ok (f s), s)) Q.
Proof. intros HQ. apply says_silent. by intros s r s' [= <- <-]. Qed.
End Says.

Lemma says_map_errM {S E E' A} `{Output S} (P : E -> Prop) (P' : E' -> Prop) (f : E -> E') (m : EM S E A) (Q : A -> Prop) :
  says P m Q -> (forall e, P e -> P' (f e)) -> says P' (map_errM f m) Q.
Proof.
  intros Hm Hf s r s'. unfold map_errM. destruct (m s) as [ra s1] eqn:E1. destruct (Hm _ _ _ E1) as (xs & Ho & Hxs & Ha).
  intros [= <- <-]. exists xs. split_and!; [done..|]. destruct ra; cbn; auto.
Qed.

Lemma says_attempt {S E E' A} `{Output S} (P : E -> Prop) (P' : E' -> Prop) (m : EM S E A) (Q : Res E A -> Prop) :
  says P m (fun a => Q (Ok a)) -> (forall e, P e -> Q (Err e)) -> says P' (attempt m) Q.
Proof.
  intros Hm HQ s r s'. unfold attempt. destruct (m s) as [ra s1] eqn:E1. destruct (Hm _ _ _ E1) as (xs & Ho & Hxs & Ha).
  destruct ra; intros [= <- <-]; exists xs; split_and!; auto.
Qed.

(** *** Parts of the state *)
Section Parts.
Context {W E : Type} (P : E -> Prop).

Lemma says_on_world {A} (m : EM W E A) (Q : A -> Prop) : fails_with P m -> (forall a, Q a) -> says P (Tasks.on_world m) Q.
Proof.
  intros Hm HQ. apply says_silent. intros s r s'. unfold Tasks.on_world. destruct (m (Tasks.world s)) as [r' w] eqn:Em. intros [= <- <-].
  split; [done|]. destruct r'; eauto.
Qed.

Lemma says_write x : untagged x = true -> says (E := E) (S := TaskState W) P (Tasks.write_bytes x) (fun _ => True).
Proof. intros Hx s r s' [= <- <-]. exists [x]. split_and!; [done|by repeat constructor|done]. Qed.

Lemma says_set_selected d : says (E := E) (S := TaskState W) P (set_selected d) (fun _ => True).
Proof. apply says_silent. by intros s r s' [= <- <-]. Qed.

Lemma says_set_saved x : says (E := E) (S := TaskState W) P (set_saved x) (fun _ => True).
Proof. apply says_silent. by intros s r s' [= <- <-]. Qed.

Lemma says_on_task {A} (m : EM (TaskState W) E A) (Q : A -> Prop) : says P m Q -> says P (on_task m) Q.
Proof.
  intros Hm i r i'. unfold on_task. destruct (m (idle_task i)) as [r' s'] eqn:Em. intros [= <- <-]. exact (Hm _ _ _ Em).
Qed.

Lemma says_on_data {A} (m : EM (Data W) E A) (Q : A -> Prop) : says P m Q -> says P (on_data m) Q.
Proof.
  intros Hm. apply says_silent. intros i r i'. unfold on_data.
  destruct (m (mkData (idle_accounts i) (Tasks.world (idle_task i)))) as [r' d'] eqn:Em. intros [= <- <-].
  destruct (Hm _ _ _ Em) as (xs & Ho & _ & Hr). done.
Qed.

(** A computation on the caches writes nothing. *)
Lemma says_data {A} (m : EM (Data W) E A) (Q : A -> Prop) :
  fails_with P m -> (forall a, Q a) -> says P m Q.
Proof. intros Hm HQ. apply says_silent. intros s r s' E'. split; [done|]. destruct r; eauto. Qed.
End Parts.

Lemma fails_any {S E A} (m : EM S E A) : fails_with (fun _ => True) m.
Proof. done. Qed.

Lemma fails_map_errM {S E E' A} (P : E' -> Prop) (f : E -> E') (m : EM S E A) : (forall e, P (f e)) -> fails_with P (map_errM f m).
Proof. intros Hf s e s'. unfold map_errM. destruct (m s) as [[a|e0| |] s1]; cbn; intros [= <- <-]; auto. Qed.

Lemma fails_attempt {S E E' A} (P : E' -> Prop) (m : EM S E A) : fails_with P (attempt m).
Proof. intros s e s'. unfold attempt. by destruct (m s) as [[]]. Qed.

Lemma fails_bind {S E A B} (P : E -> Prop) (m : EM S E A) (k : A -> EM S E B) :
  fails_with P m -> (forall a, fails_with P (k a)) -> fails_with P (bindM m k).
Proof.
  intros Hm Hk s e s'. unfold bindM. destruct (m s) as [[a|e0| |] s1] eqn:E1; [apply Hk| |done..].
  intros [= <- <-]. eauto.
Qed.

Lemma fails_ok {S E A} (P : E -> Prop) (m : S -> Res E A * S) : (forall s, match (m s).1 with Err _ => False | _ => True end) -> fails_with P m.
Proof. intros Hm s e s' E'. specialize (Hm s). by rewrite E' in Hm. Qed.

(** [m], when it comes to its end, has completed the commands [ts]. *)
Definition sent `{DebugFmt} (ts : list str) (xs : list bytes) : Prop := complete (Ref := nat) ts (map Wrote xs).
Definition does `{DebugFmt} {S E A} `{Output S} (ts : list str) (m : EM S E A) : Prop :=
  forall s a s', m s = (Ok a, s') -> exists xs, output s' = output s ++ xs /\ sent ts xs.

Section Does.
Context `{DebugFmt} {S E : Type} `{Output S}.

Lemma sent_quiet xs : quiet_bytes xs -> sent [] xs.
Proof.
  induction 1 as [|x xs Hx _ IH]; [constructor|]. apply (complete_cons [] []); [by apply completes_wrote, answers_none|exact IH].
Qed.

Lemma does_bind {A B} P ts (m : EM S E A) (k : A -> EM S E B) (Q : A -> Prop) :
  says P m Q -> (forall a, Q a -> does ts (k a)) -> does ts (bindM m k).
Proof.
  intros Hm Hk s v s'. unfold bindM. destruct (m s) as [[a|e| |] s1] eqn:E1; try done.
  destruct (Hm _ _ _ E1) as (xs & Ho & Hxs & Ha). intros E2. destruct (Hk a Ha _ _ _ E2) as (ys & Ho' & Hys).
  exists (xs ++ ys). split; [by rewrite Ho', Ho, app_assoc|]. unfold sent. rewrite map_app.
  apply (complete_app [] ts); [by apply sent_quiet|exact Hys].
Qed.

(** The end of a task on the result of its steps. *)
Lemma does_attempt {E' A B} (P : E' -> Prop) ts (m : EM S E' A) (k : Res E' A -> EM S E B) (Q : A -> Prop) :
  says P m Q -> (forall a, Q a -> does ts (k (Ok a))) -> (forall e, P e -> does ts (k (Err e))) ->
  does ts (bindM (attempt m) k).
Proof.
  intros Hm Hok Herr. eapply (does_bind any ts _ _ (fun r => match r with Ok a => Q a | Err e => P e | _ => False end)).
  - intros s r s'. unfold attempt. destruct (m s) as [r' s1] eqn:E1. destruct (Hm _ _ _ E1) as (xs & Ho & Hxs & Hr).
    destruct r'; intros [= <- <-]; by exists xs.
  - intros [a|e| |] Hr; [by apply Hok|by apply Herr|done..].
Qed.

(** Steps that write the answer themselves when they succeed. *)
Definition ends {A} (P : E -> Prop) (ts : list str) (m : EM S E A) : Prop :=
  forall s r s', m s = (r, s') -> exists xs, output s' = output s ++ xs /\
    match r with Ok _ => sent ts xs | Err e => quiet_bytes xs /\ P e | Panic | NoFuel => True end.

Lemma ends_bind {A B} P ts (m : EM S E A) (k : A -> EM S E B) (Q : A -> Prop) :
  says P m Q -> (forall a, Q a -> ends P ts (k a)) -> ends P ts (bindM m k).
Proof.
  intros Hm Hk s r s'. unfold bindM. destruct (m s) as [ra s1] eqn:E1. destruct (Hm _ _ _ E1) as (xs & Ho & Hxs & Ha).
  destruct ra as [a|e| |]; [|by intros [= <- <-]; exists xs..].
  intros E2. destruct (Hk a Ha _ _ _ E2) as (ys & Ho' & Hr). exists (xs ++ ys). split; [by rewrite Ho', Ho, app_assoc|].
  destruct r as [v|e| |]; [|split; [apply Forall_app; split; [done|apply Hr]|apply Hr]|done..].
  unfold sent. rewrite map_app. apply (complete_app [] ts); [by apply sent_quiet|exact Hr].
Qed.

Lemma ends_fail {A} (P : E -> Prop) ts (r : Res E A) : match r with Ok _ => False | Err e => P e | _ => True end -> ends P ts (lift r).
Proof. intros Hr s r' s' [= <- <-]. exists []. rewrite app_nil_r. split; [done|]. by destruct r. Qed.

Lemma does_ret {A} (a : A) : does [] (ret a : EM S E A).
Proof. intros s ? s' [= <- <-]. exists []. rewrite app_nil_r. split; [done|constructor]. Qed.
End Does.

Lemma does_attempt_ends `{DebugFmt} {S E E' A} `{Output S} P ts (m : EM S E' A) (k : Res E' A -> EM S E unit) :
  ends P ts m -> (forall a s, k (Ok a) s = (Ok tt, s)) -> (forall e, P e -> does ts (k (Err e))) ->
  does ts (bindM (attempt m) k).
Proof.
  intros Hm Hok Herr s a s'. unfold bindM, attempt. destruct (m s) as [r s1] eqn:E1.
  destruct (Hm _ _ _ E1) as (xs & Ho & Hr). destruct r as [x|e| |].
  - rewrite Hok. intros [= <- <-]. exists xs. by split.
  - intros E2. destruct Hr as [Hxs He]. destruct (Herr e He _ _ _ E2) as (ys & Ho' & Hys). exists (xs ++ ys).
    split; [by rewrite Ho', Ho, app_assoc|]. unfold sent. rewrite map_app. apply (complete_app [] ts); [by apply sent_quiet|exact Hys].
  - done.
  - done.
Qed.

Lemma ends_write `{DebugFmt} {W E} (P : E -> Prop) ts x : answers ts x -> ends (S := TaskState W) P ts (Tasks.write_bytes x).
Proof. intros Hx s r s' [= <- <-]. exists [x]. split; [done|]. by apply complete_answer. Qed.

Lemma does_write `{DebugFmt} {W E} ts x : answers ts x -> does (S := TaskState W) (E := E) ts (Tasks.write_bytes x).
Proof. intros Hx s a s' [= <- <-]. exists [x]. split; [done|]. by apply complete_answer. Qed.

(** The steps of a task whose results do not matter. *)

(** The error of a result. *)
Definition errs {E A} (P : E -> Prop) (r : Res E A) : Prop := match r with Err e => P e | _ => True end.

Lemma errs_bind {E A B} (P : E -> Prop) (r : Res E A) (k : A -> Res E B) :
  errs P r -> (forall a, errs P (k a)) -> errs P (res_bind r k).
Proof. destruct r; cbn; auto. Qed.
Lemma errs_map_err {E E' A} (P : E' -> Prop) (f : E -> E') (r : Res E A) : (forall e, P (f e)) -> errs P (map_err f r).
Proof. destruct r; cbn; auto. Qed.
Lemma errs_unwrap {E A} (P : E -> Prop) (o : option A) : errs P (unwrap o).
Proof. by destruct o. Qed.
Lemma errs_any {E A} (r : Res E A) : errs any r.
Proof. by destruct r. Qed.
Lemma errs_chunks {E A} (P : E -> Prop) n (l : list A) : errs P (chunks n l).
Proof. unfold chunks. by case_match. Qed.

Lemma says_lift_errs {S E A} `{Output S} (P : E -> Prop) (r : Res E A) : errs P r -> says P (lift r) any.
Proof. intros Hr. apply says_lift. by destruct r. Qed.

Lemma fails_ask {S E A} (P : E -> Prop) (f : S -> A) : fails_with P (fun s => (Ok (f s), s)).
Proof. by intros s e s'. Qed.

Create HintDb says.
#[export] Hint Resolve fails_ask fails_attempt fails_any says_set_selected says_set_saved errs_any errs_unwrap errs_chunks : says.

Ltac says_step :=
  lazymatch goal with
  | |- says _ (bindM _ _) _ => apply (says_bind _ _ _ any); [|intros ? _]
  | |- says _ (ret _) _ => apply says_ret
  | |- says _ (lift Panic) _ => apply says_lift, I
  | |- says _ (lift NoFuel) _ => apply says_lift, I
  | |- says _ (lift _) any => apply says_lift_errs
  | |- errs _ (res_bind _ _) => apply errs_bind; [|intros ?]
  | |- errs _ (map_err _ _) => apply errs_map_err; intros ?
  | |- errs _ (match ?x with _ => _ end) => destruct x
  | |- fails_with _ (map_errM _ _) => apply fails_map_errM; intros ?
  | |- says _ (map_errM _ _) _ => apply (says_map_errM any); [|intros ? _]
  | |- says _ (attempt _) _ => apply (says_attempt any); [|intros ? _]
  | |- says _ (Tasks.on_world _) _ => apply says_on_world; [|intros ?]
  | |- says _ (Tasks.write_bytes _) _ => apply says_write
  | |- says _ (on_task _) _ => apply says_on_task
  | |- says _ (on_data _) _ => apply says_on_data, says_data; [|intros ?]
  | |- says _ get_selected _ => apply says_get; intros ?
  | |- says _ get_saved _ => apply says_get; intros ?
  | |- says _ (let _ := _ in _) _ => cbv zeta
  | |- says _ (match ?x with _ => _ end) _ => destruct x
  end.
Ltac says_tac := repeat first [ exact I | reflexivity | solve [auto with says] | says_step ].

(** ** Messages *)
Section Messages.
Context {W : Type} `{Sled W} `{Clock W} `{EmailClient W} `{SearchClient W} `{Limits W} `{FetchClient W} `{StoreClient W}.
Context `{CopyClient W} `{AppendClient W} `{ThreadClient W} `{DebugFmt} `{Chrono} `{Md5}.

Abbreviation no_tag := (fun e => tag e = None).

Lemma into_status_untagged e : tag (Jmap.into_status_response e) = None.
Proof. apply Jmap.into_status_response_no. Qed.

Lemma synchronize_messages_untagged (mailbox : MailboxId) : fails_with no_tag (Synchronize.synchronize_messages (DB := W) mailbox).
Proof.
  unfold Synchronize.synchronize_messages. apply fails_bind; [|intros; by apply fails_map_errM].
  assert (Hf : forall pages position ids, fails_with no_tag (fetch_ids (DB := W) pages mailbox position ids)); [|apply Hf].
  induction pages as [|pages IH]; intros position ids; [done|]. cbn [fetch_ids].
  apply fails_bind; [apply fails_map_errM, into_status_untagged|]. intros r. cbv zeta. by repeat case_match.
Qed.

(** *** The snapshot *)
Lemma errs_insertion_loop {E} (P : E -> Prop) uids pos jids state b : errs P (insertion_loop uids pos jids state b).
Proof. revert pos state b; induction jids; intros; cbn [insertion_loop]; unfold index; says_tac. Qed.

Lemma errs_jmap_to_imap {E} (P : E -> Prop) state ids : errs P (Selected.jmap_to_imap state ids).
Proof. induction ids; cbn [Selected.jmap_to_imap]; unfold index; says_tac. Qed.

Lemma errs_imap_to_jmap {E} (P : E -> Prop) state ids : errs P (Selected.imap_to_jmap state ids).
Proof. induction ids; cbn [Selected.imap_to_jmap]; unfold index; says_tac. Qed.

Lemma errs_match_loop P sequence is_uid mu ms jids pos uids ids : errs P (SelectedMailbox.match_loop sequence is_uid mu ms jids pos uids ids).
Proof. revert pos ids; induction uids; intros; cbn [SelectedMailbox.match_loop]; unfold index; says_tac. Qed.

Lemma errs_saved_loop P state l ids : errs P (saved_loop state l ids).
Proof. revert ids; induction l; intros; cbn [saved_loop]; unfold index; says_tac. Qed.

Lemma errs_sequence_to_jmap state saved sequence is_uid : errs no_tag (sequence_to_jmap state saved sequence is_uid).
Proof.
  unfold sequence_to_jmap. destruct (negb _); [says_tac; apply errs_match_loop|].
  says_step; [by destruct (get_saved_search saved)|apply errs_saved_loop].
Qed.
#[local] Hint Resolve into_status_untagged errs_jmap_to_imap errs_imap_to_jmap errs_sequence_to_jmap : says.

Lemma says_task_synchronize {E} (P : E -> Prop) (new_state : MailboxData) remove :
  says (S := TaskState W) P (task_synchronize_uids new_state remove) any.
Proof.
  unfold task_synchronize_uids. says_step; [by apply says_get|].
  says_step; [apply says_lift_errs|says_tac].
  unfold synchronize_uids. destruct (if remove then _ else _) as [st deletions]. says_step; [apply errs_insertion_loop|done].
Qed.

Lemma says_write_exists {E} (P : E -> Prop) n : says (S := TaskState W) P (write_exists n) any.
Proof. unfold write_exists. says_tac. Qed.

Lemma says_set_last_state {P : StatusResponse -> Prop} state : says (S := TaskState W) P (StoreTask.set_last_state state) any.
Proof. unfold StoreTask.set_last_state. says_tac. Qed.

#[local] Hint Resolve says_task_synchronize says_write_exists says_set_last_state : says.

(** *** SEARCH and THREAD *)
Lemma says_imap_filter filter mailbox prev is_uid :
  says (S := TaskState W) no_tag (imap_filter_to_jmap filter mailbox prev is_uid) any.
Proof.
  assert (Hk : forall is_uid f m, says (S := TaskState W) no_tag (convert_key mailbox prev is_uid f m) any).
  { intros u f m. unfold convert_key, sequence_key, sequence_ids, modseq_filter, task_sequence_to_jmap. says_tac. }
  assert (Hl : forall fuel op fs js st m, says (S := TaskState W) no_tag (convert_loop fuel mailbox prev is_uid op fs js st m) any).
  { induction fuel as [|fuel IH]; intros; cbn [convert_loop]; says_tac. }
  unfold imap_filter_to_jmap. says_tac.
Qed.

Lemma untagged_search r t : untagged (search_serialize r t) = true.
Proof. unfold search_serialize. destruct (sr_is_esearch r), (sr_is_sort r); done. Qed.

Lemma search_task_does fuel arguments mailbox save prev is_sort is_uid :
  does [search_tag arguments] (search_task (W := W) fuel arguments mailbox save prev is_sort is_uid).
Proof.
  assert (Hq : forall fuel f sort p ids, says (S := TaskState W) any (query_loop fuel f sort p ids) any).
  { induction fuel0 as [|fuel0 IH]; intros; cbn [query_loop]; says_tac. }
  unfold search_task. eapply (does_attempt any _ _ _ any).
  - unfold search, run_query, search_ids. says_step; [by eapply says_mono; [apply says_imap_filter|..]|]. says_tac.
  - intros response _. apply does_write, answers_status; [|done]. by apply untagged_search.
  - intros e _. destruct prev as [[]|].
    all: eapply (does_bind any _ _ _ any); [says_tac|intros _ _; apply does_write; auto with answers].
Qed.

(** Responses under a tag. *)
Abbreviation tagged_with t := (fun e => tag e = Some t).

Lemma does_status {E} t r : tag r = Some t -> does (S := TaskState W) (E := E) [t] (Tasks.write_bytes (status_serialize r)).
Proof. intros Ht. by apply does_write, answers_tagged. Qed.
#[local] Hint Resolve does_status : says.

(** The refusal of a THREAD has no tag when it is the translation of the search
    keys that fails. *)
Lemma thread_task_does fuel arguments mailbox command is_uid s s' :
  thread_task (W := W) fuel arguments mailbox command is_uid s = (Ok tt, s') ->
  exists xs ts, written s' = written s ++ xs /\ sent ts xs /\
    (ts = [thread_tag arguments] \/
     ts = [] /\ exists e, (imap_filter_to_jmap (thread_filter arguments) mailbox None is_uid s).1 = Err e).
Proof.
  assert (Hl : forall fuel t f l p th ids, says (S := TaskState W) (tagged_with t) (thread_loop fuel t f l p th ids) any).
  { induction fuel0 as [|fuel0 IH]; intros; cbn [thread_loop]; says_tac.
    assert (Hr : forall rs p, errs (tagged_with t) (page_responses t rs p)); [|apply Hr].
    induction rs as [|[] rs IHr]; intros; cbn [page_responses]; says_tac. }
  assert (Hn : forall state ths, errs (tagged_with (thread_tag arguments)) (thread_numbers is_uid state ths)).
  { induction ths; cbn [thread_numbers]; says_tac. }
  unfold thread_task, thread. set (rest := fun (x : QueryFilter * option Z) => let '(filter, _) := x in _).
  assert (Hrest : forall x, does [thread_tag arguments] (do* r := attempt (rest x) in
    match r with
    | Ok (threads, tag) => Tasks.write_bytes (thread_serialize threads ++ status_serialize (with_tag (completed command) tag))
    | Err response => Tasks.write_bytes (status_serialize response)
    | Panic => lift Panic
    | NoFuel => lift NoFuel
    end : EM (TaskState W) unit unit)).
  { intros [f ms]. eapply (does_attempt (tagged_with (thread_tag arguments)) _ _ _ (fun r => r.2 = thread_tag arguments)).
    - subst rest. cbv beta iota. says_tac.
    - intros [threads tag] [= ->]. apply does_write. by apply answers_status.
    - intros e He. by apply does_status. }
  unfold bindM at 1. unfold attempt at 1, bindM at 1.
  destruct (imap_filter_to_jmap _ _ _ _ s) as [[x|e| |] s1] eqn:Ef; try done;
    destruct (says_imap_filter _ _ _ _ _ _ _ Ef) as (xs & Ho & Hxs & He); intros Hm.
  - destruct (Hrest x s1 tt s') as (ys & Ho' & Hys).
    + rewrite <- Hm. unfold bindM at 1, attempt. by destruct (rest x s1) as [[]].
    + unfold output, task_output in Ho, Ho'. exists (xs ++ ys), [thread_tag arguments]. split; [by rewrite Ho', Ho, app_assoc|]. split; [|by left].
      unfold sent. rewrite map_app. apply (complete_app []); [by apply sent_quiet|exact Hys].
  - injection Hm as <-. unfold output, task_output in Ho. exists (xs ++ [status_serialize e]), []. split; [by cbn; rewrite Ho, app_assoc|]. split; [|right; eauto].
    apply sent_quiet, Forall_app. split; [done|]. repeat constructor. by apply untagged_status.
Qed.

(** *** STORE *)
Lemma untagged_fetch_response l : untagged (fetch_response_serialize l) = true.
Proof. by apply untagged_flat_map. Qed.

Lemma says_store_select mailbox arguments is_uid :
  says (S := TaskState W) (tagged_with (store_tag arguments)) (store_select mailbox arguments is_uid)
    (fun r => tag r.2 = Some (store_tag arguments)).
Proof.
  unfold store_select, task_sequence_to_jmap. cbv zeta. says_step; [by says_tac|]. case_decide; [by apply says_lift|].
  says_step; [by says_tac|]. destruct a0 as [[ids code] failed].
  case_decide; [apply says_lift|apply says_ret]; destruct code; done.
Qed.

Lemma says_store_update mailbox arguments is_uid is_condstore ids response :
  tag response = Some (store_tag arguments) ->
  says (S := TaskState W) (tagged_with (store_tag arguments)) (store_update mailbox arguments is_uid is_condstore ids response)
    (answers [store_tag arguments]).
Proof.
  intros Hr. assert (Hv : forall updated, tag (verify_updated ids updated response) = Some (store_tag arguments)).
  { intros. unfold verify_updated. by case_match. }
  unfold store_update. says_tac.
  - generalize (mkStoreResults [] [] []). induction a3 as [|[] l IH]; intros r; cbn [store_results]; says_tac.
  - apply answers_status; [apply untagged_fetch_response|apply Hv].
  - apply answers_status; [apply untagged_fetch_response|apply Hv].
  - apply says_lift, Hv.
Qed.

Lemma store_task_does mailbox arguments is_uid is_condstore :
  does [store_tag arguments] (store_task (W := W) mailbox arguments is_uid is_condstore).
Proof.
  unfold store_task. eapply (does_attempt (tagged_with (store_tag arguments)) _ _ _ (answers [store_tag arguments])).
  - unfold store. eapply says_bind; [apply says_store_select|]. intros [ids response] Hr. by apply says_store_update.
  - intros x Hx. by apply does_write.
  - intros e He. by apply does_status.
Qed.

(** *** COPY and MOVE *)
Lemma says_copy_messages src dest is_move t ids :
  says (S := TaskState W) (tagged_with t) (copy_messages src dest is_move t ids) any.
Proof.
  assert (Hm : forall rs c, says (S := TaskState W) (tagged_with t) (move_responses is_move t ids rs c) any).
  { induction rs as [|r rs IH]; intros; cbn [move_responses]; says_tac. }
  assert (Hc : forall rs c, says (S := TaskState W) (tagged_with t) (copy_responses t ids rs c) any).
  { induction rs as [|[] rs IH]; intros; cbn [copy_responses]; says_tac. }
  unfold copy_messages, tagged_jmap. says_tac.
Qed.

Lemma copy_move_task_does src dest is_move is_uid is_qresync arguments :
  does [cm_tag arguments] (copy_move_task (W := W) src dest is_move is_uid is_qresync arguments).
Proof.
  set (t := cm_tag arguments). unfold copy_move_task. apply (does_attempt_ends (tagged_with t)).
  - unfold copy_move. fold t. apply (ends_bind _ _ _ _ any); [apply (says_map_errM any); [unfold task_sequence_to_jmap; by says_tac|done]|].
    intros ids _. case_decide; [by apply ends_fail|]. apply (ends_bind _ _ _ _ any); [apply says_copy_messages|]. intros [c destroyed] _.
    case_decide; [by apply ends_fail|]. apply (ends_bind _ _ _ _ any); [unfold copy_uids; by says_tac|]. intros [ids' code] _.
    destruct is_move.
    + apply (ends_bind _ _ _ _ any); [by apply says_get|]. intros state _. destruct (remove_moved _ _ _) as [state' expunged].
      apply (ends_bind _ _ _ _ any); [by says_tac|]. intros _ _. apply (ends_bind _ _ _ _ any); [by says_tac|]. intros _ _.
      apply ends_write. rewrite app_assoc. apply answers_status; [|done].
      apply untagged_app; [apply untagged_expunge|by apply untagged_status].
    + by apply ends_write, answers_tagged.
  - done.
  - intros e He. by apply does_status.
Qed.

(** *** APPEND *)
Lemma append_task_does mailbox is_dest_selected arguments :
  does [append_tag arguments] (append_task (W := W) mailbox is_dest_selected arguments).
Proof.
  set (t := append_tag arguments).
  assert (Hl : forall ms ids r, tag r = Some t ->
    says (S := TaskState W) (tagged_with t) (append_loop mailbox is_dest_selected ms ids r) (fun x => tag x.2 = Some t)).
  { induction ms as [|m ms IH]; intros ids r Hr; cbn [append_loop]; [by apply says_ret|].
    says_step; [by says_tac|]. says_step; [by says_tac|].
    destruct a0 as [[id state]|e| |]; [|apply says_ret; cbn; by rewrite Hr|by apply says_lift..].
    says_step; [by says_tac|]. by apply IH. }
  unfold append_task. eapply (does_attempt (tagged_with t) _ _ _ (fun r => tag r = Some t)).
  - unfold append_steps. eapply says_bind; [by apply Hl|]. intros [ids r] Hr. cbn in Hr. case_decide; [|by apply says_ret].
    apply (says_map_errM any); [unfold append_validity; by says_tac|]. intros e _. cbn. by rewrite Hr.
  - intros r Hr. by apply does_status.
  - intros e He. by apply does_status.
Qed.

(** *** FETCH *)
Section Fetch.
Context (mailbox : MailboxId) (is_select : bool) (fuel : nat).

Lemma says_fetch_email needs attributes is_uid ids modseq e :
  says (S := TaskState W) any (fetch_email mailbox fuel needs attributes is_uid ids modseq e) any.
Proof.
  assert (Ha : forall u imap e raw seen m a, says (S := TaskState W) any (attribute_items mailbox fuel u imap e raw seen m a) any).
  { intros. unfold attribute_items, raw_part. says_tac. }
  assert (Hi : forall u imap e raw seen m l, says (S := TaskState W) any (email_items mailbox fuel u imap e raw seen m l) any).
  { induction l; cbn [email_items]; says_tac. }
  assert (Hw : forall x, untagged x = true -> says (S := TaskState W) (E := StatusResponse) any (write_if_open x) any).
  { intros x Hx s r s'. unfold write_if_open. destruct (is_open _); intros [= <- <-].
    - exists [x]. split_and!; [done|by repeat constructor|done].
    - exists []. by rewrite app_nil_r. }
  unfold fetch_email, email_raw. says_tac.
Qed.

Lemma says_since arguments since_ ids enabled :
  says (S := TaskState W) any (since mailbox arguments since_ ids enabled) any.
Proof.
  unfold since, core_modseq, write_vanished. says_tac.
Qed.

Lemma says_fetch_messages attributes is_uid ids enabled :
  says (S := TaskState W) any (fetch_messages mailbox is_select fuel attributes is_uid ids enabled) any.
Proof.
  assert (Hm : forall x, says (S := TaskState W) any (modseq_or_max mailbox x) any) by (intros; unfold modseq_or_max, core_modseq; says_tac).
  assert (He : forall n a u i m l seen, says (S := TaskState W) any (fetch_emails mailbox fuel n a u i m l seen) any).
  { induction l; intros; cbn [fetch_emails]; says_tac. apply says_fetch_email. }
  assert (Hc : forall n a u i l m seen, says (S := TaskState W) any (fetch_chunks mailbox fuel n a u i l m seen) any).
  { induction l; intros; cbn [fetch_chunks]; says_tac. }
  assert (Hs : forall l b m, says (S := TaskState W) any (seen_responses mailbox l b m) any).
  { induction l; intros; cbn [seen_responses]; says_tac. }
  unfold fetch_messages, set_seen, report_modseq. says_tac.
Qed.

Lemma says_fetch arguments is_uid is_qresync enabled :
  says (S := TaskState W) (any : unit -> Prop) (fetch mailbox is_select fuel arguments is_uid is_qresync enabled)
    (tagged_with (fetch_tag arguments)).
Proof.
  unfold fetch. eapply (says_bind _ _ _ (fun r => match r with Panic | NoFuel => False | _ => True end)).
  - intros s r s'. unfold attempt. destruct (fetch_steps _ _ _ _ _ _ _ s) as [r' s1] eqn:E1.
    assert (Hs : says (S := TaskState W) any (fetch_steps mailbox is_select fuel arguments is_uid is_qresync enabled) any).
    { unfold fetch_steps, task_sequence_to_jmap. pose proof says_since. pose proof says_fetch_messages. says_tac. }
    destruct (Hs _ _ _ E1) as (xs & Ho & Hxs & _). destruct r'; intros [= <- <-]; by exists xs.
  - intros [a|e| |] Hr; [by apply says_ret..|done|done].
Qed.

Lemma fetch_task_does arguments is_uid is_qresync enabled :
  does [fetch_tag arguments] (fetch_task (W := W) mailbox is_select fuel arguments is_uid is_qresync enabled).
Proof.
  unfold fetch_task. eapply does_bind; [apply says_fetch|]. intros r Hr. by apply does_status.
Qed.
End Fetch.

(** *** IDLE *)
Section Idle.
Context `{MailboxClient W} `{StatusClient W} `{ChangesClient} (folder_shared folder_all : str) (is_select : bool) (fuel : nat).

Lemma says_write_changes mailbox x y is_qresync is_rev2 :
  says (any : unit -> Prop) (IdleTask.write_changes (W := W) folder_shared folder_all is_select fuel mailbox x y is_qresync is_rev2) any.
Proof.
  assert (Hb : forall x, untagged x = true -> says (S := IdleState W) (any : unit -> Prop) (write_buf x) any).
  { intros z Hz. unfold write_buf. case_match; [|by apply says_ret]. apply says_on_task. by apply says_write. }
  assert (Hc : forall names, says (S := IdleState W) (any : unit -> Prop) (changed_statuses folder_all is_rev2 names)
                 (fun x => untagged x = true)).
  { induction names as [|name names IH]; cbn [changed_statuses]; [by apply says_ret|]. says_step; [by says_tac|].
    eapply says_bind; [exact IH|]. intros rest Hrest. apply says_ret, untagged_app; [|done]. by destruct a. }
  unfold IdleTask.write_changes. says_step.
  - destruct x; [|by apply says_ret]. unfold write_mailbox_changes. says_step; [by says_tac|].
    destruct a as [[changes|]|e| |]; try (by says_tac). eapply says_bind; [apply Hc|]. intros x Hx. apply Hb.
    apply untagged_app; [by apply untagged_flat_map|]. apply untagged_app; [by apply untagged_flat_map|done].
  - destruct y, mailbox as [mailbox|]; try (by apply says_ret). unfold write_email_changes, report_changes.
    assert (Hf : forall a q, says (S := TaskState W) (any : unit -> Prop) (fetch mailbox is_select fuel a true q false) any).
    { intros. by eapply says_mono; [apply says_fetch|..]. }
    assert (Hr : forall total deletions, untagged (removal_response is_qresync total deletions) = true).
    { intros. unfold removal_response. apply untagged_app; repeat case_match; auto with answers. }
    says_step; [by says_tac|]. says_step; [by says_tac|].
    destruct a1 as [response|e| |]; [|says_tac; apply untagged_status, into_status_untagged|by apply says_ret..].
    apply (says_bind _ _ _ (fun r => match r with Err e => tag e = None | _ => True end)).
    + apply (says_attempt no_tag); [apply says_on_task, says_on_world; [apply synchronize_messages_untagged|done]|done].
    + intros [new_state|e| |] He; [|says_tac; by apply untagged_status|by apply says_ret..]. by says_tac.
Qed.

Lemma says_idle_steps mailbox tag is_qresync is_rev2 events s b s' :
  idle (W := W) folder_shared folder_all is_select fuel mailbox tag is_qresync is_rev2 events s = (Ok b, s') ->
  exists xs, output s' = output s ++ xs /\ sent (if existsb is_done events then [tag] else []) xs.
Proof.
  assert (Hend : forall events, existsb is_done events = true -> does [tag] (idle_completed (W := W) tag)).
  { intros l _ i v i' [= <- <-]. eexists. split; [done|]. by apply complete_answer, answers_tagged. }
  assert (Hret : does [] (ret false : EM (IdleState W) unit bool)).
  { intros i v i' [= <- <-]. exists []. split; [by rewrite app_nil_r|constructor]. }
  assert (Hwait : forall events, does (if existsb is_done events then [tag] else []) (wait_done (W := W) tag events)).
  { induction events0 as [|[] l IH]; cbn [wait_done existsb is_done orb]; auto. by apply (Hend [EventDone]). }
  assert (Hloop : forall events, does (if existsb is_done events then [tag] else [])
    (idle_loop (W := W) folder_shared folder_all is_select fuel mailbox tag is_qresync is_rev2 events)).
  { induction events0 as [|[] l IH]; cbn [idle_loop existsb is_done orb]; auto; [|by apply (Hend [EventDone])].
    eapply does_bind; [apply says_write_changes|]. intros ? _. exact IH. }
  intros Hm. revert Hm. unfold idle. intros Hm. eapply (does_bind any _ _ _ any); [apply says_write_changes| |exact Hm].
  intros ? _. apply Hloop.
Qed.
End Idle.
End Messages.


(** ** Mailboxes *)
Section Mailboxes.
Context {W : Type} `{Sled W} `{Clock W} `{EmailClient W} `{MailboxClient W} `{FolderClient W} `{StatusClient W} `{AclClient W} `{DebugFmt}.
Context (folder_shared folder_all : str).

Abbreviation tagged_with t := (fun e => tag e = Some t).

Lemma says_request {A} t (m : EM W JmapError A) : says (tagged_with t) (request t m) any.
Proof. unfold request. apply says_data; [by apply fails_map_errM|done]. Qed.

Lemma says_refresh t : says (tagged_with t) (refresh (W := W) folder_shared t) any.
Proof. unfold refresh. says_step; [|by apply says_ret]. apply says_data; [by apply fails_map_errM|done]. Qed.

Lemma says_locked t : says (tagged_with t) (locked (W := W)) any.
Proof. by apply says_get. Qed.

Lemma says_unlock t l : says (tagged_with t) (unlock (W := W) l) any.
Proof. apply says_silent. by intros s r s' [= <- <-]. Qed.
#[local] Hint Resolve says_request says_refresh says_locked says_unlock : says.

Lemma create_folder_tag arguments :
  says (tagged_with (create_tag arguments)) (create_folder (W := W) folder_shared folder_all arguments) (tagged_with (create_tag arguments)).
Proof. unfold create_folder. says_tac. Qed.

Lemma delete_folder_tag arguments :
  says (tagged_with (mbox_tag arguments)) (delete_folder (W := W) folder_shared arguments) (tagged_with (mbox_tag arguments)).
Proof. unfold delete_folder. says_tac. by apply says_data. Qed.

Lemma rename_folder_tag arguments :
  says (tagged_with (rename_tag arguments)) (rename_folder (W := W) folder_shared folder_all arguments) (tagged_with (rename_tag arguments)).
Proof. unfold rename_folder. says_tac. Qed.

Lemma subscribe_folder_tag t name subscribe :
  says (tagged_with t) (subscribe_folder (W := W) folder_shared folder_all t name subscribe) (tagged_with t).
Proof. unfold subscribe_folder. says_tac. Qed.

(** The answer of [Folders.answered]. *)
Lemma folder_answered t (m : EM (Data W) StatusResponse StatusResponse) d r d' :
  says (tagged_with t) m (tagged_with t) -> Folders.answered m d = (Ok r, d') -> tag r = Some t.
Proof.
  intros Hm. unfold Folders.answered. destruct (m d) as [r' d1] eqn:E. destruct (Hm _ _ _ E) as (_ & _ & _ & Hr).
  destruct r'; by intros [= <- <-].
Qed.

(** *** Bytes *)
Lemma list_answers arguments is_lsub version :
  says (tagged_with (list_tag arguments)) (list_ (W := W) folder_shared folder_all arguments is_lsub version) (answers [list_tag arguments]).
Proof.
  unfold list_. assert (Hp : (list_parts arguments).1.1.1.1 = list_tag arguments) by by destruct arguments.
  destruct (list_parts arguments) as [[[[t reference] patterns] selection] options]. cbn in Hp. subst t.
  says_step; [apply says_data; [by apply fails_map_errM|done]|]. case_match; [by apply says_lift|].
  says_step; [by apply says_get|]. says_step; [by apply says_lift_errs, errs_map_err|]. says_step.
  - case_match; [|by apply says_ret]. apply says_data; [|done].
    induction a1 as [|item items IH]; [done|]. cbn [list_status]. apply fails_bind; [apply fails_attempt|]. intros ?.
    by apply fails_bind; [exact IH|].
  - apply says_ret. apply answers_status; [apply untagged_list_response|done].
Qed.

Lemma acl_answers t (m : EM (Data W) StatusResponse bytes) d x d' :
  says (tagged_with t) m (answers [t]) -> AclTask.answered m d = (Ok x, d') -> answers [t] x.
Proof.
  intros Hm. unfold AclTask.answered, bindM, attempt. destruct (m d) as [r' d1] eqn:E. destruct (Hm _ _ _ E) as (_ & _ & _ & Hr).
  destruct r'; intros [= <- <-]; [done|by apply answers_tagged].
Qed.

Lemma says_acl_target arguments : says (tagged_with (acl_tag arguments)) (acl_target (W := W) folder_all arguments) any.
Proof. unfold acl_target. says_tac. apply says_data; [apply fails_any|done]. Qed.

Lemma says_acl_call {A} arguments (m : EM W JmapError A) : says (tagged_with (acl_tag arguments)) (acl_call arguments m) any.
Proof. unfold acl_call. apply says_data; [by apply fails_map_errM|done]. Qed.

Lemma says_last_mailbox {A} arguments (l : list A) : says (tagged_with (acl_tag arguments)) (last_mailbox (W := W) arguments l) any.
Proof. unfold last_mailbox. apply says_lift_errs. by destruct (list.last l). Qed.
#[local] Hint Resolve says_acl_target says_acl_call says_last_mailbox : says.

Lemma get_acl_answers arguments v d x d' : get_acl_task (W := W) folder_all arguments v d = (Ok x, d') -> answers [acl_tag arguments] x.
Proof. apply acl_answers. unfold get_permissions. says_tac. by apply answers_status. Qed.

Lemma my_rights_answers arguments v d x d' : my_rights_task (W := W) folder_all arguments v d = (Ok x, d') -> answers [acl_tag arguments] x.
Proof. apply acl_answers. says_tac; by apply answers_status. Qed.

Lemma send_update_answers arguments c u d x d' : errs (tagged_with (acl_tag arguments)) u ->
  AclTask.answered (send_update (W := W) folder_all arguments c u) d = (Ok x, d') -> answers [acl_tag arguments] x.
Proof. intros Hu. apply acl_answers. unfold send_update. says_tac. by apply answers_tagged. Qed.

Lemma errs_acl_update arguments : errs (tagged_with (acl_tag arguments)) (acl_update arguments).
Proof.
  assert (Hc : forall v l, errs (tagged_with (acl_tag arguments)) (acl_changes arguments v l)).
  { induction l; cbn [acl_changes]; says_tac. }
  unfold acl_update. says_tac.
Qed.

Lemma status_answers_tag arguments v d x d' :
  status_task (W := W) folder_all folder_shared arguments v d = (Ok x, d') -> answers [status_tag arguments] x.
Proof.
  unfold status_task, bindM, attempt. destruct (Mailboxes.synchronize_mailboxes _ _ _ d) as [[?|e| |] d1]; try done.
  - destruct (StatusTask.status _ _ _ d1) as [[answer|e| |] d2]; try done; intros [= <- <-]; [by apply (answers_status (status_item_serialize answer v))|by apply answers_tagged].
  - intros [= <- <-]. by apply answers_tagged.
Qed.
End Mailboxes.

(** ** The tasks of the server *)
Section Server.
Context {W : Type} `{Sled W} `{Clock W} `{EmailClient W} `{MailboxClient W} `{FolderClient W} `{StatusClient W}.
Context `{SearchClient W} `{Limits W} `{FetchClient W} `{StoreClient W} `{CopyClient W} `{AppendClient W}.
Context `{ThreadClient W} `{AclClient W} `{ExpungeClient W} `{ChangesClient} `{Connection W}.
Context `{DebugFmt} `{Chrono} `{Md5}.
Context (folder_shared folder_all : str) (fuel : nat).

#[local] Instance server_output : Output (Server W) := sv_sent.

Lemma task_state_written (v : Server W) ref : written (task_state v ref) = [].
Proof. unfold task_state. by destruct (default _ _). Qed.

Lemma does_of_mailbox {E A} ts ref (m : EM (TaskState W) E A) : does ts m -> does ts (without_error (of_mailbox ref m)).
Proof.
  intros Hm v a v'. unfold without_error, map_errM, of_mailbox. destruct (m (task_state v ref)) as [[x|e| |] s] eqn:Es; try done.
  intros [= <- <-]. destruct (Hm _ _ _ Es) as (xs & Ho & Hs). exists xs. split; [|done]. cbn. unfold output, server_output. f_equal.
  unfold output, task_output in Ho. by rewrite task_state_written in Ho.
Qed.

Lemma does_then_send {E} ts d (m : EM (Data W) E bytes) :
  (forall s x s', m s = (Ok x, s') -> answers ts x) -> does ts (then_send (of_session d m)).
Proof.
  intros Hm v a v'. unfold then_send, without_error, map_errM, bindM, of_session.
  destruct (m _) as [[x|e| |] s] eqn:Es; try done. intros [= <- <-]. exists [x]. split; [done|]. by apply complete_answer, (Hm _ _ _ Es).
Qed.

Lemma does_then_respond {E} t d (m : EM (Data W) E StatusResponse) :
  (forall s r s', m s = (Ok r, s') -> tag r = Some t) -> does [t] (then_respond (of_session d m)).
Proof.
  intros Hm v a v'. unfold then_respond, without_error, map_errM, bindM, of_session.
  destruct (m _) as [[r|e| |] s] eqn:Es; try done. intros [= <- <-]. exists [status_serialize r]. split; [done|].
  by apply complete_answer, answers_tagged, (Hm _ _ _ Es).
Qed.

Lemma does_each {A} (tag_of : A -> str) (f : A -> M (Server W) unit) l :
  (forall a, does [tag_of a] (f a)) -> does (map tag_of l) (each f l).
Proof.
  intros Hf. induction l as [|a l IH]; [apply does_ret|]. cbn [each map]. intros v x v'. unfold bindM.
  destruct (f a v) as [[u|e| |] v1] eqn:E1; try done. intros E2. destruct (Hf a _ _ _ E1) as (xs & Ho & Hs).
  destruct (IH _ _ _ E2) as (ys & Ho' & Hs'). exists (xs ++ ys). split; [by rewrite Ho', Ho, app_assoc|].
  unfold sent. rewrite map_app. by apply (complete_app [_]).
Qed.

Lemma bytes_or_status_answers t (m : EM (Data W) StatusResponse bytes) s x s' :
  says (fun e => tag e = Some t) m (answers [t]) -> bytes_or_status m s = (Ok x, s') -> answers [t] x.
Proof. exact (acl_answers t m s x s'). Qed.

(** The end of an IDLE: the connection takes the request to stop. *)
Definition stops (v : Server W) : bool := existsb is_done (idle_events (sv_world v)).

(** Every task that comes to its end has written one tagged response for each
    of its commands, after untagged ones; apart from an IDLE that was not told to
    stop, and a THREAD whose search keys the task cannot translate: that is
    refused without a tag. *)
Theorem tasks_answer d t v v' :
  run_task folder_shared folder_all fuel d t v = (Ok tt, v') ->
  exists ts xs, sv_sent v' = sv_sent v ++ xs /\ sent ts xs /\
    match t with
    | TaskThread arguments mailbox _ is_uid =>
        ts = task_tags t \/
        ts = [] /\ exists e, (imap_filter_to_jmap (thread_filter arguments) (sm_id mailbox) None is_uid
                               (task_state v (Some (sm_ref mailbox)))).1 = Err e
    | TaskIdle _ _ _ _ => ts = if stops v then task_tags t else []
    | _ => ts = task_tags t
    end.
Proof.
  intros Hrun.
  assert (Hdoes : forall ts, does ts (run_task folder_shared folder_all fuel d t) ->
    exists xs, sv_sent v' = sv_sent v ++ xs /\ sent ts xs) by (intros ts Hd; exact (Hd _ _ _ Hrun)).
  assert (Htags : does (task_tags t) (run_task folder_shared folder_all fuel d t) ->
    exists ts xs, sv_sent v' = sv_sent v ++ xs /\ sent ts xs /\ ts = task_tags t).
  { intros Hd. destruct (Hdoes _ Hd) as (xs & Ho & Hs). by exists (task_tags t), xs. }
  destruct t; cbn [run_task task_tags] in *; try apply Htags; try (apply does_of_mailbox).
  - apply does_then_send. intros s x s'. apply bytes_or_status_answers, list_answers.
  - apply does_each. intros a. apply does_then_respond. intros s r s'. apply folder_answered, create_folder_tag.
  - apply does_each. intros a. apply does_then_respond. intros s r s'. apply folder_answered, delete_folder_tag.
  - apply does_then_respond. intros s r s'. apply folder_answered, rename_folder_tag.
  - apply does_then_send. intros s x s'. apply status_answers_tag.
  - apply append_task_does.
  - apply search_task_does.
  - apply fetch_task_does.
  - apply store_task_does.
  - apply copy_move_task_does.
  - unfold without_error, map_errM, of_mailbox in Hrun.
    destruct (thread_task fuel arguments (sm_id mailbox) command is_uid (task_state v (Some (sm_ref mailbox)))) as [[[]|e| |] s] eqn:Es;
      try done. injection Hrun as <-. destruct (thread_task_does _ _ _ _ _ _ _ Es) as (xs & ts & Ho & Hs & Ht).
    exists ts, xs. split; [|by split]. cbn. f_equal. by rewrite task_state_written in Ho.
  - unfold bindM in Hrun. cbn in Hrun. unfold of_idle in Hrun.
    destruct (idle _ _ _ _ _ _ _ _ _ _) as [[b|e| |] i] eqn:Ei; try done. injection Hrun as <-.
    destruct (says_idle_steps _ _ _ _ _ _ _ _ _ _ _ _ Ei) as (xs & Ho & Hs).
    exists (if stops v then [tag] else []), xs. split; [|by split]. cbn. f_equal. unfold output, idle_output in Ho. cbn [idle_task] in Ho.
    by rewrite task_state_written in Ho.
  - apply does_then_respond. intros s r s'. apply folder_answered, subscribe_folder_tag.
  - apply does_then_send. intros s x s'. apply get_acl_answers.
  - apply does_then_send. intros s x s'. apply my_rights_answers.
  - apply does_then_send. intros s x s'. apply send_update_answers, errs_acl_update.
  - apply does_then_send. intros s x s'. apply send_update_answers. by destruct (acl_identifier arguments).
Qed.
End Server.

(** ** A concrete task *)
#[local] Existing Instances Server.Demo.store Server.Demo.clock Server.Demo.debug Server.Demo.chrono Server.Demo.md5
  Server.Demo.limits Server.Demo.changes_client Server.Demo.email_client Server.Demo.search_client Server.Demo.mailbox_client
  Server.Demo.status_client Server.Demo.fetch_client Server.Demo.store_client Server.Demo.expunge_client
  Server.Demo.folder_client Server.Demo.copy_client Server.Demo.append_client Server.Demo.thread_client Server.Demo.acl_client
  Server.Demo.connection.

Lemma tasks_answer_witness :
  let arguments := {| fetch_tag := b "A9"; fetch_sequence_set := Range (Some 1) None; attributes := [AUid]; changed_since := None;
                      include_vanished := false |} in
  let t : Task nat := TaskFetch arguments Server.Demo.inbox false false false in
  exists xs, sv_sent (run_task Server.Demo.shared Server.Demo.all_mail 10 0 t (Session.world Server.Demo.flagged)).2 =
    sv_sent (Session.world Server.Demo.flagged) ++ xs /\ sent [b "A9"] xs.
Proof.
  intros arguments t.
  destruct (run_task Server.Demo.shared Server.Demo.all_mail 10 0 t (Session.world Server.Demo.flagged)) as [r v'] eqn:E.
  assert (r = Ok tt) as ->.
  { apply (f_equal fst) in E. vm_compute in E. by rewrite <- E. }
  destruct (tasks_answer Server.Demo.shared Server.Demo.all_mail 10 0 t _ v' E) as (ts & xs & Ho & Hs & Ht).
  cbn in Ht. subst ts. exists xs. exact (conj Ho Hs).
Defined.
