(* ===== verification/Conversations.v ===== *)
(** * A chunk of input and the tasks it starts

    [Session.v] leaves a trace of what a connection writes and starts; on the
    server of [Server.v] the same events are bytes in the channel of the writer
    and tasks that wait. This file relates the two, and with [Answers.v] and
    [TaskAnswers.v] follows a chunk of input until its tasks have ended. *)

From S2P Require Import Prelude Utf8 Utf7 Types Receiver ReceiverSpec Sequence Flags Wire Commands Parsers ParseSearch ParseFetch Tags.
From S2P Require Import Responses FetchWire Mime Jmap Store UidStore Modseq Synchronize BTree Mailboxes Folders SelectedMailbox.
From S2P Require Import Tasks SearchTask StatusTask AclTask FetchTask StoreTask CopyTask AppendTask ThreadTask ExpungeTask IdleTask.
From S2P Require Import Listing Sasl Session SessionSpec SessionProps Server Answers TaskAnswers.

(** ** Events, bytes and tasks *)

(** The tasks that are started. *)
Definition started (es : list (Event nat)) : list (Task nat) :=
  omap (fun e => match e with Spawned t => Some t | _ => None end) es.

(** The bytes in the channel: those of the events, in their order, and among
    them untagged responses that were written on the way. *)
Inductive delivered : list (Event nat) -> list bytes -> Prop :=
| delivered_nil : delivered [] []
| delivered_write x es xs : delivered es xs -> delivered (Wrote x :: es) (x :: xs)
| delivered_spawned t es xs : delivered es xs -> delivered (Spawned t :: es) xs
| delivered_connecting c es xs : delivered es xs -> delivered (Connecting c :: es) xs
| delivered_untagged x es xs : untagged x = true -> delivered es xs -> delivered es (x :: xs).

Lemma delivered_app es es' xs xs' : delivered es xs -> delivered es' xs' -> delivered (es ++ es') (xs ++ xs').
Proof. intros Hd Hd'. induction Hd; cbn; [done|by constructor..]. Qed.

Lemma delivered_quiet xs : quiet_bytes xs -> delivered [] xs.
Proof. induction 1; by constructor. Qed.

(** The requests for the next line of an AUTHENTICATE. *)
Definition lines_asked (xs : list bytes) : nat := length (List.filter (fun x => bytes_eqb x go_on) xs).

(** What the events complete is answered in the channel or left to a task. *)
Lemma complete_delivered `{DebugFmt} ts es xs : complete ts es -> delivered es xs ->
  exists ts', sent ts' xs /\ Permutation ts (ts' ++ flat_map task_tags (started es)).
Proof.
  intros Hc Hd. revert ts Hc. induction Hd as [|x es xs _ IH|t es xs _ IH|c es xs _ IH|x es xs Hx _ IH]; intros ts Hc.
  - inversion Hc; subst. exists []. split; [constructor|done].
  - inversion Hc as [|ts0 ts1 ? ? He Hes]; subst. destruct (IH _ Hes) as (ts' & Hs & Hp). exists (ts0 ++ ts').
    split; [|by rewrite Hp, app_assoc]. apply (complete_cons ts0); [|exact Hs]. inversion He; subst. by constructor.
  - inversion Hc as [|ts0 ts1 ? ? He Hes]; subst. destruct (IH _ Hes) as (ts' & Hs & Hp). exists ts'. split; [done|].
    inversion He; subst. cbn [started omap]. rewrite Hp. cbn. rewrite !app_assoc. f_equiv; [|done]. apply Permutation_app_comm.
  - inversion Hc as [|ts0 ts1 ? ? He Hes]; subst. destruct (IH _ Hes) as (ts' & Hs & Hp). exists ts'.
    inversion He; subst. by split.
  - destruct (IH _ Hc) as (ts' & Hs & Hp). exists ts'. split; [|done]. apply (complete_cons []); [|exact Hs].
    by apply completes_wrote, answers_none.
Qed.

(** ** The handlers on the server *)
Section Conversations.
Context {W : Type} `{Sled W} `{Clock W} `{EmailClient W} `{MailboxClient W} `{FolderClient W} `{StatusClient W}.
Context `{SearchClient W} `{Limits W} `{FetchClient W} `{StoreClient W} `{CopyClient W} `{AppendClient W}.
Context `{ThreadClient W} `{AclClient W} `{ExpungeClient W} `{ChangesClient} `{Connection W}.
Context `{DebugFmt} `{Chrono} `{Md5} `{Charsets} `{Base64}.
Context (folder_shared folder_all cargo_pkg_version : str) (fuel : nat).

#[local] Instance served_here : Backend (Server W) := server_backend folder_shared folder_all fuel.
#[local] Instance sent_output : Output (Server W) := sv_sent.

Abbreviation Conn := (@Conn (Server W) served_here).
Abbreviation C := (M Conn).

Lemma delivered_lines (es : list (Event (@Ref _ served_here))) xs : delivered es xs -> (requests_of_lines es <= lines_asked xs)%nat.
Proof.
  unfold requests_of_lines, lines_asked. change (Event (@Ref _ served_here)) with (Event nat) in es.
  induction 1; cbn [List.filter]; [done| |done..|]; destruct (bytes_eqb x go_on); cbn [length]; auto using le_n_S, le_S.
Qed.

(** [m] starts no task, and writes untagged responses only. *)
Definition leaves {E A} (m : EM (Server W) E A) : Prop := forall v r v', m v = (r, v') ->
  sv_tasks v' = sv_tasks v /\ exists xs, sv_sent v' = sv_sent v ++ xs /\ quiet_bytes xs.

Lemma leaves_silent {E A} (m : EM (Server W) E A) :
  (forall v r v', m v = (r, v') -> sv_tasks v' = sv_tasks v /\ sv_sent v' = sv_sent v) -> leaves m.
Proof. intros Hm v r v' E'. destruct (Hm _ _ _ E') as [Ht Hs]. split; [done|]. exists []. by rewrite app_nil_r. Qed.

Lemma leaves_ret {E A} (a : A) : leaves (ret a : EM (Server W) E A).
Proof. apply leaves_silent. by intros v r v' [= <- <-]. Qed.

Lemma leaves_bind {E A B} (m : EM (Server W) E A) (k : A -> EM (Server W) E B) : leaves m -> (forall a, leaves (k a)) -> leaves (bindM m k).
Proof.
  intros Hm Hk v r v'. unfold bindM. destruct (m v) as [ra v1] eqn:E1. destruct (Hm _ _ _ E1) as (Ht & xs & Ho & Hq).
  destruct ra as [a|e| |]; [|by intros [= <- <-]; eauto..].
  intros E2. destruct (Hk a _ _ _ E2) as (Ht' & ys & Ho' & Hq'). split; [by rewrite Ht'|].
  exists (xs ++ ys). split; [by rewrite Ho', Ho, app_assoc|by apply Forall_app].
Qed.

Lemma leaves_map_errM {E E' A} (f : E -> E') (m : EM (Server W) E A) : leaves m -> leaves (map_errM f m).
Proof.
  intros Hm v r v'. unfold map_errM. destruct (m v) as [ra v1] eqn:E1. intros [= <- <-]. by eapply Hm.
Qed.

Lemma leaves_or_status {A} (m : EM (Server W) StatusResponse A) : leaves m -> leaves (or_status m).
Proof.
  intros Hm v r v'. unfold or_status. destruct (m v) as [ra v1] eqn:E1. intros E2.
  assert (v' = v1) as -> by (by destruct ra; injection E2). by eapply Hm.
Qed.

Lemma leaves_world {E A} (m : EM W E A) : leaves (of_world m).
Proof. apply leaves_silent. intros v r v'. unfold of_world. destruct (m (sv_world v)). by intros [= <- <-]. Qed.

Lemma leaves_session {E A} d (m : EM (Data W) E A) : leaves (of_session d m).
Proof. apply leaves_silent. intros v r v'. unfold of_session. destruct (m _). by intros [= <- <-]. Qed.

Lemma leaves_mailbox {E A} (P : E -> Prop) Q ref (m : EM (TaskState W) E A) : says P m Q -> leaves (of_mailbox ref m).
Proof.
  intros Hm v r v'. unfold of_mailbox. destruct (m (task_state v ref)) as [ra s] eqn:E1. intros [= <- <-].
  destruct (Hm _ _ _ E1) as (xs & Ho & Hq & _). split; [done|]. exists xs. split; [|done].
  unfold output, task_output in Ho. rewrite task_state_written in Ho. cbn. by rewrite Ho.
Qed.

Lemma leaves_idle {E A} (P : E -> Prop) Q d ref (m : EM (IdleState W) E A) : says P m Q -> leaves (of_idle d ref m).
Proof.
  intros Hm v r v'. unfold of_idle. destruct (m _) as [ra s] eqn:E1. intros [= <- <-].
  destruct (Hm _ _ _ E1) as (xs & Ho & Hq & _). split; [done|]. exists xs. split; [|done].
  unfold output, idle_output in Ho. cbn in Ho. rewrite task_state_written in Ho. cbn. by rewrite Ho.
Qed.

Lemma says_expunge mailbox sequence : says (S := TaskState W) any (expunge mailbox sequence) any.
Proof.
  unfold expunge, expunge_filter, task_sequence_to_jmap. says_tac.
Qed.

(** The operations of the interface, all but sending and starting. *)
Lemma leaves_connect c : leaves (connect c).
Proof. apply leaves_world. Qed.
Lemma leaves_fetch_mailboxes c : leaves (Session.fetch_mailboxes c).
Proof. apply leaves_world. Qed.
Lemma leaves_purge_deleted a : leaves (purge_deleted a).
Proof. apply leaves_world. Qed.
Lemma leaves_new_session_data c l : leaves (new_session_data c l).
Proof. apply leaves_silent. by intros v r v' [= <- <-]. Qed.
Lemma leaves_synchronize_mailboxes d : leaves (Session.synchronize_mailboxes d).
Proof. apply leaves_or_status, leaves_bind; [apply leaves_map_errM, leaves_session|intros; apply leaves_ret]. Qed.
Lemma leaves_get_mailbox_by_name d n : leaves (Session.get_mailbox_by_name d n).
Proof. apply leaves_silent. by intros v r v' [= <- <-]. Qed.
Lemma leaves_synchronize_messages d m : leaves (Session.synchronize_messages d m).
Proof. apply leaves_or_status, leaves_world. Qed.
Lemma leaves_get_jmap_state d a : leaves (Session.get_jmap_state d a).
Proof. apply leaves_or_status, leaves_world. Qed.
Lemma leaves_state_to_modseq d a x : leaves (core_state_to_modseq d a x).
Proof. apply leaves_world. Qed.
Lemma leaves_data_fetch d a m x y z : leaves (data_fetch d a m x y z).
Proof.
  apply leaves_map_errM. eapply (leaves_mailbox any any). eapply says_bind; [apply says_fetch|]. intros. by apply says_ret.
Qed.
Lemma leaves_data_expunge d m x : leaves (data_expunge d m x).
Proof. apply leaves_or_status. eapply leaves_mailbox, says_expunge. Qed.
Lemma leaves_write_changes d m x y : leaves (Session.write_changes d m x y).
Proof. apply leaves_map_errM. eapply leaves_idle, says_write_changes. Qed.
Lemma leaves_event_source d x : leaves (event_source d x).
Proof. apply leaves_world. Qed.
Lemma leaves_mailboxes_len d : leaves (mailboxes_len d).
Proof. apply leaves_silent. by intros v r v' [= <- <-]. Qed.
Lemma leaves_new_mailbox m : leaves (new_mailbox m).
Proof. apply leaves_silent. by intros v r v' [= <- <-]. Qed.
Lemma leaves_lock_state r : leaves (lock_state r).
Proof. apply leaves_silent. by intros v x v' [= <- <-]. Qed.
Lemma leaves_set_mailbox_state r d : leaves (Session.set_mailbox_state r d).
Proof. apply leaves_silent. by intros v x v' [= <- <-]. Qed.
Lemma leaves_saved_search r : leaves (Session.saved_search r).
Proof. apply leaves_silent. by intros v x v' [= <- <-]. Qed.
Lemma leaves_clear_saved_search r : leaves (clear_saved_search r).
Proof. apply leaves_silent. by intros v x v' [= <- <-]. Qed.
Lemma leaves_start_saved_search r : leaves (start_saved_search r).
Proof. apply leaves_silent. by intros v x v' [= <- <-]. Qed.
Lemma leaves_recover_stream : leaves recover_stream.
Proof. apply leaves_ret. Qed.
Create HintDb leaves.
#[local] Hint Resolve leaves_connect leaves_fetch_mailboxes leaves_purge_deleted leaves_new_session_data leaves_synchronize_mailboxes
  leaves_get_mailbox_by_name leaves_synchronize_messages leaves_get_jmap_state leaves_state_to_modseq leaves_data_fetch
  leaves_data_expunge leaves_write_changes leaves_event_source leaves_mailboxes_len leaves_new_mailbox leaves_lock_state
  leaves_set_mailbox_state leaves_saved_search leaves_clear_saved_search leaves_start_saved_search leaves_recover_stream : leaves.

(** ** The trace of a handler and the channel agree *)
Definition faithful {A} (m : C A) : Prop := forall c a c', m c = (Ok a, c') -> exists es : list (Event nat),
  trace c' = trace c ++ es /\ map snd (sv_tasks (Session.world c')) = map snd (sv_tasks (Session.world c)) ++ started es /\
  exists xs, sv_sent (Session.world c') = sv_sent (Session.world c) ++ xs /\ delivered es xs.

Lemma faithful_pure {A} (m : C A) :
  (forall c a c', m c = (Ok a, c') -> trace c' = trace c /\ Session.world c' = Session.world c) -> faithful m.
Proof.
  intros Hm c a c' E'. destruct (Hm _ _ _ E') as [Ht Hw]. exists []. rewrite Ht, Hw, !app_nil_r. split_and!; [done..|].
  exists []. rewrite app_nil_r. split; [done|constructor].
Qed.

Lemma faithful_bind {A B} (m : C A) (k : A -> C B) : faithful m -> (forall a, faithful (k a)) -> faithful (bindM m k).
Proof.
  intros Hm Hk c v c'. unfold bindM. destruct (m c) as [[a|e| |] c1] eqn:E1; try done. intros E2.
  destruct (Hm _ _ _ E1) as (es & Ht & Hs & xs & Ho & Hd). destruct (Hk a _ _ _ E2) as (es' & Ht' & Hs' & xs' & Ho' & Hd').
  exists (es ++ es'). split_and!; [by rewrite Ht', Ht, app_assoc| |].
  - rewrite Hs', Hs, <- app_assoc. unfold started. by rewrite omap_app.
  - exists (xs ++ xs'). split; [by rewrite Ho', Ho, app_assoc|by apply delivered_app].
Qed.

Lemma faithful_ret {A} (a : A) : faithful (ret a).
Proof. apply faithful_pure. by intros c ? c' [= <- <-]. Qed.
Lemma faithful_lift {A} (r : Res unit A) : faithful (lift r).
Proof. apply faithful_pure. by intros c ? c' [= -> <-]. Qed.
Lemma faithful_get : faithful get_session.
Proof. apply faithful_pure. by intros c ? c' [= <- <-]. Qed.
Lemma faithful_put s : faithful (put_session s).
Proof. apply faithful_pure. by intros c ? c' [= <- <-]. Qed.
Lemma faithful_modify f : faithful (modify f).
Proof. apply faithful_pure. by intros c ? c' [= <- <-]. Qed.
Lemma faithful_connecting x : faithful (log (Connecting x)).
Proof.
  intros c a c' [= <- <-]. exists [Connecting x]. split_and!; [done|by rewrite app_nil_r|].
  exists []. rewrite app_nil_r. split; [done|repeat constructor].
Qed.

Lemma faithful_world {A} (m : M (Server W) A) : leaves m -> faithful (Session.on_world m).
Proof.
  intros Hm c a c'. unfold Session.on_world. destruct (m (Session.world c)) as [r v] eqn:E1. intros [= -> <-].
  destruct (Hm _ _ _ E1) as (Ht & xs & Ho & Hq). exists []. rewrite !app_nil_r. cbn. split_and!; [done|by rewrite Ht|].
  exists xs. split; [done|by apply delivered_quiet].
Qed.

Lemma faithful_attempt {A} (m : M (Server W) A) : leaves m -> faithful (attempt (Session.on_world m)).
Proof.
  intros Hm c a c'. unfold attempt, Session.on_world. destruct (m (Session.world c)) as [r v] eqn:E1. intros E2.
  destruct (Hm _ _ _ E1) as (Ht & xs & Ho & Hq).
  assert (c' = mkConn (session c) v (trace c)) as -> by (by destruct r; injection E2).
  exists []. rewrite !app_nil_r. cbn. split_and!; [done|by rewrite Ht|].
  exists xs. split; [done|by apply delivered_quiet].
Qed.

Lemma faithful_write x : faithful (Session.write_bytes x).
Proof.
  intros c a c' [= <- <-]. exists [Wrote x]. cbn. split_and!; [done|by rewrite app_nil_r|].
  exists [x]. split; [done|repeat constructor].
Qed.

Lemma faithful_spawn d t : faithful (spawn_task d t).
Proof.
  intros c a c' [= <- <-]. exists [Spawned t]. cbn. split_and!; [done|by rewrite map_app|].
  exists []. rewrite app_nil_r. split; [done|repeat constructor].
Qed.

Lemma faithful_parsed {A} (r : Res StatusResponse A) (k : A -> C unit) : (forall a, faithful (k a)) -> faithful (parsed r k).
Proof. intros Hk. destruct r; cbn; [apply Hk|apply faithful_write|apply faithful_lift..]. Qed.

Lemma faithful_state_get {A} (f : SessionState _ _ -> Res unit A) : faithful (state_get f).
Proof. apply faithful_bind; [apply faithful_get|]. intros. apply faithful_lift. Qed.

Ltac faithful_step :=
  lazymatch goal with
  | |- faithful (bindM _ _) => apply faithful_bind; [|intros ?]
  | |- faithful (ret _) => apply faithful_ret
  | |- faithful (lift _) => apply faithful_lift
  | |- faithful get_session => apply faithful_get
  | |- faithful (put_session _) => apply faithful_put
  | |- faithful (modify _) => apply faithful_modify
  | |- faithful (log (Connecting _)) => apply faithful_connecting
  | |- faithful (Session.on_world _) => apply faithful_world; solve [auto with leaves]
  | |- faithful (attempt (Session.on_world _)) => apply faithful_attempt; solve [auto with leaves]
  | |- faithful (Session.write_bytes _) => apply faithful_write
  | |- faithful (write_status _) => apply faithful_write
  | |- faithful (spawn_task _ _) => apply faithful_spawn
  | |- faithful (state_get _) => apply faithful_state_get
  | |- faithful (parsed _ _) => apply faithful_parsed; intros ?
  | |- faithful (match ?x with _ => _ end) => destruct x
  | |- faithful (let _ := _ in _) => cbv zeta
  end.
Ltac faithful_tac := repeat faithful_step.

Lemma faithful_authenticate credentials t : faithful (authenticate credentials t).
Proof. unfold authenticate. faithful_tac. Qed.

Lemma faithful_enable_loop l t : faithful (enable_loop l t).
Proof. induction l as [|[] l IH]; cbn [enable_loop]; faithful_tac; auto. Qed.

Lemma faithful_parse_group {A} (parse_one : Request Command -> Res StatusResponse A) l : faithful (parse_group parse_one l).
Proof. induction l; cbn [parse_group]; faithful_tac; auto. Qed.

Lemma faithful_group {A} (parse_one : Request Command -> Res StatusResponse A) task l : faithful (handle_group parse_one task l).
Proof. apply faithful_bind; [apply faithful_parse_group|]. intros. faithful_tac. Qed.

Lemma faithful_create l : faithful (handle_create l).
Proof. apply faithful_bind; [apply faithful_get|]. intros. apply faithful_group. Qed.

Lemma faithful_delete l : faithful (handle_delete l).
Proof. apply faithful_bind; [apply faithful_get|]. intros. apply faithful_group. Qed.

Lemma faithful_destination data name t missing k : (forall m, faithful (k m)) -> faithful (destination data name t missing k).
Proof. intros Hk. unfold destination. faithful_tac. apply Hk. Qed.

Lemma faithful_enter_mailbox q arguments data id state x y : faithful (enter_mailbox q arguments data id state x y).
Proof. unfold enter_mailbox. faithful_tac. Qed.

Lemma faithful_select q : faithful (handle_select q).
Proof. unfold handle_select, finish_select. faithful_tac; apply faithful_enter_mailbox. Qed.

Lemma faithful_request q : faithful (handle_request folder_shared cargo_pkg_version q).
Proof.
  unfold handle_request. cbv zeta. destruct (req_command q); try (apply faithful_bind; [|intros; apply faithful_ret]).
  all: try (apply faithful_create); try (apply faithful_delete); try (apply faithful_select).
  all: unfold handle_list, handle_rename, handle_status, handle_append, handle_close, handle_unselect, handle_expunge, handle_search,
    handle_fetch, handle_store, handle_copy_move, handle_thread, handle_idle, handle_subscribe, handle_namespace, handle_authenticate,
    handle_login, handle_capability, handle_enable, handle_starttls, handle_noop, handle_logout, handle_set_acl, handle_delete_acl,
    handle_get_acl, handle_list_rights, handle_my_rights, handle_unauthenticate, handle_id, handle_simple.
  all: faithful_tac; try (apply faithful_authenticate); try (apply faithful_enable_loop).
  all: try (apply faithful_destination; intros; faithful_tac).
Qed.

Lemma faithful_dispatch n l : faithful (dispatch folder_shared cargo_pkg_version n l).
Proof.
  revert l; induction n as [|n IH]; intros l; cbn [dispatch]; [apply faithful_lift|]. destruct l as [|q l]; [apply faithful_ret|].
  assert (Hone : faithful (do* upgrade := handle_request folder_shared cargo_pkg_version q in
    if upgrade : bool then ret true else dispatch folder_shared cargo_pkg_version n l)).
  { apply faithful_bind; [apply faithful_request|]. intros []; [apply faithful_ret|apply IH]. }
  destruct (req_command q); try exact Hone; destruct (group_requests _ l) as [grouped rest].
  all: apply faithful_bind; [first [apply faithful_create|apply faithful_delete]|intros; apply IH].
Qed.

Lemma faithful_collect n chunk : faithful (collect n chunk).
Proof.
  revert chunk; induction n as [|n IH]; intros chunk; cbn [collect]; [apply faithful_lift|]. faithful_tac; apply IH.
Qed.

Lemma faithful_ingest chunk : faithful (ingest folder_shared cargo_pkg_version chunk).
Proof. unfold ingest. faithful_tac; [apply faithful_collect|apply faithful_dispatch]. Qed.

(** ** The tasks, in some order *)

(** [run_tasks] with the waiting tasks in the order [l]. *)
Definition run_in_order (l : list (nat * Task nat)) : M (Server W) unit := fun v =>
  each (fun '(d, t) => run_task folder_shared folder_all fuel d t) l
    (mkServer (sv_world v) (sv_sessions v) (sv_mailboxes v) (sv_sent v) []).

Lemma run_tasks_in_order v : run_tasks folder_shared folder_all fuel v = run_in_order (sv_tasks v) v.
Proof. done. Qed.

(** The tasks that may end without an answer: an IDLE that is not told to stop,
    a THREAD whose search keys cannot be translated. *)
Definition may_be_silent (t : Task nat) : list str :=
  match t with TaskThread _ _ _ _ | TaskIdle _ _ _ _ => task_tags t | _ => [] end.

Lemma task_runs d t v v' : run_task folder_shared folder_all fuel d t v = (Ok tt, v') -> exists xs answered silent,
  sv_sent v' = sv_sent v ++ xs /\ sent answered xs /\ Permutation (answered ++ silent) (task_tags t) /\ silent ⊆+ may_be_silent t.
Proof.
  intros Hr. apply tasks_answer in Hr as (ts & xs & Ho & Hs & Ht). exists xs, ts.
  assert (Hall : ts = task_tags t -> exists silent, sv_sent v' = sv_sent v ++ xs /\ sent ts xs /\
    Permutation (ts ++ silent) (task_tags t) /\ silent ⊆+ may_be_silent t).
  { intros ->. exists []. rewrite app_nil_r. split_and!; try done. apply submseteq_nil_l. }
  destruct t; try (by apply Hall).
  - destruct Ht as [Ht|[-> _]]; [by apply Hall|]. by exists (task_tags (TaskThread arguments mailbox command is_uid)).
  - destruct (stops v); [by apply Hall|]. subst ts. by exists [tag].
Qed.

Lemma each_runs l v v' : each (fun '(d, t) => run_task folder_shared folder_all fuel d t) l v = (Ok tt, v') -> exists xs answered silent,
  sv_sent v' = sv_sent v ++ xs /\ sent answered xs /\
  Permutation (answered ++ silent) (flat_map task_tags (map snd l)) /\ silent ⊆+ flat_map may_be_silent (map snd l).
Proof.
  revert v; induction l as [|[d t] l IH]; intros v; cbn [each map flat_map snd].
  - intros [= <-]. exists [], [], []. rewrite app_nil_r. split_and!; try done. constructor.
  - unfold bindM. destruct (run_task _ _ _ d t v) as [[[]|e| |] v1] eqn:E1; try done. intros E2.
    apply task_runs in E1 as (xs & ts & silent & Ho & Hs & Hp & Hsub).
    destruct (IH _ E2) as (xs' & ts' & silent' & Ho' & Hs' & Hp' & Hsub'). exists (xs ++ xs'), (ts ++ ts'), (silent ++ silent').
    split_and!; [by rewrite Ho', Ho, app_assoc| | |by apply submseteq_app].
    + unfold sent. rewrite map_app. by apply complete_app.
    + rewrite <- Hp, <- Hp', <- !app_assoc. f_equiv. rewrite !app_assoc. f_equiv. apply Permutation_app_comm.
Qed.

(** Whatever a chunk of input asks for is answered, exactly once: when the
    connection has taken the chunk and the tasks that it started have run, in
    any order, then among untagged responses the client was sent one tagged
    response for every request of the chunk, and for the error that ends it, if
    any. The exceptions: an AUTHENTICATE whose next line was asked for, and
    IDLE and THREAD tasks, which may end without an answer. *)
Theorem commands_answered s v tr chunk c l v' :
  sv_tasks v = [] -> ingest folder_shared cargo_pkg_version chunk (mkConn s v tr) = (Ok false, c) ->
  Permutation l (sv_tasks (Session.world c)) -> run_in_order l (Session.world c) = (Ok tt, v') ->
  exists xs tags silent asked rest,
    sv_sent v' = sv_sent v ++ xs /\ sent tags xs /\
    Permutation (asked ++ rest) (requests_of s chunk).1 /\
    Permutation (tags ++ silent) (map req_tag rest ++ (requests_of s chunk).2) /\
    Forall (fun q => req_command q = Authenticate) asked /\ (length asked <= lines_asked xs)%nat /\
    silent ⊆+ flat_map may_be_silent (map snd l).
Proof.
  intros Hv Hi Hl Hrun.
  destruct (faithful_ingest _ _ _ _ Hi) as (es & Ht & Hs & xs & Ho & Hd). cbn [trace Session.world] in *. rewrite Hv in Hs.
  destruct (chunk_answered _ _ _ _ _ _ _ _ Hi) as (es' & qs & dropped & Ht' & Hq & Hset & Hdrop).
  rewrite Ht in Ht'. apply app_inv_head in Ht'. subst es'. rewrite (Hdrop eq_refl), app_nil_r in Hq.
  destruct Hset as (asked & rest & ts & Hqs & Hask & Hn & Hc & Hts).
  destruct (complete_delivered _ _ _ Hc Hd) as (tags & Hsent & Htags).
  destruct (each_runs _ _ _ Hrun) as (ys & answered & silent & Ho' & Hsent' & Hp & Hsub).
  exists (xs ++ ys), (tags ++ answered), silent, asked, rest. split_and!.
  - rewrite Ho'. cbn. by rewrite Ho, app_assoc.
  - unfold sent. rewrite map_app. by apply complete_app.
  - by rewrite Hqs.
  - rewrite <- app_assoc, Hp, <- Hts, Htags. f_equiv. cbn in Hs. rewrite <- Hs. by apply Permutation_flat_map, Permutation_map.
  - done.
  - etrans; [exact Hn|]. etrans; [by apply (delivered_lines es xs)|]. unfold lines_asked. rewrite List.filter_app, length_app. lia.
  - done.
Qed.
End Conversations.

(** ** Three requests and an unknown command, the tasks in reverse order *)
#[local] Existing Instances Server.Demo.store Server.Demo.clock Server.Demo.debug Server.Demo.chrono Server.Demo.md5
  Server.Demo.charsets Server.Demo.base64
  Server.Demo.limits Server.Demo.changes_client Server.Demo.email_client Server.Demo.search_client Server.Demo.mailbox_client
  Server.Demo.status_client Server.Demo.fetch_client Server.Demo.store_client Server.Demo.expunge_client
  Server.Demo.folder_client Server.Demo.copy_client Server.Demo.append_client Server.Demo.thread_client Server.Demo.acl_client
  Server.Demo.connection.

Lemma commands_answered_witness :
  let chunk := SessionProps.Demo.lines ["A1 FETCH 1 UID"; "A2 NOOP"; "A3 SEARCH ALL"; "A4 FOO"]%string in
  let v := Session.world Server.Demo.flagged in
  exists (v' : Server Server.Demo.World) xs tags, sv_sent v' = sv_sent v ++ xs /\ sent tags xs /\ Permutation tags [b "A1"; b "A2"; b "A3"; b "A4"].
Proof.
  intros chunk v.
  pose (c0 := mkConn (session Server.Demo.flagged) v (trace Server.Demo.flagged)).
  destruct (ingest Server.Demo.shared (b "1") chunk c0) as [r c] eqn:E.
  pose proof (f_equal fst E) as Hr. vm_compute in Hr. subst r.
  pose (l := rev (sv_tasks (Session.world c))).
  destruct (run_in_order Server.Demo.shared Server.Demo.all_mail 10 l (Session.world c)) as [r v'] eqn:E2.
  pose proof (f_equal fst E2) as Hr. subst l. rewrite (f_equal snd (eq_sym E) : c = _) in Hr. vm_compute in Hr. subst r.
  destruct (commands_answered Server.Demo.shared Server.Demo.all_mail (b "1") 10 (session Server.Demo.flagged) v (trace Server.Demo.flagged)
    chunk c _ v' ltac:(vm_compute; reflexivity) E (Permutation_sym (Permutation_rev _)) E2)
    as (xs & tags & silent & asked & rest & Ho & Hs & Hq & Hp & Hask & Hn & Hsub).
  exists v', xs, tags. split; [exact Ho|]. split; [exact Hs|].
  match type of Hsub with _ ⊆+ ?x => assert (Htasks : x = []) end.
  { rewrite (f_equal snd (eq_sym E) : c = _). vm_compute. reflexivity. }
  rewrite Htasks in Hsub. apply submseteq_nil_r in Hsub. subst silent. rewrite app_nil_r in Hp.
  match type of Hq with Permutation _ ?x => set (qs := x) in Hq end. vm_compute in qs. subst qs.
  assert (Ha : asked = []).
  { destruct asked as [|q asked]; [reflexivity|]. apply Forall_inv in Hask. exfalso.
    assert (Hin : q ∈ (q :: asked) ++ rest) by (apply elem_of_app; left; left). rewrite Hq in Hin.
    revert Hask. repeat (apply elem_of_cons in Hin as [->|Hin]; [discriminate|]). inversion Hin. }
  subst asked. cbn [app] in Hq. apply (Permutation_map req_tag) in Hq. rewrite Hq in Hp. exact Hp.
Defined.
