(* ===== verification/Snapshots.v ===== *)
(** * Snapshots keep their shape

    A snapshot of the selected mailbox is indexed by positions that were found
    in one of its lists and used in the other. Here: the two lists have one
    length, which is the number of messages, and whatever a task does, with
    whatever the JMAP server and the store answer, they keep it. *)

From S2P Require Import Prelude Utf8 Utf7 Types Sequence Flags Wire Responses FetchWire Mime Jmap Store UidStore Modseq Synchronize BTree.
From S2P Require Import Mailboxes Folders SelectedMailbox Tasks SearchTask StatusTask AclTask FetchTask StoreTask CopyTask AppendTask.
From S2P Require Import ThreadTask ExpungeTask IdleTask Listing.

Definition paired (d : MailboxData) : Prop :=
  length (md_jmap_ids d) = length (md_imap_uids d) /\ md_total_messages d = length (md_imap_uids d).

(** ** The functions on snapshots *)
Lemma paired_last_state d state : paired d -> paired (set_last_state state d).
Proof. done. Qed.

Lemma removal_loop_length uids pos l js us dels : forall js' us' dels',
  removal_loop uids pos l js us dels = (js', us', dels') -> length js = length us ->
  length js' = length us' /\ (length us' + length dels' = length us + length dels + length l)%nat.
Proof.
  revert pos js us dels; induction l as [|[j u] l IH]; intros pos js us dels js' us' dels'; cbn [removal_loop length].
  - intros [= <- <- <-] ?. split; [done|lia].
  - case_bool_decide; intros E Hl; (apply IH in E as [? Hn]; [|rewrite ?length_app; cbn [length]; lia]); rewrite ?length_app in *; cbn [length] in *; split; lia.
Qed.

Lemma insertion_loop_paired {E} uids pos jids d b d' b' :
  insertion_loop (E := E) uids pos jids d b = Ok (d', b') -> paired d -> paired d'.
Proof.
  revert pos d b; induction jids as [|j jids IH]; intros pos d b; cbn [insertion_loop]; [by intros [= <- <-]|].
  unfold index. destruct (unwrap _) as [u|e| |]; cbn [res_bind]; try done. case_bool_decide; [apply IH|].
  intros Hi [Hl Ht]. eapply IH; [exact Hi|]. unfold paired. cbn. rewrite !length_app, Hl, Ht. cbn. split; lia.
Qed.

Lemma synchronize_uids_paired {E} d jids uids remove d' total dels :
  synchronize_uids (E := E) d jids uids remove = Ok (d', total, dels) -> paired d -> paired d'.
Proof.
  unfold synchronize_uids. intros Hs [Hl Ht]. revert Hs. destruct remove.
  - destruct (removal_loop _ _ _ _ _ _) as [[js us] ds] eqn:Er. cbn [res_bind].
    destruct (removal_loop_length _ _ _ _ _ _ _ _ _ Er eq_refl) as [Hjs Hn]. rewrite length_zip_with, Hl, Nat.min_id in Hn. cbn in Hn.
    destruct (insertion_loop _ _ _ _ _) as [[d1 b1]|e| |] eqn:Ei; try done. intros [= <- <- <-].
    eapply insertion_loop_paired; [exact Ei|]. split; cbn; [done|]. rewrite Ht. lia.
  - destruct (insertion_loop _ _ _ _ _) as [[d1 b1]|e| |] eqn:Ei; try done. intros [= <- <- <-].
    by eapply insertion_loop_paired.
Qed.

Lemma expunge_loop_length destroyed q pos l js us ex : forall js' us' ex',
  expunge_loop destroyed q pos l js us ex = (js', us', ex') -> length js = length us ->
  length js' = length us' /\ (length us' + length ex' = length us + length ex + length l)%nat.
Proof.
  revert pos js us ex; induction l as [|[j u] l IH]; intros pos js us ex js' us' ex'; cbn [expunge_loop length].
  - intros [= <- <- <-] ?. split; [done|lia].
  - case_bool_decide; cbn [negb]; intros E Hl; (apply IH in E as [? Hn]; [|rewrite ?length_app; cbn [length]; lia]); rewrite ?length_app in *; cbn [length] in *; split; lia.
Qed.

Lemma remove_moved_paired destroyed q d : paired d -> paired (remove_moved destroyed q d).1.
Proof.
  intros [Hl Ht]. unfold remove_moved. destruct (expunge_loop _ _ _ _ _ _ _) as [[js us] ex] eqn:E.
  destruct (expunge_loop_length _ _ _ _ _ _ _ _ _ _ E eq_refl) as [Hjs Hn]. rewrite length_zip_with, Hl, Nat.min_id in Hn. cbn in Hn.
  split; cbn; [done|]. rewrite Ht. lia.
Qed.

(** ** What the positions are for *)
Lemma match_loop_returns sequence is_uid mu ms jids pos uids ids : (pos + length uids <= length jids)%nat ->
  returns (SelectedMailbox.match_loop sequence is_uid mu ms jids pos uids ids).
Proof.
  revert pos ids; induction uids as [|u uids IH]; intros pos ids Hp; cbn [SelectedMailbox.match_loop]; [done|]. cbn [length] in Hp.
  cbv zeta. destruct (_ && _); [|apply IH; lia]. unfold index.
  destruct (lookup_lt_is_Some_2 jids pos) as [j ->]; [lia|]. cbn [unwrap res_bind]. apply IH. lia.
Qed.

Lemma sequence_to_jmap_returns d saved sequence is_uid : paired d -> is_saved_search sequence = false ->
  returns (sequence_to_jmap d saved sequence is_uid).
Proof.
  intros [Hl _] Hs. unfold sequence_to_jmap. rewrite Hs. cbn [negb]. destruct (list.last _); [|done].
  apply match_loop_returns. lia.
Qed.

Lemma position_lt {A} `{EqDecision A} (y : A) l i : position y l = Some i -> (i < length l)%nat.
Proof.
  revert i; induction l as [|x l IH]; intros i; cbn [position]; [done|]. case_decide; [intros [= <-]; cbn; lia|].
  destruct (position y l) as [j|]; [|done]. intros [= <-]. specialize (IH j eq_refl). cbn. lia.
Qed.

Lemma jmap_to_imap_returns {E} d ids : paired d -> returns (Selected.jmap_to_imap (E := E) d ids).
Proof.
  intros [Hl _]. induction ids as [|id ids IH]; cbn [Selected.jmap_to_imap]; [done|].
  destruct (position id _) as [i|] eqn:Ep; [|done]. apply position_lt in Ep. unfold index.
  destruct (lookup_lt_is_Some_2 (md_imap_uids d) i) as [u ->]; [lia|]. cbn [unwrap res_bind].
  destruct (Selected.jmap_to_imap d ids); done.
Qed.

Lemma imap_to_jmap_returns {E} d ids : paired d -> returns (Selected.imap_to_jmap (E := E) d ids).
Proof.
  intros [Hl _]. induction ids as [|id ids IH]; cbn [Selected.imap_to_jmap]; [done|].
  destruct (position _ _) as [i|] eqn:Ep; [|done]. apply position_lt in Ep. unfold index.
  destruct (lookup_lt_is_Some_2 (md_jmap_ids d) i) as [u ->]; [lia|]. cbn [unwrap res_bind].
  destruct (Selected.imap_to_jmap d ids); done.
Qed.

(** ** What is read again *)

(** What a computation returns. *)
Definition yields {S E A} (m : EM S E A) (Q : A -> Prop) : Prop := forall s a s', m s = (Ok a, s') -> Q a.

Lemma yields_bind {S E A B} (m : EM S E A) (k : A -> EM S E B) (P : A -> Prop) (Q : B -> Prop) :
  yields m P -> (forall a, P a -> yields (k a) Q) -> yields (bindM m k) Q.
Proof.
  intros Hm Hk s v s'. unfold bindM. destruct (m s) as [[a|e| |] s1] eqn:E1; try done. apply Hk. by eapply Hm.
Qed.

Lemma yields_any {S E A} (m : EM S E A) : yields m (fun _ => True).
Proof. done. Qed.

Lemma yields_map_errM {S E E' A} (f : E -> E') (m : EM S E A) Q : yields m Q -> yields (map_errM f m) Q.
Proof.
  intros Hm s a s'. unfold map_errM. destruct (m s) as [[x|e| |] s1] eqn:E1; cbn; try done. intros [= <- <-]. by eapply Hm.
Qed.

Lemma yields_ret {S E A} (a : A) (Q : A -> Prop) : Q a -> yields (ret a : EM S E A) Q.
Proof. by intros HQ s x s' [= <- <-]. Qed.

Section Read.
Context {DB : Type} `{Sled DB} `{Clock DB} `{EmailClient DB}.

Lemma scan_loop_paired mailbox prefix kvs s :
  length (sc_jmap_ids s) = length (sc_imap_uids s) ->
  yields (scan_loop mailbox prefix kvs s) (fun s => length (sc_jmap_ids s) = length (sc_imap_uids s)).
Proof.
  revert s; induction kvs as [|[k v] kvs IH]; intros s Hs; cbn [scan_loop]; [by apply yields_ret|].
  destruct (_ <? _)%nat; [|by apply IH]. cbv zeta. destruct (jmap_ids_map s !! v).
  - do 2 (eapply yields_bind; [apply yields_any|intros ? _]). apply IH. cbn. rewrite !length_app, Hs. done.
  - eapply yields_bind; [apply yields_any|intros ? _]. by apply IH.
Qed.

Lemma insert_loop_paired mailbox key todo js us :
  length js = length us -> yields (insert_loop mailbox key todo js us) (fun ids => length ids.1 = length ids.2).
Proof.
  revert js us; induction todo as [|[[] j] todo IH]; intros js us Hl; cbn [insert_loop]; [by apply yields_ret|by apply IH|].
  do 2 (eapply yields_bind; [apply yields_any|intros ? _]). apply IH. rewrite !length_app, Hl. done.
Qed.

Lemma update_uids_paired mailbox ids : yields (update_uids mailbox ids) paired.
Proof.
  unfold update_uids. eapply yields_bind; [apply yields_any|intros ? _]. cbv zeta. eapply yields_bind; [apply yields_any|intros ? _].
  eapply yields_bind; [by apply scan_loop_paired|]. intros s Hs. cbn in Hs. eapply yields_bind; [apply yields_any|intros ? _].
  apply (yields_bind _ _ (fun ids => length ids.1 = length ids.2)).
  - case_decide; [by apply yields_ret|by apply insert_loop_paired].
  - intros l Hl. eapply yields_bind; [apply yields_any|intros ? _]. by apply yields_ret.
Qed.

Lemma synchronize_messages_paired (mailbox : MailboxId) : yields (Synchronize.synchronize_messages mailbox) paired.
Proof. eapply yields_bind; [apply yields_any|]. intros. apply yields_map_errM, update_uids_paired. Qed.
End Read.

(** ** Tasks *)

(** The states whose snapshots have their shape. *)
Class Shaped (S : Type) := shaped : S -> Prop.
#[export] Instance task_shaped W : Shaped (TaskState W) := fun s => paired (selected s).
#[export] Instance idle_shaped W : Shaped (IdleState W) := fun i => paired (selected (idle_task i)).
#[export] Instance data_shaped W : Shaped (Data W) := fun _ => True.

(** [m] keeps the shape, and what it returns has [Q]. *)
Definition preserves {S E A} `{Shaped S} (m : EM S E A) (Q : A -> Prop) : Prop :=
  forall s r s', m s = (r, s') -> shaped s -> shaped s' /\ match r with Ok a => Q a | _ => True end.

Section Preserves.
Context {S E : Type} `{Shaped S}.

Lemma preserves_ret {A} (a : A) (Q : A -> Prop) : Q a -> preserves (ret a : EM S E A) Q.
Proof. by intros HQ s r s' [= <- <-]. Qed.

Lemma preserves_lift {A} (r : Res E A) (Q : A -> Prop) : match r with Ok a => Q a | _ => True end -> preserves (lift r) Q.
Proof. by intros HQ s r' s' [= <- <-]. Qed.

Lemma preserves_bind {A B} (m : EM S E A) (k : A -> EM S E B) (R : A -> Prop) (Q : B -> Prop) :
  preserves m R -> (forall a, R a -> preserves (k a) Q) -> preserves (bindM m k) Q.
Proof.
  intros Hm Hk s r s'. unfold bindM. destruct (m s) as [ra s1] eqn:E1. intros E2 Hs. destruct (Hm _ _ _ E1 Hs) as [Hs1 Ha].
  destruct ra as [a|e| |]; [|by injection E2 as <- <-..]. by apply (Hk a Ha _ _ _ E2).
Qed.

Lemma preserves_mono {A} (m : EM S E A) (Q Q' : A -> Prop) : preserves m Q -> (forall a, Q a -> Q' a) -> preserves m Q'.
Proof. intros Hm HQ s r s' E1 Hs. destruct (Hm _ _ _ E1 Hs) as [? Hr]. split; [done|]. destruct r; auto. Qed.
End Preserves.

Lemma preserves_map_errM {S E E' A} `{Shaped S} (f : E -> E') (m : EM S E A) Q : preserves m Q -> preserves (map_errM f m) Q.
Proof.
  intros Hm s r s'. unfold map_errM. destruct (m s) as [ra s1] eqn:E1. intros [= <- <-] Hs. destruct (Hm _ _ _ E1 Hs) as [? Hr].
  split; [done|]. by destruct ra.
Qed.

Lemma preserves_attempt {S E E' A} `{Shaped S} (m : EM S E A) Q :
  preserves m Q -> preserves (attempt m : EM S E' (Res E A)) (fun r => match r with Ok a => Q a | _ => True end).
Proof.
  intros Hm s r s'. unfold attempt. destruct (m s) as [ra s1] eqn:E1. intros E2 Hs. destruct (Hm _ _ _ E1 Hs) as [? Hr].
  by destruct ra; injection E2 as <- <-.
Qed.

Section Parts.
Context {W E : Type}.
Lemma preserves_world {A} (m : EM W E A) Q : yields m Q -> preserves (Tasks.on_world m) Q.
Proof.
  intros Hm s r s'. unfold Tasks.on_world. destruct (m (Tasks.world s)) as [ra w] eqn:E1. intros [= <- <-] Hs. split; [done|].
  destruct ra; try done. by eapply Hm.
Qed.
Lemma preserves_get : preserves (S := TaskState W) (E := E) get_selected paired.
Proof. by intros s r s' [= <- <-]. Qed.
Lemma preserves_saved : preserves (S := TaskState W) (E := E) get_saved (fun _ => True).
Proof. by intros s r s' [= <- <-]. Qed.
Lemma preserves_set d : paired d -> preserves (S := TaskState W) (E := E) (set_selected d) (fun _ => True).
Proof. by intros Hd s r s' [= <- <-]. Qed.
Lemma preserves_set_saved x : preserves (S := TaskState W) (E := E) (set_saved x) (fun _ => True).
Proof. by intros s r s' [= <- <-]. Qed.
Lemma preserves_write x : preserves (S := TaskState W) (E := E) (Tasks.write_bytes x) (fun _ => True).
Proof. by intros s r s' [= <- <-]. Qed.
Lemma preserves_on_task {A} (m : EM (TaskState W) E A) Q : preserves m Q -> preserves (on_task m) Q.
Proof.
  intros Hm i r i'. unfold on_task. destruct (m (idle_task i)) as [ra s] eqn:E1. intros [= <- <-] Hs. by apply (Hm _ _ _ E1).
Qed.
Lemma preserves_on_data {A} (m : EM (Data W) E A) : preserves (on_data m) (fun _ => True).
Proof.
  intros i r i'. unfold on_data. destruct (m _) as [ra d]. intros [= <- <-] Hs. split; [done|]. by destruct ra.
Qed.
Lemma preserves_synchronize (new_state : MailboxData) remove :
  preserves (S := TaskState W) (E := E) (task_synchronize_uids new_state remove) (fun _ => True).
Proof.
  unfold task_synchronize_uids. eapply preserves_bind; [apply preserves_get|]. intros d Hd.
  apply (preserves_bind _ _ (fun r => paired r.1.1)).
  - apply preserves_lift. destruct (synchronize_uids _ _ _ _) as [[[d' t] ds]|e| |] eqn:E1; try done.
    by eapply synchronize_uids_paired.
  - intros [[d' t] ds] Hd'. cbn in Hd'. eapply preserves_bind; [by apply preserves_set|]. intros. by apply preserves_ret.
Qed.
End Parts.

Abbreviation any := (fun _ => True).

Create HintDb snapshots.
#[export] Hint Resolve preserves_set_saved preserves_write preserves_saved preserves_synchronize preserves_on_data yields_any : snapshots.

(** One step of a task whose result does not matter. *)
Ltac preserves_step :=
  lazymatch goal with
  | |- preserves (bindM get_selected _) _ => eapply preserves_bind; [apply preserves_get|intros ? ?]
  | |- preserves (bindM (on_task get_selected) _) _ => eapply preserves_bind; [apply preserves_on_task, preserves_get|intros ? ?]
  | |- preserves (bindM (attempt _) _) _ =>
      eapply (preserves_bind _ _ (fun r => match r with Ok a => any a | _ => True end)); [apply (preserves_attempt _ any)|intros ? _]
  | |- preserves (bindM _ _) _ => apply (preserves_bind _ _ any); [|intros ? _]
  | |- preserves (ret _) _ => by apply preserves_ret
  | |- preserves (lift _) _ => apply preserves_lift; try done; by case_match
  | |- preserves (map_errM _ _) _ => apply preserves_map_errM
  | |- preserves (Tasks.on_world _) _ => apply preserves_world, yields_any
  | |- preserves (set_selected _) _ => by apply preserves_set
  | |- preserves (on_task _) _ => apply preserves_on_task
  | |- preserves get_selected _ => eapply preserves_mono; [apply preserves_get|done]
  | |- preserves (let _ := _ in _) _ => cbv zeta
  | H : paired ?d |- preserves (match remove_moved ?l ?q ?d with _ => _ end) _ =>
      let H' := fresh in pose proof (remove_moved_paired l q d H) as H'; destruct (remove_moved l q d); cbn [fst] in H'
  | |- preserves (match ?x with _ => _ end) _ => destruct x
  end.
Ltac preserves_tac := repeat first [ solve [auto with snapshots] | preserves_step ].

Section Messages.
Context {W : Type} `{Sled W} `{Clock W} `{EmailClient W} `{SearchClient W} `{Limits W} `{FetchClient W} `{StoreClient W}.
Context `{CopyClient W} `{AppendClient W} `{ThreadClient W} `{DebugFmt} `{Chrono} `{Md5}.

Lemma preserves_write_exists {E} n : preserves (S := TaskState W) (E := E) (write_exists n) any.
Proof. unfold write_exists. preserves_tac. Qed.
Lemma preserves_last_state state : preserves (S := TaskState W) (StoreTask.set_last_state state) any.
Proof. unfold StoreTask.set_last_state. preserves_tac. Qed.
Lemma preserves_sequence sequence is_uid : preserves (S := TaskState W) (task_sequence_to_jmap sequence is_uid) any.
Proof. unfold task_sequence_to_jmap. preserves_tac. Qed.
#[local] Hint Resolve preserves_write_exists preserves_last_state preserves_sequence : snapshots.

Lemma preserves_imap_filter filter mailbox prev is_uid :
  preserves (S := TaskState W) (imap_filter_to_jmap filter mailbox prev is_uid) any.
Proof.
  assert (Hk : forall is_uid f m, preserves (S := TaskState W) (convert_key mailbox prev is_uid f m) any).
  { intros u f m. unfold convert_key, sequence_key, sequence_ids, modseq_filter. preserves_tac. }
  assert (Hl : forall fuel op fs js st m, preserves (S := TaskState W) (convert_loop fuel mailbox prev is_uid op fs js st m) any).
  { induction fuel as [|fuel IH]; intros; cbn [convert_loop]; preserves_tac. }
  unfold imap_filter_to_jmap. preserves_tac.
Qed.
#[local] Hint Resolve preserves_imap_filter : snapshots.

Lemma preserves_search_task fuel arguments mailbox save prev is_sort is_uid :
  preserves (search_task (W := W) fuel arguments mailbox save prev is_sort is_uid) any.
Proof.
  assert (Hq : forall fuel f sort p ids, preserves (S := TaskState W) (query_loop fuel f sort p ids) any).
  { induction fuel0 as [|fuel0 IH]; intros; cbn [query_loop]; preserves_tac. }
  unfold search_task, search, run_query, search_ids. preserves_tac.
Qed.

Lemma preserves_thread_task fuel arguments mailbox command is_uid :
  preserves (thread_task (W := W) fuel arguments mailbox command is_uid) any.
Proof.
  assert (Hl : forall fuel t f l p th ids, preserves (S := TaskState W) (thread_loop fuel t f l p th ids) any).
  { induction fuel0 as [|fuel0 IH]; intros; cbn [thread_loop]; preserves_tac. }
  unfold thread_task, thread. preserves_tac.
Qed.

Lemma preserves_store_task mailbox arguments is_uid is_condstore :
  preserves (store_task (W := W) mailbox arguments is_uid is_condstore) any.
Proof.
  unfold store_task, store, store_select, store_update. preserves_tac.
Qed.

Lemma preserves_copy_move_task src dest is_move is_uid is_qresync arguments :
  preserves (copy_move_task (W := W) src dest is_move is_uid is_qresync arguments) any.
Proof.
  assert (Hm : forall t ids rs c, preserves (S := TaskState W) (move_responses is_move t ids rs c) any).
  { induction rs as [|r rs IH]; intros; cbn [move_responses]; preserves_tac. }
  assert (Hc : forall t ids rs c, preserves (S := TaskState W) (copy_responses t ids rs c) any).
  { induction rs as [|[] rs IH]; intros; cbn [copy_responses]; preserves_tac. }
  unfold copy_move_task, copy_move, copy_messages, copy_uids, tagged_jmap. preserves_tac.
Qed.

Lemma preserves_append_task mailbox is_dest_selected arguments :
  preserves (append_task (W := W) mailbox is_dest_selected arguments) any.
Proof.
  assert (Hl : forall ms ids r, preserves (S := TaskState W) (append_loop mailbox is_dest_selected ms ids r) any).
  { induction ms as [|m ms IH]; intros; cbn [append_loop]; preserves_tac. }
  unfold append_task, append_steps, append_validity. preserves_tac.
Qed.

Lemma preserves_expunge `{ExpungeClient W} mailbox sequence : preserves (S := TaskState W) (expunge mailbox sequence) any.
Proof. unfold expunge, expunge_filter. preserves_tac. Qed.

(** *** FETCH and IDLE *)
Section Fetch.
Context (mailbox : MailboxId) (is_select : bool) (fuel : nat).

Lemma preserves_if_open x : preserves (S := TaskState W) (E := StatusResponse) (write_if_open x) any.
Proof. intros s r s'. unfold write_if_open. by destruct (is_open _); intros [= <- <-]. Qed.
#[local] Hint Resolve preserves_if_open : snapshots.

Lemma preserves_fetch_email needs attributes is_uid ids modseq e :
  preserves (S := TaskState W) (fetch_email mailbox fuel needs attributes is_uid ids modseq e) any.
Proof.
  assert (Ha : forall u imap e raw seen m a, preserves (S := TaskState W) (attribute_items mailbox fuel u imap e raw seen m a) any).
  { intros. unfold attribute_items, raw_part. preserves_tac. }
  assert (Hi : forall u imap e raw seen m l, preserves (S := TaskState W) (email_items mailbox fuel u imap e raw seen m l) any).
  { induction l; cbn [email_items]; preserves_tac. }
  unfold fetch_email, email_raw. preserves_tac.
Qed.
#[local] Hint Resolve preserves_fetch_email : snapshots.

Lemma preserves_fetch_messages attributes is_uid ids enabled :
  preserves (S := TaskState W) (fetch_messages mailbox is_select fuel attributes is_uid ids enabled) any.
Proof.
  assert (Hm : forall x, preserves (S := TaskState W) (modseq_or_max mailbox x) any).
  { intros. unfold modseq_or_max, core_modseq. preserves_tac. }
  assert (He : forall n a u i m l seen, preserves (S := TaskState W) (fetch_emails mailbox fuel n a u i m l seen) any).
  { induction l; intros; cbn [fetch_emails]; preserves_tac. }
  assert (Hc : forall n a u i l m seen, preserves (S := TaskState W) (fetch_chunks mailbox fuel n a u i l m seen) any).
  { induction l; intros; cbn [fetch_chunks]; preserves_tac. }
  assert (Hs : forall l b m, preserves (S := TaskState W) (seen_responses mailbox l b m) any).
  { induction l; intros; cbn [seen_responses]; preserves_tac. }
  unfold fetch_messages, set_seen, report_modseq. preserves_tac.
Qed.
#[local] Hint Resolve preserves_fetch_messages : snapshots.

Lemma preserves_fetch arguments is_uid is_qresync enabled :
  preserves (S := TaskState W) (E := unit) (fetch mailbox is_select fuel arguments is_uid is_qresync enabled) any.
Proof. unfold fetch, fetch_steps, since, core_modseq, write_vanished. preserves_tac. Qed.
#[local] Hint Resolve preserves_fetch : snapshots.

Lemma preserves_fetch_task arguments is_uid is_qresync enabled :
  preserves (fetch_task (W := W) mailbox is_select fuel arguments is_uid is_qresync enabled) any.
Proof. unfold fetch_task. preserves_tac. Qed.
End Fetch.

Section Idle.
Context `{MailboxClient W} `{StatusClient W} `{ChangesClient} (folder_shared folder_all : str) (is_select : bool) (fuel : nat).
#[local] Hint Resolve preserves_fetch : snapshots.

Lemma preserves_write_changes mailbox x y is_qresync is_rev2 :
  preserves (E := unit) (IdleTask.write_changes (W := W) folder_shared folder_all is_select fuel mailbox x y is_qresync is_rev2) any.
Proof.
  assert (Hc : forall names, preserves (S := IdleState W) (E := unit) (changed_statuses folder_all is_rev2 names) any).
  { induction names as [|name names IH]; cbn [changed_statuses]; preserves_tac. }
  unfold IdleTask.write_changes, write_mailbox_changes, write_email_changes, report_changes, write_buf. preserves_tac.
Qed.
#[local] Hint Resolve preserves_write_changes : snapshots.

Lemma preserves_idle mailbox tag is_qresync is_rev2 events :
  preserves (E := unit) (idle (W := W) folder_shared folder_all is_select fuel mailbox tag is_qresync is_rev2 events) any.
Proof.
  assert (Hw : forall l, preserves (S := IdleState W) (wait_done tag l) any).
  { induction l as [|[] l IH]; cbn [wait_done]; unfold idle_completed; preserves_tac. }
  assert (Hl : forall l, preserves (S := IdleState W) (idle_loop (W := W) folder_shared folder_all is_select fuel mailbox tag is_qresync is_rev2 l) any).
  { induction l as [|[] l IH]; cbn [idle_loop]; unfold idle_completed; preserves_tac. }
  unfold idle. preserves_tac.
Qed.
End Idle.
End Messages.
