(* ===== verification/Reachable.v ===== *)
(** * The reachable states of a connection

    A connection and its tasks as a transition system over the server of
    [Server.v]: the connection reads a chunk, or any of the waiting tasks runs.
    The states that can be reached keep the snapshots of the selected mailboxes
    in shape, and refer only to sessions and mailboxes that there are. *)

From S2P Require Import Prelude Utf8 Utf7 Types Receiver ReceiverSpec Sequence Flags Wire Commands Parsers ParseSearch ParseFetch.
From S2P Require Import Responses FetchWire Mime Jmap Store UidStore Modseq Synchronize BTree Mailboxes Folders SelectedMailbox.
From S2P Require Import Tasks SearchTask StatusTask AclTask FetchTask StoreTask CopyTask AppendTask ThreadTask ExpungeTask IdleTask.
From S2P Require Import SearchSpec Listing Sasl Session SessionProps Server Snapshots.

(** The snapshots that a task works on. *)
Definition task_refs (t : Task nat) : list nat :=
  match t with
  | TaskAppend _ _ selected _ => option_list (sm_ref <$> selected)
  | TaskSearch _ mailbox _ _ _ _ | TaskFetch _ mailbox _ _ _ | TaskStore _ mailbox _ _ | TaskThread _ mailbox _ _ => [sm_ref mailbox]
  | TaskCopyMove _ src _ _ _ _ => [sm_ref src]
  | TaskIdle _ mailbox _ _ => option_list (sm_ref <$> mailbox)
  | _ => []
  end.

Section Reachable.
Context {W : Type} `{Sled W} `{Clock W} `{EmailClient W} `{MailboxClient W} `{FolderClient W} `{StatusClient W}.
Context `{SearchClient W} `{Limits W} `{FetchClient W} `{StoreClient W} `{CopyClient W} `{AppendClient W}.
Context `{ThreadClient W} `{AclClient W} `{ExpungeClient W} `{ChangesClient} `{Connection W}.
Context `{DebugFmt} `{Chrono} `{Md5} `{Charsets} `{Base64}.
Context (folder_shared folder_all cargo_pkg_version : str) (fuel : nat).

#[local] Instance reached : Backend (Server W) := server_backend folder_shared folder_all fuel.

Abbreviation Conn := (@Conn (Server W) reached).
Abbreviation C := (M Conn).

(** ** The transitions *)

(** The server when the task in front of [rest] was taken from the queue. *)
Definition with_tasks (tasks : list (nat * Task nat)) (v : Server W) : Server W :=
  mkServer (sv_world v) (sv_sessions v) (sv_mailboxes v) (sv_sent v) tasks.

(** A chunk is read, whatever comes of it; the socket is upgraded; a task that
    waits runs, whatever comes of it. *)
Inductive step (c : Conn) : Conn -> Prop :=
| step_read chunk : step c (on_read folder_shared cargo_pkg_version chunk c).2
| step_tls : step c (set_stream_tls c).2
| step_task before d t rest :
    sv_tasks (Session.world c) = before ++ (d, t) :: rest ->
    step c (mkConn (session c) (run_task folder_shared folder_all fuel d t (with_tasks (before ++ rest) (Session.world c))).2 (trace c)).

Inductive reachable (c0 : Conn) : Conn -> Prop :=
| reachable_refl : reachable c0 c0
| reachable_step c c' : reachable c0 c -> step c c' -> reachable c0 c'.

(** A connection that was just accepted. *)
Definition accepted (max_request_size : Z) (is_tls : bool) (w : W) : Conn :=
  mkConn (new_session max_request_size is_tls) (mkServer w [] [] [] []) [].

(** The waiting task number [i] runs, if there is one. *)
Definition run_nth (i : nat) (c : Conn) : Conn :=
  let l := sv_tasks (Session.world c) in
  match l !! i with
  | Some (d, t) =>
      mkConn (session c) (run_task folder_shared folder_all fuel d t (with_tasks (take i l ++ drop (S i) l) (Session.world c))).2 (trace c)
  | None => c
  end.

Lemma reachable_run_nth c0 c i : reachable c0 c -> reachable c0 (run_nth i c).
Proof.
  intros Hr. unfold run_nth. cbv zeta. destruct (sv_tasks (Session.world c) !! i) as [[d t]|] eqn:Ei; [|done].
  eapply reachable_step; [exact Hr|]. apply step_task. by rewrite take_drop_middle.
Qed.

(** ** The invariant *)
Definition snapshots_paired (v : Server W) : Prop := Forall (fun p => paired p.1) (sv_mailboxes v).

Definition task_in_range (v : Server W) (p : nat * Task nat) : Prop :=
  (p.1 < length (sv_sessions v))%nat /\ Forall (fun r => r < length (sv_mailboxes v))%nat (task_refs p.2).

Definition state_in_range (v : Server W) (st : SessionState (@SessionData _ reached) (@Ref _ reached)) : Prop :=
  match st with
  | NotAuthenticated _ => True
  | Authenticated d => ((d : nat) < length (sv_sessions v))%nat
  | Session.Selected d m => ((d : nat) < length (sv_sessions v))%nat /\ (@sm_ref nat m < length (sv_mailboxes v))%nat
  end.

Record coherent (c : Conn) : Prop := {
  co_paired : snapshots_paired (Session.world c);
  co_tasks : Forall (task_in_range (Session.world c)) (sv_tasks (Session.world c));
  co_state : state_in_range (Session.world c) (s_state (session c))
}.

(** What may happen to the server below a handler or a task: no task is lost
    or added, nothing disappears, the snapshots keep their shape. *)
Record later (v v' : Server W) : Prop := {
  la_tasks : sv_tasks v' = sv_tasks v;
  la_sessions : (length (sv_sessions v) <= length (sv_sessions v'))%nat;
  la_mailboxes : (length (sv_mailboxes v) <= length (sv_mailboxes v'))%nat;
  la_paired : snapshots_paired v -> snapshots_paired v'
}.

#[export] Instance later_preorder : PreOrder later.
Proof. split; [by split|]. intros v1 v2 v3 [Ht ? ? ?] [Ht' ? ? ?]. split; [by rewrite Ht'|lia|lia|auto]. Qed.

Lemma task_in_range_later v v' p : (length (sv_sessions v) <= length (sv_sessions v'))%nat ->
  (length (sv_mailboxes v) <= length (sv_mailboxes v'))%nat -> task_in_range v p -> task_in_range v' p.
Proof. intros ? ? [? Hr]. split; [lia|]. revert Hr. apply Forall_impl. lia. Qed.

Lemma state_in_range_later v v' st : (length (sv_sessions v) <= length (sv_sessions v'))%nat ->
  (length (sv_mailboxes v) <= length (sv_mailboxes v'))%nat -> state_in_range v st -> state_in_range v' st.
Proof. intros ? ?. destruct st; cbn; lia. Qed.

(** ** The server below *)
Definition settles {E A} (m : EM (Server W) E A) (Q : A -> Prop) : Prop := forall v r v', m v = (r, v') ->
  later v v' /\ match r with Ok a => Q a | _ => True end.

Lemma settles_ret {E A} (a : A) (Q : A -> Prop) : Q a -> settles (ret a : EM (Server W) E A) Q.
Proof. by intros HQ v r v' [= <- <-]. Qed.

Lemma settles_here {E A} (f : Server W -> A) : settles (E := E) (fun v => (Ok (f v), v)) any.
Proof. by intros v r v' [= <- <-]. Qed.

Lemma settles_bind {E A B} (m : EM (Server W) E A) (k : A -> EM (Server W) E B) (P : A -> Prop) (Q : B -> Prop) :
  settles m P -> (forall a, P a -> settles (k a) Q) -> settles (bindM m k) Q.
Proof.
  intros Hm Hk v r v'. unfold bindM. destruct (m v) as [ra v1] eqn:E1. destruct (Hm _ _ _ E1) as [Hl Ha].
  destruct ra as [a|e| |]; [|by intros [= <- <-]..]. intros E2. destruct (Hk a Ha _ _ _ E2) as [Hl' Hr].
  split; [by etrans|done].
Qed.

Lemma settles_map_errM {E E' A} (f : E -> E') (m : EM (Server W) E A) Q : settles m Q -> settles (map_errM f m) Q.
Proof.
  intros Hm v r v'. unfold map_errM. destruct (m v) as [ra v1] eqn:E1. intros [= <- <-]. destruct (Hm _ _ _ E1) as [Hl Ha].
  split; [done|]. by destruct ra.
Qed.

Lemma settles_or_status {A} (m : EM (Server W) StatusResponse A) Q :
  settles m Q -> settles (or_status m) (fun r => match r with inl a => Q a | inr _ => True end).
Proof.
  intros Hm v r v'. unfold or_status. destruct (m v) as [ra v1] eqn:E1. destruct (Hm _ _ _ E1) as [Hl Ha].
  by destruct ra; intros [= <- <-].
Qed.

Lemma settles_world {E A} (m : EM W E A) Q : yields m Q -> settles (of_world m) Q.
Proof.
  intros Hm v r v'. unfold of_world. destruct (m (sv_world v)) as [ra w] eqn:E1. intros [= <- <-].
  split; [by split|]. destruct ra; try done. by eapply Hm.
Qed.

Lemma settles_session {E A} d (m : EM (Data W) E A) : settles (of_session d m) any.
Proof.
  intros v r v'. unfold of_session. destruct (m _) as [ra s]. intros [= <- <-]. split; [|by destruct ra].
  split; cbn; rewrite ?length_insert; done.
Qed.

Lemma settles_send x : settles (send x) any.
Proof. by intros v r v' [= <- <-]. Qed.

Lemma task_state_paired (v : Server W) ref : snapshots_paired v -> paired (Tasks.selected (task_state v ref)).
Proof.
  intros Hv. unfold task_state. destruct ref as [r|]; [|done]. cbn. destruct (sv_mailboxes v !! r) as [[d saved]|] eqn:Er; [|done].
  cbn. by apply (Forall_lookup_1 _ _ _ _ Hv Er).
Qed.

Lemma after_task_later v ref (s : TaskState W) sessions :
  length sessions = length (sv_sessions v) -> (snapshots_paired v -> paired (Tasks.selected s)) -> later v (after_task v ref s sessions).
Proof.
  intros Hl Hs. destruct ref as [r|]; split; cbn; rewrite ?length_insert, ?Hl; try done. intros Hv. apply Forall_insert; auto.
Qed.

Lemma settles_mailbox {E A} ref (m : EM (TaskState W) E A) : preserves m any -> settles (of_mailbox ref m) any.
Proof.
  intros Hm v r v'. unfold of_mailbox. destruct (m (task_state v ref)) as [ra s] eqn:E1. intros [= <- <-]. split; [|by destruct ra].
  apply after_task_later; [done|]. intros Hv. by apply (Hm _ _ _ E1), task_state_paired.
Qed.

Lemma settles_idle {E A} d ref (m : EM (IdleState W) E A) : preserves m any -> settles (of_idle d ref m) any.
Proof.
  intros Hm v r v'. unfold of_idle. destruct (m _) as [ra s] eqn:E1. intros [= <- <-]. split; [|by destruct ra].
  apply after_task_later; [by rewrite length_insert|]. intros Hv. apply (Hm _ _ _ E1). by apply task_state_paired.
Qed.

(** ** Tasks *)
Lemma settles_each {A} (f : A -> M (Server W) unit) l : (forall a, settles (f a) any) -> settles (each f l) any.
Proof. intros Hf. induction l; cbn [each]; [by apply settles_ret|]. eapply settles_bind; [apply Hf|]. intros _ _. exact IHl. Qed.

Lemma settles_then_send {E} d (m : EM (Data W) E bytes) : settles (then_send (of_session d m)) any.
Proof. eapply settles_bind; [apply settles_map_errM, settles_session|]. intros. apply settles_send. Qed.

Lemma settles_then_respond {E} d (m : EM (Data W) E StatusResponse) : settles (then_respond (of_session d m)) any.
Proof. eapply settles_bind; [apply settles_map_errM, settles_session|]. intros. apply settles_send. Qed.

Lemma run_task_settles d t : settles (run_task folder_shared folder_all fuel d t) any.
Proof.
  destruct t; cbn [run_task]; try apply settles_then_send; try apply settles_then_respond; try (apply settles_map_errM, settles_mailbox).
  - apply settles_each. intros. apply settles_then_respond.
  - apply settles_each. intros. apply settles_then_respond.
  - apply preserves_append_task.
  - apply preserves_search_task.
  - apply preserves_fetch_task.
  - apply preserves_store_task.
  - apply preserves_copy_move_task.
  - apply preserves_thread_task.
  - eapply settles_bind; [apply settles_here|]. intros ? _. eapply settles_bind; [apply settles_idle, preserves_idle|].
    intros ? _. by apply settles_ret.
Qed.

(** ** The connection *)
Definition sessions_of (c : Conn) : nat := length (sv_sessions (Session.world c)).
Definition mailboxes_of (c : Conn) : nat := length (sv_mailboxes (Session.world c)).
Definition grows (c c' : Conn) : Prop := (sessions_of c <= sessions_of c')%nat /\ (mailboxes_of c <= mailboxes_of c')%nat.

(** From a coherent state [m] leads to a coherent one, whatever comes of it,
    and what it returns has [Q] there. *)
Definition safe {A} (c : Conn) (m : C A) (Q : A -> Conn -> Prop) : Prop := coherent c -> forall r c', m c = (r, c') ->
  coherent c' /\ grows c c' /\ match r with Ok a => Q a c' | _ => True end.

Lemma safe_mono {A} c (m : C A) (Q Q' : A -> Conn -> Prop) : safe c m Q -> (forall a c', Q a c' -> Q' a c') -> safe c m Q'.
Proof. intros Hm HQ Hc r c' E'. destruct (Hm Hc _ _ E') as (? & ? & ?). split_and!; [done..|]. destruct r; auto. Qed.

Lemma safe_bind {A B} c (m : C A) (k : A -> C B) (P : A -> Conn -> Prop) (Q : B -> Conn -> Prop) :
  safe c m P -> (forall a c', coherent c' -> grows c c' -> P a c' -> safe c' (k a) Q) -> safe c (bindM m k) Q.
Proof.
  intros Hm Hk Hc r c'. unfold bindM. destruct (m c) as [ra c1] eqn:E1. destruct (Hm Hc _ _ E1) as (Hc1 & Hg & Ha).
  destruct ra as [a|e| |]; [|by intros [= <- <-]..]. intros E2. destruct (Hk a c1 Hc1 Hg Ha Hc1 _ _ E2) as (Hc2 & Hg2 & Hr).
  split_and!; [done| |done]. unfold grows in *. lia.
Qed.

Lemma safe_ret {A} c (a : A) (Q : A -> Conn -> Prop) : Q a c -> safe c (ret a) Q.
Proof. intros HQ Hc r c' [= <- <-]. split_and!; [done|split; done|done]. Qed.

Lemma safe_lift {A} c (r : Res unit A) (Q : A -> Conn -> Prop) : (forall a, r = Ok a -> Q a c) -> safe c (lift r) Q.
Proof. intros HQ Hc r' c' [= <- <-]. split_and!; [done|split; done|]. destruct r; auto. Qed.

Lemma safe_get {A} c (k : _ -> C A) Q : safe c (k (session c)) Q -> safe c (bindM get_session k) Q.
Proof. intros Hk Hc r c' E'. exact (Hk Hc r c' E'). Qed.

Lemma safe_state_get {A B} c (f : _ -> Res unit A) (k : A -> C B) Q :
  (forall a, f (s_state (session c)) = Ok a -> safe c (k a) Q) -> safe c (bindM (state_get f) k) Q.
Proof.
  intros Hk. unfold state_get. eapply safe_bind; [apply safe_get, (safe_lift _ _ (fun a c' => c' = c /\ f (s_state (session c)) = Ok a)); auto|].
  cbv beta. intros a c' _ _ [-> Ha]. by apply Hk.
Qed.

Lemma safe_state c s' : state_in_range (Session.world c) (s_state s') -> safe c (put_session s') (fun _ _ => True).
Proof.
  intros Hs [Hp Ht _] r c' [= <- <-]. split_and!; [by split|split; done|done].
Qed.

Lemma safe_modify c f : state_in_range (Session.world c) (s_state (f (session c))) -> safe c (modify f) (fun _ _ => True).
Proof. intros Hs. apply safe_get. by apply safe_state. Qed.

Lemma safe_log c e : safe c (log e) (fun _ _ => True).
Proof. intros [Hp Ht Hs] r c' [= <- <-]. split_and!; [by split|split; done|done]. Qed.

Lemma coherent_later c v : coherent c -> later (Session.world c) v -> coherent (mkConn (session c) v (trace c)).
Proof.
  intros [Hp Ht Hs] [Htasks Hls Hlm Hlp]. split; cbn; [by apply Hlp| |by eapply state_in_range_later].
  rewrite Htasks. revert Ht. apply Forall_impl. intros p. by apply task_in_range_later.
Qed.

Lemma safe_world {A} c (m : M (Server W) A) (Q : A -> Prop) : settles m Q -> safe c (Session.on_world m) (fun a _ => Q a).
Proof.
  intros Hm Hc r c'. unfold Session.on_world. destruct (m (Session.world c)) as [ra v] eqn:E1. intros [= <- <-].
  destruct (Hm _ _ _ E1) as [Hl Ha]. split_and!; [by apply coherent_later|split; apply Hl|done].
Qed.

Lemma safe_attempt {A} c (m : M (Server W) A) Q : settles m Q ->
  safe c (attempt (Session.on_world m)) (fun r _ => match r with Ok a => Q a | _ => True end).
Proof.
  intros Hm Hc r c'. unfold attempt, Session.on_world. destruct (m (Session.world c)) as [ra v] eqn:E1. intros E2.
  destruct (Hm _ _ _ E1) as [Hl Ha].
  assert (c' = mkConn (session c) v (trace c)) as -> by (by destruct ra; injection E2).
  split_and!; [by apply coherent_later|split; apply Hl|]. by destruct ra; injection E2 as <-.
Qed.

Lemma safe_write c x : safe c (Session.write_bytes x) (fun _ _ => True).
Proof. eapply safe_bind; [apply safe_log|]. intros. apply (safe_world _ _ any), settles_send. Qed.

Lemma safe_spawn c d t : ((d : nat) < sessions_of c)%nat -> Forall (fun r => r < mailboxes_of c)%nat (task_refs t) ->
  safe c (spawn_task d t) (fun _ _ => True).
Proof.
  intros Hd Hr [Hp Ht Hs] r c' [= <- <-]. split_and!; [|split; done|done]. split; cbn; [done| |done].
  apply Forall_app. split; [done|]. by repeat constructor.
Qed.

Lemma safe_new_mailbox c d : paired d -> safe c (Session.on_world (new_mailbox d)) (fun r c' => ((r : nat) < mailboxes_of c')%nat).
Proof.
  intros Hd [Hp Ht Hs] r c' [= <- <-]. unfold grows, sessions_of, mailboxes_of. cbn. rewrite length_app. cbn. split_and!; [|lia|lia|lia].
  split; cbn; [by apply Forall_app; split; [|repeat constructor; apply Hd]| |].
  - revert Ht. apply Forall_impl. intros p. apply task_in_range_later; cbn; rewrite ?length_app; lia.
  - eapply state_in_range_later; [..|exact Hs]; cbn; rewrite ?length_app; lia.
Qed.

Lemma safe_new_session c client l : safe c (Session.on_world (new_session_data client l)) (fun d c' => ((d : nat) < sessions_of c')%nat).
Proof.
  intros [Hp Ht Hs] r c' [= <- <-]. unfold grows, sessions_of, mailboxes_of. cbn. rewrite length_app. cbn. split_and!; [|lia|lia|lia].
  split; cbn; [done| |].
  - revert Ht. apply Forall_impl. intros p. apply task_in_range_later; cbn; rewrite ?length_app; lia.
  - eapply state_in_range_later; [..|exact Hs]; cbn; rewrite ?length_app; lia.
Qed.

(** The operations of the interface. *)
Lemma settles_update r f : (forall p, paired p.1 -> paired (f p).1) -> settles (update_mailbox r f) any.
Proof.
  intros Hf v x v' [= <- <-]. split; [|done]. split; cbn; rewrite ?length_alter; try done.
  intros Hv. apply Forall_alter; [done|]. intros p _. apply Hf.
Qed.

Lemma settles_connect c : settles (connect c) any.
Proof. apply settles_world, yields_any. Qed.
Lemma settles_fetch_mailboxes c : settles (Session.fetch_mailboxes c) any.
Proof. apply settles_world, yields_any. Qed.
Lemma settles_purge_deleted a : settles (purge_deleted a) any.
Proof. apply settles_world, yields_any. Qed.
Lemma settles_synchronize_mailboxes d : settles (Session.synchronize_mailboxes d) any.
Proof.
  intros v r v' E1. split; [|by destruct r]. revert E1. apply (settles_or_status _ any).
  eapply settles_bind; [apply settles_map_errM, settles_session|]. intros. by apply settles_ret.
Qed.
Lemma settles_get_mailbox_by_name d n : settles (Session.get_mailbox_by_name d n) any.
Proof. by intros v r v' [= <- <-]. Qed.
Lemma settles_synchronize_messages d m :
  settles (Session.synchronize_messages d m) (fun r => match r with inl state => paired state | inr _ => True end).
Proof. apply settles_or_status, settles_world, synchronize_messages_paired. Qed.
Lemma settles_get_jmap_state d a : settles (Session.get_jmap_state d a) any.
Proof. intros v r v' E1. split; [|by destruct r]. revert E1. by apply (settles_or_status _ any), settles_world. Qed.
Lemma settles_state_to_modseq d a x : settles (core_state_to_modseq d a x) any.
Proof. apply settles_world, yields_any. Qed.
Lemma settles_data_fetch d a m x y z : settles (data_fetch d a m x y z) any.
Proof.
  apply settles_map_errM, settles_mailbox. eapply preserves_bind; [apply preserves_fetch|]. intros. by apply preserves_ret.
Qed.
Lemma settles_data_expunge d m x : settles (data_expunge d m x) any.
Proof.
  intros v r v' E1. split; [|by destruct r]. revert E1. apply (settles_or_status _ any), settles_mailbox, preserves_expunge.
Qed.
Lemma settles_write_changes d m x y : settles (Session.write_changes d m x y) any.
Proof. apply settles_map_errM, settles_idle, preserves_write_changes. Qed.
Lemma settles_event_source d x : settles (event_source d x) any.
Proof. apply settles_world, yields_any. Qed.
Lemma settles_mailboxes_len d : settles (mailboxes_len d) any.
Proof. by intros v r v' [= <- <-]. Qed.
Lemma settles_lock_state r : settles (lock_state r) any.
Proof. by intros v x v' [= <- <-]. Qed.
Lemma settles_saved_search r : settles (Session.saved_search r) any.
Proof. by intros v x v' [= <- <-]. Qed.
Lemma settles_clear_saved_search r : settles (clear_saved_search r) any.
Proof. by apply settles_update. Qed.
Lemma settles_start_saved_search r : settles (start_saved_search r) any.
Proof. by apply settles_update. Qed.
Lemma settles_set_mailbox_state r d : paired d -> settles (Session.set_mailbox_state r d) any.
Proof. intros Hd. by apply settles_update. Qed.
Lemma settles_recover_stream : settles recover_stream any.
Proof. by apply settles_ret. Qed.
Lemma settles_stop_idle : settles stop_idle any.
Proof. by apply settles_ret. Qed.

Create HintDb reachable.
#[local] Hint Resolve settles_connect settles_fetch_mailboxes settles_purge_deleted settles_synchronize_mailboxes
  settles_get_mailbox_by_name settles_synchronize_messages settles_get_jmap_state settles_state_to_modseq settles_data_fetch
  settles_data_expunge settles_write_changes settles_event_source settles_mailboxes_len settles_lock_state settles_saved_search
  settles_clear_saved_search settles_start_saved_search settles_set_mailbox_state settles_recover_stream settles_stop_idle : reachable.

(** What the accessors of the state give is in range. *)
Lemma session_data_in_range c d : coherent c -> session_data (s_state (session c)) = Ok d -> ((d : nat) < sessions_of c)%nat.
Proof. intros [_ _ Hs]. destruct (s_state (session c)); [done|..]; intros [= ->]; apply Hs. Qed.
Lemma selected_in_range c d m : coherent c -> s_state (session c) = Session.Selected d m ->
  ((d : nat) < sessions_of c)%nat /\ (@sm_ref nat m < mailboxes_of c)%nat.
Proof. intros [_ _ Hs] E1. by rewrite E1 in Hs. Qed.
Lemma mailbox_data_in_range c d m : coherent c -> mailbox_data (s_state (session c)) = Ok (d, m) ->
  ((d : nat) < sessions_of c)%nat /\ (@sm_ref nat m < mailboxes_of c)%nat.
Proof. intros [_ _ Hs]. destruct (s_state (session c)); [done|done|]. by intros [= <- <-]. Qed.
Lemma select_data_in_range c d m : coherent c -> select_data (s_state (session c)) = Ok (d, m) ->
  ((d : nat) < sessions_of c)%nat /\ (@sm_ref nat m < mailboxes_of c)%nat.
Proof. intros [_ _ Hs]. destruct (s_state (session c)); [done|done|]. by intros [= <- <-]. Qed.
Lemma session_mailbox_data_in_range c d m : coherent c -> session_mailbox_data (s_state (session c)) = Ok (d, m) ->
  ((d : nat) < sessions_of c)%nat /\ Forall (fun r => r < mailboxes_of c)%nat (option_list (sm_ref <$> m)).
Proof.
  intros [_ _ Hs]. destruct (s_state (session c)) as [|d0|d0 m0]; [done|..]; intros [= <- <-]; cbn; [by split|].
  destruct Hs. split; [done|]. by repeat constructor.
Qed.

Lemma safe_parsed {A} c (r : Res StatusResponse A) (k : A -> C unit) :
  (forall a, safe c (k a) (fun _ _ => True)) -> safe c (parsed r k) (fun _ _ => True).
Proof. intros Hk. destruct r; cbn; [apply Hk|apply safe_write|by apply safe_lift..]. Qed.

Lemma refs_grow c c' (l : list nat) : grows c c' -> Forall (fun r => r < mailboxes_of c)%nat l -> Forall (fun r => r < mailboxes_of c')%nat l.
Proof. intros [_ Hg]. apply Forall_impl. lia. Qed.

Lemma safe_lift_bind {A B} c (r : Res unit A) (k : A -> C B) Q :
  (forall a, r = Ok a -> safe c (k a) Q) -> safe c (bindM (lift r) k) Q.
Proof.
  intros Hk. eapply safe_bind; [apply (safe_lift _ _ (fun a c' => c' = c /\ r = Ok a)); auto|].
  intros a c' _ _ [-> Ha]. by apply Hk.
Qed.

(** ** The handlers *)
Ltac ranges :=
  repeat match goal with
  | H : coherent ?c, E : session_data (s_state (session ?c)) = Ok _ |- _ => apply (session_data_in_range _ _ H) in E
  | H : coherent ?c, E : mailbox_data (s_state (session ?c)) = Ok _ |- _ => apply (mailbox_data_in_range _ _ _ H) in E
  | H : coherent ?c, E : select_data (s_state (session ?c)) = Ok _ |- _ => apply (select_data_in_range _ _ _ H) in E
  | H : coherent ?c, E : session_mailbox_data (s_state (session ?c)) = Ok _ |- _ => apply (session_mailbox_data_in_range _ _ _ H) in E as [? ?]
  end.
Ltac in_range :=
  cbn; unfold grows, sessions_of, mailboxes_of in *;
  first [ exact I | eapply co_state; eassumption | lia | apply List.Forall_nil | apply List.Forall_cons; [lia|apply List.Forall_nil] | eapply Forall_impl; [|eassumption]; cbn; lia ].

Ltac safe_step :=
  lazymatch goal with
  | |- safe _ (bindM get_session _) _ => apply safe_get
  | |- safe _ (bindM (state_get _) _) _ =>
      apply safe_state_get; let a := fresh in let H := fresh in intros a H; try (destruct a as [? ?]); ranges
  | |- safe _ (bindM (lift _) _) _ =>
      apply safe_lift_bind; let a := fresh in let H := fresh in intros a H; try (destruct a as [? ?]); ranges
  | |- safe _ (bindM (Session.on_world (new_mailbox _)) _) _ => eapply safe_bind; [apply safe_new_mailbox; assumption|cbv beta; intros ? ? ? ? ?]
  | |- safe _ (bindM (Session.on_world (new_session_data _ _)) _) _ => eapply safe_bind; [apply safe_new_session|cbv beta; intros ? ? ? ? ?]
  | |- safe _ (bindM (Session.on_world (Session.synchronize_messages _ _)) _) _ =>
      eapply safe_bind; [apply safe_world, settles_synchronize_messages|cbv beta; intros ? ? ? ? ?]
  | |- safe _ (bindM (Session.on_world _) _) _ => eapply safe_bind; [apply (safe_world _ _ any); solve [auto with reachable]|intros ? ? ? ? _]
  | |- safe _ (bindM (attempt (Session.on_world _)) _) _ =>
      eapply safe_bind; [apply (safe_attempt _ _ any); solve [auto with reachable]|intros ? ? ? ? _]
  | |- safe _ (bindM _ _) _ => apply (safe_bind _ _ _ (fun _ _ => True)); [|intros ? ? ? ? _]
  | |- safe _ (ret _) _ => by apply safe_ret
  | |- safe _ (lift _) _ => by apply safe_lift
  | |- safe _ (log _) _ => apply safe_log
  | |- safe _ (put_session _) _ => apply safe_state; in_range
  | |- safe _ (modify _) _ => apply safe_modify; in_range
  | |- safe _ (Session.write_bytes _) _ => apply safe_write
  | |- safe _ (write_status _) _ => apply safe_write
  | |- safe _ (spawn_task _ _) _ => apply safe_spawn; in_range
  | |- safe _ (parsed _ _) _ => apply safe_parsed; intros ?
  | |- safe _ (Session.on_world _) _ => apply (safe_world _ _ any); solve [auto with reachable]
  | |- safe _ (let _ := _ in _) _ => cbv zeta
  | |- safe _ (match ?x with _ => _ end) _ => destruct x
  end.
Ltac safe_tac := repeat safe_step.

Abbreviation fine c m := (safe c m (fun _ _ => True)).

Lemma safe_authenticate c credentials t : coherent c -> fine c (authenticate credentials t).
Proof. intros Hc. unfold authenticate. safe_tac. Qed.

Lemma safe_enable_loop c l t : coherent c -> fine c (enable_loop l t).
Proof. revert c; induction l as [|[] l IH]; intros c Hc; cbn [enable_loop]; safe_tac; auto. Qed.

Lemma safe_parse_group {A} c (parse_one : Request Command -> Res StatusResponse A) l : coherent c -> fine c (parse_group parse_one l).
Proof. revert c; induction l; intros c Hc; cbn [parse_group]; safe_tac; auto. Qed.

Lemma safe_group {A} c (parse_one : Request Command -> Res StatusResponse A) task l :
  (forall l, task_refs (task l) = []) -> coherent c -> fine c (handle_group parse_one task l).
Proof.
  intros Ht Hc. unfold handle_group. safe_step; [by apply safe_parse_group|]. destruct a; safe_tac. apply safe_spawn; [done|]. by rewrite (Ht _).
Qed.

Lemma safe_create c l : coherent c -> fine c (handle_create l).
Proof. intros Hc. apply safe_get. by apply safe_group. Qed.
Lemma safe_delete c l : coherent c -> fine c (handle_delete l).
Proof. intros Hc. apply safe_get. by apply safe_group. Qed.

Lemma safe_destination c data name t missing k : coherent c ->
  (forall c' m, coherent c' -> grows c c' -> fine c' (k m)) -> fine c (destination data name t missing k).
Proof.
  intros Hc Hk. unfold destination. safe_tac. apply Hk; [done|]. unfold grows in *. lia.
Qed.

Lemma safe_enter_mailbox c q arguments (data : nat) id state x y : coherent c -> paired state ->
  (data < sessions_of c)%nat -> fine c (enter_mailbox q arguments data id state x y).
Proof. intros Hc Hp Hd. unfold enter_mailbox. safe_tac. Qed.

Lemma safe_select c q : coherent c -> fine c (handle_select q).
Proof.
  intros Hc. unfold handle_select, finish_select. safe_tac.
  all: apply safe_enter_mailbox; [done|assumption|unfold grows in *; lia].
Qed.

Lemma safe_simple {A} c (r : Res StatusResponse A) task : (forall a, task_refs (task a) = []) -> coherent c -> fine c (handle_simple r task).
Proof. intros Ht Hc. unfold handle_simple. safe_tac. apply safe_spawn; [done|]. by rewrite (Ht _). Qed.

Lemma safe_expunge c q uid : coherent c -> fine c (handle_expunge q uid).
Proof. intros Hc. unfold handle_expunge. safe_tac. Qed.

Lemma safe_request c q : coherent c -> fine c (handle_request folder_shared cargo_pkg_version q).
Proof.
  intros Hc. unfold handle_request. cbv zeta.
  destruct (req_command q); try (apply (safe_bind _ _ _ (fun _ _ => True)); [|intros; by apply safe_ret]).
  all: try (by apply safe_create); try (by apply safe_delete); try (by apply safe_select); try (by apply safe_expunge).
  all: unfold handle_list, handle_rename, handle_status, handle_append, handle_close, handle_unselect, handle_search,
    handle_fetch, handle_store, handle_copy_move, handle_thread, handle_idle, handle_subscribe, handle_namespace, handle_authenticate,
    handle_login, handle_capability, handle_enable, handle_starttls, handle_noop, handle_logout, handle_set_acl, handle_delete_acl,
    handle_get_acl, handle_list_rights, handle_my_rights, handle_unauthenticate, handle_id.
  all: safe_tac; try (by apply safe_simple); try (by apply safe_authenticate); try (by apply safe_enable_loop).
  all: apply safe_destination; [done|intros; safe_tac].
Qed.

Lemma safe_dispatch n l : forall c, coherent c -> fine c (dispatch folder_shared cargo_pkg_version n l).
Proof.
  revert l; induction n as [|n IH]; intros l c Hc; cbn [dispatch]; [by apply safe_lift|]. destruct l as [|q l]; [by apply safe_ret|].
  assert (Hone : fine c (do* upgrade := handle_request folder_shared cargo_pkg_version q in
    if upgrade : bool then ret true else dispatch folder_shared cargo_pkg_version n l)).
  { eapply safe_bind; [by apply safe_request|]. intros [] c' Hc' _ _; [by apply safe_ret|by apply IH]. }
  destruct (req_command q); try exact Hone; destruct (group_requests _ l) as [grouped rest].
  all: eapply safe_bind; [first [by apply safe_create|by apply safe_delete]|intros ? c' Hc' _ _; by apply IH].
Qed.

Lemma safe_collect n chunk : forall c, coherent c -> fine c (collect n chunk).
Proof.
  revert chunk; induction n as [|n IH]; intros chunk c Hc; cbn [collect]; [by apply safe_lift|]. safe_tac; by apply IH.
Qed.

Lemma safe_on_read c chunk : coherent c -> fine c (on_read folder_shared cargo_pkg_version chunk).
Proof.
  intros Hc. unfold on_read, ingest. safe_tac; [by apply safe_collect|by apply safe_dispatch].
Qed.

Lemma safe_coherent {A} c (m : C A) Q : safe c m Q -> coherent c -> coherent (m c).2.
Proof. intros Hm Hc. destruct (m c) as [r c'] eqn:E1. by apply (Hm Hc _ _ E1). Qed.

(** ** The transitions keep the invariant *)
Lemma accepted_coherent n is_tls w : coherent (accepted n is_tls w).
Proof. by repeat constructor. Qed.

Lemma task_coherent c before d t rest : coherent c -> sv_tasks (Session.world c) = before ++ (d, t) :: rest ->
  coherent (mkConn (session c) (run_task folder_shared folder_all fuel d t (with_tasks (before ++ rest) (Session.world c))).2 (trace c)).
Proof.
  intros [Hp Ht Hs] Htasks. set (v := with_tasks _ _).
  assert (Hv : coherent (mkConn (session c) v (trace c))).
  { split; [exact Hp| |exact Hs]. cbn. rewrite Htasks in Ht. apply Forall_app in Ht as [Hb Hr]. apply Forall_app. split; [exact Hb|].
    by apply Forall_inv_tail in Hr. }
  destruct (run_task _ _ _ d t v) as [r v'] eqn:Er. cbn. destruct (run_task_settles _ _ _ _ _ Er) as [Hl _].
  exact (coherent_later _ _ Hv Hl).
Qed.

Lemma step_coherent c c' : step c c' -> coherent c -> coherent c'.
Proof.
  intros [chunk| |before d t rest Ht] Hc.
  - eapply safe_coherent; [by apply safe_on_read|done].
  - eapply safe_coherent; [apply safe_modify; in_range|done].
  - by apply task_coherent.
Qed.

(** C6: In whatever order a connection reads its input and its tasks run, and
    whatever the JMAP server and the store answer, also with errors and panics
    on the way: every snapshot that a connection holds has a UID for every
    message it counts, so that the sequence numbers and UIDs of a command, and
    the messages that the JMAP server found, are translated without an index out
    of bounds (a saved search apart); and the session and every waiting task
    refer to mailboxes that are there. *)
Theorem reachable_coherent n is_tls w c :
  reachable (accepted n is_tls w) c ->
  coherent c /\
  forall state saved, (state, saved) ∈ sv_mailboxes (Session.world c) ->
    (forall sequence is_uid, is_saved_search sequence = false -> returns (sequence_to_jmap state saved sequence is_uid)) /\
    (forall ids, returns (Selected.jmap_to_imap (E := StatusResponse) state ids)).
Proof.
  intros Hr. assert (Hc : coherent c).
  { induction Hr as [|c c' _ IH Hs]; [apply accepted_coherent|by eapply step_coherent]. }
  split; [exact Hc|]. intros state saved Hin. pose proof (co_paired _ Hc) as Hp. unfold snapshots_paired in Hp. rewrite list.Forall_forall in Hp. specialize (Hp _ Hin).
  cbn in Hp. split; [intros; by apply sequence_to_jmap_returns|intros; by apply jmap_to_imap_returns].
Qed.
End Reachable.

(** ** A conversation, with its tasks out of order *)
#[local] Existing Instances Server.Demo.store Server.Demo.clock Server.Demo.debug Server.Demo.chrono Server.Demo.md5
  Server.Demo.charsets Server.Demo.base64
  Server.Demo.limits Server.Demo.changes_client Server.Demo.email_client Server.Demo.search_client Server.Demo.mailbox_client
  Server.Demo.status_client Server.Demo.fetch_client Server.Demo.store_client Server.Demo.expunge_client
  Server.Demo.folder_client Server.Demo.copy_client Server.Demo.append_client Server.Demo.thread_client Server.Demo.acl_client
  Server.Demo.connection.


Module Conversation.
Definition mail (id : str) : SearchSpec.Message := SearchSpec.mkMessage id id [b "in"] [] 100 0 0 (fun _ _ => false) (fun _ _ => false).
Definition mailbox : Server.Demo.World := Server.Demo.mkWorld ∅ [mail (b "a"); mail (b "c")] 1.
Definition here : @Conn (Server Server.Demo.World) Server.Demo.backend := accepted Server.Demo.shared Server.Demo.all_mail 10 1000 true mailbox.
Definition read (chunk : bytes) (c : @Conn (Server Server.Demo.World) Server.Demo.backend) :=
  (on_read Server.Demo.shared (b "1") chunk c).2.
(** Two commands are read at once after SELECT. *)
Definition waiting : @Conn (Server Server.Demo.World) Server.Demo.backend :=
  read (SessionProps.Demo.lines ["A3 STORE 1 +FLAGS (\Deleted)"; "A4 SEARCH RETURN (SAVE) ALL"]%string)
    (read (Server.Demo.line "A2 SELECT INBOX") (read (Server.Demo.line "A1 LOGIN john secret") here)).
(** The task of the second runs first. *)
Definition later_first : @Conn (Server Server.Demo.World) Server.Demo.backend :=
  run_nth Server.Demo.shared Server.Demo.all_mail 10 1 waiting.
End Conversation.

Lemma reachable_coherent_witness :
  let c := Conversation.later_first in
  coherent Server.Demo.shared Server.Demo.all_mail 10 c /\ length (sv_tasks (Session.world c)) = 1%nat /\
  map (fun p => md_jmap_ids p.1) (sv_mailboxes (Session.world c)) = [[b "a"; b "c"]] /\
  forall state saved, (state, saved) ∈ sv_mailboxes (Session.world c) -> returns (sequence_to_jmap state saved (Range (Some 1) None) false).
Proof.
  intros c.
  assert (Hr : reachable Server.Demo.shared Server.Demo.all_mail (b "1") 10 Conversation.here c).
  { apply reachable_run_nth. unfold Conversation.waiting, Conversation.read. do 3 (eapply reachable_step; [|apply step_read]).
    apply reachable_refl. }
  destruct (reachable_coherent Server.Demo.shared Server.Demo.all_mail (b "1") 10 1000 true Conversation.mailbox c Hr) as [Hc Hs].
  split; [exact Hc|]. split; [vm_compute; reflexivity|]. split; [vm_compute; reflexivity|].
  intros state saved Hin. apply (Hs state saved Hin). reflexivity.
Defined.
