(* ===== verification/Accounting.v ===== *)
(** * The accounts of a connection

    [Conversations.v] follows one chunk until its tasks have ended, and the
    transitions of [Reachable.v] forget what was received.  Here the transitions
    carry a history of the requests that came and the tasks that ran, and at
    every moment the tagged responses that the client was sent and the tasks that
    wait are accounted for by the requests. *)

From S2P Require Import Prelude Utf8 Utf7 Types Receiver ReceiverSpec Sequence Flags Wire Commands Parsers ParseSearch ParseFetch Tags.
From S2P Require Import Responses FetchWire Mime Jmap Store UidStore Modseq Synchronize BTree Mailboxes Folders SelectedMailbox.
From S2P Require Import Tasks SearchTask StatusTask AclTask FetchTask StoreTask CopyTask AppendTask ThreadTask ExpungeTask IdleTask.
From S2P Require Import SearchSpec Listing Sasl Session SessionSpec SessionProps Server Answers TaskAnswers Conversations Reachable.

(** What a connection has received and run: the requests; the tags of the
    erroneous ones; the requests of chunks with a STARTTLS, which drops what
    comes behind it; the tasks that have ended. *)
Record History := mkHistory {
  h_requests : list (Request Command); h_errors : list str; h_tls : list (Request Command); h_ran : list (Task nat)
}.

Section Accounting.
Context {W : Type} `{Sled W} `{Clock W} `{EmailClient W} `{MailboxClient W} `{FolderClient W} `{StatusClient W}.
Context `{SearchClient W} `{Limits W} `{FetchClient W} `{StoreClient W} `{CopyClient W} `{AppendClient W}.
Context `{ThreadClient W} `{AclClient W} `{ExpungeClient W} `{ChangesClient} `{Connection W}.
Context `{DebugFmt} `{Chrono} `{Md5} `{Charsets} `{Base64}.
Context (folder_shared folder_all cargo_pkg_version : str) (fuel : nat).

#[local] Instance accounted_here : Backend (Server W) := server_backend folder_shared folder_all fuel.

Abbreviation Conn := (@Conn (Server W) accounted_here).
Abbreviation waiting c := (map snd (sv_tasks (Session.world c))).
Implicit Types (c : Conn) (h : History).

(** A client in IDLE sends no requests. *)
Definition hear (s : Session (@SessionData _ accounted_here) (@Ref _ accounted_here)) (chunk : bytes) (upgrade : bool) (h : History) : History :=
  if s_idle s then h
  else
    let '(qs, ts) := requests_of s chunk in
    mkHistory (h_requests h ++ qs) (h_errors h ++ ts) (h_tls h ++ if upgrade then qs else []) (h_ran h).

Inductive talk (c0 : Conn) : History -> Conn -> Prop :=
| talk_start : talk c0 (mkHistory [] [] [] []) c0
| talk_read h c chunk upgrade c' :
    talk c0 h c -> on_read folder_shared cargo_pkg_version chunk c = (Ok upgrade, c') ->
    talk c0 (hear (session c) chunk upgrade h) (if upgrade then (set_stream_tls c').2 else c')
| talk_task h c before d t rest v' :
    talk c0 h c -> sv_tasks (Session.world c) = before ++ (d, t) :: rest ->
    run_task folder_shared folder_all fuel d t (with_tasks (before ++ rest) (Session.world c)) = (Ok tt, v') ->
    talk c0 (mkHistory (h_requests h) (h_errors h) (h_tls h) (h_ran h ++ [t])) (mkConn (session c) v' (trace c)).

Lemma talk_reachable c0 h c : talk c0 h c -> reachable folder_shared folder_all cargo_pkg_version fuel c0 c.
Proof.
  induction 1 as [|h c chunk upgrade c' _ IH E|h c before d t rest v' _ IH Ht E].
  - apply reachable_refl.
  - assert (Hr : reachable folder_shared folder_all cargo_pkg_version fuel c0 c').
    { eapply reachable_step; [exact IH|]. replace c' with (on_read folder_shared cargo_pkg_version chunk c).2 by by rewrite E. apply step_read. }
    destruct upgrade; [|done]. eapply reachable_step; [exact Hr|apply step_tls].
  - eapply reachable_step; [exact IH|]. pose proof (step_task folder_shared folder_all cargo_pkg_version fuel c _ _ _ _ Ht) as Hs.
    pose proof (f_equal snd E) as Ev. cbn in Ev. rewrite <- Ev. exact Hs.
Qed.

(** ** The books *)
Record balanced h c (tags silent : list str) (asked handled dropped : list (Request Command)) : Prop := {
  ba_sent : sent tags (sv_sent (Session.world c));
  ba_requests : Permutation (asked ++ handled ++ dropped) (h_requests h);
  ba_tags : Permutation (tags ++ silent ++ flat_map task_tags (waiting c)) (map req_tag handled ++ h_errors h);
  ba_asked : Forall (fun q => req_command q = Authenticate) asked /\ (length asked <= lines_asked (sv_sent (Session.world c)))%nat;
  ba_dropped : dropped ⊆+ h_tls h;
  ba_silent : silent ⊆+ flat_map may_be_silent (h_ran h)
}.

Lemma balanced_session s h c tags silent asked handled dropped :
  balanced h c tags silent asked handled dropped -> balanced h (mkConn s (Session.world c) (trace c)) tags silent asked handled dropped.
Proof. by intros []. Qed.

Lemma sent_app ts ts' xs ys : sent ts xs -> sent ts' ys -> sent (ts ++ ts') (xs ++ ys).
Proof. intros ??. unfold sent. rewrite map_app. by apply complete_app. Qed.

Lemma lines_asked_app xs ys : lines_asked (xs ++ ys) = (lines_asked xs + lines_asked ys)%nat.
Proof. unfold lines_asked. by rewrite List.filter_app, length_app. Qed.

Lemma ingest_events s v tr chunk upgrade c' :
  ingest folder_shared cargo_pkg_version chunk (mkConn s v tr) = (Ok upgrade, c') ->
  exists (es : list (Event nat)) xs, trace c' = tr ++ es /\ waiting c' = map snd (sv_tasks v) ++ started es /\
    sv_sent (Session.world c') = sv_sent v ++ xs /\ delivered es xs.
Proof.
  intros Hi. destruct (faithful_ingest _ _ _ _ _ _ _ _ Hi) as (es & Ht & Hs & xs & Ho & Hd). exists es, xs. by split_and!.
Qed.

(** A chunk adds its requests on one side, and answers, tasks, and what an
    upgrade drops on the other. *)
Lemma ingest_balanced h c chunk upgrade c' tags silent asked handled dropped :
  s_idle (session c) = false -> ingest folder_shared cargo_pkg_version chunk c = (Ok upgrade, c') ->
  balanced h c tags silent asked handled dropped ->
  exists tags' asked' handled' dropped',
    balanced (hear (session c) chunk upgrade h) c' (tags ++ tags') silent (asked ++ asked') (handled ++ handled') (dropped ++ dropped').
Proof.
  intros Hidle Hi [Hsent Hreq Htags [Hask Hn] Hdrop Hsil]. destruct c as [s v tr].
  destruct (ingest_events _ _ _ _ _ _ Hi) as (es & xs & Ht & Hs & Ho & Hd). cbn [trace Session.world session] in *.
  destruct (chunk_answered _ _ _ _ _ _ _ _ Hi) as (es' & qs & dropped' & Ht' & Hq & Hset & Hnone).
  assert (es' = es) as -> by exact (app_inv_head _ _ _ (eq_trans (eq_sym Ht') Ht)).
  destruct Hset as (asked' & handled' & ts & Hqs & Hask' & Hn' & Hc & Hts).
  destruct (complete_delivered _ _ _ Hc Hd) as (tags' & Hsent' & Htags').
  exists tags', asked', handled', dropped'. unfold hear. rewrite Hidle.
  destruct (requests_of s chunk) as [new errors]. cbn [fst snd] in *.
  split; cbn [h_requests h_errors h_tls h_ran].
  - rewrite Ho. by apply sent_app.
  - rewrite <- Hreq, <- Hq, <- Hqs. solve_Permutation.
  - rewrite Hs, flat_map_app. rewrite map_app. 
    transitivity ((tags ++ silent ++ flat_map task_tags (map snd (sv_tasks v))) ++ tags' ++ flat_map task_tags (started es)).
    { solve_Permutation. }
    rewrite Htags, <- Htags', Hts. solve_Permutation.
  - split; [by apply Forall_app|]. rewrite Ho, lines_asked_app, length_app.
    rewrite (Nat.add_le_mono _ _ _ _ Hn (Nat.le_trans _ _ _ Hn' (delivered_lines folder_shared folder_all fuel es xs Hd))). done.
  - destruct upgrade; [|rewrite (Hnone eq_refl), !app_nil_r; done].
    apply submseteq_app; [done|]. rewrite <- Hq. apply submseteq_inserts_l. done.
  - done.
Qed.

(** A task moves its tags from the queue to the answers. *)
Lemma task_balanced h c before d t rest v' tags silent asked handled dropped :
  sv_tasks (Session.world c) = before ++ (d, t) :: rest ->
  run_task folder_shared folder_all fuel d t (with_tasks (before ++ rest) (Session.world c)) = (Ok tt, v') ->
  balanced h c tags silent asked handled dropped ->
  exists tags' silent', balanced (mkHistory (h_requests h) (h_errors h) (h_tls h) (h_ran h ++ [t])) (mkConn (session c) v' (trace c))
    (tags ++ tags') (silent ++ silent') asked handled dropped.
Proof.
  intros Ht E [Hsent Hreq Htags [Hask Hn] Hdrop Hsil].
  destruct (task_runs _ _ _ _ _ _ _ E) as (xs & tags' & silent' & Ho & Hsent' & Hp & Hsil').
  destruct (run_task_settles _ _ _ _ _ _ _ _ E) as [[Hq _ _ _] _]. cbn in Ho, Hq.
  exists tags', silent'. split; cbn [h_requests h_errors h_tls h_ran Session.world].
  - rewrite Ho. by apply sent_app.
  - done.
  - rewrite <- Htags, Ht, Hq, !map_app, !flat_map_app. cbn [map flat_map snd]. rewrite <- Hp. solve_Permutation.
  - split; [done|]. rewrite Ho, lines_asked_app. lia.
  - done.
  - rewrite flat_map_app. cbn. rewrite app_nil_r. by apply submseteq_app.
Qed.

Lemma talk_balanced c0 h c : talk c0 h c -> sv_sent (Session.world c0) = [] -> sv_tasks (Session.world c0) = [] ->
  exists tags silent asked handled dropped, balanced h c tags silent asked handled dropped.
Proof.
  intros Ht Hs0 Ht0. induction Ht as [|h c chunk upgrade c' _ IH E|h c before d t rest v' _ IH Ht E].
  - exists [], [], [], [], []. split; rewrite ?Hs0, ?Ht0; cbn; (done || constructor).
  - destruct IH as (tags & silent & asked & handled & dropped & Hb).
    cut (exists tags silent asked handled dropped, balanced (hear (session c) chunk upgrade h) c' tags silent asked handled dropped).
    { intros (ts & sl & a & hd & dr & Hb'). exists ts, sl, a, hd, dr. destruct upgrade; [by apply balanced_session|done]. }
    destruct (s_idle (session c)) eqn:Ei.
    + exists tags, silent, asked, handled, dropped. unfold hear. rewrite Ei. revert E. unfold on_read, bindM at 1, get_session. rewrite Ei.
      destruct (starts_with _ _); intros [= <- <-]; [by apply balanced_session|done].
    + revert E. unfold on_read, bindM at 1, get_session. rewrite Ei. intros E.
      destruct (ingest_balanced _ _ _ _ _ _ _ _ _ _ Ei E Hb) as (ts & a & hd & dr & Hb'). eauto 10.
  - destruct IH as (tags & silent & asked & handled & dropped & Hb).
    destruct (task_balanced _ _ _ _ _ _ _ _ _ _ _ _ Ht E Hb) as (ts & sl & Hb'). eauto 10.
Qed.

(** ** The property *)

End Accounting.

(** ** A conversation of three chunks, with its tasks out of order *)
#[local] Existing Instances Server.Demo.store Server.Demo.clock Server.Demo.debug Server.Demo.chrono Server.Demo.md5
  Server.Demo.charsets Server.Demo.base64
  Server.Demo.limits Server.Demo.changes_client Server.Demo.email_client Server.Demo.search_client Server.Demo.mailbox_client
  Server.Demo.status_client Server.Demo.fetch_client Server.Demo.store_client Server.Demo.expunge_client
  Server.Demo.folder_client Server.Demo.copy_client Server.Demo.append_client Server.Demo.thread_client Server.Demo.acl_client
  Server.Demo.connection.

Module Talk.
Abbreviation here_talk := (talk Server.Demo.shared Server.Demo.all_mail (b "1") 10 Conversation.here).

(** The chunks are read one after the other; is every one read without an
    error or an upgrade? *)
Fixpoint read_all (chunks : list bytes) (c : @Conn (Server Server.Demo.World) Server.Demo.backend) (h : History) :=
  match chunks with
  | [] => (c, h, true)
  | chunk :: chunks' =>
      match on_read Server.Demo.shared (b "1") chunk c with
      | (Ok false, c') => read_all chunks' c' (hear Server.Demo.shared Server.Demo.all_mail 10 (session c) chunk false h)
      | _ => (c, h, false)
      end
  end.

Lemma reads chunks : forall c h, here_talk h c -> here_talk (read_all chunks c h).1.2 (read_all chunks c h).1.1.
Proof.
  induction chunks as [|chunk chunks IH]; intros c h Ht; cbn [read_all fst snd]; [done|].
  destruct (on_read _ _ _ _) as [[[]|e| |] c'] eqn:E; try done. apply IH. exact (talk_read _ _ _ _ _ _ _ _ false _ Ht E).
Qed.

Lemma runs h c i d t : here_talk h c -> sv_tasks (Session.world c) !! i = Some (d, t) ->
  (let l := sv_tasks (Session.world c) in
   run_task Server.Demo.shared Server.Demo.all_mail 10 d t (with_tasks (take i l ++ drop (S i) l) (Session.world c))).1 = Ok tt ->
  here_talk (mkHistory (h_requests h) (h_errors h) (h_tls h) (h_ran h ++ [t])) (run_nth Server.Demo.shared Server.Demo.all_mail 10 i c).
Proof.
  intros Ht Hi Hr. unfold run_nth. cbv zeta in *.
  lazymatch goal with |- context [match ?x with _ => _ end] => replace x with (Some (d, t)) by (symmetry; exact Hi) end. destruct (run_task _ _ _ _ _ _) as [r v'] eqn:E. cbn in Hr. subst r.
  eapply talk_task; [exact Ht| |exact E]. by rewrite take_drop_middle.
Qed.

(** LOGIN, SELECT, then three commands at once, of which the last is unknown;
    of the two tasks the second runs. *)
Definition three_chunks : list bytes :=
  [Server.Demo.line "A1 LOGIN john secret"; Server.Demo.line "A2 SELECT INBOX";
   SessionProps.Demo.lines ["A3 STORE 1 +FLAGS (\Deleted)"; "A4 SEARCH RETURN (SAVE) ALL"; "A5 FOO"]%string].
Abbreviation heard := (read_all three_chunks Conversation.here (mkHistory [] [] [] [])).
Abbreviation after := (run_nth Server.Demo.shared Server.Demo.all_mail 10 1 heard.1.1).

(** When there was no AUTHENTICATE and no STARTTLS, and no task that may be
    silent has run, only the tasks that wait are open. *)
Lemma nothing_silent h ran waits tags silent asked handled dropped :
  forallb (fun q => bool_decide (req_command q <> Authenticate)) (h_requests h) = true -> h_tls h = [] -> flat_map may_be_silent ran = [] ->
  Permutation (asked ++ handled ++ dropped) (h_requests h) ->
  Permutation (tags ++ silent ++ waits) (map req_tag handled ++ h_errors h) ->
  Forall (fun q => req_command q = Authenticate) asked -> dropped ⊆+ h_tls h -> silent ⊆+ flat_map may_be_silent ran ->
  Permutation (tags ++ waits) (map req_tag (h_requests h) ++ h_errors h).
Proof.
  intros Enone Etls Eran Hq Hp Ha Hd Hsil.
  rewrite Eran in Hsil. apply submseteq_nil_r in Hsil. subst silent.
  rewrite Etls in Hd. apply submseteq_nil_r in Hd. subst dropped. rewrite app_nil_r in Hq.
  assert (asked = []) as ->.
  { destruct asked as [|q asked]; [done|]. apply Forall_inv in Ha.
    pose proof (proj1 (forallb_forall _ _) Enone q (Permutation_in _ Hq (or_introl eq_refl))) as Hno. cbn beta in Hno.
    by rewrite Ha in Hno. }
  by rewrite <- Hq.
Qed.
End Talk.

