(* ===== verification/Sieve.v ===== *)
(** * ManageSieve: commands and responses ([src/managesieve/mod.rs])

    The commands of the second protocol, as the request receiver reads them,
    its responses, and the response for every error of the JMAP client
    ([src/managesieve/commands/mod.rs]).  The names are those of the source,
    where they are the same as in the IMAP part. *)

From S2P Require Import Prelude Utf8 Utf7 Types Receiver Jmap.

Inductive Command :=
| Authenticate | StartTls | Logout | Capability | HaveSpace | PutScript | ListScripts | SetActive | GetScript
| DeleteScript | RenameScript | CheckScript | Noop | Unauthenticate.

#[export] Instance Command_eq_dec : EqDecision Command.
Proof. solve_decision. Defined.

(** [Command::parse] *)
Definition command_of_bytes (value : bytes) (_is_uid : bool) : option Command :=
  if bytes_eqb value (b "AUTHENTICATE") then Some Authenticate
  else if bytes_eqb value (b "STARTTLS") then Some StartTls
  else if bytes_eqb value (b "LOGOUT") then Some Logout
  else if bytes_eqb value (b "CAPABILITY") then Some Capability
  else if bytes_eqb value (b "HAVESPACE") then Some HaveSpace
  else if bytes_eqb value (b "PUTSCRIPT") then Some PutScript
  else if bytes_eqb value (b "LISTSCRIPTS") then Some ListScripts
  else if bytes_eqb value (b "SETACTIVE") then Some SetActive
  else if bytes_eqb value (b "GETSCRIPT") then Some GetScript
  else if bytes_eqb value (b "DELETESCRIPT") then Some DeleteScript
  else if bytes_eqb value (b "RENAMESCRIPT") then Some RenameScript
  else if bytes_eqb value (b "CHECKSCRIPT") then Some CheckScript
  else if bytes_eqb value (b "NOOP") then Some Noop
  else if bytes_eqb value (b "UNAUTHENTICATE") then Some Unauthenticate
  else None.

#[export] Instance sieve_command_parser : CommandParser Command := {
  command_parse := command_of_bytes; tokenize_brackets _ := false; command_default := Noop
}.

Inductive ResponseType := RtOk | RtNo | RtBye.

#[export] Instance ResponseType_eq_dec : EqDecision ResponseType.
Proof. solve_decision. Defined.

Inductive ResponseCode :=
| AuthTooWeak | EncryptNeeded | Quota | QuotaMaxScripts | QuotaMaxSize | Referral | Sasl | TransitionNeeded
| TryLater | Active | NonExistent | AlreadyExists | RcTag (t : str) | Warnings.

(** The message is kept in the pieces it is put together from. *)
Record StatusResponse := mkStatus { code : option ResponseCode; message : list Piece; rtype : ResponseType }.

Definition no (m : list Piece) : StatusResponse := mkStatus None m RtNo.
Definition ok (m : list Piece) : StatusResponse := mkStatus None m RtOk.
Definition bye (m : list Piece) : StatusResponse := mkStatus None m RtBye.
Definition with_code (r : StatusResponse) (c : ResponseCode) : StatusResponse := mkStatus (Some c) (message r) (rtype r).

Definition response_code_serialize (c : ResponseCode) : bytes :=
  match c with
  | AuthTooWeak => b "AUTH-TOO-WEAK"
  | EncryptNeeded => b "ENCRYPT-NEEDED"
  | Quota => b "QUOTA"
  | QuotaMaxScripts => b "QUOTA/MAXSCRIPTS"
  | QuotaMaxSize => b "QUOTA/MAXSIZE"
  | Referral => b "REFERRAL"
  | Sasl => b "SASL"
  | TransitionNeeded => b "TRANSITION-NEEDED"
  | TryLater => b "TRYLATER"
  | Active => b "ACTIVE"
  | NonExistent => b "NONEXISTENT"
  | AlreadyExists => b "ALREADYEXISTS"
  | RcTag t => b "TAG {" ++ dec (Z.of_nat (length t)) ++ b "}" ++ CRLF ++ t
  | Warnings => b "WARNINGS"
  end.

Definition response_type_serialize (t : ResponseType) : bytes :=
  match t with RtOk => b "OK" | RtNo => b "NO" | RtBye => b "BYE" end.

(** The loop over [message.as_bytes()]: a backslash before quotes and backslashes. *)
Definition escaped (m : bytes) : bytes :=
  flat_map (fun ch => if (ch =? DQUOTE) || (ch =? BACKSLASH) then [BACKSLASH; ch] else [ch]) m.

(** [StatusResponse::serialize] appends to [buf]. *)
Definition serialize `{DebugFmt} (r : StatusResponse) (buf : bytes) : bytes :=
  buf ++ response_type_serialize (rtype r) ++
  match code r with Some c => b " (" ++ response_code_serialize c ++ b ")" | None => [] end ++
  (if negb (bool_decide (render (message r) = [])) then b " " ++ [DQUOTE] ++ escaped (render (message r)) ++ [DQUOTE] else []) ++
  CRLF.

Definition into_bytes `{DebugFmt} (r : StatusResponse) : bytes := serialize r [].

(** ** [impl IntoStatusResponse for jmap_client::Error] *)
Definition problem_response (err : ProblemDetails) : option ResponseCode * list Piece :=
  match problem_error err with
  | ProblemJMAP UnknownCapability => (None, msg "JMAP capability unknown.")
  | ProblemJMAP NotJSON => (None, msg "JMAP server failed to parse JSON request.")
  | ProblemJMAP NotRequest => (None, msg "JMAP server could not process the request.")
  | ProblemJMAP JMAPLimit => (Some Quota, limit_message (default (b "other") (problem_limit err)))
  | ProblemOther =>
      let status := default 0 (problem_status err) in
      if status =? 403 then (None, msg "You do not have enough permissions to perform this action.")
      else if status =? 429 then (Some Quota, msg "Too many requests, please try again later.")
      else (None, [PStr (b "Server error, "); PStr (default (b "unknown.") (problem_detail err))])
  end.

Definition method_response (e : MethodErrorType) : option ResponseCode * list Piece :=
  match e with
  | ServerUnavailable => (Some TryLater, msg "Server unavailable.")
  | ServerFail => (Some TryLater, msg "Server failed.")
  | ServerPartialFail => (Some TryLater, msg "Partial server failure.")
  | UnknownMethod => (None, msg "Unknown JMAP Method.")
  | InvalidArguments => (None, msg "Invalid arguments.")
  | InvalidResultReference => (None, msg "Invalid result reference.")
  | MForbidden => (None, msg "Access forbidden.")
  | AccountNotFound => (Some NonExistent, msg "Account not found.")
  | AccountNotSupportedByMethod => (None, msg "Action not supported on this account.")
  | AccountReadOnly => (None, msg "Account is read only.")
  | RequestTooLarge => (Some Quota, msg "Request is too large.")
  | CannotCalculateChanges => (None, msg "Cannot calculate changes.")
  | StateMismatch => (None, msg "State mismatch.")
  | MAlreadyExists => (Some AlreadyExists, msg ".")
  | FromAccountNotFound => (Some NonExistent, msg "Source account not found.")
  | FromAccountNotSupportedByMethod => (None, msg "Action not supported on source account.")
  | AnchorNotFound => (None, msg "Anchor not found.")
  | UnsupportedSort => (None, msg "Sort criteria not supported by the server.")
  | UnsupportedFilter => (None, msg "Filter not supported by the server.")
  | TooManyChanges => (Some Quota, msg "Too many changes.")
  end.

Definition set_response (e : SetErrorType) (description : option str) : option ResponseCode * list Piece :=
  match e with
  | SForbidden => (None, msg "You don't have enough permissions.")
  | SOverQuota => (Some Quota, msg "You have exceeded your quota.")
  | TooLarge => (Some Quota, msg "Request is too large.")
  | RateLimit => (Some Quota, msg "Too many requests, please try again later.")
  | NotFound => (Some NonExistent, msg "Not found.")
  | InvalidPatch => (None, msg "Operation not supported by the server.")
  | WillDestroy => (None, msg "Item will be destroyed.")
  | InvalidProperties => (None, match description with Some d => [PStr d] | None => msg "Invalid properties." end)
  | Singleton => (None, msg "Failed operation on singleton.")
  | MailboxHasChild => (None, msg "Mailbox has children and cannot be deleted.")
  | MailboxHasEmail => (None, msg "Mailbox has messages and cannot be deleted.")
  | BlobNotFound => (Some NonExistent, msg "One or more message parts are not available for retrieval.")
  | TooManyKeywords => (Some Quota, msg "Too many keywords.")
  | TooManyMailboxes => (Some Quota, msg "Too many mailboxes.")
  | ForbiddenFrom => (None, msg "From address is not allowed.")
  | InvalidEmail => (None, msg "Invalid e-mail address.")
  | TooManyRecipients => (Some Quota, msg "Too many recipients.")
  | NoRecipients => (None, msg "No recipients speficied.")
  | InvalidRecipients => (None, msg "One or more recipients are invalid.")
  | ForbiddenMailFrom => (None, msg "Mail from is forbidden.")
  | ForbiddenToSend => (None, msg "Sending is not allowed.")
  | CannotUnsend => (None, msg "Cannot unsend.")
  | SAlreadyExists => (Some AlreadyExists, msg "The referenced script name already exists.")
  | InvalidScript => (None, match description with Some d => [PStr d] | None => msg "Invalid script" end)
  | ScriptIsActive => (Some Active, msg "You may not delete an active script.")
  end.

Definition into_status_response (e : JmapError) : StatusResponse :=
  let '(code, message) :=
    match e with
    | Transport => (None, msg "Could not connect to JMAP server.")
    | ParseError => (None, msg "Failed to parse JMAP server response.")
    | Internal _ => (None, msg "Internal Error.")
    | Problem err => problem_response err
    | Server err => (Some TryLater, [PStr (b "Server error, "); PStr err])
    | Method err => method_response err
    | SetError err description => set_response err description
    | WebSocket => (None, msg "WebSockets protocol error.")
    end in
  match code with
  | Some code => with_code (no message) code
  | None => no message
  end.

Lemma sieve_into_status_response_no e : rtype (into_status_response e) = RtNo.
Proof. unfold into_status_response. by destruct (match e with Transport => _ | _ => _ end) as [[c|] m]. Qed.
