(* ===== verification/SieveSession.v ===== *)
(** * ManageSieve: a connection

    [src/managesieve/client.rs] (the session, which commands each state allows,
    the dispatch of a chunk of input), the handlers of
    [src/managesieve/commands/*.rs] and the loop of
    [src/managesieve/connection.rs].  The JMAP client and the writer are the
    class [SieveBackend]. *)

From S2P Require Import Prelude Utf8 Utf7 Types Receiver Wire Jmap Store Sasl Sieve.

(** What the JMAP server says of its Sieve support. *)
Record SieveCapabilities := mkSieveCapabilities {
  sieve_extensions : list str; notification_methods : option (list str); max_number_redirects : option Z }.

(** The calls of the JMAP client library, and the writer's channel. *)
Class SieveBackend (W : Type) := {
  SieveClient : Type;
  sieve_connect : Credentials -> M W SieveClient;
  sieve_capabilities : SieveClient -> option SieveCapabilities;
  sieve_script_query : SieveClient -> str -> EM W JmapError (list str);
  sieve_script_activate : SieveClient -> str -> EM W JmapError unit;
  sieve_script_deactivate : SieveClient -> EM W JmapError unit;
  sieve_script_get : SieveClient -> str -> EM W JmapError (option (option str));   (* the blob id *)
  download : SieveClient -> str -> EM W JmapError bytes;
  sieve_script_create : SieveClient -> str -> bytes -> bool -> EM W JmapError unit;
  sieve_script_destroy : SieveClient -> str -> EM W JmapError unit;
  sieve_script_rename : SieveClient -> str -> str -> bool -> EM W JmapError unit;
  sieve_script_validate : SieveClient -> bytes -> EM W JmapError unit;
  get_sieve_script : SieveClient -> EM W JmapError (list (option str * bool));     (* name and is_active *)
  sieve_send : bytes -> M W unit;
  sieve_set_stream : M W unit;
  sieve_recover_stream : M W unit
}.

Inductive SieveState (Client : Type) :=
| NotAuthenticated (auth_failures : Z)
| Authenticated (client : Client).
Arguments NotAuthenticated {Client} _.
Arguments Authenticated {Client} _.

Record Session (Client : Type) := mkSession {
  s_receiver : Receiver Command; s_state : SieveState Client; s_is_tls : bool }.
Arguments mkSession {Client} _ _ _.
Arguments s_receiver {Client} _.
Arguments s_state {Client} _.
Arguments s_is_tls {Client} _.

(** What the connection did, in order. *)
Inductive Event := Wrote (x : bytes) | Connecting (credentials : Credentials).

Definition EXTENSIONS_ALL : bytes :=
  [DQUOTE] ++ b "SIEVE" ++ [DQUOTE] ++ b " " ++ [DQUOTE] ++
  b "body comparator-elbonia comparator-i;ascii-casemap comparator-i;ascii-numeric comparator-i;octet convert copy date duplicate editheader enclose encoded-character enotify envelope envelope-deliverby envelope-dsn environment ereject extlists extracttext fcc fileinto foreverypart ihave imap4flags imapsieve include index mailbox mailboxid mboxmetadata mime redirect-deliverby redirect-dsn regex reject relational replace servermetadata spamtest spamtestplus special-use subaddress vacation vacation-seconds variables virustest" ++
  [DQUOTE] ++ CRLF.

(** [l.join(" ")] *)
Fixpoint join_sp (l : list str) : str :=
  match l with
  | [] => []
  | [x] => x
  | x :: l => x ++ b " " ++ join_sp l
  end.

(** A capability line: the name and its value in quotes. *)
Definition capability_line (name value : bytes) : bytes :=
  [DQUOTE] ++ name ++ [DQUOTE] ++ b " " ++ [DQUOTE] ++ value ++ [DQUOTE] ++ CRLF.

Section Session.
Context {W : Type} `{SieveBackend W} `{DebugFmt} `{Base64}.
(** [env!("CARGO_PKG_VERSION")] *)
Context (cargo_pkg_version : str).

Record Conn := mkConn { session : Session SieveClient; world : W; trace : list Event }.

(** A handler answers with [Err] to an error that is still to be written. *)
Abbreviation Handler := (EM Conn StatusResponse).
Abbreviation C := (M Conn).

Definition get_session {E} : EM Conn E (Session SieveClient) := fun c => (Ok (session c), c).
Definition put_session {E} (s : Session SieveClient) : EM Conn E unit := fun c => (Ok tt, mkConn s (world c) (trace c)).
Definition log {E} (e : Event) : EM Conn E unit := fun c => (Ok tt, mkConn (session c) (world c) (trace c ++ [e])).
Definition on_world {E A} (m : EM W E A) : EM Conn E A := fun c =>
  let '(r, w) := m (world c) in (r, mkConn (session c) w (trace c)).
Definition jmap {A} (m : EM W JmapError A) : Handler A := map_errM into_status_response (on_world m).

Definition set_state (s : Session SieveClient) (st : SieveState SieveClient) : Session SieveClient :=
  mkSession (s_receiver s) st (s_is_tls s).
Definition set_receiver (s : Session SieveClient) (r : Receiver Command) : Session SieveClient :=
  mkSession r (s_state s) (s_is_tls s).
Definition set_tls (s : Session SieveClient) : Session SieveClient := mkSession (s_receiver s) (s_state s) true.
Definition modify {E} (f : Session SieveClient -> Session SieveClient) : EM Conn E unit :=
  do* s := get_session in put_session (f s).

(** [Session::new] *)
Definition new_session (max_request_size : Z) (is_tls : bool) : Session SieveClient :=
  mkSession (new_receiver max_request_size (CommandName false)) (NotAuthenticated 0) is_tls.

(** [self.write_bytes(x).await?], and [self.write_bytes(x).await.is_ok()] *)
Definition write_bytes (x : bytes) : C unit := do* _ := log (Wrote x) in on_world (sieve_send x).
Definition write_ok (x : bytes) : Handler bool :=
  do* r := attempt (write_bytes x) in ret (match r with Ok _ => true | _ => false end).
Definition answer (r : StatusResponse) : Handler bool := write_ok (into_bytes r).

Definition client : Handler SieveClient :=
  do* s := get_session in
  match s_state s with
  | Authenticated client => ret client
  | NotAuthenticated _ => lift Panic
  end.

(** [self.get_script_id(name)]: the last id of the result of the query *)
Definition get_script_id (name : str) : Handler str :=
  do* client := client in
  do* ids := jmap (sieve_script_query client name) in
  lift (ok_or (list.last ids) (with_code (no (msg "There is no script by that name")) NonExistent)).

(** [tokens.next().and_then(|s| s.unwrap_string().ok()).ok_or_else(..)] *)
Definition string_argument (tokens : list Token) (missing : list Piece) : Res StatusResponse str :=
  match tokens with
  | token :: _ => ok_or (ok_of (unwrap_string token)) (no missing)
  | [] => Err (no missing)
  end.
(** What is left after [tokens.next()]. *)
Definition rest_of (tokens : list Token) : list Token := tl tokens.

(** ** The commands *)
Definition capability_response (s : Session SieveClient) : Res StatusResponse bytes :=
  let head :=
    capability_line (b "IMPLEMENTATION") (b "Stalwart ManageSieve v" ++ cargo_pkg_version) ++
    capability_line (b "VERSION") (b "1.0") ++
    (if negb (s_is_tls s) then capability_line (b "SASL") [] ++ [DQUOTE] ++ b "STARTTLS" ++ [DQUOTE] ++ CRLF
     else capability_line (b "SASL") (b "PLAIN OAUTHBEARER")) in
  match s_state s with
  | Authenticated client =>
      let* sieve := unwrap (sieve_capabilities client) in
      Ok (head ++ capability_line (b "SIEVE") (join_sp (sieve_extensions sieve)) ++
          match notification_methods sieve with Some l => capability_line (b "NOTIFY") (join_sp l) | None => [] end ++
          match max_number_redirects sieve with Some n => capability_line (b "MAXREDIRECTS") (dec n) | None => [] end)
  | NotAuthenticated _ => Ok (head ++ EXTENSIONS_ALL)
  end.

Definition handle_capability (m : list Piece) : Handler bool :=
  do* s := get_session in
  do* response := lift (capability_response s) in
  write_ok (serialize (ok m) response).

(** The receiver is left in the middle of the same AUTHENTICATE request. *)
Definition resume_authenticate (m : Mechanism) (s : Session SieveClient) : Session SieveClient :=
  set_receiver s
    (Receiver.set_state (set_request (s_receiver s) (mkRequest [] Authenticate [Argument (mechanism_serialize m)])) (ArgumentState SP)).

(** Connecting to the JMAP server with the credentials of the client. *)
Definition authenticate (credentials : Credentials) : Handler bool :=
  do* _ := log (Connecting credentials) in
  do* r := attempt (on_world (sieve_connect credentials)) in
  match r with
  | Ok client =>
      match sieve_capabilities client with
      | Some _ =>
          do* _ := modify (fun s => set_state s (Authenticated client)) in
          handle_capability (msg "Authentication successful")
      | None =>
          do* _ := answer (bye (msg "JMAP over Sieve is not supported by the JMAP server.")) in ret false
      end
  | _ =>
      do* s := get_session in
      match s_state s with
      | NotAuthenticated auth_failures =>
          if auth_failures <? 3 then
            do* _ := put_session (set_state s (NotAuthenticated (auth_failures + 1))) in
            lift (Err (no (msg "Authentication failed")))
          else
            do* _ := answer (bye (msg "Too many authentication failures")) in ret false
      | Authenticated _ => lift Panic
      end
  end.

Definition handle_authenticate (tokens : list Token) : Handler bool :=
  match tokens with
  | [] => lift (Err (no (msg "Authentication mechanism missing.")))
  | token :: tokens =>
      do* mechanism := lift (map_err no (mechanism_parse (unwrap_bytes token))) in
      let params := omap (fun token => ok_of (unwrap_string token)) tokens in
      match mechanism with
      | Plain | OAuthBearer =>
          match list.last params with
          | Some param =>
              do* challenge := lift (ok_or (base64_decode param) (no (msg "Failed to decode challenge."))) in
              do* credentials := lift (map_err no (decode_challenge mechanism challenge)) in
              authenticate credentials
          | None =>
              do* _ := modify (resume_authenticate mechanism) in
              write_ok (b "{0}" ++ CRLF)
          end
      | _ => lift (Err (no (msg "Authentication mechanism not supported.")))
      end
  end.

Definition handle_unauthenticate : Handler bool :=
  do* _ := modify (fun s => set_state s (NotAuthenticated 0)) in
  answer (ok (msg "Unauthenticate successful.")).

Definition handle_checkscript (tokens : list Token) : Handler bool :=
  match tokens with
  | [] => lift (Err (no (msg "Expected script as a parameter.")))
  | token :: _ =>
      do* client := client in
      do* _ := jmap (sieve_script_validate client (unwrap_bytes token)) in
      answer (ok (msg "Script is valid."))
  end.

Definition EXPECTED_NAME : list Piece := msg "Expected script name as a parameter.".

Definition handle_deletescript (tokens : list Token) : Handler bool :=
  do* name := lift (string_argument tokens EXPECTED_NAME) in
  do* client := client in
  do* id := get_script_id name in
  do* _ := jmap (sieve_script_destroy client id) in
  answer (ok (msg "Deleted.")).

Definition handle_getscript (tokens : list Token) : Handler bool :=
  do* name := lift (string_argument tokens EXPECTED_NAME) in
  do* client := client in
  do* id := get_script_id name in
  do* script := jmap (sieve_script_get client id) in
  do* script := lift (ok_or script (with_code (no (msg "Script not found")) NonExistent)) in
  do* blob_id := lift (ok_or script (with_code (no (msg "BlobId not included in response")) NonExistent)) in
  do* script := jmap (download client blob_id) in
  write_ok (serialize (ok []) (b "{" ++ dec (Z.of_nat (length script)) ++ b "}" ++ CRLF ++ script)).

Definition handle_havespace (tokens : list Token) : Handler bool :=
  do* _ := lift (string_argument tokens EXPECTED_NAME) in
  do* size := lift (string_argument (rest_of tokens) (msg "Expected script size as a parameter.")) in
  do* _ := lift (ok_or (parse_uint 64 size) (no (msg "Invalid size parameter."))) in
  answer (ok []).

Definition script_line (script : option str * bool) : bytes :=
  [DQUOTE] ++ match script.1 with Some name => escaped name | None => [] end ++
  (if script.2 then [DQUOTE] ++ b " ACTIVE" ++ CRLF else [DQUOTE] ++ CRLF).

Definition handle_listscripts : Handler bool :=
  do* client := client in
  do* scripts := jmap (get_sieve_script client) in
  write_ok (serialize (ok []) (flat_map script_line scripts)).

Definition handle_logout : Handler bool :=
  do* _ := answer (bye [PStr (b "Stalwart ManageSieve v"); PStr cargo_pkg_version; PStr (b " bids you farewell.")]) in
  ret false.

Definition handle_noop (tokens : list Token) : Handler bool :=
  answer
    (match tokens with
     | token :: _ =>
         match ok_of (unwrap_string token) with
         | Some t => with_code (ok (msg "Done")) (RcTag t)
         | None => ok (msg "Done")
         end
     | [] => ok (msg "Done")
     end).

Definition handle_putscript (tokens : list Token) : Handler bool :=
  do* name := lift (string_argument tokens EXPECTED_NAME) in
  do* script := lift (ok_or (head (rest_of tokens)) (no (msg "Expected script as a parameter."))) in
  do* client := client in
  do* _ := jmap (sieve_script_create client name (unwrap_bytes script) false) in
  answer (ok (msg "Success.")).

Definition handle_renamescript (tokens : list Token) : Handler bool :=
  do* name := lift (string_argument tokens (msg "Expected old script name as a parameter.")) in
  do* new_name := lift (string_argument (rest_of tokens) (msg "Expected new script name as a parameter.")) in
  do* client := client in
  do* id := get_script_id name in
  do* _ := jmap (sieve_script_rename client id new_name false) in
  answer (ok (msg "Success.")).

Definition handle_setactive (tokens : list Token) : Handler bool :=
  do* name := lift (string_argument tokens EXPECTED_NAME) in
  do* client := client in
  do* _ :=
    if negb (bool_decide (name = [])) then
      do* id := get_script_id name in jmap (sieve_script_activate client id)
    else jmap (sieve_script_deactivate client) in
  answer (ok (msg "Success")).

(** [true]: the stream is handed over to the TLS acceptor. *)
Definition handle_starttls : C bool :=
  do* _ := write_bytes (into_bytes (ok (msg "Begin TLS negotiation now"))) in
  do* _ := on_world sieve_recover_stream in
  ret true.

(** ** [Session::ingest] *)

(** [Request::is_allowed], outside of test builds *)
Definition is_allowed (request : Request Command) (st : SieveState SieveClient) (is_tls : bool)
  : Res StatusResponse (Request Command) :=
  match req_command request with
  | Capability | Logout | Noop => Ok request
  | Authenticate =>
      match st with
      | NotAuthenticated _ =>
          if is_tls then Ok request
          else Err (with_code (no (msg "Cannot authenticate over plain-text.")) EncryptNeeded)
      | Authenticated _ => Err (no (msg "Already authenticated."))
      end
  | StartTls => if negb is_tls then Ok request else Err (no (msg "Already in TLS mode."))
  | HaveSpace | PutScript | ListScripts | SetActive | GetScript | DeleteScript | RenameScript | CheckScript | Unauthenticate =>
      match st with
      | Authenticated _ => Ok request
      | NotAuthenticated _ => Err (no (msg "Not authenticated."))
      end
  end.

(** The handler of a command; STARTTLS is not handled here, but in the loop below. *)
Definition handle (request : Request Command) : Handler bool :=
  let tokens := req_tokens request in
  match req_command request with
  | ListScripts => handle_listscripts
  | PutScript => handle_putscript tokens
  | SetActive => handle_setactive tokens
  | GetScript => handle_getscript tokens
  | DeleteScript => handle_deletescript tokens
  | RenameScript => handle_renamescript tokens
  | CheckScript => handle_checkscript tokens
  | HaveSpace => handle_havespace tokens
  | Capability => handle_capability []
  | Authenticate => handle_authenticate tokens
  | Logout => handle_logout
  | Noop | StartTls => handle_noop tokens
  | Unauthenticate => handle_unauthenticate
  end.

(** The second loop. *)
Fixpoint dispatch (requests : list (Request Command)) : C bool :=
  match requests with
  | [] => ret false
  | request :: requests =>
      if decide (req_command request = StartTls) then handle_starttls
      else
        do* result := attempt (handle request) in
        match result with
        | Ok true => dispatch requests
        | Ok false => lift (Err tt)
        | Err response => do* _ := write_bytes (into_bytes response) in dispatch requests
        | Panic => lift Panic
        | NoFuel => lift NoFuel
        end
  end.

(** The first loop: the requests of the chunk that the state allows. *)
Fixpoint collect (fuel : nat) (chunk : bytes) : C (list (Request Command) * option Z) :=
  match fuel with
  | O => lift NoFuel
  | S fuel =>
      do* s := get_session in
      let '(receiver, res, rest) := parse (s_receiver s) chunk in
      do* _ := put_session (set_receiver s receiver) in
      match res with
      | Ok request =>
          match is_allowed request (s_state s) (s_is_tls s) with
          | Ok request =>
              do* (requests, needs_literal) := collect fuel rest in ret (request :: requests, needs_literal)
          | Err response => do* _ := write_bytes (into_bytes response) in collect fuel rest
          | Panic => lift Panic
          | NoFuel => lift NoFuel
          end
      | Err NeedsMoreData => ret ([], None)
      | Err (NeedsLiteral size) => ret ([], Some size)
      | Err (ErrorResponse response) => do* _ := write_bytes (into_bytes (no (Types.message response))) in ret ([], None)
      | Panic => lift Panic
      | NoFuel => lift NoFuel
      end
  end.

Definition ingest (chunk : bytes) : C bool :=
  do* (requests, needs_literal) := collect (S (length chunk)) chunk in
  do* upgrade := dispatch requests in
  if upgrade then ret true
  else
    match needs_literal with
    | Some size => do* _ := write_bytes (b "OK Ready for " ++ dec size ++ b " bytes." ++ CRLF) in ret false
    | None => ret false
    end.

(** ** The loop of [src/managesieve/connection.rs] *)

(** What [tokio::select!] waits for: a read, its error or its timeout, and the
    shutdown of the server. *)
Inductive Input := Read (chunk : bytes) | ReadFailed | TimedOut | ShuttingDown.

(** The first lines of [handle_conn] and [handle_conn_tls]. *)
Definition greet (m : list Piece) : C unit :=
  do* _ := on_world sieve_set_stream in
  do* r := attempt (handle_capability m) in
  match r with
  | Ok false => lift (Err tt)
  | Panic => lift Panic
  | NoFuel => lift NoFuel
  | _ => ret tt
  end.

Definition farewell (m : string) : C unit :=
  do* _ := attempt (E := unit) (write_bytes (b "BYE " ++ [DQUOTE] ++ b m ++ [DQUOTE] ++ CRLF)) in ret tt.

(** [handle_conn], and after STARTTLS [handle_conn_tls]. *)
Fixpoint conn_loop (inputs : list Input) : C unit :=
  match inputs with
  | [] => ret tt
  | input :: inputs =>
      match input with
      | Read [] => ret tt
      | Read chunk =>
          do* upgrade := ingest chunk in
          do* _ :=
            if upgrade : bool then
              do* _ := modify set_tls in greet (msg "TLS now active.")
            else ret tt in
          conn_loop inputs
      | ReadFailed => ret tt
      | TimedOut => farewell "Connection timed out."
      | ShuttingDown => farewell "Server shutting down."
      end
  end.

Definition handle_conn (inputs : list Input) : C unit :=
  do* _ := greet (msg "Stalwart ManageSieve at your service.") in
  conn_loop inputs.
End Session.
