(* ===== verification/SieveSpec.v ===== *)
(** * What a ManageSieve connection guarantees

    The handlers of [SieveSession.v] against the interface of the JMAP server
    ([SieveLaws]): the scripts of an account as a map from names to texts, of
    which at most some are active, and every command as one operation on it. *)

From S2P Require Import Prelude Utf8 Utf7 Types Receiver ReceiverSpec Wire Jmap Store Sasl Sieve SieveSession.

(** ** The JMAP server *)
Record Script := mkScript { sc_name : str; sc_blob : str; sc_active : bool }.

Abbreviation ScriptMap := (gmap (list Z) Script).

(** [n] occurs in [x]: what the filter [name] of [SieveScript/query] asks for. *)
Fixpoint occurs (n x : str) : bool :=
  starts_with n x || match x with [] => false | _ :: x => occurs n x end.

Definition activated (id : str) (m : ScriptMap) : ScriptMap :=
  map_imap (fun i s => Some (mkScript (sc_name s) (sc_blob s) (bool_decide (i = id)))) m.
Definition deactivated (m : ScriptMap) : ScriptMap :=
  (fun s => mkScript (sc_name s) (sc_blob s) false) <$> m.

Section Quiet.
Context {W : Type} (scripts : W -> ScriptMap).
(** The call returns and leaves the scripts alone. *)
Definition quiet {E A} (m : EM W E A) : Prop := forall w, returns (m w).1 /\ scripts (m w).2 = scripts w.
(** The call fails and leaves the scripts alone, or has this effect. *)
Definition effect {E A} (m : EM W E A) (R : ScriptMap -> ScriptMap -> Prop) : Prop := forall w,
  match m w with
  | (Ok _, w') => R (scripts w) (scripts w')
  | (Err _, w') => scripts w' = scripts w
  | _ => False
  end.
End Quiet.

(** JMAP for Sieve Scripts: names are unique, an active script is not
    destroyed, a query by name looks for a part of the name. *)
Class SieveLaws (W : Type) `{SieveBackend W} := {
  scripts : W -> ScriptMap;
  blob_content : str -> bytes;
  connect_quiet cr : quiet scripts (sieve_connect cr);
  query_quiet c n : quiet scripts (sieve_script_query c n);
  get_quiet c id : quiet scripts (sieve_script_get c id);
  download_quiet c blob : quiet scripts (download c blob);
  validate_quiet c x : quiet scripts (sieve_script_validate c x);
  list_quiet c : quiet scripts (get_sieve_script c);
  send_quiet x : quiet scripts (sieve_send x);
  set_stream_quiet : quiet scripts sieve_set_stream;
  recover_stream_quiet : quiet scripts sieve_recover_stream;
  query_finds c n w ids :
    (sieve_script_query c n w).1 = Ok ids ->
    forall id, id ∈ ids <-> exists s, scripts w !! id = Some s /\ occurs n (sc_name s) = true;
  get_finds c id w blob :
    (sieve_script_get c id w).1 = Ok (Some (Some blob)) -> exists s, scripts w !! id = Some s /\ sc_blob s = blob;
  download_reads c blob w x : (download c blob w).1 = Ok x -> x = blob_content blob;
  list_reads c w l :
    (get_sieve_script c w).1 = Ok l ->
    Permutation l ((fun p => (Some (sc_name p.2), sc_active p.2)) <$> map_to_list (scripts w));
  create_effect c n x activate :
    effect scripts (sieve_script_create c n x activate) (fun m m' =>
      (forall id s, m !! id = Some s -> sc_name s <> n) /\
      exists id blob, m !! id = None /\ blob_content blob = x /\ m' = <[id := mkScript n blob activate]> m);
  destroy_effect c id :
    effect scripts (sieve_script_destroy c id) (fun m m' =>
      (forall s, m !! id = Some s -> sc_active s = false) /\ m' = delete id m);
  rename_effect c id n :
    effect scripts (sieve_script_rename c id n false) (fun m m' =>
      (forall i s, i <> id -> m !! i = Some s -> sc_name s <> n) /\
      m' = alter (fun s => mkScript n (sc_blob s) (sc_active s)) id m);
  activate_effect c id : effect scripts (sieve_script_activate c id) (fun m m' => m' = activated id m);
  deactivate_effect c : effect scripts (sieve_script_deactivate c) (fun m m' => m' = deactivated m)
}.

#[export] Hint Resolve connect_quiet query_quiet get_quiet download_quiet validate_quiet list_quiet send_quiet
  set_stream_quiet recover_stream_quiet : imap.

(** ** The abstract store: the scripts of an account by name *)
Abbreviation Scripts := (gmap (list Z) (bytes * bool)).

Definition argument (q : Request Command) (i : nat) : option str := t ← req_tokens q !! i; ok_of (unwrap_string t).

Definition none_active (A : Scripts) : Scripts := (fun p => (p.1, false)) <$> A.

(** What a command makes of the scripts; [None]: it is refused. *)
Definition script_spec (q : Request Command) (A : Scripts) : option Scripts :=
  match req_command q with
  | PutScript =>
      n ← argument q 0; t ← req_tokens q !! 1%nat;
      match A !! n with None => Some (<[n := (unwrap_bytes t, false)]> A) | Some _ => None end
  | DeleteScript => n ← argument q 0; p ← A !! n; if p.2 : bool then None else Some (delete n A)
  | RenameScript =>
      n ← argument q 0; n' ← argument q 1; p ← A !! n;
      if decide (n' = n \/ A !! n' = None) then Some (<[n' := p]> (delete n A)) else None
  | SetActive =>
      n ← argument q 0;
      if decide (n = []) then Some (none_active A) else p ← A !! n; Some (<[n := (p.1, true)]> (none_active A))
  | _ => Some A
  end.

Section Store.
Context (content : str -> bytes).

(** The scripts of the server are those of the store, and names are unique. *)
Definition stored (m : ScriptMap) (A : Scripts) : Prop :=
  (forall i j s t, m !! i = Some s -> m !! j = Some t -> sc_name s = sc_name t -> i = j) /\
  forall n p, A !! n = Some p <-> exists i s, m !! i = Some s /\ sc_name s = n /\ p = (content (sc_blob s), sc_active s).

Lemma stored_lookup m A i s : stored m A -> m !! i = Some s -> A !! sc_name s = Some (content (sc_blob s), sc_active s).
Proof. intros [_ HA] Hi. apply HA. by exists i, s. Qed.

Lemma stored_none m A n : stored m A -> (A !! n = None <-> forall i s, m !! i = Some s -> sc_name s <> n).
Proof.
  intros [Hu HA]. rewrite eq_None_not_Some. split.
  - intros Hn i s Hi Hs. apply Hn. exists (content (sc_blob s), sc_active s). apply HA. by exists i, s.
  - intros Hn [p (i & s & Hi & Hs & _)%HA]. by apply (Hn i s).
Qed.

Lemma stored_insert m A i n blob a :
  stored m A -> m !! i = None -> A !! n = None -> stored (<[i := mkScript n blob a]> m) (<[n := (content blob, a)]> A).
Proof.
  intros Hst Hi Hn. rewrite (stored_none m A n Hst) in Hn. destruct Hst as [Hu HA]. split.
  - intros j k s t. rewrite !lookup_insert_Some. intros [[<- <-]|[Hj Hs]] [[<- <-]|[Hk Ht]] Heq; cbn in Heq; [done|..].
    + by destruct (Hn k t).
    + by destruct (Hn j s).
    + by eapply Hu.
  - intros n' p. rewrite lookup_insert_Some. setoid_rewrite lookup_insert_Some. split.
    + intros [[<- <-]|[Hne (j & s & Hj & Hs & ->)%HA]]; [by exists i, (mkScript n blob a); split; [left|]|].
      exists j, s. split; [right; split; [congruence|done]|done].
    + intros (j & s & [[<- <-]|[Hj Hs]] & Hname & ->); [by left|]. right. split; [intros <-; by apply (Hn j s)|].
      apply HA. by exists j, s.
Qed.

Lemma stored_delete m A i s : stored m A -> m !! i = Some s -> stored (delete i m) (delete (sc_name s) A).
Proof.
  intros [Hu HA] Hi. split.
  - intros j k t u. rewrite !lookup_delete_Some. intros [_ Hj] [_ Hk]. by eapply Hu.
  - intros n p. rewrite lookup_delete_Some. setoid_rewrite lookup_delete_Some. split.
    + intros [Hne (j & t & Hj & Ht & ->)%HA]. exists j, t. split; [|done]. split; [intros <-; congruence|done].
    + intros (j & t & [Hji Hj] & <- & ->). split; [|apply HA; by exists j, t].
      intros Heq. apply Hji. by eapply Hu.
Qed.

Lemma stored_set_active m A (f : list Z -> Script -> bool) (g : list Z -> bytes * bool -> bytes * bool) :
  (forall i s, m !! i = Some s -> g (sc_name s) (content (sc_blob s), sc_active s) = (content (sc_blob s), f i s)) ->
  stored m A ->
  stored (map_imap (fun i s => Some (mkScript (sc_name s) (sc_blob s) (f i s))) m) (map_imap (fun n p => Some (g n p)) A).
Proof.
  intros Hg [Hu HA]. split.
  - intros i j s t. rewrite !map_lookup_imap. intros (s' & Hs & [= <-])%bind_Some (t' & Ht & [= <-])%bind_Some. cbn. by eapply Hu.
  - intros n p. rewrite map_lookup_imap, bind_Some. setoid_rewrite map_lookup_imap. setoid_rewrite bind_Some. split.
    + intros (p' & (i & s & Hi & <- & ->)%HA & [= <-]). rewrite (Hg i s Hi). eexists i, _. split; [by exists s|done].
    + intros (i & s' & (s & Hi & [= <-]) & <- & ->). cbn. exists (content (sc_blob s), sc_active s).
      split; [apply HA; by exists i, s|]. by rewrite (Hg i s Hi).
Qed.

Lemma imap_fmap {A B} (f : A -> B) (m : gmap (list Z) A) : map_imap (fun _ x => Some (f x)) m = f <$> m.
Proof. apply map_eq. intros i. rewrite map_lookup_imap, lookup_fmap. by destruct (m !! i). Qed.

Lemma stored_deactivated m A : stored m A -> stored (deactivated m) (none_active A).
Proof.
  intros Hst. unfold deactivated, none_active. rewrite <- !imap_fmap.
  by apply (stored_set_active m A (fun _ _ => false) (fun _ p => (p.1, false))).
Qed.

Lemma stored_activated m A i s :
  stored m A -> m !! i = Some s -> stored (activated i m) (<[sc_name s := (content (sc_blob s), true)]> (none_active A)).
Proof.
  intros Hst Hi.
  replace (<[_ := _]> (none_active A)) with (map_imap (fun n p => Some (p.1, bool_decide (n = sc_name s))) A).
  - apply (stored_set_active m A (fun j _ => bool_decide (j = i)) (fun n p => (p.1, bool_decide (n = sc_name s)))); [|done].
    intros j t Hj. f_equal. apply bool_decide_ext. split; [|by intros ->; simplify_eq].
    intros Heq. destruct Hst as [Hu _]. by eapply Hu.
  - apply map_eq. intros n. rewrite map_lookup_imap. destruct (decide (n = sc_name s)) as [->|Hne].
    + rewrite lookup_insert_eq, (stored_lookup m A i s) by done. cbn. by rewrite bool_decide_eq_true_2.
    + rewrite lookup_insert_ne by done. unfold none_active. rewrite lookup_fmap.
      destruct (A !! n); [|done]. cbn. by rewrite bool_decide_eq_false_2.
Qed.

Lemma stored_renamed m A i s n :
  stored m A -> m !! i = Some s -> (forall j t, j <> i -> m !! j = Some t -> sc_name t <> n) ->
  stored (alter (fun s => mkScript n (sc_blob s) (sc_active s)) i m) (<[n := (content (sc_blob s), sc_active s)]> (delete (sc_name s) A)).
Proof.
  intros Hst Hi Hn. pose proof (stored_delete m A i s Hst Hi) as Hd.
  replace (alter _ i m) with (<[i := mkScript n (sc_blob s) (sc_active s)]> (delete i m)).
  - apply stored_insert; [done|apply lookup_delete_eq|]. rewrite (stored_none _ _ n Hd).
    intros j t [Hj Ht]%lookup_delete_Some. by eapply Hn.
  - apply map_eq. intros j. destruct (decide (i = j)) as [<-|Hne].
    + by rewrite lookup_insert_eq, lookup_alter_eq, Hi.
    + by rewrite lookup_insert_ne, lookup_delete_ne, lookup_alter_ne by done.
Qed.
End Store.
