(* ===== verification/SieveHandlers.v ===== *)
(** * The handlers of ManageSieve

    Every handler of [SieveSession.v], from a state in which it may run, keeps
    the session as it should, and does to the scripts what [script_spec] says
    or answers NO. *)

From S2P Require Import Prelude Utf8 Utf7 Types Receiver ReceiverSpec Wire Jmap Store Sasl Sieve SieveSession SieveSpec.

Section Calculus.
Context {W : Type} `{HB : SieveBackend W} `{HL : !SieveLaws W} `{DebugFmt} `{Base64}.
Context (cargo_pkg_version : str).

Abbreviation Conn := (@Conn W _).

(** From [c], [m] returns a value with [Q] or an error with [X]. *)
Definition wps {E A} (m : EM Conn E A) (Q : A -> Conn -> Prop) (X : E -> Conn -> Prop) (c : Conn) : Prop :=
  match m c with
  | (Ok a, c') => Q a c'
  | (Err e, c') => X e c'
  | _ => False
  end.

Lemma sieve_wps_ret {E A} (a : A) (Q : A -> Conn -> Prop) (X : E -> Conn -> Prop) c : Q a c -> wps (ret a) Q X c.
Proof. done. Qed.
Lemma sieve_wps_bind {E A B} (m : EM Conn E A) (k : A -> EM Conn E B) Q X c :
  wps m (fun a c' => wps (k a) Q X c') X c -> wps (bindM m k) Q X c.
Proof. unfold wps, bindM. by destruct (m c) as [[a|e| |] c']. Qed.
Lemma sieve_wps_mono {E A} (m : EM Conn E A) (Q Q' : A -> Conn -> Prop) (X X' : E -> Conn -> Prop) c :
  wps m Q X c -> (forall a c', Q a c' -> Q' a c') -> (forall e c', X e c' -> X' e c') -> wps m Q' X' c.
Proof. unfold wps. destruct (m c) as [[a|e| |] c']; auto. Qed.
Lemma sieve_wps_lift {E A} (r : Res E A) (Q : A -> Conn -> Prop) (X : E -> Conn -> Prop) c :
  returns r -> (forall a, r = Ok a -> Q a c) -> (forall e, r = Err e -> X e c) -> wps (lift r) Q X c.
Proof. destruct r; cbn; auto. Qed.
Lemma sieve_wps_attempt {E F A} (m : EM Conn E A) (Q : Res E A -> Conn -> Prop) (X : F -> Conn -> Prop) c :
  wps m (fun a c' => Q (Ok a) c') (fun e c' => Q (Err e) c') c -> wps (attempt m) Q X c.
Proof. unfold wps, attempt. by destruct (m c) as [[a|e| |] c']. Qed.
Lemma sieve_wps_get {E} (Q : Session SieveClient -> Conn -> Prop) (X : E -> Conn -> Prop) c : Q (session c) c -> wps get_session Q X c.
Proof. done. Qed.
Lemma sieve_wps_put {E} s (Q : unit -> Conn -> Prop) (X : E -> Conn -> Prop) c :
  Q tt (mkConn s (world c) (trace c)) -> wps (put_session s) Q X c.
Proof. done. Qed.
Lemma sieve_wps_modify {E} f (Q : unit -> Conn -> Prop) (X : E -> Conn -> Prop) c :
  Q tt (mkConn (f (session c)) (world c) (trace c)) -> wps (modify f) Q X c.
Proof. done. Qed.
Lemma sieve_wps_log {E} e (Q : unit -> Conn -> Prop) (X : E -> Conn -> Prop) c :
  Q tt (mkConn (session c) (world c) (trace c ++ [e])) -> wps (log e) Q X c.
Proof. done. Qed.
Lemma sieve_wps_world {E A} (m : EM W E A) (Q : A -> Conn -> Prop) (X : E -> Conn -> Prop) c :
  quiet scripts m ->
  (forall a w, m (world c) = (Ok a, w) -> scripts w = scripts (world c) -> Q a (mkConn (session c) w (trace c))) ->
  (forall e w, m (world c) = (Err e, w) -> scripts w = scripts (world c) -> X e (mkConn (session c) w (trace c))) ->
  wps (on_world m) Q X c.
Proof.
  intros Hm HQ HX. destruct (Hm (world c)) as [Hr Hs]. unfold wps, on_world.
  destruct (m (world c)) as [[a|e| |] w]; cbn in *; auto.
Qed.
Lemma wps_jmap {A} (m : EM W JmapError A) (Q : A -> Conn -> Prop) (X : StatusResponse -> Conn -> Prop) c :
  quiet scripts m ->
  (forall a w, m (world c) = (Ok a, w) -> scripts w = scripts (world c) -> Q a (mkConn (session c) w (trace c))) ->
  (forall r w, rtype r = RtNo -> scripts w = scripts (world c) -> X r (mkConn (session c) w (trace c))) ->
  wps (jmap m) Q X c.
Proof.
  intros Hm HQ HX. destruct (Hm (world c)) as [Hr Hs]. unfold wps, jmap, map_errM, on_world.
  destruct (m (world c)) as [[a|e| |] w]; cbn in *; auto. apply HX; [apply sieve_into_status_response_no|done].
Qed.
Lemma wps_effect {A} (m : EM W JmapError A) R (Q : A -> Conn -> Prop) (X : StatusResponse -> Conn -> Prop) c :
  effect scripts m R ->
  (forall a w, R (scripts (world c)) (scripts w) -> Q a (mkConn (session c) w (trace c))) ->
  (forall r w, rtype r = RtNo -> scripts w = scripts (world c) -> X r (mkConn (session c) w (trace c))) ->
  wps (jmap m) Q X c.
Proof.
  intros Hm HQ HX. specialize (Hm (world c)). unfold wps, jmap, map_errM, on_world.
  destruct (m (world c)) as [[a|e| |] w]; cbn in *; auto. apply HX; [apply sieve_into_status_response_no|done].
Qed.

(** Log-in attempts in a trace. *)
Definition attempts (tr : list Event) : Z :=
  Z.of_nat (length (List.filter (fun e => match e with Connecting _ => true | _ => false end) tr)).
Lemma sieve_attempts_snoc tr e : attempts (tr ++ [e]) = attempts tr + match e with Connecting _ => 1 | _ => 0 end.
Proof. unfold attempts. rewrite List.filter_app, length_app. destruct e; cbn; lia. Qed.

(** Nothing happened to the session and the scripts; something may have been written. *)
Definition calm (c c' : Conn) : Prop :=
  session c' = session c /\ attempts (trace c') = attempts (trace c) /\ scripts (world c') = scripts (world c).
#[global] Instance calm_preorder : PreOrder calm.
Proof. split; [done|]. intros c1 c2 c3 (? & ? & ?) (? & ? & ?). split_and!; congruence. Qed.

Lemma sieve_wps_write x (Q : unit -> Conn -> Prop) (X : unit -> Conn -> Prop) c :
  (forall c', calm c c' -> trace c' = trace c ++ [Wrote x] -> Q tt c' /\ X tt c') -> wps (write_bytes x) Q X c.
Proof.
  intros HQ. apply sieve_wps_bind, sieve_wps_log, sieve_wps_world; [auto with imap|intros [] w _ Hs|intros [] w _ Hs];
    (apply HQ; [split_and!; cbn; rewrite ?sieve_attempts_snoc, ?Hs; [done|lia|done]|done]).
Qed.
Lemma wps_write_ok x (Q : bool -> Conn -> Prop) (X : StatusResponse -> Conn -> Prop) c :
  (forall k c', calm c c' -> trace c' = trace c ++ [Wrote x] -> Q k c') -> wps (write_ok x) Q X c.
Proof.
  intros HQ. apply sieve_wps_bind, sieve_wps_attempt, sieve_wps_write. intros c' Hc Ht. by split; apply sieve_wps_ret, HQ.
Qed.

Lemma wps_client cl (Q : SieveClient -> Conn -> Prop) X c :
  s_state (session c) = Authenticated cl -> Q cl c -> wps client Q X c.
Proof. intros Hs HQ. apply sieve_wps_bind, sieve_wps_get. by rewrite Hs. Qed.
End Calculus.

(** One step of a handler. *)
Ltac wps_step :=
  lazymatch goal with
  | |- wps (bindM _ _) _ _ _ => apply sieve_wps_bind
  | |- wps (ret _) _ _ _ => apply sieve_wps_ret
  | |- wps get_session _ _ _ => apply sieve_wps_get
  | |- wps (put_session _) _ _ _ => apply sieve_wps_put
  | |- wps (modify _) _ _ _ => apply sieve_wps_modify
  | |- wps (log _) _ _ _ => apply sieve_wps_log
  | |- wps (write_ok _) _ _ _ => apply wps_write_ok; intros ? ? ? ?
  | |- wps (answer _) _ _ _ => apply wps_write_ok; intros ? ? ? ?
  | |- wps client _ _ _ => eapply wps_client; [eassumption|]
  | |- wps (lift (ok_or _ _)) _ _ _ => apply sieve_wps_lift; [apply returns_ok_or|intros ? ?|intros ? ?]
  | |- wps (jmap _) _ _ _ => apply wps_jmap; [solve [auto with imap]|intros ? ? ? ?|intros ? ? ? ?]
  end.
Ltac wps_steps := repeat wps_step.

Section Handlers.
Context {W : Type} `{HB : SieveBackend W} `{HL : !SieveLaws W} `{DebugFmt} `{Base64}.
Context (cargo_pkg_version : str).

Abbreviation Conn := (@Conn W _).
Abbreviation St := (SieveState SieveClient).

(** A client is only kept if its server supports Sieve. *)
Definition good (st : St) : Prop :=
  match st with Authenticated cl => is_Some (sieve_capabilities cl) | NotAuthenticated _ => True end.
Definition is_authenticated (st : St) : bool := match st with Authenticated _ => true | NotAuthenticated _ => false end.

(** The state a command needs for its handler to run. *)
Definition ready (k : Command) (st : St) : Prop :=
  match k with
  | Capability | Logout | Noop | StartTls => True
  | Authenticate => is_authenticated st = false
  | _ => is_authenticated st = true
  end.

(** The changes of state a command can make. *)
Inductive trans (k : Command) : St -> St -> Prop :=
| trans_same st : trans k st st
| trans_login n cr w cl :
    k = Authenticate -> (sieve_connect cr w).1 = Ok cl -> good (Authenticated cl) -> trans k (NotAuthenticated n) (Authenticated cl)
| trans_failed n : k = Authenticate -> n < 3 -> trans k (NotAuthenticated n) (NotAuthenticated (n + 1))
| trans_unauthenticate st : k = Unauthenticate -> is_authenticated st = true -> trans k st (NotAuthenticated 0).

(** Failed attempts of a client that stays outside are counted. *)
Definition counted (c c' : Conn) : Prop :=
  match s_state (session c), s_state (session c') with
  | NotAuthenticated n, NotAuthenticated n' => n' = n + (attempts (trace c') - attempts (trace c)) /\ n' <= Z.max n 3
  | _, _ => True
  end.

Definition kept (k : Command) (c c' : Conn) : Prop :=
  literal_ok (s_receiver (session c')) /\ s_is_tls (session c') = s_is_tls (session c) /\
  trans k (s_state (session c)) (s_state (session c')) /\
  (k <> Authenticate -> attempts (trace c') = attempts (trace c)) /\ attempts (trace c') <= attempts (trace c) + 1.

(** The name that a command looks up is no part of another script's name. *)
Definition unambiguous (q : Request Command) (m : ScriptMap) : Prop :=
  let exact n := forall i s, m !! i = Some s -> occurs n (sc_name s) = true -> sc_name s = n in
  match req_command q with
  | DeleteScript | RenameScript => forall n, argument q 0 = Some n -> exact n
  | SetActive => forall n, argument q 0 = Some n -> n <> [] -> exact n
  | _ => True
  end.

(** The command changes no script. *)
Definition no_change (q : Request Command) : Prop :=
  match req_command q with PutScript | DeleteScript | RenameScript | SetActive => False | _ => True end.

Lemma no_change_spec q A : no_change q -> script_spec q A = Some A.
Proof. unfold no_change, script_spec. by destruct (req_command q). Qed.

(** [m'] is [m] after the command, as the abstract store has it. *)
Definition refines (q : Request Command) (m m' : ScriptMap) : Prop :=
  (unambiguous q m -> forall A, stored blob_content m A -> exists A', script_spec q A = Some A' /\ stored blob_content m' A') /\
  (no_change q -> m' = m).

Definition handled (q : Request Command) (m : EM Conn StatusResponse bool) (c : Conn) : Prop :=
  wps m
    (fun k c' => kept (req_command q) c c' /\ (k = true -> counted c c') /\ refines q (scripts (world c)) (scripts (world c')))
    (fun r c' => kept (req_command q) c c' /\ counted c c' /\ rtype r = RtNo /\ scripts (world c') = scripts (world c)) c.

Lemma calm_kept k c c' : literal_ok (s_receiver (session c)) -> calm c c' -> kept k c c'.
Proof. intros Hr (Hs & Ha & Hm). rewrite <- Hs in Hr. split_and!; [done|by rewrite Hs|rewrite Hs; constructor|done|lia]. Qed.
Lemma calm_counted c c' : calm c c' -> counted c c'.
Proof. intros (Hs & Ha & Hm). unfold counted. rewrite Hs. destruct (s_state _); [lia|done]. Qed.

(** A handler that leaves the session alone. *)
Definition sound (q : Request Command) (m : EM Conn StatusResponse bool) (c : Conn) : Prop :=
  wps m
    (fun _ c' => session c' = session c /\ attempts (trace c') = attempts (trace c) /\ refines q (scripts (world c)) (scripts (world c')))
    (fun r c' => calm c c' /\ rtype r = RtNo) c.

Lemma sound_handled q m c : literal_ok (s_receiver (session c)) -> sound q m c -> handled q m c.
Proof.
  intros Hr Hm. eapply sieve_wps_mono; [exact Hm|..].
  - intros k c' (Hs & Ha & Href). split; [unfold kept; rewrite Hs; split_and!; [done|done|constructor|done|lia]|]. split; [|done].
    intros _. unfold counted. rewrite Hs. destruct (s_state _); [lia|done].
  - intros r c' [Hc Hno]. split; [by apply calm_kept|]. split; [by apply calm_counted|]. split; [done|apply Hc].
Qed.

Lemma refines_same q m m' : no_change q -> m' = m -> refines q m m'.
Proof. intros Hq ->. split; [|done]. intros _ A HA. exists A. by rewrite no_change_spec. Qed.

Lemma sound_calm q m c :
  no_change q -> wps m (fun _ c' => calm c c') (fun r c' => calm c c' /\ rtype r = RtNo) c -> sound q m c.
Proof.
  intros Hq Hm. eapply sieve_wps_mono; [exact Hm| |done]. intros k c' (Hs & Ha & Hw). split; [done|]. split; [done|]. by apply refines_same.
Qed.

(** The answers of straight-line code are calm. *)
Ltac calm_done :=
  repeat match goal with
  | H : calm ?c ?c' |- _ => destruct H as (? & ? & ?); cbn [session world trace] in *
  | H : _ = _ |- _ => progress (cbn [session world trace] in H)
  end;
  repeat split; cbn [session world trace] in *; congruence.

Lemma string_argument_no tokens m e : string_argument tokens m = Err e -> rtype e = RtNo.
Proof. unfold string_argument. destruct tokens as [|t l]; [by intros [= <-]|]. destruct (ok_of _); by intros [= <-]. Qed.
Lemma string_argument_returns tokens m : returns (string_argument tokens m).
Proof. destruct tokens; [done|]. apply returns_ok_or. Qed.
Lemma string_argument_ok q i m n :
  string_argument (drop i (req_tokens q)) m = Ok n -> argument q i = Some n.
Proof.
  unfold string_argument, argument. destruct (drop i (req_tokens q)) as [|t l] eqn:E; [done|].
  pose proof (lookup_drop (req_tokens q) i 0) as Hl. rewrite E, Nat.add_0_r in Hl. rewrite <- Hl. cbn.
  by destruct (ok_of _) as [x|]; [intros [= ->]|].
Qed.
Lemma ok_or_no {A E} (o : option A) (r e : E) : ok_or o r = Err e -> e = r.
Proof. by destruct o; intros [= <-]. Qed.

(** *** Commands that change no script *)
Section Simple.
Context (q : Request Command) (c : Conn) (Hnc : no_change q).

Lemma sieve_handle_capability_ok m : good (s_state (session c)) -> wps (handle_capability cargo_pkg_version m) (fun _ c' => calm c c') (fun _ _ => False) c.
Proof using HL.
  intros Hg. unfold handle_capability. wps_steps. apply sieve_wps_lift.
  - unfold capability_response. destruct (s_state (session c)) as [n|cl]; [done|]. destruct Hg as [x ->]. done.
  - intros response _. by wps_steps.
  - unfold capability_response. destruct (s_state (session c)) as [n|cl]; [done|]. by destruct Hg as [x ->].
Qed.

Lemma sieve_handle_noop_ok tokens : sound q (handle_noop tokens) c.
Proof using HL Hnc. apply sound_calm; [done|]. unfold handle_noop. by wps_steps. Qed.
Lemma sieve_handle_logout_ok : sound q (handle_logout cargo_pkg_version) c.
Proof using HL Hnc. apply sound_calm; [done|]. unfold handle_logout. by wps_steps. Qed.
Lemma handle_havespace_ok tokens : sound q (handle_havespace tokens) c.
Proof using HL Hnc.
  apply sound_calm; [done|]. unfold handle_havespace. wps_steps.
  apply sieve_wps_lift; [apply string_argument_returns|intros name _|intros e He; split; [done|by eapply string_argument_no]].
  wps_steps. apply sieve_wps_lift; [apply string_argument_returns|intros sz _|intros e He; split; [done|by eapply string_argument_no]].
  wps_steps; [done|]. split; [done|]. by match goal with E : ok_or _ _ = Err _ |- _ => apply ok_or_no in E as -> end.
Qed.

Section Client.
Context (cl : SieveClient) (Hcl : s_state (session c) = Authenticated cl).

Lemma handle_checkscript_ok tokens : sound q (handle_checkscript tokens) c.
Proof using HL Hnc Hcl.
  apply sound_calm; [done|]. unfold handle_checkscript. destruct tokens as [|t l].
  { apply sieve_wps_lift; [done..|]. by intros e [= <-]. }
  wps_steps; [calm_done|]. split; [calm_done|done].
Qed.
Lemma handle_listscripts_ok : sound q handle_listscripts c.
Proof using HL Hnc Hcl.
  apply sound_calm; [done|]. unfold handle_listscripts. wps_steps; [calm_done|]. split; [calm_done|done].
Qed.
End Client.
End Simple.

(** *** Commands on scripts *)
Section Scripts.
Context (q : Request Command) (c : Conn) (cl : SieveClient) (Hcl : s_state (session c) = Authenticated cl).

Lemma wps_get_script_id n (Q : str -> Conn -> Prop) (X : StatusResponse -> Conn -> Prop) :
  (forall id s c', calm c c' -> scripts (world c) !! id = Some s -> occurs n (sc_name s) = true -> trace c' = trace c -> Q id c') ->
  (forall r c', calm c c' -> rtype r = RtNo -> X r c') ->
  wps (get_script_id n) Q X c.
Proof using HL Hcl.
  intros HQ HX. unfold get_script_id. wps_steps.
  - match goal with E : sieve_script_query _ _ _ = (Ok ?ids, ?w), E' : ok_or (list.last ?ids) _ = Ok ?id |- _ =>
      destruct (list.last ids) as [x|] eqn:El; [injection E' as ->|done];
      destruct (proj1 (query_finds cl n (world c) ids ltac:(by rewrite E) id)) as (s & Hs & Ho);
        [apply last_Some_elem_of in El; done|] end.
    eapply HQ; [calm_done|done|done|done].
  - apply HX; [calm_done|]. by match goal with E : ok_or _ _ = Err _ |- _ => apply ok_or_no in E as -> end.
  - apply HX; [calm_done|done].
Qed.

Lemma handle_getscript_ok : no_change q -> sound q (handle_getscript (req_tokens q)) c.
Proof using HL Hcl.
  intros Hnc. apply sound_calm; [done|]. unfold handle_getscript. wps_steps.
  apply sieve_wps_lift; [apply string_argument_returns|intros n _|intros e He; split; [done|by eapply string_argument_no]].
  wps_steps. apply wps_get_script_id; [|done]. intros id s c' Hc' _ _ _.
  wps_steps;
    repeat match goal with E : ok_or _ _ = Err _ |- _ => apply ok_or_no in E as -> end; try split; try done; calm_done.
Qed.

Lemma handle_putscript_ok : req_command q = PutScript -> sound q (handle_putscript (req_tokens q)) c.
Proof using HL Hcl.
  intros Hq. unfold sound, handle_putscript. wps_steps.
  apply sieve_wps_lift; [apply string_argument_returns|intros n Hn|intros e He; split; [done|by eapply string_argument_no]].
  apply (string_argument_ok q 0) in Hn. wps_steps.
  2: { match goal with E : ok_or _ _ = Err _ |- _ => apply ok_or_no in E as -> end. by split. }
  match goal with E : ok_or _ _ = Ok ?t |- _ => rename t into script; rename E into Es end.
  assert (Ht : req_tokens q !! 1%nat = Some script).
  { unfold rest_of in Es. destruct (req_tokens q) as [|t [|t' l]]; cbn in *; [done|done|congruence]. }
  eapply wps_effect; [apply create_effect|..].
  - cbn. intros [] w (Hfree & id & blob & Hid & Hblob & Hw). wps_steps. split; [calm_done|]. split; [calm_done|].
    match goal with E : calm _ _ |- _ => destruct E as (_ & _ & ->) end. cbn [world]. rewrite Hw.
    split; [|by unfold no_change; rewrite Hq]. intros _ A HA. exists (<[n := (unwrap_bytes script, false)]> A).
    assert (HAn : A !! n = None) by (by apply (stored_none blob_content _ _ _ HA)).
    unfold script_spec. rewrite Hq, Hn, Ht. cbn. rewrite HAn. split; [done|]. rewrite <- Hblob. by apply stored_insert.
  - intros r w Hr Hw. split; [calm_done|done].
Qed.

(** The id of the script with the name, when the name is unambiguous. *)
Lemma named_lookup n id s A :
  scripts (world c) !! id = Some s -> occurs n (sc_name s) = true ->
  (forall i s, scripts (world c) !! i = Some s -> occurs n (sc_name s) = true -> sc_name s = n) ->
  stored blob_content (scripts (world c)) A ->
  sc_name s = n /\ A !! n = Some (blob_content (sc_blob s), sc_active s).
Proof.
  intros Hid Ho Hex HA. pose proof (Hex id s Hid Ho) as <-. split; [done|]. by eapply stored_lookup.
Qed.

Lemma handle_deletescript_ok : req_command q = DeleteScript -> sound q (handle_deletescript (req_tokens q)) c.
Proof using HL Hcl.
  intros Hq. unfold sound, handle_deletescript. wps_steps.
  apply sieve_wps_lift; [apply string_argument_returns|intros n Hn|intros e He; split; [done|by eapply string_argument_no]].
  apply (string_argument_ok q 0) in Hn. wps_steps. apply wps_get_script_id; [|done].
  intros id s c' (Hs & Ha & Hw) Hid Ho _. apply sieve_wps_bind. eapply wps_effect; [apply destroy_effect|..].
  - cbn. intros [] w (Hact & Hw'). wps_steps. match goal with E : calm _ _ |- _ => destruct E as (E1 & E2 & E3) end.
    cbn in *. split; [congruence|]. split; [congruence|]. rewrite E3, Hw', Hw. rewrite Hw in Hact.
    split; [|by unfold no_change; rewrite Hq]. intros Hun A HA. unfold unambiguous in Hun. rewrite Hq in Hun.
    destruct (named_lookup n id s A Hid Ho (Hun n Hn) HA) as [<- HAn].
    exists (delete (sc_name s) A). unfold script_spec. rewrite Hq, Hn. cbn. rewrite HAn. cbn. rewrite (Hact s Hid).
    split; [done|]. by apply stored_delete.
  - intros r w Hr Hw'. split; [split_and!; cbn; congruence|done].
Qed.

Lemma handle_renamescript_ok : req_command q = RenameScript -> sound q (handle_renamescript (req_tokens q)) c.
Proof using HL Hcl.
  intros Hq. unfold sound, handle_renamescript. wps_steps.
  apply sieve_wps_lift; [apply string_argument_returns|intros n Hn|intros e He; split; [done|by eapply string_argument_no]].
  wps_steps. apply sieve_wps_lift; [apply string_argument_returns|intros n' Hn'|intros e He; split; [done|by eapply string_argument_no]].
  apply (string_argument_ok q 0) in Hn. assert (Hn1 : argument q 1 = Some n').
  { eapply (string_argument_ok q 1). rewrite <- Hn'. unfold rest_of. by destruct (req_tokens q). }
  wps_steps. apply wps_get_script_id; [|done].
  intros id s c' (Hs & Ha & Hw) Hid Ho _. apply sieve_wps_bind. eapply wps_effect; [apply rename_effect|..].
  - cbn. intros [] w (Hfree & Hw'). wps_steps. match goal with E : calm _ _ |- _ => destruct E as (E1 & E2 & E3) end.
    cbn in *. split; [congruence|]. split; [congruence|]. rewrite E3, Hw', Hw. rewrite Hw in Hfree.
    split; [|by unfold no_change; rewrite Hq]. intros Hun A HA. unfold unambiguous in Hun. rewrite Hq in Hun.
    destruct (named_lookup n id s A Hid Ho (Hun n Hn) HA) as [<- HAn].
    exists (<[n' := (blob_content (sc_blob s), sc_active s)]> (delete (sc_name s) A)).
    unfold script_spec. rewrite Hq, Hn, Hn1. cbn. rewrite HAn. cbn. rewrite decide_True; [split; [done|by apply stored_renamed]|].
    destruct (decide (n' = sc_name s)) as [->|Hne]; [by left|right]. apply (stored_none _ _ _ _ HA).
    intros i t Hi Ht. destruct (decide (i = id)) as [->|Hii]; [congruence|]. by eapply Hfree.
  - intros r w Hr Hw'. split; [split_and!; cbn; congruence|done].
Qed.

Lemma handle_setactive_ok : req_command q = SetActive -> sound q (handle_setactive (req_tokens q)) c.
Proof using HL Hcl.
  intros Hq. unfold sound, handle_setactive. wps_steps.
  apply sieve_wps_lift; [apply string_argument_returns|intros n Hn|intros e He; split; [done|by eapply string_argument_no]].
  apply (string_argument_ok q 0) in Hn. wps_steps. case_bool_decide as Hne; cbn [negb].
  - eapply wps_effect; [apply deactivate_effect|..].
    + cbn. intros [] w Hw'. wps_steps. match goal with E : calm _ _ |- _ => destruct E as (E1 & E2 & E3) end.
      cbn in *. split; [congruence|]. split; [congruence|]. rewrite E3, Hw'. split; [|by unfold no_change; rewrite Hq]. intros _ A HA. exists (none_active A).
      unfold script_spec. rewrite Hq, Hn. cbn. rewrite decide_True by done. split; [done|]. by apply stored_deactivated.
    + intros r w Hr Hw'. split; [split_and!; cbn; congruence|done].
  - apply sieve_wps_bind, wps_get_script_id; [|done]. intros id s c' (Hs & Ha & Hw) Hid Ho _.
    eapply wps_effect; [apply activate_effect|..].
    + cbn. intros [] w Hw'. wps_steps. match goal with E : calm _ _ |- _ => destruct E as (E1 & E2 & E3) end.
      cbn in *. split; [congruence|]. split; [congruence|]. rewrite E3, Hw', Hw.
      split; [|by unfold no_change; rewrite Hq]. intros Hun A HA. unfold unambiguous in Hun. rewrite Hq in Hun.
      destruct (named_lookup n id s A Hid Ho (Hun n Hn Hne) HA) as [<- HAn].
      exists (<[sc_name s := (blob_content (sc_blob s), true)]> (none_active A)).
      unfold script_spec. rewrite Hq, Hn. cbn. rewrite decide_False by done. rewrite HAn. cbn. split; [done|].
      by apply stored_activated.
    + intros r w Hr Hw'. split; [split_and!; cbn; congruence|done].
Qed.
End Scripts.

(** *** AUTHENTICATE and UNAUTHENTICATE *)
Section Authenticate.
Context (q : Request Command) (c : Conn).
Context (Hr : literal_ok (s_receiver (session c))).

Lemma sieve_handle_unauthenticate_ok :
  req_command q = Unauthenticate -> is_authenticated (s_state (session c)) = true -> handled q handle_unauthenticate c.
Proof using HL Hr.
  intros Hq Ha. unfold handled, handle_unauthenticate. wps_steps.
  match goal with E : calm _ _ |- _ => destruct E as (E1 & E2 & E3) end. cbn in *. rewrite Hq.
  split; [|split; [|apply refines_same; [|done]; by unfold no_change; rewrite Hq]].
  - unfold kept. rewrite E1. cbn. split_and!; [done|done|by apply trans_unauthenticate|done|lia].
  - intros _. unfold counted. rewrite E1. cbn. by destruct (s_state (session c)).
Qed.

Context (Hq : req_command q = Authenticate) (n : Z) (Hn : s_state (session c) = NotAuthenticated n).

Lemma authenticate_no_change : no_change q.
Proof using Hq. unfold no_change. by rewrite Hq. Qed.

Lemma resume_literal_ok m : literal_ok (s_receiver (resume_authenticate m (session c))).
Proof using Hr. destruct Hr as [Hstart _]. by split. Qed.

Lemma sieve_authenticate_ok cr : handled q (authenticate cargo_pkg_version cr) c.
Proof using HL Hq Hr Hn.
  unfold handled, authenticate. apply sieve_wps_bind, sieve_wps_log, sieve_wps_bind, sieve_wps_attempt, sieve_wps_world; [auto with imap|..]; cbn.
  - intros cl w Hw Hsc. destruct (sieve_capabilities cl) as [caps|] eqn:Ec.
    + wps_steps. assert (Hg : good (Authenticated cl)) by (cbn; by exists caps).
      eapply sieve_wps_mono; [by apply sieve_handle_capability_ok| |done].
      intros k c' (E1 & E2 & E3). cbn in *. rewrite sieve_attempts_snoc in E2. rewrite Hq. split; [|split].
      * unfold kept. rewrite E1. cbn. rewrite Hn. split_and!; [done|done| |done|lia].
        eapply trans_login; [done| |done]. by rewrite Hw.
      * intros _. unfold counted. by rewrite E1, Hn.
      * apply refines_same; [apply authenticate_no_change|congruence].
    + wps_steps. match goal with E : calm _ _ |- _ => destruct E as (E1 & E2 & E3) end. cbn in *. rewrite sieve_attempts_snoc in E2.
      split; [|split; [done|apply refines_same; [apply authenticate_no_change|congruence]]].
      unfold kept. rewrite E1. cbn. split_and!; [done|done|constructor|congruence|lia].
  - intros [] w Hw Hsc. wps_steps. cbn. rewrite Hn. destruct (Z.ltb_spec n 3) as [Hlt|Hge].
    + wps_steps. apply sieve_wps_lift; [done..|]. intros e [= <-]. cbn. rewrite Hq. unfold kept, counted. cbn. rewrite Hn, sieve_attempts_snoc.
      split_and!; [done|done|by apply trans_failed|done|lia|lia|lia|done|done].
    + wps_steps. match goal with E : calm _ _ |- _ => destruct E as (E1 & E2 & E3) end. cbn in *. rewrite sieve_attempts_snoc in E2.
      split; [|split; [done|apply refines_same; [apply authenticate_no_change|congruence]]].
      unfold kept. rewrite E1. cbn. split_and!; [done|done|constructor|congruence|lia].
Qed.

Lemma refused m : rtype m = RtNo -> handled q (lift (Err m)) c.
Proof using Hr.
  intros Hm. apply sieve_wps_lift; [done..|]. intros e [= <-]. split; [by apply calm_kept|]. split; [by apply calm_counted|done].
Qed.

Lemma sieve_handle_authenticate_ok : handled q (handle_authenticate cargo_pkg_version (req_tokens q)) c.
Proof using HL Hq Hr Hn.
  unfold handle_authenticate. destruct (req_tokens q) as [|t tokens]; [by apply refused|].
  apply sieve_wps_bind. destruct (mechanism_parse (unwrap_bytes t)) as [m|e| |] eqn:Em.
  2: { by apply (refused (no e)). }
  2,3: exfalso; unfold mechanism_parse in Em; by repeat case_match.
  apply sieve_wps_lift; [done| |done]. intros m' [= <-].
  assert (Hpo : handled q
    (match list.last (omap (fun token => ok_of (unwrap_string token)) tokens) with
     | Some param =>
         do* challenge := lift (ok_or (base64_decode param) (no (msg "Failed to decode challenge."))) in
         do* credentials := lift (map_err no (decode_challenge m challenge)) in
         authenticate cargo_pkg_version credentials
     | None => do* _ := modify (resume_authenticate m) in write_ok (b "{0}" ++ CRLF)
     end) c).
  { destruct (list.last _) as [param|].
    - destruct (base64_decode param) as [ch|]; [|by apply (refused (no (msg "Failed to decode challenge.")))].
      apply sieve_wps_bind, sieve_wps_lift; [done| |done]. intros ch' [= <-].
      pose proof (plain_or_oauth_returns m ch) as Hd.
      destruct (decode_challenge m ch) as [cr|e| |]; try done; [|by apply (refused (no e))].
      apply sieve_wps_bind, sieve_wps_lift; [done| |done]. intros cr' [= <-]. apply sieve_authenticate_ok.
    - unfold handled. wps_steps. match goal with E : calm _ _ |- _ => destruct E as (E1 & E2 & E3) end. cbn in *.
      split; [|split; [|apply refines_same; [apply authenticate_no_change|done]]].
      + unfold kept. rewrite E1. split_and!; [apply resume_literal_ok|done|constructor|congruence|lia].
      + intros _. unfold counted. rewrite E1. cbn. rewrite Hn. lia. }
  destruct m; try exact Hpo; by apply (refused (no (msg "Authentication mechanism not supported."))).
Qed.
End Authenticate.

(** Every command, from a state in which it may run. *)
Lemma handle_ok q c :
  literal_ok (s_receiver (session c)) -> good (s_state (session c)) -> ready (req_command q) (s_state (session c)) ->
  handled q (handle cargo_pkg_version q) c.
Proof using HL.
  intros Hr Hg Hq. unfold handle.
  assert (Hcl : is_authenticated (s_state (session c)) = true -> exists cl, s_state (session c) = Authenticated cl).
  { destruct (s_state (session c)) as [n|cl]; [done|]. by exists cl. }
  destruct (req_command q) eqn:Ec; cbn in Hq; try destruct (Hcl Hq) as [cl Hs].
  - destruct (s_state (session c)) as [n|] eqn:Hn; [|done]. by eapply sieve_handle_authenticate_ok.
  - apply sound_handled, sieve_handle_noop_ok; [done|]. unfold no_change. by rewrite Ec.
  - apply sound_handled, sieve_handle_logout_ok; [done|]. unfold no_change. by rewrite Ec.
  - apply sound_handled; [done|]. apply sound_calm; [by unfold no_change; rewrite Ec|].
    eapply sieve_wps_mono; [by apply sieve_handle_capability_ok|done|done].
  - apply sound_handled, handle_havespace_ok; [done|]. unfold no_change. by rewrite Ec.
  - by eapply sound_handled, handle_putscript_ok.
  - eapply sound_handled, handle_listscripts_ok; [done| |done]. unfold no_change. by rewrite Ec.
  - by eapply sound_handled, handle_setactive_ok.
  - eapply sound_handled, handle_getscript_ok; [done|done|]. unfold no_change. by rewrite Ec.
  - by eapply sound_handled, handle_deletescript_ok.
  - by eapply sound_handled, handle_renamescript_ok.
  - eapply sound_handled, handle_checkscript_ok; [done| |done]. unfold no_change. by rewrite Ec.
  - apply sound_handled, sieve_handle_noop_ok; [done|]. unfold no_change. by rewrite Ec.
  - by apply sieve_handle_unauthenticate_ok.
Qed.
End Handlers.
