(* ===== verification/SieveProps.v ===== *)
(** * Whole ManageSieve connections

    What holds of the input of a client as a whole: no panic unless requests
    that change the state are followed by others in the same chunk, nothing but
    greetings in the clear, no scripts without valid credentials; the scripts
    follow the abstract store, and what is stored is read back. *)

From S2P Require Import Prelude Utf8 Utf7 Types Receiver ReceiverSpec Wire Parsers ParseFetch Responses FetchWire FetchRead Jmap Store Sasl.
From S2P Require Import Sieve SieveSession SieveSpec SieveHandlers.

Section Connection.
Context {W : Type} `{HB : SieveBackend W} `{HL : !SieveLaws W} `{DebugFmt} `{Base64}.
Context (cargo_pkg_version : str).

Abbreviation Conn := (@Conn W _).
Abbreviation St := (SieveState SieveClient).
Implicit Types (c : Conn) (st : St).

(** The requests a chunk completes. *)
Definition requests_in c (chunk : bytes) : list (Request Command) := omap ok_of (run (s_receiver (session c)) chunk).2.

(** Commands after which whatever was allowed still is. *)
Definition stable (k : Command) : Prop := match k with Authenticate | Unauthenticate => False | _ => True end.

Fixpoint stable_but_last (l : list (Request Command)) : Prop :=
  match l with
  | [] => True
  | q :: l' => (l' = [] \/ stable (req_command q)) /\ stable_but_last l'
  end.

Lemma sieve_stable_but_last_sublist k l : sublist k l -> stable_but_last l -> stable_but_last k.
Proof.
  induction 1 as [|q k l Hsub IH|q k l Hsub IH]; cbn; [done| |]; intros [Hq Hl]; [|by apply IH].
  split; [|by apply IH]. destruct Hq as [->|Hq]; [|by right]. left. by apply sublist_nil_r in Hsub.
Qed.

(** The session with another receiver; nothing else happened. *)
Definition received c c' : Prop :=
  s_state (session c') = s_state (session c) /\ s_is_tls (session c') = s_is_tls (session c) /\
  attempts (trace c') = attempts (trace c) /\ scripts (world c') = scripts (world c).
#[global] Instance received_preorder : PreOrder received.
Proof. split; [done|]. intros c1 c2 c3 (? & ? & ? & ?) (? & ? & ? & ?). split_and!; congruence. Qed.
Lemma calm_received c c' : calm c c' -> received c c'.
Proof. intros (Hs & Ha & Hw). unfold received. by rewrite Hs. Qed.

(** What the state of a connection allows. *)
Definition may_run st (is_tls : bool) (q : Request Command) : Prop :=
  ready (req_command q) st /\ (req_command q = Authenticate -> is_tls = true) /\ (req_command q = StartTls -> is_tls = false).

Lemma allowed_may_run q st is_tls q' : is_allowed q st is_tls = Ok q' -> q' = q /\ may_run st is_tls q.
Proof.
  unfold is_allowed, may_run, ready. destruct (req_command q); repeat case_match; intros [= <-]; try done.
  by destruct is_tls.
Qed.
Lemma sieve_is_allowed_returns q st is_tls : returns (is_allowed q st is_tls).
Proof. unfold is_allowed. destruct (req_command q); by repeat case_match. Qed.

Lemma sieve_collect_ok fuel chunk c :
  (length chunk < fuel)%nat -> literal_ok (s_receiver (session c)) ->
  wps (collect fuel chunk)
    (fun r c' => received c c' /\ literal_ok (s_receiver (session c')) /\ sublist r.1 (requests_in c chunk) /\
       Forall (may_run (s_state (session c)) (s_is_tls (session c))) r.1)
    (fun _ c' => received c c') c.
Proof using HL.
  revert chunk c; induction fuel as [|fuel IH]; intros chunk c Hf Hr; [lia|]. cbn [collect]. wps_steps.
  destruct (parse (s_receiver (session c)) chunk) as [[rc res] rest] eqn:Ep.
  pose proof (parse_literal_ok _ chunk Hr) as [Hrc Hret]. rewrite Ep in Hrc, Hret. cbn in Hrc, Hret.
  pose proof (run_parse (s_receiver (session c)) chunk) as Hrun. rewrite Ep in Hrun.
  pose proof (parse_rest _ _ _ _ _ Ep) as Hrest.
  set (c1 := mkConn (set_receiver (session c) rc) (world c) (trace c)).
  assert (Hc1 : received c c1) by done.
  assert (Hdone : forall c', calm c1 c' ->
    received c c' /\ literal_ok (s_receiver (session c')) /\ sublist [] (requests_in c chunk) /\
      Forall (may_run (s_state (session c)) (s_is_tls (session c))) []).
  { intros c' Hc'. split; [by etransitivity; [exact Hc1|apply calm_received]|]. destruct Hc' as (-> & _).
    split_and!; [done|apply sublist_nil_l|constructor]. }
  apply sieve_wps_bind, sieve_wps_put. fold c1. destruct res as [q|[|size|e]| |]; try done.
  - destruct Hrest as [[? ?]|[_ Hlen]]; [done|].
    assert (Ein : requests_in c chunk = q :: requests_in c1 rest) by (unfold requests_in; by rewrite Hrun).
    pose proof (sieve_is_allowed_returns q (s_state (session c)) (s_is_tls (session c))) as Hal.
    destruct (is_allowed q _ _) as [q'|e'| |] eqn:Ea; try done.
    + apply allowed_may_run in Ea as [-> Hq]. apply sieve_wps_bind. eapply sieve_wps_mono; [apply IH; [lia|done]|..]; [|done].
      intros [l o] c' (Hrec & Hr' & Hsub & Hl). apply sieve_wps_ret. cbn [fst] in *. split_and!; [done|done| |by constructor].
      rewrite Ein. by constructor.
    + apply sieve_wps_bind, sieve_wps_write. intros c' Hc' _. split; [|by etransitivity; [exact Hc1|apply calm_received]].
      eapply sieve_wps_mono; [apply IH; [lia|by destruct Hc' as (-> & _)]|..].
      * intros [l o] c2 (Hrec & Hr' & Hsub & Hl). cbn [fst] in *.
        split; [by etransitivity; [exact Hc1|etransitivity; [apply calm_received|]]|]. split; [done|].
        destruct Hc' as (Hs & _). rewrite Hs in Hl. split; [|done]. rewrite Ein. constructor.
        unfold requests_in in *. by rewrite Hs in Hsub.
      * intros ? c2 Hrec. etransitivity; [exact Hc1|]. etransitivity; [by apply calm_received|done].
  - apply sieve_wps_ret, (Hdone c1). reflexivity.
  - apply sieve_wps_ret, (Hdone c1). reflexivity.
  - apply sieve_wps_bind, sieve_wps_write. intros c' Hc' _. split; [by apply sieve_wps_ret, (Hdone c')|]. by etransitivity; [exact Hc1|apply calm_received].
Qed.

(** ** Dispatching *)
Lemma sieve_trans_ready k k' st st' : stable k -> trans k st st' -> ready k' st -> ready k' st'.
Proof. intros Hk Ht Hr. by destruct Ht as [|n cr w cl -> _ _|n -> _|st -> _]. Qed.

Lemma trans_good k st st' : trans k st st' -> good st -> good st'.
Proof. by destruct 1. Qed.

(** [P] holds as long as all requests go on, [R] of those to come, [X] at the
    end of a connection. *)
Lemma sieve_dispatch_ok (G : list (Request Command) -> Prop) (P : Conn -> Prop) (R : Request Command -> Conn -> Prop) (X : Conn -> Prop) l c :
  (forall q l, G (q :: l) -> G l) ->
  (forall c, P c -> X c) ->
  (forall c c', P c -> calm c c' -> P c') ->
  (forall q rest c, G (q :: rest) -> P c -> R q c -> Forall (fun q => R q c) rest -> req_command q <> StartTls ->
     wps (handle cargo_pkg_version q)
       (fun k c' => if k : bool then P c' /\ Forall (fun q => R q c') rest else X c')
       (fun _ c' => P c' /\ Forall (fun q => R q c') rest) c) ->
  (forall q c c', R q c -> calm c c' -> R q c') ->
  G l -> P c -> Forall (fun q => R q c) l ->
  wps (dispatch cargo_pkg_version l) (fun up c' => P c') (fun _ c' => X c') c.
Proof using HL.
  intros HG HX Hcalm Hh HR. revert c; induction l as [|q l IH]; intros c Hst HP Hl; cbn [dispatch]; [by apply sieve_wps_ret|].
  pose proof (HG _ _ Hst) as Hst'. apply list.Forall_cons in Hl as [Hq Hl]. case_decide as Hs.
  - unfold handle_starttls. apply sieve_wps_bind, sieve_wps_write. intros c' Hc' _.
    split; [|apply HX; by eapply Hcalm]. apply sieve_wps_bind, sieve_wps_world; [auto with imap|..].
    + intros [] w _ Hw. wps_steps. eapply Hcalm; [by eapply Hcalm|]. by split_and!.
    + intros [] w _ Hw. apply HX. eapply Hcalm; [by eapply Hcalm|]. by split_and!.
  - apply sieve_wps_bind, sieve_wps_attempt. eapply sieve_wps_mono; [by apply (Hh q l c)|..].
    + intros [] c' Hk; [|by apply sieve_wps_lift]. destruct Hk as [HP' HR']. by apply IH.
    + intros r c' [HP' HR']. apply sieve_wps_bind, sieve_wps_write. intros c2 Hc2 _. split; [|apply HX; by eapply Hcalm].
      apply IH; [done|by eapply Hcalm|]. eapply Forall_impl; [|exact HR']. intros q' Hq'. exact (HR _ _ _ Hq' Hc2).
Qed.

(** What is left of a chunk: at the end a literal may be announced. *)
Lemma ingest_ok (P : Conn -> Prop) (X : Conn -> Prop) chunk c :
  (length chunk < S (length chunk))%nat -> literal_ok (s_receiver (session c)) ->
  (forall c c', P c -> calm c c' -> P c') -> (forall c, P c -> X c) ->
  (forall c', received c c' -> X c') ->
  (forall l c', received c c' -> literal_ok (s_receiver (session c')) -> sublist l (requests_in c chunk) ->
     Forall (may_run (s_state (session c)) (s_is_tls (session c))) l ->
     wps (dispatch cargo_pkg_version l) (fun _ c' => P c') (fun _ c' => X c') c') ->
  wps (ingest cargo_pkg_version chunk) (fun _ c' => P c') (fun _ c' => X c') c.
Proof using HL.
  intros Hlen Hr Hcalm HPX HX Hd. unfold ingest. apply sieve_wps_bind. eapply sieve_wps_mono; [by apply sieve_collect_ok|..]; [|by auto].
  intros [l o] c1 (Hrec & Hr1 & Hsub & Hl). cbn [fst] in *. apply sieve_wps_bind. eapply sieve_wps_mono; [by apply (Hd l c1)|..]; [|done].
  intros [] c2 HP; [by apply sieve_wps_ret|]. destruct o as [size|]; [|by apply sieve_wps_ret].
  apply sieve_wps_bind, sieve_wps_write. intros c3 Hc3 _. split; [apply sieve_wps_ret|apply HPX]; by eapply Hcalm.
Qed.

Definition healthy c : Prop := literal_ok (s_receiver (session c)) /\ good (s_state (session c)).

(** Input from a client of ManageSieve cannot bring a connection down as long
    as of the requests that come in one chunk only the last is an AUTHENTICATE
    or UNAUTHENTICATE. *)
Lemma ingest_healthy c chunk :
  healthy c -> stable_but_last (requests_in c chunk) ->
  wps (ingest cargo_pkg_version chunk) (fun _ c' => healthy c') (fun _ _ => True) c.
Proof using HL.
  intros [Hr Hg] Hst. apply ingest_ok; try done; [lia|by intros c1 c2 Hh (E & _); unfold healthy; rewrite E|].
  intros l c' (Es & Et & _) Hr' Hsub Hl.
  apply (sieve_dispatch_ok stable_but_last healthy (fun q c => ready (req_command q) (s_state (session c))) (fun _ => True)).
  - by intros q k [_ Hk].
  - done.
  - intros c1 c2 Hh (E & _). unfold healthy. by rewrite E.
  - intros q rest c1 [Hq _] [Hr1 Hg1] Hready Hrest Hne. eapply sieve_wps_mono; [by apply handle_ok|..].
    + intros [] c2 ((Hr2 & _ & Ht & _) & _); [|done]. split; [split; [done|by eapply trans_good]|].
      destruct Hq as [->|Hq]; [constructor|]. eapply Forall_impl; [|exact Hrest]. intros q' Hq'. by eapply sieve_trans_ready.
    + intros r c2 ((Hr2 & _ & Ht & _) & _). split; [split; [done|by eapply trans_good]|].
      destruct Hq as [->|Hq]; [constructor|]. eapply Forall_impl; [|exact Hrest]. intros q' Hq'. by eapply sieve_trans_ready.
  - intros q c1 c2 Hq (E & _). by rewrite E.
  - by eapply sieve_stable_but_last_sublist.
  - split; [done|by rewrite Es].
  - eapply Forall_impl; [|exact Hl]. intros q [Hq _]. by rewrite Es.
Qed.

(** ** In the clear *)
Definition in_clear c : Prop :=
  literal_ok (s_receiver (session c)) /\ s_state (session c) = NotAuthenticated 0 /\ s_is_tls (session c) = false.
(** Nothing was sent to the JMAP server, and no script changed. *)
Definition untouched c c' : Prop := attempts (trace c') = attempts (trace c) /\ scripts (world c') = scripts (world c).

Lemma ingest_in_clear c chunk :
  in_clear c ->
  wps (ingest cargo_pkg_version chunk) (fun _ c' => in_clear c' /\ untouched c c') (fun _ c' => untouched c c') c.
Proof using HL.
  intros (Hr & Hs & Ht).
  assert (Hcalm : forall c1 c2, in_clear c1 /\ untouched c c1 -> calm c1 c2 -> in_clear c2 /\ untouched c c2).
  { intros c1 c2 [Hc1 [U1 U2]] (E1 & E2 & E3). unfold in_clear, untouched. rewrite E1. split; [done|]. by split; congruence. }
  apply ingest_ok; try done; [lia|by intros c1 [_ Hu]|by intros c1 (_ & _ & Ha & Hw)|].
  intros l c' (Es & Et & Ea & Ew) Hr' Hsub Hl. rewrite Hs, Ht in Hl.
  apply (sieve_dispatch_ok (fun _ => True) (fun c' => in_clear c' /\ untouched c c') (fun q _ => may_run (NotAuthenticated 0) false q) (untouched c));
    try done; [by intros c1 [_ Hu]| |].
  - intros q rest c1 _ [(Hr1 & Hs1 & Ht1) [U1 U2]] [Hq [Hauth _]] Hrest Hne.
    assert (Hna : req_command q <> Authenticate) by (intros Ha; by specialize (Hauth Ha)).
    assert (Hnu : req_command q <> Unauthenticate) by (intros Ha; by rewrite Ha in Hq).
    assert (Hkept : forall c2, kept (req_command q) c1 c2 -> in_clear c2 /\ attempts (trace c2) = attempts (trace c1)).
    { intros c2 (Hr2 & Ht2 & Htr & Ha2 & _). split; [|by apply Ha2]. split; [done|]. split; [|congruence].
      rewrite Hs1 in Htr. by inv Htr. }
    assert (Hnc : no_change q) by (unfold no_change; destruct (req_command q); done).
    eapply sieve_wps_mono; [apply handle_ok; rewrite ?Hs1; try done; by eapply Hq|..].
    + intros k c2 (Hk & _ & _ & Hsc). destruct (Hkept c2 Hk) as [Hc2 Ha2]. specialize (Hsc Hnc).
      assert (untouched c c2) by (split; congruence). by destruct k.
    + intros r c2 (Hk & _ & _ & Hsc). destruct (Hkept c2 Hk) as [Hc2 Ha2]. split; [split; [done|split; congruence]|done].
  - split; [|done]. split; [done|]. split; congruence.
Qed.

(** ** Outside *)

(** No credentials are accepted, or none that lead to a server with Sieve. *)
Definition rejects : Prop := forall cr w cl, (sieve_connect cr w).1 = Ok cl -> sieve_capabilities cl = None.

Definition outside (m : ScriptMap) c : Prop :=
  literal_ok (s_receiver (session c)) /\ s_state (session c) = NotAuthenticated (attempts (trace c)) /\
  attempts (trace c) <= 3 /\ scripts (world c) = m /\ (s_is_tls (session c) = false -> attempts (trace c) = 0).
Definition gone_outside (m : ScriptMap) c : Prop := attempts (trace c) <= 4 /\ scripts (world c) = m.

Lemma outside_calm m c c' : outside m c -> calm c c' -> outside m c'.
Proof. intros (Hr & Hs & Ha & Hm & Ht) (E1 & E2 & E3). unfold outside. rewrite E1, E2, E3. done. Qed.
Lemma outside_gone m c : outside m c -> gone_outside m c.
Proof. intros (Hr & Hs & Ha & Hm & Ht). split; [lia|done]. Qed.

Lemma outside_handle m q c :
  rejects -> outside m c -> (forall n, may_run (NotAuthenticated n) (s_is_tls (session c)) q) ->
  wps (handle cargo_pkg_version q)
    (fun k c' => if k : bool then outside m c' /\ s_is_tls (session c') = s_is_tls (session c) else gone_outside m c')
    (fun _ c' => outside m c' /\ s_is_tls (session c') = s_is_tls (session c)) c.
Proof using HL.
  intros Hrej (Hr & Hs & Ha & Hm & Ht) Hrun. pose proof (Hrun (attempts (trace c))) as (Hq & Hauth & _).
  assert (Hnc : no_change q) by (unfold no_change; destruct (req_command q); done).
  assert (Hstate : forall c', kept (req_command q) c c' -> exists n, s_state (session c') = NotAuthenticated n).
  { intros c' (_ & _ & Htr & _). rewrite Hs in Htr. inv Htr as [|n cr w cl _ Hcon [x Hx]| |]; eauto.
    by rewrite (Hrej _ _ _ Hcon) in Hx. }
  assert (Hout : forall c', kept (req_command q) c c' -> counted c c' -> scripts (world c') = scripts (world c) ->
            outside m c' /\ s_is_tls (session c') = s_is_tls (session c)).
  { intros c' Hk Hc Hsc. destruct (Hstate c' Hk) as [n Hn]. destruct Hk as (Hr' & Ht' & _ & Hna & _).
    unfold counted in Hc. rewrite Hs, Hn in Hc. destruct Hc as [-> Hle]. split; [|done].
    split; [done|]. split; [rewrite Hn; f_equal; lia|]. split; [lia|]. split; [congruence|].
    rewrite Ht'. intros Hclear. rewrite Hna; [by apply Ht|]. intros Hc. rewrite Hclear in Hauth. by specialize (Hauth Hc). }
  eapply sieve_wps_mono; [apply handle_ok; rewrite ?Hs; done|..].
  - intros k c' (Hk & Hc & _ & Hsc). specialize (Hsc Hnc). destruct k; [by apply Hout; [|apply Hc|]|].
    destruct Hk as (_ & _ & _ & _ & Hle). split; [lia|congruence].
  - intros r c' (Hk & Hc & _ & Hsc). by apply Hout.
Qed.

Lemma may_run_outside n st is_tls q : is_authenticated st = false -> may_run st is_tls q -> may_run (NotAuthenticated n) is_tls q.
Proof. intros Hst (Hq & Hrest). split; [|done]. by destruct st, (req_command q). Qed.

Lemma sieve_outside_ingest m chunk c :
  rejects -> outside m c -> wps (ingest cargo_pkg_version chunk) (fun _ c' => outside m c') (fun _ c' => gone_outside m c') c.
Proof using HL.
  intros Hrej Hout. pose proof Hout as (Hr & Hs & Ha & Hm & Ht).
  apply ingest_ok; [lia|done|apply outside_calm|apply outside_gone|..].
  { intros c' (_ & _ & E2 & E3). split; [lia|congruence]. }
  intros l c' (E1 & E2 & E3 & E4) Hr' _ Hl.
  assert (Hout' : outside m c') by (unfold outside; rewrite E1, E2, E3, E4; done).
  eapply sieve_wps_mono; [apply (sieve_dispatch_ok (fun _ => True) (fun c1 => outside m c1 /\ s_is_tls (session c1) = s_is_tls (session c))
    (fun q _ => forall n, may_run (NotAuthenticated n) (s_is_tls (session c)) q) (gone_outside m))| |done]; try done.
  - intros c1 [Hc1 _]. by apply outside_gone.
  - intros c1 c2 [Hc1 E] Hc. split; [by eapply outside_calm|]. destruct Hc as (-> & _). done.
  - intros q rest c1 _ [Hc1 E] Hq Hrest _. eapply sieve_wps_mono; [apply outside_handle; [done|done|by rewrite E]|..].
    + intros [] c2 Hc2; [|done]. destruct Hc2 as [Hc2 E']. split; [|done]. split; [done|congruence].
    + intros r c2 [Hc2 E']. split; [|done]. split; [done|congruence].
  - eapply Forall_impl; [|exact Hl]. intros q Hq n. eapply may_run_outside; [|exact Hq]. by rewrite Hs.
  - by intros up c1 [Hc1 _].
Qed.

Lemma outside_greet m t c : outside m c -> wps (greet cargo_pkg_version t) (fun _ c' => outside m c') (fun _ c' => gone_outside m c') c.
Proof using HL.
  intros Hout. pose proof Hout as (Hr & Hs & Ha & Hm & Ht). unfold greet. apply sieve_wps_bind, sieve_wps_world; [auto with imap|..].
  - intros [] w _ Hw. apply sieve_wps_bind, sieve_wps_attempt. eapply sieve_wps_mono; [apply sieve_handle_capability_ok; cbn; by rewrite Hs| |done].
    intros k c' Hc. assert (Hout' : outside m c') by (eapply outside_calm; [exact Hout|etransitivity; [|exact Hc]; by split_and!]).
    destruct k; [by apply sieve_wps_ret|]. apply sieve_wps_lift; [done..|]. intros [] _. by apply outside_gone.
  - intros [] w _ Hw. split; cbn; [lia|congruence].
Qed.

Lemma outside_farewell m t c : outside m c -> wps (farewell t) (fun _ c' => outside m c') (fun _ c' => gone_outside m c') c.
Proof using HL.
  intros Hout. unfold farewell. apply sieve_wps_bind, sieve_wps_attempt, sieve_wps_write. intros c' Hc _. split; by apply sieve_wps_ret; eapply outside_calm.
Qed.

Lemma outside_loop m inputs c :
  rejects -> outside m c -> wps (conn_loop cargo_pkg_version inputs) (fun _ c' => outside m c') (fun _ c' => gone_outside m c') c.
Proof using HL.
  intros Hrej. revert c; induction inputs as [|input inputs IH]; intros c Hout; cbn [conn_loop]; [by apply sieve_wps_ret|].
  destruct input as [chunk| | |]; [|by apply sieve_wps_ret|by apply outside_farewell|by apply outside_farewell].
  destruct chunk as [|ch chunk]; [by apply sieve_wps_ret|]. apply sieve_wps_bind.
  eapply sieve_wps_mono; [by apply sieve_outside_ingest| |done]. intros up c1 Hc1. apply sieve_wps_bind. destruct up; [|by apply sieve_wps_ret, IH].
  apply sieve_wps_bind, sieve_wps_modify. eapply sieve_wps_mono; [apply outside_greet|by intros [] c2; apply IH|done].
  destruct Hc1 as (Hr & Hs & Ha & Hm & Ht). by split_and!.
Qed.
End Connection.

(** ** Properties *)
Section Properties.
Context {W : Type} `{HB : SieveBackend W} `{HL : !SieveLaws W} `{DebugFmt} `{Base64}.
Context (cargo_pkg_version : str).

(** C20: Input from a client of ManageSieve cannot bring a connection down,
    whatever the JMAP server answers, as long as of the requests that come in
    one chunk only the last is an AUTHENTICATE or UNAUTHENTICATE: every handler
    finds a client when it needs one, and a client that is kept has the
    capabilities that CAPABILITY unwraps. *)
Theorem sieve_never_panics chunk (c : Conn) :
  healthy c -> stable_but_last (requests_in c chunk) ->
  match ingest cargo_pkg_version chunk c with
  | (Ok _, c') => healthy c'
  | (Err _, _) => True
  | _ => False
  end.
Proof using HL. apply ingest_healthy. Qed.

(** A client whose credentials are never accepted (or lead to a server
    without Sieve) stays outside, whatever it sends and however the connection
    ends: no script changes, at most three failed attempts are counted while
    the connection lasts and a fourth ends it, and as long as the connection is
    in the clear there is no attempt at all. *)
Theorem sieve_outside inputs max is_tls w :
  rejects ->
  match handle_conn cargo_pkg_version inputs (mkConn (new_session max is_tls) w []) with
  | (Ok _, c) =>
      scripts (world c) = scripts w /\ s_state (session c) = NotAuthenticated (attempts (trace c)) /\ attempts (trace c) <= 3 /\
      (s_is_tls (session c) = false -> attempts (trace c) = 0)
  | (Err _, c) => scripts (world c) = scripts w /\ attempts (trace c) <= 4
  | _ => False
  end.
Proof using HL.
  intros Hrej.
  assert (Hout : outside (scripts w) (mkConn (new_session max is_tls) w [])) by by split_and!.
  assert (Hw : wps (handle_conn cargo_pkg_version inputs) (fun _ c' => outside (scripts w) c') (fun _ c' => gone_outside (scripts w) c')
                 (mkConn (new_session max is_tls) w [])).
  { apply sieve_wps_bind. eapply sieve_wps_mono; [by apply outside_greet| |done]. intros [] c Hc. by apply outside_loop. }
  unfold wps in Hw. destruct (handle_conn _ _ _) as [[[]|[]| |] c]; try done.
  - destruct Hw as (? & ? & ? & ? & ?). by split_and!.
  - by destruct Hw.
Qed.

(** C21: Every command does to the scripts of an account what the abstract
    store says, or answers NO and changes nothing: PUTSCRIPT adds an inactive
    script under a new name, DELETESCRIPT removes one that is not active,
    RENAMESCRIPT moves one to a name that is free, SETACTIVE makes one script
    the only active one or none, and nothing else changes them. The names that
    commands look up must not be part of the names of other scripts, since the
    JMAP server looks for parts of names. *)
Theorem sieve_refines_store q (c : Conn) A :
  healthy c -> ready (req_command q) (s_state (session c)) -> unambiguous q (scripts (world c)) ->
  stored blob_content (scripts (world c)) A ->
  match handle cargo_pkg_version q c with
  | (Ok _, c') => exists A', script_spec q A = Some A' /\ stored blob_content (scripts (world c')) A'
  | (Err r, c') => rtype r = RtNo /\ stored blob_content (scripts (world c')) A
  | _ => False
  end.
Proof using HL.
  intros [Hr Hg] Hq Hun HA. pose proof (handle_ok cargo_pkg_version q c Hr Hg Hq) as Hh. unfold handled, wps in Hh.
  destruct (handle _ _ _) as [[k|r| |] c']; try done.
  - destruct Hh as (_ & _ & Href & _). by apply Href.
  - destruct Hh as (_ & _ & Hno & ->). done.
Qed.

(** *** Reading the answers *)
Lemma escaped_quoted x : [DQUOTE] ++ escaped x ++ [DQUOTE] = quoted_string x.
Proof.
  unfold quoted_string, escaped. cbn [app]. f_equal. f_equal. apply flat_map_ext. intros ch. unfold quote_byte.
  by rewrite orb_comm.
Qed.

Definition script_trees (p : str * bool) : list Tree := Quoted p.1 :: (if p.2 then [Atom (b "ACTIVE")] else []).

Lemma lex_script_line n a rest :
  text_ok n -> lex MNeutral (script_line (Some n, a) ++ rest) = app (flat_map flatten (script_trees (n, a)) ++ [TLine]) <$> lex MNeutral rest.
Proof.
  intros Hn. unfold script_line. cbn [fst snd].
  assert (Hend : lex MNeutral (CRLF ++ rest) = app [TLine] <$> lex MNeutral rest) by (cbn; by destruct (lex MNeutral rest)).
  destruct a.
  - replace (([DQUOTE] ++ escaped n ++ [DQUOTE] ++ b " ACTIVE" ++ CRLF) ++ rest)
      with (quoted_string n ++ b " " ++ b "ACTIVE" ++ CRLF ++ rest) by (rewrite <- escaped_quoted, <- !app_assoc; done).
    rewrite (closes_quoted n Hn). change (b " " ++ ?r) with (32 :: r). rewrite lex_space.
    change (CRLF ++ rest) with (13 :: 10 :: rest) in *.
    rewrite (shows_atom (b "ACTIVE") ltac:(by split) 13 (10 :: rest) eq_refl), Hend, !app_fmap. done.
  - replace (([DQUOTE] ++ escaped n ++ [DQUOTE] ++ CRLF) ++ rest) with (quoted_string n ++ CRLF ++ rest)
      by (rewrite <- escaped_quoted, <- !app_assoc; done).
    rewrite (closes_quoted n Hn), Hend, !app_fmap. done.
Qed.

Lemma lex_ok : lex MNeutral (b "OK" ++ CRLF) = Some [TAtom (b "OK"); TLine].
Proof. done. Qed.

Lemma read_scripts l :
  Forall text_ok (map fst l) ->
  read_lines (serialize (ok []) (flat_map script_line (map (fun p => (Some p.1, p.2)) l))) = Some (map script_trees l ++ [[Atom (b "OK")]]).
Proof.
  intros Hl. unfold read_lines, serialize. cbn [code rtype ok message render flat_map].
  assert (Hlex : lex MNeutral (flat_map script_line (map (fun p => (Some p.1, p.2)) l) ++ b "OK" ++ CRLF) =
    Some (flat_map (fun p => flat_map flatten (script_trees p) ++ [TLine]) l ++ [TAtom (b "OK"); TLine])).
  { induction l as [|[n a] l IH]; [apply lex_ok|]. cbn [map flat_map]. apply list.Forall_cons in Hl as [Hn Hl].
    rewrite <- !app_assoc. cbn [fst snd]. rewrite lex_script_line by done. rewrite IH by done. cbn. by rewrite <- !app_assoc. }
  rewrite bool_decide_eq_true_2 by done. cbn [negb response_type_serialize app]. change (b "OK" ++ [] ++ [] ++ CRLF) with (b "OK" ++ CRLF). rewrite Hlex. cbn [option_bind mbind].
  clear. induction l as [|p l IH]; [done|]. cbn [flat_map map app]. rewrite <- !app_assoc, read_trees_all. cbn [app read_trees].
  by rewrite IH.
Qed.

Lemma read_script x : length_ok x ->
  read_lines (serialize (ok []) (b "{" ++ dec (Z.of_nat (length x)) ++ b "}" ++ CRLF ++ x)) = Some [[Literal false x; Atom (b "OK")]].
Proof.
  intros Hx. unfold read_lines, serialize. cbn [code rtype ok message render flat_map].
  rewrite bool_decide_eq_true_2 by done. cbn [negb response_type_serialize].
  change (b "{" ++ dec (Z.of_nat (length x)) ++ b "}" ++ CRLF ++ x) with (literal_string x).
  rewrite (closes_literal x Hx). change (b "OK" ++ [] ++ [] ++ CRLF) with (b "OK" ++ CRLF). by rewrite lex_ok.
Qed.

End Properties.

(** ** A JMAP server with the scripts of one account *)
Module Demo.
#[export] Instance debug : DebugFmt := {| debug_str s := s; debug_char c := [c] |}.
#[export] Instance base64 : Base64 := fun x => Some x.

(** An id that is longer than every other one. *)
Definition next_id (m : ScriptMap) : str := concat (map fst (map_to_list m)) ++ [0].
Definition taken (m : ScriptMap) (n : str) : bool := existsb (fun p => bytes_eqb (sc_name p.2) n) (map_to_list m).
Definition fails {A} (e : SetErrorType) : EM ScriptMap JmapError A := lift (Err (SetError e None)).
Definition put_map (m : ScriptMap) : EM ScriptMap JmapError unit := fun _ => (Ok tt, m).
Definition with_script (id : str) (f : ScriptMap -> Script -> EM ScriptMap JmapError unit) : EM ScriptMap JmapError unit :=
  fun m => match m !! id with Some s => f m s m | None => fails NotFound m end.

(** The id of a blob is its text; [accept] says whether one may log in. *)
Definition server (accept : bool) : SieveBackend ScriptMap := {|
  SieveClient := unit;
  sieve_connect _ := if accept then ret tt else lift (Err tt);
  sieve_capabilities _ := Some (mkSieveCapabilities [b "fileinto"; b "vacation"] None (Some 1));
  sieve_script_query _ n := fun m => (Ok (map fst (List.filter (fun p => occurs n (sc_name p.2)) (map_to_list m))), m);
  sieve_script_activate _ id := with_script id (fun m _ => put_map (activated id m));
  sieve_script_deactivate _ := fun m => put_map (deactivated m) m;
  sieve_script_get _ id := fun m => (Ok (Some <$> (sc_blob <$> m !! id)), m);
  download _ blob := ret blob;
  sieve_script_create _ n x activate := fun m =>
    if taken m n then fails SAlreadyExists m else put_map (<[next_id m := mkScript n x activate]> m) m;
  sieve_script_destroy _ id := with_script id (fun m s => if sc_active s then fails ScriptIsActive else put_map (delete id m));
  sieve_script_rename _ id n _ := with_script id (fun m s =>
    if taken (delete id m) n then fails SAlreadyExists else put_map (alter (fun s => mkScript n (sc_blob s) (sc_active s)) id m));
  sieve_script_validate _ x := if occurs (b ":invalidtag") x then fails InvalidScript else ret tt;
  get_sieve_script _ := fun m => (Ok ((fun p => (Some (sc_name p.2), sc_active p.2)) <$> map_to_list m), m);
  sieve_send _ := ret tt;
  sieve_set_stream := ret tt;
  sieve_recover_stream := ret tt
|}.

Lemma next_id_free (m : ScriptMap) : m !! next_id m = None.
Proof.
  apply eq_None_not_Some. intros [s Hs%elem_of_map_to_list].
  assert (Hl : forall l : list (str * Script), (next_id m, s) ∈ l -> (length (next_id m) <= length (concat (map fst l)))%nat).
  { induction l as [|[i t] l IH]; [by intros ?%elem_of_nil|]. cbn. rewrite length_app. intros [[= <- <-]|Hin]%elem_of_cons; [lia|].
    specialize (IH Hin). lia. }
  apply Hl in Hs. unfold next_id in Hs at 1. rewrite length_app in Hs. cbn in Hs. lia.
Qed.

Lemma taken_false m n : taken m n = false -> forall i s, m !! i = Some s -> sc_name s <> n.
Proof.
  unfold taken. intros Ht i s Hi%elem_of_map_to_list Hn. apply not_true_iff_false in Ht. apply Ht, existsb_exists.
  exists (i, s). split; [by apply list_elem_of_In|]. by apply bytes_eqb_eq.
Qed.

Lemma query_finds_ok accept n w ids :
  (@sieve_script_query _ (server accept) tt n w).1 = Ok ids -> forall id, id ∈ ids <-> exists s, w !! id = Some s /\ occurs n (sc_name s) = true.
Proof.
  intros [= <-] id. rewrite list_elem_of_fmap. split.
  - intros ([i s] & -> & Hin). apply list_elem_of_In, filter_In in Hin as [Hin Ho].
    apply list_elem_of_In, elem_of_map_to_list in Hin. by exists s.
  - intros (s & Hs & Ho). exists (id, s). split; [done|]. apply list_elem_of_In, filter_In. split; [|done].
    by apply list_elem_of_In, elem_of_map_to_list.
Qed.

Definition server_laws accept : @SieveLaws ScriptMap (server accept).
Proof.
  unshelve eapply Build_SieveLaws; [exact (fun m => m)|exact (fun x => x)|..]; try (intros; by intros w).
  - intros cr w. cbn. by destruct accept.
  - intros c x w. cbn. by case_match.
  - intros [] n w ids. apply query_finds_ok.
  - intros c id w blob. cbn. destruct (w !! id) as [s|]; [|done]. intros [= <-]. by exists s.
  - by intros c blob w x [= <-].
  - by intros c w l [= <-].
  - intros c n x activate w. cbn. destruct (taken w n) eqn:Et; [done|]. split; [by apply taken_false|].
    exists (next_id w), x. split; [apply next_id_free|done].
  - intros c id w. cbn. unfold with_script. destruct (w !! id) as [s|] eqn:E; [|done].
    destruct (sc_active s) eqn:Ea; [done|]. split; [|done]. intros s' [= <-]. done.
  - intros c id n w. cbn. unfold with_script. destruct (w !! id) as [s|] eqn:E; [|done].
    destruct (taken (delete id w) n) eqn:Et; [done|]. split; [|done]. intros i t Hi Ht. apply (taken_false _ _ Et i).
    rewrite lookup_delete_ne by congruence. done.
  - intros c id w. cbn. unfold with_script. by destruct (w !! id) as [s|].
Defined.

#[export] Instance open_server : SieveBackend ScriptMap := server true.
#[export] Instance open_server_laws : SieveLaws ScriptMap := server_laws true.

Definition start (m : ScriptMap) : @Conn ScriptMap _ := mkConn (new_session 10000 true) m [].
Definition logged_in (m : ScriptMap) : @Conn ScriptMap _ :=
  mkConn (set_state (new_session 10000 true) (Authenticated tt)) m [].
Definition line (x : bytes) : bytes := x ++ CRLF.
Definition quote (x : string) : bytes := [DQUOTE] ++ b x ++ [DQUOTE].

(** What the client reads while the server serves these chunks. *)
Definition answers (c : @Conn ScriptMap _) (chunks : list bytes) : list bytes :=
  omap (fun e => match e with Wrote x => Some x | _ => None end)
    (trace (conn_loop (b "0.1") (map Read chunks) c).2).
Definition panics (c : @Conn ScriptMap _) (chunks : list bytes) : bool :=
  match (conn_loop (b "0.1") (map Read chunks) c).1 with Panic => true | _ => false end.

(** The session of [src/tests/managesieve.rs], from the first script on. *)
Example conversation :
  answers (logged_in ∅)
    [line (b "PUTSCRIPT " ++ quote "simple script" ++ b " {19+}" ++ CRLF ++ b "if true { keep; }" ++ CRLF);
     line (b "PUTSCRIPT " ++ quote "simple script" ++ b " " ++ quote "discard;");
     line (b "RENAMESCRIPT " ++ quote "simple script" ++ b " " ++ quote "minimalist script");
     line (b "SETACTIVE " ++ quote "minimalist script");
     line (b "LISTSCRIPTS");
     line (b "DELETESCRIPT " ++ quote "minimalist script");
     line (b "SETACTIVE " ++ quote "");
     line (b "DELETESCRIPT " ++ quote "minimalist script");
     line (b "LISTSCRIPTS")] =
  [line (b "OK " ++ quote "Success.");
   line (b "NO (ALREADYEXISTS) " ++ quote "The referenced script name already exists.");
   line (b "OK " ++ quote "Success."); line (b "OK " ++ quote "Success");
   line (quote "minimalist script" ++ b " ACTIVE") ++ line (b "OK");
   line (b "NO (ACTIVE) " ++ quote "You may not delete an active script.");
   line (b "OK " ++ quote "Success"); line (b "OK " ++ quote "Deleted."); line (b "OK")].
Proof. vm_compute. reflexivity. Qed.

Definition one (n x : string) : ScriptMap := {[ b "1" := mkScript (b n) (b x) false ]}.

(** A script whose name contains the name that is asked for is taken for it. *)
Example wrong_script_deleted :
  (conn_loop (b "0.1") [Read (line (b "DELETESCRIPT " ++ quote "cat"))] (logged_in (one "vacation" "discard;"))).2.(world) = ∅.
Proof. vm_compute. reflexivity. Qed.

(** The literal of GETSCRIPT is not followed by a line end. *)
Example getscript_without_line_end :
  answers (logged_in (one "a" "keep;")) [line (b "GETSCRIPT " ++ quote "a")] = [line (b "{5}" ++ CRLF ++ b "keep;OK")].
Proof. vm_compute. reflexivity. Qed.

(** UNAUTHENTICATE and a command on scripts in one chunk. *)
Example unauthenticate_then_list_panics :
  panics (logged_in ∅) [line (b "UNAUTHENTICATE") ++ line (b "LISTSCRIPTS")] = true /\
  panics (logged_in ∅) [line (b "UNAUTHENTICATE"); line (b "LISTSCRIPTS")] = false.
Proof. vm_compute. split; reflexivity. Qed.
End Demo.
#[local] Existing Instances Demo.debug Demo.base64 Demo.open_server Demo.open_server_laws.

Lemma sieve_never_panics_witness :
  let chunk := Demo.line (b "LISTSCRIPTS") ++ Demo.line (b "UNAUTHENTICATE") in
  (ingest (b "0.1") chunk (Demo.logged_in ∅)).1 <> Panic.
Proof.
  intros chunk Hp. pose proof (sieve_never_panics (b "0.1") chunk (Demo.logged_in ∅)) as Hn.
  assert (Hh : healthy (Demo.logged_in ∅)) by (split; [by split|by eexists]).
  assert (Hq : requests_in (Demo.logged_in ∅) chunk = [mkRequest [] ListScripts []; mkRequest [] Unauthenticate []])
    by (vm_compute; reflexivity).
  destruct (ingest _ _ _) as [res c]. cbn in Hp. subst res. apply Hn; [exact Hh|].
  rewrite Hq. split; [right; exact I|]. split; [left; reflexivity|exact I].
Defined.

(** Nobody is let in. *)
Lemma sieve_outside_witness :
  let input := Read (Demo.line (b "AUTHENTICATE PLAIN x") ++ Demo.line (b "LISTSCRIPTS")) in
  let run := @handle_conn ScriptMap (Demo.server false) _ _ (b "0.1") [input; TimedOut]
               (mkConn (new_session 1000 true) (Demo.one "a" "keep;") []) in
  run.1 = Ok tt /\ @world ScriptMap (Demo.server false) run.2 = Demo.one "a" "keep;".
Proof.
  intros input run.
  pose proof (@sieve_outside ScriptMap (Demo.server false) (Demo.server_laws false) _ _ (b "0.1") [input; TimedOut] 1000 true
    (Demo.one "a" "keep;") ltac:(intros cr w cl [=])) as Ho.
  assert (E : run.1 = Ok tt) by (vm_compute; reflexivity). unfold run in *.
  destruct (handle_conn _ _ _) as [res c]. cbn [fst snd] in *. rewrite E in Ho. split; [exact E|exact (proj1 Ho)].
Defined.

Lemma sieve_refines_store_witness :
  let q := mkRequest [] RenameScript [Argument (b "a"); Argument (b "b")] in
  let A := {[ b "a" := (b "keep;", false) ]} in
  exists A', script_spec q A = Some A' /\ A' !! b "b" = Some (b "keep;", false) /\
    stored (blob_content (W := ScriptMap)) (world (handle (b "0.1") q (Demo.logged_in (Demo.one "a" "keep;"))).2) A'.
Proof.
  intros q A.
  assert (HA : stored (blob_content (W := ScriptMap)) (scripts (world (Demo.logged_in (Demo.one "a" "keep;")))) A).
  { apply (stored_insert (fun x => x) ∅ ∅ (b "1") (b "a") (b "keep;") false); [|reflexivity..].
    split; [intros i j s t Hs; discriminate Hs|]. intros n p. split; [intros Hp; discriminate Hp|intros (i & s & Hs & _); discriminate Hs]. }
  assert (Hun : unambiguous q (scripts (world (Demo.logged_in (Demo.one "a" "keep;"))))).
  { intros n Hn i s Hi _. injection Hn as <-.
    apply (lookup_singleton_Some (b "1") i (mkScript (b "a") (b "keep;") false) s) in Hi as [_ <-]. reflexivity. }
  pose proof (sieve_refines_store (b "0.1") q (Demo.logged_in (Demo.one "a" "keep;")) A
    ltac:(split; [by split|by eexists]) eq_refl Hun HA) as Hr.
  assert (E : match (handle (b "0.1") q (Demo.logged_in (Demo.one "a" "keep;"))).1 with Ok _ => true | _ => false end = true)
    by (vm_compute; reflexivity).
  destruct (handle _ _ _) as [[k|r| |] c]; [|discriminate E..]. destruct Hr as (A' & HA' & Hst). exists A'. split; [exact HA'|].
  split; [|exact Hst]. vm_compute in HA'. injection HA' as <-. vm_compute. reflexivity.
Defined.

